(* ===== verification/_CoqProject ===== *)
-Q . S2P
Prelude.v
GoStrings.v
Utf8.v
GoInt.v
GoJson.v
Sha256.v
Values.v
Lifecycle.v
History.v
MemorySummary.v
Memory.v
MemoryProjection.v
MemoryPrompt.v
TopoSort.v
HistoryOrder.v
ContextBranch.v
BranchFrame.v
Graph.v
Ancestry.v
ContextQuery.v
PublicationCatalog.v
PublicationBranches.v
PublicationOrder.v
PublicationPlan.v
Tracking.v
BranchPull.v
AgentBudget.v
AgentPrompt.v
EventProofs.v
EventScanner.v
EventReuse.v
Catalog.v
CatalogMerkle.v
Staging.v
CanonicalJson.v
Cir.v
Documents.v
AgentHistory.v
Settings.v
Capture.v
ServerGraph.v
SessionJoin.v
JoinStore.v
JoinJournal.v
StoreOps.v
StorePublication.v
PublicationRetry.v
