(* ===== verification/Prelude.v ===== *)
(** * A verified model of the CXTHub context domain

    CXTHub keeps the conversations of coding agents beside the code they produced, the
    way a Git host keeps commits: immutable content-addressed snapshots of sessions,
    branches with identities of their own, an append-only history of events per
    repository, memory distilled from snapshots, and a protocol that publishes, pulls
    and tracks branches between clients and a server.  The rules are the pure Go code of
    [src/cli/internal/domain] and, on the server, the part of [src/backend/internal] that
    keeps the graph of snapshots: its file store, the publication of snapshots and the joins of
    sessions.  This library translates those functions and proves what makes them correct; the applications,
    transports and hooks around them call these functions and are not modelled.

    ** Parts and how they interact

    - Values.  Content hashes, ref names and refs, SHA-256 ([values.go], [hash.go]):
      [Sha256], [Values].  Everything else is addressed with them.
    - Lifecycle tags.  Immutable tags that record when a branch name was archived or
      active ([branch_lifecycle.go]): [Lifecycle].
    - History.  Events, their validators, dependencies and pins ([history.go],
      [git_creation.go], [pull_request.go], [context_pin.go]): [History].
    - Order and branches.  Events are put in dependency order and folded into the
      projection of branch identities ([context_branch.go]): [TopoSort], [HistoryOrder],
      [ContextBranch]; [BranchFrame] says which parts of a history can be projected alone.
    - Snapshots.  The ancestry graph with its graft overlay and the walks over it
      ([entities.go], [history_query.go]): [Graph], [Ancestry].
    - Queries.  A client's validation of a server's answer and of paged conversation
      segments ([history_query.go]): [ContextQuery].
    - Publication.  Which events, refs and snapshots a push may send ([publication_plan.go],
      [publication_groups.go], [publication_projection.go], [publication_history.go]):
      [PublicationCatalog] (indices and completion groups), [PublicationBranches] (the
      branches a selection touches), [PublicationOrder] (the payload order) and
      [PublicationPlan] (the planner).
    - Tracking and pulls.  Whether an observed server branch may be adopted, which proof
      is retained, and the inventory of a branch pull ([tracking.go], [branch_pull.go],
      [branch_pull_validate.go]): [Tracking], [BranchPull].
    - Memory.  Digests merged along a lineage, their text format, prompt projections and
      claims ([entities.go], [memory_sequence.go], [memory_claims.go],
      [memory_prompt.go]): [MemorySummary], [Memory], [MemoryProjection], [MemoryPrompt].
    - Conversation documents.  Events and their canonical bytes, versions and the effective
      context ([cir.go], [cir_version.go], [canonical_event_json.go], [hash.go]):
      [CanonicalJson], [Cir].  Manifests that cut a document into chunks, the scanner that
      verifies them byte by byte, the bounded cache of event proofs and its fast path
      ([conversation_manifest.go], [conversation_manifest_verify.go],
      [stored_document_verifier.go]): [EventProofs], [EventScanner], [EventReuse].  Building
      a manifest from a document, identities and the comparison of two documents
      ([conversation_manifest_build.go], [conversation_manifest_cir.go],
      [document_identity.go], [context_diff.go]): [Documents].
    - Session catalogs.  Entries, pages, acquisition runs and the complete image
      ([catalog.go], [catalog_validate.go], [snapshot_state.go]): [Catalog]; the Merkle tree
      over an image and its pages ([catalog_merkle.go]): [CatalogMerkle].
    - Agents.  Context budgets, token accounting and the feedback of observed turns
      ([agent_context_budget.go], [agent_input_accounting.go], [agent_input_calibration.go]
      and parts of [agent_context.go]): [AgentBudget]; prompt reservations
      ([agent_initial_prompt.go]): [AgentPrompt]; pages of history ([agent_history_page.go]):
      [AgentHistory].
    - Local state.  The staging index and its consumption by a commit ([staging.go],
      [working_position.go]): [Staging]; settings bundles ([settings.go]): [Settings];
      frozen inputs, capture attempts and their publications ([frozen_capture.go],
      [capture_recovery.go]): [Capture].
    - Joining sessions on the server ([src/backend/internal]).  The snapshot graph and its
      walks ([domain/entities.go], [domain/join.go]): [ServerGraph]; the plan that moves a
      preserved session onto the head of its branch, and the revision of the scope an
      approval is bound to ([domain/join.go], [join_mutation.go], [join_preview.go]):
      [SessionJoin]; the contract of a mutation, its revalidation against the locked graph,
      the graft registers it writes and the order of the writes ([domain/join_validation.go],
      [adapters/store/fs_store.go]): [JoinStore]; the journal, crash recovery and
      [ApplyJoin] of the file store ([adapters/store/fs_store.go]): [JoinJournal].
    - The graph store on the server.  The operations that change one snapshot
      ([adapters/store/fs_store.go]): [StoreOps]; the publication of a batch of snapshots, its
      validation, and the store as a state machine of all these operations, joins included
      ([app/document_publication_algorithms.go], [domain/snapshot_validation.go]):
      [StorePublication]; which batches the validation accepts, and the repetition of a
      publication that met faults: [PublicationRetry].
    - [Prelude] (this file), [GoStrings], [Utf8], [GoInt] and [GoJson] hold what is shared:
      errors and loops, and the strings, runes, 64-bit integers, timestamps and JSON texts
      of Go and its standard library.

    ** Correspondence with the code

    A Go function is a definition with its name; a loop body or an inner closure that is
    worth naming is a definition of its own, called where the code runs it.  Structs are
    records whose fields carry a short prefix.  A function that returns an error is a
    [result]: checks are made in the order of the code, so the first failing check decides
    the error.  Loops are [for_each] and [fold_each] with the loop's variables as the
    state, or left folds; maps are [gmap] and [gset]; a slice is a [list], or a [slice]
    (an optional list) where the code distinguishes nil.  The iteration order of a Go map
    is that of [map_to_list], and results that could depend on it are proved independent
    of it.  [sort.Slice] is [sort_slice], a sort by the same comparison.  The publication
    planner threads its shared maps through a state and error monad in which a failed
    visit keeps its writes, so that the code's rollback is modelled.  The file store is a
    disk (the decoded objects and refs of a repository, its reflog and its journal) changed by
    programs of durable writes; a list of fates decides for each write whether it succeeds,
    fails without or after its effect, or is where the process dies.  Machine integers are
    [Z] or [N]; the token arithmetic of budgets wraps as the machine's does, and counters
    that can overflow (generations, staging sequences, counts of a tree) keep their width.

    ** What the theorems show

    - Ordering and branches: the order is a permutation that respects dependencies and
      breaks ties by time and id, exists exactly when the history is consistent and
      acyclic, and is independent of delivery order; the projection refines a declarative
      specification; an identity's events form one line, a name has one holder, an
      archive is final; a dependency-closed part projects to the same branches.
    - Publication: the payload stays within the authority, is complete, causally ordered
      and sends each event once; refs are pushed for authorized branches only; groups of
      completions are ordered by ancestry; the planner always terminates.
    - Tracking and pulls: adoption never replaces an unpublished local selection; the
      proof retained is exactly the dependency closure that is needed and validates again
      on its own; an accepted inventory is complete and trackable.
    - Queries: following the cursor of validated pages visits every entry of one state
      once; every entry is bound to its snapshot, document and receipts.
    - Memory: merging a sequence is the pairwise fold; inherited fragments come first and
      none is lost; rendered facts and tasks are exactly those of the fragments, tasks
      only since the newest authority; what is appended to a baseline is split off again;
      item normal forms are fixed points; projections remove exactly what was replayed;
      only attested tasks reach a prompt; claims are accepted exactly when well formed.
    - Documents: a root verifies exactly when its chunks spell the recorded events, and then
      names a document whose canonical bytes they are; building a manifest loses nothing;
      the cache is a bounded queue and changes no verdict, also when other calls change it
      between bytes; the fast path and the direct serializer agree with the general ones;
      comparison finds the longest common prefix.
    - Catalogs: the pages of a run are strictly ordered, so a run ends; the image says
      exactly what its entries hold; the tree does not depend on the order of the entries,
      holds each once, in its bucket, and the pages of a leaf reassemble it.
    - Agents: a budget never plans past its window and its receipt is accepted for exactly
      what it was made for; feedback is order-independent and adapting to refusals ends;
      a reservation authorizes exactly the reserved prompt; pages of history tile the
      document downwards in complete turns, and reading backwards ends.
    - Local state: a commit consumes exactly the entries it froze, and retrying it changes
      nothing; a settings bundle cannot leave its directory; a complete capture accounts
      for its target and every provider, and its publication is valid and proved by it.
    - Joins: a plan exists exactly for a joinable session and is the one described; joining
      loses no reachable snapshot; its mutation is accepted by the store, and no prefix of its
      writes or of their rollback closes a cycle; whatever writes fail and however often
      recovery itself is interrupted, a restart leaves the store as it was or entirely
      joined, and joined when the call succeeded.  A journal whose join empties a register is
      refused by that restart, which is a fault of the code.
    - The graph store: whatever operations run and whatever their writes meet, the store stays
      well formed and acyclic, objects keep their identity and registers change only under a
      higher sequence; a graft event takes effect exactly once however often it is delivered; a
      publication stores what was checked.  The validation accepts exactly the batches that
      agree with what is stored and leave the graph whole below them and acyclic; a publication
      that any faults interrupted, when it is repeated, is accepted and ends in the store an
      undisturbed one leaves.  Operations are taken one at a time, as repository
      transactions order them (a join with its recovery, once the recovery returned without an
      error); without those an append between the writes of a publication can close a cycle
      ([interleaved_publication_cycle]).
    - Values and lifecycle tags: hashes and names are confined, tags round-trip, the
      per-branch states agree with the latest event, a new generation supersedes.

    ** Fuel

    Recursions of the code that are not structural take fuel: the walk over ancestors,
    the planner's visits, the closure of a proof, the scan for assessment blocks, the cut
    of a stream into chunks (the length of the stream: every chunk takes a byte), and the
    server's walks, climbs and cycle searches (its edges or snapshots).  The
    fuel is a bound computed from the input (the number of events or snapshots, the
    length of the text), and each is proved sufficient: [ErrOutOfFuel], the one error with
    no counterpart in the code, is never returned ([plan_terminates],
    [publication_ancestry_total], [closure_loop_total], [update_total]), and [strip_blocks_fuel] shows the
    result does not depend on it.

    ** Parameters

    [strings.ToLower] on free text consults the Unicode case tables.  The definitions of
    [Memory] and [MemoryPrompt] that use it take it as an argument and their theorems hold
    for every function.  Where the code compares a hexadecimal string with its lower case,
    the ASCII mapping of [GoStrings] decides the same.

    Decoding JSON into Go types by reflection is a parameter: [CatalogDecoder] (the entries
    of a catalog), [CirDecoder] (events and envelopes, with [PlainDecoder]'s law that
    decoded texts are UTF-8 and decoded maps have distinct keys), and the arguments
    [event_check], [envelope_check], [typed_event] and [decode_value] of the scanner, which
    [Documents] instantiates.  The JSON of a timestamp is the argument [time_json] or
    [time_text].  A loader of chunks is an argument, as it is in the code.  The check of a
    branch identity before a join is the argument [validateContextWrite] of [prepare_join].
    What surrounds the snapshots of a publication is [publication_ports]: the source of stored
    documents, settings objects, the repository binding, writing the submitted documents and
    the revision of the graph.

    ** Not modelled

    The text of errors, and cancellation of a context (the calls are those whose context
    stays live).  [encoding/json]'s limit on nesting, and typed decoding ([UnmarshalJSON]
    methods, [catalog_decode.go], [document_representation.go],
    [doc_finalization_identity.go]): it is reflection over Go types.  Of [agent_context.go]
    the package with its artifact and prompt text; [CaptureAttempt.Fingerprint], the hash of
    a whole record's JSON; working state, notices and plain records.  Of the server's joins:
    the service that calls the planner, the PostgreSQL store, the projection of branch
    lifecycles that [GetRef] does for repositories of the old context protocol, a line of the
    reflog torn by a crash, and how the texts of journal and objects are parsed.  Of publications
    the reassembly of chunked documents and the gate on document identities; of the store the
    deletion of a capture that was replaced, and its other tables.  Everything
    else outside the client's domain package: its applications and adapters, the rest of the
    backend and the frontend, which are I/O, storage, transport and presentation around
    these rules. *)

From stdpp Require Export base gmap strings list sorting relations.
From Stdlib Require Export ZArith.

(** ** Errors

    The sentinel errors of the client's and the server's domain packages.  A Go error built with
    [fmt.Errorf("%w: ...", ErrX)] is represented by [ErrX] (what [errors.Is]
    observes); an error built without [%w] is [ErrUnclassified].  The human
    readable text is not modelled.  [ErrOutOfFuel] is the only value with no
    counterpart in the code: it is returned by a bounded recursion that ran out
    of fuel, and every operation that uses fuel is proved never to return it. *)
Inductive error : Type :=
  | ErrNotFound
  | ErrHashMismatch
  | ErrInvalidRef
  | ErrUnsupportedProvider
  | ErrSyncConflict
  | ErrContextProtocolRequired
  | ErrStagingVersion
  | ErrUnsupportedDocumentIdentity
  | ErrCatalogResetRequired
  | ErrSelectionChanged
  | ErrConversationManifest
  | ErrInvalidCIR
  | ErrContextBudgetExceeded
  | ErrProviderCapabilityUnknown
  | ErrAgentContextUnavailable
  | ErrUnsupportedCIRVersion
  | ErrFrozenCaptureInput
  | PublicationBlockedError (EventID DependencyID BranchID Reason : string)
  | ErrIntegrity
  | ErrValidation
  | ErrConflict
  | ErrRefConflict
  | ErrJoinPreviewChanged
  | JoinPolicyError (Code : string) (Cause : error)
  | ErrUnclassified
  | ErrOutOfFuel.

#[export] Instance error_eq_dec : EqDecision error.
Proof. solve_decision. Defined.

(** ** Fallible computations

    A Go function returning [(T, error)] is a [result T]; one returning only
    [error] is a [result unit], with [Ok tt] for [nil]. *)
Inductive result (A : Type) : Type :=
  | Ok (a : A)
  | Err (e : error).
Arguments Ok {A} a.
Arguments Err {A} e.

#[export] Instance result_eq_dec `{EqDecision A} : EqDecision (result A).
Proof. solve_decision. Defined.
#[export] Instance result_ret : MRet result := λ A a, Ok a.
#[export] Instance result_bind : MBind result := λ A B f m,
  match m with Ok a => f a | Err e => Err e end.
#[export] Instance result_fmap : FMap result := λ A B f m,
  match m with Ok a => Ok (f a) | Err e => Err e end.

Declare Scope cxt_scope.
Delimit Scope cxt_scope with cxt.
Open Scope cxt_scope.

(** [if c { return err }] *)
Definition reject_if (c : bool) (e : error) : result unit :=
  if c then Err e else Ok tt.

(** [err == nil] *)
Definition is_ok {A} (r : result A) : bool :=
  match r with Ok _ => true | Err _ => false end.

(** The value of a result, or a default. *)
Definition result_or {A} (d : A) (r : result A) : A := match r with Ok x => x | Err _ => d end.

Lemma result_or_Ok {A} (d : A) r : is_ok r = true → r = Ok (result_or d r).
Proof. by destruct r. Qed.

(** [for _, x := range l { if err := f(x); err != nil { return err } }] *)
Fixpoint for_each {A} (f : A → result unit) (l : list A) : result unit :=
  match l with
  | [] => Ok tt
  | x :: l => f x ;; for_each f l
  end.

(** The same loop threading local variables. *)
Fixpoint fold_each {A S} (f : S → A → result S) (l : list A) (s : S) : result S :=
  match l with
  | [] => Ok s
  | x :: l => s' ← f s x; fold_each f l s'
  end.

(** An error that is replaced by another one ([if f() != nil { return bad }]). *)
Definition or_else {A} (r : result A) (e : error) : result A :=
  match r with Ok a => Ok a | Err _ => Err e end.

Notation "a '=?' b" := (bool_decide (a = b)) : cxt_scope.
Notation "a '<>?' b" := (negb (bool_decide (a = b))) (at level 70) : cxt_scope.

Lemma bind_Ok {A B} (m : result A) (f : A → result B) b :
  m ≫= f = Ok b ↔ ∃ a, m = Ok a ∧ f a = Ok b.
Proof. destruct m; simpl; naive_solver. Qed.

Lemma bind_Err {A B} (m : result A) (f : A → result B) e :
  m ≫= f = Err e ↔ m = Err e ∨ ∃ a, m = Ok a ∧ f a = Err e.
Proof. destruct m; simpl; naive_solver. Qed.

Lemma reject_if_Ok c e u : reject_if c e = Ok u ↔ c = false.
Proof. destruct c, u; naive_solver. Qed.

Lemma or_else_Ok {A} (r : result A) e a : or_else r e = Ok a ↔ r = Ok a.
Proof. destruct r; naive_solver. Qed.

Lemma is_ok_true {A} (r : result A) : is_ok r = true ↔ ∃ a, r = Ok a.
Proof. destruct r; naive_solver. Qed.

Lemma is_ok_unit (r : result unit) : is_ok r = true ↔ r = Ok tt.
Proof. destruct r as [[]|]; naive_solver. Qed.

Lemma for_each_Ok {A} (f : A → result unit) l u :
  for_each f l = Ok u ↔ Forall (λ x, f x = Ok tt) l.
Proof.
  destruct u. induction l as [|x l IH]; simpl; [by split|].
  rewrite Forall_cons, bind_Ok. split.
  - intros ([] & ? & ?). by rewrite <-IH.
  - intros [? ?]. exists tt. by rewrite IH.
Qed.

(** A loop invariant for [fold_each]: the processed prefix and the state. *)
Lemma fold_each_invariant {A S} (f : S → A → result S) (I : list A → S → Prop) l s s' :
  I [] s →
  (∀ pre x s1 s2, I pre s1 → x ∈ l → f s1 x = Ok s2 → I (pre ++ [x]) s2) →
  fold_each f l s = Ok s' → I l s'.
Proof.
  intros HI Hstep.
  assert (∀ todo pre s, I pre s → (∀ x, x ∈ todo → x ∈ l) →
    fold_each f todo s = Ok s' → I (pre ++ todo) s') as H.
  { intros todo. induction todo as [|x todo IH]; intros pre s0 H0 Hin; simpl.
    - intros [= <-]. by rewrite app_nil_r.
    - rewrite bind_Ok. intros (s1 & Hx & Hr).
      rewrite (assoc_L (++) pre [x] todo : pre ++ x :: todo = (pre ++ [x]) ++ todo).
      eapply IH; [|set_solver|done]. eapply Hstep; [done| |done]. set_solver. }
  intros Hr. apply (H l []) in Hr; auto.
Qed.

Lemma fold_each_app {A S} (f : S → A → result S) l1 l2 s s' :
  fold_each f (l1 ++ l2) s = Ok s' ↔ ∃ s1, fold_each f l1 s = Ok s1 ∧ fold_each f l2 s1 = Ok s'.
Proof.
  revert s. induction l1 as [|x l1 IH]; intros s; simpl; [naive_solver|].
  destruct (f s x); simpl; [apply IH|naive_solver].
Qed.

(** ** Termination

    A computation that does not report exhausted fuel.  [auto with total] proves it for
    straight-line code from the lemmas on the operations it calls. *)
Definition no_fuel_error {A} (r : result A) : Prop := r ≠ Err ErrOutOfFuel.

Lemma total_Ok {A} (a : A) : no_fuel_error (Ok a).
Proof. done. Qed.
Lemma total_Err {A} e : e ≠ ErrOutOfFuel → no_fuel_error (Err e : result A).
Proof. unfold no_fuel_error. congruence. Qed.
Lemma total_bind_eq {A B} (m : result A) (f : A → result B) :
  no_fuel_error m → (∀ a, m = Ok a → no_fuel_error (f a)) → no_fuel_error (m ≫= f).
Proof. intros Hm Hf. destruct m as [a|e]; [by apply Hf|]. intros [= ->]. by apply Hm. Qed.
Lemma total_bind {A B} (m : result A) (f : A → result B) :
  no_fuel_error m → (∀ a, no_fuel_error (f a)) → no_fuel_error (m ≫= f).
Proof. intros Hm Hf. destruct m as [a|e]; [apply Hf|]. intros [= ->]. by apply Hm. Qed.
Lemma total_reject_if c e : e ≠ ErrOutOfFuel → no_fuel_error (reject_if c e).
Proof. destruct c; [apply total_Err|done]. Qed.
Lemma total_or_else {A} (r : result A) e : e ≠ ErrOutOfFuel → no_fuel_error (or_else r e).
Proof. destruct r; [done|apply total_Err]. Qed.
Lemma total_for_each {A} (f : A → result unit) l : (∀ x, no_fuel_error (f x)) → no_fuel_error (for_each f l).
Proof. intros Hf. induction l; [done|]. by apply total_bind. Qed.
Lemma total_fold_each {A S} (f : S → A → result S) l s :
  (∀ s x, no_fuel_error (f s x)) → no_fuel_error (fold_each f l s).
Proof. intros Hf. revert s. induction l; intros s; [done|]. by apply total_bind. Qed.
Lemma total_if {A} (c : bool) (r1 r2 : result A) :
  no_fuel_error r1 → no_fuel_error r2 → no_fuel_error (if c then r1 else r2).
Proof. by destruct c. Qed.

Create HintDb total.
#[export] Hint Resolve total_Ok total_Err total_bind total_reject_if total_or_else total_for_each
  total_fold_each total_if : total.
#[export] Hint Extern 1 (_ ≠ ErrOutOfFuel) => discriminate : total.
#[export] Hint Extern 2 (no_fuel_error (match ?x with _ => _ end)) => destruct x : total.
#[export] Hint Extern 1 (no_fuel_error (let _ := _ in _)) => cbn zeta : total.

(** ** Slices

    A Go slice whose nil-ness is observable ([s == nil], [reflect.DeepEqual]). *)
Definition slice (A : Type) : Type := option (list A).
Definition elems {A} (s : slice A) : list A := default [] s.

(** ** Sorting

    [sort.Slice] with a [less] function: the elements in some order in which no
    later one is less than an earlier one.  Where [less] is total on the elements
    this determines the result. *)
Definition not_after {A} (less : A → A → bool) : relation A := λ a b, less b a = false.
#[export] Instance not_after_dec {A} (less : A → A → bool) : RelDecision (not_after less).
Proof. intros a b. unfold not_after. apply _. Defined.

Definition sort_slice {A} (less : A → A → bool) (l : list A) : list A :=
  merge_sort (not_after less) l.

Lemma sort_slice_Permutation {A} (less : A → A → bool) l : sort_slice less l ≡ₚ l.
Proof. apply merge_sort_Permutation. Qed.

Lemma elem_of_sort_slice {A} (less : A → A → bool) l x : x ∈ sort_slice less l ↔ x ∈ l.
Proof. by rewrite sort_slice_Permutation. Qed.

Lemma sort_slice_Sorted {A} (less : A → A → bool) l :
  (∀ a b, less a b = true → less b a = false) →
  Sorted (not_after less) (sort_slice less l).
Proof.
  intros Hasym. apply Sorted_merge_sort. intros a b. unfold not_after.
  destruct (less a b) eqn:E; [left; by apply Hasym|by right].
Qed.

Lemma existsb_elem {A} (f : A → bool) l : existsb f l = true ↔ ∃ x, x ∈ l ∧ f x = true.
Proof. rewrite existsb_exists. by setoid_rewrite list_elem_of_In. Qed.

Lemma existsb_permutation {A} (f : A → bool) l l' : l ≡ₚ l' → existsb f l = existsb f l'.
Proof. intros Hp. apply eq_true_iff_eq. rewrite !existsb_elem. by setoid_rewrite Hp. Qed.

(** A duplicate-free sublist of full length has every element. *)
Lemma NoDup_full {A} (l k : list A) :
  NoDup l → (∀ x, x ∈ l → x ∈ k) → length l = length k → ∀ x, x ∈ k → x ∈ l.
Proof.
  intros Hnd Hsub Hlen x. apply NoDup_submseteq in Hsub as [r Hp]%submseteq_Permutation; [|done].
  rewrite Hp in Hlen |- *. rewrite length_app in Hlen.
  destruct r; [by rewrite app_nil_r|cbn in Hlen; lia].
Qed.

Lemma elem_of_concat {A} (x : A) (ls : list (list A)) : x ∈ concat ls ↔ ∃ l, x ∈ l ∧ l ∈ ls.
Proof.
  induction ls as [|l ls IH]; cbn; [set_solver|]. rewrite elem_of_app, IH.
  setoid_rewrite elem_of_cons. naive_solver.
Qed.

(** Filtering depends only on the elements. *)
Lemma filter_ext_elem {A} (P Q : A → Prop) `{∀ x, Decision (P x)} `{∀ x, Decision (Q x)} (l : list A) :
  (∀ x, x ∈ l → P x ↔ Q x) → filter P l = filter Q l.
Proof.
  induction l as [|x l IH]; intros HPQ; [done|]. rewrite !filter_cons.
  rewrite (IH ltac:(set_solver)). repeat case_decide; set_solver.
Qed.

Lemma filter_all {A} (P : A → Prop) `{∀ x, Decision (P x)} (l : list A) :
  (∀ x, x ∈ l → P x) → filter P l = l.
Proof.
  induction l as [|x l IH]; intros HP; [done|]. rewrite filter_cons, decide_True by set_solver.
  by rewrite IH by set_solver.
Qed.

Lemma omap_split {A B} (f : A → option B) l l1 y l2 :
  omap f l = l1 ++ y :: l2 →
  ∃ k1 x k2, l = k1 ++ x :: k2 ∧ omap f k1 = l1 ∧ f x = Some y.
Proof.
  revert l1. induction l as [|a l IH]; intros l1; cbn; [by destruct l1|].
  destruct (f a) as [b|] eqn:Hf.
  - destruct l1 as [|b' l1]; cbn.
    + intros [= -> ?]. by exists [], a, l.
    + intros [= -> H]. destruct (IH _ H) as (k1 & x & k2 & -> & <- & ?).
      exists (a :: k1), x, k2. cbn. by rewrite Hf.
  - intros H. destruct (IH _ H) as (k1 & x & k2 & -> & <- & ?).
    exists (a :: k1), x, k2. cbn. by rewrite Hf.
Qed.

Lemma NoDup_omap {A B C} (f : A → option B) (g : B → C) l :
  (∀ i j a b, f i = Some a → f j = Some b → g a = g b → i = j) → NoDup l → NoDup (g <$> omap f l).
Proof.
  intros Hinj. induction 1 as [|i l Hi Hnd IH]; cbn; [constructor|].
  destruct (f i) as [a|] eqn:Hf; [|done]. cbn. constructor; [|done].
  intros (b & Hg & (j & Hj & Hb)%list_elem_of_omap)%list_elem_of_fmap.
  assert (i = j) as -> by eauto. done.
Qed.

Lemma Sorted_suffix {A} (R : A → A → Prop) l k : Sorted R (l ++ k) → Sorted R k.
Proof. induction l as [|x l IH]; [done|]. intros [Hs _]%Sorted_inv. by apply IH. Qed.

Lemma Sorted_prefix {A} (R : A → A → Prop) l k : Sorted R (l ++ k) → Sorted R l.
Proof.
  induction l as [|x l IH]; [constructor|]. cbn. intros [Hs Hd]%Sorted_inv. constructor; [by apply IH|].
  destruct l; [constructor|]. constructor. by apply HdRel_inv in Hd.
Qed.

Lemma NoDup_fmap_filter {A B} (f : A → B) (P : A → Prop) `{!∀ x, Decision (P x)} l : NoDup (f <$> l) → NoDup (f <$> filter P l).
Proof.
  intros Hn. eapply sublist_NoDup; [exact Hn|]. clear Hn. induction (sublist_filter P l) as [|x l1 l2 _ IH|x l1 l2 _ IH]; cbn;
    [constructor|by apply sublist_skip|by apply sublist_cons].
Qed.

Lemma NoDup_fmap_inj_on {A B} (f : A → B) l x y : NoDup (f <$> l) → x ∈ l → y ∈ l → f x = f y → x = y.
Proof.
  intros Hnd [i Hi]%list_elem_of_lookup [j Hj]%list_elem_of_lookup Heq.
  assert (i = j) as ->; [|congruence]. apply (NoDup_lookup (f <$> l) i j (f x)); [done|by rewrite list_lookup_fmap, Hi|].
  by rewrite list_lookup_fmap, Hj, Heq.
Qed.

(** ** Tactics *)

(** Decomposes a successful chain of checks into its individual facts. *)
Ltac inv_ok :=
  repeat match goal with
  | H : Ok _ = Ok _ |- _ => injection H as H
  | H : Err _ = Ok _ |- _ => discriminate H
  | H : Ok _ = Err _ |- _ => discriminate H
  | H : mret _ = Ok _ |- _ => change (Ok _ = Ok _) in H
  | H : reject_if _ _ = Ok _ |- _ => apply reject_if_Ok in H
  | H : or_else _ _ = Ok _ |- _ => apply or_else_Ok in H
  | H : mbind _ _ = Ok _ |- _ =>
      let a := fresh "a" in let H' := fresh H in
      apply bind_Ok in H as (a & H' & H)
  | H : for_each _ _ = Ok _ |- _ => apply for_each_Ok in H
  | x : unit |- _ => destruct x
  end.

(** Turns boolean tests in the context into propositions. *)
Ltac bools :=
  repeat match goal with
  | H : is_true _ |- _ => unfold is_true in H
  | H : negb _ = true |- _ => apply negb_true_iff in H
  | H : negb _ = false |- _ => apply negb_false_iff in H
  | H : andb _ _ = true |- _ => apply andb_true_iff in H as [? ?]
  | H : orb _ _ = false |- _ => apply orb_false_iff in H as [? ?]
  | H : bool_decide _ = true |- _ => apply bool_decide_eq_true in H
  | H : bool_decide _ = false |- _ => apply bool_decide_eq_false in H
  end.

(** Proves a decidable closed goal by evaluating its decision procedure. *)
Ltac compute_decision := apply (bool_decide_unpack _); vm_compute; exact I.

(** ** Lexicographic comparison

    [lex f R rest] compares by key [f] under [R], then by [rest]. *)
Definition lex {X K} (f : X → K) (R : relation K) (rest : relation X) : relation X :=
  λ a b, R (f a) (f b) ∨ f a = f b ∧ rest a b.

Lemma lex_trans {X K} (f : X → K) (R : relation K) (rest : relation X) :
  Transitive R → Transitive rest → Transitive (lex f R rest).
Proof.
  unfold lex. intros HR Hrest a b c [Hab|[Eab Hab]] [Hbc|[Ebc Hbc]].
  - left. by etrans.
  - left. by rewrite <-Ebc.
  - left. by rewrite Eab.
  - right. split; [congruence|by etrans].
Qed.

Lemma lex_irrefl {X K} (f : X → K) (R : relation K) (rest : relation X) :
  (∀ k, ¬ R k k) → (∀ a, ¬ rest a a) → ∀ a, ¬ lex f R rest a a.
Proof. unfold lex. intros HR Hrest a [Ha|[_ Ha]]; naive_solver. Qed.

(** ** Selecting an extremum in one pass *)

Section best.
Context {A : Type} (better : A → A → bool) (ok : A → Prop).
Hypothesis better_trans : ∀ a b c, ok a → ok b → ok c →
  better a b = true → better b c = true → better a c = true.
Hypothesis better_irrefl : ∀ a, ok a → better a a = false.

Definition best_step (acc : option A) (x : A) : option A :=
  match acc with
  | Some y => if better x y then Some x else acc
  | None => Some x
  end.

Lemma best_step_chain l acc :
  Forall ok l → (∀ y, acc = Some y → ok y) →
  match fold_left best_step l acc with
  | Some b => (b ∈ l ∨ acc = Some b) ∧ ok b ∧ (∀ x, x ∈ l → better x b = false) ∧
      (∀ y, acc = Some y → b = y ∨ better b y = true)
  | None => l = [] ∧ acc = None
  end.
Proof.
  intros Hl. revert acc. induction Hl as [|x l Hx Hl IH]; intros acc Hacc; simpl.
  - destruct acc as [y|]; [|done].
    split_and!; [by right|by apply Hacc|set_solver|]. intros ? [= <-]. by left.
  - assert (∀ y, best_step acc x = Some y → ok y) as Hstep
      by (unfold best_step; repeat case_match; naive_solver).
    specialize (IH _ Hstep). destruct (fold_left best_step l (best_step acc x)) as [b|].
    2:{ destruct IH as [_ IH]. unfold best_step in IH. by repeat case_match. }
    destruct IH as (Hin & Hb & Hbl & Hchain). unfold best_step in *.
    assert (∀ y, ok y → b = y ∨ better b y = true → better y b = false) as Hback.
    { intros y Hy [-> | Hby]; [by apply better_irrefl|]. apply not_true_iff_false. intros Hyb.
      pose proof (better_trans y b y Hy Hb Hy Hyb Hby) as Hyy.
      by rewrite better_irrefl in Hyy. }
    assert (better x b = false ∧ ∀ y, acc = Some y → b = y ∨ better b y = true) as [Hxb Hyb].
    { destruct acc as [y|]; [|naive_solver].
      assert (ok y) as Hy by naive_solver.
      destruct (better x y) eqn:Exy; specialize (Hchain _ eq_refl).
      - split; [naive_solver|]. intros ? [= <-]. right.
        destruct Hchain as [-> | Hbx]; [done|]. by apply (better_trans b x y).
      - split; [|naive_solver]. destruct Hchain as [-> | Hby]; [done|].
        apply not_true_iff_false. intros Hxb.
        by rewrite (better_trans x b y) in Exy. }
    split_and!; auto.
    + destruct Hin as [?|Hin]; [left; set_solver|].
      repeat case_match; simplify_eq; auto; left; set_solver.
    + intros z [-> | Hz]%elem_of_cons; auto.
Qed.

(** The pass returns an element that nothing in the list improves on. *)
Lemma best_spec l :
  Forall ok l →
  match fold_left best_step l None with
  | Some b => b ∈ l ∧ ok b ∧ ∀ x, x ∈ l → better x b = false
  | None => l = []
  end.
Proof.
  intros Hl. pose proof (best_step_chain l None Hl) as H.
  destruct (fold_left best_step l None); naive_solver.
Qed.
End best.
