(* ===== verification/GoStrings.v ===== *)
(** * Go strings

    Go strings are byte sequences, represented by [string].  This file gives the
    operations of packages [strings], [strconv], [fmt] and [encoding/hex] that
    the domain uses, byte for byte, with the lemmas the components need.

    Loops [for _, r := range s] of the code only compare runes with ASCII
    characters.  A byte below 0x80 always decodes to itself and every other byte
    belongs to a rune of at least 0x80, so these loops are loops over bytes. *)
From S2P Require Import Prelude.
From Stdlib Require Import Ascii.

#[global] Arguments String.append !s1 s2 : simpl nomatch, rename.

(** ** Characters *)

Definition code (c : ascii) : N := N_of_ascii c.

Definition is_digit (c : ascii) : bool := ((48 <=? code c) && (code c <=? 57))%N.
Definition is_lower_hex_letter (c : ascii) : bool := ((97 <=? code c) && (code c <=? 102))%N.
Definition is_upper_hex_letter (c : ascii) : bool := ((65 <=? code c) && (code c <=? 70))%N.

(** [0-9a-f], the alphabet of content hashes. *)
Definition is_lower_hex (c : ascii) : bool := is_digit c || is_lower_hex_letter c.

(** What [hex.DecodeString] accepts. *)
Definition is_hex (c : ascii) : bool := is_lower_hex c || is_upper_hex_letter c.

(** ** Generic string functions *)

(** [for _, c := range s] testing every character. *)
Fixpoint all_chars (P : ascii → bool) (s : string) : bool :=
  match s with
  | EmptyString => true
  | String c s => P c && all_chars P s
  end.

Fixpoint has_char (P : ascii → bool) (s : string) : bool :=
  match s with
  | EmptyString => false
  | String c s => P c || has_char P s
  end.

(** [s\[n:\]] *)
Fixpoint drop_chars (n : nat) (s : string) : string :=
  match n, s with
  | O, _ => s
  | S n, String _ s => drop_chars n s
  | S _, EmptyString => EmptyString
  end.

(** [s\[:n\]] *)
Fixpoint take_chars (n : nat) (s : string) : string :=
  match n, s with
  | S n, String c s => String c (take_chars n s)
  | _, _ => EmptyString
  end.

Definition HasPrefix (s p : string) : bool := String.prefix p s.

(** [strings.HasSuffix]: the last [len(p)] bytes are [p]. *)
Definition HasSuffix (s p : string) : bool :=
  (String.length p <=? String.length s)%nat &&
  bool_decide (drop_chars (String.length s - String.length p) s = p).

Definition TrimPrefix (s p : string) : string :=
  if HasPrefix s p then drop_chars (String.length p) s else s.

Fixpoint Contains (s sub : string) : bool :=
  String.prefix sub s ||
  match s with EmptyString => false | String _ s => Contains s sub end.

(** [strings.ContainsAny(s, chars)] for ASCII [chars]. *)
Definition ContainsAny (s chars : string) : bool :=
  has_char (λ c, has_char (λ d, bool_decide (c = d)) chars) s.

(** [strings.Split(s, sep)] for a one byte separator. *)
Fixpoint Split (s : string) (sep : ascii) : list string :=
  match s with
  | EmptyString => [EmptyString]
  | String c s =>
      if bool_decide (c = sep) then EmptyString :: Split s sep
      else match Split s sep with
           | h :: t => String c h :: t
           | [] => [String c EmptyString]
           end
  end.

(** [strings.Cut]: the text around the first separator. *)
Fixpoint Cut (s : string) (sep : ascii) : option (string * string) :=
  match s with
  | EmptyString => None
  | String c s =>
      if bool_decide (c = sep) then Some (EmptyString, s)
      else match Cut s sep with
           | Some (a, b) => Some (String c a, b)
           | None => None
           end
  end.

(** [strings.SplitN(s, sep, n)] for a one byte separator and [n > 0]. *)
Fixpoint SplitN (s : string) (sep : ascii) (n : nat) : list string :=
  match n with
  | O => []
  | S O => [s]
  | S n =>
      match Cut s sep with
      | Some (a, b) => a :: SplitN b sep n
      | None => [s]
      end
  end.

(** [strings.ToLower] on ASCII text; bytes above 0x7f are kept (Go maps the runes
    they encode through the Unicode case tables).  Every use in the modelled code
    compares [s] with [strings.ToLower(s)] beside a check that [s] is hexadecimal,
    so which strings are accepted does not depend on the bytes above 0x7f; only
    which of the two checks reports the failure does. *)
Definition lower_char (c : ascii) : ascii :=
  if ((65 <=? code c) && (code c <=? 90))%N then ascii_of_N (code c + 32) else c.

Fixpoint ToLower (s : string) : string :=
  match s with
  | EmptyString => EmptyString
  | String c s => String (lower_char c) (ToLower s)
  end.

(** [strings.Trim(s, cutset)] *)
Fixpoint drop_while (P : ascii → bool) (l : list ascii) : list ascii :=
  match l with
  | [] => []
  | c :: l => if P c then drop_while P l else c :: l
  end.

Definition in_cutset (cutset : string) (c : ascii) : bool :=
  has_char (λ d, bool_decide (c = d)) cutset.

Definition Trim (s cutset : string) : string :=
  let trim := drop_while (in_cutset cutset) in
  String.string_of_list_ascii (rev (trim (rev (trim (String.list_ascii_of_string s))))).

(** [_, err := hex.DecodeString(s); err == nil] *)
Definition hex_decodes (s : string) : bool :=
  Nat.even (String.length s) && all_chars is_hex s.

(** Go's [<] on strings: byte order. *)
Definition str_lt (a b : string) : bool := String.ltb a b.

(** ** Decimal numbers *)

Definition digit_char (d : N) : ascii := ascii_of_N (48 + d).

(** [fmt.Sprintf("%0kd", n)] for [n < 10^k]: exactly [k] digits. *)
Fixpoint fmt_0d (k : nat) (n : N) : string :=
  match k with
  | O => EmptyString
  | S k => fmt_0d k (n / 10) +:+ String (digit_char (n mod 10)) EmptyString
  end.

Fixpoint parse_digits (s : string) (acc : N) : option N :=
  match s with
  | EmptyString => Some acc
  | String c s => if is_digit c then parse_digits s (acc * 10 + (code c - 48))%N else None
  end.

Definition max_uint64 : N := 18446744073709551615%N.

(** [strconv.ParseUint(s, 10, 64)], [None] on a syntax or range error. *)
Definition ParseUint64 (s : string) : option N :=
  match s with
  | EmptyString => None
  | _ => match parse_digits s 0 with
         | Some n => if (n <=? max_uint64)%N then Some n else None
         | None => None
         end
  end.

(** ** Lemmas *)

Create HintDb gostr.

Lemma length_app_string (a b : string) :
  String.length (a +:+ b) = (String.length a + String.length b)%nat.
Proof. induction a; simpl; [done|]. by rewrite IHa. Qed.

Lemma string_app_nil_r (a : string) : a +:+ EmptyString = a.
Proof. induction a; simpl; congruence. Qed.

Lemma string_app_assoc (a b c : string) : a +:+ (b +:+ c) = (a +:+ b) +:+ c.
Proof. induction a; simpl; congruence. Qed.

Lemma all_chars_app P a b : all_chars P (a +:+ b) = all_chars P a && all_chars P b.
Proof. induction a; simpl; [done|]. by rewrite IHa, andb_assoc. Qed.

Lemma has_char_negb P s : has_char P s = negb (all_chars (λ c, negb (P c)) s).
Proof. induction s as [|c s IH]; simpl; [done|]. rewrite IH. by destruct (P c). Qed.

Lemma all_chars_impl (P Q : ascii → bool) s :
  (∀ c, P c = true → Q c = true) → all_chars P s = true → all_chars Q s = true.
Proof.
  intros HPQ. induction s as [|c s IH]; simpl; [done|].
  rewrite (andb_true_iff (P c)), (andb_true_iff (Q c)). naive_solver.
Qed.

Lemma prefix_app p s : String.prefix p (p +:+ s) = true.
Proof. induction p as [|c p IH]; simpl; [by destruct s|]. by destruct (ascii_dec c c). Qed.

Lemma prefix_spec p s : String.prefix p s = true ↔ ∃ t, s = p +:+ t.
Proof.
  split; [|intros [t ->]; apply prefix_app].
  revert s. induction p as [|c p IH]; intros s; simpl; [by eexists|].
  destruct s as [|d s]; simpl; [done|]. destruct (ascii_dec c d) as [->|]; [|done].
  intros [t ->]%IH. by exists t.
Qed.

Lemma drop_chars_app p s : drop_chars (String.length p) (p +:+ s) = s.
Proof. induction p; simpl; [by destruct s|done]. Qed.

Lemma take_chars_app a b : take_chars (String.length a) (a +:+ b) = a.
Proof. induction a as [|c a IH]; [by destruct b|]. cbn. by rewrite IH. Qed.

Lemma TrimPrefix_app p s : TrimPrefix (p +:+ s) p = s.
Proof. unfold TrimPrefix, HasPrefix. by rewrite prefix_app, drop_chars_app. Qed.

Lemma HasPrefix_TrimPrefix s p : HasPrefix s p = true → s = p +:+ TrimPrefix s p.
Proof. intros [t ->]%prefix_spec. by rewrite TrimPrefix_app. Qed.

Lemma Cut_app a b sep :
  all_chars (λ c, negb (bool_decide (c = sep))) a = true →
  Cut (a +:+ String sep b) sep = Some (a, b).
Proof.
  induction a as [|c a IH]; simpl.
  - intros _. by rewrite bool_decide_true.
  - intros H. apply andb_true_iff in H as [Hc Ha]. apply negb_true_iff in Hc.
    by rewrite Hc, IH.
Qed.

Lemma Cut_Some s sep a b : Cut s sep = Some (a, b) → s = a +:+ String sep b.
Proof.
  revert a. induction s as [|c s IH]; intros a; simpl; [done|].
  case_bool_decide as Hc; subst; [by intros [= <- <-]|].
  destruct (Cut s sep) as [[a' b']|]; [|done].
  intros [= <- <-]. by rewrite (IH a').
Qed.

Lemma SplitN_Cut s sep n : (2 ≤ n)%nat →
  SplitN s sep n =
    match Cut s sep with Some (a, b) => a :: SplitN b sep (pred n) | None => [s] end.
Proof. destruct n as [|[|n]]; [lia|lia|done]. Qed.

Lemma SplitN_four s sep a b c d :
  SplitN s sep 4 = [a; b; c; d] →
  s = a +:+ String sep (b +:+ String sep (c +:+ String sep d)).
Proof.
  simpl. destruct (Cut s sep) as [[a1 s1]|] eqn:E1; [|done].
  destruct (Cut s1 sep) as [[a2 s2]|] eqn:E2; [|done].
  destruct (Cut s2 sep) as [[a3 s3]|] eqn:E3; [|done].
  intros [= <- <- <- <-].
  by rewrite (Cut_Some _ _ _ _ E1), (Cut_Some _ _ _ _ E2), (Cut_Some _ _ _ _ E3).
Qed.

Lemma code_digit_char d : (d < 10)%N → code (digit_char d) = (48 + d)%N.
Proof. intros ?. unfold code, digit_char. apply N_ascii_embedding. lia. Qed.

Lemma is_digit_digit_char d : (d < 10)%N → is_digit (digit_char d) = true.
Proof.
  intros H. unfold is_digit. rewrite code_digit_char by done.
  apply andb_true_iff. split; apply N.leb_le; lia.
Qed.

Lemma fmt_0d_length k n : String.length (fmt_0d k n) = k.
Proof.
  revert n. induction k as [|k IH]; intros n; simpl; [done|].
  rewrite length_app_string, IH. simpl. lia.
Qed.

Lemma fmt_0d_digits k n : all_chars is_digit (fmt_0d k n) = true.
Proof.
  revert n. induction k as [|k IH]; intros n; simpl; [done|].
  rewrite all_chars_app, IH. simpl. rewrite is_digit_digit_char; [done|].
  by apply N.mod_lt.
Qed.

Lemma parse_digits_app a b acc :
  parse_digits (a +:+ b) acc = parse_digits a acc ≫= parse_digits b.
Proof. revert acc. induction a as [|c a IH]; intros acc; simpl; [done|]. by destruct is_digit. Qed.

(** Reading back a fixed-width number. *)
Lemma parse_fmt_0d k n acc : (n < 10 ^ N.of_nat k)%N →
  parse_digits (fmt_0d k n) acc = Some (acc * 10 ^ N.of_nat k + n)%N.
Proof.
  revert n acc. induction k as [|k IH]; intros n acc Hn; simpl fmt_0d.
  - simpl. change (10 ^ N.of_nat 0)%N with 1%N in *. f_equal. lia.
  - rewrite Nat2N.inj_succ, N.pow_succ_r' in *. rewrite parse_digits_app.
    rewrite IH by (apply N.Div0.div_lt_upper_bound; lia). simpl.
    assert (n mod 10 < 10)%N by (by apply N.mod_lt).
    rewrite is_digit_digit_char, code_digit_char by done. f_equal.
    enough (∀ p q r : N, n = 10 * q + r → (acc * p + q) * 10 + (48 + r - 48) = acc * (10 * p) + n)%N
      as Hgen by apply Hgen, N.div_mod'.
    intros p q r ->. lia.
Qed.

Lemma ParseUint64_fmt n : (n ≤ max_uint64)%N → ParseUint64 (fmt_0d 20 n) = Some n.
Proof.
  intros Hn. unfold ParseUint64.
  destruct (fmt_0d 20 n) eqn:E.
  { pose proof (fmt_0d_length 20 n) as HL. by rewrite E in HL. }
  rewrite <-E, parse_fmt_0d by (eapply N.le_lt_trans; [done|vm_compute; done]).
  rewrite N.mul_0_l, N.add_0_l. by apply N.leb_le in Hn as ->.
Qed.

Lemma ParseUint64_bound s n : ParseUint64 s = Some n → (n ≤ max_uint64)%N.
Proof.
  unfold ParseUint64. destruct s; [done|].
  destruct parse_digits; [|done]. destruct (N.leb_spec n0 max_uint64); naive_solver.
Qed.

(** ** The byte order is a strict total order *)

Lemma str_lt_le a b : str_lt a b = true ↔ String.le a b ∧ a ≠ b.
Proof.
  unfold str_lt, String.ltb, String.le, String.leb, is_true.
  destruct (String.compare a b) eqn:E.
  - apply String.compare_eq_iff in E. naive_solver.
  - split; [|done]. intros _. split; [done|]. intros ->.
    pose proof (String.compare_antisym b b) as H. rewrite E in H. done.
  - naive_solver.
Qed.

Lemma str_lt_irrefl a : str_lt a a = false.
Proof. apply not_true_iff_false. rewrite str_lt_le. naive_solver. Qed.

Lemma str_lt_trans a b c : str_lt a b = true → str_lt b c = true → str_lt a c = true.
Proof.
  rewrite !str_lt_le. intros [H1 N1] [H2 N2]. split; [by etrans|].
  intros ->. apply N1. by apply (anti_symm String.le).
Qed.

Lemma str_lt_total a b : str_lt a b = true ∨ a = b ∨ str_lt b a = true.
Proof.
  rewrite !str_lt_le. destruct (decide (a = b)); [naive_solver|].
  destruct (total String.le a b); naive_solver.
Qed.

Lemma str_lt_asym a b : str_lt a b = true → str_lt b a = false.
Proof.
  intros H. apply not_true_iff_false. intros H'.
  pose proof (str_lt_trans _ _ _ H H') as Hx. by rewrite str_lt_irrefl in Hx.
Qed.

#[export] Hint Resolve str_lt_trans str_lt_asym str_lt_irrefl : gostr.

(** [strings.Trim(s, cutset) == ""] exactly when every byte is in the cutset. *)
Lemma drop_while_nil P l : drop_while P l = [] ↔ forallb P l = true.
Proof. induction l as [|c l IH]; simpl; [done|]. destruct (P c); simpl; naive_solver. Qed.

Lemma drop_while_head P c l l' : drop_while P l = c :: l' → P c = false.
Proof. induction l as [|d l IH]; simpl; [done|]. destruct (P d) eqn:E; naive_solver. Qed.

Lemma forallb_rev {A} (P : A → bool) l : forallb P (rev l) = forallb P l.
Proof. induction l; simpl; [done|]. rewrite forallb_app, IHl. simpl. by destruct (P a); rewrite ?andb_true_r, ?andb_false_r. Qed.

Lemma all_chars_list P s : all_chars P s = forallb P (String.list_ascii_of_string s).
Proof. induction s; simpl; congruence. Qed.

Lemma Trim_empty s cutset : Trim s cutset = EmptyString ↔ all_chars (in_cutset cutset) s = true.
Proof.
  unfold Trim. rewrite all_chars_list. set (l := String.list_ascii_of_string s). set (P := in_cutset cutset).
  assert (∀ k, String.string_of_list_ascii k = EmptyString ↔ k = []) as -> by (by intros []).
  rewrite <-(drop_while_nil P l). split; [|by intros ->].
  destruct (drop_while P l) as [|c l'] eqn:E; [done|]. intros H. exfalso.
  apply drop_while_head in E. apply (f_equal (@rev _)) in H. rewrite rev_involutive in H.
  apply drop_while_nil in H. rewrite forallb_rev in H. simpl in H. by rewrite E in H.
Qed.
