(* ===== verification/Utf8.v ===== *)
(** * UTF-8 text

    Go ranges over strings by runes: a well-formed UTF-8 encoding is one rune, any
    other byte is one [utf8.RuneError] of width 1.  This file gives that
    decomposition and the functions of packages [strings] and [unicode/utf8] the
    domain applies to free text. *)
From S2P Require Import Prelude GoStrings.
From Stdlib Require Import Ascii.

(** ** Runes *)

Definition between (lo hi : N) (c : ascii) : bool := ((lo <=? code c) && (code c <=? hi))%N.

Definition is_ascii (c : ascii) : bool := (code c <? 128)%N.
Definition is_cont (c : ascii) : bool := between 128 191 c.

(** The encodings of two, three and four bytes ([utf8.first] and [utf8.acceptRanges]). *)
Definition two_ok (a b : ascii) : bool := between 194 223 a && is_cont b.

Definition three_ok (a b c : ascii) : bool :=
  (if (code a =? 224)%N then between 160 191 b
   else if (code a =? 237)%N then between 128 159 b
   else between 225 239 a && is_cont b) && is_cont c.

Definition four_ok (a b c d : ascii) : bool :=
  (if (code a =? 240)%N then between 144 191 b
   else if (code a =? 244)%N then between 128 143 b
   else between 241 243 a && is_cont b) && is_cont c && is_cont d.

Notation text1 a := (String a EmptyString).
Notation text2 a b := (String a (text1 b)).
Notation text3 a b c := (String a (text2 b c)).
Notation text4 a b c d := (String a (text3 b c d)).

(** The runes of a string in order: whether the encoding is valid, and its bytes. *)
Fixpoint runes (s : string) : list (bool * string) :=
  match s with
  | EmptyString => []
  | String a s1 =>
      if is_ascii a then (true, text1 a) :: runes s1
      else match s1 with
      | EmptyString => [(false, text1 a)]
      | String b s2 =>
          if two_ok a b then (true, text2 a b) :: runes s2
          else match s2 with
          | EmptyString => (false, text1 a) :: runes s1
          | String c s3 =>
              if three_ok a b c then (true, text3 a b c) :: runes s3
              else match s3 with
              | EmptyString => (false, text1 a) :: runes s1
              | String d s4 =>
                  if four_ok a b c d then (true, text4 a b c d) :: runes s4
                  else (false, text1 a) :: runes s1
              end
          end
      end
  end.

Fixpoint texts (l : list (bool * string)) : string :=
  match l with
  | [] => ""
  | r :: l => r.2 +:+ texts l
  end.

(** [utf8.ValidString] *)
Definition ValidString (s : string) : bool := forallb fst (runes s).

(** The encoding of [utf8.RuneError]. *)
Definition rune_error : string :=
  text3 (ascii_of_N 239) (ascii_of_N 191) (ascii_of_N 189).

(** [string(\[\]rune(s)\[:n\])] *)
Definition take_runes (n : nat) (s : string) : string :=
  foldr (λ r t, (if r.1 : bool then r.2 else rune_error) +:+ t) "" (take n (runes s)).

(** ** White space: [unicode.IsSpace] *)

Definition byte_text (l : list N) : string := foldr (λ n s, String (ascii_of_N n) s) "" l.

Definition space_texts : list string :=
  byte_text <$>
  ([ [9]; [10]; [11]; [12]; [13]; [32]; [194; 133]; [194; 160]; [225; 154; 128];
     [226; 128; 168]; [226; 128; 169]; [226; 128; 175]; [226; 129; 159]; [227; 128; 128] ] ++
   ((λ n, [226; 128; n]) <$> [128; 129; 130; 131; 132; 133; 134; 135; 136; 137; 138]))%N.

Definition is_space (r : bool * string) : bool := bool_decide (r.2 ∈ space_texts).

Fixpoint trim_left (l : list (bool * string)) : list (bool * string) :=
  match l with
  | [] => []
  | r :: l' => if is_space r then trim_left l' else l
  end.

Definition trim_right (l : list (bool * string)) : list (bool * string) := reverse (trim_left (reverse l)).

(** [strings.TrimSpace].  A white space encoding at the end of a string is always
    its last rune, so dropping runes from the right is what [DecodeLastRune] does. *)
Definition TrimSpace (s : string) : string := texts (trim_right (trim_left (runes s))).

(** [strings.Fields]: the maximal runs without white space. *)
Fixpoint fields (l : list (bool * string)) (current : string) : list string :=
  match l with
  | [] => if current =? "" then [] else [current]
  | r :: l =>
      if is_space r then (if current =? "" then fields l "" else current :: fields l "")
      else fields l (current +:+ r.2)
  end.

Definition Fields (s : string) : list string := fields (runes s) "".

(** [strings.Join(parts, sep)] *)
Fixpoint Join (parts : list string) (sep : string) : string :=
  match parts with
  | [] => ""
  | [p] => p
  | p :: parts => p +:+ sep +:+ Join parts sep
  end.

(** [strings.LastIndex(s, sub)], [None] for -1. *)
Fixpoint LastIndex (s sub : string) : option nat :=
  match s with
  | EmptyString => if String.prefix sub s then Some 0 else None
  | String _ s' =>
      match LastIndex s' sub with
      | Some i => Some (S i)
      | None => if String.prefix sub s then Some 0 else None
      end
  end.

(** ** Lemmas *)

Lemma texts_app l k : texts (l ++ k) = texts l +:+ texts k.
Proof. induction l as [|r l IH]; cbn; [done|]. by rewrite IH, string_app_assoc. Qed.

(** One step of the decomposition. *)
Inductive rune_step : string → bool * string → string → Prop :=
  | step_ascii a s : is_ascii a = true → rune_step (String a s) (true, text1 a) s
  | step_two a b s : is_ascii a = false → two_ok a b = true →
      rune_step (String a (String b s)) (true, text2 a b) s
  | step_three a b c s : is_ascii a = false → three_ok a b c = true →
      rune_step (String a (String b (String c s))) (true, text3 a b c) s
  | step_four a b c d s : is_ascii a = false → four_ok a b c d = true →
      rune_step (String a (String b (String c (String d s)))) (true, text4 a b c d) s
  | step_invalid a s : is_ascii a = false → rune_step (String a s) (false, text1 a) s.

Lemma runes_step s : s ≠ "" → ∃ r s', rune_step s r s' ∧ runes s = r :: runes s'.
Proof.
  destruct s as [|a s1]; [done|]. intros _. cbn [runes].
  destruct (is_ascii a) eqn:Ha; [eauto using rune_step|].
  destruct s1 as [|b s2]; [eauto using rune_step|].
  destruct (two_ok a b) eqn:H2; [eauto using rune_step|].
  destruct s2 as [|c s3]; [eauto using rune_step|].
  destruct (three_ok a b c) eqn:H3; [eauto using rune_step|].
  destruct s3 as [|d s4]; [eauto using rune_step|].
  destruct (four_ok a b c d) eqn:H4; eauto using rune_step.
Qed.

Lemma rune_step_text s r s' : rune_step s r s' → s = r.2 +:+ s' ∧ String.length s' < String.length s.
Proof. destruct 1; cbn; split; (done || lia). Qed.

(** Induction along the runes. *)
Lemma runes_ind (P : string → Prop) :
  P "" → (∀ s r s', rune_step s r s' → runes s = r :: runes s' → P s' → P s) → ∀ s, P s.
Proof.
  intros H0 Hs s. induction s as [s IH] using (induction_ltof1 _ String.length). unfold ltof in IH.
  destruct (decide (s = "")) as [->|Hne]; [done|].
  destruct (runes_step s Hne) as (r & s' & Hstep & Heq). eapply Hs; [done..|]. apply IH.
  by apply rune_step_text in Hstep as [_ ?].
Qed.

Lemma texts_runes s : texts (runes s) = s.
Proof.
  induction s as [|s r s' Hstep -> IH] using runes_ind; [done|]. cbn. rewrite IH.
  by apply rune_step_text in Hstep as [-> _].
Qed.

Lemma runes_ascii a s : is_ascii a = true → runes (String a s) = (true, text1 a) :: runes s.
Proof. intros Ha. cbn. by rewrite Ha. Qed.

Lemma ascii_not_cont a : is_ascii a = true → is_cont a = false.
Proof. unfold is_ascii, is_cont, between. rewrite N.ltb_lt, andb_false_iff, !N.leb_gt. lia. Qed.

(** An ASCII character starts a rune. *)
Lemma runes_app s a t : is_ascii a = true → runes (s +:+ String a t) = runes s ++ runes (String a t).
Proof.
  intros Ha. pose proof (ascii_not_cont a Ha) as Hc. rewrite (runes_ascii a t Ha).
  induction s as [s IH] using (induction_ltof1 _ String.length). unfold ltof in IH.
  destruct s as [|x s1]; [by rewrite <-runes_ascii|]. cbn [String.append runes].
  destruct (is_ascii x) eqn:Hx; [cbn; f_equal; apply IH; cbn; lia|].
  assert (∀ b, two_ok b a = false) as H2 by (intros b; unfold two_ok; by rewrite Hc, andb_false_r).
  assert (∀ b c, three_ok b c a = false) as H3 by (intros b c; unfold three_ok; by rewrite Hc, andb_false_r).
  assert (∀ b c d, three_ok b a c = false ∧ four_ok b c d a = false ∧ four_ok b c a d = false ∧ four_ok b a c d = false) as H4.
  { intros b c d. unfold three_ok, four_ok. rewrite Hc, !andb_false_r.
    assert (∀ lo hi, (128 <= lo)%N → between lo hi a = false) as Hb.
    { intros lo hi Hlo. unfold between, is_ascii in *. rewrite N.ltb_lt in Ha. rewrite andb_false_iff, !N.leb_gt. lia. }
    rewrite !Hb by lia. repeat case_match; done. }
  destruct s1 as [|b s2]; cbn [String.append].
  { rewrite H2. destruct t as [|c t]; [by rewrite <-runes_ascii|].
    destruct (H4 x c c) as (-> & _). destruct t as [|d t]; [by rewrite <-runes_ascii|].
    destruct (H4 x c d) as (_ & _ & _ & ->). by rewrite <-runes_ascii. }
  destruct (two_ok x b); [cbn; f_equal; apply IH; cbn; lia|].
  destruct s2 as [|c s3]; cbn [String.append].
  { rewrite H3. destruct t as [|d t]; (rewrite ?(proj1 (proj2 (proj2 (H4 x b d)))));
      cbn [app]; f_equal; apply (IH (text1 b)); cbn; lia. }
  destruct (three_ok x b c); [cbn; f_equal; apply IH; cbn; lia|].
  destruct s3 as [|d s4]; cbn [String.append].
  { rewrite (proj1 (proj2 (H4 x b c))). cbn [app]; f_equal; apply (IH (text2 b c)); cbn; lia. }
  destruct (four_ok x b c d); cbn [app]; f_equal; [apply IH; cbn; lia|].
  apply (IH (String b (String c (String d s4)))). cbn. lia.
Qed.

(** ** Trimming *)

Lemma trim_left_head r l : is_space r = false → trim_left (r :: l) = r :: l.
Proof. intros Hr. cbn. by rewrite Hr. Qed.

Lemma trim_right_snoc r l : is_space r = false → trim_right (l ++ [r]) = l ++ [r].
Proof. intros Hr. unfold trim_right. rewrite reverse_snoc, trim_left_head by done. by rewrite reverse_cons, reverse_involutive. Qed.

Lemma trim_right_space r l : is_space r = true → trim_right (l ++ [r]) = trim_right l.
Proof. intros Hr. unfold trim_right. rewrite reverse_snoc. cbn. by rewrite Hr. Qed.

(** Trailing white space is dropped. *)
Lemma trim_snoc_space r l :
  is_space r = true → trim_right (trim_left (l ++ [r])) = trim_right (trim_left l).
Proof.
  intros Hr. induction l as [|x l IH]; cbn [app trim_left]; [by rewrite Hr|].
  destruct (is_space x); [done|]. by rewrite app_comm_cons, trim_right_space.
Qed.

(** A text without white space at its ends. *)
Definition tight (l : list (bool * string)) : Prop :=
  ∃ a b, head l = Some a ∧ last l = Some b ∧ is_space a = false ∧ is_space b = false.

Lemma tight_trim l : tight l → trim_right (trim_left l) = l.
Proof.
  intros (a & b & Ha & Hb & Hsa & Hsb). destruct l as [|a' l]; [done|]. injection Ha as ->.
  rewrite trim_left_head by done. apply last_Some in Hb as [k Hk]. rewrite Hk. by apply trim_right_snoc.
Qed.

Lemma TrimSpace_tight s : tight (runes s) → TrimSpace s = s.
Proof. intros Ht. unfold TrimSpace. by rewrite tight_trim, texts_runes. Qed.

Lemma rune_nonempty s r : r ∈ runes s → r.2 ≠ "".
Proof.
  induction s as [|s r' s' Hstep -> IH] using runes_ind; [by intros ?%elem_of_nil|].
  intros [->|Hr]%elem_of_cons; [|auto]. by destruct Hstep.
Qed.

Lemma trim_left_suffix l : ∃ k, l = k ++ trim_left l ∧ ∀ x, head (trim_left l) = Some x → is_space x = false.
Proof.
  induction l as [|r l (k & Hk & Hh)]; [by exists []|]. cbn. destruct (is_space r) eqn:Hr.
  - exists (r :: k). split; [cbn; by f_equal|done].
  - exists []. split; [done|]. by intros x [= ->].
Qed.

Lemma trim_right_prefix l : ∃ k, l = trim_right l ++ k ∧ ∀ x, last (trim_right l) = Some x → is_space x = false.
Proof.
  destruct (trim_left_suffix (reverse l)) as (k & Hk & Hh). exists (reverse k). unfold trim_right. split.
  - apply (f_equal reverse) in Hk. by rewrite reverse_involutive, reverse_app in Hk.
  - intros x. rewrite last_reverse. apply Hh.
Qed.

(** A trimmed nonempty string is tight. *)
Lemma TrimSpace_id_tight s : TrimSpace s = s → s ≠ "" → tight (runes s).
Proof.
  intros Htrim Hne. destruct (trim_left_suffix (runes s)) as (k1 & H1 & Hh).
  destruct (trim_right_prefix (trim_left (runes s))) as (k2 & H2 & Hl).
  set (m := trim_right (trim_left (runes s))) in *.
  assert (runes s = k1 ++ m ++ k2) as Hs by (by rewrite H1 at 1; rewrite H2 at 1).
  assert (texts m = s) as Hm by done.
  assert (texts k1 +:+ texts m +:+ texts k2 = texts m) as Ht by (by rewrite <-!texts_app, <-Hs, texts_runes).
  assert (String.length (texts k1) + String.length (texts k2) = 0) as Hlen.
  { apply (f_equal String.length) in Ht. rewrite !length_app_string in Ht. lia. }
  assert (∀ k, (∀ r, r ∈ k → r ∈ runes s) → String.length (texts k) = 0 → k = []) as Hnil.
  { intros k Hk Hk0. destruct k as [|r k]; [done|]. destruct (rune_nonempty s r); [apply Hk; left|].
    cbn in Hk0. rewrite length_app_string in Hk0. destruct r.2; [done|cbn in Hk0; lia]. }
  assert (k1 = []) as -> by (apply Hnil; [rewrite Hs; set_solver|lia]).
  assert (k2 = []) as -> by (apply Hnil; [rewrite Hs; set_solver|lia]).
  rewrite app_nil_r in Hs, H2. cbn in Hs, H1. rewrite Hs. rewrite H2 in Hh.
  destruct m as [|a m'] eqn:Em; [by rewrite <-Hm in Hne|].
  destruct (last (a :: m')) as [b|] eqn:Eb; [|by apply last_None in Eb]. exists a, b. auto.
Qed.

(** ** Decoding a part of a text again *)

(** A valid encoding is one rune whatever follows it. *)
Lemma valid_step s r s' k : rune_step s r s' → r.1 = true → runes (r.2 +:+ k) = r :: runes k.
Proof.
  assert (∀ lo hi lo' hi' c, between lo hi c = true → (hi < lo' ∨ hi' < lo)%N → between lo' hi' c = false) as Hb.
  { intros lo hi lo' hi' c. unfold between. rewrite andb_true_iff, andb_false_iff, !N.leb_le, !N.leb_gt. lia. }
  assert (∀ a b c, three_ok a b c = true → two_ok a b = false) as H3.
  { intros a b c H. apply andb_true_iff in H as [H _]. unfold two_ok. apply andb_false_iff. left.
    destruct (N.eqb_spec (code a) 224), (N.eqb_spec (code a) 237);
      try (unfold between; rewrite andb_false_iff, !N.leb_gt; lia).
    apply andb_true_iff in H as [H _]. eapply Hb; [done|lia]. }
  assert (∀ a b c d, four_ok a b c d = true → two_ok a b = false ∧ three_ok a b c = false) as H4.
  { intros a b c d H. apply andb_true_iff in H as [[H _]%andb_true_iff _].
    assert (between 240 244 a = true) as Ha.
    { destruct (N.eqb_spec (code a) 240), (N.eqb_spec (code a) 244);
        try (unfold between; rewrite andb_true_iff, !N.leb_le; lia).
      apply andb_true_iff in H as [H _]. revert H. unfold between. rewrite !andb_true_iff, !N.leb_le. lia. }
    unfold two_ok, three_ok. rewrite (Hb _ _ 194%N 223%N a Ha), (Hb _ _ 225%N 239%N a Ha) by lia.
    unfold between in Ha. rewrite andb_true_iff, !N.leb_le in Ha.
    destruct (N.eqb_spec (code a) 224), (N.eqb_spec (code a) 237); lia || done. }
  destruct 1 as [a t Ha|a b t Ha H|a b c t Ha H|a b c d t Ha H|]; intros Hv; [| | | |done];
    cbn [String.append runes snd]; rewrite Ha; [done|by rewrite H|by rewrite (H3 _ _ _ H), H|].
  destruct (H4 _ _ _ _ H) as [-> ->]. by rewrite H.
Qed.

Lemma runes_nil s : runes s = [] → s = "".
Proof. destruct (decide (s = "")) as [|Hne]; [done|]. destruct (runes_step s Hne) as (r & s' & _ & ->). done. Qed.

Lemma runes_prefix s l k : runes s = l ++ k → runes (texts l) = l.
Proof.
  revert l. induction s as [|s r s' Hstep Hs IH] using runes_ind; intros l Hl.
  { symmetry in Hl. by apply app_eq_nil in Hl as [-> _]. }
  destruct l as [|r' l]; [done|]. rewrite Hs in Hl. injection Hl as <- Hl. specialize (IH l Hl).
  destruct r as [[] x].
  { cbn [texts]. rewrite (valid_step _ _ _ (texts l) Hstep) by done. by rewrite IH. }
  inversion Hstep as [| | | |a t Ha]; subst. cbn [texts snd String.append].
  destruct (runes_step (String a (texts l))) as (r & t & Hr & Heq); [done|]. rewrite Heq.
  destruct (r.1) eqn:Hv; [|by inversion Hr; subst; rewrite ?IH].
  exfalso. assert (String a s' = r.2 +:+ (t +:+ texts k)) as Ht.
  { apply rune_step_text in Hr as [Hr _]. rewrite string_app_assoc, <-Hr. cbn. f_equal.
    by rewrite <-texts_app, <-Hl, texts_runes. }
  rewrite Ht, (valid_step _ _ _ _ Hr Hv) in Hs. injection Hs as -> _. done.
Qed.

Lemma runes_suffix s l k : runes s = l ++ k → runes (texts k) = k.
Proof.
  revert s. induction l as [|r l IH]; intros s Hs; [cbn in Hs; by rewrite <-Hs, texts_runes|].
  destruct (decide (s = "")) as [->|Hne]; [done|]. destruct (runes_step s Hne) as (r' & s' & _ & Heq).
  rewrite Heq in Hs. injection Hs as _ Hs. eauto.
Qed.

Lemma runes_infix s l m k : runes s = l ++ m ++ k → runes (texts m) = m.
Proof. intros Hs. eapply (runes_prefix (texts (m ++ k)) m k), runes_suffix, Hs. Qed.

Lemma TrimSpace_infix s : ∃ l k, runes s = l ++ runes (TrimSpace s) ++ k ∧
  runes (TrimSpace s) = trim_right (trim_left (runes s)).
Proof.
  destruct (trim_left_suffix (runes s)) as (k1 & H1 & _), (trim_right_prefix (trim_left (runes s))) as (k2 & H2 & _).
  exists k1, k2. unfold TrimSpace. set (m := trim_right (trim_left (runes s))) in *.
  assert (runes s = k1 ++ m ++ k2) as Hs by (by rewrite H1 at 1; rewrite H2 at 1).
  by rewrite (runes_infix _ _ _ _ Hs).
Qed.

(** What is left of a trim is tight. *)
Lemma TrimSpace_result s : TrimSpace s = "" ∨ tight (runes (TrimSpace s)).
Proof.
  destruct (TrimSpace_infix s) as (_ & _ & _ & Hr).
  destruct (decide (TrimSpace s = "")) as [|Hne]; [by left|right].
  destruct (trim_left_suffix (runes s)) as (_ & _ & Hh), (trim_right_prefix (trim_left (runes s))) as (k2 & H2 & Hl).
  rewrite Hr. set (m := trim_right (trim_left (runes s))) in *.
  destruct m as [|a m'] eqn:Em; [by apply runes_nil in Hr|].
  destruct (last (a :: m')) as [b|] eqn:Eb; [|by apply last_None in Eb]. rewrite H2 in Hh. exists a, b. auto.
Qed.

Lemma TrimSpace_idemp s : TrimSpace (TrimSpace s) = TrimSpace s.
Proof. destruct (TrimSpace_result s) as [->|Ht]; [done|]. by apply TrimSpace_tight. Qed.

Lemma TrimSpace_trailing s a : is_ascii a = true → is_space (true, text1 a) = true →
  TrimSpace (s +:+ text1 a) = TrimSpace s.
Proof.
  intros Ha Hs. unfold TrimSpace. rewrite runes_app, runes_ascii by done. by rewrite trim_snoc_space.
Qed.
