(* ===== verification/GoInt.v ===== *)
(** * Machine integers and timestamps

    What the agent budgets use of the language and its library: Go's [int] (64 bits, two's
    complement, wrapping), [strconv.Atoi] on digits and [time.Parse(time.RFC3339, _)]. *)
From S2P Require Import Prelude GoStrings.
From Stdlib Require Import Ascii.

Local Open Scope Z_scope.

(** ** Go's [int] *)

Definition min_int : Z := - 2 ^ 63.
Definition max_int : Z := 2 ^ 63 - 1.

(** The value held after a computation whose exact result is [z]. *)
Definition wrap (z : Z) : Z := (z - min_int) mod 2 ^ 64 + min_int.

Definition is_int (z : Z) : Prop := min_int ≤ z ≤ max_int.

Definition add (a b : Z) : Z := wrap (a + b).
Definition sub (a b : Z) : Z := wrap (a - b).
Definition mul (a b : Z) : Z := wrap (a * b).
Definition div (a b : Z) : Z := wrap (Z.quot a b).
Definition rem (a b : Z) : Z := Z.rem a b.

Lemma wrap_id z : is_int z → wrap z = z.
Proof. unfold is_int, wrap, min_int, max_int. intros H. rewrite Z.mod_small; lia. Qed.

Lemma wrap_is_int z : is_int (wrap z).
Proof.
  unfold is_int, wrap, min_int, max_int.
  pose proof (Z.mod_pos_bound (z - - 2 ^ 63) (2 ^ 64) ltac:(lia)). lia.
Qed.

Lemma add_exact a b : is_int (a + b) → add a b = a + b.
Proof. apply wrap_id. Qed.

Lemma sub_exact a b : is_int (a - b) → sub a b = a - b.
Proof. apply wrap_id. Qed.

(** Between nonnegative integers a difference never leaves the range. *)
Lemma sub_nonneg a b : 0 ≤ a ≤ max_int → 0 ≤ b ≤ max_int → sub a b = a - b.
Proof. intros Ha Hb. apply sub_exact. unfold is_int, min_int, max_int in *. lia. Qed.

Lemma mul_exact a b : is_int (a * b) → mul a b = a * b.
Proof. apply wrap_id. Qed.

Lemma div_exact a b : 0 ≤ a ≤ max_int → 0 < b → div a b = a / b.
Proof.
  intros Ha Hb. unfold div. rewrite Z.quot_div_nonneg by lia. apply wrap_id.
  assert (0 ≤ a / b) by (apply Z.div_pos; lia).
  assert (a / b ≤ a) by (apply Z.div_le_upper_bound; nia).
  unfold is_int, min_int, max_int in *. lia.
Qed.

Lemma rem_exact a b : 0 ≤ a → 0 < b → rem a b = a mod b.
Proof. intros. apply Z.rem_mod_nonneg; lia. Qed.

(** [strconv.Atoi] of a text of decimal digits: an error past the largest [int]. *)
Definition Atoi (s : string) : option Z :=
  match s with
  | EmptyString => None
  | _ => n ← parse_digits s 0; if Z.of_N n <=? max_int then Some (Z.of_N n) else None
  end.

(** ** [time.Parse(time.RFC3339, value)] *)

Definition digit_value (c : ascii) : Z := Z.of_N (code c) - 48.

(** [getnum]: two digits, or one when [fixed] does not forbid it. *)
Definition getnum (fixed : bool) (s : string) : option (Z * string) :=
  match s with
  | String a s' =>
      if negb (is_digit a) then None else
      match s' with
      | String b s'' =>
          if is_digit b then Some (10 * digit_value a + digit_value b, s'')
          else if fixed then None else Some (digit_value a, s')
      | EmptyString => if fixed then None else Some (digit_value a, s')
      end
  | EmptyString => None
  end.

Definition expect (c : ascii) (s : string) : option string :=
  match s with
  | String a s' => if bool_decide (a = c) then Some s' else None
  | EmptyString => None
  end.

Definition in_range (lo hi : Z) (n : Z) : option unit :=
  if (lo <=? n) && (n <? hi) then Some tt else None.

Fixpoint skip_digits (s : string) : string :=
  match s with
  | String a s' => if is_digit a then skip_digits s' else s
  | EmptyString => s
  end.

(** A fraction after the seconds is accepted though the layout has none. *)
Definition fraction (s : string) : string :=
  match s with
  | String a (String b s') =>
      if ((code a =? 46)%N || (code a =? 44)%N) && is_digit b then skip_digits s' else s
  | _ => s
  end.

(** The zone: [Z], or a sign, hours and minutes ([24:60] is accepted). *)
Definition zone (s : string) : option unit :=
  match s with
  | String a s' =>
      if (code a =? 90)%N then (if bool_decide (s' = "") then Some tt else None)
      else if (code a =? 43)%N || (code a =? 45)%N then
        '(h, s) ← getnum true s'; s ← expect (ascii_of_N 58) s; '(m, s) ← getnum true s;
        _ ← in_range 0 25 h; _ ← in_range 0 61 m;
        if bool_decide (s = "") then Some tt else None
      else None
  | EmptyString => None
  end.

Definition isLeap (year : Z) : bool :=
  (year mod 4 =? 0) && (negb (year mod 100 =? 0) || (year mod 400 =? 0)).

Definition daysIn (month year : Z) : Z :=
  if (month =? 2) && isLeap year then 29
  else if month =? 2 then 28
  else if (month =? 4) || (month =? 6) || (month =? 9) || (month =? 11) then 30
  else 31.

Definition ParseRFC3339 (value : string) : bool :=
  bool_decide (is_Some (
    '(y1, s) ← getnum true value; '(y2, s) ← getnum true s; s ← expect (ascii_of_N 45) s;
    '(month, s) ← getnum true s; _ ← in_range 1 13 month; s ← expect (ascii_of_N 45) s;
    '(day, s) ← getnum true s; s ← expect (ascii_of_N 84) s;
    '(hour, s) ← getnum false s; _ ← in_range 0 24 hour; s ← expect (ascii_of_N 58) s;
    '(minute, s) ← getnum true s; _ ← in_range 0 60 minute; s ← expect (ascii_of_N 58) s;
    '(second, s) ← getnum true s; _ ← in_range 0 60 second;
    _ ← zone (fraction s);
    in_range 1 (daysIn month (100 * y1 + y2) + 1) day)).

Example parse_rfc3339_samples :
  ParseRFC3339 "2024-02-29T23:59:59.123456789Z" = true ∧
  ParseRFC3339 "2023-02-29T23:59:59Z" = false ∧
  ParseRFC3339 "2026-01-02T03:04:05+09:00" = true ∧
  ParseRFC3339 "2026-01-02 03:04:05Z" = false ∧
  ParseRFC3339 "2026-13-02T03:04:05Z" = false ∧
  ParseRFC3339 "" = false.
Proof. vm_compute. done. Qed.
