(* ===== verification/GoJson.v ===== *)
(** * JSON texts

    What [json.Marshal] writes for the values the domain marshals: objects with
    their fields in declaration order, arrays, strings, integers and booleans; any other
    number ([float64], [json.Number]) is its text.
    Struct values are turned into a [json] tree by the file that declares them, which
    leaves out the fields [omitempty] leaves out. *)
From stdpp Require Import pretty.
From S2P Require Import Prelude GoStrings Utf8.
From Stdlib Require Import Ascii.

Inductive json : Type :=
  | JNull
  | JBool (b : bool)
  | JInt (z : Z)
  | JNum (text : string)
  | JStr (s : string)
  | JArr (l : list json)
  | JObj (fields : list (string * json)).

(** ** Strings: [encoding/json]'s [appendString] with HTML escaping *)

Definition hex_char (n : N) : ascii := ascii_of_N (if (n <? 10)%N then 48 + n else 87 + n).

Definition quote : ascii := ascii_of_N 34.
Definition backslash : ascii := ascii_of_N 92.

Definition escape_ascii (c : ascii) : string :=
  if (code c =? 34)%N || (code c =? 92)%N then text2 backslash c
  else if (code c =? 8)%N then text2 backslash "b"%char
  else if (code c =? 12)%N then text2 backslash "f"%char
  else if (code c =? 10)%N then text2 backslash "n"%char
  else if (code c =? 13)%N then text2 backslash "r"%char
  else if (code c =? 9)%N then text2 backslash "t"%char
  else if (code c <? 32)%N || (code c =? 60)%N || (code c =? 62)%N || (code c =? 38)%N
  then String backslash ("u00" +:+ text2 (hex_char (code c / 16)) (hex_char (code c mod 16)))
  else text1 c.

(** Invalid bytes become [\ufffd]; the line separators are escaped. *)
Definition escape_rune (r : bool * string) : string :=
  match r with
  | (true, String c EmptyString) => escape_ascii c
  | (true, t) =>
      if t =? byte_text [226; 128; 168]%N then String backslash "u2028"
      else if t =? byte_text [226; 128; 169]%N then String backslash "u2029"
      else t
  | (false, _) => String backslash "ufffd"
  end.

Definition encode_string (s : string) : string :=
  String quote (foldr (λ r t, escape_rune r +:+ t) (text1 quote) (runes s)).

(** A text as parsing its JSON leaves it: what is not UTF-8 became the replacement rune. *)
Definition utf8_clean (s : string) : string :=
  texts ((λ r : bool * string, if r.1 then r else (true, rune_error)) <$> runes s).

(** ** Values *)

Fixpoint encode (j : json) : string :=
  match j with
  | JNull => "null"
  | JBool true => "true"
  | JBool false => "false"
  | JInt z => pretty z
  | JNum text => text
  | JStr s => encode_string s
  | JArr l => "[" +:+ Join (List.map encode l) "," +:+ "]"
  | JObj fields =>
      "{" +:+ Join (List.map (λ f, encode_string f.1 +:+ ":" +:+ encode f.2) fields) "," +:+ "}"
  end.

(** ** Fields *)

(** A field, and one with [omitempty] that is present only when it is not empty. *)
Definition field (name : string) (j : json) : list (string * json) := [(name, j)].

Definition omitempty (empty : bool) (name : string) (j : json) : list (string * json) :=
  if empty then [] else [(name, j)].

Definition str_field (name s : string) : list (string * json) := field name (JStr s).
Definition str_omitempty (name s : string) : list (string * json) := omitempty (s =? "") name (JStr s).

(** A slice, [null] when it is nil. *)
Definition slice_json {A} (f : A → json) (s : slice A) : json :=
  match s with
  | None => JNull
  | Some l => JArr (List.map f l)
  end.

Definition list_omitempty {A} (f : A → json) (name : string) (l : list A) : list (string * json) :=
  match l with
  | [] => []
  | _ => [(name, JArr (List.map f l))]
  end.

Definition pointer_omitempty {A} (f : A → json) (name : string) (p : option A) : list (string * json) :=
  match p with
  | None => []
  | Some a => [(name, f a)]
  end.

Example encode_sample :
  encode (JObj (str_field "a" "x<y" ++ str_omitempty "b" "" ++ field "n" (JInt (-12)) ++
                field "l" (slice_json JStr (Some ["p"; "q"])))) =
  String "{"%char (text1 quote +:+ "a" +:+ text1 quote +:+ ":" +:+ text1 quote +:+ "x" +:+ text1 backslash +:+ "u003cy" +:+
  text1 quote +:+ "," +:+ text1 quote +:+ "n" +:+ text1 quote +:+ ":-12," +:+ text1 quote +:+ "l" +:+ text1 quote +:+
  ":[" +:+ text1 quote +:+ "p" +:+ text1 quote +:+ "," +:+ text1 quote +:+ "q" +:+ text1 quote +:+ "]}").
Proof. vm_compute. reflexivity. Qed.
