(* ===== verification/Sha256.v ===== *)
(** * SHA-256 and content addresses

    [crypto/sha256] as the domain uses it: FIPS 180-4 on byte strings, written so
    that it evaluates, with [HashContent] of [cli/internal/domain/hash.go] on top.
    Collision resistance is never assumed. *)
From S2P Require Import Prelude GoStrings.
From Stdlib Require Import Ascii.

Module Sha256.
Local Open Scope N_scope.

Definition word (x : N) : N := N.land x 4294967295.
Definition plus (x y : N) : N := word (x + y).
Definition rotr (n x : N) : N := N.lor (N.shiftr x n) (word (N.shiftl x (32 - n))).
Definition lnot32 (x : N) : N := N.lxor x 4294967295.

Definition small0 (x : N) : N := N.lxor (rotr 7 x) (N.lxor (rotr 18 x) (N.shiftr x 3)).
Definition small1 (x : N) : N := N.lxor (rotr 17 x) (N.lxor (rotr 19 x) (N.shiftr x 10)).
Definition big0 (x : N) : N := N.lxor (rotr 2 x) (N.lxor (rotr 13 x) (rotr 22 x)).
Definition big1 (x : N) : N := N.lxor (rotr 6 x) (N.lxor (rotr 11 x) (rotr 25 x)).
Definition choose (x y z : N) : N := N.lxor (N.land x y) (N.land (lnot32 x) z).
Definition majority (x y z : N) : N := N.lxor (N.land x y) (N.lxor (N.land x z) (N.land y z)).

Definition round_constants : list N :=
  [1116352408; 1899447441; 3049323471; 3921009573; 961987163;
   1508970993; 2453635748; 2870763221; 3624381080; 310598401;
   607225278; 1426881987; 1925078388; 2162078206; 2614888103;
   3248222580; 3835390401; 4022224774; 264347078; 604807628;
   770255983; 1249150122; 1555081692; 1996064986; 2554220882;
   2821834349; 2952996808; 3210313671; 3336571891; 3584528711;
   113926993; 338241895; 666307205; 773529912; 1294757372;
   1396182291; 1695183700; 1986661051; 2177026350; 2456956037;
   2730485921; 2820302411; 3259730800; 3345764771; 3516065817;
   3600352804; 4094571909; 275423344; 430227734; 506948616;
   659060556; 883997877; 958139571; 1322822218; 1537002063;
   1747873779; 1955562222; 2024104815; 2227730452; 2361852424;
   2428436474; 2756734187; 3204031479; 3329325298].

(** The eight working variables. *)
Record state := State { sa : N; sb : N; sc : N; sd : N; se : N; sf : N; sg : N; sh : N }.

Definition initial : state :=
  match [1779033703; 3144134277; 1013904242; 2773480762; 1359893119; 2600822924; 528734635; 1541459225] with
  | [a; b; c; d; e; f; g; h] => State a b c d e f g h
  | _ => State 0 0 0 0 0 0 0 0
  end.

Definition round (s : state) (kw : N * N) : state :=
  let t1 := plus (plus (sh s) (big1 (se s))) (plus (choose (se s) (sf s) (sg s)) (plus kw.1 kw.2)) in
  let t2 := plus (big0 (sa s)) (majority (sa s) (sb s) (sc s)) in
  State (plus t1 t2) (sa s) (sb s) (sc s) (plus (sd s) t1) (se s) (sf s) (sg s).

(** The message schedule, most recent word first. *)
Fixpoint extend (n : nat) (ws : list N) : list N :=
  match n with
  | O => ws
  | S n =>
      let at_ i := nth i ws 0 in
      extend n (plus (plus (small1 (at_ 1%nat)) (at_ 6%nat)) (plus (small0 (at_ 14%nat)) (at_ 15%nat)) :: ws)
  end.

Definition compress (s : state) (block : list N) : state :=
  let ws := rev (extend 48 (rev block)) in
  let r := fold_left round (combine round_constants ws) s in
  State (plus (sa s) (sa r)) (plus (sb s) (sb r)) (plus (sc s) (sc r)) (plus (sd s) (sd r))
        (plus (se s) (se r)) (plus (sf s) (sf r)) (plus (sg s) (sg r)) (plus (sh s) (sh r)).

Fixpoint big_endian (k : nat) (n : N) : list N :=
  match k with
  | O => []
  | S k => big_endian k (n / 256) ++ [n mod 256]
  end.

Definition pad (msg : list N) : list N :=
  let len := length msg in
  let zeros := ((119 - len mod 64) mod 64)%nat in
  msg ++ 128 :: replicate zeros 0 ++ big_endian 8 (N.of_nat len * 8).

Fixpoint words (bytes : list N) : list N :=
  match bytes with
  | a :: b :: c :: d :: rest => (((a * 256 + b) * 256 + c) * 256 + d) :: words rest
  | _ => []
  end.

Fixpoint blocks (fuel : nat) (ws : list N) (s : state) : state :=
  match fuel, ws with
  | O, _ | _, [] => s
  | S fuel, _ => blocks fuel (drop 16 ws) (compress s (take 16 ws))
  end.

Definition digest (msg : list N) : state :=
  let ws := words (pad msg) in blocks (length ws) ws initial.

Fixpoint bytes_of (s : string) : list N :=
  match s with
  | EmptyString => []
  | String c s => code c :: bytes_of s
  end.

Definition hex_char (d : N) : ascii :=
  if d <? 10 then ascii_of_N (48 + d) else ascii_of_N (87 + d).

(** The [k] lowest hexadecimal digits of [n], most significant first. *)
Fixpoint hex_fixed (k : nat) (n : N) : string :=
  match k with
  | O => EmptyString
  | S k => hex_fixed k (n / 16) +:+ String (hex_char (n mod 16)) EmptyString
  end.

(** [hex.EncodeToString(sha256.Sum256(data))] *)
Definition hex_digest (data : string) : string :=
  let s := digest (bytes_of data) in
  hex_fixed 8 (sa s) +:+ hex_fixed 8 (sb s) +:+ hex_fixed 8 (sc s) +:+ hex_fixed 8 (sd s) +:+
  hex_fixed 8 (se s) +:+ hex_fixed 8 (sf s) +:+ hex_fixed 8 (sg s) +:+ hex_fixed 8 (sh s).

Lemma hex_char_lower d : d < 16 → is_lower_hex (hex_char d) = true.
Proof.
  intros Hd. unfold hex_char, is_lower_hex, is_digit, is_lower_hex_letter, code.
  destruct (N.ltb_spec d 10); rewrite !N_ascii_embedding by lia;
    apply orb_true_iff; [left|right]; apply andb_true_iff; split; apply N.leb_le; lia.
Qed.

Lemma hex_fixed_length k n : String.length (hex_fixed k n) = k.
Proof.
  revert n. induction k as [|k IH]; intros n; simpl; [done|].
  rewrite length_app_string, IH. simpl. lia.
Qed.

Lemma hex_fixed_lower k n : all_chars is_lower_hex (hex_fixed k n) = true.
Proof.
  revert n. induction k as [|k IH]; intros n; simpl; [done|].
  rewrite all_chars_app, IH. simpl. rewrite hex_char_lower; [done|]. by apply N.mod_lt.
Qed.

Lemma hex_digest_length data : String.length (hex_digest data) = 64%nat.
Proof. unfold hex_digest. by rewrite !length_app_string, !hex_fixed_length. Qed.

Lemma hex_digest_lower data : all_chars is_lower_hex (hex_digest data) = true.
Proof. unfold hex_digest. by rewrite !all_chars_app, !hex_fixed_lower. Qed.

(** The test vectors of FIPS 180-4. *)
Example digest_abc :
  hex_digest "abc" = "ba7816bf8f01cfea414140de5dae2223b00361a396177a9cb410ff61f20015ad".
Proof. vm_compute. reflexivity. Qed.

Example digest_two_blocks :
  hex_digest "abcdbcdecdefdefgefghfghighijhijkijkljklmklmnlmnomnopnopq" =
    "248d6a61d20638b8e5c026930c3e6039a33ce45964ff2167f6ecedd419db06c1".
Proof. vm_compute. reflexivity. Qed.

End Sha256.

(** [HashContent]: the content address of a byte string. *)
Definition HashContent (data : string) : string := "sha256:" +:+ Sha256.hex_digest data.
