(* ===== verification/Values.v ===== *)
(** * Values: content hashes, ref names and refs

    Models [cli/internal/domain/values.go], the [Ref] struct of [entities.go] and
    the branch lifecycle tag grammar of [branch_lifecycle.go] that ref names
    depend on.  Go's [ContentHash], [RefKind] and [ProviderKind] are aliases of
    [string] and are plain strings here too. *)
From S2P Require Import Prelude GoStrings Sha256.
From Stdlib Require Import Ascii.

(** ** Content hashes *)

Definition contentHashPrefix : string := "sha256:".

Definition ValidateContentHash (h : string) : result unit :=
  reject_if ((String.length h <>? String.length contentHashPrefix + 64) ||
             negb (HasPrefix h contentHashPrefix)) ErrHashMismatch ;;
  reject_if (negb (all_chars is_lower_hex (drop_chars (String.length contentHashPrefix) h)))
            ErrHashMismatch.

Definition ValidateOptionalContentHash (h : string) : result unit :=
  if h =? "" then Ok tt else ValidateContentHash h.

Definition ContentHashHex (h : string) : result string :=
  ValidateContentHash h ;; Ok (drop_chars (String.length contentHashPrefix) h).

(** ** Providers and ref kinds *)

Definition ProviderClaude : string := "claude".
Definition ProviderCodex : string := "codex".

Definition HeadRefName : string := "HEAD".
Definition RefHEAD : string := "head".
Definition RefBranch : string := "branch".
Definition RefSession : string := "session".
Definition RefTag : string := "tag".

Definition ValidateRefKind (kind : string) : result unit :=
  if (kind =? RefHEAD) || (kind =? RefBranch) || (kind =? RefSession) || (kind =? RefTag)
  then Ok tt else Err ErrInvalidRef.

(** ** Branch names *)

(** One path component of a ref name. *)
Definition branch_part_invalid (part : string) : bool :=
  (part =? "") || (part =? ".") || (part =? "..") ||
  HasPrefix part "." || HasSuffix part ".lock".

(** One character: [r <= ' '], DEL, or one of [~^:?*\[]. *)
Definition branch_char_invalid (c : ascii) : bool :=
  (code c <=? 32)%N || (code c =? 127)%N || in_cutset "~^:?*[" c.

Definition ValidateBranchName (name : string) : result unit :=
  reject_if ((name =? "") || (1024 <? String.length name)%nat) ErrInvalidRef ;;
  reject_if (HasPrefix name "-") ErrInvalidRef ;;
  reject_if (HasPrefix name "/" || HasSuffix name "/" || Contains name "//") ErrInvalidRef ;;
  reject_if (Contains name "\" || Contains name ".." || Contains name "@{" ||
             (name =? "@") || HasSuffix name ".") ErrInvalidRef ;;
  for_each (λ part, reject_if (branch_part_invalid part) ErrInvalidRef) (Split name "/") ;;
  reject_if (has_char branch_char_invalid name) ErrInvalidRef.

(** ** Refs *)

Record Ref := MkRef {
  ref_BranchID : string;
  ref_Kind : string;
  ref_Name : string;
  ref_RepoID : string;
  ref_Target : string;
  ref_Symbolic : string;
}.

#[export] Instance Ref_eq_dec : EqDecision Ref.
Proof. solve_decision. Defined.

(** ** Branch lifecycle tags *)

Definition BranchLifecycleTagPrefix : string := "cxt/branch-state/v1/".
Definition BranchActive : string := "active".
Definition BranchArchived : string := "archived".

Record BranchLifecycleEvent := MkLifecycle {
  le_Branch : string;
  le_Generation : N;
  le_State : string;
  le_Target : string;
  le_Ref : Ref;
}.

Definition zero_Ref : Ref := MkRef "" "" "" "" "" "".

(** The [(event, bool, error)] result: [Ok None] for a name outside the reserved
    namespace, [Ok (Some e)] for an event, and an error for a malformed name. *)
Definition parseBranchLifecycleTagName (name : string) : result (option BranchLifecycleEvent) :=
  if negb (HasPrefix name BranchLifecycleTagPrefix) then Ok None else
  match SplitN (TrimPrefix name BranchLifecycleTagPrefix) "/" 4 with
  | [part0; part1; part2; part3] =>
      reject_if (String.length part0 <>? 20) ErrInvalidRef ;;
      match ParseUint64 part0 with
      | None => Err ErrInvalidRef
      | Some generation =>
          reject_if ((generation =? 0%N) || (fmt_0d 20 generation <>? part0)) ErrInvalidRef ;;
          reject_if ((part1 <>? BranchActive) && (part1 <>? BranchArchived)) ErrInvalidRef ;;
          reject_if ((String.length part2 <>? 64) || (part2 <>? ToLower part2)) ErrInvalidRef ;;
          ValidateContentHash ("sha256:" +:+ part2) ;;
          ValidateBranchName part3 ;;
          Ok (Some (MkLifecycle part3 generation part1 ("sha256:" +:+ part2) zero_Ref))
      end
  | _ => Err ErrInvalidRef
  end.

(** ** Ref validation *)

Definition ValidateRefName (kind name : string) : result unit :=
  ValidateRefKind kind ;;
  if kind =? RefHEAD then reject_if (name <>? HeadRefName) ErrInvalidRef
  else if (kind =? RefTag) && HasPrefix name BranchLifecycleTagPrefix
  then parseBranchLifecycleTagName name ;; Ok tt
  else ValidateBranchName name.

Definition ValidateRef (ref : Ref) : result unit :=
  reject_if ((128 <? String.length (ref_BranchID ref))%nat ||
             has_char (λ c, (code c =? 13)%N || (code c =? 10)%N) (ref_BranchID ref))
            ErrUnclassified ;;
  ValidateRefName (ref_Kind ref) (ref_Name ref) ;;
  if ref_Kind ref =? RefHEAD then
    ValidateOptionalContentHash (ref_Target ref) ;;
    if ref_Symbolic ref <>? "" then
      reject_if (ref_Target ref <>? "") ErrInvalidRef ;;
      ValidateBranchName (TrimPrefix (ref_Symbolic ref) "refs/heads/")
    else reject_if (ref_Target ref =? "") ErrInvalidRef
  else
    reject_if (ref_Target ref =? "") ErrInvalidRef ;;
    ValidateContentHash (ref_Target ref).

(** ** Lemmas *)

Create HintDb values.

(** The shape of a valid content hash. *)
Definition is_content_hash (h : string) : Prop :=
  ∃ hex, h = contentHashPrefix +:+ hex ∧ String.length hex = 64 ∧
         all_chars is_lower_hex hex = true.

Lemma ValidateContentHash_Ok h : ValidateContentHash h = Ok tt ↔ is_content_hash h.
Proof.
  unfold ValidateContentHash, is_content_hash. rewrite bind_Ok. split.
  - intros ([] & H1 & H2). apply reject_if_Ok in H1, H2. bools.
    match goal with Hp : HasPrefix _ _ = true |- _ => apply prefix_spec in Hp as [hex ->] end.
    exists hex. rewrite drop_chars_app in *. rewrite length_app_string in *.
    repeat split; auto with lia.
  - intros (hex & -> & Hlen & Hhex). exists tt. unfold HasPrefix.
    rewrite length_app_string, prefix_app, drop_chars_app, Hlen, Hhex.
    by rewrite bool_decide_true.
Qed.

Lemma ValidateContentHash_Err h e : ValidateContentHash h = Err e → e = ErrHashMismatch.
Proof.
  unfold ValidateContentHash, reject_if, mbind, result_bind.
  repeat case_match; naive_solver.
Qed.

Lemma content_hash_nonempty h : is_content_hash h → h ≠ "".
Proof. by intros (hex & -> & _). Qed.

Lemma ValidateBranchName_Err name e : ValidateBranchName name = Err e → e = ErrInvalidRef.
Proof.
  unfold ValidateBranchName.
  assert (∀ l e', for_each (λ part, reject_if (branch_part_invalid part) ErrInvalidRef) l = Err e' →
    e' = ErrInvalidRef) as Hfor.
  { induction l as [|x l IH]; simpl; intros e'; [done|].
    unfold reject_if. destruct branch_part_invalid; simpl; naive_solver. }
  repeat (rewrite bind_Err; intros [H|(?&_&H)]; revert H);
    unfold reject_if; try (by destruct (_ : bool); naive_solver); eauto.
  all: repeat case_match; naive_solver.
Qed.

(** Splitting and joining path components. *)
Fixpoint join_parts (sep : ascii) (parts : list string) : string :=
  match parts with
  | [] => EmptyString
  | [p] => p
  | p :: parts => p +:+ String sep (join_parts sep parts)
  end.

Lemma Split_not_nil s sep : Split s sep ≠ [].
Proof. destruct s; simpl; [done|]. case_bool_decide; [done|]. by destruct Split. Qed.

Lemma join_Split s sep : join_parts sep (Split s sep) = s.
Proof.
  induction s as [|c s IH]; simpl; [done|].
  pose proof (Split_not_nil s sep). destruct (Split s sep) as [|h t] eqn:E; [done|].
  case_bool_decide as Hc; simpl in *; [by rewrite Hc, IH|].
  destruct t; simpl in *; by rewrite <-IH.
Qed.

(** Walking a relative path from a directory, as a file system does. *)
Fixpoint walk_path (dir : list string) (parts : list string) : list string :=
  match parts with
  | [] => dir
  | p :: parts =>
      if (p =? "") || (p =? ".") then walk_path dir parts
      else if p =? ".." then walk_path (removelast dir) parts
      else walk_path (dir ++ [p]) parts
  end.

Lemma walk_path_plain dir parts :
  Forall (λ p, branch_part_invalid p = false) parts → walk_path dir parts = dir ++ parts.
Proof.
  intros H. revert dir. induction H as [|p parts Hp _ IH]; intros dir; simpl;
    [by rewrite app_nil_r|].
  unfold branch_part_invalid in Hp. bools.
  repeat match goal with H : bool_decide ?P = false |- _ => rewrite H end.
  rewrite !bool_decide_false by done. simpl. rewrite IH. by rewrite <-(assoc_L (++)).
Qed.

Lemma ValidateBranchName_parts name :
  ValidateBranchName name = Ok tt →
  Forall (λ p, branch_part_invalid p = false) (Split name "/").
Proof.
  unfold ValidateBranchName. intros H. inv_ok.
  match goal with H : Forall _ _ |- _ => eapply Forall_impl; [exact H|] end.
  intros p Hp. simpl in Hp. by apply reject_if_Ok in Hp.
Qed.

Lemma ValidateBranchName_nonempty name : ValidateBranchName name = Ok tt → name ≠ "".
Proof. unfold ValidateBranchName. intros H. inv_ok. by bools. Qed.

Lemma HashContent_is_content_hash data : is_content_hash (HashContent data).
Proof.
  exists (Sha256.hex_digest data).
  split_and!; [done|apply Sha256.hex_digest_length|apply Sha256.hex_digest_lower].
Qed.

(** Every content address computed by [HashContent] passes the strict
    validation applied to external keys, and its hexadecimal part is recovered by
    [ContentHashHex]. *)
Theorem HashContent_valid data :
  ValidateContentHash (HashContent data) = Ok tt ∧
  ContentHashHex (HashContent data) = Ok (Sha256.hex_digest data).
Proof.
  assert (ValidateContentHash (HashContent data) = Ok tt) as Hv
    by apply ValidateContentHash_Ok, HashContent_is_content_hash.
  split; [done|]. unfold ContentHashHex. by rewrite Hv.
Qed.

(** An accepted branch, session or tag name is a confined relative path: every
    component is a plain file name, so walking it from any directory only
    descends, and it contains no space, control character or Git-reserved
    punctuation. *)
Theorem ValidateBranchName_confined name dir :
  ValidateBranchName name = Ok tt →
  walk_path dir (Split name "/") = dir ++ Split name "/" ∧
  join_parts "/" (Split name "/") = name ∧
  has_char branch_char_invalid name = false ∧
  HasPrefix name "-" = false ∧ (0 < String.length name ≤ 1024)%nat.
Proof.
  intros H. split; [|split].
  - by apply walk_path_plain, ValidateBranchName_parts.
  - apply join_Split.
  - unfold ValidateBranchName in H. inv_ok. bools.
    split_and!; auto; [|by apply Nat.ltb_ge]. destruct name; simpl; [done|lia].
Qed.

Lemma ValidateBranchName_confined_witness :
  ValidateBranchName "feat/auth" = Ok tt ∧
  walk_path ["refs"; "heads"] (Split "feat/auth" "/") = ["refs"; "heads"; "feat"; "auth"].
Proof.
  assert (ValidateBranchName "feat/auth" = Ok tt) as H by (vm_compute; reflexivity).
  split; [exact H|].
  exact (proj1 (ValidateBranchName_confined "feat/auth" ["refs"; "heads"] H)).
Defined.

(** ** Totality *)

Lemma ValidateContentHash_total h : no_fuel_error (ValidateContentHash h).
Proof. unfold ValidateContentHash. auto 10 with total. Qed.
#[export] Hint Resolve ValidateContentHash_total : total.

Lemma ValidateOptionalContentHash_total h : no_fuel_error (ValidateOptionalContentHash h).
Proof. unfold ValidateOptionalContentHash. auto 10 with total. Qed.
Lemma ValidateBranchName_total name : no_fuel_error (ValidateBranchName name).
Proof. unfold ValidateBranchName. auto 10 with total. Qed.
#[export] Hint Resolve ValidateOptionalContentHash_total ValidateBranchName_total : total.

Lemma ValidateRef_total r : no_fuel_error (ValidateRef r).
Proof. unfold ValidateRef, ValidateRefName, ValidateRefKind, parseBranchLifecycleTagName. auto 30 with total. Qed.
#[export] Hint Resolve ValidateRef_total : total.
