(* ===== verification/Lifecycle.v ===== *)
(** * Branch lifecycle refs

    Models [cli/internal/domain/branch_lifecycle.go]: immutable tags in a reserved
    namespace form an append-only log of branch archive/activate events, from which
    the visible refs are projected. *)
From S2P Require Import Prelude GoStrings Sha256 Values.
From Stdlib Require Import Ascii.

Definition NewBranchLifecycleRef (repoID branch target : string) (generation : N) (state : string)
    : result Ref :=
  ValidateBranchName branch ;;
  ValidateContentHash target ;;
  reject_if ((generation =? 0%N) || ((state <>? BranchActive) && (state <>? BranchArchived)))
            ErrInvalidRef ;;
  let name := BranchLifecycleTagPrefix +:+ fmt_0d 20 generation +:+ "/" +:+ state +:+ "/" +:+
              TrimPrefix target "sha256:" +:+ "/" +:+ branch in
  let ref := MkRef "" RefTag name repoID target "" in
  ValidateRef ref ;;
  Ok ref.

Definition with_ref (e : BranchLifecycleEvent) (ref : Ref) : BranchLifecycleEvent :=
  MkLifecycle (le_Branch e) (le_Generation e) (le_State e) (le_Target e) ref.

Definition ParseBranchLifecycleRef (ref : Ref) : result (option BranchLifecycleEvent) :=
  if ref_Kind ref <>? RefTag then Ok None else
  event ← parseBranchLifecycleTagName (ref_Name ref);
  match event with
  | None => Ok None
  | Some event =>
      reject_if (ref_Target ref <>? le_Target event) ErrInvalidRef ;;
      Ok (Some (with_ref event ref))
  end.

Definition branchLifecycleLater (left right : BranchLifecycleEvent) : bool :=
  if le_Generation left <>? le_Generation right then (le_Generation right <? le_Generation left)%N
  else if le_State left <>? le_State right then le_State left =? BranchActive
  else if le_Target left <>? le_Target right then str_lt (le_Target right) (le_Target left)
  else str_lt (ref_Name (le_Ref right)) (ref_Name (le_Ref left)).

(** One iteration of the loop of [LatestBranchLifecycle]. *)
Definition latest_step (branch : string) (latest : option BranchLifecycleEvent) (ref : Ref)
    : result (option BranchLifecycleEvent) :=
  parsed ← ParseBranchLifecycleRef ref;
  match parsed with
  | Some event =>
      if le_Branch event <>? branch then Ok latest
      else match latest with
           | Some prior => if branchLifecycleLater event prior then Ok (Some event) else Ok latest
           | None => Ok (Some event)
           end
  | None => Ok latest
  end.

Definition LatestBranchLifecycle (refs : list Ref) (branch : string)
    : result (option BranchLifecycleEvent) :=
  fold_each (latest_step branch) refs None.

Definition states_step (states : gmap string BranchLifecycleEvent) (ref : Ref)
    : result (gmap string BranchLifecycleEvent) :=
  parsed ← ParseBranchLifecycleRef ref;
  match parsed with
  | Some event =>
      match states !! le_Branch event with
      | Some current =>
          if branchLifecycleLater event current
          then Ok (<[le_Branch event := event]> states) else Ok states
      | None => Ok (<[le_Branch event := event]> states)
      end
  | None => Ok states
  end.

Definition BranchLifecycleStates (refs : list Ref) : result (gmap string BranchLifecycleEvent) :=
  fold_each states_step refs ∅.

(** [branches\[ref.Name\] = ref] for every branch ref: the last one wins. *)
Definition branch_refs (refs : list Ref) : gmap string Ref :=
  fold_left (λ m ref, if ref_Kind ref =? RefBranch then <[ref_Name ref := ref]> m else m) refs ∅.

(** The loop body of [ProjectBranchLifecycleRefs]: [None] for a hidden ref. *)
Definition project_ref (states : gmap string BranchLifecycleEvent) (branches : gmap string Ref)
    (ref : Ref) : option Ref :=
  let hidden :=
    (ref_Kind ref =? RefBranch) &&
    match states !! ref_Name ref with
    | Some latest => (le_State latest =? BranchArchived) && (le_Target latest =? ref_Target ref)
    | None => false
    end in
  if hidden then None else
  if (ref_Kind ref =? RefHEAD) && (ref_Symbolic ref <>? "") then
    let branch := TrimPrefix (ref_Symbolic ref) "refs/heads/" in
    match states !! branch with
    | Some latest =>
        let exposed := match branches !! branch with
                       | None => true
                       | Some raw => ref_Target raw =? le_Target latest
                       end in
        if (le_State latest =? BranchArchived) && exposed
        then Some (MkRef (ref_BranchID ref) (ref_Kind ref) (ref_Name ref) (ref_RepoID ref)
                         (le_Target latest) "")
        else Some ref
    | None => Some ref
    end
  else Some ref.

Definition ProjectBranchLifecycleRefs (refs : list Ref) : result (list Ref) :=
  states ← BranchLifecycleStates refs;
  Ok (omap (project_ref states (branch_refs refs)) refs).

Definition NextBranchLifecycleGeneration (refs : list Ref) (branch : string) : result N :=
  latest ← LatestBranchLifecycle refs branch;
  match latest with
  | None => Ok 1%N
  | Some latest =>
      reject_if (le_Generation latest =? max_uint64) ErrInvalidRef ;;
      Ok (le_Generation latest + 1)%N
  end.

(** ** The tag grammar round-trips *)

Definition valid_state (state : string) : Prop := state = BranchActive ∨ state = BranchArchived.

(** The tag name an event is stored under. *)
Definition lifecycle_name (branch target : string) (generation : N) (state : string) : string :=
  BranchLifecycleTagPrefix +:+ fmt_0d 20 generation +:+ "/" +:+ state +:+ "/" +:+
  TrimPrefix target "sha256:" +:+ "/" +:+ branch.

Lemma digit_not_slash c : is_digit c = true → negb (bool_decide (c = "/"%char)) = true.
Proof. intros H. apply negb_true_iff, bool_decide_eq_false. intros ->. by vm_compute in H. Qed.

Lemma lower_hex_not_slash c : is_lower_hex c = true → negb (bool_decide (c = "/"%char)) = true.
Proof. intros H. apply negb_true_iff, bool_decide_eq_false. intros ->. by vm_compute in H. Qed.

Lemma lower_hex_lower c : is_lower_hex c = true → lower_char c = c.
Proof.
  unfold is_lower_hex, is_digit, is_lower_hex_letter, lower_char. intros H.
  destruct ((65 <=? code c) && (code c <=? 90))%N eqn:E; [|done]. exfalso. bools.
  apply orb_true_iff in H as [H|H]; bools; rewrite ?N.leb_le in *; lia.
Qed.

Lemma ToLower_lower_hex s : all_chars is_lower_hex s = true → ToLower s = s.
Proof.
  induction s as [|c s IH]; simpl; [done|]. intros H. bools.
  by rewrite lower_hex_lower, IH.
Qed.

Lemma parse_lifecycle_name branch hex generation state :
  ValidateBranchName branch = Ok tt →
  String.length hex = 64 → all_chars is_lower_hex hex = true →
  generation ≠ 0%N → (generation ≤ max_uint64)%N → valid_state state →
  parseBranchLifecycleTagName (lifecycle_name branch ("sha256:" +:+ hex) generation state) =
    Ok (Some (MkLifecycle branch generation state ("sha256:" +:+ hex) zero_Ref)).
Proof.
  intros Hb Hlen Hhex Hg0 Hg Hs.
  pose proof (fmt_0d_length 20 generation) as Hl. pose proof (fmt_0d_digits 20 generation) as Hd.
  pose proof (ParseUint64_fmt _ Hg) as Hparse.
  unfold lifecycle_name, parseBranchLifecycleTagName, HasPrefix.
  rewrite prefix_app. cbn [negb]. rewrite TrimPrefix_app, (TrimPrefix_app "sha256:").
  remember (fmt_0d 20 generation) as digits eqn:Hdigits.
  change (SplitN ?s ?c 4) with
    (match Cut s c with Some (a, b) => a :: SplitN b c 3 | None => [s] end).
  change ("/" +:+ ?s) with (String "/" s).
  rewrite Cut_app by (eapply all_chars_impl; [apply digit_not_slash|done]).
  change (SplitN ?s ?c 3) with
    (match Cut s c with Some (a, b) => a :: SplitN b c 2 | None => [s] end).
  change ("/" +:+ ?s) with (String "/" s).
  rewrite Cut_app by (destruct Hs as [-> | ->]; reflexivity).
  change (SplitN ?s ?c 2) with
    (match Cut s c with Some (a, b) => [a; b] | None => [s] end).
  change ("/" +:+ ?s) with (String "/" s).
  rewrite Cut_app by (eapply all_chars_impl; [apply lower_hex_not_slash|done]).
  rewrite Hl, Hparse, <-Hdigits, ToLower_lower_hex, Hlen by done.
  rewrite (bool_decide_false (generation = 0%N)) by done.
  assert (ValidateContentHash ("sha256:" +:+ hex) = Ok tt) as ->
    by (apply ValidateContentHash_Ok; by exists hex).
  rewrite Hb, (bool_decide_true (digits = digits)), (bool_decide_true (hex = hex)) by done.
  destruct Hs as [-> | ->]; reflexivity.
Qed.

Lemma NewBranchLifecycleRef_inv repoID branch target generation state ref :
  NewBranchLifecycleRef repoID branch target generation state = Ok ref →
  ValidateBranchName branch = Ok tt ∧ is_content_hash target ∧ generation ≠ 0%N ∧
  valid_state state ∧
  ref = MkRef "" RefTag (lifecycle_name branch target generation state) repoID target "".
Proof.
  unfold NewBranchLifecycleRef. intros H. inv_ok. bools.
  split_and!; auto; [by apply ValidateContentHash_Ok|].
  match goal with H : negb _ && negb _ = false |- _ => apply andb_false_iff in H as [?|?] end;
    bools; [by left|by right].
Qed.

Lemma parse_lifecycle_inv name e :
  parseBranchLifecycleTagName name = Ok (Some e) →
  ValidateBranchName (le_Branch e) = Ok tt ∧ is_content_hash (le_Target e) ∧
  le_Generation e ≠ 0%N ∧ (le_Generation e ≤ max_uint64)%N ∧ valid_state (le_State e) ∧
  name = lifecycle_name (le_Branch e) (le_Target e) (le_Generation e) (le_State e).
Proof.
  unfold parseBranchLifecycleTagName.
  destruct (HasPrefix name BranchLifecycleTagPrefix) eqn:Hp; cbn [negb]; [|done].
  destruct (SplitN (TrimPrefix name BranchLifecycleTagPrefix) "/" 4) as [|p0 [|p1 [|p2 [|p3 [|]]]]] eqn:Hsplit; try done.
  destruct (ParseUint64 p0) as [g|] eqn:Hg; intros H; inv_ok. subst e.
  cbn [le_Branch le_Generation le_State le_Target]. bools.
  split_and!; auto.
  - by apply ValidateContentHash_Ok.
  - by eapply ParseUint64_bound.
  - match goal with H : negb _ && negb _ = false |- _ => apply andb_false_iff in H as [?|?] end;
      bools; [by left|by right].
  - apply HasPrefix_TrimPrefix in Hp. apply SplitN_four in Hsplit.
    rewrite Hp, Hsplit. unfold lifecycle_name.
    rewrite (TrimPrefix_app "sha256:" p2 : TrimPrefix (String _ _) _ = _).
    by match goal with H : fmt_0d _ _ = _ |- _ => rewrite H end.
Qed.

Lemma parse_lifecycle_ref_inv ref e :
  ParseBranchLifecycleRef ref = Ok (Some e) →
  ref_Kind ref = RefTag ∧ le_Ref e = ref ∧ le_Target e = ref_Target ref ∧
  valid_state (le_State e) ∧ (le_Generation e ≤ max_uint64)%N ∧
  ref_Name ref = lifecycle_name (le_Branch e) (le_Target e) (le_Generation e) (le_State e).
Proof.
  unfold ParseBranchLifecycleRef. case_bool_decide as Hk; simpl; [|done].
  intros H. inv_ok. destruct a as [event|]; [|done]. inv_ok. subst e. bools.
  match goal with H : parseBranchLifecycleTagName _ = _ |- _ => apply parse_lifecycle_inv in H end.
  naive_solver.
Qed.

(** ** Choosing the latest event *)

(** The order as a lexicographic comparison: generation, then active over
    archived, then target, then tag name. *)
Definition state_rank (state : string) : nat := if state =? BranchActive then 1 else 0.

Definition later_spec : relation BranchLifecycleEvent :=
  lex le_Generation (λ x y, (y < x)%N)
    (lex (λ e, state_rank (le_State e)) (λ x y, y < x)
      (lex le_Target (λ x y, str_lt y x = true)
        (λ l r, str_lt (ref_Name (le_Ref r)) (ref_Name (le_Ref l)) = true))).

Lemma state_rank_inj s t :
  valid_state s → valid_state t → state_rank s = state_rank t ↔ s = t.
Proof. intros [-> | ->] [-> | ->]; vm_compute; split; congruence || done. Qed.

Lemma later_iff l r :
  valid_state (le_State l) → valid_state (le_State r) →
  branchLifecycleLater l r = true ↔ later_spec l r.
Proof.
  intros Hl Hr. unfold branchLifecycleLater, later_spec, lex.
  rewrite (state_rank_inj (le_State l)) by done.
  case_bool_decide as Hg; cbn [negb]; [|rewrite N.ltb_lt; tauto].
  rewrite Hg. case_bool_decide as Hs; cbn [negb].
  - rewrite Hs. case_bool_decide as Ht; cbn [negb].
    + rewrite Ht, str_lt_irrefl. intuition lia.
    + intuition lia.
  - assert (bool_decide (le_State l = BranchActive) = true ↔
            state_rank (le_State r) < state_rank (le_State l)) as ->; [|intuition lia].
    unfold state_rank. destruct Hl as [E|E], Hr as [E'|E']; rewrite E, E' in *; try done;
      vm_compute; split; done || lia.
Qed.

Lemma later_irrefl e : valid_state (le_State e) → branchLifecycleLater e e = false.
Proof.
  intros He. apply not_true_iff_false. rewrite later_iff by done.
  repeat (apply lex_irrefl; [intros ?; rewrite ?str_lt_irrefl; (done || lia)|intros ?]).
  by rewrite str_lt_irrefl.
Qed.

#[export] Instance later_spec_trans : Transitive later_spec.
Proof.
  repeat (apply lex_trans; [intros ???; eauto with gostr lia|]).
  intros ???; eauto with gostr.
Qed.

Lemma later_trans a b c :
  valid_state (le_State a) → valid_state (le_State b) → valid_state (le_State c) →
  branchLifecycleLater a b = true → branchLifecycleLater b c = true →
  branchLifecycleLater a c = true.
Proof.
  intros Ha Hb Hc. rewrite !later_iff by done. apply transitivity.
Qed.

(** Two incomparable events have the same tag name. *)
Lemma later_total a b :
  valid_state (le_State a) → valid_state (le_State b) →
  branchLifecycleLater a b = true ∨ branchLifecycleLater b a = true ∨
  (le_Generation a = le_Generation b ∧ le_State a = le_State b ∧
   le_Target a = le_Target b ∧ ref_Name (le_Ref a) = ref_Name (le_Ref b)).
Proof.
  intros Ha Hb. rewrite !later_iff by done. unfold later_spec, lex.
  destruct (N.lt_trichotomy (le_Generation a) (le_Generation b)) as [?|[Hg|?]]; [tauto| |tauto].
  rewrite Hg.
  assert (le_State a = le_State b ∨ state_rank (le_State a) < state_rank (le_State b) ∨
          state_rank (le_State b) < state_rank (le_State a)) as [Hs|Hs]
    by (destruct Ha as [-> | ->], Hb as [-> | ->]; vm_compute; intuition lia); [|tauto].
  rewrite Hs. destruct (str_lt_total (le_Target a) (le_Target b)) as [?|[Ht|?]]; [tauto| |tauto].
  rewrite Ht. destruct (str_lt_total (ref_Name (le_Ref a)) (ref_Name (le_Ref b))) as [?|[?|?]]; tauto.
Qed.

(** ** The scans *)

(** The events of one branch recorded in a list of refs. *)
Definition parsed_event (branch : string) (ref : Ref) : option BranchLifecycleEvent :=
  match ParseBranchLifecycleRef ref with
  | Ok (Some e) => if le_Branch e =? branch then Some e else None
  | _ => None
  end.

Definition branch_events (branch : string) (refs : list Ref) : list BranchLifecycleEvent :=
  omap (parsed_event branch) refs.

Lemma branch_events_valid branch refs :
  Forall (λ e, valid_state (le_State e)) (branch_events branch refs).
Proof.
  apply Forall_forall. intros e (ref & _ & He)%list_elem_of_omap.
  unfold parsed_event in He. repeat case_match; simplify_eq.
  eapply parse_lifecycle_ref_inv; eassumption.
Qed.

Lemma latest_step_parsed branch ref p acc :
  ParseBranchLifecycleRef ref = Ok p →
  latest_step branch acc ref =
    Ok (match parsed_event branch ref with
        | Some e => best_step branchLifecycleLater acc e
        | None => acc
        end).
Proof.
  intros Hp. unfold latest_step, parsed_event. rewrite Hp. cbn.
  destruct p as [e|]; [|done]. case_bool_decide; [|done].
  destruct acc as [prior|]; cbn; [by destruct branchLifecycleLater|done].
Qed.

Lemma latest_fold branch refs acc :
  Forall (λ r, is_ok (ParseBranchLifecycleRef r) = true) refs →
  fold_each (latest_step branch) refs acc =
    Ok (fold_left (best_step branchLifecycleLater) (branch_events branch refs) acc).
Proof.
  intros H. revert acc. induction H as [|ref refs Href _ IH]; intros acc; [done|].
  apply is_ok_true in Href as [p Hp].
  change (branch_events branch (ref :: refs)) with
    (match parsed_event branch ref with
     | Some e => e :: branch_events branch refs
     | None => branch_events branch refs end).
  cbn [fold_each]. rewrite (latest_step_parsed _ _ _ _ Hp). cbn.
  rewrite IH. by destruct parsed_event.
Qed.

Lemma latest_parses branch refs acc r :
  fold_each (latest_step branch) refs acc = Ok r →
  Forall (λ r, is_ok (ParseBranchLifecycleRef r) = true) refs.
Proof.
  revert acc. induction refs as [|ref refs IH]; intros acc; simpl; [done|].
  intros H. inv_ok. constructor; [|eauto].
  unfold latest_step in H0. inv_ok. apply is_ok_true. eauto.
Qed.

Lemma LatestBranchLifecycle_spec refs branch r :
  LatestBranchLifecycle refs branch = Ok r →
  match r with
  | Some e => e ∈ branch_events branch refs ∧ valid_state (le_State e) ∧
      ∀ e', e' ∈ branch_events branch refs → branchLifecycleLater e' e = false
  | None => branch_events branch refs = []
  end.
Proof.
  unfold LatestBranchLifecycle. intros H. pose proof (latest_parses _ _ _ _ H) as Hp.
  rewrite latest_fold in H by done. injection H as <-.
  apply (best_spec branchLifecycleLater (λ e, valid_state (le_State e))).
  - apply later_trans.
  - apply later_irrefl.
  - apply branch_events_valid.
Qed.

Lemma branch_events_in branch refs e :
  e ∈ branch_events branch refs ↔
  ∃ ref, ref ∈ refs ∧ ParseBranchLifecycleRef ref = Ok (Some e) ∧ le_Branch e = branch.
Proof.
  unfold branch_events. rewrite list_elem_of_omap. unfold parsed_event.
  split; intros (ref & Hin & H); exists ref.
  - repeat case_match; simplify_eq; bools; naive_solver.
  - destruct H as [-> <-]. by rewrite bool_decide_true.
Qed.

Lemma parses_perm refs refs' :
  refs ≡ₚ refs' →
  Forall (λ r, is_ok (ParseBranchLifecycleRef r) = true) refs →
  Forall (λ r, is_ok (ParseBranchLifecycleRef r) = true) refs'.
Proof. intros Hp H. by rewrite <-Hp. Qed.

(** Invariant relating the one-pass projection to the per-branch scan. *)
Lemma states_simulates refs states states' :
  fold_each states_step refs states = Ok states' →
  ∀ branch, fold_each (latest_step branch) refs (states !! branch) = Ok (states' !! branch).
Proof.
  revert states. induction refs as [|ref refs IH]; intros states; cbn [fold_each].
  { by intros [= ->]. }
  intros H branch. inv_ok. specialize (IH _ H branch).
  unfold states_step in H0. inv_ok. rename a0 into parsed.
  unfold latest_step at 2. rewrite H1. cbn.
  destruct parsed as [e|]; [|by inv_ok; subst].
  case_bool_decide as Hb; subst; cbn [negb].
  - destruct (states !! le_Branch e) as [current|] eqn:E; cbn;
      [destruct branchLifecycleLater|]; inv_ok; subst; cbn;
      by rewrite ?lookup_insert_eq, ?E in IH.
  - destruct (states !! le_Branch e) as [current|]; cbn;
      [destruct branchLifecycleLater|]; inv_ok; subst; cbn;
      by rewrite ?lookup_insert_ne in IH.
Qed.

Lemma NewBranchLifecycleRef_complete repoID branch target generation state :
  ValidateBranchName branch = Ok tt → ValidateContentHash target = Ok tt →
  (0 < generation ≤ max_uint64)%N → valid_state state →
  ∃ ref, NewBranchLifecycleRef repoID branch target generation state = Ok ref ∧
    ParseBranchLifecycleRef ref = Ok (Some (MkLifecycle branch generation state target ref)).
Proof.
  intros Hb Ht Hg Hs. pose proof Ht as Ht'.
  apply ValidateContentHash_Ok in Ht' as (hex & -> & Hlen & Hhex).
  set (name := lifecycle_name branch (contentHashPrefix +:+ hex) generation state).
  assert (parseBranchLifecycleTagName name =
    Ok (Some (MkLifecycle branch generation state (contentHashPrefix +:+ hex) zero_Ref))) as Hparse
    by (apply parse_lifecycle_name; auto with lia).
  exists (MkRef "" RefTag name repoID (contentHashPrefix +:+ hex) "").
  assert (HasPrefix name BranchLifecycleTagPrefix = true) as Hp by apply prefix_app.
  assert (String.length (contentHashPrefix +:+ hex) ≠ 0) as Hne
    by (rewrite length_app_string; simpl; lia).
  split.
  - unfold NewBranchLifecycleRef. rewrite Hb, Ht. cbn [mbind result_bind].
    rewrite (bool_decide_false (generation = 0%N)) by lia.
    replace (_ || _) with false by (by destruct Hs as [-> | ->]). cbn [reject_if mbind result_bind].
    change (BranchLifecycleTagPrefix +:+ _) with name. unfold ValidateRef. cbn [ref_BranchID ref_Kind ref_Name ref_Target].
    unfold ValidateRefName. rewrite Hp, Hparse, Ht.
    rewrite (bool_decide_false (contentHashPrefix +:+ hex = "")) by (intros E; by rewrite E in Hne).
    reflexivity.
  - unfold ParseBranchLifecycleRef. cbn [ref_Kind ref_Name ref_Target]. rewrite Hparse.
    cbn [mbind result_bind le_Target with_ref].
    by rewrite (bool_decide_true (contentHashPrefix +:+ hex = contentHashPrefix +:+ hex)).
Qed.

Lemma branch_refs_lookup refs name :
  match branch_refs refs !! name with
  | Some r => r ∈ refs ∧ ref_Kind r = RefBranch ∧ ref_Name r = name
  | None => ∀ r, r ∈ refs → ref_Kind r = RefBranch → ref_Name r ≠ name
  end.
Proof.
  unfold branch_refs. induction refs as [|r refs IH] using rev_ind.
  { cbn. rewrite lookup_empty. set_solver. }
  rewrite fold_left_app. cbn. case_bool_decide as Hk.
  - destruct (decide (ref_Name r = name)) as [<-|Hn].
    + rewrite lookup_insert_eq. set_solver.
    + rewrite lookup_insert_ne by done. destruct (_ !! name); set_solver.
  - destruct (_ !! name); set_solver.
Qed.

Lemma branch_refs_unique refs r :
  (∀ r1 r2, r1 ∈ refs → r2 ∈ refs → ref_Kind r1 = ref_Kind r2 →
     ref_Name r1 = ref_Name r2 → r1 = r2) →
  r ∈ refs → ref_Kind r = RefBranch → branch_refs refs !! ref_Name r = Some r.
Proof.
  intros Huniq Hin Hk. pose proof (branch_refs_lookup refs (ref_Name r)) as H.
  destruct (branch_refs refs !! ref_Name r) as [r'|] eqn:E; [|by apply H in Hin].
  f_equal. apply Huniq; naive_solver congruence.
Qed.

(** What the projection does with a branch ref and with a symbolic [HEAD]. *)
Lemma project_ref_kept states branches r0 r :
  project_ref states branches r0 = Some r → ref_Kind r = ref_Kind r0 ∧
  (r = r0 ∨ ref_Kind r = RefHEAD ∧ ref_Symbolic r = "").
Proof. unfold project_ref. intros H. repeat case_match; simplify_eq; cbn; bools; auto. Qed.

Lemma project_ref_branch states branches r :
  ref_Kind r = RefBranch →
  project_ref states branches r = Some r ↔
  ¬ ∃ l, states !! ref_Name r = Some l ∧ le_State l = BranchArchived ∧ le_Target l = ref_Target r.
Proof.
  intros Hk. unfold project_ref. rewrite Hk.
  change (bool_decide (RefBranch = RefBranch)) with true.
  change (bool_decide (RefBranch = RefHEAD)) with false. cbn [andb].
  destruct (states !! ref_Name r) as [l|]; [|naive_solver].
  destruct (_ && _) eqn:E; bools; [naive_solver|].
  split; [|done]. intros _ (l' & [= <-] & Hs & Ht). by rewrite !bool_decide_true in E.
Qed.

Lemma project_ref_head states branches h l raw :
  project_ref states branches h = Some h → ref_Kind h = RefHEAD → ref_Symbolic h ≠ "" →
  states !! TrimPrefix (ref_Symbolic h) "refs/heads/" = Some l →
  branches !! TrimPrefix (ref_Symbolic h) "refs/heads/" = Some raw →
  ¬ (le_State l = BranchArchived ∧ le_Target l = ref_Target raw).
Proof.
  intros H Hk Hs Hl Hraw [Ha Ht]. unfold project_ref in H. rewrite Hk, Hl, Hraw, Ha, Ht in H.
  rewrite (bool_decide_false (ref_Symbolic h = "")) in H by done.
  change (bool_decide (RefHEAD = RefBranch)) with false in H.
  rewrite !bool_decide_true in H by done. injection H as H. by rewrite <-H in Hs.
Qed.

(** ** Properties *)

(** For valid arguments [NewBranchLifecycleRef] always succeeds, and parsing the
    ref it builds returns exactly the recorded branch, generation, state and
    target. *)
Theorem lifecycle_ref_roundtrip repoID branch target generation state :
  ValidateBranchName branch = Ok tt → ValidateContentHash target = Ok tt →
  (0 < generation ≤ max_uint64)%N → state = BranchActive ∨ state = BranchArchived →
  ∃ ref, NewBranchLifecycleRef repoID branch target generation state = Ok ref ∧
    ParseBranchLifecycleRef ref = Ok (Some (MkLifecycle branch generation state target ref)).
Proof. apply NewBranchLifecycleRef_complete. Qed.

(** The tag grammar is canonical: a ref that parses is stored under exactly the
    name its event renders to, so two refs carrying the same event have the same
    name. *)
Theorem lifecycle_ref_canonical ref e :
  ParseBranchLifecycleRef ref = Ok (Some e) →
  ∃ ref', NewBranchLifecycleRef (ref_RepoID ref) (le_Branch e) (le_Target e)
            (le_Generation e) (le_State e) = Ok ref' ∧
          ref_Name ref' = ref_Name ref ∧ ref_Target ref' = ref_Target ref.
Proof.
  intros H. pose proof (parse_lifecycle_ref_inv _ _ H) as (_ & _ & Ht & Hs & Hg & Hname).
  unfold ParseBranchLifecycleRef in H. case_bool_decide; [|done]. cbn in H. inv_ok.
  destruct a as [event|]; [|done]. inv_ok. subst e. cbn in *.
  match goal with H : parseBranchLifecycleTagName _ = _ |- _ =>
    apply parse_lifecycle_inv in H as (Hb & Hth & Hg0 & _ & _ & _) end.
  destruct (NewBranchLifecycleRef_complete (ref_RepoID ref) (le_Branch event) (le_Target event)
    (le_Generation event) (le_State event)) as (ref' & Hnew & _); auto with lia.
  { by apply ValidateContentHash_Ok. }
  exists ref'. apply NewBranchLifecycleRef_inv in Hnew as Hinv.
  destruct Hinv as (_ & _ & _ & _ & ->). cbn. by rewrite Hname.
Qed.

(** The single-pass projection [BranchLifecycleStates] computes, for every branch,
    the same latest event as rescanning the whole log with
    [LatestBranchLifecycle]. *)
Theorem lifecycle_states_refine_latest refs states branch :
  BranchLifecycleStates refs = Ok states →
  LatestBranchLifecycle refs branch = Ok (states !! branch).
Proof.
  intros H. unfold LatestBranchLifecycle. rewrite <-(lookup_empty branch).
  by apply states_simulates.
Qed.

(** The latest lifecycle event of a branch does not depend on the order in which
    a store lists its refs, provided ref names are unique as in any ref store. *)
Theorem latest_lifecycle_order_independent refs refs' branch latest :
  (∀ r1 r2, r1 ∈ refs → r2 ∈ refs → ref_Kind r1 = ref_Kind r2 →
     ref_Name r1 = ref_Name r2 → r1 = r2) →
  refs ≡ₚ refs' →
  LatestBranchLifecycle refs branch = Ok latest →
  LatestBranchLifecycle refs' branch = Ok latest.
Proof.
  intros Huniq Hperm H.
  assert (∃ latest', LatestBranchLifecycle refs' branch = Ok latest') as [latest' H'].
  { eexists. apply latest_fold. eapply parses_perm; [done|]. by eapply latest_parses. }
  rewrite H'. f_equal. apply LatestBranchLifecycle_spec in H, H'.
  assert (∀ e, e ∈ branch_events branch refs' ↔ e ∈ branch_events branch refs) as Hin.
  { intros e. rewrite !branch_events_in. by setoid_rewrite Hperm. }
  destruct latest as [e|], latest' as [e'|]; [|exfalso..|done].
  - destruct H as (He & Hv & Hmax), H' as (He' & Hv' & Hmax'). f_equal.
    pose proof (Hmax e' (proj1 (Hin e') He')) as Hlt.
    pose proof (Hmax' e (proj2 (Hin e) He)) as Hlt'. apply Hin in He'.
    destruct (later_total e e') as [?|[?|(_ & _ & _ & Hname)]]; [done..|congruence|congruence|].
    apply branch_events_in in He as (r & Hr & Hpr & _), He' as (r' & Hr' & Hpr' & _).
    pose proof (parse_lifecycle_ref_inv _ _ Hpr) as (? & ? & _).
    pose proof (parse_lifecycle_ref_inv _ _ Hpr') as (? & ? & _).
    assert (r = r') as -> by (apply Huniq; congruence). congruence.
  - destruct H as [He _]. apply Hin in He. rewrite H' in He. set_solver.
  - destruct H' as [He _]. apply Hin in He. rewrite H in He. set_solver.
Qed.

(** The next generation of a branch never wraps around and is strictly above every
    generation already recorded for it, so a new event always supersedes the log. *)
Theorem next_generation_supersedes refs branch n :
  NextBranchLifecycleGeneration refs branch = Ok n →
  (0 < n ≤ max_uint64)%N ∧
  ∀ ref e, ref ∈ refs → ParseBranchLifecycleRef ref = Ok (Some e) → le_Branch e = branch →
    (le_Generation e < n)%N.
Proof.
  unfold NextBranchLifecycleGeneration. intros H. inv_ok. rename a into latest.
  apply LatestBranchLifecycle_spec in H0.
  destruct latest as [l|]; inv_ok; subst.
  - destruct H0 as (Hl & Hv & Hmax). bools.
    apply branch_events_in in Hl as (rl & _ & Hpl & _).
    apply parse_lifecycle_ref_inv in Hpl as (_ & _ & _ & _ & Hg & _).
    split; [lia|]. intros ref e Hin Hp Hb.
    assert (branchLifecycleLater e l = false) as Hnl
      by (apply Hmax, branch_events_in; eauto).
    apply parse_lifecycle_ref_inv in Hp as (_ & _ & _ & Hve & _).
    apply not_true_iff_false in Hnl. rewrite later_iff in Hnl by done.
    unfold later_spec, lex in Hnl. lia.
  - split; [vm_compute; done|]. intros ref e Hin Hp Hb.
    assert (e ∈ branch_events branch refs) as He by (apply branch_events_in; eauto).
    rewrite H0 in He. set_solver.
Qed.

(** The projected refs hide exactly the branches whose latest lifecycle event
    archived the target they still point to, and a symbolic [HEAD] that survives
    never names a hidden branch. *)
Theorem project_lifecycle_refs_no_dangling refs out :
  (∀ r1 r2, r1 ∈ refs → r2 ∈ refs → ref_Kind r1 = ref_Kind r2 →
     ref_Name r1 = ref_Name r2 → r1 = r2) →
  ProjectBranchLifecycleRefs refs = Ok out →
  (∀ r, r ∈ refs → ref_Kind r = RefBranch →
     (r ∉ out ↔ ∃ l, LatestBranchLifecycle refs (ref_Name r) = Ok (Some l) ∧
                  le_State l = BranchArchived ∧ le_Target l = ref_Target r)) ∧
  (∀ h r, h ∈ out → ref_Kind h = RefHEAD → ref_Symbolic h ≠ "" →
     r ∈ refs → ref_Kind r = RefBranch →
     ref_Name r = TrimPrefix (ref_Symbolic h) "refs/heads/" → r ∈ out).
Proof.
  intros Huniq H. unfold ProjectBranchLifecycleRefs in H. inv_ok. subst out. rename a into states.
  pose proof (states_simulates _ _ _ H0) as Hsim.
  assert (∀ r, r ∈ refs → ref_Kind r = RefBranch →
    r ∈ omap (project_ref states (branch_refs refs)) refs ↔
    ¬ ∃ l, states !! ref_Name r = Some l ∧ le_State l = BranchArchived ∧
           le_Target l = ref_Target r) as Hvis.
  { intros r Hr Hk. rewrite list_elem_of_omap, <-(project_ref_branch _ (branch_refs refs)) by done.
    split; [|eauto]. intros (r0 & Hr0 & Hp).
    destruct (project_ref_kept _ _ _ _ Hp) as [_ [-> | [Hk' _]]]; [done|]. by rewrite Hk in Hk'. }
  split.
  - intros r Hr Hk. rewrite (Hvis r Hr Hk). unfold LatestBranchLifecycle.
    specialize (Hsim (ref_Name r)). rewrite lookup_empty in Hsim. rewrite Hsim.
    destruct (states !! ref_Name r) as [l|]; [|naive_solver].
    destruct (decide (le_State l = BranchArchived ∧ le_Target l = ref_Target r)); naive_solver.
  - intros h r (h0 & Hh0 & Hp)%list_elem_of_omap Hk Hs Hr Hkr Hname. apply Hvis; [done..|].
    intros (l & Hl & Hst & Ht).
    pose proof (branch_refs_unique _ _ Huniq Hr Hkr) as Hraw.
    destruct (project_ref_kept _ _ _ _ Hp) as [_ [-> | [_ ?]]]; [|done]. rewrite Hname in *.
    by eapply project_ref_head.
Qed.

(** ** Concrete instances *)

Module LifecycleSamples.
Definition repo : string := HashContent "repo".
Definition tip : string := HashContent "tip".
Definition main_ref : Ref := MkRef "" RefBranch "main" repo tip "".
Definition head_ref : Ref := MkRef "" RefHEAD HeadRefName repo "" "refs/heads/main".
Definition tag generation state : Ref :=
  MkRef "" RefTag (lifecycle_name "main" tip generation state) repo tip "".
Definition archived : list Ref := [head_ref; main_ref; tag 1 BranchActive; tag 2 BranchArchived].
End LifecycleSamples.
Import LifecycleSamples.

Ltac solve_unique :=
  intros r1 r2 H1 H2; rewrite !elem_of_cons in H1, H2;
  repeat match goal with H : _ ∨ _ |- _ => destruct H as [-> | H] end;
  try (by apply elem_of_nil in H1); try (by apply elem_of_nil in H2); try done.

Lemma lifecycle_ref_roundtrip_witness :
  ∃ ref, NewBranchLifecycleRef repo "main" tip 7 BranchArchived = Ok ref ∧
    ParseBranchLifecycleRef ref = Ok (Some (MkLifecycle "main" 7 BranchArchived tip ref)).
Proof.
  apply lifecycle_ref_roundtrip; [vm_compute; reflexivity..|split; vm_compute; congruence|by right].
Defined.

Lemma lifecycle_ref_canonical_witness :
  ∃ ref', NewBranchLifecycleRef repo "main" tip 2 BranchArchived = Ok ref' ∧
    ref_Name ref' = ref_Name (tag 2 BranchArchived) ∧ ref_Target ref' = tip.
Proof.
  apply (lifecycle_ref_canonical (tag 2 BranchArchived)
    (MkLifecycle "main" 2 BranchArchived tip (tag 2 BranchArchived))).
  vm_compute. reflexivity.
Defined.

Lemma lifecycle_states_refine_latest_witness :
  LatestBranchLifecycle archived "main" =
    Ok (match BranchLifecycleStates archived with Ok m => m !! "main" | Err _ => None end).
Proof.
  destruct (BranchLifecycleStates archived) as [m|] eqn:E; [|vm_compute in E; discriminate E].
  exact (lifecycle_states_refine_latest archived m "main" E).
Defined.

Lemma latest_lifecycle_order_independent_witness :
  LatestBranchLifecycle (rev archived) "main" =
    Ok (Some (MkLifecycle "main" 2 BranchArchived tip (tag 2 BranchArchived))).
Proof.
  apply (latest_lifecycle_order_independent archived).
  - unfold archived. solve_unique.
  - apply Permutation_rev.
  - vm_compute. reflexivity.
Defined.

Lemma next_generation_supersedes_witness :
  NextBranchLifecycleGeneration archived "main" = Ok 3%N ∧ (0 < 3 ≤ max_uint64)%N.
Proof.
  assert (NextBranchLifecycleGeneration archived "main" = Ok 3%N) as H by (vm_compute; reflexivity).
  split; [exact H|]. exact (proj1 (next_generation_supersedes archived "main" 3 H)).
Defined.

Lemma project_lifecycle_refs_no_dangling_witness :
  ∃ out, ProjectBranchLifecycleRefs archived = Ok out ∧
    (main_ref ∉ out ↔ ∃ l, LatestBranchLifecycle archived "main" = Ok (Some l) ∧
                  le_State l = BranchArchived ∧ le_Target l = tip).
Proof.
  eexists. split; [vm_compute; reflexivity|].
  apply (project_lifecycle_refs_no_dangling archived).
  - unfold archived. solve_unique.
  - vm_compute. reflexivity.
  - unfold archived. rewrite !elem_of_cons. auto.
  - reflexivity.
Defined.
