(* ===== verification/History.v ===== *)
(** * History events

    Models [cli/internal/domain/history.go], [git_creation.go], [pull_request.go],
    [context_pin.go], the Git object id check of [memory_claims.go] and the legacy
    branch identity of [context_branch.go]: the immutable operations a replica
    records and the validation every reader applies. *)
From S2P Require Import Prelude GoStrings Sha256 Values.
From Stdlib Require Import Ascii.

(** ** Time

    [time.Time] is an instant (0 for the zero time) together with the part of its
    representation (location, monotonic reading) that [Equal], [Before] and [After]
    ignore but [==] and [reflect.DeepEqual] compare. *)
Record time := MkTime { t_instant : Z; t_repr : Z }.

#[export] Instance time_eq_dec : EqDecision time.
Proof. solve_decision. Defined.

Definition time_IsZero (t : time) : bool := bool_decide (t_instant t = 0%Z).
Definition time_Equal (a b : time) : bool := (t_instant a =? t_instant b)%Z.
Definition time_Before (a b : time) : bool := (t_instant a <? t_instant b)%Z.
Definition time_After (a b : time) : bool := (t_instant b <? t_instant a)%Z.

(** ** Data *)

Record GitCreation := MkGitCreation {
  gc_Evidence : string;
  gc_Command : slice string;
  gc_StartRef : string;
  gc_StartCommit : string;
  gc_OriginBranch : string;
  gc_OriginBranchID : string;
}.

Record PullRequestMerge := MkPullRequestMerge {
  pr_Number : Z;
  pr_BaseBranch : string;
  pr_HeadBranch : string;
  pr_HeadSHA : string;
  pr_MergeSHA : string;
}.

Record HistoryEvent := MkHistoryEvent {
  ev_Creation : option GitCreation;
  ev_PRCompleted : bool;
  ev_RecoveryEvidence : string;
  ev_PR : option PullRequestMerge;
  ev_SourceBranchID : string;
  ev_ID : string;
  ev_RepoID : string;
  ev_BranchID : string;
  ev_Branch : string;
  ev_Kind : string;
  ev_LocalBranch : string;
  ev_PreviousBranch : string;
  ev_BindingParent : string;
  ev_NameParent : string;
  ev_MemorySelectionParent : string;
  ev_Source : string;
  ev_Target : string;
  ev_SharedTarget : string;
  ev_MemorySource : string;
  ev_MemoryHash : string;
  ev_MemoryPinned : bool;
  ev_GitBefore : string;
  ev_GitAfter : string;
  ev_WorktreeID : string;
  ev_CreatedAt : time;
}.

(** [reflect.DeepEqual] on events is equality of the pointed-to values. *)
#[export] Instance GitCreation_eq_dec : EqDecision GitCreation.
Proof. solve_decision. Defined.
#[export] Instance PullRequestMerge_eq_dec : EqDecision PullRequestMerge.
Proof. solve_decision. Defined.
#[export] Instance HistoryEvent_eq_dec : EqDecision HistoryEvent.
Proof. solve_decision. Defined.

(** ** Helpers of the validators *)

(** A complete nonzero SHA-1 or SHA-256 object id. *)
Definition memoryClaimOID (s : string) : bool :=
  if ((String.length s <>? 40) && (String.length s <>? 64)) || (ToLower s <>? s) ||
     (Trim s "0" =? "")
  then false else hex_decodes s.

Definition ValidGitOID (s : string) : bool := memoryClaimOID s.

Definition nul : ascii := ascii_of_N 0.

(** [sha256(repo "\x00" name)], first 16 bytes in hexadecimal. *)
Definition LegacyContextBranchID (repo name : string) : string :=
  "legacy-" +:+ take_chars 32 (Sha256.hex_digest (repo +:+ String nul name)).

Definition IsBranchBindingEvent (e : HistoryEvent) : bool :=
  (ev_Kind e =? "birth") || (ev_Kind e =? "orphan") ||
  (ev_Kind e =? "rename") || (ev_Kind e =? "archive").

(** The distinct nonempty dependencies, in declaration order. *)
Definition HistoryDependencies (e : HistoryEvent) : list string :=
  fold_left (λ out id,
    if id =? "" then out
    else if existsb (λ prior, prior =? id) out then out
    else out ++ [id])
    [ev_BindingParent e; ev_NameParent e; ev_MemorySelectionParent e] [].

(** ** Pull requests *)

Definition PullRequestMerge_Validate (p : PullRequestMerge) : result unit :=
  reject_if ((pr_Number p <=? 0)%Z || (pr_BaseBranch p =? pr_HeadBranch p)) ErrUnclassified ;;
  for_each ValidateBranchName [pr_BaseBranch p; pr_HeadBranch p] ;;
  for_each (λ sha,
    reject_if (((String.length sha <>? 40) && (String.length sha <>? 64)) ||
               (sha <>? ToLower sha)) ErrUnclassified ;;
    reject_if (negb (hex_decodes sha)) ErrUnclassified)
    [pr_HeadSHA p; pr_MergeSHA p].

(** ** Branch creation evidence *)

(** Local variables of the argument loop of [validateCreationCommand]. *)
Record creation_scan := MkScan {
  sc_target : string;
  sc_orphan : bool;
  sc_track : bool;
  sc_positional : list string;
}.

Definition is_create_flag (v : string) : bool :=
  (v =? "-b") || (v =? "-B") || (v =? "-c") || (v =? "-C") || (v =? "--create") ||
  (v =? "--force-create") || (v =? "--orphan").

Fixpoint scan_creation_args (op : string) (args : list string) (st : creation_scan)
    : result creation_scan :=
  match args with
  | [] => Ok st
  | v :: rest =>
      if is_create_flag v then
        match rest with
        | [] => Err ErrUnclassified
        | value :: rest' =>
            if (op =? "branch") || (sc_target st <>? "") then Err ErrUnclassified
            else scan_creation_args op rest'
                   (MkScan value (v =? "--orphan") (sc_track st) (sc_positional st))
        end
      else if (v =? "--track") || (v =? "-t") || (v =? "--track=direct") then
        scan_creation_args op rest
          (MkScan (sc_target st) (sc_orphan st) true (sc_positional st))
      else if (v =? "--track=inherit") || (v =? "--no-track") || (v =? "--no-guess") ||
              (v =? "-q") || (v =? "--quiet") then scan_creation_args op rest st
      else if HasPrefix v "-" then Err ErrUnclassified
      else scan_creation_args op rest
             (MkScan (sc_target st) (sc_orphan st) (sc_track st) (sc_positional st ++ [v]))
  end.

Definition validateCreationCommand (e : HistoryEvent) (c : GitCreation) : result unit :=
  match elems (gc_Command c) with
  | _ :: op :: args =>
      args ← (if op =? "worktree" then
                match args with
                | "add" :: args => Ok args
                | _ => Err ErrUnclassified
                end
              else Ok args);
      st ← scan_creation_args op args (MkScan "" false false []);
      positional ← (if op =? "worktree" then
                      match sc_positional st with
                      | "<worktree>" :: positional => Ok positional
                      | _ => Err ErrUnclassified
                      end
                    else Ok (sc_positional st));
      target_positional ← (if op =? "branch" then
                             match positional with
                             | [] => Err ErrUnclassified
                             | target :: positional => Ok (target, positional)
                             end
                           else Ok (sc_target st, positional));
      let '(target, positional) := target_positional in
      let want := if ev_LocalBranch e <>? "" then ev_LocalBranch e else ev_Branch e in
      let target :=
        match positional with
        | [p] => if (target =? "") && sc_track st && HasSuffix p ("/" +:+ want) then want else target
        | _ => target
        end in
      reject_if (1 <? length positional)%nat ErrUnclassified ;;
      let start := match positional with [p] => p | _ => "HEAD" end in
      reject_if ((target <>? want) || (start <>? gc_StartRef c) ||
                 negb (bool_decide (sc_orphan st = (ev_Kind e =? "orphan")))) ErrUnclassified
  | _ => Err ErrUnclassified (* unreachable: the caller has checked len(Command) >= 3 *)
  end.

Definition creation_value_invalid (value : string) : bool :=
  (512 <? String.length value)%nat ||
  has_char (λ c, (code c =? 0)%N || (code c =? 13)%N || (code c =? 10)%N) value ||
  Contains value "://".

Definition ValidateGitCreation (e : HistoryEvent) : result unit :=
  match ev_Creation e with
  | None => Ok tt
  | Some c =>
      reject_if ((ev_Kind e <>? "birth") && (ev_Kind e <>? "orphan") && (ev_Kind e <>? "attach"))
                ErrUnclassified ;;
      reject_if ((gc_Evidence c <>? "process-argv") && (gc_Evidence c <>? "unavailable"))
                ErrUnclassified ;;
      reject_if ((gc_Evidence c =? "unavailable") &&
                 ((0 <? length (elems (gc_Command c)))%nat || (gc_StartRef c <>? "") ||
                  (gc_OriginBranch c <>? "") || (gc_OriginBranchID c <>? ""))) ErrUnclassified ;;
      (if gc_Evidence c =? "process-argv" then
         reject_if ((length (elems (gc_Command c)) <? 3)%nat ||
                    (12 <? length (elems (gc_Command c)))%nat ||
                    (nth 0 (elems (gc_Command c)) "" <>? "git") || (gc_StartRef c =? ""))
                   ErrUnclassified ;;
         let op := nth 1 (elems (gc_Command c)) "" in
         if (op =? "checkout") || (op =? "switch") || (op =? "branch") || (op =? "worktree")
         then validateCreationCommand e c
         else Err ErrUnclassified
       else Ok tt) ;;
      for_each (λ value, reject_if (creation_value_invalid value) ErrUnclassified)
        (elems (gc_Command c) ++ [gc_StartRef c; gc_OriginBranch c; gc_OriginBranchID c]) ;;
      reject_if (negb (bool_decide ((gc_OriginBranch c =? "") = (gc_OriginBranchID c =? ""))))
                ErrUnclassified ;;
      (if gc_OriginBranch c <>? "" then ValidateBranchName (gc_OriginBranch c) else Ok tt) ;;
      reject_if ((gc_Evidence c =? "process-argv") && (ev_GitAfter e <>? "") &&
                 (gc_StartCommit c =? "")) ErrUnclassified ;;
      if gc_StartCommit c <>? "" then
        reject_if ((String.length (gc_StartCommit c) <>? 40) &&
                   (String.length (gc_StartCommit c) <>? 64)) ErrUnclassified ;;
        reject_if (negb (hex_decodes (gc_StartCommit c))) ErrUnclassified ;;
        let expected := if ev_Kind e =? "orphan" then ev_GitBefore e else ev_GitAfter e in
        reject_if ((gc_StartCommit c <>? expected) &&
                   negb ((ev_Kind e =? "orphan") && (gc_Evidence c =? "process-argv") &&
                         (gc_StartRef c <>? "HEAD"))) ErrUnclassified
      else Ok tt
  end.

(** ** The event validator *)

(** [len(id) == 32 && id == strings.ToLower(id)] and hexadecimal. *)
Definition operation_id_valid (id : string) : bool :=
  (String.length id =? 32) && (id =? ToLower id) && hex_decodes id.

Definition known_kind (kind : string) : bool :=
  (kind =? "birth") || (kind =? "attach") || (kind =? "orphan") || (kind =? "position") ||
  (kind =? "publish") || (kind =? "advance") || (kind =? "rename") || (kind =? "archive") ||
  (kind =? "pr-merge").

Definition validate_pr_binding (e : HistoryEvent) : result unit :=
  if ev_Kind e =? "pr-merge" then
    match ev_PR e with
    | None => Err ErrUnclassified
    | Some pr =>
        reject_if ((ev_SourceBranchID e =? "") || (128 <? String.length (ev_SourceBranchID e))%nat ||
                   (ev_Source e =? "") || (ev_Target e =? "") ||
                   (negb (ev_PRCompleted e) &&
                    ((ev_Target e <>? ev_Source e) || (ev_Branch e <>? pr_BaseBranch pr))))
                  ErrUnclassified ;;
        PullRequestMerge_Validate pr
    end
  else reject_if (bool_decide (ev_PR e ≠ None) || (ev_SourceBranchID e <>? "") || ev_PRCompleted e)
                 ErrUnclassified.

Definition ValidateHistoryEvent (e : HistoryEvent) : result unit :=
  ValidateGitCreation e ;;
  reject_if (negb (operation_id_valid (ev_ID e))) ErrUnclassified ;;
  reject_if ((ev_BranchID e =? "") || (128 <? String.length (ev_BranchID e))%nat) ErrUnclassified ;;
  ValidateContentHash (ev_RepoID e) ;;
  (if (ev_Branch e <>? "") || (ev_Kind e <>? "position")
   then ValidateBranchName (ev_Branch e) else Ok tt) ;;
  reject_if (negb (known_kind (ev_Kind e))) ErrUnclassified ;;
  reject_if ((ev_Kind e =? "publish") &&
             ((ev_Target e =? "") || (ev_Source e <>? ev_Target e) || (ev_GitAfter e =? "") ||
              (ev_GitAfter e <>? ToLower (ev_GitAfter e)) || (Trim (ev_GitAfter e) "0" =? "")))
            ErrUnclassified ;;
  reject_if ((ev_RecoveryEvidence e <>? "") &&
             ((ev_Kind e <>? "orphan") || (ev_RecoveryEvidence e <>? "user-confirmed-unborn-head")))
            ErrUnclassified ;;
  validate_pr_binding e ;;
  (if ev_LocalBranch e <>? "" then ValidateBranchName (ev_LocalBranch e) else Ok tt) ;;
  (if ev_Kind e =? "rename" then
     ValidateBranchName (ev_PreviousBranch e) ;;
     reject_if (ev_PreviousBranch e =? ev_Branch e) ErrUnclassified
   else reject_if ((ev_PreviousBranch e <>? "") || (ev_NameParent e <>? "")) ErrUnclassified) ;;
  reject_if ((ev_MemorySelectionParent e <>? "") &&
             ((ev_Kind e <>? "position") || (ev_Target e =? "") || (ev_Source e <>? ev_Target e) ||
              negb (ev_MemoryPinned e) || (ev_MemoryHash e =? "") ||
              ((ev_MemorySource e <>? "") && (ev_MemorySource e <>? ev_Target e)) ||
              (ev_WorktreeID e =? "") || negb (ValidGitOID (ev_GitAfter e)))) ErrUnclassified ;;
  for_each (λ parent,
    if parent =? "" then Ok tt
    else reject_if ((parent =? ev_ID e) || negb (operation_id_valid parent)) ErrUnclassified)
    (HistoryDependencies e) ;;
  reject_if (time_IsZero (ev_CreatedAt e)) ErrUnclassified ;;
  for_each ValidateOptionalContentHash
    [ev_Source e; ev_Target e; ev_SharedTarget e; ev_MemorySource e; ev_MemoryHash e] ;;
  for_each (λ oid,
    if oid =? "" then Ok tt
    else
      reject_if ((String.length oid <>? 40) && (String.length oid <>? 64)) ErrUnclassified ;;
      reject_if (negb (hex_decodes oid)) ErrUnclassified)
    [ev_GitBefore e; ev_GitAfter e] ;;
  (if ev_WorktreeID e <>? "" then
     reject_if (negb (operation_id_valid (ev_WorktreeID e))) ErrUnclassified
   else Ok tt) ;;
  reject_if ((ev_Kind e =? "advance") && ((ev_Source e =? "") || (ev_Target e =? ""))) ErrUnclassified ;;
  reject_if ((ev_Kind e =? "orphan") && ((ev_Source e <>? "") || (ev_Target e <>? ""))) ErrUnclassified.

(** ** Pinned contexts *)

Definition IsPinnedContextEvent (e : HistoryEvent) : bool :=
  if negb (ev_MemoryPinned e) || (ev_Target e =? "") then false
  else (ev_Kind e =? "birth") || (ev_Kind e =? "orphan") || (ev_Kind e =? "attach") ||
       (ev_Kind e =? "position") || (ev_Kind e =? "advance").

Definition IsInitialMemorySelection (before after : HistoryEvent) : bool :=
  if negb ((ev_Kind before =? "position") && (ev_Kind after =? "position") &&
           (ev_MemorySelectionParent after =? ev_ID before) && (ev_ID before <>? "") &&
           (ev_ID before <>? ev_ID after) &&
           (ev_RepoID before =? ev_RepoID after) && (ev_BranchID before =? ev_BranchID after) &&
           (ev_Branch before =? ev_Branch after) && (ev_LocalBranch before =? ev_LocalBranch after) &&
           (ev_WorktreeID before <>? "") && (ev_WorktreeID before =? ev_WorktreeID after) &&
           ValidGitOID (ev_GitAfter before) && (ev_GitAfter before =? ev_GitAfter after) &&
           (ev_Target before <>? "") && (ev_Source after =? ev_Target before) &&
           (ev_Target after =? ev_Target before) &&
           ev_MemoryPinned before && ev_MemoryPinned after && (ev_MemoryHash after <>? "") &&
           ((ev_MemorySource after =? "") || (ev_MemorySource after =? ev_Target after)))
  then false
  else if ev_MemoryHash before =? "" then
    (ev_Source before =? ev_Target before) && (ev_MemorySource before =? "")
  else (ev_MemorySource before <>? "") && (ev_MemorySource before <>? ev_Target before).

(** ** Lemmas *)

Lemma HistoryDependencies_elem e d :
  d ∈ HistoryDependencies e ↔
  d ≠ "" ∧ (d = ev_BindingParent e ∨ d = ev_NameParent e ∨ d = ev_MemorySelectionParent e).
Proof.
  unfold HistoryDependencies. cbn.
  repeat (case_bool_decide; cbn); set_solver.
Qed.

Lemma HistoryDependencies_NoDup e : NoDup (HistoryDependencies e).
Proof.
  unfold HistoryDependencies. cbn.
  repeat (case_bool_decide; cbn); rewrite ?NoDup_cons, ?list_elem_of_singleton;
    repeat split; try (by apply NoDup_nil_2); set_solver.
Qed.

(** The operation id of a validated event never occurs among its dependencies. *)
Lemma ValidateHistoryEvent_not_self e :
  ValidateHistoryEvent e = Ok tt → ev_ID e ∉ HistoryDependencies e.
Proof.
  unfold ValidateHistoryEvent. intros H Hin. inv_ok.
  match goal with Hf : Forall _ (HistoryDependencies e) |- _ =>
    rewrite Forall_forall in Hf; specialize (Hf _ Hin); cbn in Hf end.
  apply HistoryDependencies_elem in Hin as [Hne _].
  rewrite (bool_decide_false (ev_ID e = "")) in * by done. inv_ok. bools. done.
Qed.

Lemma ValidateHistoryEvent_branch e : ValidateHistoryEvent e = Ok tt → ev_BranchID e ≠ "".
Proof. unfold ValidateHistoryEvent. intros H. inv_ok. bools. done. Qed.

Lemma operation_id_nonempty id : operation_id_valid id = true → id ≠ "".
Proof. intros H ->. vm_compute in H. discriminate. Qed.

Lemma ValidateHistoryEvent_id e : ValidateHistoryEvent e = Ok tt → ev_ID e ≠ "".
Proof. unfold ValidateHistoryEvent. intros H. inv_ok. bools. by apply operation_id_nonempty. Qed.

(** The names of a valid binding event are not empty. *)
Lemma ValidateHistoryEvent_names e :
  ValidateHistoryEvent e = Ok tt → IsBranchBindingEvent e = true →
  ev_Branch e ≠ "" ∧ (ev_Kind e = "rename" → ev_PreviousBranch e ≠ "").
Proof.
  unfold ValidateHistoryEvent. intros H Hb. inv_ok. split.
  - assert (ev_Kind e ≠ "position") as Hk by (intros Hk; unfold IsBranchBindingEvent in Hb; by rewrite Hk in Hb).
    rewrite (bool_decide_false (ev_Kind e = "position")) in * by done. rewrite orb_true_r in *.
    by apply ValidateBranchName_nonempty.
  - intros Hk. rewrite !(bool_decide_true (ev_Kind e = "rename")) in * by done. inv_ok.
    by apply ValidateBranchName_nonempty.
Qed.

Lemma scan_creation_args_total op args st : no_fuel_error (scan_creation_args op args st).
Proof.
  revert st. induction args as [args IH] using (induction_ltof1 _ (@length string)); intros st.
  unfold ltof in IH. destruct args as [|v rest]; cbn [scan_creation_args]; [done|].
  assert (∀ st, no_fuel_error (scan_creation_args op rest st)) as Hrest by (intros; apply IH; cbn; lia).
  repeat apply total_if; auto with total. destruct rest as [|value rest']; [by auto with total|].
  apply total_if; [by auto with total|]. apply IH. cbn. lia.
Qed.

Lemma validateCreationCommand_total e c : no_fuel_error (validateCreationCommand e c).
Proof.
  unfold validateCreationCommand. destruct (elems (gc_Command c)) as [|g [|op args]]; [done..|].
  apply total_bind; [apply total_if; [by repeat case_match|done]|]. intros args'.
  apply total_bind; [apply scan_creation_args_total|]. intros st.
  apply total_bind; [apply total_if; [by repeat case_match|done]|]. intros positional.
  apply total_bind; [apply total_if; [by repeat case_match|done]|]. intros [target rest]. cbn zeta.
  auto 30 with total.
Qed.
#[export] Hint Resolve validateCreationCommand_total : total.

Lemma ValidateGitCreation_total e : no_fuel_error (ValidateGitCreation e).
Proof. unfold ValidateGitCreation. auto 30 with total. Qed.
#[export] Hint Resolve ValidateGitCreation_total : total.

Lemma ValidateHistoryEvent_total e : no_fuel_error (ValidateHistoryEvent e).
Proof. unfold ValidateHistoryEvent, validate_pr_binding, PullRequestMerge_Validate. auto 60 with total. Qed.
#[export] Hint Resolve ValidateHistoryEvent_total : total.

(** ** Sample events *)

Module HistorySamples.
(** A well-formed content hash made of one repeated digit. *)
Definition hash (digit : ascii) : string :=
  "sha256:" +:+ foldr String "" (repeat digit 64).
Definition repo : string := hash "0".

(** An event with the given id, identity, name, kind, binding parent and time. *)
Definition event (id branchID branch kind binding : string) (at_ : Z) : HistoryEvent :=
  MkHistoryEvent None false "" None "" id repo branchID branch kind "" "" binding "" ""
    "" "" "" "" "" false "" "" "" (MkTime at_ 0).

Definition rename_event (id branchID branch previous binding name : string) (at_ : Z) : HistoryEvent :=
  MkHistoryEvent None false "" None "" id repo branchID branch "rename" "" previous binding name ""
    "" "" "" "" "" false "" "" "" (MkTime at_ 0).

(** An observation or completion of [target] at Git revision [git]. *)
Definition observation (id branchID branch kind target git : string) (at_ : Z) : HistoryEvent :=
  MkHistoryEvent None false "" None "" id repo branchID branch kind "" "" "" "" ""
    target target "" "" "" true "" git "" (MkTime at_ 0).
Definition git1 : string := foldr String "" (repeat "1"%char 40).

Definition id1 := "11111111111111111111111111111111".
Definition id2 := "22222222222222222222222222222222".
Definition id3 := "33333333333333333333333333333333".
Definition id4 := "44444444444444444444444444444444".

Definition id5 := "55555555555555555555555555555555".
Definition id6 := "66666666666666666666666666666666".

Definition birth := event id1 "b-1" "main" "birth" "" 5.
Definition rename := rename_event id2 "b-1" "trunk" "main" id1 "" 3.
Definition rebirth := event id3 "b-2" "main" "birth" id2 4.
Definition archive := event id4 "b-1" "trunk" "archive" id2 9.
End HistorySamples.
