(* ===== verification/MemorySummary.v ===== *)
(** * The extractive conversation summary

    Models the text format of [cli/internal/domain/entities.go] in which a memory
    digest carries the deterministic conversation fallback: the normal form of an
    item, the rendered sections, the strict parser, and the marker that joins a
    fallback to a provider baseline.

    [parse_render]: the parser reads back exactly the trimmed nonblank items
    of a rendering.  [split_append_exact]: what was appended to a baseline is split
    off again.  [normalize_canonical]: the normal form of an item is a fixed point of
    normalisation and of a render and parse. *)
From S2P Require Import Prelude GoStrings Utf8.
From Stdlib Require Import Ascii.

Definition extractiveFallbackHeader : string :=
  "Conversation digest (extractive fallback; provider compaction summary unavailable):".
Definition extractiveFallbackUsersHeader : string := "Recent user intent:".
Definition extractiveFallbackAssistantsHeader : string := "Recent assistant outcomes:".
Definition extractiveFallbackDeltaMarker : string := "[cxt conversation delta v1]".

Definition newline : ascii := ascii_of_N 10.
Definition nl : string := text1 newline.

Definition AppendExtractiveConversationDelta (baseline delta : string) : string :=
  if delta =? "" then baseline
  else if baseline =? "" then delta
  else baseline +:+ nl +:+ nl +:+ extractiveFallbackDeltaMarker +:+ nl +:+ delta.

Definition extractiveConversationItemMaxRunes : nat := 2000.

Definition ellipsis : string := byte_text [226; 128; 166]%N.

Definition NormalizeExtractiveConversationItem (text : string) : string :=
  let text := Join (Fields text) " " in
  if (length (runes text) <=? extractiveConversationItemMaxRunes)%nat then text
  else take_runes extractiveConversationItemMaxRunes text +:+ ellipsis.

(** ** Rendering *)

(** One item of a section; a blank item writes nothing. *)
Definition write_item (item : string) : string :=
  let item := TrimSpace item in
  if item =? "" then "" else "- " +:+ item +:+ nl.

(** The builder's contents are appended to. *)
Definition writeExtractiveFallbackSection (b header : string) (items : list string) : string :=
  match items with
  | [] => b
  | _ => foldl (λ b item, b +:+ write_item item) (b +:+ nl +:+ nl +:+ header +:+ nl) items
  end.

Definition RenderExtractiveFallbackSummary (users assistants : list string) : string :=
  let b := extractiveFallbackHeader +:+ nl in
  let b := writeExtractiveFallbackSection b extractiveFallbackUsersHeader users in
  let b := writeExtractiveFallbackSection b extractiveFallbackAssistantsHeader assistants in
  TrimSpace b.

(** ** Parsing *)

Record FallbackState := MkFallbackState {
  fb_section : nat;
  fb_seenUsers : bool;
  fb_seenAssistants : bool;
  fb_users : list string;
  fb_assistants : list string;
}.

(** One line of the summary, [None] for [return nil, nil, false]. *)
Definition parse_line (st : FallbackState) (raw : string) : option FallbackState :=
  let line := TrimSpace raw in
  if line =? "" then Some st
  else if line =? extractiveFallbackUsersHeader then
    if fb_seenUsers st || fb_seenAssistants st then None
    else Some (MkFallbackState 1 true (fb_seenAssistants st) (fb_users st) (fb_assistants st))
  else if line =? extractiveFallbackAssistantsHeader then
    if fb_seenAssistants st then None
    else Some (MkFallbackState 2 (fb_seenUsers st) true (fb_users st) (fb_assistants st))
  else if (fb_section st =? 0)%nat || negb (HasPrefix line "- ") then None
  else
    let item := TrimSpace (TrimPrefix line "- ") in
    if item =? "" then None
    else if (fb_section st =? 1)%nat
    then Some (MkFallbackState (fb_section st) (fb_seenUsers st) (fb_seenAssistants st)
                 (fb_users st ++ [item]) (fb_assistants st))
    else Some (MkFallbackState (fb_section st) (fb_seenUsers st) (fb_seenAssistants st)
                 (fb_users st) (fb_assistants st ++ [item])).

Fixpoint parse_lines (lines : list string) (st : FallbackState) : option FallbackState :=
  match lines with
  | [] => Some st
  | raw :: lines => st ← parse_line st raw; parse_lines lines st
  end.

Definition parseExtractiveFallbackSummary (summary : string) : option (list string * list string) :=
  match Split (TrimSpace summary) newline with
  | [] => None
  | first :: lines =>
      if TrimSpace first =? extractiveFallbackHeader then
        st ← parse_lines lines (MkFallbackState 0 false false [] []);
        match fb_users st, fb_assistants st with
        | [], [] => None
        | users, assistants => Some (users, assistants)
        end
      else None
  end.

Definition delta_marker : string := nl +:+ nl +:+ extractiveFallbackDeltaMarker +:+ nl.

(** The baseline, and the parsed fallback when the summary has one. *)
Definition splitExtractiveFallbackSummary (summary : string) : string * option (list string * list string) :=
  let summary := TrimSpace summary in
  match parseExtractiveFallbackSummary summary with
  | Some parsed => ("", Some parsed)
  | None =>
      match LastIndex summary delta_marker with
      | Some at_ =>
          let candidate := drop_chars (at_ + String.length delta_marker) summary in
          match parseExtractiveFallbackSummary candidate with
          | Some parsed => (TrimSpace (take_chars at_ summary), Some parsed)
          | None => (summary, None)
          end
      | None => (summary, None)
      end
  end.

(** ** Lines *)

Definition no_newline (s : string) : bool := all_chars (λ c, negb (bool_decide (c = newline))) s.

Definition unlines (lines : list string) : string := foldr (λ l t, l +:+ nl +:+ t) "" lines.

Lemma unlines_app k l : unlines (k ++ l) = unlines k +:+ unlines l.
Proof.
  induction k as [|x k IH]; [done|]. cbn [unlines foldr app]. fold unlines. fold (unlines (k ++ l)).
  rewrite IH. by rewrite !string_app_assoc.
Qed.

Lemma Join_cons x y l : Join (x :: y :: l) nl = x +:+ nl +:+ Join (y :: l) nl.
Proof. done. Qed.

Lemma unlines_Join lines : lines ≠ [] → unlines lines = Join lines nl +:+ nl.
Proof.
  induction lines as [|x [|y lines] IH]; intros H; [done..|]. cbn [unlines foldr].
  change (x +:+ nl +:+ unlines (y :: lines) = Join (x :: y :: lines) nl +:+ nl). rewrite IH by done.
  rewrite Join_cons. by rewrite !string_app_assoc.
Qed.

Lemma Split_nonempty s sep : Split s sep ≠ [].
Proof. destruct s; cbn; [done|]. repeat case_match; done. Qed.

Lemma Split_app a b : no_newline a = true → Split (a +:+ nl +:+ b) newline = a :: Split b newline.
Proof.
  intros Ha. change (nl +:+ b) with (String newline b). induction a as [|c a IH]; cbn [Split String.append]; [by rewrite (bool_decide_true (newline = newline))|].
  apply andb_true_iff in Ha as [Hc Ha]. apply negb_true_iff in Hc. rewrite Hc. by rewrite (IH Ha).
Qed.

Lemma Split_single a : no_newline a = true → Split a newline = [a].
Proof.
  intros Ha. induction a as [|c a IH]; cbn [Split String.append]; [done|].
  apply andb_true_iff in Ha as [Hc Ha]. apply negb_true_iff in Hc. rewrite Hc. by rewrite (IH Ha).
Qed.

Lemma Split_Join lines : lines ≠ [] → Forall (λ l, no_newline l = true) lines → Split (Join lines nl) newline = lines.
Proof.
  induction lines as [|x [|y lines] IH]; intros H; [done|intros [Hx _]%Forall_cons; by apply Split_single|].
  intros [Hx Hl]%Forall_cons. rewrite Join_cons, Split_app by done. by rewrite IH.
Qed.

(** Every way of cutting a text at a newline cuts its lines. *)
Lemma Split_cut a b : Split (a +:+ nl +:+ b) newline = Split a newline ++ Split b newline.
Proof.
  change (nl +:+ b) with (String newline b). induction a as [|c a IH]; cbn [Split String.append]; [by rewrite (bool_decide_true (newline = newline))|].
  destruct (bool_decide (c = newline)); [by rewrite IH|]. rewrite IH.
  by destruct (Split a newline) eqn:E; [apply Split_nonempty in E|].
Qed.

Lemma newline_ascii : is_ascii newline = true.
Proof. done. Qed.

Lemma runes_line a b : runes (a +:+ nl +:+ b) = runes a ++ (true, nl) :: runes b.
Proof. unfold nl. cbn [String.append]. by rewrite runes_app, runes_ascii by done. Qed.

(** Only the ends of a text decide whether it is tight. *)
Lemma tight_between l m k : tight l → tight k → tight (l ++ m ++ k).
Proof.
  intros (x & _ & Hx & _ & Hsx & _) (_ & y & _ & Hy & _ & Hsy). exists x, y. split_and!; [by destruct l| |done..].
  by rewrite app_assoc, last_app, Hy.
Qed.

Lemma tight_Join first lines : tight (runes first) →
  (∀ l, last lines = Some l → tight (runes l)) → tight (runes (Join (first :: lines) nl)).
Proof.
  intros Hf Hl. destruct lines as [|l lines] using rev_ind; [done|]. clear IHlines.
  rewrite last_snoc in Hl. specialize (Hl _ eq_refl).
  assert (∀ x k, ∃ m, runes (Join (x :: k ++ [l]) nl) = runes x ++ m ++ runes l) as Hr.
  { intros x k. revert x. induction k as [|y k IH]; intros x; cbn [app].
    - exists [(true, nl)]. cbn [Join]. by rewrite runes_line.
    - destruct (IH y) as [m Hm]. exists ((true, nl) :: runes y ++ m).
      rewrite Join_cons, runes_line, Hm. by simplify_list_eq. }
  destruct (Hr first lines) as [m ->]. by apply tight_between.
Qed.

Lemma TrimSpace_unlines first lines : tight (runes first) →
  (∀ l, last lines = Some l → tight (runes l)) →
  TrimSpace (unlines (first :: lines)) = Join (first :: lines) nl.
Proof.
  intros Hf Hl. rewrite unlines_Join by done. unfold nl at 2. rewrite TrimSpace_trailing by done.
  by apply TrimSpace_tight, tight_Join.
Qed.

(** ** The lines of a rendering *)

Definition clean (items : list string) : list string := filter (λ i, i ≠ "") (TrimSpace <$> items).

Definition item_line (item : string) : string := "- " +:+ item.

Definition section_lines (header : string) (items : list string) : list string :=
  match items with
  | [] => []
  | _ => "" :: "" :: header :: (item_line <$> clean items)
  end.

Definition render_lines (users assistants : list string) : list string :=
  section_lines extractiveFallbackUsersHeader users ++
  section_lines extractiveFallbackAssistantsHeader assistants.

Lemma clean_cons item items :
  clean (item :: items) = if TrimSpace item =? "" then clean items else TrimSpace item :: clean items.
Proof.
  unfold clean. cbn [fmap list_fmap]. case_bool_decide; [by rewrite filter_cons_False by auto|].
  by rewrite filter_cons_True.
Qed.

Lemma clean_elem x items : x ∈ clean items → x ≠ "" ∧ ∃ i, i ∈ items ∧ x = TrimSpace i.
Proof.
  unfold clean. rewrite list_elem_of_filter, list_elem_of_fmap. intros [Hne (i & -> & Hi)]. eauto.
Qed.

Lemma clean_tight x items : x ∈ clean items → tight (runes x).
Proof. intros (Hne & i & _ & ->)%clean_elem. by destruct (TrimSpace_result i). Qed.

Lemma write_section b header items :
  writeExtractiveFallbackSection b header items = b +:+ unlines (section_lines header items).
Proof.
  destruct items as [|i items]; [cbn; by rewrite string_app_nil_r|].
  set (l := i :: items). unfold writeExtractiveFallbackSection, section_lines, l. fold l.
  assert (∀ b, foldl (λ b item, b +:+ write_item item) b l = b +:+ unlines (item_line <$> clean l)) as Hf.
  { clear. induction l as [|x l IH]; intros b; cbn [foldl]; [cbn; by rewrite string_app_nil_r|].
    rewrite IH, clean_cons. unfold write_item. case_bool_decide; [by rewrite string_app_nil_r|].
    cbn [fmap list_fmap unlines foldr]. unfold item_line at 2. fold (unlines (item_line <$> clean l)).
    by rewrite !string_app_assoc. }
  rewrite Hf. cbn [unlines foldr]. fold (unlines (item_line <$> clean l)).
  change ("" +:+ nl +:+ "" +:+ nl +:+ ?x) with (nl +:+ nl +:+ x). by rewrite !string_app_assoc.
Qed.

Lemma tight_headers :
  tight (runes extractiveFallbackHeader) ∧ tight (runes extractiveFallbackUsersHeader) ∧
  tight (runes extractiveFallbackAssistantsHeader) ∧ tight (runes extractiveFallbackDeltaMarker).
Proof. split_and!; eexists _, _; split_and!; vm_compute; reflexivity. Qed.

Lemma tight_item x : tight (runes x) → tight (runes (item_line x)).
Proof.
  intros (a & b & Ha & Hb & _ & Hs). unfold item_line. cbn [String.append]. rewrite !runes_ascii by done.
  eexists _, b. split_and!; [done| |by vm_compute|done]. by destruct (runes x).
Qed.

Lemma section_last header items l :
  tight (runes header) → last (section_lines header items) = Some l → tight (runes l).
Proof.
  intros Hh. destruct items as [|i items]; [done|]. cbn [section_lines]. set (c := clean (i :: items)).
  destruct (last (item_line <$> c)) as [x|] eqn:E.
  - change ("" :: "" :: header :: (item_line <$> c)) with (["" ; ""; header] ++ (item_line <$> c)).
    rewrite last_app, E. intros [= <-]. apply last_Some_elem_of, list_elem_of_fmap in E as (y & -> & Hy).
    by eapply tight_item, clean_tight.
  - apply last_None in E. rewrite E. by intros [= <-].
Qed.

Lemma Render_lines users assistants :
  RenderExtractiveFallbackSummary users assistants =
  Join (extractiveFallbackHeader :: render_lines users assistants) nl.
Proof.
  destruct tight_headers as (H1 & H2 & H3 & _). unfold RenderExtractiveFallbackSummary. rewrite !write_section.
  rewrite <-!string_app_assoc, <-unlines_app. fold (render_lines users assistants).
  change (extractiveFallbackHeader +:+ nl +:+ unlines ?l) with (unlines (extractiveFallbackHeader :: l)).
  apply (TrimSpace_unlines _ _ H1). intros l. unfold render_lines. rewrite last_app.
  destruct (last (section_lines extractiveFallbackAssistantsHeader assistants)) as [x|] eqn:E.
  - intros [= <-]. exact (section_last _ _ _ H3 E).
  - exact (section_last _ _ _ H2).
Qed.

(** ** Reading a rendering back *)

Definition add_items (st : FallbackState) (items : list string) : FallbackState :=
  if (fb_section st =? 1)%nat
  then MkFallbackState (fb_section st) (fb_seenUsers st) (fb_seenAssistants st) (fb_users st ++ items) (fb_assistants st)
  else MkFallbackState (fb_section st) (fb_seenUsers st) (fb_seenAssistants st) (fb_users st) (fb_assistants st ++ items).

Lemma parse_lines_app k l st : parse_lines (k ++ l) st = parse_lines k st ≫= parse_lines l.
Proof. revert st. induction k as [|x k IH]; intros st; [done|]. cbn. destruct (parse_line st x); [apply IH|done]. Qed.

Lemma parse_item st x : tight (runes x) → fb_section st ≠ 0 →
  parse_line st (item_line x) = Some (add_items st [x]).
Proof.
  intros Hx Hs. unfold parse_line. rewrite (TrimSpace_tight (item_line x)) by by apply tight_item.
  rewrite !(bool_decide_false (item_line x = _)) by (unfold item_line; discriminate).
  unfold HasPrefix, item_line. rewrite prefix_app, TrimPrefix_app, (TrimSpace_tight x Hx).
  rewrite (proj2 (Nat.eqb_neq _ _) Hs). cbn [orb negb].
  rewrite (bool_decide_false (x = "")) by (intros ->; by destruct Hx as (? & ? & ? & _)).
  unfold add_items. by destruct (fb_section st =? 1)%nat.
Qed.

Lemma parse_items items st : (∀ x, x ∈ items → tight (runes x)) → fb_section st ≠ 0 →
  parse_lines (item_line <$> items) st = Some (add_items st items).
Proof.
  revert st. induction items as [|x items IH]; intros st Ht Hs; cbn [fmap list_fmap parse_lines].
  { destruct st as [n ? ? ? ?]. unfold add_items. cbn. rewrite !app_nil_r. by destruct (n =? 1)%nat. }
  rewrite parse_item; [|apply Ht; left|done]. cbn.
  rewrite IH; [|intros y Hy; apply Ht; by right|by unfold add_items; destruct (fb_section st =? 1)%nat].
  f_equal. unfold add_items. destruct (fb_section st =? 1)%nat eqn:E; cbn; rewrite ?E; by simplify_list_eq.
Qed.

Lemma parse_users items :
  parse_lines (section_lines extractiveFallbackUsersHeader items) (MkFallbackState 0 false false [] []) =
  Some (match items with
        | [] => MkFallbackState 0 false false [] []
        | _ => MkFallbackState 1 true false (clean items) []
        end).
Proof.
  destruct items as [|i items]; [done|]. cbn [section_lines]. set (c := clean (i :: items)).
  change ("" :: "" :: ?h :: ?l) with ([""; ""; h] ++ l). rewrite parse_lines_app.
  replace (parse_lines _ _) with (Some (MkFallbackState 1 true false [] [])) by (vm_compute; reflexivity).
  cbn [mbind option_bind]. rewrite parse_items; [done| |done]. intros x. apply clean_tight.
Qed.

Lemma parse_assistants n seen users items :
  parse_lines (section_lines extractiveFallbackAssistantsHeader items) (MkFallbackState n seen false users []) =
  Some (match items with
        | [] => MkFallbackState n seen false users []
        | _ => MkFallbackState 2 seen true users (clean items)
        end).
Proof.
  destruct items as [|i items]; [done|]. cbn [section_lines]. set (c := clean (i :: items)).
  change ("" :: "" :: ?h :: ?l) with ([""; ""; h] ++ l). rewrite parse_lines_app.
  replace (parse_lines _ (MkFallbackState n seen false users []))
    with (Some (MkFallbackState 2 seen true users [])) by (vm_compute; reflexivity).
  cbn [mbind option_bind]. rewrite parse_items; [done| |done]. intros x. apply clean_tight.
Qed.

Lemma no_newline_trim s : no_newline s = true → no_newline (TrimSpace s) = true.
Proof.
  destruct (TrimSpace_infix s) as (l & k & Hs & _). unfold no_newline. intros Hn.
  rewrite <-(texts_runes s), Hs, !texts_app, texts_runes, !all_chars_app in Hn. by bools.
Qed.

Definition line_items (items : list string) : Prop := ∀ i, i ∈ items → no_newline i = true.

Lemma section_no_newline header items : no_newline header = true → line_items items →
  Forall (λ l, no_newline l = true) (section_lines header items).
Proof.
  intros Hh Hi. destruct items as [|i items]; [done|]. cbn [section_lines]. do 3 (apply Forall_cons; split; [done|]).
  apply Forall_forall. intros l (x & -> & (_ & y & Hy & ->)%clean_elem)%list_elem_of_fmap.
  apply (no_newline_trim y), Hi, Hy.
Qed.

Lemma render_no_newline users assistants : line_items users → line_items assistants →
  Forall (λ l, no_newline l = true) (extractiveFallbackHeader :: render_lines users assistants).
Proof. intros Hu Ha. apply Forall_cons; split; [done|]. apply Forall_app; split; by apply section_no_newline. Qed.

Lemma Render_tight users assistants : tight (runes (RenderExtractiveFallbackSummary users assistants)).
Proof.
  destruct (TrimSpace_result (RenderExtractiveFallbackSummary users assistants)) as [H|H].
  - exfalso. unfold RenderExtractiveFallbackSummary in H. rewrite TrimSpace_idemp in H.
    fold (RenderExtractiveFallbackSummary users assistants) in H. rewrite Render_lines in H.
    destruct (render_lines users assistants); discriminate H.
  - unfold RenderExtractiveFallbackSummary in *. by rewrite TrimSpace_idemp in H.
Qed.

Lemma Render_Split users assistants : line_items users → line_items assistants →
  Split (RenderExtractiveFallbackSummary users assistants) newline =
  extractiveFallbackHeader :: render_lines users assistants.
Proof. intros Hu Ha. rewrite Render_lines. apply Split_Join; [done|]. by apply render_no_newline. Qed.

(** The strict parser reads back exactly what the renderer wrote: the items, trimmed,
    in order, without the blank ones. *)
(** A rendering is parsed back, unless it holds no item. *)
Lemma parse_render_exact users assistants : line_items users → line_items assistants →
  parseExtractiveFallbackSummary (RenderExtractiveFallbackSummary users assistants) =
  if bool_decide (clean users ++ clean assistants = []) then None else Some (clean users, clean assistants).
Proof.
  intros Hu Ha. unfold parseExtractiveFallbackSummary.
  rewrite (TrimSpace_tight _ (Render_tight users assistants)), (Render_Split _ _ Hu Ha).
  rewrite (TrimSpace_tight _ (proj1 tight_headers)), bool_decide_true by done.
  unfold render_lines. rewrite parse_lines_app, parse_users. cbn [mbind option_bind].
  set (st := MkFallbackState 0 false false [] []).
  assert (∃ n seen, match users with [] => st | _ => MkFallbackState 1 true false (clean users) [] end =
    MkFallbackState n seen false (clean users) []) as (n & seen & ->) by (destruct users; eauto).
  rewrite parse_assistants. cbn [mbind option_bind].
  destruct assistants as [|i l]; cbn [fb_users fb_assistants].
  - change (clean []) with (@nil string). rewrite app_nil_r. by destruct (clean users).
  - by destruct (clean users), (clean (i :: l)).
Qed.

Lemma parse_render users assistants : line_items users → line_items assistants →
  clean users ++ clean assistants ≠ [] →
  parseExtractiveFallbackSummary (RenderExtractiveFallbackSummary users assistants) =
  Some (clean users, clean assistants).
Proof. intros Hu Ha Hne. by rewrite parse_render_exact, bool_decide_false. Qed.

(** The lines that are not items of a fallback. *)
Lemma parse_lines_reject l st line : line ∈ l → TrimSpace line = line → line ≠ "" →
  line ≠ extractiveFallbackUsersHeader → line ≠ extractiveFallbackAssistantsHeader →
  HasPrefix line "- " = false → parse_lines l st = None.
Proof.
  intros Hin Ht H1 H2 H3 Hp. revert st. induction l as [|x l IH]; intros st; [by apply elem_of_nil in Hin|].
  cbn [parse_lines]. destruct (parse_line st x) as [st'|] eqn:E; [|done]. cbn [mbind option_bind].
  apply elem_of_cons in Hin as [<-|Hin]; [|by apply IH]. exfalso. revert E. unfold parse_line. rewrite Ht, Hp.
  rewrite (bool_decide_false _ H1), (bool_decide_false _ H2), (bool_decide_false _ H3), orb_true_r. done.
Qed.

(** ** The last index of the marker *)

Lemma LastIndex_None s sub : (∀ p q, s ≠ p +:+ sub +:+ q) → LastIndex s sub = None.
Proof.
  assert (∀ t, (∀ p q, t ≠ p +:+ sub +:+ q) → String.prefix sub t = false) as Hp.
  { intros t Ht. destruct (String.prefix sub t) eqn:E; [|done]. apply prefix_spec in E as [q ->]. by destruct (Ht "" q). }
  induction s as [|c s IH]; intros Hs; unfold LastIndex; fold LastIndex; [by rewrite Hp|].
  rewrite IH, Hp; [done|done|]. intros p q ->. by apply (Hs (String c p) q).
Qed.

Lemma LastIndex_app a c s sub : String.prefix sub (String c s) = true → LastIndex s sub = None →
  LastIndex (a +:+ String c s) sub = Some (String.length a).
Proof.
  intros Hp Hn. induction a as [|x a IH]; cbn [String.append String.length].
  - unfold LastIndex; fold LastIndex. by rewrite Hn, Hp.
  - unfold LastIndex; fold LastIndex. by rewrite IH.
Qed.

(** The lines of a rendering do not contain the marker. *)
Lemma marker_not_line users assistants :
  extractiveFallbackDeltaMarker ∉ extractiveFallbackHeader :: render_lines users assistants.
Proof.
  assert (∀ h l, h ≠ extractiveFallbackDeltaMarker → extractiveFallbackDeltaMarker ∉ section_lines h l) as Hs.
  { intros h [|i l] Hh; [by apply not_elem_of_nil|]. cbn [section_lines]. rewrite !elem_of_cons, list_elem_of_fmap.
    intros [H|[H|[H|(x & H & _)]]]; try discriminate H. by destruct Hh. }
  intros [H|[H|H]%elem_of_app]%elem_of_cons; [discriminate H| |]; revert H; by apply Hs.
Qed.

Lemma marker_last baseline users assistants : line_items users → line_items assistants →
  LastIndex (baseline +:+ delta_marker +:+ RenderExtractiveFallbackSummary users assistants) delta_marker =
  Some (String.length baseline).
Proof.
  intros Hu Ha. set (r := RenderExtractiveFallbackSummary users assistants).
  change (delta_marker +:+ r) with (String newline (nl +:+ extractiveFallbackDeltaMarker +:+ nl +:+ r)).
  apply LastIndex_app; [exact (prefix_app delta_marker r)|]. apply LastIndex_None. intros p q Heq.
  apply (f_equal (λ s, Split s newline)) in Heq.
  change (nl +:+ ?x) with ("" +:+ nl +:+ x) in Heq at 1.
  rewrite Split_app, Split_app in Heq by done. unfold r in Heq. rewrite (Render_Split _ _ Hu Ha) in Heq.
  change (p +:+ delta_marker +:+ q) with (p +:+ nl +:+ ("" +:+ nl +:+ (extractiveFallbackDeltaMarker +:+ nl +:+ q))) in Heq.
  rewrite Split_cut, !Split_app in Heq by done.
  destruct (Split p newline) as [|x [|y l]] eqn:Ep; [by apply Split_nonempty in Ep| |].
  - injection Heq as _ Hd _. discriminate Hd.
  - injection Heq as _ _ Heq. apply (marker_not_line users assistants). rewrite Heq. set_solver.
Qed.

Lemma render_no_marker users assistants : line_items users → line_items assistants →
  LastIndex (RenderExtractiveFallbackSummary users assistants) delta_marker = None.
Proof.
  intros Hu Ha. apply LastIndex_None. intros p q Heq. apply (f_equal (λ s, Split s newline)) in Heq. rewrite (Render_Split _ _ Hu Ha) in Heq.
  change (p +:+ delta_marker +:+ q) with (p +:+ nl +:+ ("" +:+ nl +:+ (extractiveFallbackDeltaMarker +:+ nl +:+ q))) in Heq.
  rewrite Split_cut, !Split_app in Heq by done. apply (marker_not_line users assistants). rewrite Heq. set_solver.
Qed.

(** ** Theorems *)

Lemma append_whole baseline users assistants : tight (runes baseline) →
  let r := RenderExtractiveFallbackSummary users assistants in
  AppendExtractiveConversationDelta baseline r = baseline +:+ delta_marker +:+ r ∧
  tight (runes (baseline +:+ delta_marker +:+ r)).
Proof.
  intros Hb r. assert (tight (runes r)) as Hr by apply Render_tight. split.
  - unfold AppendExtractiveConversationDelta.
    rewrite (bool_decide_false (r = "")) by (intros E; rewrite E in Hr; by destruct Hr as (? & ? & ? & _)).
    rewrite (bool_decide_false (baseline = "")) by (intros ->; by destruct Hb as (? & ? & ? & _)). done.
  - change (delta_marker +:+ r) with (nl +:+ (nl +:+ extractiveFallbackDeltaMarker) +:+ nl +:+ r).
    rewrite !runes_line. set (m := runes (nl +:+ extractiveFallbackDeltaMarker)).
    pose proof (tight_between _ ((true, nl) :: m ++ [(true, nl)]) _ Hb Hr) as Ht.
    by rewrite <-app_comm_cons, <-app_assoc in Ht.
Qed.

Lemma split_append_all baseline users assistants :
  TrimSpace baseline = baseline → line_items users → line_items assistants →
  let summary := AppendExtractiveConversationDelta baseline (RenderExtractiveFallbackSummary users assistants) in
  splitExtractiveFallbackSummary summary =
    if bool_decide (clean users ++ clean assistants = []) then (summary, None) else (baseline, Some (clean users, clean assistants)).
Proof.
  intros Hb Hu Ha summary. subst summary. set (r := RenderExtractiveFallbackSummary users assistants).
  assert (parseExtractiveFallbackSummary r = if bool_decide (clean users ++ clean assistants = []) then None else Some (clean users, clean assistants))
    as Hparse by by apply parse_render_exact.
  destruct (decide (baseline = "")) as [->|Hbne].
  { replace (AppendExtractiveConversationDelta "" r) with r.
    - unfold splitExtractiveFallbackSummary. rewrite (TrimSpace_tight r) by apply Render_tight. rewrite Hparse.
      case_bool_decide; [|done]. unfold r. by rewrite (render_no_marker _ _ Hu Ha).
    - clear Hparse. unfold AppendExtractiveConversationDelta. by case_bool_decide. }
  assert (tight (runes baseline)) as Htb by by apply TrimSpace_id_tight.
  destruct (append_whole baseline users assistants Htb) as [He Hw]. fold r in He, Hw. rewrite He. clear He.
  unfold splitExtractiveFallbackSummary. rewrite (TrimSpace_tight _ Hw).
  replace (parseExtractiveFallbackSummary (baseline +:+ delta_marker +:+ r)) with (@None (list string * list string)).
  - pose proof (marker_last baseline _ _ Hu Ha) as Hm. fold r in Hm. rewrite Hm.
    rewrite <-length_app_string, string_app_assoc, drop_chars_app, Hparse.
    case_bool_decide; [done|]. by rewrite <-string_app_assoc, take_chars_app, Hb.
  - symmetry. unfold parseExtractiveFallbackSummary. rewrite (TrimSpace_tight _ Hw).
    change (baseline +:+ delta_marker +:+ r) with (baseline +:+ nl +:+ ("" +:+ nl +:+ (extractiveFallbackDeltaMarker +:+ nl +:+ r))).
    rewrite Split_cut, !Split_app by done.
    destruct (Split baseline newline) as [|x l] eqn:E; [by apply Split_nonempty in E|]. cbn [app].
    clear Hparse. case_bool_decide; [|done].
    rewrite (parse_lines_reject _ _ extractiveFallbackDeltaMarker); [done|set_solver|done..].
Qed.

Lemma split_append baseline users assistants :
  TrimSpace baseline = baseline → line_items users → line_items assistants →
  clean users ++ clean assistants ≠ [] →
  splitExtractiveFallbackSummary
    (AppendExtractiveConversationDelta baseline (RenderExtractiveFallbackSummary users assistants)) =
  (baseline, Some (clean users, clean assistants)).
Proof. intros Hb Hu Ha Hne. by rewrite split_append_all, bool_decide_false. Qed.

(** C4: a fallback appended to a baseline is split off again: for a trimmed baseline
    and items without a newline, not all of them blank, splitting the combined summary
    returns the baseline unchanged and exactly the rendered items, trimmed and without the
    blank ones, whatever marker or fallback-like text the baseline itself contains.  When
    there is no item or every item is blank, nothing is split off: the combined summary
    comes back whole, without items. *)
Theorem split_append_exact baseline users assistants :
  TrimSpace baseline = baseline → line_items users → line_items assistants →
  let summary := AppendExtractiveConversationDelta baseline (RenderExtractiveFallbackSummary users assistants) in
  splitExtractiveFallbackSummary summary =
    if bool_decide (clean users ++ clean assistants = []) then (summary, None)
    else (baseline, Some (clean users, clean assistants)).
Proof. apply split_append_all. Qed.

(** ** Normal forms of items *)

Definition blank : bool * string := (true, " ").

(** Single blanks between words, none at the ends. *)
Fixpoint spaced (after_space : bool) (l : list (bool * string)) : bool :=
  match l with
  | [] => negb after_space
  | r :: l => if is_space r then negb after_space && bool_decide (r = blank) && spaced true l else spaced false l
  end.

Lemma spaced_app p l k : spaced p l = true → spaced false k = true → spaced p (l ++ k) = true.
Proof.
  revert p. induction l as [|r l IH]; intros p; cbn [app spaced].
  - destruct p; [done|auto].
  - destruct (is_space r); [|by apply IH]. rewrite !andb_true_iff. intros [H Hl] Hk. split; [done|by apply IH].
Qed.

(** [Fields] and [Join] leave a spaced text alone. *)
Lemma fields_spaced l cur : (∀ r, r ∈ l → r.2 ≠ "") → spaced (cur =? "") l = true →
  Join (fields l cur) " " = cur +:+ texts l.
Proof.
  revert cur. induction l as [|r l IH]; intros cur Hne; cbn [spaced fields texts].
  - case_bool_decide; [done|]. intros _. cbn. by rewrite string_app_nil_r.
  - assert (r.2 ≠ "") as Hr by (apply Hne; left). assert (∀ x, x ∈ l → x.2 ≠ "") as Hl by (intros x Hx; apply Hne; by right).
    destruct (is_space r) eqn:Hs.
    + case_bool_decide as Hc; [done|]. cbn [negb andb]. intros [H H0]%andb_true_iff. apply bool_decide_eq_true in H as ->.
      assert (fields l "" ≠ []) as Hf.
      { destruct l as [|x l']; [done|]. intros Hf. specialize (IH "" Hl H0). rewrite Hf in IH. cbn [texts Join] in IH.
        symmetry in IH. destruct x.2 eqn:Ex; [|done]. by apply (Hl x); [left|]. }
      specialize (IH "" Hl H0). destruct (fields l "") as [|y k]; [done|].
      change (cur +:+ " " +:+ Join (y :: k) " " = cur +:+ blank.2 +:+ texts l). by rewrite IH.
    + intros H. rewrite IH; [|done|].
      * by rewrite string_app_assoc.
      * rewrite bool_decide_false; [done|]. by destruct cur, r.2.
Qed.

Lemma texts_empty l : (∀ r, r ∈ l → r.2 ≠ "") → texts l = "" → l = [].
Proof.
  destruct l as [|r l]; [done|]. intros Hne. cbn. assert (r.2 ≠ "") by (apply Hne; left). by destruct r.2.
Qed.

(** Every field is a run of runes without white space. *)
Lemma fields_parts l cur p : (∀ r, r ∈ cur ++ l → r.2 ≠ "") → (∀ r, r ∈ cur → is_space r = false) →
  p ∈ fields l (texts cur) →
  ∃ a m b, cur ++ l = a ++ m ++ b ∧ p = texts m ∧ m ≠ [] ∧ ∀ r, r ∈ m → is_space r = false.
Proof.
  revert cur. induction l as [|r l IH]; intros cur Hne Hcur; cbn [fields].
  - case_bool_decide as Hc; [by intros ?%elem_of_nil|]. intros ->%list_elem_of_singleton.
    exists [], cur, []. split_and!; [done|done|by intros ->|done].
  - destruct (is_space r) eqn:Hs.
    + assert (p ∈ fields l "" → ∃ a m b, cur ++ r :: l = a ++ m ++ b ∧ p = texts m ∧ m ≠ [] ∧ ∀ x, x ∈ m → is_space x = false) as Hrest.
      { intros Hp. destruct (IH []) as (a & m & b & Heq & Hm); [|by intros x ?%elem_of_nil|done|].
        - intros x Hx. apply Hne. set_solver.
        - cbn in Heq. exists (cur ++ r :: a), m, b. split; [rewrite Heq; by simplify_list_eq|done]. }
      case_bool_decide as Hc; [done|]. intros [->|Hp]%elem_of_cons; [|auto].
      exists [], cur, (r :: l). split_and!; [done|done|by intros ->|done].
    + replace (texts cur +:+ r.2) with (texts (cur ++ [r])) by (rewrite texts_app; cbn; by rewrite string_app_nil_r).
      intros Hp. destruct (IH (cur ++ [r])) as (a & m & b & Heq & Hm); [| |done|].
      * by rewrite <-app_assoc.
      * intros x [Hx|Hx]%elem_of_app; [auto|by apply list_elem_of_singleton in Hx as ->].
      * exists a, m, b. split; [by rewrite <-Heq, <-app_assoc|done].
Qed.

Lemma Fields_words s p : p ∈ Fields s → runes p ≠ [] ∧ ∀ r, r ∈ runes p → is_space r = false.
Proof.
  intros Hp. destruct (fields_parts (runes s) [] p) as (a & m & b & Heq & -> & Hm & Hsp);
    [intros r; apply rune_nonempty|by intros r ?%elem_of_nil|done|].
  by rewrite (runes_infix _ _ _ _ Heq).
Qed.

Lemma spaced_word l p : l ≠ [] → (∀ r, r ∈ l → is_space r = false) → spaced p l = true.
Proof.
  assert (∀ k, (∀ r, r ∈ k → is_space r = false) → spaced false k = true) as Hf.
  { induction k as [|x k IH]; intros Hk; [done|]. cbn. rewrite (Hk x) by left. apply IH. intros r Hr. apply Hk. by right. }
  destruct l as [|r l]; [done|]. intros _ Hl. cbn. rewrite (Hl r) by left. apply Hf. intros x Hx. apply Hl. by right.
Qed.

Lemma Join_spaced parts : parts ≠ [] →
  (∀ p, p ∈ parts → runes p ≠ [] ∧ ∀ r, r ∈ runes p → is_space r = false) →
  spaced true (runes (Join parts " ")) = true.
Proof.
  induction parts as [|p [|q parts] IH]; intros Hne Hp; [done| |].
  - destruct (Hp p) as [H1 H2]; [left|]. by apply spaced_word.
  - change (Join (p :: q :: parts) " ") with (p +:+ String " "%char (Join (q :: parts) " ")).
    rewrite runes_app, runes_ascii by done. destruct (Hp p) as [H1 H2]; [left|].
    apply spaced_app; [by apply spaced_word|]. cbn [spaced].
    replace (is_space (true, " ")) with true by (vm_compute; reflexivity).
    rewrite bool_decide_true by done. apply IH; [done|]. intros x Hx. apply Hp. by right.
Qed.

(** The runes of a [\[\]rune] converted back to a string. *)
Definition mend (r : bool * string) : bool * string := if r.1 : bool then r else (true, rune_error).

Definition is_rune (r : bool * string) : Prop := ∃ s s', rune_step s r s'.

Lemma runes_are s r : r ∈ runes s → is_rune r.
Proof.
  induction s as [|s r' s' Hstep -> IH] using runes_ind; [by intros ?%elem_of_nil|].
  intros [->|Hr]%elem_of_cons; [by eexists _, _|auto].
Qed.

Lemma rune_error_is : is_rune (true, rune_error).
Proof. exists rune_error, "". by apply step_three. Qed.

Lemma ellipsis_is : is_rune (true, ellipsis).
Proof. exists ellipsis, "". by apply step_three. Qed.

Lemma mend_is r : is_rune r → is_rune (mend r) ∧ (mend r).1 = true.
Proof. intros Hr. destruct r as [[] x]; [done|]. split; [apply rune_error_is|done]. Qed.

Lemma mend_idemp r : mend (mend r) = mend r.
Proof. by destruct r as [[] x]. Qed.

Lemma mend_space r : is_rune r → is_space (mend r) = is_space r ∧ (r = blank → mend r = blank).
Proof.
  intros (s & s' & Hr). split; [|by intros ->]. destruct r as [[] x]; [done|]. inversion Hr as [| | | |a t Ha]; subst.
  transitivity false; [by vm_compute|symmetry]. apply bool_decide_false. cbn [snd]. intros Hin.
  assert (forallb (λ s, match s with String a EmptyString => is_ascii a | _ => true end) space_texts = true) as Hall
    by (vm_compute; reflexivity).
  rewrite forallb_forall in Hall. apply list_elem_of_In, Hall in Hin. congruence.
Qed.

Lemma runes_valid l : (∀ r, r ∈ l → is_rune r ∧ r.1 = true) → runes (texts l) = l.
Proof.
  induction l as [|r l IH]; intros Hl; [done|]. cbn [texts]. destruct (Hl r) as ((s & s' & Hr) & Hv); [left|].
  rewrite (valid_step _ _ _ _ Hr Hv), IH; [done|]. intros x Hx. apply Hl. by right.
Qed.

Lemma take_runes_texts n s : take_runes n s = texts (mend <$> take n (runes s)).
Proof.
  unfold take_runes. induction (take n (runes s)) as [|[[] x] l IH]; [done| |]; cbn; by rewrite IH.
Qed.

Lemma spaced_truncate p l n e : is_space e = false → (∀ r, r ∈ l → is_rune r) →
  spaced p l = true → spaced p ((mend <$> take n l) ++ [e]) = true.
Proof.
  intros He. revert p l. induction n as [|n IH]; intros p l Hl; [intros _; change (spaced p [e] = true); unfold spaced; by rewrite He|].
  destruct l as [|r l]; [intros _; change (spaced p [e] = true); unfold spaced; by rewrite He|]. cbn [take fmap list_fmap app spaced].
  destruct (mend_space r) as [-> Hb]; [apply Hl; left|].
  assert (∀ x, x ∈ l → is_rune x) as Hl' by (intros x Hx; apply Hl; by right).
  destruct (is_space r); [|by apply IH]. rewrite !andb_true_iff, !bool_decide_eq_true. intros [[H1 H2] H3].
  split_and!; [done|auto|by apply IH].
Qed.

Lemma spaced_tight l : spaced true l = true → tight l.
Proof.
  assert (∀ l p, spaced p l = true → ∀ b, last l = Some b → is_space b = false) as Hlast.
  { clear. induction l as [|r l IH]; intros p H b; [done|]. cbn [spaced] in H. destruct l as [|x l].
    - intros [= <-]. destruct (is_space r); [|done]. rewrite andb_false_r in H. done.
    - intros Hb. destruct (is_space r); [apply andb_true_iff in H as [_ H]|]; eapply IH; done. }
  intros H. destruct l as [|r l]; [done|]. destruct (last (r :: l)) as [b|] eqn:Eb; [|by apply last_None in Eb].
  exists r, b. split_and!; [done|done| |by eapply Hlast]. cbn in H. by destruct (is_space r).
Qed.

Lemma spaced_no_newline s p : spaced p (runes s) = true → no_newline s = true.
Proof.
  assert (∀ lo hi c, between lo hi c = true → (128 <= lo)%N → c ≠ newline) as Hb.
  { intros lo hi c H Hlo ->. unfold between in H. rewrite andb_true_iff, !N.leb_le in H. unfold code in H. cbn in H. lia. }
  assert (∀ a, is_ascii a = false → a ≠ newline) as Hna by (intros a Ha ->; discriminate Ha).
  revert p. induction s as [|s r s' Hstep Hs IH] using runes_ind; [done|]. intros p H. rewrite Hs in H.
  assert (no_newline s' = true) as Hs'.
  { cbn [spaced] in H. destruct (is_space r); [apply andb_true_iff in H as [_ H]|]; by eapply IH. }
  apply rune_step_text in Hstep as Htext. destruct Htext as [-> _]. unfold no_newline in *.
  rewrite all_chars_app, Hs', andb_true_r.
  destruct Hstep as [a t Ha|a b t Ha H2|a b c t Ha H3|a b c d t Ha H4|a t Ha]; cbn [snd all_chars];
    rewrite ?andb_true_r, ?andb_true_iff, ?negb_true_iff, ?bool_decide_eq_false; unfold two_ok, three_ok, four_ok in *; bools.
  - intros ->. cbn [spaced] in H. replace (is_space (true, text1 newline)) with true in H by (vm_compute; reflexivity).
    rewrite (bool_decide_false (_ = blank)), andb_false_r in H by done. done.
  - split; [auto|by eapply Hb].
  - split_and!; [auto| |by eapply Hb]. repeat case_match; bools; by eapply Hb.
  - split_and!; [auto| |by eapply Hb|by eapply Hb]. repeat case_match; bools; by eapply Hb.
  - auto.
Qed.

(** A text is spaced or empty. *)
Definition canonical (s : string) : Prop := s = "" ∨ spaced true (runes s) = true.

Lemma canonical_fixed s : canonical s → Join (Fields s) " " = s.
Proof.
  intros [->|Hs]; [done|]. unfold Fields. rewrite fields_spaced; [apply texts_runes|apply rune_nonempty|done].
Qed.

Lemma Fields_canonical s : canonical (Join (Fields s) " ").
Proof.
  destruct (decide (Fields s = [])) as [->|Hne]; [by left|]. right. apply Join_spaced; [done|]. apply Fields_words.
Qed.

(** The normal form of an item: the canonical text, or a truncation of it. *)
Lemma normalize_cases text :
  let n := NormalizeExtractiveConversationItem text in
  (canonical n ∧ length (runes n) ≤ extractiveConversationItemMaxRunes) ∨
  (∃ l, length l = extractiveConversationItemMaxRunes ∧ (mend <$> l) = l ∧
        runes n = l ++ [(true, ellipsis)] ∧ spaced true (runes n) = true).
Proof.
  intros n. unfold n, NormalizeExtractiveConversationItem. set (t := Join (Fields text) " ").
  destruct (Nat.leb_spec (length (runes t)) extractiveConversationItemMaxRunes) as [Hle|Hgt].
  { left. split; [apply Fields_canonical|done]. }
  right. set (l := mend <$> take extractiveConversationItemMaxRunes (runes t)). exists l.
  assert (∀ r, r ∈ l ++ [(true, ellipsis)] → is_rune r ∧ r.1 = true) as Hl.
  { intros r [(x & -> & Hx)%list_elem_of_fmap|Hr]%elem_of_app.
    - apply mend_is, (runes_are t). by eapply (subseteq_take extractiveConversationItemMaxRunes).
    - apply list_elem_of_singleton in Hr as ->. split; [apply ellipsis_is|done]. }
  assert (take_runes extractiveConversationItemMaxRunes t +:+ ellipsis = texts (l ++ [(true, ellipsis)])) as Heq.
  { rewrite texts_app, take_runes_texts. cbn [texts snd]. by rewrite string_app_nil_r. }
  rewrite Heq, runes_valid by done. split_and!; [| |done|].
  - unfold l. rewrite length_fmap, length_take. lia.
  - unfold l. rewrite <-list_fmap_compose. apply list_fmap_ext. intros i x _. apply mend_idemp.
  - apply spaced_truncate; [by vm_compute|apply runes_are|].
    destruct (Fields_canonical text) as [Ht|Ht]; [|done]. fold t in Ht. rewrite Ht in Hgt. cbn in Hgt. lia.
Qed.

(** The normal form of a conversation item is canonical: normalising it again,
    even when it was cut to its bound, gives the same text, it has no white space at
    its ends and no newline, and it never exceeds the bound by more than the ellipsis. *)
Theorem normalize_canonical text :
  let n := NormalizeExtractiveConversationItem text in
  NormalizeExtractiveConversationItem n = n ∧ TrimSpace n = n ∧ no_newline n = true ∧
  length (runes n) ≤ S extractiveConversationItemMaxRunes.
Proof.
  intros n. assert (canonical n) as Hc.
  { destruct (normalize_cases text) as [[H _]|(l & _ & _ & _ & H)]; [done|by right]. }
  split_and!.
  - unfold NormalizeExtractiveConversationItem at 1. rewrite (canonical_fixed n Hc).
    destruct (normalize_cases text) as [[_ H]|(l & Hlen & Hm & Hr & _)]; fold n in H || fold n in Hr.
    { by rewrite (proj2 (Nat.leb_le _ _) H). }
    rewrite Hr, length_app, Hlen. cbn [length].
    rewrite (proj2 (Nat.leb_gt _ _)) by lia.
    rewrite take_runes_texts, Hr, <-Hlen, take_app_length, Hm.
    rewrite <-(texts_runes n), Hr, texts_app. cbn [texts snd]. by rewrite string_app_nil_r.
  - destruct Hc as [->|Hs]; [done|]. by apply TrimSpace_tight, spaced_tight.
  - destruct Hc as [->|Hs]; [done|]. by eapply spaced_no_newline.
  - destruct (normalize_cases text) as [[_ H]|(l & Hlen & _ & Hr & _)]; fold n in H || fold n in Hr; [lia|].
    rewrite Hr, length_app, Hlen. cbn [length]. lia.
Qed.

(** ** Witnesses *)

Lemma parse_render_sample :
  parseExtractiveFallbackSummary
    (RenderExtractiveFallbackSummary ["fix the build"; "  "] [" tests pass "]) =
    Some (["fix the build"], ["tests pass"]) ∧
  clean ["fix the build"; "  "] = ["fix the build"].
Proof.
  split; [|by vm_compute].
  replace ["fix the build"] with (clean ["fix the build"; "  "]) at 2 by (vm_compute; reflexivity).
  replace ["tests pass"] with (clean [" tests pass "]) by (vm_compute; reflexivity).
  apply parse_render.
  - unfold line_items. apply Forall_forall. repeat constructor.
  - unfold line_items. apply Forall_forall. repeat constructor.
  - vm_compute. discriminate.
Defined.

Lemma split_append_exact_witness :
  splitExtractiveFallbackSummary
    (AppendExtractiveConversationDelta "Use tabs." (RenderExtractiveFallbackSummary ["why"] [])) =
    ("Use tabs.", Some (["why"], [])).
Proof.
  refine (eq_trans (split_append_exact "Use tabs." ["why"] [] _ _ _) _).
  - vm_compute. reflexivity.
  - unfold line_items. apply Forall_forall. repeat constructor.
  - unfold line_items. apply Forall_forall. repeat constructor.
  - vm_compute. reflexivity.
Defined.
