(* ===== verification/Memory.v ===== *)
(** * Memory digests

    Models the [MemoryDigest] types and operations of
    [cli/internal/domain/entities.go], [memory_sequence.go] and [memory_claims.go]:
    merging digests along a lineage, rendering their fragments, and the prompt
    projections that leave stored digests alone.  A nil and an empty slice of
    strings are the same list here: no modelled operation tells them apart except
    [json.Marshal] of a claim's paths, which are a [slice].

    [strings.ToLower] consults the Unicode case tables; it is a parameter, and every
    theorem holds for any case mapping. *)
From S2P Require Import Prelude GoStrings Sha256 Values History Utf8 GoJson MemorySummary.

(** ** Data *)

Definition MemoryClaimsVersion : N := 1.

Record MemoryCodeScope := MkMemoryCodeScope {
  cs_Commit : string;
  cs_Parent : string;
  cs_Paths : slice string;
}.

Record MemoryClaim := MkMemoryClaim {
  mc_Kind : string;
  mc_Text : string;
  mc_Code : option MemoryCodeScope;
}.

Record MemoryFragment := MkMemoryFragment {
  mf_SourceSnapshot : string;
  mf_Summary : string;
  mf_KeyFacts : list string;
  mf_OpenTasks : list string;
  mf_TasksAuthoritative : bool;
  mf_Claims : list MemoryClaim;
}.

Record MemoryGraftCoverage := MkMemoryGraftCoverage {
  gv_ProjectionVersion : N;
  gv_ProjectionComplete : bool;
  gv_LineageFingerprint : string;
  gv_GraftSeq : N;
  gv_GraftParents : list string;
  gv_PinnedSources : list string;
}.

Record MemoryDigest := MkMemoryDigest {
  md_SnapshotID : string;
  md_PreviousMemoryHash : string;
  md_Summary : string;
  md_KeyFacts : list string;
  md_OpenTasks : list string;
  md_TasksAuthoritative : bool;
  md_Provider : string;
  md_Fragments : list MemoryFragment;
  md_GraftCoverage : option MemoryGraftCoverage;
  md_ClaimsVersion : N;
}.

Definition empty_digest : MemoryDigest := MkMemoryDigest "" "" "" [] [] false "" [] None 0.

#[export] Instance MemoryCodeScope_eq_dec : EqDecision MemoryCodeScope.
Proof. solve_decision. Defined.
#[export] Instance MemoryClaim_eq_dec : EqDecision MemoryClaim.
Proof. solve_decision. Defined.
#[export] Instance MemoryFragment_eq_dec : EqDecision MemoryFragment.
Proof. solve_decision. Defined.
#[export] Instance MemoryGraftCoverage_eq_dec : EqDecision MemoryGraftCoverage.
Proof. solve_decision. Defined.
#[export] Instance MemoryDigest_eq_dec : EqDecision MemoryDigest.
Proof. solve_decision. Defined.

(** Field updates. *)
Definition with_summary (d : MemoryDigest) (summary : string) : MemoryDigest :=
  MkMemoryDigest (md_SnapshotID d) (md_PreviousMemoryHash d) summary (md_KeyFacts d) (md_OpenTasks d)
    (md_TasksAuthoritative d) (md_Provider d) (md_Fragments d) (md_GraftCoverage d) (md_ClaimsVersion d).

Definition with_view (d : MemoryDigest) (summary : string) (facts tasks : list string) : MemoryDigest :=
  MkMemoryDigest (md_SnapshotID d) (md_PreviousMemoryHash d) summary facts tasks
    (md_TasksAuthoritative d) (md_Provider d) (md_Fragments d) (md_GraftCoverage d) (md_ClaimsVersion d).

Definition with_fragments (d : MemoryDigest) (fragments : list MemoryFragment) : MemoryDigest :=
  MkMemoryDigest (md_SnapshotID d) (md_PreviousMemoryHash d) (md_Summary d) (md_KeyFacts d) (md_OpenTasks d)
    (md_TasksAuthoritative d) (md_Provider d) fragments (md_GraftCoverage d) (md_ClaimsVersion d).

Definition with_claims_version (d : MemoryDigest) (v : N) : MemoryDigest :=
  MkMemoryDigest (md_SnapshotID d) (md_PreviousMemoryHash d) (md_Summary d) (md_KeyFacts d) (md_OpenTasks d)
    (md_TasksAuthoritative d) (md_Provider d) (md_Fragments d) (md_GraftCoverage d) v.

Definition fragment_summary (f : MemoryFragment) (summary : string) : MemoryFragment :=
  MkMemoryFragment (mf_SourceSnapshot f) summary (mf_KeyFacts f) (mf_OpenTasks f)
    (mf_TasksAuthoritative f) (mf_Claims f).

Definition fragment_view (f : MemoryFragment) (summary : string) (facts tasks : list string) : MemoryFragment :=
  MkMemoryFragment (mf_SourceSnapshot f) summary facts tasks (mf_TasksAuthoritative f) (mf_Claims f).

(** ** Deduplication *)

(** One list of [dedupStrings]: the seen set and the output. *)
Definition dedup_step (st : gset string * list string) (s : string) : gset string * list string :=
  let '(seen, out) := st in
  if (s =? "") || bool_decide (s ∈ seen) then st else ({[s]} ∪ seen, out ++ [s]).

Definition dedupStrings (lists : list (list string)) : list string :=
  (foldl (foldl dedup_step) (∅, []) lists).2.

Definition containsString (items : list string) (want : string) : bool :=
  existsb (λ item, item =? want) items.

(** ** Fragments *)

Definition code_scope_json (c : MemoryCodeScope) : json :=
  JObj (str_field "commit" (cs_Commit c) ++ str_omitempty "parent" (cs_Parent c) ++
        field "paths" (slice_json JStr (cs_Paths c))).

Definition claim_json (c : MemoryClaim) : json :=
  JObj (str_field "kind" (mc_Kind c) ++ str_field "text" (mc_Text c) ++
        pointer_omitempty code_scope_json "code" (mc_Code c)).

Definition fragment_json (f : MemoryFragment) : json :=
  JObj (str_field "source_snapshot" (mf_SourceSnapshot f) ++ str_omitempty "summary" (mf_Summary f) ++
        list_omitempty JStr "key_facts" (mf_KeyFacts f) ++ list_omitempty JStr "open_tasks" (mf_OpenTasks f) ++
        omitempty (negb (mf_TasksAuthoritative f)) "tasks_authoritative" (JBool (mf_TasksAuthoritative f)) ++
        list_omitempty claim_json "claims" (mf_Claims f)).

Definition memoryFragmentKey (f : MemoryFragment) : string := encode (fragment_json f).

(** A digest's fragments; one without fragments is promoted as one of its own. *)
Definition memoryFragments (d : MemoryDigest) : list MemoryFragment :=
  match md_Fragments d with
  | _ :: _ => md_Fragments d
  | [] =>
      if (md_SnapshotID d =? "") ||
         ((md_Summary d =? "") && (md_KeyFacts d =? []) && (md_OpenTasks d =? []))
      then []
      else [MkMemoryFragment (md_SnapshotID d) (md_Summary d) (md_KeyFacts d) (md_OpenTasks d)
              (md_TasksAuthoritative d) []]
  end.

Definition merge_step (st : gset string * list MemoryFragment) (f : MemoryFragment) : gset string * list MemoryFragment :=
  let '(seen, out) := st in
  if mf_SourceSnapshot f =? "" then st
  else if bool_decide (memoryFragmentKey f ∈ seen) then st
  else ({[memoryFragmentKey f]} ∪ seen, out ++ [f]).

Definition mergeMemoryFragments (groups : list (list MemoryFragment)) : list MemoryFragment :=
  (foldl (foldl merge_step) (∅, []) groups).2.

Definition HasMemoryClaims (d : MemoryDigest) : bool :=
  existsb (λ f, negb (mf_Claims f =? [])) (md_Fragments d).

(** ** Rendering the fragments *)

Record render_state := MkRender {
  rs_summaries : list string;
  rs_fallbackInsertAt : option nat;
  rs_fallbackUsers : list string;
  rs_fallbackAssistants : list string;
  rs_facts : list string;
  rs_tasks : list string;
}.

(** The summary of one fragment. *)
Definition render_summary (st : render_state) (f : MemoryFragment) : render_state :=
  let summary := TrimSpace (mf_Summary f) in
  if summary =? "" then st
  else
    let '(baseline, fallback) := splitExtractiveFallbackSummary summary in
    let summaries :=
      if (baseline <>? "") && negb (containsString (rs_summaries st) baseline)
      then rs_summaries st ++ [baseline] else rs_summaries st in
    match fallback with
    | Some (users, assistants) =>
        MkRender summaries (Some (length summaries))
          (dedupStrings [rs_fallbackUsers st; users]) (dedupStrings [rs_fallbackAssistants st; assistants])
          (rs_facts st) (rs_tasks st)
    | None =>
        let summaries :=
          if (baseline =? "") && negb (containsString summaries summary)
          then summaries ++ [summary] else summaries in
        MkRender summaries (rs_fallbackInsertAt st) (rs_fallbackUsers st) (rs_fallbackAssistants st)
          (rs_facts st) (rs_tasks st)
    end.

(** The facts and tasks of one fragment. *)
Definition render_structured (st : render_state) (f : MemoryFragment) : render_state :=
  MkRender (rs_summaries st) (rs_fallbackInsertAt st) (rs_fallbackUsers st) (rs_fallbackAssistants st)
    (dedupStrings [rs_facts st; mf_KeyFacts f])
    (if mf_TasksAuthoritative f then dedupStrings [mf_OpenTasks f]
     else dedupStrings [rs_tasks st; mf_OpenTasks f]).

Definition render_fragment (st : render_state) (f : MemoryFragment) : render_state :=
  render_structured (render_summary st f) f.

Definition render_all (fragments : list MemoryFragment) : render_state :=
  foldl render_fragment (MkRender [] None [] [] [] []) fragments.

(** The combined fallback moves to the place of the newest one. *)
Definition rendered_summaries (st : render_state) : list string :=
  match rs_fallbackInsertAt st with
  | Some at_ =>
      take at_ (rs_summaries st) ++
      [RenderExtractiveFallbackSummary (rs_fallbackUsers st) (rs_fallbackAssistants st)] ++
      drop at_ (rs_summaries st)
  | None => rs_summaries st
  end.

Definition blank_line : string := nl +:+ nl.

Definition renderMemoryFragments (out : MemoryDigest) : MemoryDigest :=
  let st := render_all (md_Fragments out) in
  with_view out (Join (rendered_summaries st) blank_line) (rs_facts st) (rs_tasks st).

(** ** Merging *)

Definition raise_claims_version (prior out : MemoryDigest) : MemoryDigest :=
  if (md_ClaimsVersion out <? md_ClaimsVersion prior)%N then with_claims_version out (md_ClaimsVersion prior) else out.

(** Fragments with claims declare the version. *)
Definition declare_claims (out : MemoryDigest) : MemoryDigest :=
  if HasMemoryClaims out && (md_ClaimsVersion out =? 0)%N then with_claims_version out MemoryClaimsVersion else out.

Section case_mapping.
  Context (ToLower : string → string).

Definition mergeLegacyDigests (prior fresh : MemoryDigest) : MemoryDigest :=
  let summary :=
    if (md_Summary prior <>? "") && (md_Summary prior <>? md_Summary fresh) &&
       negb (Contains (ToLower (md_Summary fresh)) (ToLower (md_Summary prior)))
    then if md_Summary fresh =? "" then md_Summary prior
         else md_Summary prior +:+ blank_line +:+ md_Summary fresh
    else md_Summary fresh in
  with_view fresh summary
    (dedupStrings [md_KeyFacts prior; md_KeyFacts fresh])
    (if md_TasksAuthoritative fresh then dedupStrings [md_OpenTasks fresh]
     else dedupStrings [md_OpenTasks prior; md_OpenTasks fresh]).

Definition MergeDigests (prior fresh : MemoryDigest) : MemoryDigest :=
  match memoryFragments prior, memoryFragments fresh with
  | [], [] => raise_claims_version prior (mergeLegacyDigests prior fresh)
  | _, _ =>
      let out := with_fragments fresh (mergeMemoryFragments [memoryFragments prior; memoryFragments fresh]) in
      renderMemoryFragments (declare_claims (raise_claims_version prior out))
  end.

(** The loop of [MergeDigestSequence] that collects the groups; [None] for a digest
    without attributable content, which takes the pairwise path. *)
Fixpoint sequence_groups (digests : list MemoryDigest) (groups : list (list MemoryFragment)) (out : MemoryDigest)
    : option (list (list MemoryFragment) * MemoryDigest) :=
  match digests with
  | [] => Some (groups, out)
  | d :: digests =>
      match memoryFragments d with
      | [] => None
      | f => sequence_groups digests (groups ++ [f]) (raise_claims_version d out)
      end
  end.

Definition MergeDigestSequence (digests : list MemoryDigest) : MemoryDigest :=
  match digests with
  | [] => empty_digest
  | [d] => d
  | first :: rest =>
      match sequence_groups digests [] (List.last digests first) with
      | None => foldl MergeDigests first rest
      | Some (groups, out) =>
          renderMemoryFragments (declare_claims (with_fragments out (mergeMemoryFragments groups)))
      end
  end.

End case_mapping.

(** ** Deduplication by key *)

Lemma foldl_concat {A S} (f : S → A → S) (ls : list (list A)) s : foldl (foldl f) s ls = foldl f s (concat ls).
Proof. revert s. induction ls as [|l ls IH]; intros s; [done|]. cbn. by rewrite IH, foldl_app. Qed.

Definition keys (l : list MemoryFragment) : gset string := list_to_set (memoryFragmentKey <$> l).

(** The fragments a merge may return. *)
Definition merged (l : list MemoryFragment) : Prop :=
  NoDup (memoryFragmentKey <$> l) ∧ ∀ f, f ∈ l → mf_SourceSnapshot f ≠ "".

Lemma keys_snoc l f : {[memoryFragmentKey f]} ∪ keys l = keys (l ++ [f]).
Proof. apply set_eq. intros x. unfold keys. rewrite fmap_app. set_solver. Qed.

Lemma elem_of_keys l k : k ∈ keys l ↔ ∃ f, f ∈ l ∧ memoryFragmentKey f = k.
Proof. unfold keys. rewrite elem_of_list_to_set, list_elem_of_fmap. naive_solver. Qed.

(** One merge, as a function of what was kept so far. *)
Definition keep (out : list MemoryFragment) (f : MemoryFragment) : list MemoryFragment :=
  if (mf_SourceSnapshot f =? "") || bool_decide (memoryFragmentKey f ∈ keys out) then out else out ++ [f].

Lemma merge_step_keep l out : foldl merge_step (keys out, out) l = (keys (foldl keep out l), foldl keep out l).
Proof.
  revert out. induction l as [|f l IH]; intros out; [done|]. cbn [foldl]. unfold merge_step at 2, keep at 2 4.
  destruct (mf_SourceSnapshot f =? ""); [apply IH|]. cbn [orb].
  destruct (bool_decide (memoryFragmentKey f ∈ keys out)); [apply IH|]. rewrite keys_snoc. apply IH.
Qed.

Lemma merge_keep groups : mergeMemoryFragments groups = foldl keep [] (concat groups).
Proof. unfold mergeMemoryFragments. rewrite foldl_concat. change ∅ with (keys []). by rewrite merge_step_keep. Qed.

Lemma merged_nil : merged [].
Proof. split; [constructor|by intros f ?%elem_of_nil]. Qed.

Lemma keep_merged out l : merged out → merged (foldl keep out l).
Proof.
  revert out. induction l as [|f l IH]; intros out Hm; [done|]. apply IH. unfold keep.
  destruct (bool_decide_reflect (mf_SourceSnapshot f = "")); [done|]. cbn [orb].
  case_bool_decide as Hk; [done|]. destruct Hm as [Hn Hs]. split.
  - rewrite fmap_app. apply NoDup_app. split_and!; [done| |apply NoDup_singleton].
    intros k Hk1 Hk2. apply list_elem_of_singleton in Hk2 as ->. apply Hk. by apply elem_of_list_to_set.
  - intros x [Hx|Hx]%elem_of_app; [auto|]. by apply list_elem_of_singleton in Hx as ->.
Qed.

(** Keeping a merged list after another list appends what is new. *)
Lemma keep_prefix out l : ∃ k, foldl keep out l = out ++ k ∧ sublist k l.
Proof.
  revert out. induction l as [|f l IH]; intros out; [exists []; by rewrite app_nil_r|]. cbn [foldl].
  unfold keep at 2. destruct (_ || _).
  - destruct (IH out) as (k & -> & Hk). exists k. split; [done|by constructor].
  - destruct (IH (out ++ [f])) as (k & -> & Hk). exists (f :: k). rewrite <-app_assoc. split; [done|by constructor].
Qed.

Lemma keep_self l : merged l → foldl keep [] l = l.
Proof.
  intros [Hn Hs].
  assert (∀ out, (∀ x y, x ∈ out → y ∈ l → memoryFragmentKey x ≠ memoryFragmentKey y) → foldl keep out l = out ++ l) as H.
  { revert Hn Hs. induction l as [|f l IH]; intros Hn Hs out Hd; [by rewrite app_nil_r|]. cbn [foldl fmap list_fmap] in *.
    apply NoDup_cons in Hn as [Hf Hn]. unfold keep at 2. rewrite bool_decide_false by (apply Hs; left).
    rewrite bool_decide_false by (intros (x & Hx & Heq)%elem_of_keys; by apply (Hd x f Hx); [left|]). cbn [orb].
    rewrite IH; [by rewrite <-app_assoc|done|intros x Hx; apply Hs; by right|].
    intros x y [Hx|Hx]%elem_of_app Hy; [by apply Hd; [|right]|]. apply list_elem_of_singleton in Hx as ->.
    intros Heq. apply Hf. rewrite Heq. by apply list_elem_of_fmap_2. }
  rewrite (H []); [done|]. by intros x y ?%elem_of_nil.
Qed.

Lemma merge_again groups f :
  mergeMemoryFragments [mergeMemoryFragments groups; f] = mergeMemoryFragments (groups ++ [f]).
Proof.
  rewrite !merge_keep, concat_app, foldl_app. cbn [concat]. rewrite !app_nil_r, foldl_app.
  rewrite keep_self; [done|]. apply keep_merged, merged_nil.
Qed.

Lemma merge_complete out l f : f ∈ l → mf_SourceSnapshot f ≠ "" → memoryFragmentKey f ∈ keys (foldl keep out l).
Proof.
  revert out. induction l as [|x l IH]; intros out Hf Hs; [by apply elem_of_nil in Hf|]. cbn [foldl].
  apply elem_of_cons in Hf as [->|Hf]; [|by apply IH].
  destruct (keep_prefix (keep out x) l) as (k & -> & _). unfold keep. rewrite bool_decide_false by done. cbn [orb].
  case_bool_decide as Hk; apply elem_of_keys; [apply elem_of_keys in Hk as (y & Hy & Heq)|].
  - exists y. split; [apply elem_of_app; by left|done].
  - exists x. split; [|done]. rewrite !elem_of_app. left; right. by apply list_elem_of_singleton.
Qed.

(** ** The pairwise fold *)

(** The digest both merges assemble: the last digest's own fields, the highest claims
    version, the merged fragments and their rendering. *)
Definition assemble (d : MemoryDigest) (v : N) (groups : list (list MemoryFragment)) : MemoryDigest :=
  renderMemoryFragments (declare_claims (with_fragments (with_claims_version d v) (mergeMemoryFragments groups))).

Lemma raise_max p d : raise_claims_version p d = with_claims_version d (md_ClaimsVersion d `max` md_ClaimsVersion p).
Proof.
  unfold raise_claims_version. destruct (N.ltb_spec (md_ClaimsVersion d) (md_ClaimsVersion p)).
  - by rewrite N.max_r by lia.
  - rewrite N.max_l by lia. by destruct d.
Qed.

Definition declared (fragments : list MemoryFragment) (v : N) : N :=
  if existsb (λ f, negb (mf_Claims f =? [])) fragments && (v =? 0)%N then MemoryClaimsVersion else v.

Lemma assemble_claims d v groups :
  md_ClaimsVersion (assemble d v groups) = declared (mergeMemoryFragments groups) v.
Proof. unfold assemble, declare_claims, declared, HasMemoryClaims. cbn. by destruct (_ && _). Qed.

Lemma assemble_fragments d v groups : memoryFragments (assemble d v groups) = mergeMemoryFragments groups.
Proof.
  assert (md_Fragments (assemble d v groups) = mergeMemoryFragments groups) as Hf.
  { unfold assemble, declare_claims. by destruct (_ && _). }
  unfold memoryFragments. destruct (mergeMemoryFragments groups) as [|x l] eqn:E; rewrite Hf; [|done].
  unfold assemble, declare_claims. rewrite E. by destruct (md_SnapshotID d =? "") eqn:Hs; cbn; rewrite ?Hs.
Qed.

Lemma declared_again v groups gs :
  declared (mergeMemoryFragments (groups ++ gs)) (declared (mergeMemoryFragments groups) v) =
  declared (mergeMemoryFragments (groups ++ gs)) v.
Proof.
  unfold declared. destruct (v =? 0)%N eqn:Hv; [|by rewrite andb_false_r, Hv].
  destruct (existsb _ (mergeMemoryFragments groups)) eqn:Hg; cbn [andb]; [|by rewrite Hv].
  assert (existsb (λ f, negb (mf_Claims f =? [])) (mergeMemoryFragments (groups ++ gs)) = true) as ->; [|done].
  rewrite merge_keep, concat_app, foldl_app, <-merge_keep.
  destruct (keep_prefix (mergeMemoryFragments groups) (concat gs)) as (k & -> & _). by rewrite existsb_app, Hg.
Qed.

Lemma declared_max groups gs v w :
  declared (mergeMemoryFragments (groups ++ gs)) (w `max` declared (mergeMemoryFragments groups) v) =
  declared (mergeMemoryFragments (groups ++ gs)) (w `max` v).
Proof.
  destruct (N.eq_dec v 0) as [->|Hv].
  - rewrite N.max_0_r. destruct (N.eq_dec w 0) as [->|Hw]; [rewrite N.max_0_l; apply declared_again|].
    unfold declared at 2. destruct (_ && _); [|by rewrite N.max_0_r]. by rewrite N.max_l by (unfold MemoryClaimsVersion; lia).
  - unfold declared at 2. by rewrite (proj2 (N.eqb_neq v 0) Hv), andb_false_r.
Qed.

Lemma assemble_version d v v' groups :
  declared (mergeMemoryFragments groups) v = declared (mergeMemoryFragments groups) v' →
  assemble d v groups = assemble d v' groups.
Proof.
  intros Heq. unfold assemble.
  assert (∀ v, declare_claims (with_fragments (with_claims_version d v) (mergeMemoryFragments groups)) =
    with_fragments (with_claims_version d (declared (mergeMemoryFragments groups) v)) (mergeMemoryFragments groups)) as H.
  { intros x. unfold declare_claims, declared, HasMemoryClaims. cbn. by destruct (_ && _). }
  by rewrite !H, Heq.
Qed.

Lemma last_default {A} (x : A) l d e : List.last (x :: l) d = List.last (x :: l) e.
Proof. revert x. induction l as [|y l IH]; intros x; [done|]. apply (IH y). Qed.

Section fold.
Context (ToLower : string → string).

Lemma MergeDigests_assemble p d : memoryFragments d ≠ [] →
  MergeDigests ToLower p d = assemble d (md_ClaimsVersion d `max` md_ClaimsVersion p) [memoryFragments p; memoryFragments d].
Proof.
  intros Hd. unfold MergeDigests. destruct (memoryFragments d) as [|x l] eqn:E; [done|].
  rewrite raise_max. by destruct (memoryFragments p).
Qed.

Lemma fold_assemble ds d v groups : Forall (λ d, memoryFragments d ≠ []) ds →
  foldl (MergeDigests ToLower) (assemble d v groups) ds =
  assemble (List.last ds d) (foldl (λ v d, md_ClaimsVersion d `max` v)%N v ds) (groups ++ (memoryFragments <$> ds)).
Proof.
  revert d v groups. induction ds as [|x ds IH]; intros d v groups Hall; [cbn; by rewrite app_nil_r|].
  apply Forall_cons in Hall as [Hx Hall]. cbn [foldl fmap list_fmap].
  rewrite MergeDigests_assemble, assemble_fragments, assemble_claims by done.
  replace (assemble x _ _) with (assemble x (md_ClaimsVersion x `max` v) (groups ++ [memoryFragments x])).
  - rewrite IH by done. rewrite <-app_assoc. f_equal. destruct ds; [done|]. exact (last_default _ _ _ _).
  - transitivity (assemble x (md_ClaimsVersion x `max` declared (mergeMemoryFragments groups) v) (groups ++ [memoryFragments x])).
    + apply assemble_version. symmetry. apply declared_max.
    + unfold assemble. by rewrite merge_again.
Qed.

Lemma sequence_groups_Some ds groups out gs o : sequence_groups ds groups out = Some (gs, o) →
  Forall (λ d, memoryFragments d ≠ []) ds ∧ gs = groups ++ (memoryFragments <$> ds) ∧
  o = with_claims_version out (foldl (λ v d, md_ClaimsVersion d `max` v)%N (md_ClaimsVersion out) ds).
Proof.
  revert groups out. induction ds as [|d ds IH]; intros groups out; cbn [sequence_groups].
  - intros [= <- <-]. rewrite app_nil_r. split_and!; [constructor|done|by destruct out].
  - destruct (memoryFragments d) as [|x l] eqn:E; [done|]. intros (Hall & -> & ->)%IH. split_and!.
    + apply Forall_cons. split; [by rewrite E|done].
    + cbn. by rewrite E, <-app_assoc.
    + rewrite raise_max. cbn. by rewrite N.max_comm.
Qed.
End fold.

Lemma fold_max_acc ds v : foldl (λ v d, md_ClaimsVersion d `max` v)%N v ds =
  (v `max` foldl (λ v d, md_ClaimsVersion d `max` v)%N 0 ds)%N.
Proof.
  revert v. induction ds as [|d ds IH]; intros v; cbn [foldl]; [lia|]. rewrite IH, (IH (_ `max` 0)%N). lia.
Qed.

Lemma fold_max_last ds d v : (md_ClaimsVersion (List.last ds d) ≤ md_ClaimsVersion d `max` foldl (λ v d, md_ClaimsVersion d `max` v) v ds)%N.
Proof.
  revert d v. induction ds as [|x ds IH]; intros d v; [cbn; lia|]. cbn [foldl]. rewrite fold_max_acc.
  replace (List.last (x :: ds) d) with (List.last ds x) by (destruct ds; [done|exact (last_default _ _ _ _)]).
  specialize (IH x 0%N). lia.
Qed.

(** C3: merging a sequence of digests at once is the ordered pairwise fold of
    [MergeDigests]: the same fragments, rendering, claims version and remaining
    fields, for any digests, attributed or opaque. *)
Theorem merge_sequence_fold (ToLower : string → string) first rest :
  MergeDigestSequence ToLower (first :: rest) = foldl (MergeDigests ToLower) first rest.
Proof.
  destruct rest as [|second rest]; [done|]. unfold MergeDigestSequence.
  destruct (sequence_groups _ _ _) as [[gs o]|] eqn:E; [|done].
  apply sequence_groups_Some in E as (Hall & -> & ->). apply Forall_cons in Hall as [_ [H2 Hall]%Forall_cons].
  cbn [foldl]. rewrite MergeDigests_assemble, fold_assemble by done. cbn [app fmap list_fmap].
  change (List.last (first :: second :: rest) first) with (List.last (second :: rest) first).
  replace (List.last (second :: rest) first) with (List.last rest second) by (destruct rest; [done|exact (last_default _ _ _ _)]).
  change (renderMemoryFragments (declare_claims (with_fragments (with_claims_version ?d ?v) (mergeMemoryFragments ?g))))
    with (assemble d v g).
  f_equal. cbn [foldl]. etransitivity; [apply fold_max_acc|symmetry; etransitivity; [apply fold_max_acc|]].
  pose proof (fold_max_last rest second 0). lia.
Qed.

(** Merging two digests keeps the inherited fragments first and loses none: the
    attributed fragments of the prior digest come first, in order; only fragments of
    the fresh digest follow; keys are unique and every attributed fragment of either
    digest is represented. *)
Theorem merge_inherits (ToLower : string → string) prior fresh :
  merged (md_Fragments prior) → memoryFragments fresh ≠ [] →
  ∃ new, md_Fragments (MergeDigests ToLower prior fresh) = mergeMemoryFragments [memoryFragments prior] ++ new ∧
    sublist new (memoryFragments fresh) ∧ merged (md_Fragments (MergeDigests ToLower prior fresh)) ∧
    (md_Fragments prior ≠ [] → mergeMemoryFragments [memoryFragments prior] = md_Fragments prior) ∧
    ∀ f, f ∈ memoryFragments prior ++ memoryFragments fresh → mf_SourceSnapshot f ≠ "" →
      memoryFragmentKey f ∈ keys (md_Fragments (MergeDigests ToLower prior fresh)).
Proof.
  intros Hp Hf. rewrite MergeDigests_assemble by done.
  assert (md_Fragments (assemble fresh (md_ClaimsVersion fresh `max` md_ClaimsVersion prior)
    [memoryFragments prior; memoryFragments fresh]) = mergeMemoryFragments [memoryFragments prior; memoryFragments fresh]) as ->.
  { unfold assemble, declare_claims. by destruct (_ && _). }
  rewrite !merge_keep. cbn [concat]. rewrite !app_nil_r. rewrite foldl_app.
  destruct (keep_prefix (foldl keep [] (memoryFragments prior)) (memoryFragments fresh)) as (k & Hk & Hsub).
  exists k. split_and!; [done|done|apply keep_merged, keep_merged, merged_nil| |].
  - intros Hne. unfold memoryFragments. destruct (md_Fragments prior) as [|x l] eqn:E; [done|]. by apply keep_self.
  - intros f Hin Hs. rewrite <-foldl_app. by apply merge_complete.
Qed.

(** ** The rendered view *)

Definition dedup_keep (out : list string) (s : string) : list string :=
  if (s =? "") || bool_decide (s ∈ out) then out else out ++ [s].

Lemma dedup_keep_eq lists : dedupStrings lists = foldl dedup_keep [] (concat lists).
Proof.
  assert (∀ l out, foldl dedup_step (list_to_set out, out) l = (list_to_set (foldl dedup_keep out l), foldl dedup_keep out l)) as H.
  { induction l as [|s l IH]; intros out; [done|]. cbn [foldl]. unfold dedup_step at 2, dedup_keep at 2 4.
    destruct (s =? ""); [apply IH|]. cbn [orb].
    rewrite (bool_decide_ext (s ∈ (list_to_set out : gset string)) (s ∈ out)) by by rewrite elem_of_list_to_set.
    case_bool_decide; [apply IH|]. rewrite <-IH. do 2 f_equal. apply set_eq. intros x.
    rewrite elem_of_union, elem_of_singleton, !elem_of_list_to_set, elem_of_app, list_elem_of_singleton. tauto. }
  unfold dedupStrings. rewrite foldl_concat. change ∅ with (list_to_set (C := gset string) []). by rewrite H.
Qed.

(** Nonempty strings without duplicates, in order of first occurrence. *)
Definition distinct (l : list string) : Prop := NoDup l ∧ "" ∉ l.

Lemma dedup_keep_distinct out l : distinct out → distinct (foldl dedup_keep out l).
Proof.
  revert out. induction l as [|s l IH]; intros out [Hn He]; [done|]. apply IH. unfold dedup_keep.
  destruct (bool_decide_reflect (s = "")); [done|]. cbn [orb]. case_bool_decide; [done|]. split.
  - apply NoDup_app. split_and!; [done| |apply NoDup_singleton]. intros x Hx Hs.
    by apply list_elem_of_singleton in Hs as ->.
  - rewrite elem_of_app, list_elem_of_singleton. naive_solver.
Qed.

Lemma dedup_keep_self l : distinct l → foldl dedup_keep [] l = l.
Proof.
  assert (∀ out, distinct (out ++ l) → foldl dedup_keep out l = out ++ l) as H; [|apply (H [])].
  induction l as [|s l IH]; intros out Hd; [by rewrite app_nil_r|]. cbn [foldl]. unfold dedup_keep at 2.
  destruct Hd as [Hn He]. rewrite bool_decide_false by (intros ->; apply He; rewrite elem_of_app; right; left).
  rewrite bool_decide_false; [|intros Hs; apply NoDup_app in Hn as (_ & Hn & _); apply (Hn s Hs); left].
  cbn [orb]. rewrite IH; [by rewrite <-app_assoc|]. by rewrite <-app_assoc.
Qed.

Lemma distinct_dedup lists : distinct (dedupStrings lists).
Proof. rewrite dedup_keep_eq. apply dedup_keep_distinct. split; [constructor|by apply not_elem_of_nil]. Qed.

Lemma dedup_again lists l : dedupStrings [dedupStrings lists; l] = dedupStrings (lists ++ [l]).
Proof.
  rewrite (dedup_keep_eq [_; l]), (dedup_keep_eq (lists ++ [l])), concat_app, foldl_app. cbn [concat].
  rewrite !app_nil_r, foldl_app, <-dedup_keep_eq. by rewrite dedup_keep_self by apply distinct_dedup.
Qed.

Lemma elem_of_dedup x lists : x ∈ dedupStrings lists ↔ x ≠ "" ∧ ∃ l, x ∈ l ∧ l ∈ lists.
Proof.
  rewrite dedup_keep_eq, <-elem_of_concat.
  assert (∀ l out, x ∈ foldl dedup_keep out l ↔ x ∈ out ∨ (x ≠ "" ∧ x ∈ l)) as H.
  { induction l as [|s l IH]; intros out; cbn [foldl].
    - split; [by left|]. by intros [?|[_ ?%elem_of_nil]].
    - rewrite IH, elem_of_cons. unfold dedup_keep. destruct (bool_decide_reflect (s = "")) as [->|Hs]; cbn [orb].
      + naive_solver.
      + case_bool_decide; [naive_solver|]. rewrite elem_of_app, list_elem_of_singleton. naive_solver. }
  rewrite H. split; [|naive_solver]. by intros [?%elem_of_nil|?].
Qed.

(** The fragments from the newest task authority on; all of them without one. *)
Fixpoint since_authority (l : list MemoryFragment) : list MemoryFragment :=
  match l with
  | [] => []
  | f :: l' => if existsb mf_TasksAuthoritative l' then since_authority l' else f :: l'
  end.

Lemma since_authority_snoc l f :
  since_authority (l ++ [f]) = if mf_TasksAuthoritative f then [f] else since_authority l ++ [f].
Proof.
  induction l as [|x l IH]; cbn [app since_authority existsb]; [by destruct (mf_TasksAuthoritative f)|].
  rewrite existsb_app, IH. cbn [existsb]. rewrite orb_false_r.
  destruct (mf_TasksAuthoritative f); [by rewrite orb_true_r|]. rewrite orb_false_r.
  by destruct (existsb mf_TasksAuthoritative l).
Qed.

Lemma render_summary_structured st f :
  rs_facts (render_summary st f) = rs_facts st ∧ rs_tasks (render_summary st f) = rs_tasks st.
Proof.
  unfold render_summary. case_bool_decide; [done|].
  destruct (splitExtractiveFallbackSummary _) as [baseline [[users assistants]|]]; done.
Qed.

Lemma render_all_snoc l f : render_all (l ++ [f]) = render_fragment (render_all l) f.
Proof. unfold render_all. by rewrite foldl_app. Qed.

Lemma render_structured_view out :
  md_KeyFacts (renderMemoryFragments out) = dedupStrings (mf_KeyFacts <$> md_Fragments out) ∧
  md_OpenTasks (renderMemoryFragments out) = dedupStrings (mf_OpenTasks <$> since_authority (md_Fragments out)).
Proof.
  unfold renderMemoryFragments. cbn [md_KeyFacts md_OpenTasks with_view].
  induction (md_Fragments out) as [|f l [IHf IHt]] using rev_ind; [done|].
  rewrite render_all_snoc. unfold render_fragment, render_structured. cbn [rs_facts rs_tasks].
  destruct (render_summary_structured (render_all l) f) as [-> ->]. rewrite since_authority_snoc, IHf, IHt.
  rewrite fmap_app. split; [apply dedup_again|]. destruct (mf_TasksAuthoritative f); [done|].
  rewrite fmap_app. apply dedup_again.
Qed.

(** The rendered view of a digest lists every fact of its fragments once, oldest
    first, and the tasks of the fragments since the newest task authority only: a
    fragment that lists its tasks authoritatively retires all earlier ones. *)
Theorem render_structured_exact out :
  md_KeyFacts (renderMemoryFragments out) = dedupStrings (mf_KeyFacts <$> md_Fragments out) ∧
  md_OpenTasks (renderMemoryFragments out) = dedupStrings (mf_OpenTasks <$> since_authority (md_Fragments out)).
Proof. apply render_structured_view. Qed.

(** ** Witnesses *)

Module MemorySamples.
Definition fragment (source summary : string) (facts tasks : list string) : MemoryFragment :=
  MkMemoryFragment source summary facts tasks false [].

Definition prior : MemoryDigest :=
  MkMemoryDigest "a" "" "" [] [] false "claude" [fragment "a" "first" ["f1"] ["t1"]] None 0.
Definition fresh : MemoryDigest :=
  MkMemoryDigest "b" "" "second" ["f2"] [] false "codex" [] None 0.
End MemorySamples.

Lemma merge_inherits_witness :
  ∃ new, md_Fragments (MergeDigests ToLower MemorySamples.prior MemorySamples.fresh) =
    mergeMemoryFragments [memoryFragments MemorySamples.prior] ++ new ∧
    sublist new (memoryFragments MemorySamples.fresh).
Proof.
  destruct (merge_inherits ToLower MemorySamples.prior MemorySamples.fresh) as (new & H1 & H2 & _).
  - split; [apply NoDup_singleton|]. intros f Hf. apply list_elem_of_singleton in Hf as ->. discriminate.
  - vm_compute. discriminate.
  - exists new. split; [exact H1|exact H2].
Defined.
