(* ===== verification/MemoryProjection.v ===== *)
(** * Prompt projections of memory digests

    Models the [Without...] functions of [cli/internal/domain/entities.go]: copies of
    a digest for a prompt that already carries part of its text, and
    [ValidateMemoryClaims] of [memory_claims.go].  All of them rewrite the summaries
    of fragments and render the digest again; the stored digest is not touched.

    [replayed_items_removed], [autoloaded_prefix_removed] and
    [replayed_summary_revives_nothing] say what each of them removes,
    [projections_keep_structure] what all of them preserve, and [memory_claims_exact]
    which claims are accepted. *)
From S2P Require Import Prelude GoStrings Sha256 Values History Utf8 GoJson MemorySummary Memory.
From Stdlib Require Import Ascii.

(** ** The projections *)

Definition WithoutConversationDeltaFromSource (d : MemoryDigest) (source : string) : MemoryDigest :=
  if source =? "" then d
  else
    match md_Fragments d with
    | [] =>
        if md_SnapshotID d =? source then
          match splitExtractiveFallbackSummary (md_Summary d) with
          | (baseline, Some _) => with_summary d baseline
          | (_, None) => d
          end
        else d
    | fragments =>
        renderMemoryFragments (with_fragments d
          ((λ f, if mf_SourceSnapshot f <>? source then f
                 else match splitExtractiveFallbackSummary (mf_Summary f) with
                      | (baseline, Some _) => fragment_summary f baseline
                      | (_, None) => f
                      end) <$> fragments))
    end.

Definition normalizedSet (items : list string) : gset string :=
  foldl (λ (out : gset string) item,
    let item := NormalizeExtractiveConversationItem item in
    if item =? "" then out else {[item]} ∪ out) ∅ items.

(** The items of a fallback that were not replayed. *)
Definition kept_items (replayed : gset string) (items : list string) : list string :=
  filter (λ item, NormalizeExtractiveConversationItem item ∉ replayed) items.

Definition filter_replayed (users assistants : gset string) (summary : string) : string :=
  match splitExtractiveFallbackSummary summary with
  | (_, None) => summary
  | (baseline, Some (fallbackUsers, fallbackAssistants)) =>
      let keptUsers := kept_items users fallbackUsers in
      let keptAssistants := kept_items assistants fallbackAssistants in
      let delta :=
        if (keptUsers =? []) && (keptAssistants =? []) then ""
        else RenderExtractiveFallbackSummary keptUsers keptAssistants in
      AppendExtractiveConversationDelta baseline delta
  end.

Definition WithoutExactReplayedConversationItems (d : MemoryDigest) (replayedUsers replayedAssistants : list string)
    : MemoryDigest :=
  let users := normalizedSet replayedUsers in
  let assistants := normalizedSet replayedAssistants in
  match md_Fragments d with
  | [] => with_summary d (filter_replayed users assistants (md_Summary d))
  | fragments =>
      renderMemoryFragments (with_fragments d
        ((λ f, fragment_summary f (filter_replayed users assistants (mf_Summary f))) <$> fragments))
  end.

(** The summary without an exact baseline, and whether it matched. *)
Definition strip_replayed (exact summary : string) : string * bool :=
  match splitExtractiveFallbackSummary summary with
  | (baseline, Some (users, assistants)) =>
      if TrimSpace baseline <>? exact then (summary, false)
      else (if (users =? []) && (assistants =? []) then ""
            else RenderExtractiveFallbackSummary users assistants, true)
  | (_, None) => if TrimSpace summary =? exact then ("", true) else (summary, false)
  end.

Definition WithoutExactReplayedSummary (d : MemoryDigest) (exact : string) : MemoryDigest :=
  let exact := TrimSpace exact in
  if exact =? "" then d
  else
    match md_Fragments d with
    | [] =>
        match strip_replayed exact (md_Summary d) with
        | (summary, true) =>
            let out := with_view d summary [] [] in
            if md_TasksAuthoritative d && (summary =? "") && (md_SnapshotID d <>? "")
            then with_fragments out [MkMemoryFragment (md_SnapshotID d) "" [] [] true []]
            else out
        | (_, false) => d
        end
    | fragments =>
        if existsb (λ f, (strip_replayed exact (mf_Summary f)).2) fragments then
          renderMemoryFragments (with_fragments d
            ((λ f, match strip_replayed exact (mf_Summary f) with
                   | (summary, true) => fragment_view f summary [] []
                   | (_, false) => f
                   end) <$> fragments))
        else d
    end.

Definition strip_loaded (full remaining summary : string) : string :=
  match splitExtractiveFallbackSummary summary with
  | (baseline, Some (users, assistants)) =>
      if TrimSpace baseline <>? full then summary
      else AppendExtractiveConversationDelta remaining (RenderExtractiveFallbackSummary users assistants)
  | (_, None) => if TrimSpace summary =? full then remaining else summary
  end.

Definition WithoutAutoLoadedSummaryPrefix (d : MemoryDigest) (full loadedPrefix : string) : MemoryDigest :=
  let full := TrimSpace full in
  let loadedPrefix := TrimSpace loadedPrefix in
  if (full =? "") || (loadedPrefix =? "") || negb (HasPrefix full loadedPrefix) then d
  else
    let remaining := TrimSpace (TrimPrefix full loadedPrefix) in
    match md_Fragments d with
    | [] => with_summary d (strip_loaded full remaining (md_Summary d))
    | fragments =>
        renderMemoryFragments (with_fragments d
          ((λ f, fragment_summary f (strip_loaded full remaining (mf_Summary f))) <$> fragments))
    end.

Definition WithoutExactSummaryBaseline (d : MemoryDigest) (exact : string) : MemoryDigest :=
  WithoutAutoLoadedSummaryPrefix d exact exact.

(** ** Claims *)

(** One path of a code claim; the state is the seen paths. *)
Definition claim_path (seen : gset string) (p : string) : result (gset string) :=
  reject_if ((p =? "") || (4096 <? String.length p)%nat || HasPrefix p "/" ||
             has_char (λ c, code c =? 0)%N p || bool_decide (p ∈ seen)) ErrUnclassified ;;
  for_each (λ part, reject_if ((part =? "") || (part =? ".") || (part =? "..")) ErrUnclassified) (Split p "/"%char) ;;
  Ok ({[p]} ∪ seen).

Definition claim_code (c : MemoryClaim) : result unit :=
  match mc_Code c with
  | None => Err ErrUnclassified
  | Some s =>
      reject_if (negb (memoryClaimOID (cs_Commit s)) ||
                 ((cs_Parent s <>? "") &&
                  (negb (memoryClaimOID (cs_Parent s)) || (String.length (cs_Parent s) <>? String.length (cs_Commit s)))))
        ErrUnclassified ;;
      reject_if ((length (elems (cs_Paths s)) =? 0)%nat || (20 <? length (elems (cs_Paths s)))%nat) ErrUnclassified ;;
      fold_each claim_path (elems (cs_Paths s)) ∅ ;; Ok tt
  end.

Definition claim_valid (version : N) (c : MemoryClaim) : result unit :=
  reject_if (negb (version =? MemoryClaimsVersion)%N) ErrUnclassified ;;
  reject_if ((TrimSpace (mc_Text c) =? "") || (8192 <? String.length (mc_Text c))%nat) ErrUnclassified ;;
  if (mc_Kind c =? "decision") || (mc_Kind c =? "rationale") then
    reject_if (bool_decide (is_Some (mc_Code c))) ErrUnclassified
  else if mc_Kind c =? "code" then claim_code c
  else Err ErrUnclassified.

(** One fragment; the state is the running total of claims. *)
Definition claim_fragment (version : N) (total : nat) (f : MemoryFragment) : result nat :=
  let total := total + length (mf_Claims f) in
  reject_if ((256 <? length (mf_Claims f))%nat || (2048 <? total)%nat) ErrUnclassified ;;
  (if (0 <? length (mf_Claims f))%nat then ValidateContentHash (mf_SourceSnapshot f) else Ok tt) ;;
  for_each (claim_valid version) (mf_Claims f) ;;
  Ok total.

Definition ValidateMemoryClaims (d : MemoryDigest) : result unit :=
  reject_if (negb (md_ClaimsVersion d =? 0)%N && negb (md_ClaimsVersion d =? MemoryClaimsVersion)%N) ErrUnclassified ;;
  fold_each (claim_fragment (md_ClaimsVersion d)) (md_Fragments d) 0 ;;
  Ok tt.

(** ** Normal items *)

(** An item as the distiller stores it. *)
Definition stored_item (i : string) : Prop := i ≠ "" ∧ NormalizeExtractiveConversationItem i = i.

Lemma stored_item_text i : stored_item i → TrimSpace i = i ∧ no_newline i = true.
Proof.
  intros [Hne Hn]. rewrite <-Hn. destruct (normalize_cases i) as [[Hc _]|(l & _ & _ & _ & Hs)].
  - destruct Hc as [Hc|Hc]; [congruence|].
    split; [by apply TrimSpace_tight, spaced_tight|by eapply spaced_no_newline].
  - split; [by apply TrimSpace_tight, spaced_tight|by eapply spaced_no_newline].
Qed.

Lemma stored_clean items : (∀ i, i ∈ items → stored_item i) → clean items = items ∧ line_items items.
Proof.
  intros Hi. split; [|by intros i [_ ?]%Hi%stored_item_text]. induction items as [|i items IH]; [done|].
  rewrite clean_cons. destruct (stored_item_text i) as [-> _]; [apply Hi; left|].
  rewrite bool_decide_false by (apply Hi; left). f_equal. apply IH. intros x Hx. apply Hi. by right.
Qed.

(** Splitting a stored summary. *)
Lemma split_stored b u a : TrimSpace b = b → (∀ i, i ∈ u ++ a → stored_item i) → u ++ a ≠ [] →
  splitExtractiveFallbackSummary (AppendExtractiveConversationDelta b (RenderExtractiveFallbackSummary u a)) =
  (b, Some (u, a)).
Proof.
  intros Hb Hi Hne. destruct (stored_clean u) as [Hu Hlu]; [intros i ?; apply Hi, elem_of_app; by left|].
  destruct (stored_clean a) as [Ha Hla]; [intros i ?; apply Hi, elem_of_app; by right|].
  pose proof (split_append b u a Hb Hlu Hla) as Hs. rewrite Hu, Ha in Hs. auto.
Qed.

Lemma elem_of_normalizedSet x items :
  x ∈ normalizedSet items ↔ x ≠ "" ∧ ∃ i, i ∈ items ∧ x = NormalizeExtractiveConversationItem i.
Proof.
  unfold normalizedSet. induction items as [|i items IH] using rev_ind; [split; [by intros ?%elem_of_empty|by intros (_ & i & ?%elem_of_nil & _)]|].
  rewrite foldl_app. cbn [foldl]. case_bool_decide as Hn.
  - rewrite IH. split; intros (Hx & j & Hj & ->); split; try done.
    + exists j. split; [apply elem_of_app; by left|done].
    + apply elem_of_app in Hj as [Hj|Hj]; [eauto|]. apply list_elem_of_singleton in Hj as ->. done.
  - rewrite elem_of_union, elem_of_singleton, IH. split.
    + intros [->|(Hx & j & Hj & ->)]; [|split; [done|exists j; split; [apply elem_of_app; by left|done]]].
      split; [done|]. exists i. split; [apply elem_of_app; right; by apply list_elem_of_singleton|done].
    + intros (Hx & j & [Hj|Hj]%elem_of_app & ->); [right; eauto|left]. by apply list_elem_of_singleton in Hj as ->.
Qed.

(** The items whose text is not the normal form of a replayed message. *)
Definition unreplayed (replayed items : list string) : list string :=
  filter (λ i, i ∉ NormalizeExtractiveConversationItem <$> replayed) items.

Lemma kept_unreplayed replayed items : (∀ i, i ∈ items → stored_item i) →
  kept_items (normalizedSet replayed) items = unreplayed replayed items.
Proof.
  intros Hi. apply filter_ext_elem. intros i [Hne Hn]%Hi. rewrite Hn, elem_of_normalizedSet, list_elem_of_fmap. naive_solver.
Qed.

(** ** What the projections do *)

(** A digest whose view is the rendering of its fragments. *)
Definition rendered (d : MemoryDigest) : Prop := md_Fragments d ≠ [] ∧ renderMemoryFragments d = d.

(** A map on fragments that rewrites only their summaries. *)
Definition summary_map (g : MemoryFragment → MemoryFragment) : Prop := ∀ f, ∃ s, g f = fragment_summary f s.

Lemma since_authority_map g l : summary_map g → since_authority (g <$> l) = g <$> since_authority l.
Proof.
  intros Hg. assert (∀ f, mf_TasksAuthoritative (g f) = mf_TasksAuthoritative f) as Ht.
  { intros f. by destruct (Hg f) as [s ->]. }
  assert (∀ k, existsb mf_TasksAuthoritative (g <$> k) = existsb mf_TasksAuthoritative k) as He.
  { induction k as [|x k IH]; [done|]. cbn. by rewrite Ht, IH. }
  induction l as [|f l IH]; [done|]. cbn [fmap list_fmap since_authority]. rewrite He, IH.
  by destruct (existsb mf_TasksAuthoritative l).
Qed.

Lemma fmap_fields g (l : list MemoryFragment) : summary_map g →
  mf_KeyFacts <$> (g <$> l) = mf_KeyFacts <$> l ∧ mf_OpenTasks <$> (g <$> l) = mf_OpenTasks <$> l.
Proof.
  intros Hg. rewrite <-!list_fmap_compose. split; apply list_fmap_ext; intros i f _; cbn; by destruct (Hg f) as [s ->].
Qed.

Lemma projected_structure g d : summary_map g → rendered d →
  let d' := renderMemoryFragments (with_fragments d (g <$> md_Fragments d)) in
  md_Fragments d' = g <$> md_Fragments d ∧ md_KeyFacts d' = md_KeyFacts d ∧ md_OpenTasks d' = md_OpenTasks d ∧
  md_ClaimsVersion d' = md_ClaimsVersion d ∧ md_SnapshotID d' = md_SnapshotID d.
Proof.
  intros Hg [_ Hr] d'. destruct (render_structured_view d) as [Hf Ht]. rewrite Hr in Hf, Ht.
  destruct (render_structured_view (with_fragments d (g <$> md_Fragments d))) as [Hf' Ht']. fold d' in Hf', Ht'.
  rewrite Hf', Ht', Hf, Ht. cbn [md_Fragments with_fragments]. rewrite (since_authority_map g _ Hg).
  destruct (fmap_fields g (md_Fragments d) Hg) as [-> _], (fmap_fields g (since_authority (md_Fragments d)) Hg) as [_ ->].
  done.
Qed.

Lemma without_delta_map source : summary_map (λ f,
  if mf_SourceSnapshot f <>? source then f
  else match splitExtractiveFallbackSummary (mf_Summary f) with
       | (baseline, Some _) => fragment_summary f baseline
       | (_, None) => f
       end).
Proof.
  intros f. destruct (mf_SourceSnapshot f <>? source); [exists (mf_Summary f); by destruct f|].
  destruct (splitExtractiveFallbackSummary (mf_Summary f)) as [b [x|]]; [by exists b|]. exists (mf_Summary f). by destruct f.
Qed.

(** The prompt projections keep the structure of a rendered digest: removing a
    source's conversation delta, replayed conversation items or an auto-loaded prefix
    changes no fact, no task, no claims version, and rewrites the fragments one by one,
    each keeping its source, facts, tasks, authority and claims. *)
Theorem projections_keep_structure d source users assistants full prefix :
  rendered d →
  ∀ d', d' ∈ [WithoutConversationDeltaFromSource d source;
              WithoutExactReplayedConversationItems d users assistants;
              WithoutAutoLoadedSummaryPrefix d full prefix] →
  md_KeyFacts d' = md_KeyFacts d ∧ md_OpenTasks d' = md_OpenTasks d ∧
  md_ClaimsVersion d' = md_ClaimsVersion d ∧ md_SnapshotID d' = md_SnapshotID d ∧
  Forall2 (λ f f', f' = fragment_summary f (mf_Summary f')) (md_Fragments d) (md_Fragments d').
Proof.
  intros Hr d' Hd'.
  assert (d' = d ∨ ∃ g, summary_map g ∧ d' = renderMemoryFragments (with_fragments d (g <$> md_Fragments d))) as [->|(g & Hg & ->)].
  { destruct (md_Fragments d) as [|f l] eqn:Ef; [by destruct Hr as [? _]|].
    rewrite !elem_of_cons in Hd'. destruct Hd' as [->|[->|[->|Hd'%elem_of_nil]]]; [..|done].
    - unfold WithoutConversationDeltaFromSource. destruct (source =? ""); [by left|right]. rewrite Ef.
      eexists. split; [apply (without_delta_map source)|done].
    - right. unfold WithoutExactReplayedConversationItems. rewrite Ef. eexists. split; [|done]. intros x. by eexists.
    - unfold WithoutAutoLoadedSummaryPrefix. destruct (_ || _); [by left|right]. rewrite Ef.
      eexists. split; [|done]. intros x. by eexists. }
  - split_and!; [done..|]. apply Forall_Forall2_diag, Forall_forall. intros f _. by destruct f.
  - destruct (projected_structure g d Hg Hr) as (Hf & H1 & H2 & H3 & H4). split_and!; [done..|].
    rewrite Hf. apply Forall2_fmap_r, Forall_Forall2_diag, Forall_forall. intros f _. unfold compose. destruct (Hg f) as [s Hs]. by rewrite Hs.
Qed.

(** Replayed messages are removed exactly: in a fragment whose summary is a trimmed
    baseline with stored items, the projection keeps the baseline, removes the items
    whose text is the normal form of a replayed message of the same role, and keeps
    every other item in order; what is left is read back as such. *)
Theorem replayed_items_removed d users assistants i f b u a :
  md_Fragments d !! i = Some f →
  mf_Summary f = AppendExtractiveConversationDelta b (RenderExtractiveFallbackSummary u a) →
  TrimSpace b = b → (∀ x, x ∈ u ++ a → stored_item x) → u ++ a ≠ [] →
  let ku := unreplayed users u in
  let ka := unreplayed assistants a in
  ∃ f', md_Fragments (WithoutExactReplayedConversationItems d users assistants) !! i = Some f' ∧
    (ku ++ ka = [] → mf_Summary f' = b) ∧
    (ku ++ ka ≠ [] → splitExtractiveFallbackSummary (mf_Summary f') = (b, Some (ku, ka))).
Proof.
  intros Hi Hs Hb Hst Hne ku ka.
  exists (fragment_summary f (filter_replayed (normalizedSet users) (normalizedSet assistants) (mf_Summary f))).
  assert (filter_replayed (normalizedSet users) (normalizedSet assistants) (mf_Summary f) =
    AppendExtractiveConversationDelta b (if (ku =? []) && (ka =? []) then "" else RenderExtractiveFallbackSummary ku ka)) as Heq.
  { unfold filter_replayed. rewrite Hs, split_stored by done.
    rewrite !kept_unreplayed by (intros x Hx; apply Hst, elem_of_app; auto). done. }
  split_and!.
  - unfold WithoutExactReplayedConversationItems. destruct (md_Fragments d) as [|x l] eqn:E; [done|].
    cbn [md_Fragments renderMemoryFragments with_view with_fragments]. by rewrite list_lookup_fmap, Hi.
  - intros [Hu Ha]%app_eq_nil. cbn [mf_Summary fragment_summary]. rewrite Heq, Hu, Ha. done.
  - intros Hk. cbn [mf_Summary fragment_summary]. rewrite Heq.
    replace ((ku =? []) && (ka =? [])) with false by (destruct ku, ka; done).
    apply split_stored; [done| |done]. intros x Hx. apply Hst. revert Hx. rewrite !elem_of_app. unfold ku, ka, unreplayed.
    rewrite !list_elem_of_filter. tauto.
Qed.

(** An auto-loaded prefix is removed from exact baselines only: a stored summary
    whose baseline is the full native memory keeps the rest of it and all its
    conversation items; a summary with another baseline is left alone. *)
Theorem autoloaded_prefix_removed d prefix rest i f b u a :
  let full := prefix +:+ rest in
  md_Fragments d !! i = Some f → TrimSpace full = full → TrimSpace prefix = prefix → prefix ≠ "" →
  mf_Summary f = AppendExtractiveConversationDelta b (RenderExtractiveFallbackSummary u a) →
  TrimSpace b = b → (∀ x, x ∈ u ++ a → stored_item x) → u ++ a ≠ [] →
  ∃ f', md_Fragments (WithoutAutoLoadedSummaryPrefix d full prefix) !! i = Some f' ∧
    (b = full → splitExtractiveFallbackSummary (mf_Summary f') = (TrimSpace rest, Some (u, a))) ∧
    (b ≠ full → f' = f).
Proof.
  intros full Hi Hfull Hprefix Hne Hs Hb Hst Hua. exists (fragment_summary f (strip_loaded full (TrimSpace rest) (mf_Summary f))).
  unfold WithoutAutoLoadedSummaryPrefix. rewrite Hfull, Hprefix, (bool_decide_false (prefix = "") Hne).
  rewrite (bool_decide_false (full = "")) by (unfold full; by destruct prefix).
  unfold HasPrefix, full. rewrite prefix_app, TrimPrefix_app. fold full. cbn [orb negb].
  assert (strip_loaded full (TrimSpace rest) (mf_Summary f) =
    if b <>? full then mf_Summary f else AppendExtractiveConversationDelta (TrimSpace rest) (RenderExtractiveFallbackSummary u a)) as Heq.
  { unfold strip_loaded. rewrite Hs, split_stored by done. by rewrite Hb. }
  split_and!.
  - destruct (md_Fragments d) as [|x l] eqn:E; [done|].
    cbn [md_Fragments renderMemoryFragments with_view with_fragments]. by rewrite list_lookup_fmap, Hi.
  - intros ->. cbn [mf_Summary fragment_summary]. rewrite Heq, bool_decide_true by done. cbn [negb].
    apply split_stored; [apply TrimSpace_idemp|done|done].
  - intros Hbf. rewrite Heq, bool_decide_false by done. by destruct f.
Qed.

(** A map on fragments that keeps their source, authority and claims, and may drop
    their facts and tasks. *)
Definition drop_map (g : MemoryFragment → MemoryFragment) : Prop := ∀ f,
  mf_SourceSnapshot (g f) = mf_SourceSnapshot f ∧ mf_TasksAuthoritative (g f) = mf_TasksAuthoritative f ∧
  mf_Claims (g f) = mf_Claims f ∧ mf_KeyFacts (g f) ⊆ mf_KeyFacts f ∧ mf_OpenTasks (g f) ⊆ mf_OpenTasks f.

Lemma since_authority_drop g l : drop_map g → since_authority (g <$> l) = g <$> since_authority l.
Proof.
  intros Hg. assert (∀ k, existsb mf_TasksAuthoritative (g <$> k) = existsb mf_TasksAuthoritative k) as He.
  { induction k as [|x k IH]; [done|]. cbn. destruct (Hg x) as (_ & -> & _). by rewrite IH. }
  induction l as [|f l IH]; [done|]. cbn [fmap list_fmap since_authority]. rewrite He, IH.
  by destruct (existsb mf_TasksAuthoritative l).
Qed.

Lemma dedup_drop (g : MemoryFragment → MemoryFragment) (field : MemoryFragment → list string) l :
  (∀ f, field (g f) ⊆ field f) → dedupStrings (field <$> (g <$> l)) ⊆ dedupStrings (field <$> l).
Proof.
  intros Hg x. rewrite !elem_of_dedup. intros (Hx & k & Hk & (y & -> & (f & -> & Hf)%list_elem_of_fmap)%list_elem_of_fmap).
  split; [done|]. exists (field f). split; [by apply Hg|by apply list_elem_of_fmap_2].
Qed.

(** Dropping a replayed summary revives nothing: facts and tasks of the projection
    are among those the digest already listed, and its fragments keep their sources,
    claims and task authority, so superseded tasks stay superseded. *)
Theorem replayed_summary_revives_nothing d exact :
  rendered d →
  let d' := WithoutExactReplayedSummary d exact in
  md_KeyFacts d' ⊆ md_KeyFacts d ∧ md_OpenTasks d' ⊆ md_OpenTasks d ∧
  Forall2 (λ f f', mf_SourceSnapshot f' = mf_SourceSnapshot f ∧ mf_Claims f' = mf_Claims f ∧
                   mf_TasksAuthoritative f' = mf_TasksAuthoritative f) (md_Fragments d) (md_Fragments d').
Proof.
  intros Hr d'.
  assert (d' = d ∨ ∃ g, drop_map g ∧ d' = renderMemoryFragments (with_fragments d (g <$> md_Fragments d))) as [->|(g & Hg & ->)].
  { unfold d', WithoutExactReplayedSummary. case_bool_decide; [by left|].
    destruct (md_Fragments d) as [|f l] eqn:Ef; [by destruct Hr as [? _]|].
    destruct (existsb _ _); [right|by left]. eexists. split; [|done]. intros x.
    destruct (strip_replayed _ (mf_Summary x)) as [s []]; cbn; set_solver. }
  - split_and!; [done..|]. by apply Forall_Forall2_diag, Forall_forall.
  - destruct Hr as [_ Hr]. destruct (render_structured_view d) as [Hf Ht]. rewrite Hr in Hf, Ht. rewrite Hf, Ht.
    destruct (render_structured_view (with_fragments d (g <$> md_Fragments d))) as [-> ->].
    cbn [md_Fragments with_fragments renderMemoryFragments with_view]. rewrite (since_authority_drop g _ Hg).
    split_and!; [apply dedup_drop; intros f; apply Hg..|].
    apply Forall2_fmap_r, Forall_Forall2_diag, Forall_forall. intros f _. unfold compose. by destruct (Hg f) as (-> & -> & -> & _).
Qed.

(** ** Claims *)

Definition path_ok (p : string) : Prop :=
  (String.length p ≤ 4096)%nat ∧ has_char (λ c, code c =? 0)%N p = false ∧
  ∀ part, part ∈ Split p "/"%char → part ≠ "" ∧ part ≠ "." ∧ part ≠ "..".

Definition scope_ok (s : MemoryCodeScope) : Prop :=
  memoryClaimOID (cs_Commit s) = true ∧
  (cs_Parent s = "" ∨ memoryClaimOID (cs_Parent s) = true ∧ String.length (cs_Parent s) = String.length (cs_Commit s)) ∧
  (1 ≤ length (elems (cs_Paths s)) ≤ 20)%nat ∧ NoDup (elems (cs_Paths s)) ∧ ∀ p, p ∈ elems (cs_Paths s) → path_ok p.

Definition claim_ok (c : MemoryClaim) : Prop :=
  TrimSpace (mc_Text c) ≠ "" ∧ (String.length (mc_Text c) ≤ 8192)%nat ∧
  (((mc_Kind c = "decision" ∨ mc_Kind c = "rationale") ∧ mc_Code c = None) ∨
   (mc_Kind c = "code" ∧ ∃ s, mc_Code c = Some s ∧ scope_ok s)).

Definition total_claims (l : list MemoryFragment) : nat := sum_list ((λ f, length (mf_Claims f)) <$> l).

(** What a digest with valid claims satisfies. *)
Definition claims_ok (d : MemoryDigest) : Prop :=
  (md_ClaimsVersion d = 0%N ∨ md_ClaimsVersion d = MemoryClaimsVersion) ∧
  (total_claims (md_Fragments d) ≤ 2048)%nat ∧
  ∀ f, f ∈ md_Fragments d →
    (length (mf_Claims f) ≤ 256)%nat ∧
    (mf_Claims f ≠ [] → ValidateContentHash (mf_SourceSnapshot f) = Ok tt ∧ md_ClaimsVersion d = MemoryClaimsVersion) ∧
    ∀ c, c ∈ mf_Claims f → claim_ok c.

Lemma claim_path_Ok seen p out :
  claim_path seen p = Ok out ↔ p ∉ seen ∧ path_ok p ∧ out = {[p]} ∪ seen.
Proof.
  unfold claim_path, path_ok. split.
  - intros H. inv_ok. bools. split_and!; [done|by apply Nat.ltb_ge|done| |done].
    intros part Hpart. rewrite Forall_forall in H1. apply H1, reject_if_Ok in Hpart. by bools.
  - intros (Hs & (Hl & Hn & Hp) & ->). assert (p ≠ "") as Hne.
    { intros ->. destruct (Hp ""); [left|done]. }
    assert (HasPrefix p "/" = false) as Hpre.
    { destruct (HasPrefix p "/") eqn:E; [|done]. apply prefix_spec in E as [t ->]. destruct (Hp ""); [|done].
      cbn. left. }
    rewrite (bool_decide_false (p = "")) by done. rewrite (proj2 (Nat.ltb_ge _ _) Hl), Hpre, Hn.
    rewrite (bool_decide_false (p ∈ seen)) by done. cbn.
    replace (for_each _ _) with (Ok tt : result unit); [done|]. symmetry. apply for_each_Ok, Forall_forall.
    intros part (H1 & H2 & H3)%Hp. by rewrite !bool_decide_false.
Qed.

Lemma claim_paths_Ok l seen :
  (∃ out, fold_each claim_path l seen = Ok out) ↔ NoDup l ∧ ∀ p, p ∈ l → p ∉ seen ∧ path_ok p.
Proof.
  revert seen. induction l as [|p l IH]; intros seen; cbn [fold_each].
  { split; [|by eexists]. intros _. split; [constructor|by intros p ?%elem_of_nil]. }
  split.
  - intros (out & (s & (Hs & Hp & ->)%claim_path_Ok & Hr)%bind_Ok).
    destruct (proj1 (IH _) (ex_intro _ _ Hr)) as [Hn Hl]. split.
    + apply NoDup_cons. split; [|done]. intros [Hx _]%Hl. set_solver.
    + intros q [->|Hq]%elem_of_cons; [done|]. destruct (Hl q Hq) as [Hx Hok]. set_solver.
  - intros [[Hp Hn]%NoDup_cons Hl]. destruct (Hl p) as [Hs Hok]; [left|].
    destruct (proj2 (IH ({[p]} ∪ seen))) as [out Hout].
    { split; [done|]. intros q Hq. destruct (Hl q) as [Hx Hq']; [by right|]. split; [|done]. set_solver. }
    exists out. apply bind_Ok. exists ({[p]} ∪ seen). split; [by apply claim_path_Ok|done].
Qed.

Lemma claim_code_Ok c : claim_code c = Ok tt ↔ ∃ s, mc_Code c = Some s ∧ scope_ok s.
Proof.
  unfold claim_code. destruct (mc_Code c) as [s|]; [|naive_solver]. unfold scope_ok.
  set (l := elems (cs_Paths s)). rewrite !bind_Ok.
  setoid_rewrite bind_Ok. setoid_rewrite bind_Ok. setoid_rewrite reject_if_Ok. split.
  - intros (_ & H1 & _ & H2 & out & Hp & _). exists s. split; [done|].
    destruct (proj1 (claim_paths_Ok l ∅) (ex_intro _ _ Hp)) as [Hn Hl].
    apply orb_false_iff in H1 as [H1 H3], H2 as [H2 H4]. apply Nat.eqb_neq in H2. apply Nat.ltb_ge in H4. bools.
    fold l. split_and!; [done| |lia|lia|done|by intros p [_ ?]%Hl].
    apply andb_false_iff in H3 as [H3|H3]; bools; [by left|right]. done.
  - intros (s' & [= <-] & Hc & Hpar & Hlen & Hn & Hp). fold l in Hlen, Hn, Hp. exists tt. split.
    { rewrite Hc. cbn [negb orb]. destruct Hpar as [->|[H1 H2]]; [done|].
      rewrite H1, (bool_decide_true _ H2). cbn. apply andb_false_r. }
    exists tt. split; [apply orb_false_iff; split; [apply Nat.eqb_neq; lia|apply Nat.ltb_ge; lia]|].
    destruct (proj2 (claim_paths_Ok l ∅)) as [out Hout]; [|by exists out].
    split; [done|]. intros p Hin. split; [by apply not_elem_of_empty|auto].
Qed.

Lemma claim_valid_Ok v c : claim_valid v c = Ok tt ↔ v = MemoryClaimsVersion ∧ claim_ok c.
Proof.
  unfold claim_valid, claim_ok. rewrite bind_Ok. setoid_rewrite bind_Ok. setoid_rewrite reject_if_Ok. split.
  - intros (_ & Hv & _ & Ht & Hk). bools. apply N.eqb_eq in Hv. split; [done|]. split; [done|]. split; [by apply Nat.ltb_ge|].
    destruct (bool_decide_reflect (mc_Kind c = "decision")), (bool_decide_reflect (mc_Kind c = "rationale"));
      cbn [orb] in Hk; try (apply reject_if_Ok in Hk; bools; left; split; [auto|]; by destruct (mc_Code c) as [s|]; [destruct Hk; eexists|]).
    case_bool_decide; [|done]. right. split; [done|]. by apply claim_code_Ok.
  - intros (-> & Ht & Hl & Hk). exists tt. split; [done|]. exists tt.
    split; [by rewrite (bool_decide_false _ Ht), (proj2 (Nat.ltb_ge _ _) Hl)|].
    destruct Hk as [[[-> | ->] ->]|[-> Hk]]; [done..|]. cbn. by apply claim_code_Ok.
Qed.

Lemma claim_fragment_Ok v n f m :
  claim_fragment v n f = Ok m ↔ m = n + length (mf_Claims f) ∧ m ≤ 2048 ∧ length (mf_Claims f) ≤ 256 ∧
    (mf_Claims f ≠ [] → ValidateContentHash (mf_SourceSnapshot f) = Ok tt ∧ v = MemoryClaimsVersion) ∧
    ∀ c, c ∈ mf_Claims f → claim_ok c.
Proof.
  unfold claim_fragment. generalize (ValidateContentHash (mf_SourceSnapshot f)) as h. intros h. rewrite bind_Ok. setoid_rewrite bind_Ok. setoid_rewrite bind_Ok.
  setoid_rewrite reject_if_Ok. setoid_rewrite for_each_Ok. setoid_rewrite orb_false_iff. setoid_rewrite Nat.ltb_ge. split.
  - intros (_ & [H1 H2] & [] & H3 & _ & H4 & [= <-]). rewrite Forall_forall in H4.
    assert (∀ c, c ∈ mf_Claims f → v = MemoryClaimsVersion ∧ claim_ok c) as H5 by (intros c Hc; by apply claim_valid_Ok, H4).
    split_and!; [done|done|done| |by intros c [_ ?]%H5].
    intros Hne. destruct (mf_Claims f) as [|c l]; [done|]. cbn in H3. split; [done|]. apply (H5 c). left.
  - intros (-> & H1 & H2 & H3 & H4). exists tt. split; [done|]. exists tt. split.
    { destruct (mf_Claims f); [done|]. by apply H3. }
    exists tt. split; [|done]. apply Forall_forall. intros c Hc. apply claim_valid_Ok. split; [|auto].
    apply H3. intros E. rewrite E in Hc. by apply elem_of_nil in Hc.
Qed.

(** C40: [ValidateMemoryClaims] accepts exactly the well-formed declarations: a known
    version, at most 256 claims of nonblank bounded text per fragment and 2048 in all,
    claims only on content-addressed sources and under the claims version, historical
    claims without code scope, and code claims with a full commit id and 1 to 20
    distinct repository-relative paths that have no empty, dot or dot-dot component. *)
Theorem memory_claims_exact d : ValidateMemoryClaims d = Ok tt ↔ claims_ok d.
Proof.
  assert (∀ v l n, (∃ m, fold_each (claim_fragment v) l n = Ok m) ↔
    (l = [] ∨ n + total_claims l ≤ 2048) ∧ ∀ f, f ∈ l → length (mf_Claims f) ≤ 256 ∧
    (mf_Claims f ≠ [] → ValidateContentHash (mf_SourceSnapshot f) = Ok tt ∧ v = MemoryClaimsVersion) ∧
    ∀ c, c ∈ mf_Claims f → claim_ok c) as Hfold.
  { intros v. induction l as [|f l IH]; intros n; cbn [fold_each].
    { split; [|by eexists]. intros _. split; [by left|by intros f ?%elem_of_nil]. }
    assert (total_claims (f :: l) = length (mf_Claims f) + total_claims l) as -> by done. split.
    - intros (m & (k & (-> & H1 & H2)%claim_fragment_Ok & Hr)%bind_Ok).
      destruct (proj1 (IH _) (ex_intro _ _ Hr)) as [Ht Hl]. split.
      + right. destruct Ht as [->|Ht]; [cbn in *; lia|lia].
      + intros g [->|Hg]%elem_of_cons; [done|auto].
    - intros [[?|Ht] Hl]; [done|]. destruct (proj2 (IH (n + length (mf_Claims f)))) as [m Hm].
      { split; [right; lia|]. intros g Hg. apply Hl. by right. }
      exists m. apply bind_Ok. exists (n + length (mf_Claims f)). split; [|done]. apply claim_fragment_Ok.
      destruct (Hl f) as (H1 & H2 & H3); [left|]. split_and!; [done|lia|done..]. }
  unfold ValidateMemoryClaims. rewrite bind_Ok. setoid_rewrite bind_Ok. setoid_rewrite reject_if_Ok. unfold claims_ok.
  specialize (Hfold (md_ClaimsVersion d) (md_Fragments d) 0). split.
  - intros (_ & Hv & m & Hm & _). destruct (proj1 Hfold (ex_intro _ _ Hm)) as [Ht Hl]. split_and!; [| |done].
    + apply andb_false_iff in Hv as [Hv|Hv]; bools; apply N.eqb_eq in Hv; auto.
    + destruct Ht as [->|Ht]; [cbn; lia|lia].
  - intros (Hv & Ht & Hl). exists tt. split.
    { apply andb_false_iff. destruct Hv as [-> | ->]; [by left|by right]. }
    destruct (proj2 Hfold) as [m Hm]; [|by exists m]. split; [right; lia|done].
Qed.

(** ** Witnesses *)

Module ProjectionSamples.
Definition summary : string :=
  AppendExtractiveConversationDelta "Use tabs." (RenderExtractiveFallbackSummary ["why"; "how"] ["done now"]).
Definition fragment : MemoryFragment := MkMemoryFragment "a" summary ["f1"] ["t1"] false [].
Definition digest : MemoryDigest :=
  renderMemoryFragments (MkMemoryDigest "a" "" "" [] [] false "claude" [fragment] None 0).
End ProjectionSamples.

Lemma projections_keep_structure_witness :
  md_KeyFacts (WithoutConversationDeltaFromSource ProjectionSamples.digest "a") = ["f1"] ∧
  md_OpenTasks (WithoutConversationDeltaFromSource ProjectionSamples.digest "a") = ["t1"].
Proof.
  destruct (projections_keep_structure ProjectionSamples.digest "a" [] [] "" "") with
    (d' := WithoutConversationDeltaFromSource ProjectionSamples.digest "a") as (H1 & H2 & _).
  - split; [vm_compute; discriminate|vm_compute; reflexivity].
  - left.
  - rewrite H1, H2. split; vm_compute; reflexivity.
Defined.

Lemma replayed_items_removed_witness :
  ∃ f', md_Fragments (WithoutExactReplayedConversationItems ProjectionSamples.digest ["  why"] []) !! 0 = Some f' ∧
    splitExtractiveFallbackSummary (mf_Summary f') = ("Use tabs.", Some (["how"], ["done now"])).
Proof.
  destruct (replayed_items_removed ProjectionSamples.digest ["  why"] [] 0 ProjectionSamples.fragment
    "Use tabs." ["why"; "how"] ["done now"]) as (f' & H1 & _ & H2).
  - reflexivity.
  - reflexivity.
  - vm_compute. reflexivity.
  - apply Forall_forall. repeat constructor; vm_compute; (reflexivity || discriminate).
  - discriminate.
  - exists f'. split; [exact H1|]. rewrite H2 by (vm_compute; discriminate). vm_compute. reflexivity.
Defined.

Lemma autoloaded_prefix_removed_witness :
  ∃ f', md_Fragments (WithoutAutoLoadedSummaryPrefix ProjectionSamples.digest "Use tabs." "Use") !! 0 = Some f' ∧
    splitExtractiveFallbackSummary (mf_Summary f') = ("tabs.", Some (["why"; "how"], ["done now"])).
Proof.
  destruct (autoloaded_prefix_removed ProjectionSamples.digest "Use" " tabs." 0 ProjectionSamples.fragment
    "Use tabs." ["why"; "how"] ["done now"]) as (f' & H1 & H2 & _).
  - reflexivity.
  - vm_compute. reflexivity.
  - vm_compute. reflexivity.
  - discriminate.
  - reflexivity.
  - vm_compute. reflexivity.
  - apply Forall_forall. repeat constructor; vm_compute; (reflexivity || discriminate).
  - discriminate.
  - exists f'. split; [exact H1|]. rewrite H2 by reflexivity. vm_compute. reflexivity.
Defined.

Lemma replayed_summary_revives_nothing_witness :
  md_OpenTasks (WithoutExactReplayedSummary ProjectionSamples.digest "Use tabs.") ⊆ ["t1"] ∧
  md_OpenTasks (WithoutExactReplayedSummary ProjectionSamples.digest "Use tabs.") = [].
Proof.
  split; [|vm_compute; reflexivity].
  apply (replayed_summary_revives_nothing ProjectionSamples.digest "Use tabs.").
  split; [vm_compute; discriminate|vm_compute; reflexivity].
Defined.
