(* ===== verification/MemoryPrompt.v ===== *)
(** * The provider-visible form of a memory digest

    Models [cli/internal/domain/memory_prompt.go] and [IsNativeMemoryProvenanceFact]
    of [entities.go]: which facts and tasks of a stored digest may appear in a prompt,
    and how summaries are cut for it.  As in [Memory], [strings.ToLower] is a
    parameter. *)
From S2P Require Import Prelude GoStrings Sha256 Values History Utf8 GoJson MemorySummary Memory MemoryProjection.
From Stdlib Require Import Ascii.

(** ** Strings *)

Definition TrimLeft (s cutset : string) : string :=
  String.string_of_list_ascii (drop_while (in_cutset cutset) (String.list_ascii_of_string s)).

Definition TrimRight (s cutset : string) : string :=
  String.string_of_list_ascii (rev (drop_while (in_cutset cutset) (rev (String.list_ascii_of_string s)))).

(** [strings.SplitAfter(s, "\n")] *)
Fixpoint end_lines (lines : list string) : list string :=
  match lines with
  | [] => []
  | [l] => [l]
  | l :: lines => (l +:+ nl) :: end_lines lines
  end.

Definition SplitAfter (s : string) : list string := end_lines (Split s newline).

(** The text around the first occurrence ([strings.Index] and the two slices). *)
Fixpoint IndexCut (s sub : string) : option (string * string) :=
  if HasPrefix s sub then Some ("", TrimPrefix s sub)
  else match s with
       | EmptyString => None
       | String c s => '(a, b) ← IndexCut s sub; Some (String c a, b)
       end.

(** ** Continuation summaries *)

Definition providerContinuationPrefix : string := "This session is being continued from a previous conversation".

Definition isProviderContinuationHeader (line : string) : bool :=
  if negb (HasPrefix line providerContinuationPrefix) then false
  else
    let rest := TrimPrefix line providerContinuationPrefix in
    (rest =? ".") || (rest =? " that ran out of context.") ||
    (rest =? " that ran out of context. The summary below covers the earlier portion of the conversation.").

(** [summary\[last:\]] and the number of header lines. *)
Definition see_line (start line : string) (st : option string * nat) : option string * nat :=
  if isProviderContinuationHeader (TrimSpace line) then (Some start, S st.2) else st.

(** The walk over the lines: [start] is the rest of the summary from the beginning of
    the current line, [line] what was read of the line, [rest] what follows. *)
Fixpoint generation_scan (rest start line : string) (st : option string * nat) : option string * nat :=
  match rest with
  | EmptyString => if start =? "" then st else see_line start line st
  | String c rest =>
      if bool_decide (c = newline) then generation_scan rest rest "" (see_line start line st)
      else generation_scan rest start (line +:+ text1 c) st
  end.

Definition LatestProviderCompactionGeneration (summary : string) : string :=
  match generation_scan summary summary "" (None, 0) with
  | (Some last_, occurrences) => if (occurrences <? 2)%nat then summary else TrimSpace last_
  | (None, _) => summary
  end.

Definition isCanonicalProviderContinuation (summary : string) : bool :=
  let summary := match Cut summary newline with Some (line, _) => line | None => summary end in
  isProviderContinuationHeader (TrimSpace summary).

(** Whether fragment [j] represents the candidate summary of fragment [i]. *)
Definition represents (fragments : list MemoryFragment) (i : nat) (candidate : string) (j : nat) : bool :=
  match fragments !! j with
  | None => false
  | Some g =>
      let other := TrimSpace (mf_Summary g) in
      negb (i =? j)%nat &&
      negb ((String.length other <? String.length candidate)%nat || negb (isCanonicalProviderContinuation other)) &&
      (Contains other candidate && ((String.length candidate <? String.length other)%nat || (i <? j)%nat))
  end.

(** One step of the loop, which reads summaries it has already cleared. *)
Definition drop_contained (fragments : list MemoryFragment) (i : nat) : list MemoryFragment :=
  match fragments !! i with
  | None => fragments
  | Some f =>
      let candidate := TrimSpace (mf_Summary f) in
      if (candidate =? "") || negb (isCanonicalProviderContinuation candidate) then fragments
      else if existsb (represents fragments i candidate) (seq 0 (length fragments))
      then <[i := fragment_summary f ""]> fragments else fragments
  end.

Definition dropByteContainedProviderSummaries (fragments : list MemoryFragment) : list MemoryFragment :=
  foldl drop_contained fragments (seq 0 (length fragments)).

(** ** Assessment blocks *)

Definition CodeAssessmentBegin : string := "<!-- cxt:code-assessment:v1 -->".
Definition CodeAssessmentEnd : string := "<!-- cxt:end-code-assessment -->".

(** [text\[offset:\]] is rewritten; what precedes [offset] is final. *)
Fixpoint strip_blocks (fuel : nat) (text : string) : string :=
  match fuel with
  | O => text
  | S fuel =>
      match IndexCut text CodeAssessmentBegin with
      | None => text
      | Some (before, rest) =>
          match IndexCut rest CodeAssessmentEnd with
          | None => text
          | Some (_, after) => before +:+ strip_blocks fuel after
          end
      end
  end.

Definition WithoutCodeAssessment (text : string) : string := strip_blocks (String.length text) text.

(** ** Facts and tasks *)

Section case_mapping.
  Context (ToLower : string → string).

Definition IsNativeMemoryProvenanceFact (fact : string) : bool :=
  let fact := ToLower (TrimSpace fact) in
  HasPrefix fact "native memory:" || HasPrefix fact "absorbed from" || HasPrefix fact "ingested from".

Definition unworthy_prefixes : list string :=
  ["[cxt] this session was resumed from a branch context seed.";
   "[cxt seed] branch-switch context:";
   "<environment_context";
   "<turn_aborted";
   "conversation digest (extractive fallback;";
   "recent user intent:";
   "recent assistant outcomes:";
   "session summary:";
   "tools ["].

Definition promptWorthyMemoryItem (item : string) : bool :=
  if (item =? "") || negb (ContainsAny item (String " "%char (text2 (ascii_of_N 9) newline))) ||
     IsNativeMemoryProvenanceFact item then false
  else negb (existsb (HasPrefix (ToLower item)) unworthy_prefixes).

Definition fact_step (st : gset string * list string) (fact : string) : gset string * list string :=
  let '(seen, out) := st in
  let item := TrimSpace fact in
  if negb (promptWorthyMemoryItem item) then st
  else if bool_decide (ToLower item ∈ seen) then st
  else ({[ToLower item]} ∪ seen, out ++ [item]).

Definition PromptWorthyMemoryFacts (facts : list string) : list string :=
  (foldl fact_step (∅, []) facts).2.

Definition task_step (facts : gset string) (st : gset string * list string) (task : string) : gset string * list string :=
  let '(seen, out) := st in
  let item := TrimSpace task in
  if negb (promptWorthyMemoryItem item) then st
  else if bool_decide (ToLower item ∈ facts) then st
  else if bool_decide (ToLower item ∈ seen) then st
  else ({[ToLower item]} ∪ seen, out ++ [item]).

Definition promptWorthyMemoryTasks (tasks : list string) (facts : gset string) : list string :=
  (foldl (task_step facts) (∅, []) tasks).2.

Definition memoryItemSet (items : list string) : gset string :=
  foldl (λ (out : gset string) item, {[ToLower (TrimSpace item)]} ∪ out) ∅ items.

(** ** Numbered sections *)

Fixpoint skip_digits (s : string) : string :=
  match s with
  | EmptyString => EmptyString
  | String c s' => if is_digit c then skip_digits s' else s
  end.

(** The lower-cased title of a line like [2. Title]. *)
Definition numberedMemorySectionTitle (line : string) : option string :=
  let line := TrimRight line (text2 (ascii_of_N 13) newline) in
  let trimmedLeft := TrimLeft line " " in
  if (3 <? String.length line - String.length trimmedLeft)%nat then None
  else
    match TrimSpace trimmedLeft with
    | EmptyString => None
    | String c s =>
        if negb ((49 <=? code c) && (code c <=? 57))%N then None
        else match skip_digits s with
             | String d (String e title) =>
                 if (d <>? "."%char) || (e <>? " "%char) then None
                 else Some (ToLower (Trim (TrimSpace title) "*#: "))
             | _ => None
             end
    end.

Definition isTaskSectionTitle (title : string) : bool :=
  (title =? "pending tasks") || (title =? "open tasks") ||
  HasPrefix title "pending tasks " || HasPrefix title "open tasks ".

(** One line: whether lines are skipped now, and the kept lines. *)
Definition narrative_step (st : bool * list string) (line : string) : bool * list string :=
  let '(skipping, out) := st in
  let trimmed := TrimSpace line in
  match numberedMemorySectionTitle line with
  | Some title =>
      if isTaskSectionTitle title then (true, out)
      else (false, out ++ [line])
  | None =>
      let skipping :=
        skipping && negb ((trimmed =? extractiveFallbackDeltaMarker) || (trimmed =? extractiveFallbackHeader) ||
                          isProviderContinuationHeader trimmed) in
      (skipping, if skipping then out else out ++ [line])
  end.

Definition withoutStructuredTaskNarrative (summary : string) : string :=
  if summary =? "" then ""
  else TrimSpace (Join (foldl narrative_step (false, []) (SplitAfter summary)).2 "").

(** ** The projection *)

Definition with_authority (d : MemoryDigest) (authoritative : bool) : MemoryDigest :=
  MkMemoryDigest (md_SnapshotID d) (md_PreviousMemoryHash d) (md_Summary d) (md_KeyFacts d) (md_OpenTasks d)
    authoritative (md_Provider d) (md_Fragments d) (md_GraftCoverage d) (md_ClaimsVersion d).

(** The index of the newest fragment with task authority. *)
Definition latest_authority (l : list MemoryFragment) : option nat :=
  foldl (λ latest i_f, if mf_TasksAuthoritative i_f.2 then Some i_f.1 else latest) None (imap pair l).

(** The first pass over the fragments. *)
Definition prompt_fragment (latest : option nat) (i : nat) (source : MemoryFragment) : MemoryFragment :=
  let summary := LatestProviderCompactionGeneration (mf_Summary source) in
  let summary := if bool_decide (latest = Some i) then summary else withoutStructuredTaskNarrative summary in
  fragment_view source summary (PromptWorthyMemoryFacts (mf_KeyFacts source)) [].

Definition prompt_facts (fragments : list MemoryFragment) : gset string :=
  ⋃ ((λ f, memoryItemSet (mf_KeyFacts f)) <$> fragments).

(** The second pass gives authoritative fragments their tasks. *)
Definition prompt_tasks (facts : gset string) (source fragment : MemoryFragment) : MemoryFragment :=
  if mf_TasksAuthoritative source
  then fragment_view fragment (mf_Summary fragment) (mf_KeyFacts fragment) (promptWorthyMemoryTasks (mf_OpenTasks source) facts)
  else fragment.

Definition PromptStructuredProjection (d : MemoryDigest) : MemoryDigest :=
  match md_Fragments d with
  | [] =>
      let facts := PromptWorthyMemoryFacts (md_KeyFacts d) in
      if md_TasksAuthoritative d
      then with_view d (md_Summary d) facts (promptWorthyMemoryTasks (md_OpenTasks d) (memoryItemSet facts))
      else with_view d (withoutStructuredTaskNarrative (md_Summary d)) facts []
  | sources =>
      let fragments := imap (prompt_fragment (latest_authority sources)) sources in
      let facts := prompt_facts fragments in
      let fragments := zip_with (prompt_tasks facts) sources fragments in
      renderMemoryFragments
        (with_fragments (with_authority d (existsb mf_TasksAuthoritative sources))
           (dropByteContainedProviderSummaries fragments))
  end.

Definition HistoricalPromptProjection (d : MemoryDigest) : MemoryDigest :=
  PromptStructuredProjection
    (with_fragments (with_summary d (WithoutCodeAssessment (md_Summary d)))
       ((λ f, fragment_summary f (WithoutCodeAssessment (mf_Summary f))) <$> md_Fragments d)).

End case_mapping.

(** ** Contained summaries *)

Lemma Contains_spec s sub : Contains s sub = true ↔ ∃ p q, s = p +:+ sub +:+ q.
Proof.
  induction s as [|c s IH]; unfold Contains; fold Contains.
  - rewrite orb_false_r, prefix_spec. split; [intros [t ->]; by exists "", t|].
    intros (p & q & H). destruct p; [by exists q|done].
  - rewrite orb_true_iff, prefix_spec, IH. split.
    + intros [[t ->]|(p & q & ->)]; [by exists "", t|by exists (String c p), q].
    + intros ([|x p] & q & H); [left; by exists q|right]. injection H as -> ->. eauto.
Qed.

Lemma Contains_trans a b c : Contains a b = true → Contains b c = true → Contains a c = true.
Proof.
  rewrite !Contains_spec. intros (p & q & ->) (p' & q' & ->). exists (p +:+ p'), (q' +:+ q).
  by rewrite !string_app_assoc.
Qed.

(** [f'] is [f], or [f] cleared while another fragment of [l] contains its summary. *)
Definition kept_or_contained (l : list MemoryFragment) (f f' : MemoryFragment) : Prop :=
  f' = f ∨
  (f' = fragment_summary f "" ∧ ∃ j g, l !! j = Some g ∧ TrimSpace (mf_Summary g) ≠ "" ∧
     Contains (TrimSpace (mf_Summary g)) (TrimSpace (mf_Summary f)) = true).

Lemma drop_contained_step (init l : list MemoryFragment) i :
  Forall2 (kept_or_contained l) init l → Forall2 (kept_or_contained (drop_contained l i)) init (drop_contained l i).
Proof.
  intros Hall. unfold drop_contained. destruct (l !! i) as [f|] eqn:Hi; [|done].
  destruct ((TrimSpace (mf_Summary f) =? "") || _) eqn:Hc; [done|].
  destruct (existsb _ _) eqn:He; [|done]. apply orb_false_iff in Hc as [Hc _]. bools.
  apply existsb_exists in He as (j & _ & Hj). unfold represents in Hj. destruct (l !! j) as [g|] eqn:Hg; [|done].
  rewrite !andb_true_iff, !negb_true_iff, orb_false_iff, Nat.ltb_ge, Nat.eqb_neq in Hj.
  destruct Hj as [[Hij [Hlen _]] [Hcont _]].
  set (l' := <[i:=fragment_summary f ""]> l).
  assert (l' !! j = Some g) as Hg' by (unfold l'; by rewrite list_lookup_insert_ne).
  assert (TrimSpace (mf_Summary g) ≠ "") as Hgne.
  { intros E. rewrite E in Hlen. destruct (TrimSpace (mf_Summary f)); [done|cbn in Hlen; lia]. }
  (* whatever was contained in [f] is contained in [g] *)
  assert (∀ x y, kept_or_contained l x y → kept_or_contained l' x y) as Hmono.
  { intros x y [->|(-> & k & h & Hk & Hh & Hx)]; [by left|]. right. split; [done|].
    destruct (decide (k = i)) as [->|Hki]; [|exists k, h; unfold l'; by rewrite list_lookup_insert_ne by done].
    rewrite Hk in Hi. injection Hi as ->. exists j, g. split_and!; [done|done|]. by eapply Contains_trans. }
  apply Forall2_same_length_lookup. split; [unfold l'; rewrite length_insert; by eapply Forall2_length|].
  intros k x y Hx Hy. unfold l' in Hy. apply list_lookup_insert_Some in Hy as [(-> & <- & _)|[Hne Hy]].
  - destruct (Forall2_lookup_lr _ _ _ _ _ _ Hall Hx Hi) as [->|(-> & _)]; [|by cbn in Hc].
    right. split; [done|]. exists j, g. done.
  - apply Hmono. by eapply Forall2_lookup_lr.
Qed.

Lemma contained_survive fragments :
  Forall2 (kept_or_contained (dropByteContainedProviderSummaries fragments))
    fragments (dropByteContainedProviderSummaries fragments).
Proof.
  unfold dropByteContainedProviderSummaries.
  assert (∀ is_ l, Forall2 (kept_or_contained l) fragments l →
    Forall2 (kept_or_contained (foldl drop_contained l is_)) fragments (foldl drop_contained l is_)) as H.
  { induction is_ as [|i is_ IH]; intros l Hl; [done|]. cbn [foldl]. by apply IH, drop_contained_step. }
  apply H, Forall_Forall2_diag, Forall_forall. intros f _. by left.
Qed.

(** No provider summary is lost when contained ones are dropped: every fragment is
    kept, or only its summary is cleared and the complete trimmed text of that summary
    occurs in a summary that was kept. *)
Theorem contained_summaries_survive fragments :
  Forall2 (kept_or_contained (dropByteContainedProviderSummaries fragments))
    fragments (dropByteContainedProviderSummaries fragments).
Proof. apply contained_survive. Qed.

(** ** Assessment blocks *)

Lemma IndexCut_Some s sub a b : IndexCut s sub = Some (a, b) → s = a +:+ sub +:+ b.
Proof.
  revert a b. induction s as [|c s IH]; intros a b; unfold IndexCut; fold IndexCut.
  - destruct (HasPrefix "" sub) eqn:E; [|done]. intros [= <- <-]. by apply HasPrefix_TrimPrefix.
  - destruct (HasPrefix (String c s) sub) eqn:E; [intros [= <- <-]; by apply HasPrefix_TrimPrefix|].
    destruct (IndexCut s sub) as [[x y]|]; [|done]. intros [= <- <-]. cbn. f_equal. by apply IH.
Qed.

Lemma IndexCut_None s sub : IndexCut s sub = None ↔ Contains s sub = false.
Proof.
  induction s as [|c s IH]; unfold IndexCut, Contains; fold IndexCut Contains; unfold HasPrefix in *.
  - destruct (String.prefix sub ""); done.
  - destruct (String.prefix sub (String c s)); [done|]. cbn [orb]. rewrite <-IH.
    destruct (IndexCut s sub) as [[x y]|]; done.
Qed.

(** The first occurrence of [sub] in [p] followed by [sub] is at its end. *)
Definition first_at (p sub : string) : Prop := IndexCut (p +:+ sub) sub = Some (p, "").

Lemma prefix_long p s t : String.prefix p (s +:+ t) = true → String.length p ≤ String.length s → String.prefix p s = true.
Proof.
  revert s. induction p as [|c p IH]; intros s; [by destruct s|]. destruct s as [|x s]; [cbn; lia|].
  cbn [String.append String.prefix String.length]. intros H Hl. destruct (ascii_dec c x); [|done]. apply IH; [done|lia].
Qed.

Lemma prefix_extend p s t : String.prefix p s = true → String.prefix p (s +:+ t) = true.
Proof. rewrite !prefix_spec. intros [u ->]. exists (u +:+ t). by rewrite string_app_assoc. Qed.

(** What follows does not move the first occurrence. *)
Lemma IndexCut_app s sub a b t : IndexCut s sub = Some (a, b) → IndexCut (s +:+ t) sub = Some (a, b +:+ t).
Proof.
  revert a b. induction s as [|c s IH]; intros a b.
  - unfold IndexCut at 1. destruct (HasPrefix "" sub) eqn:E; [|done]. intros [= <- <-]. destruct sub; [|done]. by destruct t.
  - cbn [String.append]. unfold IndexCut; fold IndexCut. change (String c (s +:+ t)) with (String c s +:+ t).
    destruct (HasPrefix (String c s) sub) eqn:E.
    + intros [= <- <-]. unfold HasPrefix in *. rewrite (prefix_extend _ _ _ E).
      apply prefix_spec in E as [u ->]. by rewrite <-string_app_assoc, !TrimPrefix_app.
    + destruct (IndexCut s sub) as [[x y]|] eqn:Es; [|done]. intros [= <- <-].
      destruct (HasPrefix (String c s +:+ t) sub) eqn:E'.
      * unfold HasPrefix in *. apply prefix_long in E'; [congruence|].
        apply IndexCut_Some in Es as ->. cbn. rewrite !length_app_string. lia.
      * by rewrite (IH x y).
Qed.

Lemma IndexCut_first p sub b : first_at p sub → IndexCut (p +:+ sub +:+ b) sub = Some (p, b).
Proof. intros H. rewrite string_app_assoc. by apply (IndexCut_app _ _ _ _ b) in H. Qed.

(** The fuel of [strip_blocks] is the length of the text: each block is not empty. *)
Lemma strip_blocks_fuel n m text : String.length text ≤ n → String.length text ≤ m →
  strip_blocks n text = strip_blocks m text.
Proof.
  revert m text. induction n as [|n IH]; intros m text Hn Hm.
  - assert (text = "") as -> by (destruct text; [done|cbn in Hn; lia]). by destruct m.
  - destruct m as [|m]; [assert (text = "") as -> by (destruct text; [done|cbn in Hm; lia]); done|]. cbn [strip_blocks].
    destruct (IndexCut text CodeAssessmentBegin) as [[before rest]|] eqn:E1; [|done].
    destruct (IndexCut rest CodeAssessmentEnd) as [[x after]|] eqn:E2; [|done].
    f_equal. apply IndexCut_Some in E1, E2. subst. rewrite !length_app_string in Hn, Hm. cbn in Hn, Hm. apply IH; lia.
Qed.

Lemma WithoutCodeAssessment_step text :
  WithoutCodeAssessment text =
  match IndexCut text CodeAssessmentBegin with
  | None => text
  | Some (before, rest) =>
      match IndexCut rest CodeAssessmentEnd with
      | None => text
      | Some (_, after) => before +:+ WithoutCodeAssessment after
      end
  end.
Proof.
  unfold WithoutCodeAssessment at 1. destruct (String.length text) as [|n] eqn:En.
  { destruct text; [|done]. done. }
  cbn [strip_blocks]. destruct (IndexCut text CodeAssessmentBegin) as [[before rest]|] eqn:E1; [|done].
  destruct (IndexCut rest CodeAssessmentEnd) as [[x after]|] eqn:E2; [|done].
  f_equal. apply strip_blocks_fuel; [|done]. apply IndexCut_Some in E1, E2. subst.
  rewrite !length_app_string in En. cbn in En. lia.
Qed.

(** Exactly the complete assessment blocks are removed: a text of prose, a block
    and more text loses the block and is processed again after it; a text without a
    block, or with one that is not closed, is left byte for byte. *)
Theorem code_assessment_removed p x rest :
  first_at p CodeAssessmentBegin → first_at x CodeAssessmentEnd →
  WithoutCodeAssessment (p +:+ CodeAssessmentBegin +:+ x +:+ CodeAssessmentEnd +:+ rest) =
    p +:+ WithoutCodeAssessment rest ∧
  (Contains rest CodeAssessmentBegin = false → WithoutCodeAssessment rest = rest) ∧
  (∀ y, Contains y CodeAssessmentEnd = false →
    WithoutCodeAssessment (p +:+ CodeAssessmentBegin +:+ y) = p +:+ CodeAssessmentBegin +:+ y).
Proof.
  intros Hp Hx. split_and!.
  - rewrite WithoutCodeAssessment_step, (IndexCut_first _ _ _ Hp), (IndexCut_first _ _ _ Hx). done.
  - intros Hc. rewrite WithoutCodeAssessment_step. apply IndexCut_None in Hc. by rewrite Hc.
  - intros y Hc. rewrite WithoutCodeAssessment_step, (IndexCut_first _ _ _ Hp). apply IndexCut_None in Hc. by rewrite Hc.
Qed.

Lemma code_assessment_removed_witness :
  WithoutCodeAssessment ("a" +:+ CodeAssessmentBegin +:+ "stale" +:+ CodeAssessmentEnd +:+ "b") = "ab".
Proof.
  destruct (code_assessment_removed "a" "stale" "b") as (-> & H & _).
  - vm_compute. reflexivity.
  - vm_compute. reflexivity.
  - rewrite H by (vm_compute; reflexivity). reflexivity.
Defined.

(** ** Attested tasks *)

Lemma since_authority_latest l f : f ∈ since_authority l → mf_TasksAuthoritative f = true →
  ∃ pre post, l = pre ++ f :: post ∧ existsb mf_TasksAuthoritative post = false.
Proof.
  induction l as [|x l IH]; cbn [since_authority]; [by intros ?%elem_of_nil|].
  destruct (existsb mf_TasksAuthoritative l) eqn:E.
  - intros Hf Ha. destruct (IH Hf Ha) as (pre & post & -> & Hp). by exists (x :: pre), post.
  - intros [->|Hf]%elem_of_cons Ha; [by exists [], l|]. exfalso.
    assert (existsb mf_TasksAuthoritative l = true); [|congruence]. apply existsb_exists. exists f.
    split; [by apply list_elem_of_In|done].
Qed.

Section attested.
Context (ToLower : string → string).

Lemma memoryItemSet_spec items x : x ∈ memoryItemSet ToLower items ↔ ∃ i, i ∈ items ∧ x = ToLower (TrimSpace i).
Proof.
  unfold memoryItemSet. induction items as [|i items IH] using rev_ind.
  { split; [by intros ?%elem_of_empty|by intros (i & ?%elem_of_nil & _)]. }
  rewrite foldl_app. cbn [foldl]. rewrite elem_of_union, elem_of_singleton, IH. setoid_rewrite elem_of_app.
  setoid_rewrite list_elem_of_singleton. naive_solver.
Qed.

(** What a filtered task satisfies. *)
Definition task_from (tasks : list string) (facts : gset string) (t : string) : Prop :=
  promptWorthyMemoryItem ToLower t = true ∧ ToLower t ∉ facts ∧ ∃ s, s ∈ tasks ∧ t = TrimSpace s.

Lemma prompt_task_spec tasks facts t : t ∈ promptWorthyMemoryTasks ToLower tasks facts → task_from tasks facts t.
Proof.
  unfold promptWorthyMemoryTasks.
  assert (∀ l st, (∀ x, x ∈ l → x ∈ tasks) → (∀ t, t ∈ st.2 → task_from tasks facts t) →
    ∀ t, t ∈ (foldl (task_step ToLower facts) st l).2 → task_from tasks facts t) as H.
  { induction l as [|x l IH]; intros st Hl Hst; [done|]. cbn [foldl]. apply IH; [intros y Hy; apply Hl; by right|].
    destruct st as [seen out]. unfold task_step. destruct (promptWorthyMemoryItem ToLower (TrimSpace x)) eqn:Hw; [|done].
    cbn [negb]. case_bool_decide as Hf; [done|]. case_bool_decide; [done|]. cbn [snd] in *.
    intros y [Hy|Hy]%elem_of_app; [auto|]. apply list_elem_of_singleton in Hy as ->. split_and!; [done|done|].
    exists x. split; [apply Hl; left|done]. }
  apply (H tasks (∅, [])); [done|by intros x ?%elem_of_nil].
Qed.

(** The fragments of the projection, one by one. *)
Definition projected (facts : gset string) (f h : MemoryFragment) : Prop :=
  mf_TasksAuthoritative h = mf_TasksAuthoritative f ∧
  mf_KeyFacts h = PromptWorthyMemoryFacts ToLower (mf_KeyFacts f) ∧
  mf_OpenTasks h = if mf_TasksAuthoritative f then promptWorthyMemoryTasks ToLower (mf_OpenTasks f) facts else [].

Definition projected_facts (l : list MemoryFragment) : gset string :=
  prompt_facts ToLower (imap (prompt_fragment ToLower (latest_authority l)) l).

Lemma projected_fragments d : md_Fragments d ≠ [] →
  Forall2 (projected (projected_facts (md_Fragments d))) (md_Fragments d)
    (md_Fragments (PromptStructuredProjection ToLower d)).
Proof.
  intros Hne. unfold PromptStructuredProjection. destruct (md_Fragments d) as [|f0 l0] eqn:E; [done|].
  set (l := f0 :: l0). fold (projected_facts l). set (facts := projected_facts l).
  cbn [md_Fragments renderMemoryFragments with_view with_fragments].
  set (mid := zip_with (prompt_tasks ToLower facts) l (imap (prompt_fragment ToLower (latest_authority l)) l)).
  assert (∀ f m h, projected facts f m → kept_or_contained (dropByteContainedProviderSummaries mid) m h → projected facts f h) as Hkeep.
  { intros f m h Hp [->|(-> & _)]; done. }
  apply Forall2_same_length_lookup. split.
  { rewrite <-(Forall2_length _ _ _ (contained_survive mid)). unfold mid. rewrite length_zip_with, length_imap. lia. }
  intros i f h Hf Hh. destruct (Forall2_lookup_r _ _ _ _ _ (contained_survive mid) Hh) as (m & Hm & Hk).
  eapply Hkeep; [|done]. unfold mid in Hm. rewrite lookup_zip_with, Hf, list_lookup_imap, Hf in Hm. cbn in Hm.
  injection Hm as <-. unfold prompt_tasks, projected. by destruct (mf_TasksAuthoritative f) eqn:Ha; cbn; rewrite Ha.
Qed.

Lemma projected_fact_in l h x : Forall2 (projected (projected_facts l)) l h →
  x ∈ dedupStrings (mf_KeyFacts <$> h) → ToLower (TrimSpace x) ∈ projected_facts l.
Proof.
  intros Hall. rewrite elem_of_dedup. intros (_ & k & Hx & (g & -> & Hg)%list_elem_of_fmap).
  apply list_elem_of_lookup in Hg as [i Hi]. destruct (Forall2_lookup_r _ _ _ _ _ Hall Hi) as (f & Hf & _ & Hk & _).
  unfold projected_facts, prompt_facts. apply elem_of_union_list. exists (memoryItemSet ToLower (PromptWorthyMemoryFacts ToLower (mf_KeyFacts f))).
  split; [|apply memoryItemSet_spec; rewrite <-Hk; eauto]. apply list_elem_of_fmap.
  exists (prompt_fragment ToLower (latest_authority l) i f). split; [done|].
  apply (list_elem_of_lookup_2 _ i). by rewrite list_lookup_imap, Hf.
Qed.
End attested.

(** C24: a task reaches a prompt only with authority: every task of the projection is a
    trimmed stored task of the newest fragment that lists its tasks authoritatively
    (or of the digest itself when it has no fragments and that authority), it is a
    prompt-worthy item, and no fact of the projection has the same lower-cased text. *)
Theorem prompt_tasks_attested (ToLower : string → string) d t :
  let out := PromptStructuredProjection ToLower d in
  t ∈ md_OpenTasks out →
  promptWorthyMemoryItem ToLower t = true ∧
  (∀ fact, fact ∈ md_KeyFacts out → ToLower (TrimSpace fact) ≠ ToLower t) ∧
  match md_Fragments d with
  | [] => md_TasksAuthoritative d = true ∧ ∃ s, s ∈ md_OpenTasks d ∧ t = TrimSpace s
  | l => ∃ pre f post s, l = pre ++ f :: post ∧ mf_TasksAuthoritative f = true ∧
           existsb mf_TasksAuthoritative post = false ∧ s ∈ mf_OpenTasks f ∧ t = TrimSpace s
  end.
Proof.
  intros out Ht. destruct (decide (md_Fragments d = [])) as [Hnil|Hne].
  - unfold out, PromptStructuredProjection in *. rewrite Hnil in *.
    destruct (md_TasksAuthoritative d); [|by apply elem_of_nil in Ht]. cbn [md_OpenTasks md_KeyFacts with_view] in *.
    apply prompt_task_spec in Ht as (Hw & Hf & Hs). split_and!; [done| |done|done].
    intros fact Hfact Heq. apply Hf. rewrite <-Heq. apply memoryItemSet_spec. eauto.
  - pose proof (projected_fragments ToLower d Hne) as Hall. fold out in Hall.
    destruct (md_Fragments d) as [|f0 l0] eqn:E; [done|]. set (l := f0 :: l0) in *.
    assert (∃ o, out = renderMemoryFragments o ∧ md_Fragments o = md_Fragments out) as (o & Ho & Hfr).
    { unfold out, PromptStructuredProjection. rewrite E. by eexists. }
    destruct (render_structured_view o) as [Hfacts Htasks]. rewrite <-Ho, Hfr in Hfacts, Htasks.
    rewrite Htasks in Ht. apply elem_of_dedup in Ht as (_ & k & Hk & (h & -> & Hh)%list_elem_of_fmap).
    assert (h ∈ md_Fragments out) as Hin.
    { clear -Hh. induction (md_Fragments out) as [|x m IH]; [done|]. cbn [since_authority] in Hh.
      destruct (existsb _ m); [right; auto|done]. }
    assert (mf_TasksAuthoritative h = true) as Hauth.
    { apply list_elem_of_lookup in Hin as [i Hi]. destruct (Forall2_lookup_r _ _ _ _ _ Hall Hi) as (f & _ & -> & _ & Htk).
      rewrite Htk in Hk. by destruct (mf_TasksAuthoritative f); [|apply elem_of_nil in Hk]. }
    assert (∀ fact, fact ∈ md_KeyFacts out → ToLower (TrimSpace fact) ∈ projected_facts ToLower l) as Hproj.
    { intros fact Hfact. rewrite Hfacts in Hfact. by eapply projected_fact_in. }
    destruct (since_authority_latest _ _ Hh Hauth) as (pre & post & Heq & Hpost).
    rewrite Heq in Hall. apply Forall2_app_inv_r in Hall as (pre' & tl & _ & Htl & Hl).
    apply Forall2_cons_inv_r in Htl as (f & post' & (Hfa & _ & Hft) & Hpost' & ->).
    rewrite Hft, <-Hfa, Hauth in Hk. apply prompt_task_spec in Hk as (Hw & Hnf & s & Hs & ->). split_and!; [done| |].
    { intros fact Hfact%Hproj Heq'. apply Hnf. by rewrite <-Heq'. }
    exists pre', f, post', s. split_and!; [done|by rewrite <-Hfa| |done|done].
    rewrite <-Hpost. clear -Hpost'. induction Hpost' as [|x y k m (Hxy & _) _ IH]; [done|]. cbn. by rewrite IH, Hxy.
Qed.

(** ** Witnesses *)

Module PromptSamples.
Definition fragment (tasks : list string) (authoritative : bool) : MemoryFragment :=
  MkMemoryFragment "a" "" ["use tabs"] tasks authoritative [].
Definition digest : MemoryDigest :=
  MkMemoryDigest "a" "" "" [] [] false "claude"
    [fragment ["old work"] true; fragment ["fix it"; "Use tabs"] true; fragment ["noise here"] false] None 0.
End PromptSamples.

Lemma prompt_tasks_attested_witness :
  md_OpenTasks (PromptStructuredProjection ToLower PromptSamples.digest) = ["fix it"] ∧
  promptWorthyMemoryItem ToLower "fix it" = true.
Proof.
  split; [vm_compute; reflexivity|].
  apply (prompt_tasks_attested ToLower PromptSamples.digest "fix it"). compute_decision.
Defined.
