(* ===== verification/TopoSort.v ===== *)
(** * Priority topological sorting

    Three routines of the domain ([OrderHistoryEvents], [orderPublicationDependencies]
    and [ReachableHistory]) are the same algorithm over different indices: count
    the unsatisfied predecessors of every node, keep the ready nodes in a
    [container/heap], and repeatedly pop the least one, decrementing its
    successors.  This file gives that loop once, an abstract specification (the
    greedy order: always the least available node), and the refinement between
    the two. *)
From S2P Require Import Prelude.

(** ** Priority queues

    [container/heap] as the code uses it: [Push] adds an element, [Pop] removes the
    least one under [Less]. *)
Section heap.
Context {A : Type} (less : A → A → bool).

Fixpoint pop_min (x : A) (xs : list A) : A * list A :=
  match xs with
  | [] => (x, [])
  | y :: ys =>
      if less y x then let (m, rest) := pop_min y ys in (m, x :: rest)
      else let (m, rest) := pop_min x ys in (m, y :: rest)
  end.

Definition heap_pop (q : list A) : option (A * list A) :=
  match q with
  | [] => None
  | x :: xs => Some (pop_min x xs)
  end.

Definition heap_push (q : list A) (x : A) : list A := q ++ [x].

Lemma pop_min_perm x xs m rest : pop_min x xs = (m, rest) → x :: xs ≡ₚ m :: rest.
Proof.
  revert x m rest. induction xs as [|y ys IH]; intros x m rest; simpl.
  { by intros [= <- <-]. }
  destruct (less y x).
  - destruct (pop_min y ys) as [m' r'] eqn:E. intros [= <- <-].
    rewrite (IH _ _ _ E). apply Permutation_swap.
  - destruct (pop_min x ys) as [m' r'] eqn:E. intros [= <- <-].
    rewrite (Permutation_swap y x ys), (IH _ _ _ E). apply Permutation_swap.
Qed.

Lemma pop_min_least x xs m rest (ok : A → Prop) :
  (∀ a b c, ok a → ok b → ok c → less a b = false → less b c = false → less a c = false) →
  (∀ a b, ok a → ok b → less a b = true → less b a = false) →
  Forall ok (x :: xs) → pop_min x xs = (m, rest) → Forall (λ y, less y m = false) rest.
Proof.
  intros Hneg Hasym. revert x m rest. induction xs as [|y ys IH]; intros x m rest Hok; simpl.
  { intros [= <- <-]. constructor. }
  inversion_clear Hok as [|?? Hx Hok']. inversion_clear Hok' as [|?? Hy Hys].
  destruct (less y x) eqn:Hyx.
  - destruct (pop_min y ys) as [m' r'] eqn:E. intros [= <- <-].
    assert (Forall ok (m' :: r')) as Hm
      by (rewrite <-(pop_min_perm _ _ _ _ E); by constructor).
    pose proof (IH y m' r' (Forall_cons_2 _ _ _ Hy Hys) E) as Hr. constructor; [|done].
    assert (less y m' = false) as Hym.
    { assert (y ∈ m' :: r') as [-> | Hin]%elem_of_cons
        by (rewrite <-(pop_min_perm _ _ _ _ E); left).
      - apply not_true_iff_false. intros Hmm. pose proof (Hasym _ _ Hy Hy Hmm). congruence.
      - rewrite Forall_forall in Hr. auto. }
    inversion_clear Hm. by apply (Hneg x y m'); auto.
  - destruct (pop_min x ys) as [m' r'] eqn:E. intros [= <- <-].
    assert (Forall ok (m' :: r')) as Hm
      by (rewrite <-(pop_min_perm _ _ _ _ E); by constructor).
    pose proof (IH x m' r' (Forall_cons_2 _ _ _ Hx Hys) E) as Hr. constructor; [|done].
    assert (less x m' = false) as Hxm.
    { assert (x ∈ m' :: r') as [-> | Hin]%elem_of_cons
        by (rewrite <-(pop_min_perm _ _ _ _ E); left).
      - apply not_true_iff_false. intros Hmm. pose proof (Hasym _ _ Hx Hx Hmm). congruence.
      - rewrite Forall_forall in Hr. auto. }
    inversion_clear Hm. by apply (Hneg y x m'); auto.
Qed.
End heap.

(** ** The loop *)

Section kahn.
Context {A K : Type} `{Countable K} (key : A → K) (less : A → A → bool) (succs : A → list A).

(** [count\[child\]--; if count\[child\] == 0 { heap.Push(ready, child) }] *)
Definition relax (st : gmap K Z * list A) (child : A) : gmap K Z * list A :=
  let n := (default 0 (st.1 !! key child) - 1)%Z in
  (<[key child := n]> st.1, if (n =? 0)%Z then heap_push st.2 child else st.2).

Fixpoint kahn (fuel : nat) (count : gmap K Z) (ready out : list A) : result (list A) :=
  match heap_pop less ready with
  | None => Ok out
  | Some (x, ready) =>
      match fuel with
      | O => Err ErrOutOfFuel
      | S fuel =>
          let st := fold_left relax (succs x) (count, ready) in
          kahn fuel st.1 st.2 (out ++ [x])
      end
  end.
End kahn.

(** The same loop with a check before each emission. *)
Section kahn_guarded.
Context {A K : Type} `{Countable K} (key : A → K) (less : A → A → bool) (succs : A → list A).
Context (guard : list A → A → result unit).

Fixpoint kahn_guarded (fuel : nat) (count : gmap K Z) (ready out : list A) : result (list A) :=
  match heap_pop less ready with
  | None => Ok out
  | Some (x, ready) =>
      match fuel with
      | O => Err ErrOutOfFuel
      | S fuel =>
          guard out x ;;
          let st := fold_left (relax key) (succs x) (count, ready) in
          kahn_guarded fuel st.1 st.2 (out ++ [x])
      end
  end.

(** A guarded run that succeeds is an unguarded run all of whose checks passed. *)
Lemma kahn_guarded_Ok fuel count ready out out' :
  kahn_guarded fuel count ready out = Ok out' →
  kahn key less succs fuel count ready out = Ok out' ∧
  ∃ rest, out' = out ++ rest ∧
    ∀ l1 x l2, rest = l1 ++ x :: l2 → guard (out ++ l1) x = Ok tt.
Proof.
  revert count ready out. induction fuel as [|fuel IH]; intros count ready out; simpl;
    (destruct (heap_pop less ready) as [[x rdy]|];
      [|intros [= <-]; split; [done|]; exists []; split; [by rewrite app_nil_r|by intros [] ??]]); [done|].
  intros Hrun. inv_ok. destruct (IH _ _ _ Hrun) as (Hk & rest & -> & Hg). split; [done|].
  exists (x :: rest). rewrite <-(assoc_L (++)). split; [done|].
  intros [|y l1] z l2 [= <- Heq]; [by rewrite app_nil_r|].
  rewrite (assoc_L (++) out [x] l1 : out ++ x :: l1 = (out ++ [x]) ++ l1). by eapply Hg.
Qed.

Lemma kahn_guarded_Err fuel count ready out e :
  kahn_guarded fuel count ready out = Err e →
  kahn key less succs fuel count ready out = Err e ∨ ∃ l x, guard l x = Err e.
Proof.
  revert count ready out. induction fuel as [|fuel IH]; intros count ready out; simpl;
    (destruct (heap_pop less ready) as [[x rdy]|]; [|done]); [by left|].
  rewrite bind_Err. intros [?|(? & _ & Hrun)]; [by right; eauto|eauto].
Qed.
End kahn_guarded.

Lemma kahn_ext {A K} `{Countable K} (key : A → K) (less : A → A → bool) (s1 s2 : A → list A)
    fuel count ready out :
  (∀ x, s1 x = s2 x) →
  kahn key less s1 fuel count ready out = kahn key less s2 fuel count ready out.
Proof.
  intros Hs. revert count ready out.
  induction fuel as [|fuel IH]; intros count ready out; simpl; [done|].
  destruct (heap_pop less ready) as [[x rest]|]; [|done]. rewrite Hs. apply IH.
Qed.

(** ** Specification *)

Section greedy.
Context {A : Type} (less : A → A → bool) (succs : A → list A) (nodes : list A).

(** A node all of whose predecessors have been emitted. *)
Definition available (pre : list A) (c : A) : Prop :=
  c ∈ nodes ∧ c ∉ pre ∧ ∀ x, x ∈ nodes → c ∈ succs x → x ∈ pre.

(** Emit the least available node, repeatedly. *)
Inductive greedy : list A → Prop :=
  | greedy_nil : greedy []
  | greedy_snoc pre x :
      greedy pre → available pre x →
      (∀ y, available pre y → y = x ∨ less x y = true) →
      greedy (pre ++ [x]).

(** A greedy order that cannot be extended. *)
Definition maximal_greedy (out : list A) : Prop :=
  greedy out ∧ ∀ c, ¬ available out c.

(** Every node comes after all its predecessors. *)
Definition topological (out : list A) : Prop :=
  ∀ l1 c l2, out = l1 ++ c :: l2 → ∀ x, x ∈ nodes → c ∈ succs x → x ∈ l1.

Definition acyclic : Prop :=
  ∃ rank : A → nat, ∀ x c, x ∈ nodes → c ∈ nodes → c ∈ succs x → (rank x < rank c)%nat.

Lemma greedy_subset out : greedy out → ∀ x, x ∈ out → x ∈ nodes.
Proof. induction 1 as [|pre x Hg IH [Hx _] _]; set_solver. Qed.

Lemma greedy_NoDup out : greedy out → NoDup out.
Proof.
  induction 1 as [|pre x Hg IH (_ & Hx & _) _]; [constructor|].
  apply NoDup_app. split_and!; [done|set_solver|apply NoDup_singleton].
Qed.

Lemma greedy_topological out : greedy out → topological out.
Proof.
  induction 1 as [|pre x Hg IH (Hx & Hnew & Hpreds) _]; intros l1 c l2 Heq y Hy Hc.
  { by destruct l1. }
  destruct l2 as [|z l2 _] using rev_ind.
  - apply app_inj_tail in Heq as [-> ->]. auto.
  - rewrite app_comm_cons, (assoc_L (++)) in Heq. apply app_inj_tail in Heq as [-> ->]. eauto.
Qed.

(** Every emitted node was the least available one. *)
Lemma greedy_least out l1 c l2 :
  greedy out → out = l1 ++ c :: l2 → ∀ y, available l1 y → y = c ∨ less c y = true.
Proof.
  intros Hg. revert l2. induction Hg as [|pre x Hg IH _ Hmin]; intros l2 Heq.
  { by destruct l1. }
  destruct l2 as [|z l2 _] using rev_ind.
  - by apply app_inj_tail in Heq as [-> ->].
  - rewrite app_comm_cons, (assoc_L (++)) in Heq. apply app_inj_tail in Heq as [-> ->]. eauto.
Qed.

Hypothesis less_irrefl : ∀ a, less a a = false.
Hypothesis less_trans : ∀ a b c, less a b = true → less b c = true → less a c = true.

(** Greedy orders are prefixes of one another. *)
Lemma greedy_deterministic out1 out2 :
  greedy out1 → greedy out2 → length out1 = length out2 → out1 = out2.
Proof.
  intros H1. revert out2. induction H1 as [|pre x Hg IH Hx Hmin]; intros out2 H2 Hlen.
  { by destruct out2. }
  inversion H2 as [|pre2 x2 Hg2 Hx2 Hmin2 Heq]; subst; rewrite length_app in Hlen.
  { simpl in Hlen. lia. }
  rewrite length_app in Hlen. assert (pre = pre2) as <- by (apply IH; [done|simpl in Hlen; lia]).
  destruct (Hmin _ Hx2) as [-> | Hlt]; [done|]. destruct (Hmin2 _ Hx) as [-> | Hlt2]; [done|].
  pose proof (less_trans _ _ _ Hlt Hlt2) as Hbad. by rewrite less_irrefl in Hbad.
Qed.

Lemma greedy_prefix out n : greedy out → greedy (take n out).
Proof.
  induction 1 as [|pre x Hg IH Hx Hmin]; [rewrite take_nil; constructor|].
  destruct (decide (n ≤ length pre)%nat) as [Hn|Hn].
  - by rewrite take_app_le.
  - rewrite take_ge by (rewrite length_app; simpl; lia). by constructor.
Qed.

Lemma maximal_greedy_unique out1 out2 :
  maximal_greedy out1 → maximal_greedy out2 → out1 = out2.
Proof.
  assert (∀ o1 o2, maximal_greedy o1 → maximal_greedy o2 → (length o1 ≤ length o2)%nat → o1 = o2)
    as Hle.
  { intros o1 o2 [H1 Hm1] [H2 Hm2] Hlen.
    assert (o1 = take (length o1) o2) as E
      by (apply greedy_deterministic; [done|by apply greedy_prefix|rewrite length_take; lia]).
    destruct (decide (length o1 = length o2)) as [El|Nl].
    { rewrite E. apply take_ge. lia. }
    destruct (lookup_lt_is_Some_2 o2 (length o1)) as [y Hy]; [lia|].
    pose proof (greedy_prefix o2 (S (length o1)) H2) as Hg.
    rewrite (take_S_r _ _ _ Hy), <-E in Hg. exfalso. apply (Hm1 y).
    inversion Hg as [Hnil|pre x ? Hav ? Heq]; [by destruct o1|].
    by apply app_inj_tail in Heq as [-> ->]. }
  intros H1 H2. destruct (Nat.le_ge_cases (length out1) (length out2)); [auto|symmetry; auto].
Qed.

(** On an acyclic graph a maximal greedy order emits every node. *)
Lemma maximal_greedy_complete `{EqDecision A} out :
  acyclic → maximal_greedy out → ∀ c, c ∈ nodes → c ∈ out.
Proof.
  intros [rank Hrank] [_ Hmax] c. induction c as [c IH] using (induction_ltof1 _ rank).
  intros Hc. destruct (decide (c ∈ out)) as [?|Hn]; [done|]. exfalso. apply (Hmax c).
  split_and!; [done..|]. intros x Hx Hs. apply IH; [|done]. unfold ltof. auto.
Qed.

(** Conversely a topological order of all nodes certifies acyclicity. *)
Lemma topological_acyclic `{EqDecision A} out :
  topological out → (∀ c, c ∈ nodes → c ∈ out) → NoDup out → acyclic.
Proof.
  intros Ht Hall Hnd. exists (λ a, default 0 (fst <$> list_find (a =.) out)).
  intros x c Hx Hc Hs. destruct (list_elem_of_split _ _ (Hall c Hc)) as (l1 & l2 & Heq).
  pose proof (Ht _ _ _ Heq x Hx Hs) as Hin.
  apply list_elem_of_lookup in Hin as [i Hi].
  assert (list_find (x =.) out = Some (i, x)) as ->.
  { apply list_find_Some. split_and!; [|done|].
    - rewrite Heq. by apply lookup_app_l_Some.
    - intros j y Hj Hlt <-. rewrite Heq in Hnd, Hj.
      rewrite lookup_app_l in Hj by (apply lookup_lt_Some in Hi; lia).
      apply NoDup_app in Hnd as [Hnd _]. pose proof (NoDup_lookup _ _ _ _ Hnd Hi Hj). lia. }
  assert (list_find (c =.) out = Some (length l1, c)) as ->.
  { apply list_find_Some. split_and!; [|done|].
    - rewrite Heq. by apply list_lookup_middle.
    - intros j y Hj Hlt <-. rewrite Heq in Hnd, Hj. rewrite lookup_app_l in Hj by done.
      apply NoDup_app in Hnd as (_ & Hnd & _). apply (Hnd c); [by eapply list_elem_of_lookup_2|left]. }
  simpl. by eapply lookup_lt_Some.
Qed.
End greedy.

(** The specification depends only on which nodes and edges there are. *)
Lemma available_ext {A} (s1 s2 : A → list A) (n1 n2 : list A) pre c :
  (∀ x, x ∈ n1 ↔ x ∈ n2) → (∀ x y, x ∈ n1 → y ∈ n1 → y ∈ s1 x ↔ y ∈ s2 x) →
  available s1 n1 pre c → available s2 n2 pre c.
Proof.
  intros Hn Hs (Hc & Ho & Hp). split_and!; [by apply Hn|done|].
  intros x Hx%Hn Hxc. apply Hp; [done|]. by apply Hs.
Qed.

Lemma greedy_ext {A} (less : A → A → bool) (s1 s2 : A → list A) (n1 n2 : list A) out :
  (∀ x, x ∈ n1 ↔ x ∈ n2) → (∀ x y, x ∈ n1 → y ∈ n1 → y ∈ s1 x ↔ y ∈ s2 x) →
  greedy less s1 n1 out → greedy less s2 n2 out.
Proof.
  intros Hn Hs. assert (∀ x y, x ∈ n2 → y ∈ n2 → y ∈ s2 x ↔ y ∈ s1 x) as Hs'
    by (intros x y Hx%Hn Hy%Hn; symmetry; auto).
  induction 1 as [|pre x Hg IH Hx Hmin]; [constructor|].
  constructor; [done|by eapply available_ext|].
  intros y Hy. apply Hmin. eapply available_ext; [|done|done]. intros z. symmetry. apply Hn.
Qed.

Lemma maximal_greedy_ext {A} (less : A → A → bool) (s1 s2 : A → list A) (n1 n2 : list A) out :
  (∀ x, x ∈ n1 ↔ x ∈ n2) → (∀ x y, x ∈ n1 → y ∈ n1 → y ∈ s1 x ↔ y ∈ s2 x) →
  maximal_greedy less s1 n1 out → maximal_greedy less s2 n2 out.
Proof.
  intros Hn Hs [Hg Hmax]. split; [by eapply greedy_ext|]. intros c Hc. apply (Hmax c).
  eapply available_ext; [|by intros x y Hx%Hn Hy%Hn; symmetry; apply Hs|done].
  intros z. symmetry. apply Hn.
Qed.

(** Restricting a greedy order to a part that contains all its predecessors gives the
    greedy order of that part. *)
Lemma greedy_filter {A} (less : A → A → bool) (s1 s2 : A → list A) (n1 n2 : list A)
    (P : A → Prop) `{∀ x, Decision (P x)} out :
  (∀ x, x ∈ n2 ↔ x ∈ n1 ∧ P x) → (∀ x y, x ∈ n2 → y ∈ n2 → y ∈ s2 x ↔ y ∈ s1 x) →
  (∀ x c, x ∈ n1 → c ∈ n2 → c ∈ s1 x → P x) →
  greedy less s1 n1 out → greedy less s2 n2 (filter P out).
Proof.
  intros Hn Hs Hpred. induction 1 as [|pre x Hg IH (Hx & Hxo & Hxp) Hmin]; [constructor|].
  rewrite filter_app, filter_cons, filter_nil. case_decide as HP; [|by rewrite app_nil_r].
  assert (∀ y, available s2 n2 (filter P pre) y → available s1 n1 pre y) as Hav.
  { intros y (Hy & Hyo & Hyp). apply Hn in Hy as Hy1. destruct Hy1 as [Hy1 HPy].
    split; [done|split; [intros Hin; apply Hyo; by apply list_elem_of_filter|]].
    intros z Hz Hzy. assert (z ∈ n2) as Hz2 by (apply Hn; split; [done|by eapply Hpred]).
    assert (z ∈ filter P pre) as [_ ?]%list_elem_of_filter by (apply Hyp; [done|by apply Hs]). done. }
  assert (x ∈ n2) as Hx2 by (by apply Hn). constructor; [done| |auto].
  split; [done|split; [intros [_ ?]%list_elem_of_filter; done|]].
  intros z Hz Hzx. apply list_elem_of_filter. apply Hn in Hz as Hz1. destruct Hz1 as [Hz1 HPz].
  split; [done|]. apply Hxp; [done|]. by apply Hs.
Qed.

(** ** Counting edges *)

Section occurrences.
Context {A : Type} `{EqDecision A}.

(** Occurrences of a node in a list of edges. *)
Definition occ (c : A) (l : list A) : nat := length (filter (λ y, y = c) l).

Lemma occ_zero c l : occ c l = 0 ↔ c ∉ l.
Proof.
  unfold occ. rewrite length_zero_iff_nil. split.
  - intros Hf Hc. assert (c ∈ filter (λ y, y = c) l) as Hin by (by apply list_elem_of_filter).
    rewrite Hf in Hin. set_solver.
  - intros Hc. destruct (filter (λ y, y = c) l) as [|y l'] eqn:E; [done|].
    assert (y ∈ filter (λ y, y = c) l) as [-> ?]%list_elem_of_filter by (rewrite E; left). done.
Qed.

Lemma occ_cons c y l : occ c (y :: l) = (if decide (y = c) then 1 else 0) + occ c l.
Proof. unfold occ. rewrite filter_cons. by case_decide. Qed.

Lemma occ_NoDup (x : A) l : NoDup l → occ x l = if decide (x ∈ l) then 1 else 0.
Proof.
  intros Hnd. case_decide as Hx; [|by apply occ_zero]. unfold occ.
  enough (filter (λ y, y = x) l ≡ₚ [x]) as -> by done.
  apply NoDup_Permutation; [by apply NoDup_filter|apply NoDup_singleton|].
  intros y. rewrite list_elem_of_filter, list_elem_of_singleton. naive_solver.
Qed.

Lemma sum_list_fmap_zero {B} (f : B → nat) l : sum_list_with f l = 0 ↔ ∀ x, x ∈ l → f x = 0.
Proof.
  induction l as [|x l IH]; simpl; [set_solver|].
  rewrite Nat.eq_add_0, IH. set_solver.
Qed.

Lemma sum_list_fmap_remove {B} `{EqDecision B} (f : B → nat) (P Q : B → Prop)
    `{!∀ x, Decision (P x), !∀ x, Decision (Q x)} x l :
  NoDup l → x ∈ l → P x → (∀ y, y ∈ l → Q y ↔ P y ∧ y ≠ x) →
  sum_list_with f (filter P l) = f x + sum_list_with f (filter Q l).
Proof.
  intros Hnd Hx HP HQ. induction Hnd as [|y l Hy Hnd IH]; [set_solver|].
  rewrite !filter_cons. apply elem_of_cons in Hx as [<-|Hx].
  - rewrite decide_True, decide_False by (rewrite ?HQ by left; naive_solver). simpl. f_equal. f_equal.
    assert (∀ k : list B, (∀ z, z ∈ k → Q z ↔ P z) → filter P k = filter Q k) as Hf.
    { clear. intros k Hk. induction k as [|z k IHk]; [done|]. rewrite !filter_cons.
      destruct (decide (P z)), (decide (Q z)); rewrite ?IHk by set_solver; try done;
        exfalso; set_solver. }
    apply Hf. intros z Hz. rewrite HQ by (by right). naive_solver.
  - assert (y ≠ x) by (by intros ->).
    assert (Q y ↔ P y) as Hy' by (rewrite HQ by left; naive_solver).
    assert (∀ z, z ∈ l → Q z ↔ P z ∧ z ≠ x) as HQ' by (intros; apply HQ; by right).
    destruct (decide (P y)).
    + rewrite decide_True by tauto. simpl. rewrite IH by done. lia.
    + rewrite decide_False by tauto. by apply IH.
Qed.
End occurrences.

Section waiting.
Context {A : Type} `{EqDecision A} (succs : A → list A) (nodes : list A).

(** Edges into [c] from nodes that have not been emitted. *)
Definition waiting (pre : list A) (c : A) : nat :=
  sum_list_with (λ x, occ c (succs x)) (filter (λ x, x ∉ pre) nodes).

Lemma waiting_zero pre c :
  waiting pre c = 0 ↔ ∀ x, x ∈ nodes → c ∈ succs x → x ∈ pre.
Proof.
  unfold waiting. rewrite sum_list_fmap_zero. split.
  - intros Hz x Hx Hc. destruct (decide (x ∈ pre)) as [?|Hn]; [done|].
    assert (occ c (succs x) = 0) as Ho by (apply Hz, list_elem_of_filter; done).
    by apply occ_zero in Ho.
  - intros Hall x [Hn Hx]%list_elem_of_filter. apply occ_zero. auto.
Qed.

Lemma waiting_snoc pre x c :
  NoDup nodes → x ∈ nodes → x ∉ pre → waiting pre c = occ c (succs x) + waiting (pre ++ [x]) c.
Proof.
  intros Hnd Hx Hn. unfold waiting.
  apply (sum_list_fmap_remove (λ x, occ c (succs x))); [done..|]. intros y _. set_solver.
Qed.

End waiting.

(** ** Refinement: the loop computes the greedy order *)

Section kahn_correct.
Context {A K : Type} `{EqDecision A} `{Countable K}.
Context (key : A → K) (less : A → A → bool) (succs : A → list A) (nodes : list A).

Hypothesis key_inj : ∀ a b, a ∈ nodes → b ∈ nodes → key a = key b → a = b.
Hypothesis nodes_NoDup : NoDup nodes.
Hypothesis succs_nodes : ∀ x c, x ∈ nodes → c ∈ succs x → c ∈ nodes.
Hypothesis less_irrefl : ∀ a, less a a = false.
Hypothesis less_trans : ∀ a b c, less a b = true → less b c = true → less a c = true.
Hypothesis less_total : ∀ a b, a ∈ nodes → b ∈ nodes → a ≠ b →
  less a b = true ∨ less b a = true.

Notation cnt m c := (default 0%Z (m !! key c)).

Lemma count_insert (count : gmap K Z) y c n :
  y ∈ nodes → c ∈ nodes → cnt (<[key y := n]> count) c = if decide (c = y) then n else cnt count c.
Proof.
  intros Hy Hc. case_decide as Hd; [subst; by rewrite lookup_insert_eq|].
  rewrite lookup_insert_ne; [done|]. intros Hk. by apply Hd, key_inj.
Qed.

(** Relaxing the successors of one node. *)
Lemma relax_fold cs count ready :
  (∀ c, c ∈ cs → c ∈ nodes) →
  (∀ c, c ∈ nodes → (Z.of_nat (occ c cs) ≤ cnt count c)%Z) →
  (∀ c, c ∈ ready → c ∈ nodes ∧ cnt count c = 0%Z) → NoDup ready →
  let st := fold_left (relax key) cs (count, ready) in
  (∀ c, c ∈ nodes → cnt st.1 c = (cnt count c - Z.of_nat (occ c cs))%Z) ∧
  NoDup st.2 ∧
  (∀ c, c ∈ st.2 ↔ c ∈ ready ∨ c ∈ cs ∧ cnt count c = Z.of_nat (occ c cs)).
Proof.
  revert count ready. induction cs as [|y cs IH]; intros count ready Hcs Hle Hready Hnd; simpl.
  { split_and!; [intros; unfold occ; simpl; lia|done|set_solver]. }
  assert (y ∈ nodes) as Hy by set_solver.
  pose proof (Hle y Hy) as Hyle. rewrite occ_cons, decide_True in Hyle by done.
  assert (y ∉ ready) as Hyr by (intros [_ ?]%Hready; lia).
  unfold relax at 2 4 6. simpl. set (n := (cnt count y - 1)%Z) in *.
  set (ready1 := if (n =? 0)%Z then heap_push ready y else ready).
  assert (∀ c, c ∈ ready1 ↔ c ∈ ready ∨ c = y ∧ n = 0%Z) as Hready1.
  { intros c. unfold ready1, heap_push. destruct (Z.eqb_spec n 0); set_solver. }
  destruct (IH (<[key y := n]> count) ready1) as (Hcnt & Hnd' & Hin).
  - set_solver.
  - intros c Hc. rewrite count_insert by done. pose proof (Hle c Hc) as Hcle.
    rewrite occ_cons in Hcle. repeat case_decide; subst; try done; lia.
  - intros c [Hc|[-> Hn]]%Hready1.
    + destruct (Hready c Hc). rewrite count_insert by done. case_decide; [by subst|done].
    + by rewrite count_insert, decide_True by done.
  - unfold ready1, heap_push. destruct (n =? 0)%Z; [|done].
    apply NoDup_app. split_and!; [done|set_solver|apply NoDup_singleton].
  - split_and!; [|done|].
    + intros c Hc. rewrite (Hcnt c Hc), count_insert, occ_cons by done.
      repeat case_decide; subst; try done; lia.
    + intros c. rewrite Hin, Hready1. destruct (decide (c = y)) as [-> | Hne].
      * rewrite count_insert, decide_True, occ_cons, decide_True by done.
        rewrite elem_of_cons. destruct (decide (y ∈ cs)) as [Hycs|Hycs].
        -- assert (occ y cs ≠ 0) by (rewrite occ_zero; tauto). intuition lia.
        -- apply occ_zero in Hycs as Ho. rewrite Ho. intuition lia.
      * rewrite occ_cons, (decide_False (P := y = c)) by done. rewrite elem_of_cons.
        destruct (decide (c ∈ cs)) as [Hc|Hc]; [|naive_solver].
        rewrite count_insert, decide_False by (done || set_solver). naive_solver.
Qed.

(** The loop invariant. *)
Definition kahn_inv (count : gmap K Z) (ready out : list A) : Prop :=
  greedy less succs nodes out ∧ NoDup ready ∧
  (∀ c, c ∈ nodes → cnt count c = Z.of_nat (waiting succs nodes out c)) ∧
  (∀ c, c ∈ ready ↔ available succs nodes out c).

Lemma less_neg_trans a b c :
  a ∈ nodes → b ∈ nodes → c ∈ nodes → less a b = false → less b c = false → less a c = false.
Proof.
  intros Ha Hb Hc Hab Hbc. apply not_true_iff_false. intros Hac.
  destruct (decide (a = b)) as [-> | N1]; [congruence|].
  destruct (decide (b = c)) as [-> | N2]; [congruence|].
  destruct (less_total a b) as [?|Hba]; [done..|congruence|].
  pose proof (less_trans _ _ _ Hba Hac). congruence.
Qed.

Lemma less_asym a b : less a b = true → less b a = false.
Proof.
  intros Hab. apply not_true_iff_false. intros Hba.
  pose proof (less_trans _ _ _ Hab Hba). by rewrite less_irrefl in *.
Qed.

(** Popping the heap selects the least available node. *)
Lemma pop_available x rest ready out :
  (∀ c, c ∈ ready ↔ available succs nodes out c) → NoDup ready →
  heap_pop less ready = Some (x, rest) →
  available succs nodes out x ∧ NoDup rest ∧
  (∀ c, c ∈ rest ↔ available succs nodes out c ∧ c ≠ x) ∧
  (∀ c, available succs nodes out c → c = x ∨ less x c = true).
Proof.
  intros Hr Hnd Hp. destruct ready as [|y ys]; [done|]. injection Hp as Hp.
  pose proof (pop_min_perm _ _ _ _ _ Hp) as Hperm. rewrite Hperm in Hnd.
  apply NoDup_cons in Hnd as [Hx Hnd].
  assert (∀ c, available succs nodes out c ↔ c = x ∨ c ∈ rest) as Hav
    by (intros c; rewrite <-Hr, Hperm; set_solver).
  assert (Forall (λ c, c ∈ nodes) (y :: ys)) as Hall
    by (apply Forall_forall; intros c Hc%Hr; apply Hc).
  pose proof (pop_min_least _ _ _ _ _ _ less_neg_trans (λ a b _ _, less_asym a b) Hall Hp) as Hmin.
  rewrite Forall_forall in Hmin. split; [apply Hav; by left|split; [done|split]].
  { intros c. rewrite Hav. split; [|tauto].
    intros Hc. split; [by right|]. by intros ->. }
  intros c Hc. destruct (decide (c = x)) as [?|Hne]; [by left|right].
  assert (x ∈ nodes) by (apply Hav; by left).
  destruct (less_total x c) as [?|Hcx]; [done|apply Hc|done|done|].
  rewrite Hmin in Hcx; [done|]. apply Hav in Hc. naive_solver.
Qed.

Lemma kahn_step count ready out x rest :
  kahn_inv count ready out → heap_pop less ready = Some (x, rest) →
  let st := fold_left (relax key) (succs x) (count, rest) in
  kahn_inv st.1 st.2 (out ++ [x]).
Proof.
  intros (Hg & Hnd & Hcnt & Hr) Hp.
  destruct (pop_available _ _ _ _ Hr Hnd Hp) as (Hx & Hnd' & Hrest & Hmin).
  assert (greedy less succs nodes (out ++ [x])) as Hg' by (by constructor).
  assert (∀ c, c ∈ out → c ∉ succs x) as Hout.
  { intros c Hc Hs. apply list_elem_of_split in Hc as (l1 & l2 & ->).
    destruct Hx as (Hxn & Hxo & _). apply Hxo.
    rewrite elem_of_app. left. exact (greedy_topological _ _ _ _ Hg _ _ _ eq_refl x Hxn Hs). }
  destruct Hx as (Hxn & Hxo & Hxp).
  assert (x ∉ succs x) as Hself by (intros Hs; by apply Hxo, Hxp).
  destruct (relax_fold (succs x) count rest) as (Hcnt' & Hnd'' & Hin).
  - eauto.
  - intros c Hc. rewrite Hcnt, (waiting_snoc succs nodes out x c) by done. lia.
  - intros c [Hc _]%Hrest. split; [apply Hc|]. rewrite Hcnt by apply Hc.
    destruct Hc as (_ & _ & Hc). apply waiting_zero in Hc. by rewrite Hc.
  - done.
  - unfold kahn_inv. split_and!; [done|done| |].
    + intros c Hc. rewrite Hcnt', Hcnt, (waiting_snoc succs nodes out x c) by done. lia.
    + intros c. rewrite Hin, Hrest. split.
      * intros [[(Hc & Ho & Hp') Hne]|[Hc Heq]]; [split_and!; set_solver|].
        assert (c ∈ nodes) as Hcn by eauto. split_and!; [done|set_solver|].
        rewrite Hcnt, (waiting_snoc succs nodes out x c) in Heq by done.
        apply waiting_zero. lia.
      * intros (Hc & Ho & Hp'). destruct (decide (c ∈ succs x)) as [Hs|Hs].
        -- right. split; [done|]. rewrite Hcnt, (waiting_snoc succs nodes out x c) by done.
           apply waiting_zero in Hp' as ->. lia.
        -- left. split; [|set_solver]. split_and!; [done|set_solver|].
           intros z Hz Hzc. assert (z ∈ out ++ [x]) as Hzo by auto.
           apply elem_of_app in Hzo as [?| ->%list_elem_of_singleton]; done.
Qed.

(** The loop terminates within [length nodes] iterations on the greedy order. *)
Lemma kahn_spec fuel count ready out :
  kahn_inv count ready out → (length nodes ≤ length out + fuel)%nat →
  ∃ out', kahn key less succs fuel count ready out = Ok out' ∧
          maximal_greedy less succs nodes out'.
Proof.
  revert count ready out. induction fuel as [|fuel IH]; intros count ready out Hinv Hlen;
    simpl; destruct (heap_pop less ready) as [[x rest]|] eqn:Hp.
  - exfalso. destruct Hinv as (Hg & Hnd & _ & Hr).
    destruct (pop_available _ _ _ _ Hr Hnd Hp) as ((Hxn & Hxo & _) & _).
    assert (x :: out ⊆+ nodes) as Hsub%submseteq_length.
    { apply NoDup_submseteq; [constructor; [done|by eapply greedy_NoDup]|].
      intros y [-> | Hy]%elem_of_cons; [done|by eapply greedy_subset]. }
    simpl in Hsub. lia.
  - exists out. split; [done|]. destruct Hinv as (Hg & _ & _ & Hr), ready; [|done].
    split; [done|]. intros c Hc%Hr. set_solver.
  - apply IH; [by eapply kahn_step|]. rewrite length_app. simpl. lia.
  - exists out. split; [done|]. destruct Hinv as (Hg & _ & _ & Hr), ready; [|done].
    split; [done|]. intros c Hc%Hr. set_solver.
Qed.

End kahn_correct.
