(* ===== verification/HistoryOrder.v ===== *)
(** * Ordering history events

    Models [OrderHistoryEvents] of [cli/internal/domain/context_branch.go]: events
    recorded on different replicas are put into an order that respects every
    explicit dependency and otherwise follows (creation time, id).  Go iterates
    over [byID] in an unspecified order; the model takes that order as an argument
    ([order_entries]) and the result is proved not to depend on it. *)
From S2P Require Import Prelude GoStrings Sha256 Values History TopoSort.

(** [historyQueue.Less] *)
Definition history_less (a b : HistoryEvent) : bool :=
  if time_Equal (ev_CreatedAt a) (ev_CreatedAt b) then str_lt (ev_ID a) (ev_ID b)
  else time_Before (ev_CreatedAt a) (ev_CreatedAt b).

(** [byID\[e.ID\] = e] after comparing payloads. *)
Definition index_step (byID : gmap string HistoryEvent) (e : HistoryEvent)
    : result (gmap string HistoryEvent) :=
  match byID !! ev_ID e with
  | Some old => reject_if (old <>? e) ErrUnclassified ;; Ok (<[ev_ID e := e]> byID)
  | None => Ok (<[ev_ID e := e]> byID)
  end.

Definition index_events (events : list HistoryEvent) : result (gmap string HistoryEvent) :=
  fold_each index_step events ∅.

(** The counters filled while ranging over [byID]. *)
Record order_state := MkOrderState {
  os_indegree : gmap string Z;
  os_children : gmap string (list string);
  os_ready : list HistoryEvent;
}.

Definition count_parent (byID : gmap string HistoryEvent) (id : string) (st : order_state)
    (parent : string) : result order_state :=
  if parent =? "" then Ok st else
  match byID !! parent with
  | None => Err ErrUnclassified
  | Some _ =>
      Ok (MkOrderState
            (<[id := (default 0 (os_indegree st !! id) + 1)%Z]> (os_indegree st))
            (<[parent := default [] (os_children st !! parent) ++ [id]]> (os_children st))
            (os_ready st))
  end.

Definition count_entry (byID : gmap string HistoryEvent) (st : order_state)
    (entry : string * HistoryEvent) : result order_state :=
  let '(id, e) := entry in
  st ← fold_each (count_parent byID id) (HistoryDependencies e) st;
  Ok (MkOrderState (os_indegree st) (os_children st)
        (if (default 0 (os_indegree st !! id) =? 0)%Z then os_ready st ++ [e] else os_ready st)).

(** [byID\[child\]] for every recorded child. *)
Definition child_events (byID : gmap string HistoryEvent) (children : gmap string (list string))
    (e : HistoryEvent) : list HistoryEvent :=
  omap (λ child, byID !! child) (default [] (children !! ev_ID e)).

Definition order_entries (byID : gmap string HistoryEvent) (entries : list (string * HistoryEvent))
    : result (list HistoryEvent) :=
  st ← fold_each (count_entry byID) entries (MkOrderState ∅ ∅ []);
  out ← kahn ev_ID history_less (child_events byID (os_children st))
          (length entries) (os_indegree st) (os_ready st) [];
  reject_if (length out <>? size byID) ErrUnclassified ;;
  Ok out.

Definition OrderHistoryEvents (events : list HistoryEvent) : result (list HistoryEvent) :=
  byID ← index_events events;
  order_entries byID (map_to_list byID).

(** ** The order is a strict total order on distinct ids *)

Lemma history_less_lex a b :
  history_less a b = true ↔
  lex (λ e, t_instant (ev_CreatedAt e)) Z.lt (λ a b, str_lt (ev_ID a) (ev_ID b) = true) a b.
Proof.
  unfold history_less, time_Equal, time_Before, lex.
  destruct (Z.eqb_spec (t_instant (ev_CreatedAt a)) (t_instant (ev_CreatedAt b))) as [E|E].
  - rewrite E. intuition lia.
  - rewrite Z.ltb_lt. intuition lia.
Qed.

Lemma history_less_irrefl a : history_less a a = false.
Proof.
  apply not_true_iff_false. rewrite history_less_lex.
  apply lex_irrefl; [intros; lia|]. intros x. by rewrite str_lt_irrefl.
Qed.

Lemma history_less_trans a b c :
  history_less a b = true → history_less b c = true → history_less a c = true.
Proof.
  rewrite !history_less_lex. apply lex_trans; [intros ???; lia|]. intros ???. apply str_lt_trans.
Qed.

Lemma history_less_total a b :
  ev_ID a ≠ ev_ID b → history_less a b = true ∨ history_less b a = true.
Proof.
  rewrite !history_less_lex. unfold lex. intros Hne.
  destruct (Z.lt_trichotomy (t_instant (ev_CreatedAt a)) (t_instant (ev_CreatedAt b)))
    as [?|[->|?]]; [tauto| |tauto].
  destruct (str_lt_total (ev_ID a) (ev_ID b)); naive_solver.
Qed.

#[export] Hint Resolve history_less_irrefl history_less_trans history_less_total : history.

(** ** Indexing *)

(** A map that files every event under its own id. *)
Definition keyed (byID : gmap string HistoryEvent) : Prop :=
  ∀ id e, byID !! id = Some e → ev_ID e = id.

Lemma index_events_spec events byID :
  index_events events = Ok byID →
  keyed byID ∧ (∀ e, e ∈ events ↔ byID !! ev_ID e = Some e).
Proof.
  unfold index_events.
  apply (fold_each_invariant index_step
    (λ pre byID, keyed byID ∧ ∀ e, e ∈ pre ↔ byID !! ev_ID e = Some e)).
  { split; [intros ??; by rewrite lookup_empty|]. intros e. rewrite lookup_empty. set_solver. }
  intros pre x m m' [Hk Hm] _ Hstep.
  assert (m' = <[ev_ID x := x]> m ∧ (∀ old, m !! ev_ID x = Some old → old = x)) as [-> Hsame].
  { unfold index_step in Hstep. destruct (m !! ev_ID x); inv_ok; subst; bools; naive_solver. }
  split.
  - intros id e. rewrite lookup_insert. case_decide; naive_solver.
  - intros e. rewrite elem_of_app, list_elem_of_singleton, Hm, lookup_insert.
    case_decide as Hid; [|naive_solver congruence].
    rewrite <-Hid. split; [|naive_solver]. intros [Hl| ->]; [|done]. f_equal. symmetry. eauto.
Qed.

Lemma index_events_Err events e : index_events events = Err e → e = ErrUnclassified.
Proof.
  unfold index_events. generalize (∅ : gmap string HistoryEvent).
  induction events as [|x events IH]; intros m; cbn [fold_each]; [done|].
  rewrite bind_Err. intros [H|(m' & _ & H)]; [|eauto].
  unfold index_step, reject_if in H. repeat case_match; naive_solver.
Qed.

(** Conflict freedom: one payload per id. *)
Definition consistent (events : list HistoryEvent) : Prop :=
  ∀ e1 e2, e1 ∈ events → e2 ∈ events → ev_ID e1 = ev_ID e2 → e1 = e2.

Lemma index_events_consistent events :
  consistent events ↔ ∃ byID, index_events events = Ok byID.
Proof.
  split.
  - intros Hc. unfold index_events.
    assert (∀ todo m, (∀ e, e ∈ todo → e ∈ events) →
      (∀ id e, m !! id = Some e → e ∈ events ∧ ev_ID e = id) →
      ∃ byID, fold_each index_step todo m = Ok byID) as H.
    { induction todo as [|x todo IH]; intros m Hin Hm; cbn [fold_each]; [eauto|].
      assert (index_step m x = Ok (<[ev_ID x := x]> m)) as ->.
      { unfold index_step. destruct (m !! ev_ID x) as [old|] eqn:E; [|done].
        destruct (Hm _ _ E). rewrite bool_decide_true; [done|]. apply Hc; set_solver. }
      apply IH; [set_solver|]. intros id e. rewrite lookup_insert. case_decide; set_solver. }
    apply H; [done|]. intros id e. by rewrite lookup_empty.
  - intros [byID H]. apply index_events_spec in H as [Hk Hin].
    intros e1 e2 H1%Hin H2%Hin Hid. congruence.
Qed.

(** ** Counting *)

Lemma count_parents_spec byID id ds st st' :
  NoDup ds → (∀ d, d ∈ ds → d ≠ "") →
  fold_each (count_parent byID id) ds st = Ok st' →
  (∀ d, d ∈ ds → is_Some (byID !! d)) ∧
  os_ready st' = os_ready st ∧
  (∀ i, default 0 (os_indegree st' !! i) =
     (default 0 (os_indegree st !! i) + if decide (i = id) then Z.of_nat (length ds) else 0))%Z ∧
  (∀ p, default [] (os_children st' !! p) =
     default [] (os_children st !! p) ++ if decide (p ∈ ds) then [id] else []).
Proof.
  intros Hnd Hne. revert st. induction ds as [|d ds IH]; intros st; cbn [fold_each].
  { intros [= <-]. split_and!; [set_solver|done| |].
    - intros i. case_decide; simpl; lia.
    - intros p. by rewrite decide_False, app_nil_r by set_solver. }
  apply NoDup_cons in Hnd as [Hd Hnd]. intros H. inv_ok.
  destruct (IH Hnd ltac:(set_solver) _ H) as (Hall & Hr & Hi & Hc). clear IH H.
  unfold count_parent in H0. rewrite bool_decide_false in H0 by (apply Hne; left).
  destruct (byID !! d) as [e|] eqn:Ed; inv_ok. subst a. cbn [os_ready os_indegree os_children] in *.
  split_and!; [set_solver|done| |].
  - intros i. rewrite Hi, lookup_insert. cbn [length].
    repeat case_decide; subst; try done; simpl; lia.
  - intros p. rewrite Hc, lookup_insert. destruct (decide (d = p)) as [<-|Hdp].
    + rewrite (decide_True (P := d ∈ d :: ds)), (decide_False (P := d ∈ ds)) by set_solver.
      by rewrite app_nil_r.
    + destruct (decide (p ∈ ds)).
      * by rewrite decide_True by set_solver.
      * by rewrite decide_False by set_solver.
Qed.

(** The events depending on [x], in iteration order. *)
Definition dependents (nodes : list HistoryEvent) (x : HistoryEvent) : list HistoryEvent :=
  filter (λ c, ev_ID x ∈ HistoryDependencies c) nodes.

Definition count_inv (byID : gmap string HistoryEvent) (pre : list (string * HistoryEvent))
    (st : order_state) : Prop :=
  (∀ id e, (id, e) ∈ pre → ∀ d, d ∈ HistoryDependencies e → is_Some (byID !! d)) ∧
  (∀ id e, (id, e) ∈ pre → default 0%Z (os_indegree st !! id) = Z.of_nat (length (HistoryDependencies e))) ∧
  (∀ id, id ∉ pre.*1 → default 0%Z (os_indegree st !! id) = 0%Z) ∧
  (∀ p, default [] (os_children st !! p) = (filter (λ kv, p ∈ HistoryDependencies kv.2) pre).*1) ∧
  os_ready st = filter (λ e, HistoryDependencies e = []) pre.*2.

Lemma count_entries_spec byID entries st :
  NoDup entries.*1 →
  fold_each (count_entry byID) entries (MkOrderState ∅ ∅ []) = Ok st →
  count_inv byID entries st.
Proof.
  intros Hnd H. revert H Hnd.
  apply (fold_each_invariant (count_entry byID) (λ pre st, NoDup pre.*1 → count_inv byID pre st)).
  { intros _. unfold count_inv. cbn. setoid_rewrite lookup_empty. cbn. set_solver. }
  clear st. intros pre [id e] st st' IH _ Hstep Hnd'. rewrite fmap_app in Hnd'.
  apply NoDup_app in Hnd' as (Hnd1 & Hfresh & _).
  assert (id ∉ pre.*1) as Hid by (cbn in Hfresh; set_solver).
  destruct (IH Hnd1) as (Hdeps & Hin & Hout & Hch & Hready). clear IH.
  unfold count_entry in Hstep. inv_ok. subst st'. rename a into st1.
  destruct (count_parents_spec _ _ _ _ _ (HistoryDependencies_NoDup e)
    (λ d Hd, proj1 (proj1 (HistoryDependencies_elem e d) Hd)) Hstep0) as (Hall & Hr & Hi & Hc).
  unfold count_inv. cbn [os_ready os_indegree os_children]. split_and!.
  - intros i x [?|[= -> ->]%list_elem_of_singleton]%elem_of_app; eauto.
  - intros i x [Hp|[= -> ->]%list_elem_of_singleton]%elem_of_app.
    + rewrite Hi, (Hin _ _ Hp), decide_False; [lia|].
      intros ->. apply Hid. apply list_elem_of_fmap. by exists (id, x).
    + by rewrite Hi, (Hout _ Hid), decide_True.
  - intros i. rewrite fmap_app. intros Hn. rewrite Hi, Hout, decide_False by set_solver. done.
  - intros p. rewrite Hc, Hch, filter_app, fmap_app. f_equal.
    rewrite filter_cons, filter_nil. cbn. by case_decide.
  - rewrite Hr, Hready, fmap_app, filter_app, Hi, (Hout _ Hid), decide_True by done.
    change ([(id, e)].*2) with [e]. rewrite filter_cons, filter_nil.
    destruct (HistoryDependencies e); [by rewrite decide_True|].
    rewrite decide_False by done. by rewrite app_nil_r.
Qed.

Lemma count_entries_total byID entries st :
  (∀ id e, (id, e) ∈ entries → ∀ d, d ∈ HistoryDependencies e → is_Some (byID !! d)) →
  ∃ st', fold_each (count_entry byID) entries st = Ok st'.
Proof.
  revert st. induction entries as [|[id e] entries IH]; intros st Hdeps; cbn [fold_each]; [eauto|].
  assert (∀ ds st, (∀ d, d ∈ ds → is_Some (byID !! d)) →
    ∃ st', fold_each (count_parent byID id) ds st = Ok st') as Hp.
  { induction ds as [|d ds IHd]; intros st0 Hds; cbn [fold_each]; [eauto|].
    unfold count_parent at 2. destruct (Hds d) as [x ->]; [set_solver|].
    case_bool_decide; apply IHd; set_solver. }
  unfold count_entry at 2.
  destruct (Hp (HistoryDependencies e) st) as [st1 ->]; [intros; eapply Hdeps; [left|done]|].
  apply IH. intros; eapply Hdeps; [right; eassumption|done].
Qed.

Lemma count_entries_Err byID entries st err :
  fold_each (count_entry byID) entries st = Err err → err = ErrUnclassified.
Proof.
  revert st. induction entries as [|[id e] entries IH]; intros st; cbn [fold_each]; [done|].
  rewrite bind_Err. intros [H|(st1 & _ & H)]; [|eauto].
  unfold count_entry in H. apply bind_Err in H as [H|(? & _ & H)]; [|done].
  revert st H. induction (HistoryDependencies e) as [|d ds IHd]; intros st; cbn [fold_each]; [done|].
  rewrite bind_Err. intros [H|(st1 & _ & H)]; [|eauto].
  unfold count_parent in H. repeat case_match; naive_solver.
Qed.

(** ** The algorithm refines the greedy order *)

Section entries.
Context (byID : gmap string HistoryEvent) (Hkeyed : keyed byID).
Context (entries : list (string * HistoryEvent)) (Hentries : entries ≡ₚ map_to_list byID).

Local Notation nodes := (entries.*2).

Lemma entries_lookup kv : kv ∈ entries ↔ byID !! kv.1 = Some kv.2.
Proof. rewrite Hentries. destruct kv as [k v]. apply elem_of_map_to_list. Qed.

Lemma nodes_lookup e : e ∈ nodes ↔ byID !! ev_ID e = Some e.
Proof.
  rewrite list_elem_of_fmap. split.
  - intros ([k v] & -> & H%entries_lookup). cbn in *. by rewrite (Hkeyed _ _ H).
  - intros H. exists (ev_ID e, e). split; [done|]. by apply entries_lookup.
Qed.

Lemma entries_keys_NoDup : NoDup entries.*1.
Proof. rewrite Hentries. apply NoDup_fst_map_to_list. Qed.

Lemma nodes_NoDup : NoDup nodes.
Proof.
  assert (entries.*1 = ev_ID <$> nodes) as Hk.
  { rewrite <-list_fmap_compose. apply list_fmap_ext. intros i kv Hi. cbn. symmetry.
    apply Hkeyed, entries_lookup. by eapply list_elem_of_lookup_2. }
  apply (NoDup_fmap_1 ev_ID). rewrite <-Hk. apply entries_keys_NoDup.
Qed.

Lemma nodes_key_inj a b : a ∈ nodes → b ∈ nodes → ev_ID a = ev_ID b → a = b.
Proof. rewrite !nodes_lookup. congruence. Qed.

Lemma size_nodes : length nodes = size byID.
Proof. by rewrite length_fmap, Hentries, length_map_to_list. Qed.

Lemma child_events_dependents st x :
  count_inv byID entries st → child_events byID (os_children st) x = dependents nodes x.
Proof.
  intros (_ & _ & _ & Hch & _). unfold child_events, dependents. rewrite Hch.
  assert (∀ l, (∀ kv, kv ∈ l → byID !! kv.1 = Some kv.2) →
    omap (λ child, byID !! child) (filter (λ kv, ev_ID x ∈ HistoryDependencies kv.2) l).*1 =
    filter (λ c, ev_ID x ∈ HistoryDependencies c) l.*2) as H.
  { induction l as [|kv l IH]; intros Hl; [done|]. rewrite fmap_cons, !filter_cons.
    destruct (decide (ev_ID x ∈ HistoryDependencies kv.2)); [|apply IH; set_solver].
    cbn. rewrite (Hl kv) by left. f_equal. apply IH. set_solver. }
  apply H. intros kv. apply entries_lookup.
Qed.

Hypothesis Hclosed : ∀ e, e ∈ nodes → ∀ d, d ∈ HistoryDependencies e → is_Some (byID !! d).

(** In-degrees count the dependencies. *)
Lemma occ_dependents c x :
  c ∈ nodes → occ c (dependents nodes x) = if decide (ev_ID x ∈ HistoryDependencies c) then 1 else 0.
Proof.
  intros Hc. rewrite occ_NoDup by apply NoDup_filter, nodes_NoDup. unfold dependents.
  destruct (decide (ev_ID x ∈ HistoryDependencies c)) as [Hd|Hd].
  - by rewrite decide_True by (by apply list_elem_of_filter).
  - by rewrite decide_False by (rewrite list_elem_of_filter; tauto).
Qed.

Lemma waiting_dependents c :
  c ∈ nodes → waiting (dependents nodes) nodes [] c = length (HistoryDependencies c).
Proof.
  intros Hc. unfold waiting.
  assert (∀ l, sum_list_with (λ x, occ c (dependents nodes x)) (filter (λ x, x ∉ []) l) =
    length (ev_ID <$> filter (λ x, ev_ID x ∈ HistoryDependencies c) l)) as ->.
  { induction l as [|x l IH]; [done|]. rewrite !filter_cons, decide_True by set_solver.
    cbn [sum_list_with]. rewrite IH, occ_dependents by done. by case_decide. }
  apply Permutation_length, NoDup_Permutation.
  - apply NoDup_fmap_2_strong; [|apply NoDup_filter, nodes_NoDup].
    intros a b [_ Ha]%list_elem_of_filter [_ Hb]%list_elem_of_filter. by apply nodes_key_inj.
  - apply HistoryDependencies_NoDup.
  - intros d. rewrite list_elem_of_fmap. split.
    + by intros (e & -> & [He _]%list_elem_of_filter).
    + intros Hd. destruct (Hclosed c Hc d Hd) as [e He].
      assert (ev_ID e = d) as <- by eauto. exists e. split; [done|].
      apply list_elem_of_filter. split; [done|]. by apply nodes_lookup.
Qed.

Lemma count_kahn_inv st :
  count_inv byID entries st →
  kahn_inv ev_ID history_less (dependents nodes) nodes (os_indegree st) (os_ready st) [].
Proof.
  intros (_ & Hin & _ & _ & Hready). unfold kahn_inv. split; [constructor|split; [|split]].
  - rewrite Hready. apply NoDup_filter, nodes_NoDup.
  - intros c Hc. rewrite waiting_dependents by done. apply (Hin _ c).
    apply entries_lookup. by apply nodes_lookup.
  - intros c. rewrite Hready, list_elem_of_filter. unfold available.
    split.
    + intros [Hd Hc]. split; [done|split; [set_solver|]].
      intros x Hx Hs. unfold dependents in Hs. rewrite list_elem_of_filter, Hd in Hs. set_solver.
    + intros (Hc & _ & Hp). split; [|done].
      apply length_zero_iff_nil. rewrite <-(waiting_dependents c Hc). by apply waiting_zero.
Qed.

(** The loop always finishes, on the greedy order of the indexed events. *)
Lemma order_entries_total :
  ∃ out, maximal_greedy history_less (dependents nodes) nodes out ∧
    order_entries byID entries =
      (reject_if (length out <>? size byID) ErrUnclassified ;; Ok out).
Proof.
  destruct (count_entries_total byID entries (MkOrderState ∅ ∅ [])) as [st Hst].
  { intros id e He. apply Hclosed. apply list_elem_of_fmap. by exists (id, e). }
  pose proof (count_entries_spec _ _ _ entries_keys_NoDup Hst) as Hinv.
  destruct (kahn_spec ev_ID history_less (dependents nodes) nodes) with
    (fuel := length entries) (count := os_indegree st) (ready := os_ready st) (out := @nil HistoryEvent)
    as (out & Hrun & Hg).
  - apply nodes_key_inj.
  - apply nodes_NoDup.
  - unfold dependents. intros x c _ [_ ?]%list_elem_of_filter. done.
  - apply history_less_irrefl.
  - apply history_less_trans.
  - intros a b Ha Hb Hne. apply history_less_total. intros Hid. by apply Hne, nodes_key_inj.
  - by apply count_kahn_inv.
  - rewrite length_fmap. cbn. lia.
  - exists out. split; [done|]. unfold order_entries. rewrite Hst. cbn [mbind result_bind].
    rewrite (kahn_ext _ _ _ (dependents nodes)), Hrun; [done|].
    intros x. by apply child_events_dependents.
Qed.

End entries.

(** ** Well-formed histories *)

(** Every dependency is among the events. *)
Definition dependency_closed (events : list HistoryEvent) : Prop :=
  ∀ e, e ∈ events → ∀ d, d ∈ HistoryDependencies e → ∃ p, p ∈ events ∧ ev_ID p = d.

(** The dependency relation has no cycle. *)
Definition dependency_acyclic (events : list HistoryEvent) : Prop :=
  ∃ rank : string → nat, ∀ e, e ∈ events → ∀ d, d ∈ HistoryDependencies e →
    (rank d < rank (ev_ID e))%nat.

Definition orderable (events : list HistoryEvent) : Prop :=
  consistent events ∧ dependency_closed events ∧ dependency_acyclic events.

(** The specification of the result. *)
Definition history_order (events out : list HistoryEvent) : Prop :=
  maximal_greedy history_less (dependents events) events out ∧ ∀ e, e ∈ events → e ∈ out.

Lemma dependents_elem events x c :
  c ∈ dependents events x ↔ c ∈ events ∧ ev_ID x ∈ HistoryDependencies c.
Proof. unfold dependents. rewrite list_elem_of_filter. tauto. Qed.

Lemma history_order_ext ev1 ev2 out :
  (∀ e, e ∈ ev1 ↔ e ∈ ev2) → history_order ev1 out → history_order ev2 out.
Proof.
  intros He [Hg Hall]. split; [|set_solver].
  eapply maximal_greedy_ext; [done| |done]. intros x y Hx Hy. rewrite !dependents_elem. set_solver.
Qed.

Lemma history_order_unique events out1 out2 :
  history_order events out1 → history_order events out2 → out1 = out2.
Proof.
  intros [H1 _] [H2 _]. eapply maximal_greedy_unique; eauto using history_less_irrefl, history_less_trans.
Qed.

Lemma orderable_acyclic events :
  dependency_acyclic events → acyclic (dependents events) events.
Proof.
  intros [rank Hr]. exists (λ e, rank (ev_ID e)). intros x c Hx Hc [_ Hd]%dependents_elem. eauto.
Qed.

(** A complete order certifies that the dependencies have no cycle. *)
Lemma history_order_acyclic events out :
  consistent events → dependency_closed events → history_order events out →
  dependency_acyclic events.
Proof.
  intros Hcons Hclosed [[Hg Hmax] Hall].
  destruct (topological_acyclic (dependents events) events out) as [rank Hrank];
    [by eapply greedy_topological|done|by eapply greedy_NoDup|].
  exists (λ id, default 0 (rank ∘ snd <$> list_find (λ e, ev_ID e = id) events)).
  assert (∀ e, e ∈ events →
    default 0 (rank ∘ snd <$> list_find (λ x, ev_ID x = ev_ID e) events) = rank e) as Hfind.
  { intros e He. destruct (list_find_elem_of (λ x, ev_ID x = ev_ID e) events e) as [[i x] Hx]; [done..|].
    rewrite Hx. cbn. apply list_find_Some in Hx as (Hx & Hid & _).
    f_equal. apply Hcons; [by eapply list_elem_of_lookup_2|done|done]. }
  intros e He d Hd. destruct (Hclosed e He d Hd) as (p & Hp & <-).
  rewrite !Hfind by done. apply Hrank; [done..|]. by apply dependents_elem.
Qed.

(** Every dependency is indexed. *)
Definition index_closed (byID : gmap string HistoryEvent) (nodes : list HistoryEvent) : Prop :=
  ∀ e, e ∈ nodes → ∀ d, d ∈ HistoryDependencies e → is_Some (byID !! d).

Lemma complete_length byID entries out :
  keyed byID → entries ≡ₚ map_to_list byID →
  greedy history_less (dependents entries.*2) entries.*2 out →
  length out = size byID ↔ ∀ e, e ∈ entries.*2 → e ∈ out.
Proof.
  intros Hk Hent Hg. rewrite <-(size_nodes byID entries Hent).
  assert (NoDup out) by (by apply greedy_NoDup in Hg).
  assert (NoDup entries.*2) by (by apply (nodes_NoDup byID)).
  assert (∀ e, e ∈ out → e ∈ entries.*2) by (intros; by apply (greedy_subset _ _ _ _ Hg)).
  split; [|intros; apply Permutation_length, NoDup_Permutation; [done..|by split; auto]].
  by apply NoDup_full.
Qed.

(** The complete behaviour on an index, for every iteration order. *)
Lemma order_entries_cases byID entries :
  keyed byID → entries ≡ₚ map_to_list byID →
  (∃ out, order_entries byID entries = Ok out ∧ history_order entries.*2 out ∧
          index_closed byID entries.*2 ∧ dependency_acyclic entries.*2) ∨
  (order_entries byID entries = Err ErrUnclassified ∧
   ¬ (index_closed byID entries.*2 ∧ dependency_acyclic entries.*2)).
Proof.
  intros Hk Hent. destruct (fold_each (count_entry byID) entries (MkOrderState ∅ ∅ [])) as [st|err] eqn:Hst.
  2:{ right. unfold order_entries. rewrite Hst. cbn. rewrite (count_entries_Err _ _ _ _ Hst).
      split; [done|]. intros [Hc _]. destruct (count_entries_total byID entries (MkOrderState ∅ ∅ []))
        as [st' ?]; [|congruence].
      intros id e He. apply Hc, list_elem_of_fmap. by exists (id, e). }
  assert (index_closed byID entries.*2) as Hclosed.
  { intros e ([id x] & -> & Hin)%list_elem_of_fmap.
    apply count_entries_spec in Hst as [Hdeps _]; [by eapply Hdeps|by eapply entries_keys_NoDup]. }
  destruct (order_entries_total byID Hk entries Hent Hclosed) as (out & [Hg Hmax] & ->).
  pose proof (complete_length _ _ _ Hk Hent Hg) as Hlen. unfold reject_if.
  destruct (bool_decide_reflect (length out = size byID)) as [Heq|Hne]; cbn.
  - left. assert (history_order entries.*2 out) as Ho by (split; [done|by apply Hlen]).
    exists out. split_and!; [done..|]. apply (history_order_acyclic _ out); [| |done].
    + intros a b. by apply (nodes_key_inj byID).
    + intros e He d Hd. destruct (Hclosed e He d Hd) as [p Hp]. exists p.
      assert (ev_ID p = d) as <- by eauto. split; [|done]. by apply (nodes_lookup byID).
  - right. split; [done|]. intros [_ Hac]. apply Hne, Hlen.
    exact (maximal_greedy_complete _ _ _ _ (orderable_acyclic _ Hac) (conj Hg Hmax)).
Qed.

(** Success on exactly the orderable histories. *)
Lemma order_history_cases events :
  (∃ out, OrderHistoryEvents events = Ok out ∧ history_order events out ∧ orderable events) ∨
  (OrderHistoryEvents events = Err ErrUnclassified ∧ ¬ orderable events).
Proof.
  unfold OrderHistoryEvents. destruct (index_events events) as [byID|err] eqn:Hindex.
  2:{ right. cbn. rewrite (index_events_Err _ _ Hindex). split; [done|].
      intros [[byID ?]%index_events_consistent _]. congruence. }
  cbn [mbind result_bind].
  assert (consistent events) as Hcons by (apply index_events_consistent; eauto).
  destruct (index_events_spec _ _ Hindex) as [Hkeyed Hin].
  set (entries := map_to_list byID). assert (entries ≡ₚ map_to_list byID) as Hent by done.
  assert (∀ e, e ∈ entries.*2 ↔ e ∈ events) as Hnodes
    by (intros e; rewrite Hin; by apply nodes_lookup).
  assert (dependency_closed events ↔ index_closed byID entries.*2) as Hclosed.
  { unfold dependency_closed, index_closed. setoid_rewrite Hnodes.
    split; intros Hc e He d Hd; destruct (Hc e He d Hd) as [p Hp].
    - destruct Hp as [Hp%Hin <-]. eauto.
    - exists p. assert (ev_ID p = d) as <- by eauto. split; [by apply Hin|done]. }
  assert (dependency_acyclic events ↔ dependency_acyclic entries.*2) as Hac
    by (unfold dependency_acyclic; by setoid_rewrite Hnodes).
  destruct (order_entries_cases byID entries Hkeyed Hent) as [(out & -> & Ho & Hc & Ha)|[-> Hn]].
  - left. exists out. apply Hclosed in Hc. apply (history_order_ext _ events) in Ho; [|done].
    apply Hac in Ha. done.
  - right. split; [done|]. intros (_ & ? & ?). apply Hn. tauto.
Qed.

(** Order soundness, as the clients use it. *)
Lemma order_history_Ok events out :
  OrderHistoryEvents events = Ok out →
  NoDup (ev_ID <$> out) ∧ (∀ e, e ∈ out ↔ e ∈ events) ∧
  (∀ l1 e l2, out = l1 ++ e :: l2 → ∀ d, d ∈ HistoryDependencies e → d ∈ ev_ID <$> l1).
Proof.
  destruct (order_history_cases events) as [(out' & -> & Ho & Hcons & Hclosed & _)|[-> _]]; [|done].
  intros [= ->]. destruct Ho as [[Hg Hmax] Hall].
  pose proof (greedy_subset _ _ _ _ Hg) as Hsub. split; [|split; [by split; auto|]].
  { apply NoDup_fmap_2_strong; [|by eapply greedy_NoDup]. intros a b Ha%Hsub Hb%Hsub. by apply Hcons. }
  intros l1 e l2 Heq d Hd. assert (e ∈ out) as He%Hsub by (rewrite Heq; set_solver).
  destruct (Hclosed e He d Hd) as (p & Hp & <-). apply list_elem_of_fmap_2.
  apply (greedy_topological _ _ _ _ Hg _ _ _ Heq p Hp). by apply dependents_elem.
Qed.

Lemma order_history_same ev1 ev2 :
  (∀ e, e ∈ ev1 ↔ e ∈ ev2) → OrderHistoryEvents ev1 = OrderHistoryEvents ev2.
Proof.
  intros He. assert (orderable ev1 ↔ orderable ev2) as Hiff.
  { unfold orderable, consistent, dependency_closed, dependency_acyclic. by setoid_rewrite He. }
  destruct (order_history_cases ev1) as [(o1 & -> & H1 & ?)|[-> ?]],
    (order_history_cases ev2) as [(o2 & -> & H2 & ?)|[-> ?]]; try tauto.
  f_equal. apply (history_order_ext _ ev2) in H1; [|done]. by eapply history_order_unique.
Qed.

Lemma OrderHistoryEvents_total events : no_fuel_error (OrderHistoryEvents events).
Proof. by destruct (order_history_cases events) as [(out & -> & _)|[-> _]]. Qed.
#[export] Hint Resolve OrderHistoryEvents_total : total.

(** A dependency-closed part of an ordered history is ordered the same way. *)
Lemma order_history_restrict events part out :
  OrderHistoryEvents events = Ok out → (∀ e, e ∈ part → e ∈ events) →
  (∀ e x, e ∈ part → x ∈ events → ev_ID x ∈ HistoryDependencies e → x ∈ part) →
  OrderHistoryEvents part = Ok (filter (λ e, e ∈ part) out).
Proof.
  intros Hrun Hsub Hdeps.
  destruct (order_history_cases events) as [(o & Ho & [[Hg _] Hall] & Hcons & Hclosed & Hac)|[? _]]; [|congruence].
  rewrite Hrun in Ho. injection Ho as <-.
  assert (history_order part (filter (λ e, e ∈ part) out)) as Hord.
  { assert (∀ e, e ∈ part → e ∈ filter (λ e, e ∈ part) out) as Hin
      by (intros e He; apply list_elem_of_filter; auto).
    split; [|done]. split; [|intros c (Hc & Hn & _); auto].
    eapply greedy_filter; [| | |exact Hg].
    - intros x. split; [auto|tauto].
    - intros x y Hx Hy. rewrite !dependents_elem. split; [intros [? ?]; auto|intros [_ ?]; done].
    - intros x c Hx Hc [_ Hd]%dependents_elem. eauto. }
  destruct (order_history_cases part) as [(o & -> & Ho & _)|[_ Hn]].
  - f_equal. by eapply history_order_unique.
  - destruct Hn. split_and!.
    + intros a b Ha Hb. apply Hcons; auto.
    + intros e He d Hd. destruct (Hclosed e (Hsub e He) d Hd) as (x & Hx & <-). eauto.
    + destruct Hac as [rank Hr]. exists rank. eauto.
Qed.

(** ** Properties *)

(** [OrderHistoryEvents] succeeds exactly when no two events share an id with
    different payloads, every dependency is present, and the dependencies have no
    cycle; every failure is an ordinary error, so the loop never runs out of steps. *)
Theorem order_history_succeeds_iff (events : list HistoryEvent) :
  match OrderHistoryEvents events with
  | Ok _ => orderable events
  | Err e => e = ErrUnclassified ∧ ¬ orderable events
  end.
Proof. by destruct (order_history_cases events) as [(out & -> & ? & ?)|[-> ?]]. Qed.

(** A successful ordering lists every event exactly once, after all of its
    dependencies, and at every position the emitted event precedes (by creation
    time, then id) every other remaining event whose dependencies are all emitted. *)
Theorem order_history_sound (events out : list HistoryEvent) :
  OrderHistoryEvents events = Ok out →
  NoDup (ev_ID <$> out) ∧
  (∀ e, e ∈ out ↔ e ∈ events) ∧
  (∀ l1 e l2, out = l1 ++ e :: l2 →
     (∀ d, d ∈ HistoryDependencies e → d ∈ ev_ID <$> l1) ∧
     (∀ y, y ∈ l2 → (∀ d, d ∈ HistoryDependencies y → d ∈ ev_ID <$> l1) →
           history_less e y = true)).
Proof.
  intros Hrun. destruct (order_history_Ok _ _ Hrun) as (Hids & Hsame & Hdeps).
  split; [done|split; [done|]]. intros l1 e l2 Heq. split; [by eapply Hdeps|].
  intros y Hy Hready.
  destruct (order_history_cases events) as [(out' & Hrun' & [[Hg _] _] & Hcons & _)|[? _]]; [|congruence].
  rewrite Hrun in Hrun'. injection Hrun' as <-.
  pose proof (greedy_NoDup _ _ _ _ Hg) as Hnd. rewrite Heq in Hnd.
  apply NoDup_app in Hnd as (_ & Hdis & Hnd). apply NoDup_cons in Hnd as [He _].
  destruct (greedy_least _ _ _ _ _ _ _ Hg Heq y) as [->|?]; [|done|done].
  split; [apply Hsame; rewrite Heq; set_solver|split; [intros Hin; apply (Hdis y Hin); by right|]].
  intros x Hx [_ Hd%Hready]%dependents_elem. apply list_elem_of_fmap in Hd as (p & Hid & Hp).
  assert (x = p) as -> by (apply Hcons; [done|apply Hsame; rewrite Heq; set_solver|done]). done.
Qed.

(** Replicas that know the same events compute the same order (or all fail),
    whatever the order or multiplicity in which they received them. *)
Theorem order_history_convergent (ev1 ev2 : list HistoryEvent) :
  (∀ e, e ∈ ev1 ↔ e ∈ ev2) → OrderHistoryEvents ev1 = OrderHistoryEvents ev2.
Proof.
  apply order_history_same.
Qed.

(** Ranging over the index in any order yields the result of ranging over it in
    any other order, although both the heap and the child lists are filled by that
    iteration. *)
Theorem order_entries_iteration_independent (byID : gmap string HistoryEvent)
    (entries1 entries2 : list (string * HistoryEvent)) :
  keyed byID → entries1 ≡ₚ map_to_list byID → entries2 ≡ₚ map_to_list byID →
  order_entries byID entries1 = order_entries byID entries2.
Proof.
  intros Hk H1 H2. assert (∀ e, e ∈ entries1.*2 ↔ e ∈ entries2.*2) as He
    by (intros e; by rewrite H1, H2).
  assert (index_closed byID entries1.*2 ↔ index_closed byID entries2.*2)
    by (unfold index_closed; by setoid_rewrite He).
  assert (dependency_acyclic entries1.*2 ↔ dependency_acyclic entries2.*2)
    by (unfold dependency_acyclic; by setoid_rewrite He).
  destruct (order_entries_cases byID entries1 Hk H1) as [(o1 & -> & Ho1 & ?)|[-> ?]],
    (order_entries_cases byID entries2 Hk H2) as [(o2 & -> & Ho2 & ?)|[-> Hn]]; try tauto.
  f_equal. apply (history_order_ext _ entries2.*2) in Ho1; [|done]. by eapply history_order_unique.
Qed.

(** ** Witnesses *)

Module HistoryOrderSamples.
Import HistorySamples.
(** Recorded out of order, with clocks that moved back and one duplicate. *)
Definition events := [archive; rename; rebirth; birth; rename].
Definition ordered := [birth; rename; rebirth; archive].
Definition index : gmap string HistoryEvent := list_to_map ((λ e, (ev_ID e, e)) <$> ordered).
End HistoryOrderSamples.

Lemma order_history_sound_witness :
  ∃ out, OrderHistoryEvents HistoryOrderSamples.events = Ok out ∧ NoDup (ev_ID <$> out).
Proof.
  exists HistoryOrderSamples.ordered.
  assert (OrderHistoryEvents HistoryOrderSamples.events = Ok HistoryOrderSamples.ordered) as H
    by (vm_compute; reflexivity).
  split; [exact H|]. exact (proj1 (order_history_sound _ _ H)).
Defined.

Lemma order_history_convergent_witness :
  OrderHistoryEvents HistoryOrderSamples.events = OrderHistoryEvents HistoryOrderSamples.ordered.
Proof.
  apply order_history_convergent. intros e.
  unfold HistoryOrderSamples.events, HistoryOrderSamples.ordered.
  rewrite !elem_of_cons. tauto.
Defined.

Lemma order_entries_iteration_independent_witness :
  order_entries HistoryOrderSamples.index (map_to_list HistoryOrderSamples.index) =
  order_entries HistoryOrderSamples.index (reverse (map_to_list HistoryOrderSamples.index)).
Proof.
  apply order_entries_iteration_independent.
  - intros id e H. apply elem_of_list_to_map_2, list_elem_of_fmap in H as (x & [= -> ->] & _). done.
  - done.
  - apply reverse_Permutation.
Defined.
