(* ===== verification/ContextBranch.v ===== *)
(** * Context branch identities

    Models [ContextBranch], [ContextBranchProjection] and their operations of
    [cli/internal/domain/context_branch.go].  Branch names are mutable projections
    of binding events; every binding event names the event it supersedes, which
    makes it a compare-and-swap on the identity and on the name. *)
From S2P Require Import Prelude GoStrings Sha256 Values History TopoSort HistoryOrder.

Record ContextBranch := MkContextBranch {
  cb_ID : string;
  cb_Name : string;
  cb_EventID : string;
  cb_Archived : bool;
}.

#[export] Instance ContextBranch_eq_dec : EqDecision ContextBranch.
Proof. solve_decision. Defined.

Record ContextBranchProjection := MkProjection {
  Active : gmap string ContextBranch;
  ByID : gmap string ContextBranch;
  Released : gmap string string;
}.

#[export] Instance ContextBranchProjection_eq_dec : EqDecision ContextBranchProjection.
Proof. solve_decision. Defined.

Definition empty_projection : ContextBranchProjection := MkProjection ∅ ∅ ∅.

(** [p.Released\[name\]]: the empty string when the name was never released. *)
Definition released (p : ContextBranchProjection) (name : string) : string :=
  default "" (Released p !! name).

Definition present {A} (m : gmap string A) (k : string) : bool := bool_decide (is_Some (m !! k)).

Definition is_start (e : HistoryEvent) : bool := (ev_Kind e =? "birth") || (ev_Kind e =? "orphan").

(** The name the event finds its branch under. *)
Definition old_name (e : HistoryEvent) : string :=
  if ev_Kind e =? "rename" then ev_PreviousBranch e else ev_Branch e.

(** The branch a rename or archive continues; an unknown identity is accepted only
    as the legacy identity of the old name. *)
Definition continued_branch (p : ContextBranchProjection) (e : HistoryEvent) : result ContextBranch :=
  match ByID p !! ev_BranchID e with
  | Some b => Ok b
  | None =>
      reject_if ((ev_BindingParent e <>? "") || (released p (old_name e) <>? "") ||
                 (ev_BranchID e <>? LegacyContextBranchID (ev_RepoID e) (old_name e))) ErrUnclassified ;;
      reject_if (match Active p !! old_name e with
                 | Some active => cb_ID active <>? ev_BranchID e
                 | None => false
                 end) ErrUnclassified ;;
      Ok (MkContextBranch (ev_BranchID e) (old_name e) "" false)
  end.

Definition apply (p : ContextBranchProjection) (e : HistoryEvent) : result ContextBranchProjection :=
  if is_start e then
    reject_if (present (ByID p) (ev_BranchID e)) ErrUnclassified ;;
    reject_if (present (Active p) (ev_Branch e)) ErrUnclassified ;;
    reject_if (released p (ev_Branch e) <>? ev_BindingParent e) ErrUnclassified ;;
    let b := MkContextBranch (ev_BranchID e) (ev_Branch e) (ev_ID e) false in
    Ok (MkProjection (<[cb_Name b := b]> (Active p)) (<[cb_ID b := b]> (ByID p)) (Released p))
  else
    b ← continued_branch p e;
    reject_if (cb_Archived b || (cb_EventID b <>? ev_BindingParent e) || (cb_Name b <>? old_name e))
      ErrUnclassified ;;
    (if ev_Kind e =? "rename" then
       reject_if (present (Active p) (ev_Branch e)) ErrUnclassified ;;
       reject_if (released p (ev_Branch e) <>? ev_NameParent e) ErrUnclassified
     else Ok tt) ;;
    let active := delete (old_name e) (Active p) in
    let released := <[old_name e := ev_ID e]> (Released p) in
    let archived := ev_Kind e =? "archive" in
    let b := MkContextBranch (cb_ID b) (if archived then cb_Name b else ev_Branch e) (ev_ID e) archived in
    Ok (MkProjection (if archived then active else <[cb_Name b := b]> active)
          (<[cb_ID b := b]> (ByID p)) released).

Definition ProjectContextBranches (events : list HistoryEvent) : result ContextBranchProjection :=
  let bindings := filter (λ e, IsBranchBindingEvent e = true) events in
  ordered ← OrderHistoryEvents bindings;
  fold_each apply ordered empty_projection.

Definition Identity (p : ContextBranchProjection) (repo name : string) : string :=
  match Active p !! name with
  | Some b => cb_ID b
  | None => LegacyContextBranchID repo name
  end.

Definition ValidateHistoryBranch (events : list HistoryEvent) (e : HistoryEvent) : result unit :=
  if IsBranchBindingEvent e then
    _ ← ProjectContextBranches (events ++ [e]);
    Ok tt
  else if ev_Kind e <>? "advance" then Ok tt
  else
    p ← ProjectContextBranches events;
    match Active p !! ev_Branch e with
    | Some b => reject_if (cb_ID b <>? ev_BranchID e) ErrUnclassified
    | None =>
        reject_if ((released p (ev_Branch e) <>? "") ||
                   (default "" (cb_ID <$> ByID p !! ev_BranchID e) <>? "")) ErrUnclassified
    end.

(** ** Specification

    What the projection means, read off the list of applied events. *)

(** The branch record left behind by a binding event. *)
Definition branch_after (e : HistoryEvent) : ContextBranch :=
  MkContextBranch (ev_BranchID e) (ev_Branch e) (ev_ID e) (ev_Kind e =? "archive").

Definition releases (e : HistoryEvent) (name : string) : Prop :=
  is_start e = false ∧ old_name e = name.
#[export] Instance releases_dec e name : Decision (releases e name) := _.

(** The last event satisfying a predicate. *)
Definition last_such (P : HistoryEvent → Prop) `{∀ e, Decision (P e)} (l : list HistoryEvent)
    : option HistoryEvent := last (filter P l).

Record projects (l : list HistoryEvent) (p : ContextBranchProjection) : Prop := {
  projects_ByID i : ByID p !! i = branch_after <$> last_such (λ e, ev_BranchID e = i) l;
  projects_Active n b :
    Active p !! n = Some b ↔ ByID p !! cb_ID b = Some b ∧ cb_Name b = n ∧ cb_Archived b = false;
  projects_Released n : Released p !! n = ev_ID <$> last_such (λ e, releases e n) l;
}.

Lemma last_such_snoc (P : HistoryEvent → Prop) `{∀ e, Decision (P e)} l e :
  last_such P (l ++ [e]) = if decide (P e) then Some e else last_such P l.
Proof.
  unfold last_such. rewrite filter_app, filter_cons, filter_nil.
  case_decide; [by rewrite last_snoc|by rewrite app_nil_r].
Qed.

Lemma last_such_Some (P : HistoryEvent → Prop) `{∀ e, Decision (P e)} l e :
  last_such P l = Some e → e ∈ l ∧ P e.
Proof.
  unfold last_such. intros Hl. apply last_Some_elem_of in Hl.
  by apply list_elem_of_filter in Hl as [? ?].
Qed.

Lemma projects_ID l p i b : projects l p → ByID p !! i = Some b → cb_ID b = i.
Proof.
  intros Hp. rewrite (projects_ByID _ _ Hp). by intros (e & [_ He]%last_such_Some & ->)%fmap_Some_1.
Qed.

Lemma projects_empty : projects [] empty_projection.
Proof.
  split; cbn; intros; rewrite ?lookup_empty; [done| |done]. set_solver.
Qed.

(** The two successful outcomes of [apply]. *)
Lemma apply_Ok p e p' :
  apply p e = Ok p' →
  (is_start e = true ∧ ByID p !! ev_BranchID e = None ∧ Active p !! ev_Branch e = None ∧
   released p (ev_Branch e) = ev_BindingParent e ∧
   p' = let b := MkContextBranch (ev_BranchID e) (ev_Branch e) (ev_ID e) false in
        MkProjection (<[ev_Branch e := b]> (Active p)) (<[ev_BranchID e := b]> (ByID p)) (Released p)) ∨
  (is_start e = false ∧ ∃ b, continued_branch p e = Ok b ∧
   cb_Archived b = false ∧ cb_EventID b = ev_BindingParent e ∧ cb_Name b = old_name e ∧
   (ev_Kind e = "rename" →
      Active p !! ev_Branch e = None ∧ released p (ev_Branch e) = ev_NameParent e) ∧
   p' = let b' := MkContextBranch (cb_ID b)
                    (if ev_Kind e =? "archive" then cb_Name b else ev_Branch e) (ev_ID e)
                    (ev_Kind e =? "archive") in
        MkProjection (if ev_Kind e =? "archive" then delete (old_name e) (Active p)
                      else <[cb_Name b' := b']> (delete (old_name e) (Active p)))
          (<[cb_ID b := b']> (ByID p)) (<[old_name e := ev_ID e]> (Released p))).
Proof.
  unfold apply, present. destruct (is_start e); intros H; inv_ok; bools.
  - left. rewrite <-!eq_None_not_Some in *. subst. done.
  - right. split; [done|]. exists a. split_and!; try done.
    intros Hk. rewrite (bool_decide_true (ev_Kind e = "rename")) in * by done. inv_ok. bools.
    by rewrite <-eq_None_not_Some in *.
Qed.

(** The branch a continuation starts from, under the specification: the identity has
    either the unarchived record found under the old name, or none at all and
    then nobody owns the old name. *)
Lemma continued_branch_spec l p e b :
  projects l p → continued_branch p e = Ok b →
  cb_ID b = ev_BranchID e ∧
  (ByID p !! ev_BranchID e = Some b ∨
   (ByID p !! ev_BranchID e = None ∧ Active p !! old_name e = None ∧ ev_BindingParent e = "" ∧
    released p (old_name e) = "" ∧ ev_BranchID e = LegacyContextBranchID (ev_RepoID e) (old_name e) ∧
    b = MkContextBranch (ev_BranchID e) (old_name e) "" false)).
Proof.
  intros Hp. unfold continued_branch. destruct (ByID p !! ev_BranchID e) as [b'|] eqn:Hb.
  { intros [= <-]. split; [by eapply projects_ID|by left]. }
  intros H. inv_ok. bools. subst b. split; [done|right]. split_and!; try done.
  destruct (Active p !! old_name e) as [a|] eqn:Ha; [|done].
  bools. apply (projects_Active _ _ Hp) in Ha as (Ha & _). congruence.
Qed.

Lemma binding_kinds e :
  IsBranchBindingEvent e = true →
  is_start e = true ∨ (is_start e = false ∧ ev_Kind e = "rename") ∨
  (is_start e = false ∧ ev_Kind e = "archive" ∧ old_name e = ev_Branch e).
Proof.
  unfold IsBranchBindingEvent, is_start, old_name.
  repeat case_bool_decide; intros Hb; try done; try tauto; right; naive_solver.
Qed.

(** Every projected name belongs to a projected identity. *)
Lemma projects_Active_name l p n b : projects l p → Active p !! n = Some b → cb_Name b = n.
Proof. intros Hp Ha. by apply (projects_Active _ _ Hp) in Ha as (_ & ? & _). Qed.

Lemma apply_start_projects l p e b :
  projects l p → is_start e = true →
  ByID p !! ev_BranchID e = None → Active p !! ev_Branch e = None →
  b = MkContextBranch (ev_BranchID e) (ev_Branch e) (ev_ID e) false →
  projects (l ++ [e])
    (MkProjection (<[ev_Branch e := b]> (Active p)) (<[ev_BranchID e := b]> (ByID p)) (Released p)).
Proof.
  intros Hp Hs Hid Hn Hb.
  assert (branch_after e = b) as Hafter.
  { subst b. unfold branch_after. f_equal. unfold is_start in Hs.
    repeat case_bool_decide; try done; congruence. }
  split; cbn.
  - intros i. rewrite last_such_snoc, lookup_insert.
    case_decide; [by rewrite <-Hafter|apply (projects_ByID _ _ Hp)].
  - intros n c. rewrite !lookup_insert. destruct (decide (ev_Branch e = n)) as [<-|Hne].
    + split; [intros [= <-]; subst b; cbn; by rewrite decide_True|].
      intros (Hc & Hname & Har). case_decide; [done|].
      assert (Active p !! ev_Branch e = Some c) as ?
        by (by apply (projects_Active _ _ Hp)). congruence.
    + rewrite (projects_Active _ _ Hp). case_decide as Hi; [|done].
      split; [intros (Hc & _); congruence|]. intros ([= <-] & Hname & _). by subst b.
  - intros n. rewrite last_such_snoc, decide_False; [apply (projects_Released _ _ Hp)|].
    unfold releases. rewrite Hs. naive_solver.
Qed.

Lemma apply_continue_projects l p e b :
  projects l p → IsBranchBindingEvent e = true → is_start e = false →
  continued_branch p e = Ok b → cb_Archived b = false → cb_Name b = old_name e →
  (ev_Kind e = "rename" → Active p !! ev_Branch e = None) →
  projects (l ++ [e])
    (MkProjection (if ev_Kind e =? "archive" then delete (old_name e) (Active p)
                   else <[ev_Branch e := branch_after e]> (delete (old_name e) (Active p)))
       (<[ev_BranchID e := branch_after e]> (ByID p)) (<[old_name e := ev_ID e]> (Released p))).
Proof.
  intros Hp Hbind Hs Hcont Har Hname Hren.
  destruct (continued_branch_spec _ _ _ _ Hp Hcont) as [Hid Hb].
  (* the old name is owned by this identity or by nobody *)
  assert (∀ c, Active p !! old_name e = Some c → cb_ID c = ev_BranchID e) as Hown.
  { intros c Hc. destruct Hb as [Hb|(_ & Hnone & _)]; [|congruence].
    assert (Active p !! old_name e = Some b) as Hb'
      by (apply (projects_Active _ _ Hp); by rewrite Hid).
    congruence. }
  assert (∀ n c, Active p !! n = Some c → cb_ID c = ev_BranchID e → n = old_name e) as Honly.
  { intros n c Hc Hci. apply (projects_Active _ _ Hp) in Hc as (Hc & <- & _).
    rewrite Hci in Hc. destruct Hb as [Hb|(Hnone & _)]; congruence. }
  assert (∀ n c, delete (old_name e) (Active p) !! n = Some c ↔
    ByID p !! cb_ID c = Some c ∧ cb_ID c ≠ ev_BranchID e ∧ cb_Name c = n ∧ cb_Archived c = false) as Hdel.
  { intros n c. rewrite lookup_delete_Some, (projects_Active _ _ Hp). split.
    - intros (Hne & Hc). split_and!; try apply Hc. intros Hci. apply Hne. symmetry.
      apply (Honly n c); [by apply (projects_Active _ _ Hp)|done].
    - intros (Hc & Hne & Hcn & Hca). split; [|done]. intros <-. apply Hne, Hown.
      by apply (projects_Active _ _ Hp). }
  clear Hown Honly. split; cbn.
  - intros i. rewrite last_such_snoc, lookup_insert.
    case_decide; [done|apply (projects_ByID _ _ Hp)].
  - intros n c. rewrite lookup_insert.
    destruct (binding_kinds _ Hbind) as [?|[[_ Hk]|(_ & Hk & _)]]; [congruence|..]; unfold branch_after.
    + rewrite (bool_decide_false (ev_Kind e = "archive")) by congruence. rewrite lookup_insert.
      destruct (decide (ev_Branch e = n)) as [<-|Hne].
      * split; [intros [= <-]; cbn; by rewrite decide_True|].
        intros (Hc & Hcn & Hca). case_decide; [done|].
        assert (Active p !! ev_Branch e = Some c) as ?
          by (by apply (projects_Active _ _ Hp)). rewrite Hren in *; done.
      * rewrite Hdel. case_decide as Hi; [|naive_solver].
        split; [intros (_ & ? & _); congruence|]. intros ([= <-] & Hcn & _). done.
    + rewrite (bool_decide_true (ev_Kind e = "archive")) by done. rewrite Hdel. case_decide; [|naive_solver].
      split; [intros (_ & ? & _); congruence|]. intros ([= <-] & _ & Hca). done.
  - intros n. rewrite last_such_snoc, lookup_insert. unfold releases.
    destruct (decide (old_name e = n)); [by rewrite decide_True by done|].
    rewrite decide_False by naive_solver. apply (projects_Released _ _ Hp).
Qed.

(** Applying a binding event preserves the correspondence. *)
Lemma apply_projects l p e p' :
  projects l p → IsBranchBindingEvent e = true → apply p e = Ok p' → projects (l ++ [e]) p'.
Proof.
  intros Hp Hbind [(Hs & Hi & Hn & _ & ->)|(Hs & b & Hcont & Har & Hev & Hname & Hren & ->)]%apply_Ok.
  - by apply apply_start_projects.
  - destruct (continued_branch_spec _ _ _ _ Hp Hcont) as [Hid _].
    pose proof (apply_continue_projects _ _ _ _ Hp Hbind Hs Hcont Har Hname
      (λ Hk, proj1 (Hren Hk))) as Hnew.
    enough (branch_after e = MkContextBranch (cb_ID b)
      (if ev_Kind e =? "archive" then cb_Name b else ev_Branch e) (ev_ID e)
      (ev_Kind e =? "archive")) as Hafter.
    { cbn zeta. rewrite <-Hafter, Hid. exact Hnew. }
    unfold branch_after. rewrite Hid, Hname. f_equal.
    destruct (binding_kinds _ Hbind) as [?|[[_ Hk]|(_ & Hk & ->)]]; [congruence|..]; by rewrite Hk.
Qed.

Lemma apply_all_projects ordered p :
  Forall (λ e, IsBranchBindingEvent e = true) ordered →
  fold_each apply ordered empty_projection = Ok p → projects ordered p.
Proof.
  intros Hall. apply (fold_each_invariant apply projects); [apply projects_empty|].
  rewrite Forall_forall in Hall. intros pre x s1 s2 H1 Hx. eauto using apply_projects.
Qed.

Definition bindings (events : list HistoryEvent) : list HistoryEvent :=
  filter (λ e, IsBranchBindingEvent e = true) events.

Lemma project_Ok events p :
  ProjectContextBranches events = Ok p ↔
  ∃ ordered, OrderHistoryEvents (bindings events) = Ok ordered ∧
    fold_each apply ordered empty_projection = Ok p.
Proof. unfold ProjectContextBranches. cbn zeta. rewrite bind_Ok. done. Qed.

(** The state in which each event of a successful projection was applied. *)
Lemma project_at events p :
  ProjectContextBranches events = Ok p →
  ∃ ordered, OrderHistoryEvents (bindings events) = Ok ordered ∧ projects ordered p ∧
    ∀ l e l', ordered = l ++ e :: l' →
      ∃ q q', projects l q ∧ apply q e = Ok q' ∧ projects (l ++ [e]) q'.
Proof.
  intros (ordered & Hord & Hfold)%project_Ok. exists ordered.
  destruct (order_history_Ok _ _ Hord) as (_ & Hsame & _).
  assert (Forall (λ e, IsBranchBindingEvent e = true) ordered) as Hbind.
  { apply Forall_forall. intros e [He _]%Hsame%list_elem_of_filter. done. }
  split; [done|]. split; [by apply apply_all_projects|]. intros l e l' ->.
  apply fold_each_app in Hfold as (q & Hq & Hrest). cbn [fold_each] in Hrest. inv_ok.
  apply Forall_app in Hbind as [Hbl [He Hbl']%Forall_cons].
  assert (projects l q) as Hl by (by apply apply_all_projects).
  exists q, a. split; [done|]. split; [done|]. by eapply apply_projects.
Qed.

(** Two distinct events of a list, in order of occurrence. *)
Lemma two_positions {A} (l : list A) a b :
  a ∈ l → b ∈ l → a ≠ b →
  (∃ l1 l2 l3, l = l1 ++ a :: l2 ++ b :: l3) ∨ (∃ l1 l2 l3, l = l1 ++ b :: l2 ++ a :: l3).
Proof.
  intros Ha Hb Hne. apply list_elem_of_split in Ha as (l1 & l2 & ->).
  apply elem_of_app in Hb as [Hb|[?|Hb]%elem_of_cons]; [|done|].
  - apply list_elem_of_split in Hb as (k1 & k2 & ->). right. exists k1, k2, l2. by rewrite <-(assoc_L (++)).
  - apply list_elem_of_split in Hb as (k1 & k2 & ->). left. by exists l1, k1, k2.
Qed.

(** A dependency of an event cannot be an event that occurs at or after it. *)
Lemma dependency_precedes ordered l1 e l2 x :
  NoDup (ev_ID <$> ordered) → ordered = l1 ++ e :: l2 → x ∈ e :: l2 →
  (∀ l1 e l2, ordered = l1 ++ e :: l2 → ∀ d, d ∈ HistoryDependencies e → d ∈ ev_ID <$> l1) →
  ev_ID x ∉ HistoryDependencies e.
Proof.
  intros Hnd Heq Hx Hdeps Hin. specialize (Hdeps _ _ _ Heq _ Hin).
  rewrite Heq, fmap_app in Hnd. apply NoDup_app in Hnd as (_ & Hdis & _).
  apply (Hdis _ Hdeps). by apply list_elem_of_fmap_2.
Qed.

(** The last match in a list is at or after any given match. *)
Lemma last_such_after (P : HistoryEvent → Prop) `{∀ e, Decision (P e)} l1 e l2 :
  P e → ∃ x, last_such P (l1 ++ e :: l2) = Some x ∧ x ∈ e :: l2.
Proof.
  intros He. induction l2 as [|y l2 IH] using rev_ind.
  - exists e. rewrite last_such_snoc, decide_True by done. split; [done|left].
  - rewrite app_comm_cons, (assoc_L (++)), last_such_snoc. case_decide.
    + exists y. split; [done|]. set_solver.
    + destruct IH as (x & Hx & Hin). exists x. split; [done|]. set_solver.
Qed.

(** A later binding of an identity names the event it supersedes, the identity's
    last one. *)
Lemma apply_identity_parent l1 e1 l2 q e q' :
  projects (l1 ++ e1 :: l2) q → apply q e = Ok q' → ev_BranchID e1 = ev_BranchID e →
  ∃ prev, prev ∈ e1 :: l2 ∧ ev_BindingParent e = ev_ID prev ∧ ev_Kind prev ≠ "archive".
Proof.
  intros Hp Happ Hid.
  destruct (last_such_after (λ x, ev_BranchID x = ev_BranchID e) l1 e1 l2 Hid) as (prev & Hlast & Hin).
  assert (ByID q !! ev_BranchID e = Some (branch_after prev)) as Hby
    by (by rewrite (projects_ByID _ _ Hp), Hlast).
  exists prev. split; [done|].
  apply apply_Ok in Happ as [(_ & Hnone & _)|(_ & b & Hcont & Har & Hev & _)]; [congruence|].
  unfold continued_branch in Hcont. rewrite Hby in Hcont. injection Hcont as <-.
  cbn in *. bools. done.
Qed.

(** The name an event takes and the token it presents for it. *)
Definition claims (e : HistoryEvent) : option (string * string) :=
  if is_start e then Some (ev_Branch e, ev_BindingParent e)
  else if ev_Kind e =? "rename" then Some (ev_Branch e, ev_NameParent e)
  else None.

(** A successful claim found the name free and presented its release token. *)
Lemma apply_claims q e q' n t :
  apply q e = Ok q' → claims e = Some (n, t) →
  Active q !! n = None ∧ released q n = t ∧ is_Some (Active q' !! n).
Proof.
  unfold claims.
  intros [(Hs & _ & Hn & Ht & ->)|(Hs & b & _ & _ & _ & _ & Hren & ->)]%apply_Ok; rewrite Hs.
  - intros [= <- <-]. cbn. by rewrite lookup_insert_eq.
  - case_bool_decide as Hk; [|done]. intros [= <- <-]. destruct (Hren Hk).
    rewrite (bool_decide_false (ev_Kind e = "archive")) by congruence. cbn.
    by rewrite lookup_insert_eq.
Qed.

(** A name stays taken unless the event releases it. *)
Lemma apply_keeps q e q' n :
  apply q e = Ok q' → is_Some (Active q !! n) → is_Some (Active q' !! n) ∨ releases e n.
Proof.
  intros [(Hs & _ & _ & _ & ->)|(Hs & b & _ & _ & _ & _ & _ & ->)]%apply_Ok [c Hc]; cbn.
  - left. rewrite lookup_insert. case_decide; eauto.
  - destruct (decide (old_name e = n)) as [|Hne]; [by right|left].
    assert (delete (old_name e) (Active q) !! n = Some c) as Hd by (by rewrite lookup_delete_ne).
    destruct (ev_Kind e =? "archive"); [by exists c|]. rewrite lookup_insert. case_decide; eauto.
Qed.

Lemma claim_held l1 e l2 q n t :
  fold_each apply (l1 ++ e :: l2) empty_projection = Ok q → claims e = Some (n, t) →
  is_Some (Active q !! n) ∨ ∃ r, r ∈ l2 ∧ releases r n.
Proof.
  intros Hfold Hcl. revert q Hfold. induction l2 as [|x l2 IH] using rev_ind; intros q Hfold.
  - apply fold_each_app in Hfold as (q0 & _ & Hfold). cbn in Hfold. inv_ok. subst.
    left. by eapply apply_claims.
  - rewrite app_comm_cons, (assoc_L (++)) in Hfold.
    apply fold_each_app in Hfold as (q0 & Hq0 & Hfold). cbn in Hfold. inv_ok. subst.
    destruct (IH _ Hq0) as [Hs|(r & Hr & Hrel)]; [|right; exists r; set_solver].
    destruct (apply_keeps _ _ _ _ Hfold0 Hs) as [?|?]; [by left|right; exists x; set_solver].
Qed.

Lemma claims_dependency e n t : claims e = Some (n, t) → t ≠ "" → t ∈ HistoryDependencies e.
Proof.
  unfold claims. intros Hc Ht. apply HistoryDependencies_elem. split; [done|].
  repeat case_match; naive_solver.
Qed.

Lemma claim_step events ordered p l e l' n t :
  ProjectContextBranches events = Ok p → OrderHistoryEvents (bindings events) = Ok ordered →
  ordered = l ++ e :: l' → claims e = Some (n, t) →
  ∃ q, fold_each apply l empty_projection = Ok q ∧ projects l q ∧
    Active q !! n = None ∧ released q n = t.
Proof.
  intros (ordered' & Hord' & Hfold)%project_Ok Hord -> Hcl.
  rewrite Hord in Hord'. injection Hord' as <-.
  destruct (order_history_Ok _ _ Hord) as (_ & Hsame & _).
  apply fold_each_app in Hfold as (q & Hq & Hrest). exists q. split; [done|]. split.
  - apply apply_all_projects; [|done]. apply Forall_forall. intros x Hx.
    assert (x ∈ l ++ e :: l') as [? _]%Hsame%list_elem_of_filter by set_solver. done.
  - cbn in Hrest. inv_ok. by destruct (apply_claims _ _ _ _ _ Hrest0 Hcl) as (? & ? & _).
Qed.

(** No event follows the archival of its identity. *)
Lemma last_archived l1 e l2 :
  ev_Kind e = "archive" →
  (∀ k1 x k2, l2 = k1 ++ x :: k2 → ∃ q q', projects (l1 ++ e :: k1) q ∧ apply q x = Ok q' ∧
     projects ((l1 ++ e :: k1) ++ [x]) q') →
  last_such (λ x, ev_BranchID x = ev_BranchID e) (l1 ++ e :: l2) = Some e.
Proof.
  intros Hk Hat. induction l2 as [|x l2 IH] using rev_ind.
  { by rewrite last_such_snoc, decide_True. }
  assert (last_such (λ x, ev_BranchID x = ev_BranchID e) (l1 ++ e :: l2) = Some e) as Hlast.
  { apply IH. intros k1 y k2 ->. apply (Hat k1 y (k2 ++ [x])). by rewrite <-(assoc_L (++)). }
  rewrite app_comm_cons, (assoc_L (++)), last_such_snoc. case_decide as Hx; [|done].
  destruct (Hat l2 x []) as (q & q' & Hq & Happ & _); [done|].
  pose proof (projects_ByID _ _ Hq (ev_BranchID e)) as Hby. rewrite Hlast in Hby. cbn in Hby.
  apply apply_Ok in Happ as [(_ & Hnone & _)|(_ & b & Hcont & Har & _)]; [congruence|].
  unfold continued_branch in Hcont. rewrite Hx, Hby in Hcont. injection Hcont as <-.
  cbn in Har. by rewrite Hk in Har.
Qed.

Lemma project_same ev1 ev2 :
  (∀ e, IsBranchBindingEvent e = true → e ∈ ev1 ↔ e ∈ ev2) →
  ProjectContextBranches ev1 = ProjectContextBranches ev2.
Proof.
  intros He. unfold ProjectContextBranches. cbn zeta. f_equal.
  apply order_history_same. intros e. rewrite !list_elem_of_filter. naive_solver.
Qed.

Lemma ProjectContextBranches_total events : no_fuel_error (ProjectContextBranches events).
Proof. unfold ProjectContextBranches, apply, continued_branch. auto 30 with total. Qed.
#[export] Hint Resolve ProjectContextBranches_total : total.

(** ** Properties *)

(** C6: a successful projection is exactly what the ordered binding events say: an
    identity carries the name, token and archival state of its last event; a name is
    active for the unique unarchived identity bearing it; a released name carries the
    token of the last event that released it. *)
Theorem project_branches_refines (events : list HistoryEvent) (p : ContextBranchProjection) :
  ProjectContextBranches events = Ok p →
  ∃ ordered, OrderHistoryEvents (bindings events) = Ok ordered ∧
    (∀ i, ByID p !! i = branch_after <$> last_such (λ e, ev_BranchID e = i) ordered) ∧
    (∀ n b, Active p !! n = Some b ↔
       ByID p !! cb_ID b = Some b ∧ cb_Name b = n ∧ cb_Archived b = false) ∧
    (∀ n, Released p !! n = ev_ID <$> last_such (λ e, releases e n) ordered).
Proof.
  intros (ordered & Hord & [H1 H2 H3] & _)%project_at. by exists ordered.
Qed.

(** Identity histories are linear: in a projected history no two distinct binding
    events of one identity supersede the same event, so a forked identity is always
    rejected. *)
Theorem project_identity_linear (events : list HistoryEvent) (p : ContextBranchProjection)
    (e1 e2 : HistoryEvent) :
  ProjectContextBranches events = Ok p → (∀ e, e ∈ events → ev_ID e ≠ "") →
  e1 ∈ bindings events → e2 ∈ bindings events →
  ev_BranchID e1 = ev_BranchID e2 → ev_BindingParent e1 = ev_BindingParent e2 → e1 = e2.
Proof.
  intros (ordered & Hord & _ & Hat)%project_at Hids He1 He2 Hid Hpar.
  destruct (order_history_Ok _ _ Hord) as (Hnd & Hsame & Hdeps).
  assert (∀ a b l1 l2 l3, ordered = l1 ++ a :: l2 ++ b :: l3 →
    ev_BranchID a = ev_BranchID b → ev_BindingParent a = ev_BindingParent b → False) as Hcase.
  { intros a b l1 l2 l3 Heq Hi Hp.
    destruct (Hat (l1 ++ a :: l2) b l3) as (q & q' & Hq & Happ & _);
      [by rewrite <-(assoc_L (++))|].
    destruct (apply_identity_parent _ _ _ _ _ _ Hq Happ Hi) as (prev & Hprev & Hbp & _).
    assert (prev ∈ a :: l2 ++ b :: l3) as Hin by set_solver.
    apply (dependency_precedes _ _ _ _ prev Hnd Heq Hin Hdeps), HistoryDependencies_elem.
    rewrite <-Hbp, <-Hp. split; [|by left]. rewrite Hp, Hbp. apply Hids.
    assert (prev ∈ ordered) as [_ ?]%Hsame%list_elem_of_filter by (rewrite Heq; set_solver). done. }
  destruct (decide (e1 = e2)) as [|Hne]; [done|]. apply Hsame in He1, He2.
  destruct (two_positions ordered e1 e2) as [(l1 & l2 & l3 & Heq)|(l1 & l2 & l3 & Heq)]; [done..| |];
    exfalso; by eapply Hcase.
Qed.

(** Names are never owned twice: no two distinct events of a projected history claim
    the same name on top of the same release of it (or on top of its first use). *)
Theorem project_name_exclusive (events : list HistoryEvent) (p : ContextBranchProjection)
    (e1 e2 : HistoryEvent) :
  ProjectContextBranches events = Ok p → (∀ e, e ∈ events → ev_ID e ≠ "") →
  e1 ∈ bindings events → e2 ∈ bindings events →
  is_Some (claims e1) → claims e1 = claims e2 → e1 = e2.
Proof.
  intros Hproj Hids He1 He2 [[n t] Hcl] Hsc.
  destruct (project_at _ _ Hproj) as (ordered & Hord & _ & _).
  destruct (order_history_Ok _ _ Hord) as (Hnd & Hsame & Hdeps).
  assert (∀ a b l1 l2 l3, ordered = l1 ++ a :: l2 ++ b :: l3 →
    claims a = Some (n, t) → claims b = Some (n, t) → False) as Hcase.
  { intros a b l1 l2 l3 Heq Ha Hb.
    destruct (claim_step _ _ _ (l1 ++ a :: l2) b l3 n t Hproj Hord) as (q & Hfold & Hq & Hfree & Hrel);
      [by rewrite <-(assoc_L (++))|done|].
    destruct (claim_held _ _ _ _ _ _ Hfold Ha) as [[c ?]|(r & Hr & Hrn)]; [congruence|].
    apply list_elem_of_split in Hr as (k1 & k2 & ->).
    destruct (last_such_after (λ e, releases e n) (l1 ++ a :: k1) r k2 Hrn) as (x & Hlast & Hx).
    assert (ev_ID x = t) as <-.
    { rewrite <-Hrel. unfold released. rewrite (projects_Released _ _ Hq).
      by rewrite <-(assoc_L (++)), <-app_comm_cons in Hlast; rewrite Hlast. }
    assert (x ∈ a :: (k1 ++ r :: k2) ++ b :: l3) as Hin by set_solver.
    apply (dependency_precedes _ _ _ _ x Hnd Heq Hin Hdeps), (claims_dependency _ n); [done|].
    apply Hids. assert (x ∈ ordered) as [_ ?]%Hsame%list_elem_of_filter by (rewrite Heq; set_solver).
    done. }
  destruct (decide (e1 = e2)) as [|Hne]; [done|]. apply Hsame in He1, He2.
  rewrite Hcl in Hsc. symmetry in Hsc.
  destruct (two_positions ordered e1 e2) as [(l1 & l2 & l3 & Heq)|(l1 & l2 & l3 & Heq)]; [done..| |];
    exfalso; by eapply Hcase.
Qed.

(** Archiving is final: once an identity is archived in a projected history it
    stays archived under the name it had, whatever else the history holds. *)
Theorem project_archive_final (events : list HistoryEvent) (p : ContextBranchProjection)
    (e : HistoryEvent) :
  ProjectContextBranches events = Ok p → e ∈ events → ev_Kind e = "archive" →
  ByID p !! ev_BranchID e = Some (MkContextBranch (ev_BranchID e) (ev_Branch e) (ev_ID e) true).
Proof.
  intros (ordered & Hord & Hp & Hat)%project_at He Hk.
  destruct (order_history_Ok _ _ Hord) as (_ & Hsame & _).
  assert (e ∈ ordered) as (l1 & l2 & Heq)%list_elem_of_split.
  { apply Hsame, list_elem_of_filter. split; [|done]. unfold IsBranchBindingEvent. by rewrite Hk. }
  assert (last_such (λ x, ev_BranchID x = ev_BranchID e) ordered = Some e) as Hlast.
  { rewrite Heq. apply (last_archived l1 e l2 Hk). intros k1 x k2 ->. apply (Hat _ _ k2). rewrite Heq.
    by rewrite <-(assoc_L (++)), <-app_comm_cons. }
  rewrite (projects_ByID _ _ Hp), Hlast. cbn. unfold branch_after. by rewrite Hk.
Qed.

(** Two replicas holding the same binding events project the same branches (or
    both reject), whatever observations they hold besides and in whatever order. *)
Theorem project_branches_convergent (ev1 ev2 : list HistoryEvent) :
  (∀ e, IsBranchBindingEvent e = true → e ∈ ev1 ↔ e ∈ ev2) →
  ProjectContextBranches ev1 = ProjectContextBranches ev2.
Proof. apply project_same. Qed.

(** A continuation is accepted exactly when its name is currently bound to its
    identity, or the name was never bound or released and the identity is unknown. *)
Theorem validate_advance_iff (events : list HistoryEvent) (e : HistoryEvent)
    (p : ContextBranchProjection) :
  ev_Kind e = "advance" → ProjectContextBranches events = Ok p → (∀ x, x ∈ events → ev_ID x ≠ "") →
  ev_BranchID e ≠ "" →
  ValidateHistoryBranch events e = Ok tt ↔
  (∃ b, Active p !! ev_Branch e = Some b ∧ cb_ID b = ev_BranchID e) ∨
  (Active p !! ev_Branch e = None ∧ Released p !! ev_Branch e = None ∧ ByID p !! ev_BranchID e = None).
Proof.
  intros Hk Hproj Hids Hbid. destruct (project_at _ _ Hproj) as (ordered & Hord & Hp & _).
  destruct (order_history_Ok _ _ Hord) as (_ & Hsame & _).
  assert (IsBranchBindingEvent e = false) as Hnb by (unfold IsBranchBindingEvent; by rewrite Hk).
  unfold ValidateHistoryBranch. rewrite Hnb, Hproj, bool_decide_true by done.
  cbn [negb mbind result_bind]. destruct (Active p !! ev_Branch e) as [b|]; rewrite reject_if_Ok.
  - rewrite negb_false_iff, bool_decide_eq_true. naive_solver.
  - rewrite orb_false_iff, !negb_false_iff, !bool_decide_eq_true.
    assert (released p (ev_Branch e) = "" ↔ Released p !! ev_Branch e = None) as ->.
    { unfold released. rewrite (projects_Released _ _ Hp).
      destruct (last_such _ ordered) as [x|] eqn:E; [|done]. apply last_such_Some in E as [Hx _].
      apply Hsame, list_elem_of_filter in Hx as [_ Hx%Hids]. done. }
    assert (default "" (cb_ID <$> ByID p !! ev_BranchID e) = "" ↔ ByID p !! ev_BranchID e = None) as ->.
    { destruct (ByID p !! ev_BranchID e) as [b|] eqn:E; [|done]. cbn.
      rewrite (projects_ID _ _ _ _ Hp E). done. }
    naive_solver.
Qed.

(** ** Witnesses *)

Module ContextBranchSamples.
Import HistorySamples.
Definition events := HistoryOrderSamples.events.
Definition projection := MkProjection
  {[ "main" := MkContextBranch "b-2" "main" id3 false ]}
  {[ "b-1" := MkContextBranch "b-1" "trunk" id4 true; "b-2" := MkContextBranch "b-2" "main" id3 false ]}
  {[ "main" := id2; "trunk" := id4 ]}.
Lemma projected : ProjectContextBranches events = Ok projection.
Proof. compute_decision. Qed.
Lemma sample_ids e : e ∈ events → ev_ID e ≠ "".
Proof.
  unfold events, HistoryOrderSamples.events. rewrite !elem_of_cons.
  intros H. repeat destruct H as [-> | H]; try done. by apply elem_of_nil in H.
Qed.
Definition advance := event "55555555555555555555555555555555" "b-2" "main" "advance" "" 12.
End ContextBranchSamples.

Lemma project_branches_refines_witness :
  Active ContextBranchSamples.projection !! "main" =
    Some (MkContextBranch "b-2" "main" HistorySamples.id3 false).
Proof.
  destruct (project_branches_refines _ _ ContextBranchSamples.projected) as (o & Ho & _ & Hact & _).
  apply Hact. split; [compute_decision|split; reflexivity].
Defined.

Lemma project_identity_linear_witness :
  HistorySamples.rename ∈ ContextBranchSamples.events ∧
  ∀ e, e ∈ bindings ContextBranchSamples.events → "b-1" = ev_BranchID e →
    HistorySamples.id1 = ev_BindingParent e → HistorySamples.rename = e.
Proof.
  split; [right; left|]. intros e. apply (project_identity_linear _ _ HistorySamples.rename e
    ContextBranchSamples.projected ContextBranchSamples.sample_ids).
  apply list_elem_of_filter. split; [done|]. right; left.
Defined.

Lemma project_name_exclusive_witness :
  HistorySamples.rebirth ∈ ContextBranchSamples.events ∧
  ∀ e, e ∈ bindings ContextBranchSamples.events → Some ("main", HistorySamples.id2) = claims e →
    HistorySamples.rebirth = e.
Proof.
  split; [right; right; left|]. intros e He. apply (project_name_exclusive _ _ HistorySamples.rebirth e
    ContextBranchSamples.projected ContextBranchSamples.sample_ids); [|done|by eexists].
  apply list_elem_of_filter. split; [done|]. right; right; left.
Defined.

Lemma project_archive_final_witness :
  cb_Archived <$> ByID ContextBranchSamples.projection !! "b-1" = Some true.
Proof.
  change "b-1" with (ev_BranchID HistorySamples.archive).
  rewrite (project_archive_final _ _ _ ContextBranchSamples.projected); [reflexivity|left|reflexivity].
Defined.

Lemma project_branches_convergent_witness :
  ProjectContextBranches ContextBranchSamples.events =
  ProjectContextBranches (ContextBranchSamples.advance :: HistoryOrderSamples.ordered).
Proof.
  apply project_branches_convergent. intros e He.
  unfold ContextBranchSamples.events, HistoryOrderSamples.events, HistoryOrderSamples.ordered.
  rewrite !elem_of_cons. assert (e ≠ ContextBranchSamples.advance) by (intros ->; done). tauto.
Defined.

Lemma validate_advance_iff_witness :
  ValidateHistoryBranch ContextBranchSamples.events ContextBranchSamples.advance = Ok tt.
Proof.
  apply (validate_advance_iff _ ContextBranchSamples.advance _ eq_refl ContextBranchSamples.projected ContextBranchSamples.sample_ids);
    [done|]. left. eexists. split; [vm_compute; reflexivity|reflexivity].
Defined.
