(* ===== verification/BranchFrame.v ===== *)
(** * Projecting a part of a history

    When does projecting only some of the binding events give the same branches?
    Two answers, used by the publication planner and by tracking: a part that owns
    all of its names and identities, and a part closed under dependencies.  The
    code relies on both without stating either. *)
From S2P Require Import Prelude GoStrings Sha256 Values History TopoSort HistoryOrder ContextBranch.

(** ** Agreement on some identities and names *)

Section frame.
Context (I N : string → Prop).

(** Two projections that agree on some identities and names. *)
Definition agree (q q' : ContextBranchProjection) : Prop :=
  (∀ i, I i → ByID q !! i = ByID q' !! i) ∧
  (∀ n, N n → Active q !! n = Active q' !! n ∧ Released q !! n = Released q' !! n).

(** An event about agreed identities and names is applied alike. *)
Lemma apply_agree e q q' q1 :
  agree q q' → I (ev_BranchID e) → N (ev_Branch e) → N (old_name e) →
  apply q e = Ok q1 → ∃ q1', apply q' e = Ok q1' ∧ agree q1 q1'.
Proof.
  intros [Hi Hn] HI HN HO. pose proof (Hi _ HI) as Eid. destruct (Hn _ HN) as [Ea Er], (Hn _ HO) as [Eoa Eor].
  assert (continued_branch q' e = continued_branch q e) as Hcont.
  { unfold continued_branch, released. by rewrite <-Eid, <-Eoa, <-Eor. }
  unfold apply, present, released. rewrite Hcont, <-Eid, <-Ea, <-Er.
  assert (∀ {A} (m m' : gmap string A) k v n, (n ≠ k → m !! n = m' !! n) → <[k := v]> m !! n = <[k := v]> m' !! n) as Hins.
  { intros A m m' k v n Hm. rewrite !lookup_insert. case_decide; auto. }
  destruct (is_start e); intros H; inv_ok; subst q1.
  - exists (MkProjection (<[ev_Branch e := MkContextBranch (ev_BranchID e) (ev_Branch e) (ev_ID e) false]> (Active q'))
      (<[ev_BranchID e := MkContextBranch (ev_BranchID e) (ev_Branch e) (ev_ID e) false]> (ByID q')) (Released q')).
    split; [|split; cbn; [intros i Hii; apply Hins; auto|]].
    + by rewrite H0, H1, H2.
    + intros n HNn. destruct (Hn n HNn). split; [apply Hins; auto|done].
  - rename a into b. eexists. rewrite H0. cbn [mbind result_bind]. rewrite H1. cbn [mbind result_bind reject_if].
    rewrite H2. cbn [mbind result_bind]. split; [reflexivity|]. split; cbn.
    + intros i Hii. apply Hins. auto.
    + intros n HNn. destruct (Hn n HNn) as [Hna Hnr]. split; [|apply Hins; auto].
      assert (delete (old_name e) (Active q) !! n = delete (old_name e) (Active q') !! n) as Hdel
        by (rewrite !lookup_delete; destruct (decide (old_name e = n)); [done|exact Hna]).
      destruct (ev_Kind e =? "archive"); [done|]. apply Hins. auto.
Qed.

(** An event about other identities and names does not disturb the agreement. *)
Lemma apply_frame l e q q' q1 :
  projects l q → agree q q' → ¬ I (ev_BranchID e) → ¬ N (ev_Branch e) → ¬ N (old_name e) →
  apply q e = Ok q1 → agree q1 q'.
Proof.
  intros Hp [Hi Hn] HI HN HO Happ.
  assert (∀ {A} (m : gmap string A) k v n (X : string → Prop), X n → ¬ X k → <[k := v]> m !! n = m !! n) as Hins.
  { intros A m k v n X Hx Hk. apply lookup_insert_ne. by intros ->. }
  apply apply_Ok in Happ as [(_ & _ & _ & _ & ->)|(_ & b & Hcont & _ & _ & _ & _ & ->)].
  - split; cbn.
    + intros i Hii. by rewrite (Hins _ _ _ _ _ I) by done; auto.
    + intros n HNn. rewrite (Hins _ _ _ _ _ N) by done. auto.
  - destruct (continued_branch_spec _ _ _ _ Hp Hcont) as [Hid _]. split; cbn.
    + intros i Hii. rewrite Hid, (Hins _ _ _ _ _ I) by done. auto.
    + intros n HNn. rewrite (Hins _ _ _ _ _ N) by done. destruct (Hn n HNn) as [Hna Hnr]. split; [|done].
      rewrite <-Hna. destruct (ev_Kind e =? "archive"); [|rewrite (Hins _ _ _ _ _ N) by done];
        apply lookup_delete_ne; by intros <-.
Qed.

Lemma project_agree ordered (C : HistoryEvent → Prop) `{∀ e, Decision (C e)} p :
  Forall (λ e, IsBranchBindingEvent e = true) ordered →
  (∀ e, e ∈ ordered → C e → I (ev_BranchID e) ∧ N (ev_Branch e) ∧ N (old_name e)) →
  (∀ e, e ∈ ordered → ¬ C e → ¬ I (ev_BranchID e) ∧ ¬ N (ev_Branch e) ∧ ¬ N (old_name e)) →
  fold_each apply ordered empty_projection = Ok p →
  ∃ p', fold_each apply (filter C ordered) empty_projection = Ok p' ∧ agree p p'.
Proof.
  intros Hbind Hin Hout Hfold. rewrite Forall_forall in Hbind.
  enough (projects ordered p ∧ ∃ p', fold_each apply (filter C ordered) empty_projection = Ok p' ∧ agree p p')
    as [_ ?] by done.
  revert Hfold. apply (fold_each_invariant apply (λ pre q,
    projects pre q ∧ ∃ q', fold_each apply (filter C pre) empty_projection = Ok q' ∧ agree q q')).
  { split; [apply projects_empty|]. exists empty_projection. split; [done|]. by split. }
  intros pre e q q1 (Hp & q' & Hq' & Ha) He Happ. split; [eapply apply_projects; eauto|].
  rewrite filter_app, filter_cons, filter_nil. case_decide as HC.
  - destruct (Hin e He HC) as (H1 & H2 & H3). destruct (apply_agree _ _ _ _ Ha H1 H2 H3 Happ) as (q1' & Hq1' & Ha1).
    exists q1'. split; [|done]. apply fold_each_app. exists q'. split; [done|]. cbn. by rewrite Hq1'.
  - destruct (Hout e He HC) as (H1 & H2 & H3). exists q'. rewrite app_nil_r. split; [done|].
    by eapply apply_frame.
Qed.
End frame.

(** ** Dependency-closed parts *)

Lemma last_such_split (P : HistoryEvent → Prop) `{∀ e, Decision (P e)} l e :
  last_such P l = Some e → ∃ l1 l2, l = l1 ++ e :: l2 ∧ P e ∧ ∀ x, x ∈ l2 → ¬ P x.
Proof.
  induction l as [|y l IH] using rev_ind; [done|]. rewrite last_such_snoc. case_decide as Hy.
  - intros [= <-]. exists l, []. split_and!; [done..|set_solver].
  - intros (l1 & l2 & -> & He & Hl2)%IH. exists l1, (l2 ++ [y]).
    split_and!; [by rewrite <-(assoc_L (++))|done|]. set_solver.
Qed.

Lemma last_such_None (P : HistoryEvent → Prop) `{∀ e, Decision (P e)} l :
  last_such P l = None ↔ ∀ x, x ∈ l → ¬ P x.
Proof.
  unfold last_such. rewrite last_None. split.
  - intros Hl x Hx HP. assert (x ∈ filter P l) as Hin by (by apply list_elem_of_filter).
    rewrite Hl in Hin. by apply elem_of_nil in Hin.
  - intros Hl. destruct (filter P l) as [|x k] eqn:E; [done|].
    assert (x ∈ filter P l) as [HP Hx]%list_elem_of_filter by (rewrite E; left). by apply Hl in Hx.
Qed.

Lemma last_such_exact (P : HistoryEvent → Prop) `{∀ e, Decision (P e)} l1 e l2 :
  P e → (∀ x, x ∈ l2 → ¬ P x) → last_such P (l1 ++ e :: l2) = Some e.
Proof.
  intros He Hl2. destruct (last_such_after P l1 e l2 He) as (x & Hx & Hin). rewrite Hx.
  apply elem_of_cons in Hin as [-> | Hin]; [done|]. apply last_such_Some in Hx as [_ Hx]. by apply Hl2 in Hin.
Qed.

(** Dropping other events keeps the last match. *)
Lemma last_such_filter (P C : HistoryEvent → Prop) `{∀ e, Decision (P e)} `{∀ e, Decision (C e)} l :
  (∀ e, last_such P l = Some e → C e) → last_such P (filter C l) = last_such P l.
Proof.
  intros HC. destruct (last_such P l) as [e|] eqn:El.
  - apply last_such_split in El as (l1 & l2 & -> & He & Hl2).
    rewrite filter_app, filter_cons, decide_True by auto.
    apply last_such_exact; [done|]. intros x [_ Hx]%list_elem_of_filter. auto.
  - rewrite last_such_None in *. intros x [_ Hx]%list_elem_of_filter. auto.
Qed.

(** The first match after an event. *)
Lemma first_such_after (P : HistoryEvent → Prop) `{∀ e, Decision (P e)} l x :
  x ∈ l → P x → ∃ l1 y l2, l = l1 ++ y :: l2 ∧ P y ∧ ∀ z, z ∈ l1 → ¬ P z.
Proof.
  induction l as [|a l IH]; [by intros ?%elem_of_nil|]. intros Hx HP.
  destruct (decide (P a)) as [Ha|Ha]; [exists [], a, l; set_solver|].
  apply elem_of_cons in Hx as [-> | Hx]; [done|].
  destruct (IH Hx HP) as (l1 & y & l2 & -> & Hy & Hl1). exists (a :: l1), y, l2. set_solver.
Qed.

Section restrict.
Context (L : list HistoryEvent) (C : HistoryEvent → Prop) `{∀ e, Decision (C e)}.
Hypothesis L_at : ∀ l e l', L = l ++ e :: l' → ∃ q q', projects l q ∧ apply q e = Ok q'.
Hypothesis L_binding : ∀ e, e ∈ L → IsBranchBindingEvent e = true.
Hypothesis L_ids : ∀ e, e ∈ L → ev_ID e ≠ "".
Hypothesis L_nodup : NoDup L.
Hypothesis L_closed : ∀ l1 e l2 x, L = l1 ++ e :: l2 → C e → x ∈ l1 →
  ev_ID x ∈ HistoryDependencies e → C x.

(** A non-starting event finds its branch unarchived under the old name. *)
Lemma continues q l e q' :
  projects l q → apply q e = Ok q' → is_start e = false →
  (∃ b, ByID q !! ev_BranchID e = Some b ∧ cb_EventID b = ev_BindingParent e ∧
        Active q !! old_name e = Some b) ∨
  (ByID q !! ev_BranchID e = None ∧ Active q !! old_name e = None ∧ released q (old_name e) = "").
Proof.
  intros Hp [(Hs & _)|(_ & b & Hcont & Har & Hev & Hname & _)]%apply_Ok Hs'; [congruence|].
  destruct (continued_branch_spec _ _ _ _ Hp Hcont) as [Hid [Hb|(Hb & Ha & _ & Hr & _)]]; [left|by right].
  exists b. split_and!; [done|done|]. apply (projects_Active _ _ Hp). by rewrite Hid.
Qed.

Lemma parent_included l1 e l2 x :
  L = l1 ++ e :: l2 → C e → x ∈ l1 →
  ev_ID x = ev_BindingParent e ∨ ev_ID x = ev_NameParent e → C x.
Proof.
  intros HL He Hx Hid. eapply L_closed; [done..|]. apply HistoryDependencies_elem.
  split; [apply L_ids; rewrite HL; set_solver|naive_solver].
Qed.

Lemma released_last l q n r : projects l q → last_such (λ e, releases e n) l = Some r → released q n = ev_ID r.
Proof. intros Hp Hr. unfold released. by rewrite (projects_Released _ _ Hp), Hr. Qed.

(** While a branch holds a name, nobody releases it. *)
Lemma held_not_released A w B n rest :
  L = A ++ w :: B ++ rest → (∀ x, x ∈ B → ev_BranchID x ≠ ev_BranchID w) →
  cb_Name (branch_after w) = n → cb_Archived (branch_after w) = false →
  ∀ z, z ∈ B → ¬ releases z n.
Proof.
  intros HL Hno Hn Har z Hz [Hs Hold]. apply list_elem_of_split in Hz as (B1 & B2 & ->).
  destruct (L_at (A ++ w :: B1) z (B2 ++ rest)) as (q & q' & Hp & Happ).
  { rewrite HL. by simplify_list_eq. }
  assert (ByID q !! ev_BranchID w = Some (branch_after w)) as Hby.
  { rewrite (projects_ByID _ _ Hp), last_such_exact; [done|done|]. intros x Hx. apply Hno. set_solver. }
  assert (Active q !! n = Some (branch_after w)) as Hact by (by apply (projects_Active _ _ Hp)).
  destruct (continues _ _ _ _ Hp Happ Hs) as [(b & Hb & _ & Ha)|(_ & Ha & _)]; rewrite Hold in Ha; [|congruence].
  assert (b = branch_after w) as -> by congruence. apply (projects_ID _ _ _ _ Hp) in Hb. cbn in Hb.
  destruct (Hno z); [set_solver|done].
Qed.

(** If a release of a name belongs to the part, so do all earlier releases of it. *)
Lemma releases_included l1 r l2 n y :
  L = l1 ++ r :: l2 → C r → releases r n → y ∈ l1 → releases y n → C y.
Proof.
  revert l1 r l2 y. induction l1 as [l1 IH] using (induction_ltof1 _ length). unfold ltof in IH.
  intros r l2 y HL HC [Hs Hold] Hy Hyn.
  destruct (L_at _ _ _ HL) as (q & q' & Hp & Happ).
  assert (released q n ≠ "") as Hrel.
  { apply list_elem_of_split in Hy as (k1 & k2 & ->).
    destruct (last_such_after (λ e, releases e n) k1 y k2 Hyn) as (x & Hx & Hin).
    rewrite (released_last _ _ _ _ Hp Hx). apply L_ids. rewrite HL. set_solver. }
  destruct (continues _ _ _ _ Hp Happ Hs) as [(b & Hb & Hev & Ha)|(_ & _ & ?)]; [|congruence].
  rewrite (projects_ByID _ _ Hp) in Hb. apply fmap_Some in Hb as (w & Hw & ->).
  apply last_such_split in Hw as (A & B & -> & Hwid & HB).
  apply (projects_Active _ _ Hp) in Ha as (_ & Hname & Har). rewrite Hold in Hname.
  assert (C w) as HCw by (eapply parent_included; [done..| |by left]; set_solver).
  assert (y ∈ A ++ [w]) as Hy'.
  { apply elem_of_app in Hy as [?|[->|Hy]%elem_of_cons]; [set_solver..|].
    destruct (held_not_released A w B n (r :: l2)) with (z := y); [|by rewrite Hwid|done..].
    by rewrite HL, <-(assoc_L (++)). }
  apply elem_of_app in Hy' as [HyA| ->%list_elem_of_singleton]; [|done].
  assert (L = A ++ w :: (B ++ r :: l2)) as HLw by (by rewrite HL, <-(assoc_L (++))).
  destruct (L_at _ _ _ HLw) as (qw & qw' & Hpw & Happw).
  assert (∃ t, claims w = Some (n, t) ∧ (t = ev_BindingParent w ∨ t = ev_NameParent w)) as (t & Hcl & Ht).
  { cbn in Hname, Har. bools. unfold claims. rewrite Hname.
    destruct (binding_kinds w) as [->|[[-> ->]|(_ & ? & _)]]; [|by eauto..|done].
    apply L_binding. rewrite HLw. set_solver. }
  destruct (apply_claims _ _ _ _ _ Happw Hcl) as (_ & Hrw & _).
  apply list_elem_of_split in HyA as Hsp. destruct Hsp as (k1 & k2 & HA).
  destruct (last_such_after (λ e, releases e n) k1 y k2 Hyn) as (r' & Hr' & _). rewrite <-HA in Hr'.
  rewrite (released_last _ _ _ _ Hpw Hr') in Hrw.
  pose proof Hr' as (D1 & D2 & HD & Hr'n & HD2)%last_such_split.
  assert (C r') as HCr'.
  { eapply parent_included; [exact HLw|done|rewrite HD; set_solver|]. naive_solver. }
  rewrite HD in HyA. apply elem_of_app in HyA as [HyD|[->|HyD]%elem_of_cons]; [|done|by apply HD2 in HyD].
  eapply (IH D1); [|rewrite HLw, HD, <-(assoc_L (++)); reflexivity|done..].
  rewrite length_app, HD, length_app. cbn. lia.
Qed.

(** A name that is free in the whole history is free in the part. *)
Lemma free_restrict l1 l2 q q' n :
  L = l1 ++ l2 → projects l1 q → projects (filter C l1) q' → Active q !! n = None →
  (∀ r, last_such (λ e, releases e n) l1 = Some r → C r) → Active q' !! n = None.
Proof.
  intros HL Hp Hp' Hfree HC. destruct (Active q' !! n) as [b|] eqn:Hb; [exfalso|done].
  apply (projects_Active _ _ Hp') in Hb as (Hb & Hname & Har).
  rewrite (projects_ByID _ _ Hp') in Hb. apply fmap_Some in Hb as (x & Hx & Eb).
  assert (cb_ID b = ev_BranchID x) as Hid by (by rewrite Eb). rewrite Hid in Hx.
  pose proof Hx as [[HCx Hxl]%list_elem_of_filter _]%last_such_Some.
  apply list_elem_of_split in Hxl as (A & B & Hl1).
  destruct (last_such (λ e, ev_BranchID e = ev_BranchID x) B) as [z|] eqn:Hz.
  - apply last_such_Some in Hz as [Hz Hzid].
    destruct (first_such_after (λ e, ev_BranchID e = ev_BranchID x) B z Hz Hzid) as (B1 & y & B2 & -> & Hy & HB1).
    assert (L = (A ++ x :: B1) ++ y :: (B2 ++ l2)) as HLy by (rewrite HL, Hl1; by simplify_list_eq).
    destruct (L_at _ _ _ HLy) as (qy & qy' & Hpy & Happ).
    assert (ByID qy !! ev_BranchID y = Some b) as Hby.
    { by rewrite (projects_ByID _ _ Hpy), Hy, Eb, last_such_exact. }
    assert (releases y n) as Hyn.
    { apply apply_Ok in Happ as Happ'. destruct Happ' as [(_ & ? & _)|(Hs & _)]; [congruence|].
      destruct (continues _ _ _ _ Hpy Happ Hs) as [(b' & Hb' & _ & Ha)|(? & _)]; [|congruence].
      assert (b' = b) as -> by congruence. apply (projects_Active_name _ _ _ _ Hpy) in Ha. by split; congruence. }
    assert (¬ C y) as HCy.
    { intros HCy. assert (NoDup l1) as Hnd by (rewrite HL in L_nodup; by apply NoDup_app in L_nodup as (? & _)).
      rewrite Hl1 in Hx, Hnd. rewrite filter_app, filter_cons, decide_True, filter_app, filter_cons, decide_True in Hx by done.
      destruct (last_such_after (λ e, ev_BranchID e = ev_BranchID x) (filter C A ++ x :: filter C B1) y (filter C B2) Hy)
        as (w & Hw & Hin).
      rewrite <-(assoc_L (++)) in Hw. cbn in Hw. rewrite Hx in Hw. injection Hw as <-.
      apply NoDup_app in Hnd as (_ & _ & [Hnx _]%NoDup_cons). apply Hnx.
      apply elem_of_cons in Hin as [-> | [_ Hin]%list_elem_of_filter]; set_solver. }
    destruct (last_such_after (λ e, releases e n) (A ++ x :: B1) y B2 Hyn) as (r & Hr & Hin).
    assert (l1 = (A ++ x :: B1) ++ y :: B2) as Hl1' by (rewrite Hl1; by simplify_list_eq).
    rewrite <-Hl1' in Hr. pose proof (HC r Hr) as HCr. apply elem_of_cons in Hin as [-> | Hin]; [done|].
    apply list_elem_of_split in Hin as (k1 & k2 & ->). apply HCy.
    eapply (releases_included (A ++ x :: B1 ++ y :: k1) r (k2 ++ l2) n y);
      [rewrite HL, Hl1'; by simplify_list_eq|done|by apply last_such_Some in Hr as [_ ?]|set_solver|done].
  - assert (ByID q !! cb_ID b = Some b) as Hqb.
    { rewrite last_such_None in Hz. by rewrite (projects_ByID _ _ Hp), Hl1, Hid, Eb, last_such_exact. }
    assert (Active q !! n = Some b) by (by apply (projects_Active _ _ Hp)). congruence.
Qed.

Lemma released_restrict l q q' n :
  projects l q → projects (filter C l) q' →
  (∀ r, last_such (λ e, releases e n) l = Some r → C r) → Released q' !! n = Released q !! n.
Proof.
  intros Hp Hp' HC. by rewrite (projects_Released _ _ Hp), (projects_Released _ _ Hp'), last_such_filter.
Qed.

Lemma identity_restrict l q q' i :
  projects l q → projects (filter C l) q' →
  (∀ e, last_such (λ e, ev_BranchID e = i) l = Some e → C e) → ByID q' !! i = ByID q !! i.
Proof.
  intros Hp Hp' HC. by rewrite (projects_ByID _ _ Hp), (projects_ByID _ _ Hp'), last_such_filter.
Qed.

(** Both projections agree on everything an event of the part touches. *)
Lemma touched_agree l1 e l2 q q1 q' :
  L = l1 ++ e :: l2 → C e → projects l1 q → apply q e = Ok q1 → projects (filter C l1) q' →
  agree (λ i, i = ev_BranchID e) (λ n, n = ev_Branch e ∨ n = old_name e) q q'.
Proof.
  intros HL HC Hp Happ Hp'.
  assert (∀ r, r ∈ l1 → ev_ID r = ev_BindingParent e ∨ ev_ID r = ev_NameParent e → C r) as Hpar
    by (intros r Hr; by eapply parent_included).
  assert (∀ n t, claims e = Some (n, t) → Active q !! n = Active q' !! n ∧ Released q !! n = Released q' !! n) as Hclaim.
  { intros n t Hcl. destruct (apply_claims _ _ _ _ _ Happ Hcl) as (Hfree & Hrel & _).
    assert (∀ r, last_such (λ e, releases e n) l1 = Some r → C r) as Hlast.
    { intros r Hr. apply Hpar; [by apply last_such_Some in Hr as [? _]|].
      rewrite <-(released_last _ _ _ _ Hp Hr), Hrel. unfold claims in Hcl. repeat case_match; naive_solver. }
    rewrite Hfree, (released_restrict _ _ _ _ Hp Hp' Hlast). split; [|done]. symmetry. by eapply free_restrict. }
  destruct (is_start e) eqn:Hs.
  { assert (claims e = Some (ev_Branch e, ev_BindingParent e)) as Hcl by (unfold claims; by rewrite Hs).
    assert (old_name e = ev_Branch e) as Hold
      by (unfold old_name, is_start in *; repeat case_bool_decide; try done; congruence).
    split; [|intros n [-> | ->]; rewrite ?Hold; by eapply Hclaim]. intros i ->.
    apply apply_Ok in Happ as [(_ & Hnone & _)|(? & _)]; [|congruence].
    rewrite (identity_restrict _ _ _ _ Hp Hp'); [done|]. intros x Hx.
    rewrite (projects_ByID _ _ Hp), Hx in Hnone. done. }
  assert (∀ r, last_such (λ x, releases x (old_name e)) l1 = Some r → C r) as Hlast.
  { intros r [? ?]%last_such_Some. eapply (releases_included l1 e l2); [done|done|by split|done..]. }
  assert (ByID q' !! ev_BranchID e = ByID q !! ev_BranchID e) as Hid.
  { apply (identity_restrict l1); [done..|]. intros x Hx.
    destruct (continues _ _ _ _ Hp Happ Hs) as [(b & Hb & Hev & _)|(Hb & _)];
      rewrite (projects_ByID _ _ Hp), Hx in Hb; [|done].
    injection Hb as <-. apply Hpar; [by apply last_such_Some in Hx as [? _]|by left]. }
  assert (Active q !! old_name e = Active q' !! old_name e) as Hact.
  { destruct (continues _ _ _ _ Hp Happ Hs) as [(b & Hb & _ & Ha)|(_ & Ha & _)]; rewrite Ha; symmetry;
      [|by eapply free_restrict].
    apply (projects_Active _ _ Hp'). apply (projects_Active _ _ Hp) in Ha as (_ & ? & ?).
    by rewrite (projects_ID _ _ _ _ Hp Hb), Hid. }
  pose proof (released_restrict _ _ _ _ Hp Hp' Hlast) as Hrel.
  split; [by intros i -> |]. intros n [-> | ->]; [|done].
  destruct (binding_kinds e) as [?|[[_ Hk]|(_ & _ & <-)]]; [apply L_binding; rewrite HL; set_solver|congruence| |done].
  apply (Hclaim _ (ev_NameParent e)). unfold claims. by rewrite Hs, Hk.
Qed.

(** The part runs to completion. *)
Lemma fold_restrict pre rest :
  L = pre ++ rest →
  ∃ p', fold_each apply (filter C pre) empty_projection = Ok p' ∧ projects (filter C pre) p'.
Proof.
  revert rest. induction pre as [|e pre IH] using rev_ind; intros rest E; [eauto using projects_empty|].
  rewrite <-(assoc_L (++)) in E. cbn in E. destruct (IH _ E) as (q' & Hq' & Hpq').
  rewrite filter_app, filter_cons, filter_nil. case_decide as HC; [|rewrite app_nil_r; eauto].
  destruct (L_at _ _ _ E) as (q & q1 & Hpq & Happ).
  destruct (apply_agree _ _ e q q' q1 (touched_agree pre e rest q q1 q' E HC Hpq Happ Hpq')) as (q1' & Hq1' & _); [by auto..|].
  exists q1'. split; [apply fold_each_app; exists q'; split; [done|]; cbn; by rewrite Hq1'|].
  eapply apply_projects; [done| |done]. apply L_binding. rewrite E. set_solver.
Qed.
End restrict.

Lemma project_restrict (events part : list HistoryEvent) (p : ContextBranchProjection) :
  ProjectContextBranches events = Ok p → (∀ e, e ∈ events → ev_ID e ≠ "") →
  (∀ e, e ∈ part → e ∈ events) →
  (∀ e x, e ∈ part → x ∈ events → ev_ID x ∈ HistoryDependencies e → x ∈ part) →
  ∃ p', ProjectContextBranches part = Ok p' ∧
    (∀ i, (∀ e, e ∈ bindings events → ev_BranchID e = i → e ∈ part) → ByID p' !! i = ByID p !! i) ∧
    (∀ n, Active p !! n = None → Released p !! n = None →
          Active p' !! n = None ∧ Released p' !! n = None).
Proof.
  intros Hproj Hids Hsub Hclosed. pose proof Hproj as (L & HL & Hfold)%project_Ok.
  destruct (project_at _ _ Hproj) as (L' & HL' & Hp & Hat). rewrite HL in HL'. injection HL' as <-.
  destruct (order_history_Ok _ _ HL) as (Hnd & Hsame & _). apply NoDup_fmap_1 in Hnd.
  assert (∀ e, e ∈ L → IsBranchBindingEvent e = true ∧ e ∈ events) as HLin
    by (by intros e [? ?]%Hsame%list_elem_of_filter).
  set (C e := e ∈ bindings part).
  assert (∀ l e l', L = l ++ e :: l' → ∃ q q', projects l q ∧ apply q e = Ok q') as Hat'.
  { intros l e l' E. destruct (Hat _ _ _ E) as (q & q' & ? & ? & _). eauto. }
  assert (∀ l1 e l2 x, L = l1 ++ e :: l2 → C e → x ∈ l1 → ev_ID x ∈ HistoryDependencies e → C x) as Hcl.
  { intros l1 e l2 x E [_ He]%list_elem_of_filter Hx Hd.
    destruct (HLin x) as [? ?]; [rewrite E; set_solver|]. apply list_elem_of_filter. eauto. }
  assert (∀ e, e ∈ L → ev_ID e ≠ "") as HLids by (by intros e [_ ?]%HLin; auto).
  assert (∀ e, e ∈ L → IsBranchBindingEvent e = true) as HLbind by (by intros e [? _]%HLin).
  destruct (fold_restrict L C Hat' HLbind HLids Hnd Hcl L []) as (p' & Hp' & Hpp'); [by rewrite app_nil_r|].
  exists p'. split_and!.
  - apply project_Ok. exists (filter C L). split; [|done]. apply (order_history_restrict (bindings events)); [done|..].
    + intros e [? ?]%list_elem_of_filter. apply list_elem_of_filter. auto.
    + intros e x [_ He]%list_elem_of_filter [? Hx]%list_elem_of_filter Hd. apply list_elem_of_filter. eauto.
  - intros i Hi. apply (identity_restrict C L); [done..|]. intros e [He Hid]%last_such_Some.
    destruct (HLin e He) as [Hb _]. apply list_elem_of_filter. split; [done|]. apply Hi; [by apply Hsame|done].
  - intros n Ha Hr.
    assert (∀ r, last_such (λ e, releases e n) L = Some r → C r) as Hlast.
    { intros r Hl. rewrite (projects_Released _ _ Hp), Hl in Hr. done. }
    split; [|by rewrite (released_restrict C L p)].
    apply (free_restrict L C Hat' HLbind HLids Hnd Hcl L [] p p' n); [by rewrite app_nil_r|done..].
Qed.

(** ** Properties *)

(** A part of a history with all the dependencies of its events. *)
Definition closed_part (events part : list HistoryEvent) : Prop :=
  (∀ e, e ∈ part → e ∈ events) ∧
  ∀ e x, e ∈ part → x ∈ events → ev_ID x ∈ HistoryDependencies e → x ∈ part.

(** Any part of a projectable history that is closed under dependencies projects
    too; it gives an identity whose binding events are all in the part the same record,
    and it leaves a name that was never bound or released in the whole history free. *)
Theorem project_restrict_closed (events part : list HistoryEvent) (p : ContextBranchProjection) :
  ProjectContextBranches events = Ok p → (∀ e, e ∈ events → ev_ID e ≠ "") → closed_part events part →
  ∃ p', ProjectContextBranches part = Ok p' ∧
    (∀ i, (∀ e, e ∈ bindings events → ev_BranchID e = i → e ∈ part) → ByID p' !! i = ByID p !! i) ∧
    (∀ n, Active p !! n = None → Released p !! n = None →
          Active p' !! n = None ∧ Released p' !! n = None).
Proof. intros Hp Hids [Hin Hcl]. by apply project_restrict. Qed.

(** ** Witnesses *)

Lemma project_restrict_closed_witness :
  ∃ p', ProjectContextBranches [HistorySamples.rebirth; HistorySamples.rename; HistorySamples.birth] = Ok p' ∧
    ByID p' !! "b-2" = Some (MkContextBranch "b-2" "main" HistorySamples.id3 false).
Proof.
  destruct (project_restrict_closed _ [HistorySamples.rebirth; HistorySamples.rename; HistorySamples.birth] _
    ContextBranchSamples.projected ContextBranchSamples.sample_ids) as (p' & Hp' & Hid & _).
  - split; [intros e; unfold ContextBranchSamples.events, HistoryOrderSamples.events; rewrite !elem_of_cons; tauto|].
    assert (∀ e, e ∈ [HistorySamples.rebirth; HistorySamples.rename; HistorySamples.birth] →
      HistorySamples.id4 ∉ HistoryDependencies e) as Hd
      by (apply Forall_forall; compute_decision).
    intros e x He Hx Hdep. specialize (Hd e He).
    unfold ContextBranchSamples.events, HistoryOrderSamples.events in Hx. rewrite !elem_of_cons in Hx. rewrite !elem_of_cons.
    destruct Hx as [-> |Hx]; [by destruct Hd|]. clear -Hx. tauto.
  - exists p'. split; [exact Hp'|]. rewrite Hid; [compute_decision|].
    apply (Forall_forall (λ e, ev_BranchID e = "b-2" →
      e ∈ [HistorySamples.rebirth; HistorySamples.rename; HistorySamples.birth])). compute_decision.
Defined.
