(* ===== verification/Graph.v ===== *)
(** * The snapshot graph

    Models [Snapshot] and [ReachabilityParents] of [cli/internal/domain/entities.go],
    [ReachableHistory] of [history_query.go] and [publicationAncestry] of
    [publication_plan.go]: walks over the context ancestry DAG, where a snapshot
    reaches both its natural parents and the parents of its graft overlay.

    Cancellation ([ctx.Err()]) is not modelled: the calls below are those whose
    context stays live. *)
From S2P Require Import Prelude GoStrings Sha256 Values History TopoSort.
From Stdlib Require Import Ascii.

Record TeamIdentity := MkTeamIdentity { ti_Name : string; ti_Email : string; ti_Team : string }.
#[export] Instance TeamIdentity_eq_dec : EqDecision TeamIdentity.
Proof. solve_decision. Defined.

Record Snapshot := MkSnapshot {
  sn_ID : string;
  sn_RepoID : string;
  sn_Branch : string;
  sn_Parents : slice string;
  sn_DocHash : string;
  sn_DocIdentity : string;
  sn_MemoryHash : string;
  sn_ClaudeSettings : string;
  sn_AgentsSettings : string;
  sn_CodexSettings : string;
  sn_Provider : string;
  sn_Fidelity : string;
  sn_Message : string;
  sn_Author : TeamIdentity;
  sn_CreatedAt : time;
  sn_Grafted : bool;
  sn_GraftParents : slice string;
  sn_GraftSeq : N;
  sn_SessionID : string;
  sn_Models : slice string;
  sn_CompactionCount : Z;
}.
#[export] Instance Snapshot_eq_dec : EqDecision Snapshot.
Proof. solve_decision. Defined.

(** [if !seen\[g\] { seen\[g\] = true; out = append(out, g) }] *)
Definition append_unseen (st : gset string * list string) (g : string) : gset string * list string :=
  if decide (g ∈ st.1) then st else ({[g]} ∪ st.1, st.2 ++ [g]).

Definition ReachabilityParents (s : Snapshot) : list string :=
  match elems (sn_GraftParents s) with
  | [] => elems (sn_Parents s)
  | grafts => (fold_left append_unseen grafts (list_to_set (elems (sn_Parents s)), elems (sn_Parents s))).2
  end.

(** ** Ancestry indices

    What an index from competing targets to their ancestors promises its readers:
    membership is a partial order.  Discharged by [publicationAncestry], relied upon by
    the completion order. *)
Class AncestryOrder (ancestry : gmap string (gset string)) : Prop := {
  ancestry_refl t s : ancestry !! t = Some s → t ∈ s;
  ancestry_trans t s u su : ancestry !! t = Some s → ancestry !! u = Some su → u ∈ s → su ⊆ s;
  ancestry_antisym t s u su :
    ancestry !! t = Some s → ancestry !! u = Some su → u ∈ s → t ∈ su → t = u;
}.

(** ** Reachable history *)

(** [byID], rejecting duplicates. *)
Definition index_snapshot (byID : gmap string nat) (entry : nat * Snapshot) : result (gmap string nat) :=
  match byID !! sn_ID entry.2 with
  | Some _ => Err ErrHashMismatch
  | None => Ok (<[sn_ID entry.2 := entry.1]> byID)
  end.

Definition indexed {A} (l : list A) : list (nat * A) := imap pair l.

Definition all_parents (s : Snapshot) : list string := elems (sn_Parents s) ++ elems (sn_GraftParents s).

(** The stack, top first: appending parents in order leaves the last one on top. *)
Fixpoint reach (snapshots : list Snapshot) (byID : gmap string nat) (fuel : nat)
    (stack : list string) (chosen : gset nat) (missing : gset string)
    : result (gset nat * gset string) :=
  match stack with
  | [] => Ok (chosen, missing)
  | id :: stack =>
      match fuel with
      | O => Err ErrOutOfFuel
      | S fuel =>
          match byID !! id with
          | None => reach snapshots byID fuel stack chosen ({[id]} ∪ missing)
          | Some i =>
              if decide (i ∈ chosen) then reach snapshots byID fuel stack chosen missing
              else
                let parents := default [] (all_parents <$> snapshots !! i) in
                reach snapshots byID fuel (reverse parents ++ stack) ({[i]} ∪ chosen) missing
          end
      end
  end.

(** Enough for every root and every edge to be pushed once. *)
Definition reach_fuel (snapshots : list Snapshot) (roots : list string) : nat :=
  length roots + sum_list_with (λ s, length (all_parents s)) snapshots.

(** The indices [parents(i, visit)] visits, with multiplicity. *)
Definition chosen_parents (snapshots : list Snapshot) (byID : gmap string nat) (chosen : gset nat)
    (i : nat) : list nat :=
  omap (λ p, parent ← byID !! p; if decide (parent ∈ chosen) then Some parent else None)
    (default [] (all_parents <$> snapshots !! i)).

Definition count_child (children : gmap nat Z) (p : nat) : gmap nat Z :=
  <[p := (default 0 (children !! p) + 1)%Z]> children.

(** [historyHeap.Less]: newest first, then by id. *)
Definition snapshot_less (snapshots : list Snapshot) (i j : nat) : bool :=
  match snapshots !! i, snapshots !! j with
  | Some a, Some b =>
      if time_Equal (sn_CreatedAt a) (sn_CreatedAt b) then str_lt (sn_ID a) (sn_ID b)
      else time_After (sn_CreatedAt a) (sn_CreatedAt b)
  | _, _ => false
  end.

Definition ReachableHistory (snapshots : list Snapshot) (roots : list string)
    : result (list Snapshot * list string) :=
  byID ← fold_each index_snapshot (indexed snapshots) ∅;
  st ← reach snapshots byID (reach_fuel snapshots roots) (reverse roots) ∅ ∅;
  let '(chosen, missing) := st in
  let parents := chosen_parents snapshots byID chosen in
  let nodes := filter (λ i, i ∈ chosen) (seq 0 (length snapshots)) in
  let children := fold_left (λ children i, fold_left count_child (parents i) children) nodes ∅ in
  let ready := filter (λ i, default 0%Z (children !! i) = 0%Z) nodes in
  out ← kahn id (snapshot_less snapshots) parents (length nodes) children ready [];
  reject_if (length out <>? size chosen) ErrHashMismatch ;;
  Ok (omap (λ i, snapshots !! i) out, sort_slice str_lt (elements missing)).

(** ** Indexing *)

Lemma indexed_elem {A} (l : list A) i x : (i, x) ∈ indexed l ↔ l !! i = Some x.
Proof.
  unfold indexed. rewrite elem_of_lookup_imap. split; [|intros H; by exists i, x].
  by intros (j & y & [= -> ->] & H).
Qed.

Lemma indexed_snd {A B} (f : A → B) (l : list A) : (λ e, f e.2) <$> indexed l = f <$> l.
Proof.
  unfold indexed. apply list_eq. intros i. rewrite !list_lookup_fmap, list_lookup_imap.
  by destruct (l !! i).
Qed.

Lemma indexed_fst_NoDup {A} (l : list A) : NoDup (indexed l).*1.
Proof.
  apply NoDup_alt. intros i j n. unfold indexed.
  rewrite !list_lookup_fmap, !list_lookup_imap. destruct (l !! i), (l !! j); cbn; congruence.
Qed.

Lemma indexed_NoDup {A} (l : list A) : NoDup (indexed l).
Proof. apply (NoDup_fmap_1 fst), indexed_fst_NoDup. Qed.

(** [byID] finds a snapshot by its id. *)
Definition finds (snapshots : list Snapshot) (byID : gmap string nat) : Prop :=
  ∀ id i, byID !! id = Some i ↔ ∃ s, snapshots !! i = Some s ∧ sn_ID s = id.

Lemma index_snapshots_spec snapshots byID :
  fold_each index_snapshot (indexed snapshots) ∅ = Ok byID →
  NoDup (sn_ID <$> snapshots) ∧ finds snapshots byID.
Proof.
  intros H.
  assert (NoDup ((λ e, sn_ID e.2) <$> indexed snapshots) ∧
    ∀ id i, byID !! id = Some i ↔ ∃ s, (i, s) ∈ indexed snapshots ∧ sn_ID s = id) as [Hnd Hf].
  { revert H. apply (fold_each_invariant index_snapshot (λ pre m,
      NoDup ((λ e, sn_ID e.2) <$> pre) ∧ ∀ id i, m !! id = Some i ↔ ∃ s, (i, s) ∈ pre ∧ sn_ID s = id)).
    { split; [constructor|]. intros. rewrite lookup_empty. set_solver. }
    intros pre [j x] m m' [Hnd Hf] _. unfold index_snapshot. cbn [fst snd].
    destruct (m !! sn_ID x) eqn:Hx; [done|]. intros [= <-]. split.
    - rewrite fmap_app. apply NoDup_app. split_and!; [done| |apply NoDup_singleton].
      intros k ([i s] & -> & Hin)%list_elem_of_fmap. cbn. rewrite list_elem_of_singleton.
      intros Heq. assert (m !! sn_ID x = Some i) by (apply Hf; eauto). congruence.
    - intros id i. rewrite lookup_insert. setoid_rewrite elem_of_app.
      setoid_rewrite list_elem_of_singleton. case_decide as Hid.
      + split; [intros [= <-]; eauto|]. intros (s & [Hin|[= -> ->]] & Hs); [|done].
        assert (m !! id = Some i) by (apply Hf; eauto). congruence.
      + rewrite Hf. naive_solver. }
  rewrite indexed_snd in Hnd. split; [done|]. intros id i. rewrite Hf. by setoid_rewrite indexed_elem.
Qed.

Lemma index_snapshots_total snapshots :
  NoDup (sn_ID <$> snapshots) → ∃ byID, fold_each index_snapshot (indexed snapshots) ∅ = Ok byID.
Proof.
  rewrite <-indexed_snd. intros Hnd.
  assert (∀ todo m, NoDup ((λ e, sn_ID e.2) <$> todo) →
    (∀ e, e ∈ todo → m !! sn_ID e.2 = None) → ∃ m', fold_each index_snapshot todo m = Ok m') as H.
  { clear. induction todo as [|[i s] todo IH]; intros m Hnd Hm; cbn [fold_each]; [eauto|].
    rewrite fmap_cons, NoDup_cons in Hnd. destruct Hnd as [Hs Hnd].
    unfold index_snapshot at 2. rewrite (Hm (i, s)) by left. cbn [mbind result_bind fst snd].
    apply IH; [done|]. intros e He. rewrite lookup_insert_ne; [apply Hm; by right|].
    intros Heq. apply Hs. cbn. rewrite Heq. apply list_elem_of_fmap. by exists e. }
  apply H; [done|]. intros. apply lookup_empty.
Qed.

Lemma index_snapshots_Err snapshots e :
  fold_each index_snapshot (indexed snapshots) ∅ = Err e → e = ErrHashMismatch.
Proof.
  generalize (indexed snapshots), (∅ : gmap string nat).
  induction l as [|x l IH]; intros m; cbn [fold_each]; [done|].
  unfold index_snapshot at 2. destruct (m !! sn_ID x.2); [naive_solver|apply IH].
Qed.

(** ** Walking the ancestry *)

Section reach.
Context (snapshots : list Snapshot) (byID : gmap string nat) (Hfinds : finds snapshots byID).
Context (roots : list string).

(** An edge of the ancestry: from a snapshot to a natural or graft parent. *)
Definition parent_edge (id p : string) : Prop :=
  ∃ s, s ∈ snapshots ∧ sn_ID s = id ∧ p ∈ all_parents s.

Definition reachable (id : string) : Prop := ∃ r, r ∈ roots ∧ rtc parent_edge r id.

(** An id the walk has dealt with. *)
Definition handled (chosen : gset nat) (missing : gset string) (id : string) : Prop :=
  (∃ i, byID !! id = Some i ∧ i ∈ chosen) ∨ id ∈ missing.

Definition reach_inv (stack : list string) (chosen : gset nat) (missing : gset string) : Prop :=
  (∀ id, id ∈ stack → reachable id) ∧
  (∀ i, i ∈ chosen → ∃ s, snapshots !! i = Some s ∧ reachable (sn_ID s)) ∧
  (∀ id, id ∈ missing → reachable id ∧ byID !! id = None) ∧
  (∀ r, r ∈ roots → r ∈ stack ∨ handled chosen missing r) ∧
  (∀ i s p, i ∈ chosen → snapshots !! i = Some s → p ∈ all_parents s →
     p ∈ stack ∨ handled chosen missing p).

(** Edges of snapshots not yet chosen. *)
Definition pending_edges (chosen : gset nat) : nat :=
  sum_list_with (λ e, length (all_parents e.2)) (filter (λ e, e.1 ∉ chosen) (indexed snapshots)).

Lemma handled_mono c m c' m' id : c ⊆ c' → m ⊆ m' → handled c m id → handled c' m' id.
Proof. unfold handled. set_solver. Qed.

(** Popping an id that has been dealt with, possibly by this very step. *)
Lemma reach_pop id stack stack' c m c' m' :
  reach_inv (id :: stack) c m → c ⊆ c' → m ⊆ m' → handled c' m' id →
  (∀ x, x ∈ stack' → reachable x) → (∀ x, x ∈ stack → x ∈ stack') →
  (∀ i, i ∈ c' → i ∉ c → ∃ s, snapshots !! i = Some s ∧ reachable (sn_ID s) ∧
     ∀ p, p ∈ all_parents s → p ∈ stack') →
  (∀ x, x ∈ m' → x ∉ m → reachable x ∧ byID !! x = None) →
  reach_inv stack' c' m'.
Proof.
  intros (H1 & H2 & H3 & H4 & H5) Hc Hm Hid Hst Hsub Hnew Hmiss.
  assert (∀ x, x ∈ id :: stack ∨ handled c m x → x ∈ stack' ∨ handled c' m' x) as Hkeep.
  { intros x [[-> | Hx]%elem_of_cons|Hx]; [by right|left; auto|right; by eapply handled_mono]. }
  split_and!; [done|..].
  - intros i Hi. destruct (decide (i ∈ c)); [auto|]. destruct (Hnew i) as (s & ? & ? & _); eauto.
  - intros x Hx. destruct (decide (x ∈ m)); auto.
  - intros r Hr. auto.
  - intros i s p Hi Hs Hp. destruct (decide (i ∈ c)); [eauto|].
    destruct (Hnew i) as (s' & ? & _ & ?); [done..|]. simplify_eq. auto.
Qed.

Lemma pending_edges_choose i s c :
  snapshots !! i = Some s → i ∉ c →
  pending_edges c = length (all_parents s) + pending_edges ({[i]} ∪ c).
Proof.
  intros Hs Hi. unfold pending_edges.
  rewrite (sum_list_fmap_remove _ (λ e, e.1 ∉ c) (λ e, e.1 ∉ {[i]} ∪ c) (i, s));
    [done|apply indexed_NoDup|by apply indexed_elem|done|].
  intros [j x] Hx%indexed_elem. cbn. split; [set_solver|]. intros [Hj Hne].
  assert (j ≠ i) by (intros ->; congruence). set_solver.
Qed.

Lemma reach_spec fuel stack chosen missing :
  reach_inv stack chosen missing → length stack + pending_edges chosen ≤ fuel →
  ∃ c m, reach snapshots byID fuel stack chosen missing = Ok (c, m) ∧ reach_inv [] c m.
Proof.
  revert stack chosen missing. induction fuel as [|fuel IH]; intros [|id stack] chosen missing Hinv Hlen;
    cbn [reach length] in *; try (by exists chosen, missing); [lia|].
  assert (reachable id) as Hr by (destruct Hinv as [H1 _]; apply H1; left).
  assert (∀ x, x ∈ stack → reachable x) as Hst by (destruct Hinv as [H1 _]; intros; apply H1; by right).
  destruct (byID !! id) as [i|] eqn:Hid; [case_decide as Hc|].
  - apply IH; [|lia].
    apply (reach_pop _ _ _ _ _ _ _ Hinv); try set_solver. left. eauto.
  - apply Hfinds in Hid as Hs. destruct Hs as (s & Hs & <-). rewrite Hs. cbn [fmap option_fmap option_map from_option].
    apply IH.
    + eapply reach_pop; [done|set_solver|done|left; exists i; set_solver|..].
      * intros x [Hx|Hx]%elem_of_app; [|auto]. rewrite elem_of_reverse in Hx.
        destruct Hr as (r & Hrr & Hrs). exists r. split; [done|]. eapply rtc_r; [done|].
        exists s. split; [by eapply list_elem_of_lookup_2|done].
      * set_solver.
      * intros j Hj Hn. assert (j = i) as -> by set_solver. exists s. split_and!; [done..|].
        intros p Hp. apply elem_of_app. left. by apply elem_of_reverse.
      * set_solver.
    + unfold id. rewrite length_app, length_reverse. rewrite (pending_edges_choose i s) in Hlen by done. lia.
  - apply IH; [|lia]. eapply reach_pop; [done|done|set_solver|right; set_solver|done|done|set_solver|].
    intros x Hx Hn. assert (x = id) as -> by set_solver. done.
Qed.

Lemma reach_init : reach_inv (reverse roots) ∅ ∅.
Proof.
  split; [|split_and!; set_solver].
  intros id Hid. rewrite elem_of_reverse in Hid. exists id. split; [done|]. constructor.
Qed.

Lemma pending_edges_empty : pending_edges ∅ = sum_list_with (λ s, length (all_parents s)) snapshots.
Proof.
  clear Hfinds byID roots.
  assert (∀ {B} (f : B → nat) l, sum_list_with f l = sum_list (f <$> l)) as Hsum.
  { intros B f l. induction l as [|x l IH]; [done|]. cbn. by rewrite IH. }
  rewrite (Hsum _ (λ s, length (all_parents s)) snapshots).
  rewrite <-(indexed_snd (λ s, length (all_parents s))), <-Hsum. unfold pending_edges. f_equal.
  induction (indexed snapshots) as [|e l IH]; [done|].
  rewrite filter_cons, decide_True by set_solver. by rewrite IH.
Qed.

(** When the walk ends it has found exactly the reachable ids. *)
Lemma reach_complete chosen missing :
  reach_inv [] chosen missing → ∀ id, reachable id → handled chosen missing id.
Proof.
  intros (_ & _ & H3 & H4 & H5) id (r & Hr & Hrtc).
  assert (handled chosen missing r) as Hh by (destruct (H4 r Hr); set_solver).
  clear Hr. induction Hrtc as [|x y z (s & Hs & <- & Hp) _ IH]; [done|]. apply IH.
  apply list_elem_of_lookup in Hs as [i Hi].
  assert (byID !! sn_ID s = Some i) as Hby by (apply Hfinds; eauto).
  destruct Hh as [(j & Hj & Hc)|Hm]; [|apply H3 in Hm as [_ ?]; congruence].
  simplify_eq. destruct (H5 j s y Hc Hi Hp); set_solver.
Qed.

Lemma chosen_reachable chosen missing i s :
  reach_inv [] chosen missing → snapshots !! i = Some s → i ∈ chosen ↔ reachable (sn_ID s).
Proof.
  intros Hinv Hs. split.
  - intros Hi. destruct Hinv as (_ & H2 & _). destruct (H2 i Hi) as (s' & ? & ?). by simplify_eq.
  - intros Hr. destruct (reach_complete _ _ Hinv _ Hr) as [(j & Hj & Hc)|Hm].
    + assert (byID !! sn_ID s = Some i) by (apply Hfinds; eauto). by simplify_eq.
    + destruct Hinv as (_ & _ & H3 & _). apply H3 in Hm as [_ Hm].
      assert (byID !! sn_ID s = Some i) by (apply Hfinds; eauto). congruence.
Qed.
End reach.

(** ** Counting children *)

Lemma count_children_spec (parents : nat → list nat) ns m c :
  default 0%Z (fold_left (λ m i, fold_left count_child (parents i) m) ns m !! c) =
  (default 0 (m !! c) + Z.of_nat (sum_list_with (λ i, occ c (parents i)) ns))%Z.
Proof.
  assert (∀ ps m, default 0%Z (fold_left count_child ps m !! c) =
    (default 0 (m !! c) + Z.of_nat (occ c ps))%Z) as Hp.
  { induction ps as [|p ps IH]; intros m'; cbn [fold_left]; [unfold occ; cbn; lia|].
    rewrite IH, occ_cons. unfold count_child. rewrite lookup_insert.
    destruct (decide (p = c)); cbn; [subst|]; lia. }
  revert m. induction ns as [|i ns IH]; intros m; cbn [fold_left sum_list_with]; [lia|].
  rewrite IH, Hp. lia.
Qed.

(** ** Ordering the reachable snapshots *)

Definition chosen_nodes (snapshots : list Snapshot) (chosen : gset nat) : list nat :=
  filter (λ i, i ∈ chosen) (seq 0 (length snapshots)).

(** The reachable part of the ancestry has no cycle. *)
Definition lineage_acyclic (snapshots : list Snapshot) (roots : list string) : Prop :=
  ∃ rank : string → nat, ∀ s p, s ∈ snapshots → reachable snapshots roots (sn_ID s) →
    p ∈ snapshots → sn_ID p ∈ all_parents s → (rank (sn_ID s) < rank (sn_ID p))%nat.

Section ordering.
Context (snapshots : list Snapshot) (byID : gmap string nat) (Hfinds : finds snapshots byID).
Context (roots : list string) (chosen : gset nat) (missing : gset string).
Hypothesis Hinv : reach_inv snapshots byID roots [] chosen missing.

Local Notation parents := (chosen_parents snapshots byID chosen).
Local Notation nodes := (chosen_nodes snapshots chosen).
Local Notation less := (snapshot_less snapshots).

Lemma nodes_elem i : i ∈ nodes ↔ i ∈ chosen.
Proof.
  unfold chosen_nodes. rewrite list_elem_of_filter, elem_of_seq. split; [tauto|]. intros Hi.
  split; [done|]. destruct Hinv as (_ & H2 & _). destruct (H2 i Hi) as (s & Hs & _).
  apply lookup_lt_Some in Hs. lia.
Qed.

Lemma nodes_snapshot i : i ∈ nodes → ∃ s, snapshots !! i = Some s ∧ reachable snapshots roots (sn_ID s).
Proof. rewrite nodes_elem. destruct Hinv as (_ & H2 & _). apply H2. Qed.

Lemma chosen_nodes_NoDup : NoDup nodes.
Proof. apply NoDup_filter, NoDup_seq. Qed.

Lemma size_chosen : length nodes = size chosen.
Proof.
  rewrite <-(size_list_to_set (C := gset nat) nodes) by apply chosen_nodes_NoDup.
  f_equal. apply set_eq. intros i. by rewrite elem_of_list_to_set, nodes_elem.
Qed.

Lemma chosen_parents_elem i s p :
  snapshots !! i = Some s →
  p ∈ parents i ↔ p ∈ chosen ∧ ∃ sp, snapshots !! p = Some sp ∧ sn_ID sp ∈ all_parents s.
Proof.
  intros Hs. unfold chosen_parents. rewrite Hs. cbn [fmap option_fmap option_map from_option].
  unfold id. rewrite list_elem_of_omap. split.
  - intros (h & Hh & Hb). destruct (byID !! h) as [q|] eqn:Hq; [|done]. cbn in Hb.
    case_decide; simplify_eq. apply Hfinds in Hq as (sp & ? & <-). eauto.
  - intros (Hp & sp & Hsp & Hin). exists (sn_ID sp). split; [done|].
    assert (byID !! sn_ID sp = Some p) as -> by (apply Hfinds; eauto). cbn. by rewrite decide_True.
Qed.

Lemma snapshot_less_irrefl i : less i i = false.
Proof.
  unfold snapshot_less. destruct (snapshots !! i); [|done].
  unfold time_Equal. rewrite Z.eqb_refl. apply str_lt_irrefl.
Qed.

Lemma snapshot_less_lex i j :
  less i j = true ↔ ∃ a b, snapshots !! i = Some a ∧ snapshots !! j = Some b ∧
    lex (λ s, t_instant (sn_CreatedAt s)) (λ x y, y < x)%Z
      (λ a b, str_lt (sn_ID a) (sn_ID b) = true) a b.
Proof.
  unfold snapshot_less, time_Equal, time_After, lex.
  destruct (snapshots !! i) as [a|], (snapshots !! j) as [b|]; [|naive_solver..].
  destruct (Z.eqb_spec (t_instant (sn_CreatedAt a)) (t_instant (sn_CreatedAt b))) as [E|E].
  - split; [intros; exists a, b; split_and!; auto|].
    intros (a' & b' & [= <-] & [= <-] & [?|[_ ?]]); [lia|done].
  - rewrite Z.ltb_lt. split; [intros; exists a, b; split_and!; auto|].
    intros (a' & b' & [= <-] & [= <-] & [?|[? _]]); [done|lia].
Qed.

Lemma snapshot_less_trans i j k : less i j = true → less j k = true → less i k = true.
Proof.
  rewrite !snapshot_less_lex. intros (a & b & Ha & Hb & Hab) (b' & c & Hb' & Hc & Hbc). simplify_eq.
  exists a, c. split_and!; [done..|]. eapply lex_trans; [..|done|done].
  - intros x y z. lia.
  - intros x y z. apply str_lt_trans.
Qed.

Lemma nodes_id_inj i j s t :
  snapshots !! i = Some s → snapshots !! j = Some t → sn_ID s = sn_ID t → i = j.
Proof.
  intros Hi Hj Hid. assert (byID !! sn_ID s = Some i) by (apply Hfinds; eauto).
  assert (byID !! sn_ID s = Some j) by (rewrite Hid; apply Hfinds; eauto). congruence.
Qed.

Lemma snapshot_less_total i j : i ∈ nodes → j ∈ nodes → i ≠ j → less i j = true ∨ less j i = true.
Proof.
  intros (a & Ha & _)%nodes_snapshot (b & Hb & _)%nodes_snapshot Hne.
  rewrite !snapshot_less_lex. unfold lex.
  destruct (Z.lt_trichotomy (t_instant (sn_CreatedAt a)) (t_instant (sn_CreatedAt b))) as [?|[?|?]].
  - right. exists b, a. auto.
  - destruct (str_lt_total (sn_ID a) (sn_ID b)) as [?|[?|?]].
    + left. exists a, b. auto.
    + by destruct Hne; eapply nodes_id_inj.
    + right. exists b, a. auto.
  - left. exists a, b. auto.
Qed.

(** The sorting loop finishes on the newest-first greedy order. *)
Lemma reachable_kahn :
  let children := fold_left (λ m i, fold_left count_child (parents i) m) nodes ∅ in
  ∃ out, kahn id less parents (length nodes) children
      (filter (λ i, default 0%Z (children !! i) = 0%Z) nodes) [] = Ok out ∧
    maximal_greedy less parents nodes out.
Proof.
  intros children.
  assert (∀ c, default 0%Z (children !! c) = Z.of_nat (waiting parents nodes [] c)) as Hcount.
  { intros c. unfold children. rewrite count_children_spec, lookup_empty. unfold waiting.
    change (default 0%Z None) with 0%Z. rewrite Z.add_0_l. do 2 f_equal.
    induction nodes as [|x l IH]; [done|]. rewrite filter_cons, decide_True by set_solver. by f_equal. }
  apply kahn_spec.
  - done.
  - apply chosen_nodes_NoDup.
  - intros i p (s & Hs & _)%nodes_snapshot [? _]%(chosen_parents_elem i s p Hs). by apply nodes_elem.
  - apply snapshot_less_irrefl.
  - apply snapshot_less_trans.
  - apply snapshot_less_total.
  - split; [constructor|split; [apply NoDup_filter, chosen_nodes_NoDup|split]].
    + intros c _. apply Hcount.
    + intros c. rewrite list_elem_of_filter, Hcount. unfold available.
      rewrite <-(waiting_zero parents nodes [] c). split; [intros [? ?]|intros (? & _ & ?)].
      * split; [done|split; [set_solver|lia]].
      * split; [lia|done].
  - cbn. lia.
Qed.

Lemma lineage_acyclic_nodes : lineage_acyclic snapshots roots ↔ acyclic parents nodes.
Proof.
  split.
  - intros [rank Hr]. exists (λ i, default 0 (rank ∘ sn_ID <$> snapshots !! i)).
    intros i p (s & Hs & Hsr)%nodes_snapshot _ (_ & sp & Hsp & Hin)%(chosen_parents_elem i s p Hs).
    rewrite Hs, Hsp. cbn. apply Hr; [by eapply list_elem_of_lookup_2|done| |done].
    by eapply list_elem_of_lookup_2.
  - intros [rank Hr]. exists (λ id, default 0 (rank <$> byID !! id)).
    intros s p [i Hi]%list_elem_of_lookup Hsr [j Hj]%list_elem_of_lookup Hin.
    assert (byID !! sn_ID s = Some i) as -> by (apply Hfinds; eauto).
    assert (byID !! sn_ID p = Some j) as -> by (apply Hfinds; eauto). cbn.
    assert (i ∈ chosen) by (by eapply chosen_reachable).
    assert (reachable snapshots roots (sn_ID p)).
    { destruct Hsr as (r & Hr0 & Hrs). exists r. split; [done|]. eapply rtc_r; [done|].
      exists s. split; [by eapply list_elem_of_lookup_2|done]. }
    assert (j ∈ chosen) by (by eapply chosen_reachable).
    apply Hr; [by apply nodes_elem..|]. apply (chosen_parents_elem i s j Hi). eauto.
Qed.

(** All reachable snapshots are emitted exactly when there is no cycle. *)
Lemma reachable_complete out :
  maximal_greedy less parents nodes out → length out = size chosen ↔ acyclic parents nodes.
Proof.
  intros [Hg Hmax]. rewrite <-size_chosen.
  pose proof (greedy_NoDup _ _ _ _ Hg) as Hnd.
  pose proof (greedy_subset _ _ _ _ Hg) as Hsub. split.
  - intros Hlen. apply (topological_acyclic parents nodes out); [by eapply greedy_topological| |done].
    by apply NoDup_full.
  - intros Hac. apply Permutation_length, NoDup_Permutation; [done|apply chosen_nodes_NoDup|].
    intros i. split; [apply Hsub|].
    exact (maximal_greedy_complete _ _ _ _ Hac (conj Hg Hmax) i).
Qed.
End ordering.

(** The complete behaviour of [ReachableHistory]. *)
Lemma reachable_history_cases snapshots roots :
  (∃ byID chosen missing out,
     NoDup (sn_ID <$> snapshots) ∧ finds snapshots byID ∧
     reach_inv snapshots byID roots [] chosen missing ∧
     maximal_greedy (snapshot_less snapshots) (chosen_parents snapshots byID chosen)
       (chosen_nodes snapshots chosen) out ∧
     lineage_acyclic snapshots roots ∧
     (∀ i, i ∈ chosen_nodes snapshots chosen → i ∈ out) ∧
     ReachableHistory snapshots roots =
       Ok (omap (λ i, snapshots !! i) out, sort_slice str_lt (elements missing))) ∨
  (ReachableHistory snapshots roots = Err ErrHashMismatch ∧
   ¬ (NoDup (sn_ID <$> snapshots) ∧ lineage_acyclic snapshots roots)).
Proof.
  unfold ReachableHistory.
  destruct (fold_each index_snapshot (indexed snapshots) ∅) as [byID|e] eqn:Hidx.
  2:{ right. rewrite (index_snapshots_Err _ _ Hidx). split; [done|]. intros [Hnd _].
      destruct (index_snapshots_total _ Hnd). congruence. }
  destruct (index_snapshots_spec _ _ Hidx) as [Hnd Hfinds]. cbn [mbind result_bind].
  destruct (reach_spec snapshots byID Hfinds roots (reach_fuel snapshots roots) (reverse roots) ∅ ∅)
    as (chosen & missing & -> & Hinv); [by apply reach_init| |].
  { unfold reach_fuel. by rewrite length_reverse, pending_edges_empty. }
  cbn [mbind result_bind].
  destruct (reachable_kahn snapshots byID Hfinds roots chosen missing Hinv) as (out & Hrun & Hg).
  fold (chosen_nodes snapshots chosen). rewrite Hrun. cbn [mbind result_bind].
  pose proof (reachable_complete snapshots byID roots chosen missing Hinv out Hg) as Hlen.
  rewrite <-(lineage_acyclic_nodes snapshots byID Hfinds roots chosen missing Hinv) in Hlen.
  unfold reject_if. case_bool_decide as Hd; cbn.
  - left. exists byID, chosen, missing, out. split_and!; try done; [by apply Hlen|].
    apply NoDup_full; [by apply (greedy_NoDup _ _ _ _ (proj1 Hg))|by apply (greedy_subset _ _ _ _ (proj1 Hg))|].
    by rewrite (size_chosen _ _ _ _ _ Hinv).
  - right. split; [done|]. intros [_ ?]. tauto.
Qed.

(** ** Properties *)

(** [ReachableHistory] succeeds exactly when no two snapshots share an id and
    the ancestry reachable from the roots has no cycle; its only failure is the
    integrity error, so both loops always finish. *)
Theorem reachable_history_succeeds_iff (snapshots : list Snapshot) (roots : list string) :
  match ReachableHistory snapshots roots with
  | Ok _ => NoDup (sn_ID <$> snapshots) ∧ lineage_acyclic snapshots roots
  | Err e => e = ErrHashMismatch ∧ ¬ (NoDup (sn_ID <$> snapshots) ∧ lineage_acyclic snapshots roots)
  end.
Proof.
  by destruct (reachable_history_cases snapshots roots)
    as [(byID & c & m & out & ? & _ & _ & _ & ? & _ & ->)|[-> ?]].
Qed.

(** The result lists exactly the snapshots reachable from the roots over natural
    and graft parents, each once and before all of its ancestors; the gaps are
    exactly the reachable ids with no snapshot, in increasing order. *)
Theorem reachable_history_sound (snapshots : list Snapshot) (roots : list string)
    (out : list Snapshot) (gaps : list string) :
  ReachableHistory snapshots roots = Ok (out, gaps) →
  NoDup (sn_ID <$> out) ∧
  (∀ s, s ∈ out ↔ s ∈ snapshots ∧ reachable snapshots roots (sn_ID s)) ∧
  (∀ l1 s l2, out = l1 ++ s :: l2 → ∀ child, child ∈ snapshots →
     reachable snapshots roots (sn_ID child) → sn_ID s ∈ all_parents child → child ∈ l1) ∧
  (∀ g, g ∈ gaps ↔ reachable snapshots roots g ∧ g ∉ sn_ID <$> snapshots) ∧
  Sorted (not_after str_lt) gaps.
Proof.
  destruct (reachable_history_cases snapshots roots)
    as [(byID & chosen & missing & idx & Hnd & Hf & Hinv & [Hg _] & _ & Hall & ->)|[-> _]]; [|done].
  intros [= <- <-].
  assert (∀ s, s ∈ omap (λ i, snapshots !! i) idx ↔ s ∈ snapshots ∧ reachable snapshots roots (sn_ID s)) as Hout.
  { intros s. rewrite list_elem_of_omap. split.
    - intros (i & Hi & Hs). split; [by eapply list_elem_of_lookup_2|].
      apply (chosen_reachable _ _ Hf roots _ _ i s Hinv Hs), (nodes_elem _ _ _ _ _ Hinv).
      by apply (greedy_subset _ _ _ _ Hg).
    - intros [[i Hi]%list_elem_of_lookup Hr]. exists i. split; [|done]. apply Hall.
      apply (nodes_elem _ _ _ _ _ Hinv). by apply (chosen_reachable _ _ Hf roots _ _ i s Hinv Hi). }
  split_and!; [| done | | | apply sort_slice_Sorted, str_lt_asym].
  - apply NoDup_omap; [|by apply (greedy_NoDup _ _ _ _ Hg)].
    intros i j a b Ha Hb. by apply (nodes_id_inj _ _ Hf).
  - intros l1 s l2 Heq child [j Hj]%list_elem_of_lookup Hr Hp.
    apply omap_split in Heq as (k1 & i & k2 & Hidx & <- & Hs).
    apply list_elem_of_omap. exists j. split; [|done].
    assert (i ∈ chosen_nodes snapshots chosen) as Hi
      by (apply (greedy_subset _ _ _ _ Hg); rewrite Hidx; set_solver).
    apply (greedy_topological _ _ _ _ Hg _ _ _ Hidx).
    + apply (nodes_elem _ _ _ _ _ Hinv). by apply (chosen_reachable _ _ Hf roots _ _ j child Hinv Hj).
    + apply (chosen_parents_elem _ _ Hf _ j child i Hj). rewrite (nodes_elem _ _ _ _ _ Hinv) in Hi. eauto.
  - intros g. rewrite elem_of_sort_slice, elem_of_elements. split.
    + intros Hg'. destruct Hinv as (_ & _ & H3 & _). destruct (H3 g Hg') as [Hr Hn]. split; [done|].
      intros (s & -> & [i Hi]%list_elem_of_lookup)%list_elem_of_fmap.
      assert (byID !! sn_ID s = Some i) by (apply Hf; eauto). congruence.
    + intros [Hr Hn]. destruct (reach_complete _ _ Hf _ _ _ Hinv g Hr) as [(i & Hi & _)|?]; [|done].
      apply Hf in Hi as (s & Hs & <-). destruct Hn. apply list_elem_of_fmap_2.
      by eapply list_elem_of_lookup_2.
Qed.

(** ** Witnesses *)

Module GraphSamples.
Local Open Scope char_scope.
Import HistorySamples.
Definition snapshot (id : ascii) (parents grafts : list ascii) (at_ : Z) : Snapshot :=
  MkSnapshot (hash id) repo "main" (Some (hash <$> parents)) (hash id)
    "" "" "" "" "" "claude" "full" "" (MkTeamIdentity "" "" "") (MkTime at_ 0) false
    (Some (hash <$> grafts)) 0 "" None 0.
(** A diamond with a graft edge that duplicates a natural one, and a missing root. *)
Definition snapshots :=
  [snapshot "a" ["f"] [] 1; snapshot "b" ["a"] ["a"] 2; snapshot "c" ["a"] [] 3;
   snapshot "d" ["b"] ["c"] 4; snapshot "e" [] [] 9].
Definition roots := [hash "d"].
Definition out := [snapshot "d" ["b"] ["c"] 4; snapshot "c" ["a"] [] 3; snapshot "b" ["a"] ["a"] 2;
  snapshot "a" ["f"] [] 1].
End GraphSamples.

Lemma reachable_history_sound_witness :
  ∃ out gaps, ReachableHistory GraphSamples.snapshots GraphSamples.roots = Ok (out, gaps) ∧
    length out = 4 ∧ gaps = [HistorySamples.hash "f"] ∧ NoDup (sn_ID <$> out).
Proof.
  exists GraphSamples.out, [HistorySamples.hash "f"].
  assert (ReachableHistory GraphSamples.snapshots GraphSamples.roots =
    Ok (GraphSamples.out, [HistorySamples.hash "f"])) as H by compute_decision.
  split; [exact H|]. split; [reflexivity|]. split; [reflexivity|].
  exact (proj1 (reachable_history_sound _ _ _ _ H)).
Defined.
