(* ===== verification/Ancestry.v ===== *)
(** * Publication ancestry

    Models [publicationAncestry] of [cli/internal/domain/publication_plan.go]: for
    every competing publication target, the set of snapshots it descends from,
    computed by a depth-first walk that rejects missing, foreign and cyclic
    ancestry. *)
From S2P Require Import Prelude GoStrings Sha256 Values History TopoSort Graph.
From Stdlib Require Import Ascii.

Definition index_snapshot_payload (byID : gmap string Snapshot) (s : Snapshot)
    : result (gmap string Snapshot) :=
  match byID !! sn_ID s with
  | Some old => reject_if (old <>? s) ErrHashMismatch ;; Ok (<[sn_ID s := s]> byID)
  | None => Ok (<[sn_ID s := s]> byID)
  end.

Definition snapshot_invalid (repo id : string) (s : Snapshot) : bool :=
  (sn_ID s <>? id) || (sn_RepoID s <>? repo) || negb (is_ok (ValidateContentHash id)).

(** [walk]: every return restores [active], so it is passed down; [seen] is threaded. *)
Fixpoint walk (repo : string) (byID : gmap string Snapshot) (fuel : nat) (active seen : gset string)
    (id : string) : result (gset string) :=
  if decide (id ∈ active) then Err ErrSyncConflict
  else if decide (id ∈ seen) then Ok seen
  else match byID !! id with
  | None => Err ErrNotFound
  | Some s =>
      reject_if (snapshot_invalid repo id s) ErrHashMismatch ;;
      match fuel with
      | O => Err ErrOutOfFuel
      | S fuel =>
          seen ← fold_each (walk repo byID fuel ({[id]} ∪ active)) (ReachabilityParents s) seen;
          Ok ({[id]} ∪ seen)
      end
  end.

Definition ancestry_step (repo : string) (byID : gmap string Snapshot)
    (out : gmap string (gset string)) (root : string) : result (gmap string (gset string)) :=
  match out !! root with
  | Some _ => Ok out
  | None =>
      seen ← walk repo byID (size byID) ∅ ∅ root;
      Ok (<[root := seen]> out)
  end.

Definition publicationAncestry (repo : string) (snapshots : list Snapshot) (roots : list string)
    : result (gmap string (gset string)) :=
  byID ← fold_each index_snapshot_payload snapshots ∅;
  fold_each (ancestry_step repo byID) roots ∅.

(** ** Specification *)

Lemma append_unseen_fold seen out gs :
  (∀ x, x ∈ seen ↔ x ∈ out) →
  let st := fold_left append_unseen gs (seen, out) in
  ∀ x, x ∈ st.2 ↔ x ∈ out ∨ x ∈ gs.
Proof.
  revert seen out. induction gs as [|g gs IH]; intros seen out Hs; cbn; [set_solver|].
  unfold append_unseen at 2. cbn. case_decide as Hg; intros x.
  - rewrite IH by done. set_solver.
  - rewrite IH by set_solver. set_solver.
Qed.

(** The graft-aware parent list has the natural and the graft parents. *)
Lemma ReachabilityParents_elem s p : p ∈ ReachabilityParents s ↔ p ∈ all_parents s.
Proof.
  unfold ReachabilityParents, all_parents. rewrite elem_of_app.
  destruct (elems (sn_GraftParents s)) as [|g gs]; [set_solver|].
  apply append_unseen_fold. set_solver.
Qed.

Section walk.
Context (repo : string) (byID : gmap string Snapshot).

Definition ancestor_edge (id p : string) : Prop :=
  ∃ s, byID !! id = Some s ∧ p ∈ ReachabilityParents s.

(** A set closed under parents, of valid snapshots, without a cycle. *)
Definition verified (seen : gset string) : Prop :=
  (∀ x, x ∈ seen → ∃ s, byID !! x = Some s ∧ snapshot_invalid repo x s = false ∧
     ∀ p, p ∈ ReachabilityParents s → p ∈ seen) ∧
  ∃ rank : string → nat, ∀ x p, x ∈ seen → ancestor_edge x p → (rank p < rank x)%nat.

Lemma verified_empty : verified ∅.
Proof. split; [set_solver|]. exists (λ _, 0). set_solver. Qed.

(** Adding a valid snapshot on top of its verified parents. *)
Lemma verified_insert seen id s :
  verified seen → id ∉ seen → byID !! id = Some s → snapshot_invalid repo id s = false →
  (∀ p, p ∈ ReachabilityParents s → p ∈ seen) → verified ({[id]} ∪ seen).
Proof.
  intros [Hc [rank Hr]] Hid Hs Hv Hp. split.
  - intros x [->%elem_of_singleton|Hx]%elem_of_union; [exists s; set_solver|].
    destruct (Hc x Hx) as (sx & ? & ? & ?). exists sx. set_solver.
  - exists (λ x, if decide (x = id) then S (max_list (rank <$> ReachabilityParents s)) else rank x).
    intros x p Hx (sx & Hsx & Hpx). destruct (decide (x = id)) as [->|Hne].
    + simplify_eq. rewrite decide_False by (intros ->; auto). apply Nat.lt_succ_r.
      apply max_list_elem_of_le. by apply list_elem_of_fmap_2.
    + assert (x ∈ seen) as Hx' by set_solver. destruct (Hc x Hx') as (s' & ? & _ & Hps). simplify_eq.
      rewrite decide_False by (intros ->; auto). apply Hr; [done|]. exists sx. done.
Qed.

(** The walk extends the verified set by exactly the ancestry of [id]. *)
Definition extends (seen : gset string) (ids : list string) (seen' : gset string) : Prop :=
  verified seen' ∧ seen ⊆ seen' ∧ (∀ id, id ∈ ids → id ∈ seen') ∧
  (∀ x, x ∈ seen' → x ∈ seen ∨ ∃ id, id ∈ ids ∧ rtc ancestor_edge id x).

Lemma fold_extends (f : gset string → string → result (gset string)) ids seen seen' :
  (∀ seen id seen', verified seen → f seen id = Ok seen' → extends seen [id] seen') →
  verified seen → fold_each f ids seen = Ok seen' → extends seen ids seen'.
Proof.
  intros Hf Hv. apply (fold_each_invariant f (λ pre s, extends seen pre s)).
  { split_and!; [done|done|set_solver|set_solver]. }
  intros pre x s1 s2 (Hv1 & Hs1 & Hi1 & Hr1) _ Hx.
  destruct (Hf _ _ _ Hv1 Hx) as (Hv2 & Hs2 & Hi2 & Hr2). split_and!; [done|set_solver|set_solver|].
  intros y Hy. destruct (Hr2 y Hy) as [Hy1|(i & ? & ?)].
  - destruct (Hr1 y Hy1) as [?|(i & ? & ?)]; [by left|]. right. exists i. set_solver.
  - right. exists i. set_solver.
Qed.

Lemma walk_sound fuel active seen id seen' :
  verified seen → walk repo byID fuel active seen id = Ok seen' → extends seen [id] seen'.
Proof.
  revert active seen id seen'. induction fuel as [|fuel IH]; intros active seen id seen' Hv; cbn [walk];
    (destruct (decide (id ∈ active)); [done|]); (destruct (decide (id ∈ seen)) as [|Hid];
      [intros [= <-]; split_and!; [done|done|set_solver|set_solver]|]);
    destruct (byID !! id) as [s|] eqn:Hs; try done; intros H; inv_ok. subst seen'.
  destruct (fold_extends _ _ _ _ (λ a b c, IH _ a b c) Hv H1) as (Hv' & Hsub & Hin & Hr).
  assert (∀ x, x ∈ a0 → x ∈ seen ∨ rtc ancestor_edge id x) as Hreach.
  { intros x Hx. destruct (Hr x Hx) as [?|(p & Hp & ?)]; [by left|right].
    eapply rtc_l; [|done]. by exists s. }
  split_and!; [| set_solver | set_solver |].
  - destruct (decide (id ∈ a0)) as [Hin'|Hn]; [|by eapply verified_insert].
    by replace ({[id]} ∪ a0) with a0 by set_solver.
  - intros x [->%elem_of_singleton|Hx]%elem_of_union.
    + right. exists id. split; [set_solver|constructor].
    + destruct (Hreach x Hx); [by left|right]. exists id. set_solver.
Qed.

Lemma active_room active id s (fuel : nat) :
  active ⊆ dom byID → id ∉ active → byID !! id = Some s → size byID ≤ fuel + size active →
  ∃ fuel', fuel = S fuel' ∧ {[id]} ∪ active ⊆ dom byID ∧ size byID ≤ fuel' + size ({[id]} ∪ active).
Proof.
  intros Hsub Hid Hs Hlen. assert (id ∈ dom byID) by (apply elem_of_dom; eauto).
  assert ({[id]} ∪ active ⊆ dom byID) as Hsub' by set_solver.
  pose proof (subseteq_size _ _ Hsub') as Hsz. rewrite size_dom in Hsz.
  rewrite size_union, size_singleton in * by set_solver.
  destruct fuel as [|fuel']; [lia|]. exists fuel'. split_and!; [done|done|lia].
Qed.

(** The walk is never deeper than the number of snapshots. *)
Lemma walk_terminates fuel active seen id :
  active ⊆ dom byID → size byID ≤ fuel + size active →
  walk repo byID fuel active seen id ≠ Err ErrOutOfFuel.
Proof.
  revert active seen id. induction fuel as [|fuel IH]; intros active seen id Hsub Hlen; cbn [walk];
    (case_decide as Ha; [done|]); (case_decide; [done|]);
    destruct (byID !! id) as [s|] eqn:Hs; try done;
    unfold reject_if; destruct (snapshot_invalid repo id s); try done; cbn [mbind result_bind];
    destruct (active_room _ _ _ _ Hsub Ha Hs Hlen) as (f' & [= <-] & Hsub' & Hlen').
  assert (∀ ps seen, fold_each (walk repo byID fuel ({[id]} ∪ active)) ps seen ≠ Err ErrOutOfFuel) as Hf.
  { induction ps as [|p ps IHp]; intros seen0; cbn [fold_each]; [done|].
    destruct (walk repo byID fuel _ seen0 p) eqn:E; [apply IHp|]. cbn. intros [= ->]. by eapply IH. }
  destruct (fold_each _ (ReachabilityParents s) seen) eqn:E; [done|]. cbn. intros [= ->]. by eapply Hf.
Qed.

(** A lineage of valid snapshots that strictly decreases along parents. *)
Definition lineage_ok (rank : string → nat) (id : string) : Prop :=
  ∀ x, rtc ancestor_edge id x →
    (∃ s, byID !! x = Some s ∧ snapshot_invalid repo x s = false) ∧
    ∀ p, ancestor_edge x p → (rank p < rank x)%nat.

Lemma walk_complete rank fuel active seen id :
  lineage_ok rank id → active ⊆ dom byID → size byID ≤ fuel + size active →
  (∀ a, a ∈ active → (rank id < rank a)%nat) →
  ∃ seen', walk repo byID fuel active seen id = Ok seen'.
Proof.
  revert active seen id. induction fuel as [|fuel IH]; intros active seen id Hok Hsub Hlen Hact; cbn [walk];
    (case_decide as Ha; [by apply Hact in Ha; lia|]); (case_decide; [eauto|]);
    destruct (Hok id (rtc_refl _ _)) as [(s & Hs & Hv) Hrank]; rewrite Hs, Hv; cbn [reject_if mbind result_bind];
    destruct (active_room _ _ _ _ Hsub Ha Hs Hlen) as (f' & [= <-] & Hsub' & Hlen').
  assert (∀ ps seen, (∀ p, p ∈ ps → p ∈ ReachabilityParents s) →
    ∃ seen', fold_each (walk repo byID fuel ({[id]} ∪ active)) ps seen = Ok seen') as Hf.
  { induction ps as [|p ps IHp]; intros seen0 Hps; cbn [fold_each]; [eauto|].
    assert (ancestor_edge id p) as Hedge by (exists s; set_solver).
    destruct (IH ({[id]} ∪ active) seen0 p) as [seen1 ->]; [|done|done| |apply IHp; set_solver].
    - intros x Hx. apply Hok. by eapply rtc_l.
    - intros a [->%elem_of_singleton|?%Hact]%elem_of_union; [by apply Hrank|]. specialize (Hrank p Hedge). lia. }
  destruct (Hf (ReachabilityParents s) seen) as [seen' ->]; [done|]. cbn. eauto.
Qed.

(** Mutual descent is impossible between distinct verified snapshots. *)
Lemma verified_antisym seen x y :
  verified seen → x ∈ seen → rtc ancestor_edge x y → rtc ancestor_edge y x → x = y.
Proof.
  intros [Hc [rank Hr]] Hx Hxy Hyx.
  assert (∀ a b, a ∈ seen → rtc ancestor_edge a b → b ∈ seen ∧ (a = b ∨ rank b < rank a)%nat) as Hdown.
  { intros a b Ha. induction 1 as [|a c b Hac _ IH]; [auto|].
    destruct (Hc a Ha) as (s & Hs & _ & Hps). destruct Hac as (s' & ? & Hp) eqn:E. simplify_eq.
    specialize (Hr a c Ha (ex_intro _ s (conj Hs Hp))). destruct IH as [? [<-|?]]; [auto|..]; split; auto; right; lia. }
  destruct (Hdown x y Hx Hxy) as [Hy [?|?]]; [done|]. destruct (Hdown y x Hy Hyx) as [_ [?|?]]; [done|lia].
Qed.

Lemma ancestry_step_spec roots out :
  fold_each (ancestry_step repo byID) roots ∅ = Ok out →
  (∀ root, root ∈ roots ↔ is_Some (out !! root)) ∧
  (∀ root seen, out !! root = Some seen →
     verified seen ∧ ∀ x, x ∈ seen ↔ rtc ancestor_edge root x).
Proof.
  apply (fold_each_invariant (ancestry_step repo byID) (λ pre out,
    (∀ root, root ∈ pre ↔ is_Some (out !! root)) ∧
    (∀ root seen, out !! root = Some seen →
       verified seen ∧ ∀ x, x ∈ seen ↔ rtc ancestor_edge root x))).
  { split; intros root; rewrite lookup_empty; [|done]. rewrite is_Some_alt. set_solver. }
  intros pre root m m' [Hk Hs] _. unfold ancestry_step. destruct (m !! root) as [seen0|] eqn:Hm.
  - intros [= <-]. split; [|done]. intros r. rewrite elem_of_app, list_elem_of_singleton, Hk.
    split; [|by left]. intros [?| ->]; [done|]. eauto.
  - intros H. inv_ok. subst m'.
    destruct (walk_sound _ _ _ _ _ verified_empty H0) as (Hv & _ & Hin & Hr). split.
    + intros r. rewrite elem_of_app, list_elem_of_singleton, Hk, lookup_insert.
      case_decide; [subst; split; eauto|]. naive_solver.
    + intros r seen. rewrite lookup_insert. case_decide as Heq; [|apply Hs]. intros [= <-]. subst r.
      split; [done|]. intros x. split.
      * intros Hx. destruct (Hr x Hx) as [?|(i & Hi & ?)]; set_solver.
      * assert (root ∈ a) as Ha by (apply Hin; left). intros Hrt. clear -Hv Hrt Ha.
        induction Hrt as [|y z w (s & Hs & Hp) _ IH]; [done|]. apply IH.
        destruct Hv as [Hc _]. destruct (Hc y Ha) as (s' & ? & _ & Hps). simplify_eq. auto.
Qed.
End walk.

(** ** Indexing by payload *)

Lemma index_payload_spec snapshots byID :
  fold_each index_snapshot_payload snapshots ∅ = Ok byID →
  ∀ id s, byID !! id = Some s ↔ s ∈ snapshots ∧ sn_ID s = id.
Proof.
  apply (fold_each_invariant index_snapshot_payload
    (λ pre m, ∀ id s, m !! id = Some s ↔ s ∈ pre ∧ sn_ID s = id)).
  { intros. rewrite lookup_empty. set_solver. }
  intros pre x m m' Hm _ Hstep.
  assert (m' = <[sn_ID x := x]> m ∧ (∀ old, m !! sn_ID x = Some old → old = x)) as [-> Hsame].
  { unfold index_snapshot_payload in Hstep.
    destruct (m !! sn_ID x); inv_ok; subst; bools; naive_solver. }
  intros id s. rewrite elem_of_app, list_elem_of_singleton, lookup_insert.
  case_decide as Hid; [|rewrite Hm; naive_solver].
  split; [naive_solver|]. intros [[Hs| ->] Hs']; [|done]. f_equal. symmetry.
  apply Hsame. rewrite Hm. naive_solver.
Qed.

Lemma ancestor_edge_parent snapshots byID id p :
  (∀ id s, byID !! id = Some s ↔ s ∈ snapshots ∧ sn_ID s = id) →
  ancestor_edge byID id p ↔ parent_edge snapshots id p.
Proof.
  intros Hb. unfold ancestor_edge, parent_edge. setoid_rewrite ReachabilityParents_elem.
  setoid_rewrite Hb. naive_solver.
Qed.

Lemma rtc_iff {A} (R1 R2 : relation A) x y : (∀ a b, R1 a b ↔ R2 a b) → rtc R1 x y ↔ rtc R2 x y.
Proof.
  intros HR. split; induction 1 as [|a b c Hab _ IH]; [constructor| |constructor|].
  - eapply rtc_l; [by apply HR|done].
  - eapply rtc_l; [by apply HR|done].
Qed.

Lemma index_payload_total snapshots :
  NoDup (sn_ID <$> snapshots) → ∃ byID, fold_each index_snapshot_payload snapshots ∅ = Ok byID.
Proof.
  intros Hnd. assert (∀ m : gmap string Snapshot, (∀ s, s ∈ snapshots → m !! sn_ID s = None) →
    ∃ byID, fold_each index_snapshot_payload snapshots m = Ok byID) as H.
  { induction snapshots as [|s l IH]; intros m Hm; cbn [fold_each]; [eauto|].
    rewrite fmap_cons, NoDup_cons in Hnd. destruct Hnd as [Hs Hnd].
    unfold index_snapshot_payload at 2. rewrite (Hm s) by left. cbn [mbind result_bind].
    apply (IH Hnd). intros t Ht. rewrite lookup_insert_ne; [apply Hm; by right|].
    intros Heq. apply Hs. rewrite Heq. by apply list_elem_of_fmap_2. }
  apply H. intros. apply lookup_empty.
Qed.

Lemma publication_ancestry_fuel repo snapshots roots :
  no_fuel_error (publicationAncestry repo snapshots roots).
Proof.
  unfold no_fuel_error, publicationAncestry.
  destruct (fold_each index_snapshot_payload snapshots ∅) as [byID|e] eqn:Hidx; cbn [mbind result_bind].
  - generalize (∅ : gmap string (gset string)).
    induction roots as [|r roots IH]; intros m; cbn [fold_each]; [done|].
    rewrite bind_Err. intros [He|(m' & _ & He)]; [|by eapply IH].
    unfold ancestry_step in He. destruct (m !! r); [done|].
    rewrite bind_Err in He. destruct He as [He|(seen & _ & ?)]; [|done].
    revert He. apply walk_terminates; [set_solver|lia].
  - intros [= ->]. revert Hidx. generalize (∅ : gmap string Snapshot).
    induction snapshots as [|s l IH]; intros m; cbn [fold_each]; [done|].
    rewrite bind_Err. intros [He|(m' & _ & He)]; [|by eapply IH].
    unfold index_snapshot_payload, reject_if in He. by repeat case_match.
Qed.

#[export] Hint Resolve publication_ancestry_fuel : total.

(** The index satisfies the interface its readers rely on. *)
Lemma publicationAncestry_order repo snapshots roots out :
  publicationAncestry repo snapshots roots = Ok out → AncestryOrder out.
Proof.
  intros H. unfold publicationAncestry in H. inv_ok.
  destruct (ancestry_step_spec _ _ _ _ H) as [_ Hs]. split.
  - intros t s Ht. apply (Hs _ _ Ht). constructor.
  - intros t s u su Ht Hu Hin x Hx. apply (Hs _ _ Ht).
    transitivity u; [by apply (Hs _ _ Ht)|by apply (Hs _ _ Hu)].
  - intros t s u su Ht Hu Hin Hin'. destruct (Hs _ _ Ht) as [Hv Hr], (Hs _ _ Hu) as [_ Hr'].
    apply (verified_antisym repo a s); [done|apply Hr; constructor|by apply Hr|by apply Hr'].
Qed.

(** ** Properties *)

(** A successful ancestry has an entry for exactly the requested roots; each entry
    is exactly the set of ids the root descends from (itself included), every one of
    which is a snapshot of this repository; and two distinct roots never descend from
    each other. *)
Theorem publication_ancestry_sound (repo : string) (snapshots : list Snapshot) (roots : list string)
    (out : gmap string (gset string)) :
  publicationAncestry repo snapshots roots = Ok out →
  (∀ root, root ∈ roots ↔ is_Some (out !! root)) ∧
  (∀ root seen, out !! root = Some seen →
     ∀ x, x ∈ seen ↔ rtc (parent_edge snapshots) root x) ∧
  (∀ root seen x, out !! root = Some seen → x ∈ seen →
     ∃ s, s ∈ snapshots ∧ sn_ID s = x ∧ sn_RepoID s = repo) ∧
  (∀ r1 s1 r2 s2, out !! r1 = Some s1 → out !! r2 = Some s2 → r2 ∈ s1 → r1 ∈ s2 → r1 = r2).
Proof.
  intros H. unfold publicationAncestry in H. inv_ok. rename a into byID.
  pose proof (index_payload_spec _ _ H0) as Hb.
  destruct (ancestry_step_spec _ _ _ _ H) as [Hk Hs].
  assert (∀ x y, rtc (ancestor_edge byID) x y ↔ rtc (parent_edge snapshots) x y) as Hrtc
    by (intros; apply rtc_iff; intros; by apply ancestor_edge_parent).
  split_and!; [done|..].
  - intros root seen Hr x. rewrite <-Hrtc. by apply Hs.
  - intros root seen x Hr Hx. destruct (Hs _ _ Hr) as [[Hc _] _].
    destruct (Hc x Hx) as (s & Hsx & Hv & _). exists s. apply Hb in Hsx as [? ?].
    unfold snapshot_invalid in Hv. bools. done.
  - intros r1 s1 r2 s2 H1 H2 H12 H21. destruct (Hs _ _ H1) as [Hv1 Hr1], (Hs _ _ H2) as [_ Hr2].
    apply (verified_antisym repo byID s1); [done|apply Hr1; constructor|by apply Hr1|by apply Hr2].
Qed.

(** The ancestry walk always ends, and it ends successfully whenever every snapshot
    reachable from the roots is present, belongs to the repository, and no ancestry
    cycle exists. *)
Theorem publication_ancestry_total (repo : string) (snapshots : list Snapshot) (roots : list string) :
  publicationAncestry repo snapshots roots ≠ Err ErrOutOfFuel ∧
  (NoDup (sn_ID <$> snapshots) →
   (∃ rank : string → nat, ∀ root x, root ∈ roots → rtc (parent_edge snapshots) root x →
      (∃ s, s ∈ snapshots ∧ sn_ID s = x ∧ sn_RepoID s = repo ∧ is_ok (ValidateContentHash x) = true) ∧
      ∀ p, parent_edge snapshots x p → (rank p < rank x)%nat) →
   ∃ out, publicationAncestry repo snapshots roots = Ok out).
Proof.
  split; [apply publication_ancestry_fuel|]. intros Hnd [rank Hok]. unfold publicationAncestry.
  destruct (index_payload_total snapshots Hnd) as [byID Hidx]. rewrite Hidx. cbn [mbind result_bind].
  pose proof (index_payload_spec _ _ Hidx) as Hb.
  assert (∀ x y, rtc (ancestor_edge byID) x y ↔ rtc (parent_edge snapshots) x y) as Hrtc
    by (intros; apply rtc_iff; intros; by apply ancestor_edge_parent).
  assert (∀ rs m, (∀ r, r ∈ rs → r ∈ roots) → ∃ out, fold_each (ancestry_step repo byID) rs m = Ok out) as H.
  { induction rs as [|r rs IH]; intros m Hrs; cbn [fold_each]; [eauto|]. unfold ancestry_step at 2.
    destruct (m !! r); [apply IH; set_solver|].
    destruct (walk_complete repo byID rank (size byID) ∅ ∅ r) as [seen ->];
      [|set_solver|lia|set_solver|apply IH; set_solver].
    intros x Hx%Hrtc. destruct (Hok r x ltac:(set_solver) Hx) as [(s & Hs & Hid & Hrepo & Hv) Hrank].
    split; [|intros p Hp; apply Hrank; by eapply ancestor_edge_parent].
    exists s. split; [by apply Hb|]. unfold snapshot_invalid.
    by rewrite Hv, !bool_decide_true. }
  by apply H.
Qed.

(** ** Witnesses *)

Module AncestrySamples.
Import HistorySamples GraphSamples.
Local Open Scope char_scope.
Definition snapshots := [snapshot "a" [] [] 1; snapshot "b" ["a"] [] 2; snapshot "c" ["b"] ["a"] 3].
Definition roots := [hash "c"; hash "a"].
Definition a := hash "a".
Definition b := hash "b".
Definition c := hash "c".
Definition out : gmap string (gset string) := {[ c := {[ a; b; c ]}; a := {[ a ]} ]}.
End AncestrySamples.

Lemma publication_ancestry_sound_witness :
  rtc (parent_edge AncestrySamples.snapshots) AncestrySamples.c AncestrySamples.a.
Proof.
  assert (publicationAncestry HistorySamples.repo AncestrySamples.snapshots AncestrySamples.roots =
    Ok AncestrySamples.out) as H by compute_decision.
  destruct (publication_ancestry_sound _ _ _ _ H) as (_ & Hr & _).
  apply (Hr _ {[ AncestrySamples.a; AncestrySamples.b; AncestrySamples.c ]}); compute_decision.
Defined.

Lemma publication_ancestry_total_witness :
  ∃ out, publicationAncestry HistorySamples.repo AncestrySamples.snapshots [AncestrySamples.a] = Ok out.
Proof.
  apply publication_ancestry_total.
  - compute_decision.
  - exists (λ _, 0). intros root x ->%list_elem_of_singleton Hx.
    assert (∀ p, ¬ parent_edge AncestrySamples.snapshots AncestrySamples.a p) as Hleaf.
    { intros p (s & Hs & Hid & Hp). unfold AncestrySamples.snapshots in Hs.
      repeat (apply elem_of_cons in Hs as [-> | Hs]); [..|by apply elem_of_nil in Hs];
        [by apply elem_of_nil in Hp|exfalso; vm_compute in Hid; discriminate Hid..]. }
    assert (x = AncestrySamples.a) as ->.
    { apply rtc_inv in Hx as [?|(y & Hy & _)]; [done|by apply Hleaf in Hy]. }
    split; [|intros p Hp; by apply Hleaf in Hp].
    exists (GraphSamples.snapshot "a"%char [] [] 1). split; [left|].
    split; [reflexivity|]. split; [reflexivity|]. vm_compute. reflexivity.
Defined.
