(* ===== verification/ContextQuery.v ===== *)
(** * Context queries and segment pages

    Models the query contract of [cli/internal/domain/history_query.go]: the wire
    values of a context query and the validators a client applies to a server's
    answer.  [ReachableHistory] of the same file is in [Graph].

    [segment_pages_cover]: following the cursor of validated pages visits every entry
    of one server state exactly once.  [segment_entries_exact]: what the client may
    rely on for every entry of a validated page. *)
From S2P Require Import Prelude GoStrings Sha256 Values History Utf8 GoJson TopoSort Graph.
From Stdlib Require Import Ascii.

Definition QueryContractVersion : Z := 1.
Definition ContextSegmentVersion : Z := 1.
Definition MaxContextSegmentPage : Z := 50.

(** ** Wire values *)

Record ContextSelection := MkContextSelection {
  se_SegmentLimit : Z;
  se_SegmentOffset : Z;
  se_SegmentStateHash : string;
  se_CodeCommit : string;
  se_Branch : string;
  se_Position : string;
  se_Scope : string;
}.

Record BranchContextMerge := MkBranchContextMerge {
  bm_deliveryAcknowledgementAbsent : bool;
  bm_legacyReceiptEncoding : bool;
  bm_DeliveryAcknowledged : bool;
  bm_DestinationBranchID : string;
  bm_EventID : string;
  bm_Source : string;
  bm_Before : string;
  bm_MergeSHA : string;
  bm_PRNumber : Z;
  bm_State : string;
  bm_Reason : string;
  bm_Order : Z;
}.

Record BranchContext := MkBranchContext {
  bc_BranchID : string;
  bc_SnapshotID : string;
  bc_CodeCommit : string;
  bc_Reason : string;
  bc_Merges : list BranchContextMerge;
  bc_Roots : list string;
  bc_SnapshotIDs : list string;
}.

Record RepositoryRevision := MkRepositoryRevision { rv_Evidence : N; rv_Graph : N; rv_Pending : N }.

Record ConversationSegment := MkConversationSegment {
  cg_ID : string;
  cg_RepoID : string;
  cg_DocHash : string;
  cg_Provider : string;
  cg_SessionID : string;
  cg_EventStart : Z;
  cg_EventEnd : Z;
}.

Record CommitContextBinding := MkCommitContextBinding {
  cb_EventID : string;
  cb_GitCommit : string;
  cb_BranchID : string;
  cb_WorktreeID : string;
  cb_SegmentIDs : slice string;
}.

Record ContextSegmentCoverage := MkContextSegmentCoverage {
  sc_SnapshotID : string;
  sc_Segment : option ConversationSegment;
  sc_Bindings : slice CommitContextBinding;
  sc_Kind : string;
  sc_Reason : string;
  sc_TotalEvents : Z;
  sc_BaselineSnapshotID : string;
  sc_BaselineDocHash : string;
}.

Record ContextSegmentPage := MkContextSegmentPage {
  pg_Version : Z;
  pg_StateHash : string;
  pg_PageHash : string;
  pg_Offset : Z;
  pg_Next : Z;
  pg_Total : Z;
  pg_Complete : bool;
  pg_Entries : slice ContextSegmentCoverage;
}.

Record ContextQueryView := MkContextQueryView {
  qv_Segments : option ContextSegmentPage;
  qv_Revision : RepositoryRevision;
  qv_Version : Z;
  qv_Branch : string;
  qv_StateHash : string;
  qv_DeliveryStateHash : string;
  qv_Position : string;
  qv_Snapshots : list Snapshot;
  qv_History : list HistoryEvent;
  qv_Inclusion : option BranchContext;
}.

#[export] Instance ConversationSegment_eq_dec : EqDecision ConversationSegment.
Proof. solve_decision. Defined.

(** ** Content addresses *)

Definition segment_json (g : ConversationSegment) : json :=
  JObj (str_field "id" (cg_ID g) ++ str_field "repo_id" (cg_RepoID g) ++ str_field "doc_hash" (cg_DocHash g) ++
        str_field "provider" (cg_Provider g) ++ str_field "session_id" (cg_SessionID g) ++
        field "event_start" (JInt (cg_EventStart g)) ++ field "event_end" (JInt (cg_EventEnd g))).

Definition binding_json (b : CommitContextBinding) : json :=
  JObj (str_field "event_id" (cb_EventID b) ++ str_field "git_commit" (cb_GitCommit b) ++
        str_field "branch_id" (cb_BranchID b) ++ str_omitempty "worktree_id" (cb_WorktreeID b) ++
        field "segment_ids" (slice_json JStr (cb_SegmentIDs b))).

Definition coverage_json (e : ContextSegmentCoverage) : json :=
  JObj (str_field "snapshot_id" (sc_SnapshotID e) ++ pointer_omitempty segment_json "segment" (sc_Segment e) ++
        field "bindings" (slice_json binding_json (sc_Bindings e)) ++ str_field "kind" (sc_Kind e) ++
        str_field "reason" (sc_Reason e) ++ field "total_events" (JInt (sc_TotalEvents e)) ++
        str_omitempty "baseline_snapshot_id" (sc_BaselineSnapshotID e) ++
        str_omitempty "baseline_doc_hash" (sc_BaselineDocHash e)).

Definition page_json (p : ContextSegmentPage) : json :=
  JObj (field "version" (JInt (pg_Version p)) ++ str_field "state_hash" (pg_StateHash p) ++
        str_field "page_hash" (pg_PageHash p) ++ field "offset" (JInt (pg_Offset p)) ++
        field "next" (JInt (pg_Next p)) ++ field "total" (JInt (pg_Total p)) ++
        field "complete" (JBool (pg_Complete p)) ++ field "entries" (slice_json coverage_json (pg_Entries p))).

Definition ContextSegmentID (g : ConversationSegment) : string :=
  let g := MkConversationSegment "" (cg_RepoID g) (cg_DocHash g) (cg_Provider g) (cg_SessionID g)
             (cg_EventStart g) (cg_EventEnd g) in
  HashContent (encode (JObj (field "Version" (JInt ContextSegmentVersion) ++ field "Segment" (segment_json g)))).

Definition ContextSegmentPageHash (p : ContextSegmentPage) : string :=
  HashContent (encode (page_json
    (MkContextSegmentPage (pg_Version p) (pg_StateHash p) "" (pg_Offset p) (pg_Next p) (pg_Total p)
       (pg_Complete p) (pg_Entries p)))).

(** ** Validators *)

Definition contextOperationID (id : string) : bool :=
  (String.length id =? 32) && all_chars is_lower_hex id.

Definition ValidateContextSegmentSelection (i : ContextSelection) : result unit :=
  reject_if ((se_SegmentLimit i <? 0)%Z || (MaxContextSegmentPage <? se_SegmentLimit i)%Z ||
             (se_SegmentOffset i <? 0)%Z ||
             ((se_SegmentLimit i =? 0)%Z && (negb (se_SegmentOffset i =? 0)%Z || (se_SegmentStateHash i <>? ""))))
    ErrUnclassified ;;
  reject_if ((0 <? se_SegmentOffset i)%Z && (se_SegmentStateHash i =? "")) ErrUnclassified ;;
  ValidateOptionalContentHash (se_SegmentStateHash i).

(** The cursor of a page. *)
Definition page_cursor_invalid (p : ContextSegmentPage) : bool :=
  let n := Z.of_nat (length (elems (pg_Entries p))) in
  let end_ := (pg_Offset p + n)%Z in
  if (end_ =? pg_Total p)%Z then negb (pg_Next p =? -1)%Z || negb (pg_Complete p)
  else (n =? 0)%Z || negb (pg_Next p =? end_)%Z || pg_Complete p.

Definition hash_invalid (h : string) : bool := negb (is_ok (ValidateContentHash h)).

(** The baseline of a verified prefix: a snapshot of the page, or the named one. *)
Definition baseline_of (byID : gmap string Snapshot) (e : ContextSegmentCoverage) : string * string :=
  match byID !! sc_BaselineSnapshotID e with
  | Some s => (sn_ID s, sn_DocHash s)
  | None => (sc_BaselineSnapshotID e, sc_BaselineDocHash e)
  end.

Definition prefix_invalid (byID : gmap string Snapshot) (snap : Snapshot) (g : ConversationSegment)
    (e : ContextSegmentCoverage) : bool :=
  let base := baseline_of byID e in
  hash_invalid base.1 ||
  ((base.1 =? sn_ID snap) || (base.2 <>? sc_BaselineDocHash e) || hash_invalid (sc_BaselineDocHash e) ||
   (elems (sn_Parents snap) <>? [base.1]) || (length (elems (sc_Bindings e)) =? 0)%nat ||
   (cg_Provider g =? "") || (cg_SessionID g =? "")).

Definition segment_invalid (repo : string) (snap : Snapshot) (e : ContextSegmentCoverage) (g : ConversationSegment) : bool :=
  (cg_RepoID g <>? repo) || (cg_DocHash g <>? sn_DocHash snap) || hash_invalid (cg_DocHash g) ||
  hash_invalid (cg_ID g) || (cg_EventStart g <? 0)%Z || (cg_EventEnd g <? cg_EventStart g)%Z ||
  negb (cg_EventEnd g =? sc_TotalEvents e)%Z.

(** The coverage kind of one entry. *)
Definition check_coverage (repo : string) (byID : gmap string Snapshot) (snap : Snapshot) (e : ContextSegmentCoverage)
    : result unit :=
  if sc_Kind e =? "unavailable" then
    reject_if (bool_decide (is_Some (sc_Segment e)) || negb (sc_TotalEvents e =? -1)%Z ||
               (sc_BaselineSnapshotID e <>? "") || (sc_BaselineDocHash e <>? "")) ErrHashMismatch
  else if (sc_Kind e =? "full_source") || (sc_Kind e =? "verified_prefix") then
    match sc_Segment e with
    | None => Err ErrHashMismatch
    | Some g =>
        reject_if (segment_invalid repo snap e g) ErrHashMismatch ;;
        reject_if (cg_ID g <>? ContextSegmentID g) ErrHashMismatch ;;
        if sc_Kind e =? "full_source"
        then reject_if (negb (cg_EventStart g =? 0)%Z || (sc_BaselineSnapshotID e <>? "") ||
                        (sc_BaselineDocHash e <>? "")) ErrHashMismatch
        else reject_if (prefix_invalid byID snap g e) ErrHashMismatch
    end
  else Err ErrUnclassified.

(** One binding; the state is the receipts seen on the page. *)
Definition check_binding (segment : option ConversationSegment) (receiptIDs : gset string) (b : CommitContextBinding)
    : result (gset string) :=
  reject_if (negb (contextOperationID (cb_EventID b)) || bool_decide (cb_EventID b ∈ receiptIDs) ||
             negb (ValidGitOID (cb_GitCommit b)) || (cb_BranchID b =? "") || (128 <? String.length (cb_BranchID b))%nat ||
             ((cb_WorktreeID b <>? "") && negb (contextOperationID (cb_WorktreeID b)))) ErrHashMismatch ;;
  reject_if (match segment with
             | None => negb (length (elems (cb_SegmentIDs b)) =? 0)%nat
             | Some g => elems (cb_SegmentIDs b) <>? [cg_ID g]
             end) ErrHashMismatch ;;
  Ok ({[cb_EventID b]} ∪ receiptIDs).

Definition check_entry (repo : string) (byID : gmap string Snapshot) (receiptIDs : gset string)
    (es : ContextSegmentCoverage * Snapshot) : result (gset string) :=
  let '(e, snap) := es in
  reject_if ((sc_SnapshotID e <>? sn_ID snap) || (sc_Reason e =? "")) ErrHashMismatch ;;
  check_coverage repo byID snap e ;;
  fold_each (check_binding (sc_Segment e)) (elems (sc_Bindings e)) receiptIDs.

(** [byID\[snap.ID\] = i]: the last snapshot of an id. *)
Definition snapshots_by_id (l : list Snapshot) : gmap string Snapshot :=
  foldl (λ (m : gmap string Snapshot) s, <[sn_ID s := s]> m) ∅ l.

Definition ValidateContextSegmentPage (repo : string) (i : ContextSelection) (out : ContextQueryView) : result unit :=
  match qv_Segments out with
  | None => reject_if (0 <? se_SegmentLimit i)%Z ErrUnclassified
  | Some p =>
      let n := Z.of_nat (length (elems (pg_Entries p))) in
      reject_if (negb (pg_Version p =? ContextSegmentVersion)%Z) ErrUnclassified ;;
      reject_if (hash_invalid (pg_StateHash p) || (pg_StateHash p <>? qv_StateHash out) || hash_invalid (pg_PageHash p))
        ErrHashMismatch ;;
      reject_if ((se_SegmentStateHash i <>? "") && (pg_StateHash p <>? se_SegmentStateHash i)) ErrSelectionChanged ;;
      reject_if ((pg_Offset p <? 0)%Z || (length (elems (pg_Entries p)) <>? length (qv_Snapshots out)) ||
                 (pg_Total p <? pg_Offset p)%Z || (MaxContextSegmentPage <? n)%Z || (pg_Total p - pg_Offset p <? n)%Z)
        ErrHashMismatch ;;
      reject_if ((0 <? se_SegmentLimit i)%Z &&
                 (negb (pg_Offset p =? se_SegmentOffset i)%Z ||
                  negb (n =? Z.min (se_SegmentLimit i) (pg_Total p - pg_Offset p))%Z)) ErrHashMismatch ;;
      reject_if (page_cursor_invalid p) ErrHashMismatch ;;
      reject_if (ContextSegmentPageHash p <>? pg_PageHash p) ErrHashMismatch ;;
      fold_each (check_entry repo (snapshots_by_id (qv_Snapshots out)))
        (zip (elems (pg_Entries p)) (qv_Snapshots out)) ∅ ;;
      Ok tt
  end.

(** One snapshot of the answer; the state is the ids seen. *)
Definition check_snapshot (repo : string) (seen : gset string) (s : Snapshot) : result (gset string) :=
  reject_if ((sn_RepoID s <>? repo) || hash_invalid (sn_ID s) || bool_decide (sn_ID s ∈ seen)) ErrHashMismatch ;;
  Ok ({[sn_ID s]} ∪ seen).

Definition ValidateContextQuery (repo : string) (i : ContextSelection) (out : ContextQueryView) : result unit :=
  ValidateContextSegmentSelection i ;;
  reject_if (negb (qv_Version out =? QueryContractVersion)%Z) ErrUnclassified ;;
  reject_if (hash_invalid (qv_StateHash out) || negb (is_ok (ValidateOptionalContentHash (qv_DeliveryStateHash out))))
    ErrHashMismatch ;;
  reject_if (HasPrefix (se_Position i) "sha256:" && (qv_Position out <>? se_Position i)) ErrSelectionChanged ;;
  fold_each (check_snapshot repo) (qv_Snapshots out) ∅ ;;
  match qv_Inclusion out with
  | None => Ok tt
  | Some c =>
      reject_if ((se_CodeCommit i <>? "") && (bc_CodeCommit c <>? se_CodeCommit i)) ErrSelectionChanged ;;
      reject_if (bc_SnapshotIDs c <>? (sn_ID <$> qv_Snapshots out)) ErrHashMismatch
  end ;;
  ValidateContextSegmentPage repo i out.

(** ** Facts of a validated answer *)

Lemma hash_invalid_false h : hash_invalid h = false ↔ ValidateContentHash h = Ok tt.
Proof. unfold hash_invalid. rewrite negb_false_iff. apply is_ok_unit. Qed.

(** The page facts the cursor contract gives. *)
Record page_facts (i : ContextSelection) (out : ContextQueryView) (p : ContextSegmentPage) : Prop := {
  pf_state : pg_StateHash p = qv_StateHash out ∧ (se_SegmentStateHash i ≠ "" → pg_StateHash p = se_SegmentStateHash i);
  pf_entries : length (elems (pg_Entries p)) = length (qv_Snapshots out);
  pf_bounds : (0 ≤ pg_Offset p)%Z ∧ (pg_Offset p + Z.of_nat (length (elems (pg_Entries p))) ≤ pg_Total p)%Z;
  pf_offset : (0 < se_SegmentLimit i)%Z → pg_Offset p = se_SegmentOffset i;
  pf_next : if pg_Complete p
            then pg_Next p = (-1)%Z ∧ (pg_Offset p + Z.of_nat (length (elems (pg_Entries p))) = pg_Total p)%Z
            else pg_Next p = (pg_Offset p + Z.of_nat (length (elems (pg_Entries p))))%Z ∧ elems (pg_Entries p) ≠ [];
  pf_valid : ValidateContentHash (pg_StateHash p) = Ok tt;
  pf_hash : pg_PageHash p = ContextSegmentPageHash p;
}.

Lemma page_facts_intro repo i out p :
  ValidateContextSegmentPage repo i out = Ok tt → qv_Segments out = Some p →
  page_facts i out p ∧
  ∃ receipts, fold_each (check_entry repo (snapshots_by_id (qv_Snapshots out)))
    (zip (elems (pg_Entries p)) (qv_Snapshots out)) ∅ = Ok receipts.
Proof.
  unfold ValidateContextSegmentPage. intros Hv Hp. rewrite Hp in Hv.
  set (n := Z.of_nat (length (elems (pg_Entries p)))) in *. inv_ok.
  split; [|by eexists]. rewrite !orb_false_iff, !Z.ltb_ge in *. bools. destruct_and!. bools.
  assert (page_cursor_invalid p = false) as Hcur by done. unfold page_cursor_invalid in Hcur. fold n in Hcur.
  split; fold n; try done; try by apply hash_invalid_false.
  - split; [done|]. intros Hne.
    match goal with H : (se_SegmentStateHash i <>? "") && _ = false |- _ => rewrite (bool_decide_false _ Hne) in H; cbn in H; by bools end.
  - lia.
  - intros Hl. match goal with H : (0 <? se_SegmentLimit i)%Z && _ = false |- _ =>
      rewrite (proj2 (Z.ltb_lt _ _) Hl), andb_true_l, orb_false_iff, !negb_false_iff, !Z.eqb_eq in H; by destruct H end.
  - destruct (Z.eqb_spec (pg_Offset p + n) (pg_Total p)) as [E|E].
    + apply orb_false_iff in Hcur as [Hn Hc]. apply negb_false_iff in Hn, Hc. rewrite Hc. apply Z.eqb_eq in Hn. done.
    + rewrite !orb_false_iff, negb_false_iff, Z.eqb_eq in Hcur. destruct Hcur as [[Hn Hx] ->]. split; [done|].
      intros E'. unfold n in Hn. rewrite E' in Hn. done.
Qed.

(** ** Following the cursor *)

(** A request and the answer the client validated. *)
Record fetched := MkFetched { ft_in : ContextSelection; ft_out : ContextQueryView; ft_page : ContextSegmentPage }.

Definition accepted (repo : string) (f : fetched) : Prop :=
  ValidateContextQuery repo (ft_in f) (ft_out f) = Ok tt ∧ qv_Segments (ft_out f) = Some (ft_page f) ∧
  (0 < se_SegmentLimit (ft_in f))%Z.

(** The pages a client collects from [offset] on: it asks for the next cursor and the
    state it has, until a page is complete. *)
Fixpoint pages_from (repo : string) (offset : Z) (state : string) (l : list fetched) : Prop :=
  match l with
  | [] => False
  | f :: rest =>
      accepted repo f ∧ se_SegmentOffset (ft_in f) = offset ∧ se_SegmentStateHash (ft_in f) = state ∧
      match rest with
      | [] => pg_Complete (ft_page f) = true
      | _ => pg_Complete (ft_page f) = false ∧
             pages_from repo (pg_Next (ft_page f)) (pg_StateHash (ft_page f)) rest
      end
  end.

Definition page_entries (f : fetched) : list ContextSegmentCoverage := elems (pg_Entries (ft_page f)).

Lemma accepted_facts repo f : accepted repo f → page_facts (ft_in f) (ft_out f) (ft_page f).
Proof.
  intros (Hv & Hp & _). unfold ValidateContextQuery in Hv.
  apply bind_Ok in Hv as ([] & _ & Hv). do 3 apply bind_Ok in Hv as (? & _ & Hv).
  apply bind_Ok in Hv as (? & _ & Hv). apply bind_Ok in Hv as (? & _ & Hv).
  by destruct (page_facts_intro _ _ _ _ Hv Hp).
Qed.

Lemma pages_from_cover repo offset state l : pages_from repo offset state l →
  (0 ≤ offset)%Z ∧
  ∃ f, last l = Some f ∧
    (offset + Z.of_nat (length (concat (page_entries <$> l))) = pg_Total (ft_page f))%Z ∧
    (Z.of_nat (length l) ≤ 1 + Z.of_nat (length (concat (page_entries <$> l))))%Z ∧
    (state ≠ "" → ∀ g, g ∈ l → pg_StateHash (ft_page g) = state).
Proof.
  revert offset state. induction l as [|f rest IH]; intros offset state; [done|]. intros (Ha & Ho & Hs & Hr).
  pose proof (accepted_facts _ _ Ha) as [[_ Hst] _ [Hb1 Hb2] Hoff Hnext _ _]. destruct Ha as (_ & _ & Hl).
  rewrite (Hoff Hl), Ho in *. split; [done|]. destruct rest as [|g rest].
  - rewrite Hr in Hnext. exists f. cbn [fmap list_fmap concat]. rewrite app_nil_r. split_and!; [done|apply Hnext|cbn; lia|].
    intros Hne x Hx. apply list_elem_of_singleton in Hx as ->. rewrite <-Hs. apply Hst. by rewrite Hs.
  - destruct Hr as [Hc Hr]. rewrite Hc in Hnext. destruct Hnext as [Hn Hne]. rewrite Hn in Hr.
    destruct (IH _ _ Hr) as (_ & x & Hlast & Htot & Hlen & Hall). exists x. split_and!; [done| | |].
    + rewrite fmap_cons. cbn [concat]. rewrite length_app. unfold page_entries at 1. lia.
    + rewrite fmap_cons. cbn [concat length]. rewrite length_app. unfold page_entries at 1.
      destruct (elems (pg_Entries (ft_page f))); [done|]. cbn [length] in *. lia.
    + intros Hs' y [->|Hy]%elem_of_cons; [rewrite <-Hs; apply Hst; by rewrite Hs|].
      assert (pg_StateHash (ft_page f) = state) as Heq by (rewrite <-Hs; apply Hst; by rewrite Hs).
      rewrite <-Heq. apply Hall; [|done]. by rewrite Heq.
Qed.

(** C9: following the cursor visits every entry of one state once: the pages a client
    accepts from offset 0 until completion hold exactly as many entries as the total,
    each page starts where the previous one ended, there is at most one page
    more than there are entries, and all pages after the first are of the first page's state. *)
Theorem segment_pages_cover repo first rest :
  pages_from repo 0 (se_SegmentStateHash (ft_in first)) (first :: rest) →
  ∃ f, last (first :: rest) = Some f ∧
    Z.of_nat (length (concat (page_entries <$> first :: rest))) = pg_Total (ft_page f) ∧
    (Z.of_nat (length (first :: rest)) ≤ 1 + pg_Total (ft_page f))%Z ∧
    ∀ g, g ∈ rest → pg_StateHash (ft_page g) = pg_StateHash (ft_page first).
Proof.
  intros H. destruct (pages_from_cover _ _ _ _ H) as (_ & f & Hl & Ht & Hn & _). exists f.
  rewrite Z.add_0_l in Ht. split_and!; [done|done|lia|].
  destruct H as (Ha & _ & _ & Hr). destruct rest as [|g rest]; [by intros g ?%elem_of_nil|]. destruct Hr as [_ Hr].
  destruct (pages_from_cover _ _ _ _ Hr) as (_ & _ & _ & _ & _ & Hall). apply Hall. intros E.
  pose proof (pf_valid _ _ _ (accepted_facts _ _ Ha)) as Hv. by rewrite E in Hv.
Qed.

(** ** The entries of a page *)

Lemma snapshots_by_id_id l k s : snapshots_by_id l !! k = Some s → sn_ID s = k ∧ s ∈ l.
Proof.
  unfold snapshots_by_id. induction l as [|x l IH] using rev_ind; [cbn [foldl]; by rewrite lookup_empty|].
  rewrite foldl_app. cbn [foldl]. rewrite lookup_insert_Some. intros [[<- <-]|[_ Hk]].
  - split; [done|]. apply elem_of_app. right. by apply list_elem_of_singleton.
  - destruct (IH Hk). split; [done|]. apply elem_of_app. by left.
Qed.

Lemma baseline_id l e : (baseline_of (snapshots_by_id l) e).1 = sc_BaselineSnapshotID e.
Proof.
  unfold baseline_of. destruct (snapshots_by_id l !! sc_BaselineSnapshotID e) as [s|] eqn:E; [|done].
  by apply snapshots_by_id_id in E as [-> _].
Qed.

(** The segment of an entry is content-addressed, of this repository and document, and
    a well-formed range; a verified prefix continues the only parent of the snapshot. *)
Definition coverage_exact (repo : string) (l : list Snapshot) (snap : Snapshot) (e : ContextSegmentCoverage) : Prop :=
  match sc_Segment e with
  | None => sc_Kind e = "unavailable" ∧ sc_TotalEvents e = (-1)%Z
  | Some g =>
      cg_ID g = ContextSegmentID g ∧ cg_RepoID g = repo ∧ cg_DocHash g = sn_DocHash snap ∧
      (0 ≤ cg_EventStart g ≤ cg_EventEnd g)%Z ∧ cg_EventEnd g = sc_TotalEvents e ∧
      ((sc_Kind e = "full_source" ∧ cg_EventStart g = 0%Z) ∨
       (sc_Kind e = "verified_prefix" ∧ elems (sn_Parents snap) = [sc_BaselineSnapshotID e] ∧
        sc_BaselineSnapshotID e ≠ sn_ID snap ∧ elems (sc_Bindings e) ≠ [] ∧
        ∀ s, snapshots_by_id l !! sc_BaselineSnapshotID e = Some s → sn_DocHash s = sc_BaselineDocHash e))
  end.

(** What a client may rely on for an entry and its snapshot. *)
Definition entry_exact (repo : string) (l : list Snapshot) (e : ContextSegmentCoverage) (snap : Snapshot) : Prop :=
  sc_SnapshotID e = sn_ID snap ∧ coverage_exact repo l snap e ∧
  ∀ b, b ∈ elems (sc_Bindings e) → ValidGitOID (cb_GitCommit b) = true ∧
    elems (cb_SegmentIDs b) = match sc_Segment e with None => [] | Some g => [cg_ID g] end.

Lemma check_coverage_exact repo l snap e :
  check_coverage repo (snapshots_by_id l) snap e = Ok tt → coverage_exact repo l snap e.
Proof.
  unfold check_coverage, coverage_exact. destruct (bool_decide_reflect (sc_Kind e = "unavailable")) as [Hk|Hk].
  { rewrite reject_if_Ok, !orb_false_iff. intros [[[H1 H2] _] _]. bools. apply Z.eqb_eq in H2.
    destruct (sc_Segment e) as [g|]; [destruct H1; by eexists|done]. }
  destruct ((sc_Kind e =? "full_source") || (sc_Kind e =? "verified_prefix")) eqn:Hkinds; [|done].
  destruct (sc_Segment e) as [g|]; [|done]. rewrite !bind_Ok. intros ([] & Hg & H). apply reject_if_Ok in Hg.
  apply bind_Ok in H as ([] & Hid & H). apply reject_if_Ok in Hid. bools.
  unfold segment_invalid in Hg. rewrite !orb_false_iff, !Z.ltb_ge, !negb_false_iff, Z.eqb_eq, !bool_decide_eq_true in Hg.
  destruct Hg as [[[[[[Hrepo Hdoc] _] _] Hs] He] Ht]. split_and!; [done|done|done|done|done|done|].
  destruct (bool_decide_reflect (sc_Kind e = "full_source")) as [Hf|Hf].
  { left. apply reject_if_Ok in H. rewrite !orb_false_iff, negb_false_iff, Z.eqb_eq in H. by destruct H as [[? _] _]. }
  cbn [orb] in Hkinds. bools. right. apply reject_if_Ok in H. unfold prefix_invalid in H.
  rewrite baseline_id, !orb_false_iff, !negb_false_iff, !bool_decide_eq_true, !bool_decide_eq_false, Nat.eqb_neq in H.
  destruct H as [_ [[[[[[Hne Hbase] _] Hpar] Hbind] _] _]]. split_and!; [done|done|done| |].
  - intros E. by rewrite E in Hbind.
  - intros s Hs'. unfold baseline_of in Hbase. by rewrite Hs' in Hbase.
Qed.

Definition entry_receipts (e : ContextSegmentCoverage) : list string := cb_EventID <$> elems (sc_Bindings e).

Lemma check_bindings_exact segment l seen out :
  fold_each (check_binding segment) l seen = Ok out →
  NoDup (cb_EventID <$> l) ∧ (∀ b, b ∈ l → cb_EventID b ∉ seen) ∧
  out = seen ∪ list_to_set (cb_EventID <$> l) ∧
  ∀ b, b ∈ l → ValidGitOID (cb_GitCommit b) = true ∧
    elems (cb_SegmentIDs b) = match segment with None => [] | Some g => [cg_ID g] end.
Proof.
  revert seen. induction l as [|b l IH]; intros seen; cbn [fold_each].
  { intros [= <-]. split_and!; [constructor|by intros b ?%elem_of_nil|cbn; set_solver|by intros b ?%elem_of_nil]. }
  rewrite bind_Ok. intros (seen' & Hb & Hr). destruct (IH _ Hr) as (Hn & Hd & -> & Hl). clear IH Hr.
  unfold check_binding in Hb. apply bind_Ok in Hb as ([] & H1 & Hb). apply bind_Ok in Hb as ([] & H2 & [= <-]).
  apply reject_if_Ok in H1, H2. rewrite !orb_false_iff, !negb_false_iff, bool_decide_eq_false in H1.
  destruct H1 as [[[[[_ Hfresh] Hoid] _] _] _]. rewrite fmap_cons. split_and!.
  - apply NoDup_cons. split; [|done]. intros (x & Hx & Hin)%list_elem_of_fmap. apply (Hd x Hin). set_solver.
  - intros x [->|Hx]%elem_of_cons; [done|]. intros Hs. apply (Hd x Hx). set_solver.
  - cbn. set_solver.
  - intros x [->|Hx]%elem_of_cons; [|auto]. split; [done|]. destruct segment as [g|]; bools; [done|].
    apply Nat.eqb_eq in H2. by apply nil_length_inv.
Qed.

(** A validated page binds every entry: each entry describes the snapshot at its
    position, its segment id is the hash of the segment and names this repository and
    the snapshot's document, its range is well formed, a verified prefix continues the
    only parent of its snapshot, bindings name full commit ids and only this segment,
    and no publication receipt is used twice on the page. *)
Theorem segment_entries_exact repo i out p :
  ValidateContextSegmentPage repo i out = Ok tt → qv_Segments out = Some p →
  Forall2 (entry_exact repo (qv_Snapshots out)) (elems (pg_Entries p)) (qv_Snapshots out) ∧
  NoDup (concat (entry_receipts <$> elems (pg_Entries p))).
Proof.
  intros Hv Hp. destruct (page_facts_intro _ _ _ _ Hv Hp) as [[_ Hlen _ _ _ _ _] (receipts & Hf)]. clear Hv Hp.
  assert (∀ (k : list (ContextSegmentCoverage * Snapshot)) seen out', fold_each (check_entry repo (snapshots_by_id (qv_Snapshots out))) k seen = Ok out' →
    (∀ es, es ∈ k → entry_exact repo (qv_Snapshots out) es.1 es.2) ∧
    NoDup (concat ((entry_receipts ∘ fst) <$> k)) ∧ ∀ x, x ∈ concat ((entry_receipts ∘ fst) <$> k) → x ∉ seen) as Hfold.
  { induction k as [|[e snap] k IH]; intros seen out'; cbn [fold_each].
    { intros _. split_and!; [by intros es ?%elem_of_nil|constructor|by intros x ?%elem_of_nil]. }
    rewrite bind_Ok. intros (seen' & He & Hr). destruct (IH _ _ Hr) as (H1 & H2 & H3). clear IH Hr.
    unfold check_entry in He. apply bind_Ok in He as ([] & Hid & He). apply bind_Ok in He as ([] & Hc & He).
    apply reject_if_Ok in Hid. bools. apply check_coverage_exact in Hc.
    apply check_bindings_exact in He as (Hn & Hd & -> & Hl). cbn [fmap list_fmap concat compose fst]. split_and!.
    - intros es [->|Hes]%elem_of_cons; [|auto]. by split_and!.
    - apply NoDup_app. split_and!; [done| |done]. intros x Hx Hx'. apply (H3 x Hx'). apply elem_of_union. right.
      by apply elem_of_list_to_set.
    - intros x [Hx|Hx]%elem_of_app Hs; [|apply (H3 x Hx), elem_of_union; by left].
      apply list_elem_of_fmap in Hx as (b & -> & Hb). by apply (Hd b). }
  destruct (Hfold _ _ _ Hf) as (H1 & H2 & _). split.
  - apply Forall2_same_length_lookup. split; [done|]. intros k e snap He Hs. apply (H1 (e, snap)).
    apply (list_elem_of_lookup_2 _ k). by rewrite lookup_zip_with, He, Hs.
  - rewrite list_fmap_compose, fst_zip in H2 by lia. done.
Qed.

(** ** Witnesses *)

Module QuerySamples.
Import HistorySamples.
Local Open Scope Z_scope.

Definition newer : Snapshot := GraphSamples.snapshot "b" ["a"%char] [] 2.
Definition older : Snapshot := GraphSamples.snapshot "a" [] [] 1.
Definition state : string := hash "5".

Definition segment : ConversationSegment :=
  let g := MkConversationSegment "" repo (hash "b") "claude" "s1" 3 7 in
  MkConversationSegment (ContextSegmentID g) repo (hash "b") "claude" "s1" 3 7.

Definition binding : CommitContextBinding :=
  MkCommitContextBinding "0123456789abcdef0123456789abcdef" "0123456789abcdef0123456789abcdef01234567" "branch" ""
    (Some [cg_ID segment]).

Definition prefix_entry : ContextSegmentCoverage :=
  MkContextSegmentCoverage (hash "b") (Some segment) (Some [binding]) "verified_prefix" "prefix verified" 7 (hash "a") (hash "a").
Definition missing_entry : ContextSegmentCoverage :=
  MkContextSegmentCoverage (hash "a") None (Some []) "unavailable" "document missing" (-1) "" "".

Definition page (offset next : Z) (complete : bool) (e : ContextSegmentCoverage) : ContextSegmentPage :=
  let p := MkContextSegmentPage 1 state "" offset next 2 complete (Some [e]) in
  MkContextSegmentPage 1 state (ContextSegmentPageHash p) offset next 2 complete (Some [e]).

Definition select (offset : Z) (h : string) : ContextSelection := MkContextSelection 1 offset h "" "main" "" "".
Definition view (s : Snapshot) (p : ContextSegmentPage) : ContextQueryView :=
  MkContextQueryView (Some p) (MkRepositoryRevision 0 1 0) 1 "main" state "" "" [s] [] None.

Definition fetch (offset : Z) (h : string) (s : Snapshot) (p : ContextSegmentPage) : fetched :=
  MkFetched (select offset h) (view s p) p.
Definition first : fetched := fetch 0 "" newer (page 0 1 false prefix_entry).
Definition second : fetched := fetch 1 state older (page 1 (-1) true missing_entry).
End QuerySamples.

Lemma segment_pages_cover_witness :
  ∃ f, last [QuerySamples.first; QuerySamples.second] = Some f ∧ pg_Total (ft_page f) = 2%Z ∧
    Z.of_nat (length (concat (page_entries <$> [QuerySamples.first; QuerySamples.second]))) = pg_Total (ft_page f).
Proof.
  destruct (segment_pages_cover HistorySamples.repo QuerySamples.first [QuerySamples.second]) as (f & H1 & H2 & _).
  - cbn [pages_from]. unfold accepted. split_and!; vm_compute; reflexivity.
  - exists f. split; [exact H1|]. split; [|exact H2]. injection H1 as <-. reflexivity.
Defined.

Lemma segment_entries_exact_witness :
  Forall2 (entry_exact HistorySamples.repo [QuerySamples.newer]) [QuerySamples.prefix_entry] [QuerySamples.newer] ∧
  ValidateContextSegmentPage HistorySamples.repo (QuerySamples.select 0 "") (ft_out QuerySamples.first) = Ok tt.
Proof.
  assert (ValidateContextSegmentPage HistorySamples.repo (QuerySamples.select 0 "") (ft_out QuerySamples.first) = Ok tt) as Hv
    by (vm_compute; reflexivity).
  split; [|exact Hv].
  apply (segment_entries_exact HistorySamples.repo (QuerySamples.select 0 "") (ft_out QuerySamples.first)
    (ft_page QuerySamples.first) Hv). reflexivity.
Defined.
