(* ===== verification/PublicationCatalog.v ===== *)
(** * Publication catalogs and completion groups

    Models [cli/internal/domain/publication_groups.go]: the catalog of local and
    accepted events a publication is planned from, and the policy that orders
    competing completions of one branch identity at one Git revision. *)
From S2P Require Import Prelude GoStrings Sha256 Values History TopoSort Graph Ancestry.

Record publicationCatalog := MkCatalog {
  pc_byID : gmap string HistoryEvent;
  pc_accepted : gset string;
  pc_all : list HistoryEvent;
  pc_pending : list HistoryEvent;
}.

(** One event of either batch: payloads are compared before anything is kept. *)
Definition catalog_event (repo : string) (st : gmap string HistoryEvent * list HistoryEvent)
    (e : HistoryEvent) : result (gmap string HistoryEvent * list HistoryEvent) :=
  reject_if (ev_RepoID e <>? repo) ErrHashMismatch ;;
  ValidateHistoryEvent e ;;
  match st.1 !! ev_ID e with
  | Some old => reject_if (old <>? e) ErrHashMismatch ;; Ok st
  | None => Ok (<[ev_ID e := e]> st.1, st.2 ++ [e])
  end.

(** [!c.accepted\[e.ID\] && !seen\[e.ID\]] *)
Definition pending_event (accepted : gset string) (st : gset string * list HistoryEvent)
    (e : HistoryEvent) : gset string * list HistoryEvent :=
  if decide (ev_ID e ∈ accepted) then st
  else if decide (ev_ID e ∈ st.1) then st
  else ({[ev_ID e]} ∪ st.1, st.2 ++ [e]).

Definition indexPublicationHistory (repo : string) (events accepted : list HistoryEvent)
    : result publicationCatalog :=
  st ← fold_each (λ st batch, fold_each (catalog_event repo) batch st) [accepted; events] (∅, []);
  let ids := list_to_set (ev_ID <$> accepted) in
  let pending := (fold_left (pending_event ids) events (∅, [])).2 in
  Ok (MkCatalog st.1 ids st.2 pending).

(** ** Ordinary proofs and aliases *)

Definition publicationProof (p e : HistoryEvent) : bool :=
  (ev_Kind p =? "publish") && (ev_Kind e <>? "publish") && (ev_Kind e <>? "pr-merge") &&
  (ev_RepoID e =? ev_RepoID p) && (ev_BranchID e =? ev_BranchID p) && (ev_Branch e =? ev_Branch p) &&
  (ev_LocalBranch e =? ev_LocalBranch p) && (ev_WorktreeID e =? ev_WorktreeID p) &&
  (ev_GitAfter e =? ev_GitAfter p) && (ev_Target e =? ev_Target p).

Definition publicationAliasAttachment (p proof a : HistoryEvent) : bool :=
  (ev_Kind a =? "attach") && (ev_RepoID a =? ev_RepoID p) && (ev_BranchID a =? ev_BranchID p) &&
  (ev_LocalBranch a <>? "") && (ev_WorktreeID a <>? "") &&
  ((ev_WorktreeID a =? ev_WorktreeID p) || (ev_LocalBranch a =? ev_LocalBranch p)) &&
  negb (time_After (ev_CreatedAt a) (ev_CreatedAt proof)).

Definition PublicationSourceNames (p : HistoryEvent) (events : list HistoryEvent) : list string :=
  let names := [ev_Branch p] in
  if (ev_LocalBranch p =? "") || (ev_LocalBranch p =? ev_Branch p) || (ev_WorktreeID p =? "")
  then names
  else if existsb (λ proof, publicationProof p proof &&
                    existsb (publicationAliasAttachment p proof) events) events
  then names ++ [ev_LocalBranch p] else names.

(** ** Selection

    [selected == nil || selected\[id\]] *)
Definition is_selected (selected : option (gset string)) (id : string) : bool :=
  match selected with
  | None => true
  | Some s => bool_decide (id ∈ s)
  end.

Definition group_targets (st : gmap (string * string) (gset string)) (selected : option (gset string))
    (e : HistoryEvent) : gmap (string * string) (gset string) :=
  if (ev_Kind e <>? "publish") || negb (is_selected selected (ev_BranchID e)) then st
  else let key := (ev_BranchID e, ev_GitAfter e) in
       <[key := {[ev_Target e]} ∪ default ∅ (st !! key)]> st.

Definition ancestryRoots (c : publicationCatalog) (selected : option (gset string)) : list string :=
  let groups := fold_left (λ st e, group_targets st selected e) (pc_pending c) ∅ in
  let needed := fold_left (λ needed group, if (1 <? size group)%nat then group ∪ needed else needed)
                  (map_to_list groups).*2 (∅ : gset string) in
  sort_slice str_lt (elements needed).

(** ** Completion groups *)

Notation group_key := (string * string * string)%type.

Record group_state := MkGroups {
  gs_ordinary : list HistoryEvent;
  gs_groups : gmap group_key (list HistoryEvent);
  gs_keys : list group_key;
  gs_identities : gmap group_key string;
}.

(** A name observed at a Git revision belongs to one identity. *)
Definition claim_name (selected : option (gset string)) (e : HistoryEvent)
    (identities : gmap group_key string) (name : string) : result (gmap group_key string) :=
  if name =? "" then Ok identities else
  let key := (ev_RepoID e, name, ev_GitAfter e) in
  let old := default "" (identities !! key) in
  reject_if ((old <>? "") && (old <>? ev_BranchID e) &&
             (is_selected selected old || is_selected selected (ev_BranchID e))) ErrSyncConflict ;;
  Ok (if old =? "" then <[key := ev_BranchID e]> identities else identities).

Definition group_event (repoID : string) (selected : option (gset string)) (st : group_state)
    (e : HistoryEvent) : result group_state :=
  if ev_Kind e <>? "publish" then
    Ok (if is_selected selected (ev_BranchID e)
        then MkGroups (gs_ordinary st ++ [e]) (gs_groups st) (gs_keys st) (gs_identities st)
        else st)
  else
    reject_if (ev_RepoID e <>? repoID) ErrHashMismatch ;;
    ValidateHistoryEvent e ;;
    identities ← fold_each (claim_name selected e) [ev_Branch e; ev_LocalBranch e] (gs_identities st);
    if negb (is_selected selected (ev_BranchID e))
    then Ok (MkGroups (gs_ordinary st) (gs_groups st) (gs_keys st) identities)
    else
      let key := (ev_RepoID e, ev_BranchID e, ev_GitAfter e) in
      Ok (MkGroups (gs_ordinary st)
            (<[key := default [] (gs_groups st !! key) ++ [e]]> (gs_groups st))
            (match gs_groups st !! key with Some _ => gs_keys st | None => gs_keys st ++ [key] end)
            identities).

(** The rank of a target: how many targets of the group it descends from.  [targets]
    is the order in which the map of ranks is ranged over. *)
Definition rank_target (ancestry : gmap string (gset string)) (targets : list string)
    (st : gmap string nat * string) (target : string) : result (gmap string nat * string) :=
  if length targets =? 1 then Ok (st.1, target) else
  match ancestry !! target with
  | None => Err ErrSyncConflict
  | Some ancestors =>
      let rank := length (filter (λ other, other ∈ ancestors) targets) in
      Ok (<[target := rank]> st.1, if rank =? length targets then target else st.2)
  end.

(** Source names the maximal target's publications cover. *)
Definition covered_names (all group : list HistoryEvent) (maximal : string) : gset string :=
  list_to_set (concat ((λ e, PublicationSourceNames e all) <$> filter (λ e, ev_Target e = maximal) group)).

Definition group_less (ranks : gmap string nat) (a b : HistoryEvent) : bool :=
  let ra := default 0 (ranks !! ev_Target a) in
  let rb := default 0 (ranks !! ev_Target b) in
  if ra <>? rb then (rb <? ra)%nat else str_lt (ev_ID a) (ev_ID b).

Definition order_group (all : list HistoryEvent) (ancestry : gmap string (gset string))
    (group : list HistoryEvent) : result (list HistoryEvent) :=
  let targets := elements (list_to_set (ev_Target <$> group) : gset string) in
  st ← fold_each (rank_target ancestry targets) targets (∅, "");
  let '(ranks, maximal) := st in
  reject_if (maximal =? "") ErrSyncConflict ;;
  let covered := covered_names all group maximal in
  for_each (λ e, for_each (λ name, reject_if (bool_decide (name ∉ covered)) ErrSyncConflict)
                   (PublicationSourceNames e all)) group ;;
  Ok (sort_slice (group_less ranks) group).

Definition order (catalog : publicationCatalog) (repoID : string) (selected : option (gset string))
    (ancestry : gmap string (gset string)) : result (list HistoryEvent) :=
  st ← fold_each (group_event repoID selected) (pc_pending catalog) (MkGroups [] ∅ [] ∅);
  fold_each (λ ordinary key,
      group ← order_group (pc_all catalog) ancestry (default [] (gs_groups st !! key));
      Ok (ordinary ++ group))
    (gs_keys st) (gs_ordinary st).

Definition OrderHistoryPublications (repo : string) (events accepted : list HistoryEvent)
    (ancestry : gmap string (gset string)) : result (list HistoryEvent) :=
  c ← indexPublicationHistory repo events accepted;
  order c repo None ancestry.

Definition PublicationAncestryRoots (repo : string) (events accepted : list HistoryEvent)
    : result (list string) :=
  c ← indexPublicationHistory repo events accepted;
  Ok (ancestryRoots c None).

(** ** Totality *)

Lemma indexPublicationHistory_total repo events accepted :
  no_fuel_error (indexPublicationHistory repo events accepted).
Proof. unfold indexPublicationHistory, catalog_event. auto 20 with total. Qed.

Lemma order_total catalog repoID selected ancestry : no_fuel_error (order catalog repoID selected ancestry).
Proof.
  unfold order, group_event, claim_name. apply total_bind; [auto 30 with total|]. intros st.
  unfold order_group, rank_target. auto 30 with total.
Qed.
#[export] Hint Resolve indexPublicationHistory_total order_total : total.

(** ** The catalog *)

(** What the catalog promises its readers. *)
Record catalog_of (repo : string) (events accepted : list HistoryEvent) (c : publicationCatalog) : Prop := {
  catalog_lookup id e : pc_byID c !! id = Some e ↔ e ∈ accepted ++ events ∧ ev_ID e = id;
  catalog_all e : e ∈ pc_all c ↔ e ∈ accepted ++ events;
  catalog_all_NoDup : NoDup (ev_ID <$> pc_all c);
  catalog_valid e : e ∈ accepted ++ events → ValidateHistoryEvent e = Ok tt ∧ ev_RepoID e = repo;
  catalog_accepted id : id ∈ pc_accepted c ↔ id ∈ ev_ID <$> accepted;
  catalog_pending e : e ∈ pc_pending c ↔ e ∈ events ∧ ev_ID e ∉ pc_accepted c;
  catalog_pending_NoDup : NoDup (ev_ID <$> pc_pending c);
}.

Lemma catalog_batch_spec repo l st :
  fold_each (catalog_event repo) l (∅, []) = Ok st →
  (∀ id e, st.1 !! id = Some e ↔ e ∈ l ∧ ev_ID e = id) ∧ (∀ e, e ∈ st.2 ↔ e ∈ l) ∧
  NoDup (ev_ID <$> st.2) ∧ (∀ e, e ∈ l → ValidateHistoryEvent e = Ok tt ∧ ev_RepoID e = repo).
Proof.
  apply (fold_each_invariant (catalog_event repo) (λ pre st,
    (∀ id e, st.1 !! id = Some e ↔ e ∈ pre ∧ ev_ID e = id) ∧ (∀ e, e ∈ st.2 ↔ e ∈ pre) ∧
    NoDup (ev_ID <$> st.2) ∧ (∀ e, e ∈ pre → ValidateHistoryEvent e = Ok tt ∧ ev_RepoID e = repo))).
  { cbn. split_and!; [|set_solver|constructor|set_solver]. intros. rewrite lookup_empty. set_solver. }
  intros pre x [m l'] st' (Hm & Hl & Hnd & Hv) _ Hstep. cbn [fst snd] in *. unfold catalog_event in Hstep.
  inv_ok. bools. cbn [fst snd] in *.
  assert (∀ e, e ∈ pre ++ [x] → ValidateHistoryEvent e = Ok tt ∧ ev_RepoID e = repo) as Hv'.
  { intros e [?| ->%list_elem_of_singleton]%elem_of_app; [auto|done]. }
  destruct (m !! ev_ID x) as [old|] eqn:Hx; inv_ok; subst st'; bools; cbn [fst snd].
  - subst old. assert (x ∈ pre) by (by apply Hm in Hx as [? _]).
    split_and!; [|set_solver|done|done]. intros id e. rewrite Hm. set_solver.
  - assert (∀ e, e ∈ pre → ev_ID e ≠ ev_ID x) as Hnew.
    { intros e He Hid. assert (m !! ev_ID x = Some e) by (by apply Hm). congruence. }
    split_and!; [|set_solver| |done].
    + intros id e. rewrite lookup_insert, elem_of_app, list_elem_of_singleton.
      case_decide as Hid; [|rewrite Hm; naive_solver]. split; [naive_solver|].
      intros [[He| ->] He']; [|done]. exfalso. apply (Hnew e He). congruence.
    + rewrite fmap_app. apply NoDup_app. split_and!; [done| |apply NoDup_singleton].
      intros i (e & -> & He%Hl)%list_elem_of_fmap. cbn. rewrite list_elem_of_singleton. auto.
Qed.

Lemma pending_spec ids events :
  let pending := (fold_left (pending_event ids) events (∅, [])).2 in
  (∀ e1 e2, e1 ∈ events → e2 ∈ events → ev_ID e1 = ev_ID e2 → e1 = e2) →
  (∀ e, e ∈ pending ↔ e ∈ events ∧ ev_ID e ∉ ids) ∧ NoDup (ev_ID <$> pending).
Proof.
  intros pending Hc. unfold pending. clear pending.
  assert (∀ todo st, (∀ e, e ∈ todo → e ∈ events) → (∀ e, e ∈ st.2 → e ∈ events) →
    (∀ i, i ∈ st.1 ↔ i ∈ ev_ID <$> st.2) → NoDup (ev_ID <$> st.2) →
    let st' := fold_left (pending_event ids) todo st in
    (∀ e, e ∈ st'.2 ↔ e ∈ st.2 ∨ e ∈ todo ∧ ev_ID e ∉ ids) ∧ NoDup (ev_ID <$> st'.2)) as H.
  { induction todo as [|x todo IH]; intros [seen l] Ht Hl Hs Hnd; cbn [fold_left]; [set_solver|].
    cbn [fst snd] in *. remember (pending_event ids (seen, l) x) as st1 eqn:E.
    unfold pending_event in E. cbn [fst snd] in E.
    destruct (decide (ev_ID x ∈ ids)) as [Hacc|Hacc]; [|destruct (decide (ev_ID x ∈ seen)) as [Hsx|Hsx]];
      subst st1.
    - destruct (IH (seen, l)) as [H1 H2]; [set_solver..|]. split; [|done]. intros e. rewrite H1. set_solver.
    - destruct (IH (seen, l)) as [H1 H2]; [set_solver..|]. split; [|done]. intros e. rewrite H1. cbn.
      apply Hs in Hsx. apply list_elem_of_fmap in Hsx as (y & Hid & Hy).
      assert (x = y) as -> by (apply Hc; set_solver). set_solver.
    - destruct (IH ({[ev_ID x]} ∪ seen, l ++ [x])) as [H1 H2]; [set_solver|set_solver| | |].
      + intros i. cbn. rewrite fmap_app, elem_of_app. set_solver.
      + cbn. rewrite fmap_app. apply NoDup_app. split_and!; [done| |apply NoDup_singleton].
        intros i Hi%Hs. cbn. set_solver.
      + split; [|done]. intros e. rewrite H1. set_solver. }
  destruct (H events (∅, [])) as [H1 H2]; cbn; [done|set_solver|set_solver|constructor|].
  split; [|done]. intros e. rewrite H1. set_solver.
Qed.

Lemma indexPublicationHistory_spec repo events accepted c :
  indexPublicationHistory repo events accepted = Ok c → catalog_of repo events accepted c.
Proof.
  unfold indexPublicationHistory. intros H. inv_ok. subst c. rename a into st.
  assert (fold_each (catalog_event repo) (accepted ++ events) (∅, []) = Ok st) as Hrun.
  { cbn [fold_each] in H0. inv_ok. subst. apply fold_each_app. eauto. }
  destruct (catalog_batch_spec _ _ _ Hrun) as (Hm & Hl & Hnd & Hv).
  destruct (pending_spec (list_to_set (ev_ID <$> accepted)) events) as [Hp Hpn].
  { intros e1 e2 H1 H2 Hid. assert (st.1 !! ev_ID e1 = Some e1) by (apply Hm; set_solver).
    assert (st.1 !! ev_ID e1 = Some e2) by (apply Hm; set_solver). congruence. }
  split; cbn; try done. intros id. by rewrite elem_of_list_to_set.
Qed.

(** ** Grouping *)

Definition completion_key (e : HistoryEvent) : group_key := (ev_RepoID e, ev_BranchID e, ev_GitAfter e).
#[local] Arguments completion_key : simpl never.

Definition ordinary_selected (selected : option (gset string)) (e : HistoryEvent) : Prop :=
  ev_Kind e ≠ "publish" ∧ is_selected selected (ev_BranchID e) = true.
Definition completion_selected (selected : option (gset string)) (e : HistoryEvent) : Prop :=
  ev_Kind e = "publish" ∧ is_selected selected (ev_BranchID e) = true.
#[export] Instance ordinary_selected_dec selected e : Decision (ordinary_selected selected e) := _.
#[export] Instance completion_selected_dec selected e : Decision (completion_selected selected e) := _.

(** The completions of one group, in pending order. *)
Definition completions (selected : option (gset string)) (key : group_key) (l : list HistoryEvent)
    : list HistoryEvent :=
  filter (λ e, completion_selected selected e ∧ completion_key e = key) l.

(** The names a completion exposes. *)
Definition exposed (e : HistoryEvent) : list string := [ev_Branch e; ev_LocalBranch e].

Definition groups_of (selected : option (gset string)) (pre : list HistoryEvent) (st : group_state) : Prop :=
  gs_ordinary st = filter (ordinary_selected selected) pre ∧
  (∀ key, default [] (gs_groups st !! key) = completions selected key pre) ∧
  NoDup (gs_keys st) ∧
  (∀ key, key ∈ gs_keys st ↔ is_Some (gs_groups st !! key)) ∧
  (∀ key, is_Some (gs_groups st !! key) ↔ ∃ e, e ∈ pre ∧ completion_selected selected e ∧ completion_key e = key).

Lemma completions_snoc selected key l e :
  completions selected key (l ++ [e]) =
  completions selected key l ++
    if decide (completion_selected selected e ∧ completion_key e = key) then [e] else [].
Proof. unfold completions. rewrite filter_app, filter_cons, filter_nil. by case_decide. Qed.

Lemma completion_snoc selected key l e :
  ¬ (completion_selected selected e ∧ completion_key e = key) →
  (∃ x, x ∈ l ++ [e] ∧ completion_selected selected x ∧ completion_key x = key) ↔
  (∃ x, x ∈ l ∧ completion_selected selected x ∧ completion_key x = key).
Proof.
  intros He. setoid_rewrite elem_of_app. setoid_rewrite list_elem_of_singleton.
  split; intros (x & Hx & Hc); exists x; [|tauto]. split; [|done].
  destruct Hx as [?| ->]; [done|tauto].
Qed.

Lemma groups_keep selected pre e st ids :
  groups_of selected pre st → ¬ ordinary_selected selected e → ¬ completion_selected selected e →
  groups_of selected (pre ++ [e]) (MkGroups (gs_ordinary st) (gs_groups st) (gs_keys st) ids).
Proof.
  intros (Ho & Hg & Hn & Hk & Hs) H1 H2. unfold groups_of. cbn. split_and!; [|..|done|done|].
  - rewrite filter_app, filter_cons_False, filter_nil, app_nil_r by done. done.
  - intros key. rewrite completions_snoc, decide_False, app_nil_r by tauto. done.
  - intros key. rewrite Hs, completion_snoc by tauto. done.
Qed.

Lemma groups_step repoID selected pre e st st' :
  groups_of selected pre st → group_event repoID selected st e = Ok st' →
  groups_of selected (pre ++ [e]) st'.
Proof.
  intros Hst. unfold group_event. destruct (bool_decide_reflect (ev_Kind e = "publish")) as [Hk|Hk]; cbn.
  - intros H. inv_ok. destruct (is_selected selected (ev_BranchID e)) eqn:Hsel; cbn in H; inv_ok; subst st'.
    2:{ apply groups_keep; [done| |]; unfold ordinary_selected, completion_selected; rewrite Hsel; naive_solver. }
    destruct Hst as (Ho & Hg & Hn & Hks & Hs). fold (completion_key e).
    assert (completion_selected selected e) as Hc by done. unfold groups_of. cbn. split_and!.
    + rewrite filter_app, filter_cons_False, filter_nil, app_nil_r; [done|].
      unfold ordinary_selected. tauto.
    + intros key. rewrite lookup_insert, completions_snoc, <-!Hg.
      destruct (decide (completion_key e = key)) as [<-|Hkey].
      * by rewrite decide_True by done.
      * rewrite decide_False, app_nil_r by tauto. done.
    + destruct (gs_groups st !! completion_key e) eqn:Hl; [done|]. apply NoDup_app.
      split_and!; [done| |apply NoDup_singleton]. intros k Hkk ->%list_elem_of_singleton.
      apply Hks in Hkk. rewrite Hl in Hkk. by destruct Hkk.
    + intros key. rewrite lookup_insert. destruct (gs_groups st !! completion_key e) eqn:Hl.
      * rewrite Hks. destruct (decide (completion_key e = key)) as [<-|]; [|done]. rewrite Hl. by split; eexists.
      * rewrite elem_of_app, list_elem_of_singleton, Hks.
        destruct (decide (completion_key e = key)) as [<-|]; [|naive_solver]. split; [by eexists|by right].
    + intros key. rewrite lookup_insert. destruct (decide (completion_key e = key)) as [<-|Hkey].
      * split; [|by eexists]. intros _. exists e. set_solver.
      * rewrite Hs, completion_snoc by tauto. done.
  - destruct (is_selected selected (ev_BranchID e)) eqn:Hsel; intros [= <-].
    + destruct Hst as (Ho & Hg & Hn & Hks & Hs).
      assert (¬ completion_selected selected e) as Hc by (unfold completion_selected; tauto).
      unfold groups_of. cbn. split_and!; [|..|done|done|].
      * rewrite filter_app, filter_cons_True, filter_nil, Ho; done.
      * intros key. rewrite completions_snoc, decide_False, app_nil_r by tauto. done.
      * intros key. rewrite Hs, completion_snoc by tauto. done.
    + destruct st. apply (groups_keep selected pre e _ gs_identities0 Hst);
        unfold ordinary_selected, completion_selected; rewrite ?Hsel; naive_solver.
Qed.

Lemma groups_fold repoID selected l st :
  fold_each (group_event repoID selected) l (MkGroups [] ∅ [] ∅) = Ok st → groups_of selected l st.
Proof.
  apply (fold_each_invariant (group_event repoID selected) (groups_of selected)).
  - unfold groups_of. cbn. split_and!; try done; [constructor|..]; intros key.
    + rewrite lookup_empty. split; [set_solver|by intros []].
    + rewrite lookup_empty. split; [by intros []|set_solver].
  - intros pre e s1 s2 H1 _. by apply groups_step.
Qed.

(** ** Ordering one group *)

(** [t] is [u] or a recorded descendant of it. *)
Definition descends (ancestry : gmap string (gset string)) (t u : string) : Prop :=
  t = u ∨ ∃ s, ancestry !! t = Some s ∧ u ∈ s.

Section group.
Context (ancestry : gmap string (gset string)) (targets : list string).

Definition rank_of (t : string) : nat :=
  match ancestry !! t with
  | Some s => length (filter (λ u, u ∈ s) targets)
  | None => 0
  end.

Lemma rank_targets_single t st :
  targets = [t] → fold_each (rank_target ancestry targets) targets (∅, "") = Ok st → st = (∅, t).
Proof. intros ->. cbn. by intros [= <-]. Qed.

Lemma rank_targets_spec ranks maximal :
  length targets ≠ 1 → fold_each (rank_target ancestry targets) targets (∅, "") = Ok (ranks, maximal) →
  (∀ t, t ∈ targets → is_Some (ancestry !! t) ∧ ranks !! t = Some (rank_of t)) ∧
  (maximal = "" ∨ (maximal ∈ targets ∧ rank_of maximal = length targets)).
Proof.
  intros Hlen H. change ranks with (ranks, maximal).1. change maximal with (ranks, maximal).2 at 2 3 4.
  revert H. generalize (ranks, maximal). clear ranks maximal. intros st.
  apply (fold_each_invariant (rank_target ancestry targets) (λ pre st,
    (∀ t, t ∈ pre → is_Some (ancestry !! t) ∧ st.1 !! t = Some (rank_of t)) ∧
    (st.2 = "" ∨ (st.2 ∈ targets ∧ rank_of st.2 = length targets)))).
  { split; [set_solver|by left]. }
  intros pre t [r m] st' [Hr Hm] Ht Hstep. unfold rank_target in Hstep.
  rewrite bool_decide_false in Hstep by done.
  destruct (ancestry !! t) as [s|] eqn:Hs; [|done]. injection Hstep as <-. cbn [fst snd] in *.
  assert (rank_of t = length (filter (λ u, u ∈ s) targets)) as Hrank by (unfold rank_of; by rewrite Hs).
  rewrite <-Hrank. split.
  - intros u [Hu| ->%list_elem_of_singleton]%elem_of_app; rewrite lookup_insert; case_decide; subst; auto; by rewrite Hs.
  - case_bool_decide; auto.
Qed.

Lemma rank_full t s :
  ancestry !! t = Some s → rank_of t = length targets → ∀ u, u ∈ targets → u ∈ s.
Proof.
  unfold rank_of. intros -> Hlen u Hu. destruct (decide (u ∈ s)) as [|Hn]; [done|].
  pose proof (length_filter_lt (λ u, u ∈ s) targets u Hu Hn). lia.
Qed.

(** Descending from a target means a strictly larger rank. *)
Lemma rank_descends `{!AncestryOrder ancestry} t u st su :
  t ∈ targets → ancestry !! t = Some st → ancestry !! u = Some su → u ∈ st → t ≠ u →
  (rank_of u < rank_of t)%nat.
Proof.
  intros Ht Hst Hsu Hin Hne. unfold rank_of. rewrite Hst, Hsu.
  assert (su ⊆ st) as Hsub by (by eapply (ancestry_trans t st u su)).
  assert (t ∈ st) as Htt by (by eapply ancestry_refl).
  assert (t ∉ su) as Htu by (intros ?; by eapply Hne, (ancestry_antisym t st u su)).
  clear Hst Hsu. induction targets as [|x l IH]; [set_solver|].
  assert (length (filter (λ v, v ∈ su) l) ≤ length (filter (λ v, v ∈ st) l)) as Hle.
  { clear -Hsub. induction l as [|y l IH]; [done|]. rewrite !filter_cons.
    repeat case_decide; cbn; try lia. set_solver. }
  rewrite !filter_cons. apply elem_of_cons in Ht as [<-|Ht].
  - rewrite decide_False, decide_True by done. cbn. lia.
  - specialize (IH Ht). repeat case_decide; cbn; try lia. set_solver.
Qed.
End group.

Lemma str_lt_not_after_trans a b c :
  str_lt b a = false → str_lt c b = false → str_lt c a = false.
Proof.
  intros Hab Hbc. apply not_true_iff_false. intros Hca.
  destruct (str_lt_total a b) as [?|[-> |?]]; [|congruence|congruence].
  assert (str_lt c b = true) by (by eapply str_lt_trans). congruence.
Qed.

Lemma group_less_false ranks a b :
  group_less ranks b a = false ↔
  let r e := default 0 (ranks !! ev_Target e) in
  (r b < r a ∨ r a = r b ∧ str_lt (ev_ID b) (ev_ID a) = false)%nat.
Proof.
  unfold group_less. cbn zeta. case_bool_decide as Hr; cbn [negb].
  - rewrite <-Hr. intuition lia.
  - rewrite Nat.ltb_ge. intuition lia.
Qed.

Lemma group_less_trans ranks : Transitive (not_after (group_less ranks)).
Proof.
  intros a b c. unfold not_after. rewrite !group_less_false. cbn zeta.
  intros [?|[? ?]] [?|[? ?]]; [left; lia..|]. right. split; [lia|]. by eapply str_lt_not_after_trans.
Qed.

Lemma group_less_asym ranks a b : group_less ranks a b = true → group_less ranks b a = false.
Proof.
  unfold group_less. repeat case_bool_decide; cbn [negb]; try congruence; [apply str_lt_asym|].
  rewrite Nat.ltb_lt, Nat.ltb_ge. lia.
Qed.

(** The order of a group: its first completion covers every other one, and no
    completion comes after one of its proper ancestors. *)
Definition group_ordered (ancestry : gmap string (gset string)) (g : list HistoryEvent) : Prop :=
  StronglySorted (λ a b, ev_Target a ≠ ev_Target b → ¬ descends ancestry (ev_Target b) (ev_Target a)) g ∧
  ∃ top rest, g = top :: rest ∧ ∀ e, e ∈ g → descends ancestry (ev_Target top) (ev_Target e).

Lemma StronglySorted_weaken {A} (R1 R2 : relation A) l :
  (∀ a b, a ∈ l → b ∈ l → R1 a b → R2 a b) → StronglySorted R1 l → StronglySorted R2 l.
Proof.
  intros HR H. induction H as [|x l Hl IH Hx]; constructor.
  - apply IH. intros a b Ha Hb. apply HR; by right.
  - rewrite Forall_forall in Hx |- *. intros y Hy. apply HR; [left|by right|auto].
Qed.

Lemma order_group_Permutation all ancestry group g :
  order_group all ancestry group = Ok g → g ≡ₚ group.
Proof.
  unfold order_group. intros H. inv_ok. destruct a as [ranks maximal]. inv_ok. subst g.
  apply sort_slice_Permutation.
Qed.

Lemma order_group_ordered all ancestry group g :
  AncestryOrder ancestry → order_group all ancestry group = Ok g → group_ordered ancestry g.
Proof.
  intros Hanc H. pose proof (order_group_Permutation _ _ _ _ H) as Hperm.
  unfold order_group in H. set (targets := elements (list_to_set (ev_Target <$> group) : gset string)) in *.
  assert (∀ t, t ∈ targets ↔ t ∈ ev_Target <$> group) as Ht.
  { intros t. unfold targets. by rewrite elem_of_elements, elem_of_list_to_set. }
  assert (∀ e, e ∈ g → ev_Target e ∈ targets) as Hg.
  { intros e He. apply Ht, list_elem_of_fmap_2. by rewrite <-Hperm. }
  apply bind_Ok in H as ([ranks maximal] & Hrank & H). inv_ok. bools.
  assert (StronglySorted (not_after (group_less ranks)) g) as Hsort.
  { subst g. apply Sorted_StronglySorted; [apply group_less_trans|]. apply sort_slice_Sorted, group_less_asym. }
  clear H. destruct (decide (length targets = 1)) as [Hone|Hmany].
  - destruct targets as [|t [|]] eqn:Et; try done.
    assert (∀ e, e ∈ g → ev_Target e = t) as Hsame by (intros e He%Hg; set_solver).
    split; [eapply StronglySorted_weaken; [|done]; intros a b Ha Hb; by rewrite !Hsame|].
    destruct g as [|top rest]; [|exists top, rest; split; [done|]; intros e He; left; rewrite !Hsame; set_solver].
    exfalso. assert (t ∈ ev_Target <$> group) as (e & _ & He)%list_elem_of_fmap by (apply Ht; set_solver).
    rewrite <-Hperm in He. set_solver.
  - destruct (rank_targets_spec _ _ _ _ Hmany Hrank) as [Hranks [?|[Hmax Hfull]]]; [done|].
    assert (∀ e, e ∈ g → default 0 (ranks !! ev_Target e) = rank_of ancestry targets (ev_Target e)) as Hr.
    { intros e He%Hg. destruct (Hranks _ He) as [_ ->]. done. }
    split.
    + eapply StronglySorted_weaken; [|done]. intros a b Ha Hb Hab Hne Hd.
      destruct Hd as [?|(sb & Hsb & Hin)]; [congruence|].
      destruct (Hranks _ (Hg _ Ha)) as [[sa Hsa] _].
      pose proof (rank_descends ancestry targets _ _ _ _ (Hg _ Hb) Hsb Hsa Hin (not_eq_sym Hne)).
      unfold not_after in Hab. apply group_less_false in Hab. cbn zeta in Hab. rewrite !Hr in Hab by done. lia.
    + apply Ht in Hmax as (em & -> & Hem)%list_elem_of_fmap. rewrite <-Hperm in Hem.
      destruct g as [|top rest]; [set_solver|]. exists top, rest. split; [done|]. intros e He.
      destruct (Hranks _ (Hg top ltac:(left))) as [[st Hst] _]. right. exists st. split; [done|].
      apply (rank_full ancestry targets (ev_Target top)); [done| |by apply Hg].
      apply (anti_symm le); [unfold rank_of; rewrite Hst; apply length_filter|].
      rewrite <-Hfull. apply elem_of_cons in Hem as [-> | Hem]; [done|].
      apply StronglySorted_inv in Hsort as [_ Hsort]. rewrite Forall_forall in Hsort.
      specialize (Hsort em Hem). unfold not_after in Hsort. apply group_less_false in Hsort. cbn zeta in Hsort.
      rewrite !Hr in Hsort by (left || by right). lia.
Qed.

(** ** The whole order *)

Lemma order_groups_fold (all : list HistoryEvent) (ancestry : gmap string (gset string))
    (groups : gmap group_key (list HistoryEvent)) (keys : list group_key)
    (ordinary out : list HistoryEvent) :
  fold_each (λ ordinary key,
      group ← order_group all ancestry (default [] (groups !! key));
      Ok (ordinary ++ group)) keys ordinary = Ok out →
  ∃ gs, out = ordinary ++ concat gs ∧
    Forall2 (λ (key : group_key) g, order_group all ancestry (default [] (groups !! key)) = Ok g) keys gs.
Proof.
  revert ordinary. induction keys as [|key keys IH]; intros ordinary; cbn [fold_each].
  { intros [= <-]. exists []. cbn. rewrite app_nil_r. by split; [|constructor]. }
  intros H. inv_ok. subst. destruct (IH _ H) as (gs & -> & Hgs).
  exists (a0 :: gs). cbn. rewrite <-(assoc_L (++)). split; [done|]. by constructor.
Qed.

Lemma order_decompose catalog repoID selected ancestry out :
  order catalog repoID selected ancestry = Ok out →
  ∃ keys gs, out = filter (ordinary_selected selected) (pc_pending catalog) ++ concat gs ∧
    NoDup keys ∧
    Forall2 (λ key g, order_group (pc_all catalog) ancestry
                        (completions selected key (pc_pending catalog)) = Ok g) keys gs ∧
    (∀ e, e ∈ pc_pending catalog → completion_selected selected e → completion_key e ∈ keys).
Proof.
  unfold order. intros H. inv_ok. rename a into st.
  destruct (groups_fold _ _ _ _ H0) as (Ho & Hg & Hn & Hk & Hs).
  destruct (order_groups_fold _ _ _ _ _ _ H) as (gs & -> & Hgs).
  exists (gs_keys st), gs. rewrite Ho. split_and!; [done|done| |].
  - eapply Forall2_impl; [done|]. intros key g. cbn beta. by rewrite Hg.
  - intros e He Hc. apply Hk, Hs. eauto.
Qed.

Lemma completions_elem selected key l e :
  e ∈ completions selected key l ↔ e ∈ l ∧ completion_selected selected e ∧ completion_key e = key.
Proof. unfold completions. rewrite list_elem_of_filter. tauto. Qed.

(** Concatenating the groups of distinct keys loses and duplicates nothing. *)
Lemma groups_Permutation selected l keys gs :
  NoDup l → NoDup keys →
  Forall2 (λ key g, g ≡ₚ completions selected key l) keys gs →
  (∀ e, e ∈ l → completion_selected selected e → completion_key e ∈ keys) →
  concat gs ≡ₚ filter (completion_selected selected) l.
Proof.
  intros Hl Hk Hgs Hall.
  assert (NoDup (concat gs) ∧ ∀ e, e ∈ concat gs ↔ ∃ key, key ∈ keys ∧ e ∈ completions selected key l)
    as [Hnd Hin].
  { clear Hall. induction Hgs as [|key g keys gs Hg Hgs IH]; cbn; [split; [constructor|set_solver]|].
    apply NoDup_cons in Hk as [Hkey Hk]. destruct (IH Hk) as [Hnd Hin]. split.
    - apply NoDup_app. split_and!; [rewrite Hg; by apply NoDup_filter| |done].
      intros e He. rewrite Hg, completions_elem in He.
      intros (k & Hkk & He')%Hin. apply completions_elem in He'. destruct He as (_ & _ & <-), He' as (_ & _ & <-).
      done.
    - intros e. rewrite elem_of_app, Hg, Hin. setoid_rewrite elem_of_cons. naive_solver. }
  apply NoDup_Permutation; [done|by apply NoDup_filter|]. intros e.
  rewrite Hin, list_elem_of_filter. setoid_rewrite completions_elem. naive_solver.
Qed.

(** The order has exactly the selected pending events. *)
Lemma order_Permutation catalog repoID selected ancestry out :
  NoDup (pc_pending catalog) → order catalog repoID selected ancestry = Ok out →
  out ≡ₚ filter (λ e, is_selected selected (ev_BranchID e) = true) (pc_pending catalog).
Proof.
  intros Hnd (keys & gs & -> & Hk & Hgs & Hall)%order_decompose.
  rewrite (groups_Permutation selected (pc_pending catalog) keys gs); [|done|done| |done].
  2:{ eapply Forall2_impl; [done|]. intros key g. apply order_group_Permutation. }
  apply NoDup_Permutation; [|by apply NoDup_filter|].
  - apply NoDup_app. split_and!; [by apply NoDup_filter| |by apply NoDup_filter].
    intros e [[? _] _]%list_elem_of_filter [[? _] _]%list_elem_of_filter. done.
  - intros e. rewrite elem_of_app, !list_elem_of_filter. unfold ordinary_selected, completion_selected.
    destruct (decide (ev_Kind e = "publish")); tauto.
Qed.

(** Ordering a catalog keeps every selected pending event exactly once: first the
    selected ordinary events in pending order, then the selected completions, one
    group per branch identity and Git revision.  In a group the first completion's
    target descends from every other target, and no completion follows a proper
    ancestor of its target. *)
Theorem order_completion_groups (repo repoID : string) (events accepted : list HistoryEvent)
    (catalog : publicationCatalog) (selected : option (gset string))
    (ancestry : gmap string (gset string)) (out : list HistoryEvent) :
  indexPublicationHistory repo events accepted = Ok catalog → AncestryOrder ancestry →
  order catalog repoID selected ancestry = Ok out →
  ∃ gs, out = filter (ordinary_selected selected) (pc_pending catalog) ++ concat gs ∧
    concat gs ≡ₚ filter (completion_selected selected) (pc_pending catalog) ∧
    (∀ g, g ∈ gs → group_ordered ancestry g) ∧
    (∀ i j g h e f, gs !! i = Some g → gs !! j = Some h → e ∈ g → f ∈ h →
       completion_key e = completion_key f ↔ i = j).
Proof.
  intros Hcat Hanc (keys & gs & -> & Hnd & Hgs & Hall)%order_decompose.
  pose proof (indexPublicationHistory_spec _ _ _ _ Hcat) as Hc.
  assert (Forall2 (λ key g, g ≡ₚ completions selected key (pc_pending catalog)) keys gs) as Hperm.
  { eapply Forall2_impl; [done|]. intros key g. apply order_group_Permutation. }
  exists gs. split_and!; [done|..].
  - eapply groups_Permutation; [|done..]. by eapply NoDup_fmap_1, catalog_pending_NoDup.
  - intros g Hg. apply list_elem_of_lookup in Hg as [i Hi].
    destruct (Forall2_lookup_r _ _ _ _ _ Hgs Hi) as (key & _ & Hrun). by eapply order_group_ordered.
  - intros i j g h e f Hi Hj He Hf.
    destruct (Forall2_lookup_r _ _ _ _ _ Hperm Hi) as (k1 & Hk1 & Hp1).
    destruct (Forall2_lookup_r _ _ _ _ _ Hperm Hj) as (k2 & Hk2 & Hp2).
    rewrite Hp1, completions_elem in He. rewrite Hp2, completions_elem in Hf.
    destruct He as (_ & _ & ->), Hf as (_ & _ & ->). split; [|intros ->; congruence].
    intros ->. by eapply (NoDup_lookup keys).
Qed.

(** ** Unambiguous names *)

Definition name_key (e : HistoryEvent) (name : string) : group_key := (ev_RepoID e, name, ev_GitAfter e).

(** The recorded owner of a name is the event's identity, or neither is selected. *)
Definition owned (selected : option (gset string)) (ids : gmap group_key string) (e : HistoryEvent)
    (name : string) : Prop :=
  name ≠ "" → ∃ owner, ids !! name_key e name = Some owner ∧
    (owner = ev_BranchID e ∨
     (is_selected selected owner = false ∧ is_selected selected (ev_BranchID e) = false)).

Lemma claim_name_spec selected e ids name ids' :
  ev_BranchID e ≠ "" → (∀ k v, ids !! k = Some v → v ≠ "") →
  claim_name selected e ids name = Ok ids' →
  ids ⊆ ids' ∧ (∀ k v, ids' !! k = Some v → v ≠ "") ∧ owned selected ids' e name.
Proof.
  intros Hid Hne. unfold claim_name, owned. fold (name_key e name).
  case_bool_decide as Hn; [intros [= <-]; done|].
  intros H. inv_ok. subst ids'. apply andb_false_iff in H0.
  destruct (ids !! name_key e name) as [old|] eqn:Hold; cbn [from_option] in H0 |- *; unfold id in *.
  - rewrite bool_decide_false by eauto. split_and!; [done|done|]. intros _. exists old. split; [done|].
    destruct (bool_decide_reflect (old = ev_BranchID e)); [by left|right].
    rewrite bool_decide_false in H0 by eauto. destruct H0 as [?|?]; [done|]. bools. done.
  - rewrite bool_decide_true by done. split_and!.
    + by apply insert_subseteq.
    + intros k v. rewrite lookup_insert. destruct (decide (name_key e name = k)); [by intros [= <-]|apply Hne].
    + intros _. exists (ev_BranchID e). rewrite lookup_insert_eq. by split; [|left].
Qed.

Definition owners_of (selected : option (gset string)) (pre : list HistoryEvent) (st : group_state) : Prop :=
  (∀ k v, gs_identities st !! k = Some v → v ≠ "") ∧
  ∀ e name, e ∈ pre → ev_Kind e = "publish" → name ∈ exposed e → owned selected (gs_identities st) e name.

Lemma owned_mono selected ids ids' e name : ids ⊆ ids' → owned selected ids e name → owned selected ids' e name.
Proof.
  intros Hsub Ho Hn. destruct (Ho Hn) as (owner & Hl & Hc). exists owner. split; [|done].
  by eapply lookup_weaken.
Qed.

Lemma owners_step repoID selected pre e st st' :
  owners_of selected pre st → group_event repoID selected st e = Ok st' → owners_of selected (pre ++ [e]) st'.
Proof.
  intros [Hne Hown] H. unfold group_event in H.
  destruct (bool_decide_reflect (ev_Kind e = "publish")) as [Hk|Hk]; cbn [negb] in H.
  - apply bind_Ok in H as ([] & _ & H). apply bind_Ok in H as ([] & Hv & H).
    apply bind_Ok in H as (ids & Hclaim & H).
    assert (gs_identities st' = ids) as Hids by (destruct (negb _); by inv_ok; subst).
    apply ValidateHistoryEvent_branch in Hv as Hid. cbn [fold_each] in Hclaim. inv_ok. subst a0.
    destruct (claim_name_spec _ _ _ _ _ Hid Hne Hclaim0) as (Hs1 & Hn1 & Ho1).
    destruct (claim_name_spec _ _ _ _ _ Hid Hn1 Hclaim1) as (Hs2 & Hn2 & Ho2).
    unfold owners_of. rewrite Hids. split; [done|].
    intros x name [Hx| ->%list_elem_of_singleton]%elem_of_app Hxk Hname.
    + eapply owned_mono; [|by apply Hown]. by etrans.
    + unfold exposed in Hname. rewrite elem_of_cons, list_elem_of_singleton in Hname.
      destruct Hname as [-> | ->]; [by eapply owned_mono|done].
  - assert (gs_identities st' = gs_identities st) as Hids by (destruct (is_selected _ _); by inv_ok; subst).
    unfold owners_of. rewrite Hids. split; [done|].
    intros x name [Hx| ->%list_elem_of_singleton]%elem_of_app; [eauto|done].
Qed.

(** A successful order leaves no ambiguous name: two pending completions that expose
    the same nonempty canonical or tracking name at the same Git revision of the same
    repository belong to the same branch identity as soon as one of them is selected. *)
Theorem order_names_unambiguous (catalog : publicationCatalog) (repoID : string)
    (selected : option (gset string)) (ancestry : gmap string (gset string)) (out : list HistoryEvent)
    (e1 e2 : HistoryEvent) (name : string) :
  order catalog repoID selected ancestry = Ok out →
  e1 ∈ pc_pending catalog → e2 ∈ pc_pending catalog →
  ev_Kind e1 = "publish" → ev_Kind e2 = "publish" →
  name ∈ exposed e1 → name ∈ exposed e2 → name ≠ "" →
  ev_RepoID e1 = ev_RepoID e2 → ev_GitAfter e1 = ev_GitAfter e2 →
  is_selected selected (ev_BranchID e1) = true → ev_BranchID e1 = ev_BranchID e2.
Proof.
  unfold order. intros H He1 He2 Hk1 Hk2 Hn1 Hn2 Hne Hrepo Hgit Hsel. inv_ok. rename a into st.
  assert (owners_of selected (pc_pending catalog) st) as [_ Hown].
  { revert H0. apply (fold_each_invariant (group_event repoID selected) (owners_of selected)).
    - split; [cbn; intros k v; by rewrite lookup_empty|set_solver].
    - intros pre x s1 s2 H1 _. by apply owners_step. }
  destruct (Hown e1 name He1 Hk1 Hn1 Hne) as (o1 & Ho1 & [-> |[_ ?]]); [|congruence].
  destruct (Hown e2 name He2 Hk2 Hn2 Hne) as (o2 & Ho2 & Hc2).
  unfold name_key in *. rewrite <-Hrepo, <-Hgit, Ho1 in Ho2. injection Ho2 as <-.
  destruct Hc2 as [?|[? _]]; [done|congruence].
Qed.

(** ** Witnesses *)

Module CatalogSamples.
Import HistorySamples AncestrySamples.
Definition position := observation id1 "b-1" "main" "position" c git1 1.
Definition older := observation id2 "b-1" "main" "publish" a git1 2.
Definition newer := observation id3 "b-1" "main" "publish" c git1 3.
Definition events := [older; position; newer].
Definition catalog := MkCatalog
  (list_to_map ((λ e, (ev_ID e, e)) <$> events)) ∅ events events.
Lemma indexed_ok : indexPublicationHistory repo events [] = Ok catalog.
Proof. unfold indexPublicationHistory. vm_compute. reflexivity. Qed.
Lemma ancestry_order : AncestryOrder AncestrySamples.out.
Proof.
  apply (publicationAncestry_order repo AncestrySamples.snapshots AncestrySamples.roots).
  compute_decision.
Qed.
Lemma ordered : order catalog repo None AncestrySamples.out = Ok [position; newer; older].
Proof. compute_decision. Qed.
End CatalogSamples.

Lemma order_completion_groups_witness :
  ∃ gs, [CatalogSamples.position; CatalogSamples.newer; CatalogSamples.older] =
      [CatalogSamples.position] ++ concat gs ∧
    (∀ g, g ∈ gs → group_ordered AncestrySamples.out g).
Proof.
  destruct (order_completion_groups _ _ _ _ _ _ _ _ CatalogSamples.indexed_ok
    CatalogSamples.ancestry_order CatalogSamples.ordered) as (gs & Heq & _ & Hg & _).
  exists gs. split; [exact Heq|exact Hg].
Defined.

Lemma order_names_unambiguous_witness :
  ev_BranchID CatalogSamples.newer = ev_BranchID CatalogSamples.older.
Proof.
  apply (order_names_unambiguous _ _ _ _ _ _ _ "main" CatalogSamples.ordered);
    try reflexivity; try done; try (right; right; left); left.
Defined.
