(* ===== verification/PublicationBranches.v ===== *)
(** * Branches of a selected publication

    Models [cli/internal/domain/publication_projection.go] and
    [publication_history.go]: the lifecycle component a selection depends on, and the
    enumeration of the identities a history-only drain publishes. *)
From S2P Require Import Prelude GoStrings Sha256 Values History TopoSort HistoryOrder ContextBranch.
From S2P Require Import BranchFrame Graph Ancestry PublicationCatalog.

Record PublicationBranch := MkPublicationBranch { pb_Branch : string; pb_BranchID : string }.
#[export] Instance PublicationBranch_eq_dec : EqDecision PublicationBranch.
Proof. solve_decision. Defined.

(** ** The lifecycle component of a selection *)

Record component_index := MkComponentIndex {
  ci_byID : gmap string HistoryEvent;
  ci_byIdentity : gmap string (list string);
  ci_byName : gmap string (list string);
}.

(** [m\[k\] = append(m\[k\], id)] *)
Definition append_to (m : gmap string (list string)) (k id : string) : gmap string (list string) :=
  <[k := default [] (m !! k) ++ [id]]> m.

Definition index_binding (ix : component_index) (e : HistoryEvent) : component_index :=
  if negb (IsBranchBindingEvent e) then ix
  else match ci_byID ix !! ev_ID e with
  | Some _ => ix
  | None =>
      let byName := append_to (ci_byName ix) (ev_Branch e) (ev_ID e) in
      MkComponentIndex (<[ev_ID e := e]> (ci_byID ix))
        (append_to (ci_byIdentity ix) (ev_BranchID e) (ev_ID e))
        (if (ev_PreviousBranch e <>? "") && (ev_PreviousBranch e <>? ev_Branch e)
         then append_to byName (ev_PreviousBranch e) (ev_ID e) else byName)
  end.

Record component_state := MkComponent {
  cs_identities : gset string;
  cs_names : gset string;
  cs_seen : gset string;
  cs_queue : list string;
  cs_component : list HistoryEvent;
}.

Definition addIdentity (ix : component_index) (id : string) (st : component_state) : component_state :=
  if (id <>? "") && bool_decide (id ∉ cs_identities st)
  then MkComponent ({[id]} ∪ cs_identities st) (cs_names st) (cs_seen st)
         (cs_queue st ++ default [] (ci_byIdentity ix !! id)) (cs_component st)
  else st.

Definition addName (ix : component_index) (name : string) (st : component_state) : component_state :=
  if (name <>? "") && bool_decide (name ∉ cs_names st)
  then MkComponent (cs_identities st) ({[name]} ∪ cs_names st) (cs_seen st)
         (cs_queue st ++ default [] (ci_byName ix !! name)) (cs_component st)
  else st.

Definition add_selected (ix : component_index) (st : component_state) (branch : PublicationBranch)
    : component_state :=
  addName ix (pb_Branch branch) (addIdentity ix (pb_BranchID branch) st).

(** One iteration on [id], with the rest of the queue in [st]. *)
Definition component_visit (ix : component_index) (id : string) (st : component_state) : component_state :=
  if decide (id ∈ cs_seen st) then st else
  let st := MkComponent (cs_identities st) (cs_names st) ({[id]} ∪ cs_seen st) (cs_queue st)
              (cs_component st) in
  match ci_byID ix !! id with
  | None => st
  | Some e =>
      let st := MkComponent (cs_identities st) (cs_names st) (cs_seen st) (cs_queue st)
                  (cs_component st ++ [e]) in
      let st := addIdentity ix (ev_BranchID e) st in
      let st := addName ix (ev_Branch e) st in
      let st := addName ix (ev_PreviousBranch e) st in
      MkComponent (cs_identities st) (cs_names st) (cs_seen st)
        (cs_queue st ++ filter (λ parent, parent ≠ "") (HistoryDependencies e)) (cs_component st)
  end.

(** The queue holds the unread suffix [queue\[i:\]]. *)
Fixpoint component_loop (ix : component_index) (fuel : nat) (st : component_state)
    : result (list HistoryEvent) :=
  match cs_queue st with
  | [] => Ok (cs_component st)
  | id :: queue =>
      match fuel with
      | O => Err ErrOutOfFuel
      | S fuel =>
          component_loop ix fuel (component_visit ix id
            (MkComponent (cs_identities st) (cs_names st) (cs_seen st) queue (cs_component st)))
      end
  end.

(** Every event is queued at most once by its identity, once by each of its two
    names, and three times as a dependency. *)
Definition component_fuel (events : list HistoryEvent) : nat := 6 * length events.

Definition publication_component (events : list HistoryEvent) (selected : list PublicationBranch)
    : result (list HistoryEvent) :=
  let ix := fold_left index_binding events (MkComponentIndex ∅ ∅ ∅) in
  component_loop ix (component_fuel events)
    (fold_left (add_selected ix) selected (MkComponent ∅ ∅ ∅ [] [])).

Definition projectPublicationBranches (events : list HistoryEvent) (selected : list PublicationBranch)
    : result ContextBranchProjection :=
  component ← publication_component events selected;
  ProjectContextBranches component.

(** ** History-only scopes *)

(** The canonical name under which an event's identity is published, if any. *)
Definition canonical_name (repo : string) (p : ContextBranchProjection) (e : HistoryEvent)
    : result (option string) :=
  match ByID p !! ev_BranchID e with
  | Some known => Ok (Some (cb_Name known))
  | None =>
      if (ev_Branch e <>? "") && (ev_BranchID e =? LegacyContextBranchID repo (ev_Branch e))
      then Ok (Some (ev_Branch e))
      else if (ev_Kind e =? "position") || (ev_Kind e =? "attach") || (ev_Kind e =? "pr-merge")
      then Ok None
      else Err ErrSyncConflict
  end.

Definition history_branch (repo : string) (p : ContextBranchProjection)
    (branches : gmap string PublicationBranch) (e : HistoryEvent)
    : result (gmap string PublicationBranch) :=
  name ← canonical_name repo p e;
  match name with
  | None => Ok branches
  | Some name =>
      ValidateRef (MkRef (ev_BranchID e) RefBranch name "" repo "") ;;
      let b := MkPublicationBranch name (ev_BranchID e) in
      reject_if (match branches !! ev_BranchID e with Some old => old <>? b | None => false end)
        ErrSyncConflict ;;
      Ok (<[ev_BranchID e := b]> branches)
  end.

Definition branch_less (a b : PublicationBranch) : bool := str_lt (pb_BranchID a) (pb_BranchID b).

Definition PublicationHistoryBranches (repo : string) (events : list HistoryEvent)
    : result (list PublicationBranch) :=
  ValidateContentHash repo ;;
  catalog ← indexPublicationHistory repo events [];
  projection ← or_else (ProjectContextBranches (pc_all catalog)) ErrSyncConflict;
  branches ← fold_each (history_branch repo projection) (pc_all catalog) ∅;
  Ok (sort_slice branch_less (map_to_list branches).*2).

(** ** The index of binding events *)

(** An event appears under its name and under a distinct previous name. *)
Definition mentions (e : HistoryEvent) (name : string) : Prop :=
  ev_Branch e = name ∨ (ev_PreviousBranch e = name ∧ ev_PreviousBranch e ≠ "").
#[export] Instance mentions_dec e name : Decision (mentions e name) := _.

(** The index of a duplicate-free list of binding events. *)
Record indexes (E : list HistoryEvent) (ix : component_index) : Prop := {
  indexes_NoDup : NoDup (ev_ID <$> E);
  indexes_byID id e : ci_byID ix !! id = Some e ↔ e ∈ E ∧ ev_ID e = id;
  indexes_byIdentity i : default [] (ci_byIdentity ix !! i) = ev_ID <$> filter (λ e, ev_BranchID e = i) E;
  indexes_byName n : default [] (ci_byName ix !! n) = ev_ID <$> filter (λ e, mentions e n) E;
}.

Lemma append_to_lookup m k id j :
  default [] (append_to m k id !! j) = default [] (m !! j) ++ if decide (k = j) then [id] else [].
Proof.
  unfold append_to. rewrite lookup_insert. case_decide; subst; [done|by rewrite app_nil_r].
Qed.

Lemma index_binding_step E ix e :
  indexes E ix → IsBranchBindingEvent e = true → ci_byID ix !! ev_ID e = None →
  indexes (E ++ [e]) (index_binding ix e).
Proof.
  intros [Hnd Hid Hi Hn] Hb Hnew. unfold index_binding. rewrite Hb, Hnew. cbn [negb].
  split; cbn [ci_byID ci_byIdentity ci_byName].
  - rewrite fmap_app. apply NoDup_app. split_and!; [done| |apply NoDup_singleton].
    intros i (x & -> & Hx)%list_elem_of_fmap. cbn. rewrite list_elem_of_singleton. intros Heq.
    assert (ci_byID ix !! ev_ID e = Some x) by (by apply Hid). congruence.
  - intros i x. rewrite lookup_insert, elem_of_app, list_elem_of_singleton. case_decide as Heq.
    + split; [naive_solver|]. intros [[Hx| ->] Hx']; [|done].
      assert (ci_byID ix !! ev_ID e = Some x) by (apply Hid; naive_solver). congruence.
    + rewrite Hid. naive_solver.
  - intros i. rewrite append_to_lookup, Hi, filter_app, fmap_app, filter_cons, filter_nil. by case_decide.
  - intros n. rewrite filter_app, fmap_app, filter_cons, filter_nil, <-Hn. unfold mentions.
    destruct (bool_decide_reflect (ev_PreviousBranch e = "")), (bool_decide_reflect (ev_PreviousBranch e = ev_Branch e));
      cbn [negb andb]; rewrite ?append_to_lookup, <-?(assoc_L (++));
      destruct (decide (ev_Branch e = n)), (decide (ev_PreviousBranch e = n)); subst;
      repeat case_decide; try done; exfalso; naive_solver.
Qed.

(** The binding events a component is chosen from. *)
Lemma index_bindings_spec events :
  ∃ E, indexes E (fold_left index_binding events (MkComponentIndex ∅ ∅ ∅)) ∧
    (length E ≤ length events)%nat ∧ (∀ e, e ∈ E → e ∈ bindings events) ∧
    (∀ e, e ∈ bindings events → ∃ x, x ∈ E ∧ ev_ID x = ev_ID e).
Proof.
  assert (∀ pre ix, (∃ E, indexes E ix ∧ (length E ≤ length pre)%nat ∧ (∀ e, e ∈ E → e ∈ bindings pre) ∧
      (∀ e, e ∈ bindings pre → ∃ x, x ∈ E ∧ ev_ID x = ev_ID e)) →
    ∃ E, indexes E (fold_left index_binding events ix) ∧ (length E ≤ length (pre ++ events))%nat ∧
      (∀ e, e ∈ E → e ∈ bindings (pre ++ events)) ∧
      (∀ e, e ∈ bindings (pre ++ events) → ∃ x, x ∈ E ∧ ev_ID x = ev_ID e)) as H.
  { induction events as [|e events IH]; intros pre ix (E & Hix & Hlen & Hsub & Hall); cbn [fold_left].
    { exists E. by rewrite app_nil_r. }
    rewrite (assoc_L (++) pre [e] events : pre ++ e :: events = (pre ++ [e]) ++ events).
    apply IH. unfold bindings in *. setoid_rewrite list_elem_of_filter.
    setoid_rewrite list_elem_of_filter in Hsub. setoid_rewrite list_elem_of_filter in Hall.
    rewrite length_app. cbn [length].
    assert (∀ P : HistoryEvent → Prop, (∀ x, IsBranchBindingEvent x = true ∧ x ∈ pre → P x) →
      (IsBranchBindingEvent e = true → P e) → ∀ x, IsBranchBindingEvent x = true ∧ x ∈ pre ++ [e] → P x) as Hsnoc.
    { intros P H1 H2 x [Hx [?| ->%list_elem_of_singleton]%elem_of_app]; auto. }
    destruct (IsBranchBindingEvent e) eqn:Hb; [destruct (ci_byID ix !! ev_ID e) as [x|] eqn:Hx|].
    - exists E. unfold index_binding. rewrite Hb, Hx. cbn [negb]. split_and!; [done|lia|set_solver|].
      apply Hsnoc; [done|]. intros _. exists x. by apply (indexes_byID _ _ Hix).
    - exists (E ++ [e]). split_and!; [by apply index_binding_step|rewrite length_app; cbn; lia|set_solver|].
      apply Hsnoc; [|intros _; exists e; set_solver]. intros y Hy. destruct (Hall y Hy) as (z & ? & ?).
      exists z. set_solver.
    - exists E. unfold index_binding. rewrite Hb. cbn [negb]. split_and!; [done|lia|set_solver|].
      by apply Hsnoc. }
  apply (H [] (MkComponentIndex ∅ ∅ ∅)). exists []. split_and!; [|done|set_solver|set_solver].
  split; cbn; [constructor| |..]; intros; rewrite ?lookup_empty; set_solver.
Qed.

(** ** The worklist *)

Section component.
Context (E : list HistoryEvent) (ix : component_index) (Hix : indexes E ix).

(** How often an event may still be queued. *)
Definition weight (st : component_state) (e : HistoryEvent) : nat :=
  (if decide (ev_BranchID e ∈ cs_identities st) then 0 else 1) +
  (if decide (ev_Branch e ∈ cs_names st) then 0 else 1) +
  (if decide (ev_PreviousBranch e ∈ cs_names st) then 0 else 1) +
  (if decide (ev_ID e ∈ cs_seen st) then 0 else 3).

Definition potential (st : component_state) : nat :=
  length (cs_queue st) + sum_list_with (weight st) E.

Lemma sum_list_with_le {A} (k : nat) (f g : A → nat) (P : A → Prop) `{∀ x, Decision (P x)} l :
  (∀ x, x ∈ l → (f x + (if decide (P x) then k else 0) ≤ g x)%nat) →
  (sum_list_with f l + k * length (filter P l) ≤ sum_list_with g l)%nat.
Proof.
  induction l as [|x l IH]; intros Hfg; [cbn; lia|]. rewrite filter_cons. cbn [sum_list_with].
  pose proof (Hfg x ltac:(left)). specialize (IH ltac:(intros; apply Hfg; by right)).
  case_decide; cbn [length]; lia.
Qed.

Lemma addIdentity_potential id st : (potential (addIdentity ix id st) ≤ potential st)%nat.
Proof.
  unfold addIdentity. case_bool_decide as Hne; cbn [negb andb]; [done|].
  case_bool_decide as Hin; [|done]. unfold potential. cbn [cs_queue].
  rewrite length_app, (indexes_byIdentity _ _ Hix), length_fmap.
  pose proof (sum_list_with_le 1
    (weight (MkComponent ({[id]} ∪ cs_identities st) (cs_names st) (cs_seen st)
      (cs_queue st ++ default [] (ci_byIdentity ix !! id)) (cs_component st)))
    (weight st) (λ e, ev_BranchID e = id) E) as Hle.
  rewrite <-Nat.add_assoc, Nat.mul_1_l in *. apply Nat.add_le_mono_l. rewrite Nat.add_comm. apply Hle.
  intros e _. unfold weight. cbn [cs_identities cs_names cs_seen].
  repeat case_decide; set_solver by lia.
Qed.

Lemma addName_potential name st : (potential (addName ix name st) ≤ potential st)%nat.
Proof.
  unfold addName. case_bool_decide as Hne; cbn [negb andb]; [done|].
  case_bool_decide as Hin; [|done]. unfold potential. cbn [cs_queue].
  rewrite length_app, (indexes_byName _ _ Hix), length_fmap.
  pose proof (sum_list_with_le 1
    (weight (MkComponent (cs_identities st) ({[name]} ∪ cs_names st) (cs_seen st)
      (cs_queue st ++ default [] (ci_byName ix !! name)) (cs_component st)))
    (weight st) (λ e, mentions e name) E) as Hle.
  rewrite <-Nat.add_assoc, Nat.mul_1_l in *. apply Nat.add_le_mono_l. rewrite Nat.add_comm. apply Hle.
  intros e _. unfold weight, mentions. cbn [cs_identities cs_names cs_seen].
  repeat case_decide; set_solver by lia.
Qed.

Lemma deps_length e : (length (HistoryDependencies e) ≤ 3)%nat.
Proof. unfold HistoryDependencies. cbn. repeat (case_bool_decide; cbn); lia. Qed.

(** Marking an id as seen pays for the dependencies of its event. *)
Lemma seen_potential id st c :
  id ∉ cs_seen st →
  (potential (MkComponent (cs_identities st) (cs_names st) ({[id]} ∪ cs_seen st) (cs_queue st) c) +
    (if ci_byID ix !! id then 3 else 0) ≤ potential st)%nat.
Proof.
  intros Hs. unfold potential. cbn [cs_queue]. rewrite <-Nat.add_assoc. apply Nat.add_le_mono_l.
  set (st' := MkComponent _ _ _ _ c).
  pose proof (sum_list_with_le 3 (weight st') (weight st) (λ e, ev_ID e = id) E) as Hle.
  assert (∀ e, e ∈ E → (weight st' e + (if decide (ev_ID e = id) then 3 else 0) ≤ weight st e)%nat) as Hw.
  { intros e _. unfold weight. cbn [st' cs_identities cs_names cs_seen]. repeat case_decide; set_solver by lia. }
  specialize (Hle Hw). destruct (ci_byID ix !! id) as [e|] eqn:He; [|lia].
  apply (indexes_byID _ _ Hix) in He as [He Hid].
  assert (e ∈ filter (λ e, ev_ID e = id) E) as Hin by (by apply list_elem_of_filter).
  destruct (filter (λ e, ev_ID e = id) E); [set_solver|]. cbn [length] in Hle. lia.
Qed.

Lemma component_visit_potential id st : (potential (component_visit ix id st) ≤ potential st)%nat.
Proof.
  unfold component_visit. case_decide as Hs; [done|]. cbn zeta. cbn [cs_identities cs_names cs_seen cs_queue cs_component].
  pose proof (seen_potential id st (cs_component st) Hs) as Hp.
  destruct (ci_byID ix !! id) as [e|] eqn:He; [|lia].
  set (st1 := MkComponent _ _ _ _ (cs_component st ++ [e])).
  assert (potential st1 + 3 ≤ potential st)%nat as H1
    by (pose proof (seen_potential id st (cs_component st ++ [e]) Hs) as Hq; by rewrite He in Hq).
  pose proof (addIdentity_potential (ev_BranchID e) st1) as H2.
  pose proof (addName_potential (ev_Branch e) (addIdentity ix (ev_BranchID e) st1)) as H3.
  pose proof (addName_potential (ev_PreviousBranch e) (addName ix (ev_Branch e) (addIdentity ix (ev_BranchID e) st1))) as H4.
  set (st2 := addName ix (ev_PreviousBranch e) _) in *. unfold potential at 1. cbn [cs_queue].
  rewrite length_app. pose proof (length_filter (λ parent, parent ≠ "") (HistoryDependencies e)).
  pose proof (deps_length e). unfold potential in H4 at 1.
  change (sum_list_with (weight (MkComponent (cs_identities st2) (cs_names st2) (cs_seen st2) _ _)) E)
    with (sum_list_with (weight st2) E). lia.
Qed.

(** The loop always ends. *)
Lemma component_loop_total fuel st :
  (potential st ≤ fuel)%nat → ∃ component, component_loop ix fuel st = Ok component.
Proof.
  revert st. induction fuel as [|fuel IH]; intros st Hp; cbn [component_loop];
    destruct (cs_queue st) as [|id queue] eqn:Hq; eauto; unfold potential in Hp; rewrite Hq in Hp; cbn in Hp; [lia|].
  apply IH. etrans; [apply component_visit_potential|]. unfold potential. cbn [cs_queue].
  change (sum_list_with (weight (MkComponent (cs_identities st) (cs_names st) (cs_seen st) queue _)) E)
    with (sum_list_with (weight st) E). lia.
Qed.
End component.

Lemma selected_potential E ix selected st :
  indexes E ix → (potential E (fold_left (add_selected ix) selected st) ≤ potential E st)%nat.
Proof.
  intros Hix. revert st. induction selected as [|b selected IH]; intros st; cbn [fold_left]; [done|].
  etrans; [apply IH|]. unfold add_selected.
  etrans; [by apply addName_potential|by apply addIdentity_potential].
Qed.

Lemma publication_component_total events selected :
  ∃ component, publication_component events selected = Ok component.
Proof.
  unfold publication_component. destruct (index_bindings_spec events) as (E & Hix & Hlen & _).
  apply (component_loop_total E _ Hix). etrans; [by apply selected_potential|].
  unfold potential, component_fuel. cbn [cs_queue length Nat.add].
  assert (∀ l, (sum_list_with (weight (MkComponent ∅ ∅ ∅ [] [])) l ≤ 6 * length l)%nat) as Hsum.
  { induction l as [|e l IH]; [done|]. cbn [sum_list_with length]. unfold weight at 1.
    repeat case_decide; lia. }
  specialize (Hsum E). lia.
Qed.

(** ** What a component contains *)

Section closure.
Context (E : list HistoryEvent) (ix : component_index) (Hix : indexes E ix).

(** An id that is queued or already read. *)
Definition scheduled (st : component_state) (id : string) : Prop := id ∈ cs_queue st ∨ id ∈ cs_seen st.

Definition covers (st : component_state) : Prop :=
  (∀ x, x ∈ E → ev_BranchID x ∈ cs_identities st → scheduled st (ev_ID x)) ∧
  (∀ x n, x ∈ E → n ∈ cs_names st → mentions x n → scheduled st (ev_ID x)).

(** The component's event has scheduled everything it relates to. *)
Definition expanded (st : component_state) (e : HistoryEvent) : Prop :=
  (ev_BranchID e ≠ "" → ev_BranchID e ∈ cs_identities st) ∧
  (ev_Branch e ≠ "" → ev_Branch e ∈ cs_names st) ∧
  (ev_PreviousBranch e ≠ "" → ev_PreviousBranch e ∈ cs_names st) ∧
  (∀ d, d ∈ HistoryDependencies e → scheduled st d).

Definition advances (st st' : component_state) : Prop :=
  cs_identities st ⊆ cs_identities st' ∧ cs_names st ⊆ cs_names st' ∧
  (∀ id, scheduled st id → scheduled st' id).

Lemma expanded_advances st st' e : advances st st' → expanded st e → expanded st' e.
Proof. intros (Hi & Hn & Hs) (H1 & H2 & H3 & H4). split_and!; auto. Qed.

#[local] Instance advances_preorder : PreOrder advances.
Proof. split; [by intros st|]. intros a b c (? & ? & ?) (? & ? & ?). split_and!; [set_solver..|auto]. Qed.

Lemma addIdentity_spec id st :
  covers st → let st' := addIdentity ix id st in
  covers st' ∧ advances st st' ∧ (id ≠ "" → id ∈ cs_identities st') ∧
  cs_seen st' = cs_seen st ∧ cs_component st' = cs_component st.
Proof.
  intros [Hci Hcn]. unfold addIdentity. case_bool_decide as Hne; cbn [negb andb]; [by split_and!|].
  case_bool_decide as Hin; [|split_and!; try done; intros _; by destruct (decide (id ∈ cs_identities st))].
  set (st' := MkComponent _ _ _ _ _). cbn zeta.
  assert (∀ x, scheduled st x → scheduled st' x) as Hs
    by (intros x [?|?]; [left; apply elem_of_app; by left|by right]).
  split_and!; [|split_and!; [set_solver|done|done]|set_solver|done|done]. split.
  - intros x Hx [Hid%elem_of_singleton|Hid]%elem_of_union; [|auto]. left. apply elem_of_app. right.
    rewrite (indexes_byIdentity _ _ Hix). apply list_elem_of_fmap_2, list_elem_of_filter. done.
  - intros x n Hx Hn Hm. eauto.
Qed.

Lemma addName_spec name st :
  covers st → let st' := addName ix name st in
  covers st' ∧ advances st st' ∧ (name ≠ "" → name ∈ cs_names st') ∧
  cs_seen st' = cs_seen st ∧ cs_component st' = cs_component st.
Proof.
  intros [Hci Hcn]. unfold addName. case_bool_decide as Hne; cbn [negb andb]; [by split_and!|].
  case_bool_decide as Hin; [|split_and!; try done; intros _; by destruct (decide (name ∈ cs_names st))].
  set (st' := MkComponent _ _ _ _ _). cbn zeta.
  assert (∀ x, scheduled st x → scheduled st' x) as Hs
    by (intros x [?|?]; [left; apply elem_of_app; by left|by right]).
  split_and!; [|split_and!; [done|set_solver|done]|set_solver|done|done]. split.
  - intros x Hx Hid. auto.
  - intros x n Hx [->%elem_of_singleton|Hn]%elem_of_union Hm; [|eauto]. left. apply elem_of_app. right.
    rewrite (indexes_byName _ _ Hix). apply list_elem_of_fmap_2, list_elem_of_filter. done.
Qed.

Definition component_inv (st : component_state) : Prop :=
  covers st ∧ (∀ e, e ∈ cs_component st ↔ e ∈ E ∧ ev_ID e ∈ cs_seen st) ∧
  NoDup (ev_ID <$> cs_component st) ∧ (∀ e, e ∈ cs_component st → expanded st e).

(** Reading a new event keeps the invariant once the event is expanded. *)
Lemma component_inv_snoc st st' e :
  component_inv st → advances st st' → covers st' → e ∈ E → ev_ID e ∉ cs_seen st →
  cs_seen st' = {[ev_ID e]} ∪ cs_seen st → cs_component st' = cs_component st ++ [e] →
  expanded st' e → component_inv st'.
Proof.
  intros (_ & Hmem & Hnd & Hexp) Ha Hc He Hnew Hs Hcomp Hx. unfold component_inv. rewrite Hs, Hcomp.
  split_and!; [done|..].
  - intros x. rewrite elem_of_app, list_elem_of_singleton, Hmem, elem_of_union, elem_of_singleton.
    split; [naive_solver|]. intros [HxE [Hid|?]]; [|by left]. right.
    assert (ci_byID ix !! ev_ID e = Some x) by (by apply (indexes_byID _ _ Hix)).
    assert (ci_byID ix !! ev_ID e = Some e) by (by apply (indexes_byID _ _ Hix)). congruence.
  - rewrite fmap_app. apply NoDup_app. split_and!; [done| |apply NoDup_singleton].
    intros i (x & -> & [_ Hxs]%Hmem)%list_elem_of_fmap. cbn. rewrite list_elem_of_singleton. congruence.
  - intros x [Hin| ->%list_elem_of_singleton]%elem_of_app; [|done]. by eapply expanded_advances, Hexp.
Qed.

(** The state with [id] popped and read. *)
Lemma component_visit_spec id queue st :
  cs_queue st = id :: queue → component_inv st →
  let st' := component_visit ix id
    (MkComponent (cs_identities st) (cs_names st) (cs_seen st) queue (cs_component st)) in
  component_inv st' ∧ advances st st'.
Proof.
  intros Hq (Hcov & Hmem & Hnd & Hexp). unfold component_visit. cbn [cs_identities cs_names cs_seen cs_queue cs_component].
  assert (∀ c, let st1 := MkComponent (cs_identities st) (cs_names st) ({[id]} ∪ cs_seen st) queue c in
    advances st st1 ∧ covers st1) as Hread.
  { intros c st1. assert (∀ x, scheduled st x → scheduled st1 x) as Hs.
    { intros x [Hx|Hx]; unfold scheduled; cbn; [|set_solver]. rewrite Hq in Hx. set_solver. }
    split; [by split_and!|]. destruct Hcov as [H1 H2]. split; [intros x Hx Hi|intros x n Hx Hn Hm]; apply Hs; eauto. }
  case_decide as Hseen.
  { destruct (Hread (cs_component st)) as [Ha Hc]. cbn zeta.
    replace ({[id]} ∪ cs_seen st) with (cs_seen st) in * by set_solver. split; [|done].
    split_and!; [done|done|done|]. intros e He. by eapply expanded_advances, Hexp. }
  destruct (ci_byID ix !! id) as [e|] eqn:He.
  2:{ destruct (Hread (cs_component st)) as [Ha Hc]. split; [|done]. split_and!; [done| |done|].
      - intros x. cbn. rewrite Hmem, elem_of_union, elem_of_singleton. split; [tauto|].
        intros [Hx [Hid|?]]; [|done]. assert (ci_byID ix !! id = Some x) by (by apply (indexes_byID _ _ Hix)). congruence.
      - intros x Hx. by eapply expanded_advances, Hexp. }
  apply (indexes_byID _ _ Hix) in He as [HeE <-].
  destruct (Hread (cs_component st ++ [e])) as [Ha1 Hc1]. set (st1 := MkComponent _ _ _ _ (_ ++ [e])) in *.
  destruct (addIdentity_spec (ev_BranchID e) st1 Hc1) as (Hc2 & Ha2 & Hi2 & Hs2 & Hm2).
  set (st2 := addIdentity ix (ev_BranchID e) st1) in *.
  destruct (addName_spec (ev_Branch e) st2 Hc2) as (Hc3 & Ha3 & Hi3 & Hs3 & Hm3).
  set (st3 := addName ix (ev_Branch e) st2) in *.
  destruct (addName_spec (ev_PreviousBranch e) st3 Hc3) as (Hc4 & Ha4 & Hi4 & Hs4 & Hm4).
  set (st4 := addName ix (ev_PreviousBranch e) st3) in *.
  set (st5 := MkComponent _ _ _ (_ ++ filter _ _) _).
  assert (advances st4 st5) as Ha5
    by (split_and!; [done|done|]; unfold scheduled; cbn; intros x; rewrite elem_of_app; tauto).
  assert (covers st5) as Hc5.
  { destruct Ha5 as (_ & _ & Hsch), Hc4 as [H1 H2]. split; [intros x Hx Hi|intros x n Hx Hn Hm]; apply Hsch; eauto. }
  assert (advances st st5) as Ha by (etrans; [exact Ha1|]; etrans; [exact Ha2|]; etrans; [exact Ha3|]; by etrans).
  assert (cs_seen st5 = {[ev_ID e]} ∪ cs_seen st) as Hseen5 by (cbn; by rewrite Hs4, Hs3, Hs2).
  assert (cs_component st5 = cs_component st ++ [e]) as Hcomp5 by (cbn; by rewrite Hm4, Hm3, Hm2).
  split; [|done]. apply (component_inv_snoc st st5 e); try done.
  split_and!.
  - intros Hne. apply Ha5, Ha4, Ha3. by apply Hi2.
  - intros Hne. apply Ha5, Ha4. by apply Hi3.
  - intros Hne. apply Ha5. by apply Hi4.
  - intros d Hd. left. apply elem_of_app. right. apply list_elem_of_filter. split; [|done].
    by apply HistoryDependencies_elem in Hd as [? _].
Qed.

Lemma component_loop_spec fuel st component :
  component_inv st → component_loop ix fuel st = Ok component →
  ∃ st', component_inv st' ∧ advances st st' ∧ cs_queue st' = [] ∧ cs_component st' = component.
Proof.
  revert st. induction fuel as [|fuel IH]; intros st Hinv; cbn [component_loop];
    destruct (cs_queue st) as [|id queue] eqn:Hq; try done;
    try (intros [= <-]; exists st; by split_and!).
  intros Hrun. destruct (component_visit_spec id queue st Hq Hinv) as [Hinv' Ha].
  destruct (IH _ Hinv' Hrun) as (st' & ? & ? & ? & ?). exists st'. split_and!; [done|by etrans|done|done].
Qed.

Definition requested (st : component_state) (b : PublicationBranch) : Prop :=
  (pb_BranchID b ≠ "" → pb_BranchID b ∈ cs_identities st) ∧
  (pb_Branch b ≠ "" → pb_Branch b ∈ cs_names st).

Lemma add_selected_spec selected st :
  component_inv st → cs_component st = [] →
  let st' := fold_left (add_selected ix) selected st in
  component_inv st' ∧ advances st st' ∧ ∀ b, b ∈ selected → requested st' b.
Proof.
  revert st. induction selected as [|b selected IH]; intros st Hinv Hnil; cbn [fold_left].
  { split_and!; [done|done|set_solver]. }
  assert (component_inv (add_selected ix st b) ∧ advances st (add_selected ix st b) ∧
    requested (add_selected ix st b) b ∧ cs_component (add_selected ix st b) = []) as (Hi & Ha & Hr & Hn).
  { destruct Hinv as (Hc & Hmem & Hnd & Hexp). unfold add_selected.
    destruct (addIdentity_spec (pb_BranchID b) st Hc) as (Hc1 & Ha1 & Hi1 & Hs1 & Hm1).
    destruct (addName_spec (pb_Branch b) _ Hc1) as (Hc2 & Ha2 & Hi2 & Hs2 & Hm2).
    split_and!; [|by etrans|split; [intros Hne; apply Ha2; by apply Hi1|done]|by rewrite Hm2, Hm1].
    unfold component_inv. rewrite Hm2, Hm1, Hs2, Hs1, Hnil in *. split_and!; [done|done|done|set_solver]. }
  destruct (IH _ Hi Hn) as (Hi' & Ha' & Hr'). split_and!; [done|by etrans|].
  intros x [-> | Hx]%elem_of_cons; [|auto]. destruct Ha' as (H1 & H2 & _), Hr as [R1 R2]. split; auto.
Qed.
End closure.

(** Relations that keep two binding events in one component. *)
Definition related (e x : HistoryEvent) : Prop :=
  (ev_BranchID x = ev_BranchID e ∧ ev_BranchID e ≠ "") ∨
  (∃ n, n ≠ "" ∧ mentions e n ∧ mentions x n) ∨
  ev_ID x ∈ HistoryDependencies e.

Definition concerns (b : PublicationBranch) (x : HistoryEvent) : Prop :=
  (pb_BranchID b ≠ "" ∧ ev_BranchID x = pb_BranchID b) ∨ (pb_Branch b ≠ "" ∧ mentions x (pb_Branch b)).

(** The component is closed and contains what concerns the selection. *)
Lemma publication_component_spec events selected component :
  publication_component events selected = Ok component →
  ∃ E, NoDup (ev_ID <$> E) ∧ (∀ e, e ∈ E → e ∈ bindings events) ∧
    (∀ e, e ∈ bindings events → ∃ x, x ∈ E ∧ ev_ID x = ev_ID e) ∧
    NoDup (ev_ID <$> component) ∧ (∀ e, e ∈ component → e ∈ E) ∧
    (∀ e x, e ∈ component → x ∈ E → related e x → x ∈ component) ∧
    (∀ b x, b ∈ selected → x ∈ E → concerns b x → x ∈ component).
Proof.
  unfold publication_component. destruct (index_bindings_spec events) as (E & Hix & _ & Hsub & Hall).
  set (ix := fold_left index_binding events _) in *. intros Hrun.
  assert (component_inv E (MkComponent ∅ ∅ ∅ [] [])) as H0.
  { split_and!; cbn; [split; set_solver|set_solver|constructor|set_solver]. }
  destruct (add_selected_spec E ix Hix selected _ H0 eq_refl) as (H1 & _ & Hreq).
  destruct (component_loop_spec E ix Hix _ _ _ H1 Hrun) as (st & ([Hci Hcn] & Hmem & Hnd & Hexp) & (Ha & Hb & _) & Hq & <-).
  assert (∀ x, x ∈ E → scheduled st (ev_ID x) → x ∈ cs_component st) as Hin.
  { intros x Hx [Hs|Hs]; [rewrite Hq in Hs; set_solver|]. by apply Hmem. }
  exists E. split_and!; [apply (indexes_NoDup _ _ Hix)|done|done|done|by intros e [? _]%Hmem|..].
  - intros e x He Hx Hrel. apply Hin; [done|]. destruct (Hexp e He) as (X1 & X2 & X3 & X4).
    destruct Hrel as [[Hid Hne]|[(n & Hn & Hme & Hmx)|Hd]]; [apply Hci; [done|]; rewrite Hid; auto| |auto].
    eapply Hcn; [done| |done]. destruct Hme as [<-|[<- ?]]; auto.
  - intros b x Hsel Hx [[Hne Hid]|[Hne Hm]]; apply Hin; try done; destruct (Hreq b Hsel) as [R1 R2].
    + apply Hci; [done|]. rewrite Hid. auto.
    + eapply Hcn; [done| |done]. auto.
Qed.

(** ** Properties *)

(** The worklist that collects a selection's lifecycle component always ends; its
    result contains only binding events, each once, is closed under shared identities,
    shared current or former names and dependencies, and contains every binding event of
    a selected identity or name. *)
Theorem publication_component_closed (events : list HistoryEvent) (selected : list PublicationBranch) :
  (∀ e1 e2, e1 ∈ bindings events → e2 ∈ bindings events → ev_ID e1 = ev_ID e2 → e1 = e2) →
  ∃ component, publication_component events selected = Ok component ∧
    NoDup (ev_ID <$> component) ∧ (∀ e, e ∈ component → e ∈ bindings events) ∧
    (∀ e x, e ∈ component → x ∈ bindings events → related e x → x ∈ component) ∧
    (∀ b x, b ∈ selected → x ∈ bindings events → concerns b x → x ∈ component).
Proof.
  intros Hcons. destruct (publication_component_total events selected) as [component Hrun].
  destruct (publication_component_spec _ _ _ Hrun) as (E & HE & Hsub & Hall & Hnd & HCE & Hrel & Hsel).
  assert (∀ x, x ∈ bindings events → x ∈ E) as Hin.
  { intros x Hx. destruct (Hall x Hx) as (y & Hy & Hid). by rewrite <-(Hcons y x (Hsub y Hy) Hx Hid). }
  exists component. split_and!; [done|done|by auto|by eauto|by eauto].
Qed.

(** Projecting only the component of a selection is faithful: whenever the whole local
    history projects, the restricted projection succeeds too and gives every selected
    name the same active branch and release token, and every selected identity the same
    branch record. *)
Theorem publication_projection_faithful (events : list HistoryEvent) (selected : list PublicationBranch)
    (p : ContextBranchProjection) :
  ProjectContextBranches events = Ok p → (∀ e, e ∈ events → ValidateHistoryEvent e = Ok tt) →
  ∃ p', projectPublicationBranches events selected = Ok p' ∧
    ∀ b, b ∈ selected →
      (pb_Branch b ≠ "" → Active p' !! pb_Branch b = Active p !! pb_Branch b ∧
                          Released p' !! pb_Branch b = Released p !! pb_Branch b) ∧
      (pb_BranchID b ≠ "" → ByID p' !! pb_BranchID b = ByID p !! pb_BranchID b).
Proof.
  intros (ordered & Hord & Hfold)%project_Ok Hvalid.
  destruct (order_history_Ok _ _ Hord) as (Hids & Hsame & _).
  assert (∀ e1 e2, e1 ∈ bindings events → e2 ∈ bindings events → ev_ID e1 = ev_ID e2 → e1 = e2) as Hcons.
  { destruct (order_history_cases (bindings events)) as [(o & _ & _ & Hc & _)|[? _]]; [exact Hc|congruence]. }
  destruct (publication_component_total events selected) as [component Hrun].
  destruct (publication_component_spec _ _ _ Hrun) as (E & _ & Hsub & Hall & _ & HCE & Hrel & Hsel).
  assert (∀ x, x ∈ bindings events ↔ x ∈ E) as HE.
  { intros x. split; [|auto]. intros Hx. destruct (Hall x Hx) as (y & Hy & Hid).
    by rewrite <-(Hcons y x (Hsub y Hy) Hx Hid). }
  set (I i := ∀ x, x ∈ E → ev_BranchID x = i → x ∈ component).
  set (N n := n ≠ "" ∧ ∀ x, x ∈ E → mentions x n → x ∈ component).
  assert (∀ e, e ∈ ordered → e ∈ E ∧ IsBranchBindingEvent e = true ∧ ev_BranchID e ≠ "" ∧
    mentions e (ev_Branch e) ∧ ev_Branch e ≠ "" ∧ mentions e (old_name e) ∧ old_name e ≠ "") as Hfacts.
  { intros e He%Hsame. apply list_elem_of_filter in He as Hev. destruct Hev as [Hb Hev].
    pose proof (Hvalid e Hev) as Hv. destruct (ValidateHistoryEvent_names _ Hv Hb) as [Hbr Hpr].
    split_and!; [by apply HE|done|by apply ValidateHistoryEvent_branch|by left|done|..];
      unfold old_name; case_bool_decide; auto; [right; auto|by left]. }
  destruct (project_agree I N ordered (λ e, e ∈ component) p) as (p' & Hp' & Hi & Hn); [| | |done|].
  - apply Forall_forall. intros e He. by apply Hfacts.
  - intros e He HC. destruct (Hfacts e He) as (HeE & _ & Hid & Hm1 & Hn1 & Hm2 & Hn2). split_and!.
    + intros x Hx Hxid. apply (Hrel e x HC Hx). left. by rewrite Hxid.
    + split; [done|]. intros x Hx Hm. apply (Hrel e x HC Hx). right; left. eauto.
    + split; [done|]. intros x Hx Hm. apply (Hrel e x HC Hx). right; left. eauto.
  - intros e He HC. destruct (Hfacts e He) as (HeE & _ & _ & Hm1 & _ & Hm2 & _).
    split_and!; [intros HI; by apply HC, HI|intros [_ HN]; by eapply HC, HN..].
  - assert (ProjectContextBranches component = Ok p') as Hproj.
    { apply project_Ok. exists (filter (λ e, e ∈ component) ordered). split; [|done].
      rewrite (order_history_same _ component).
      - apply (order_history_restrict (bindings events)); [done|by intros e ?%HCE%HE|].
        intros e x He Hx%HE Hd. apply (Hrel e x He Hx). by right; right.
      - intros e. unfold bindings. rewrite list_elem_of_filter. split; [tauto|]. intros He. split; [|done].
        apply HCE, HE, list_elem_of_filter in He as [? _]. done. }
    exists p'. unfold projectPublicationBranches. rewrite Hrun. split; [done|]. intros b Hb. split.
    + intros Hne. destruct (Hn (pb_Branch b)); [|done]. split; [done|]. intros x Hx Hm.
      apply (Hsel b x Hb Hx). by right.
    + intros Hne. symmetry. apply Hi. intros x Hx Hxid. apply (Hsel b x Hb Hx). by left.
Qed.

(** ** History-only scopes *)

Definition scope_inv (repo : string) (p : ContextBranchProjection) (pre : list HistoryEvent)
    (branches : gmap string PublicationBranch) : Prop :=
  (∀ id b, branches !! id = Some b → pb_BranchID b = id ∧
     ∃ e, e ∈ pre ∧ ev_BranchID e = id ∧ canonical_name repo p e = Ok (Some (pb_Branch b))) ∧
  (∀ e name, e ∈ pre → canonical_name repo p e = Ok (Some name) →
     branches !! ev_BranchID e = Some (MkPublicationBranch name (ev_BranchID e))) ∧
  (∀ e, e ∈ pre → is_ok (canonical_name repo p e) = true).

Lemma history_branch_step repo p pre e branches branches' :
  scope_inv repo p pre branches → history_branch repo p branches e = Ok branches' →
  scope_inv repo p (pre ++ [e]) branches'.
Proof.
  intros (H1 & H2 & H3). unfold history_branch. intros H. apply bind_Ok in H as ([name|] & Hn & H).
  - apply bind_Ok in H as ([] & _ & H). inv_ok. subst branches'.
    assert (∀ old, branches !! ev_BranchID e = Some old → old = MkPublicationBranch name (ev_BranchID e)) as Hold.
    { intros old Ho. rewrite Ho in H0. by bools. }
    split_and!.
    + intros id b. rewrite lookup_insert. case_decide as Hid.
      * intros [= <-]. split; [done|]. exists e. set_solver.
      * intros Hb. destruct (H1 id b Hb) as (? & x & ? & ?). split; [done|]. exists x. set_solver.
    + intros x m [Hx| ->%list_elem_of_singleton]%elem_of_app Hm; rewrite lookup_insert.
      * case_decide as Hid; [|auto]. specialize (H2 x m Hx Hm). rewrite <-Hid in H2 |- *.
        by rewrite (Hold _ H2).
      * rewrite decide_True by done. rewrite Hn in Hm. by injection Hm as ->.
    + intros x [Hx| ->%list_elem_of_singleton]%elem_of_app; [auto|by rewrite Hn].
  - injection H as <-. split_and!.
    + intros id b Hb. destruct (H1 id b Hb) as (? & x & ? & ?). split; [done|]. exists x. set_solver.
    + intros x m [Hx| ->%list_elem_of_singleton]%elem_of_app Hm; [auto|congruence].
    + intros x [Hx| ->%list_elem_of_singleton]%elem_of_app; [auto|by rewrite Hn].
Qed.

(** The identities of a history-only drain are the local ones: the result lists each
    branch identity at most once, in increasing order, under the one canonical name all
    its events agree on; every local event that is not a mere observation or server
    receipt has its identity listed; and nothing else is. *)
Theorem publication_history_scope (repo : string) (events : list HistoryEvent)
    (out : list PublicationBranch) :
  PublicationHistoryBranches repo events = Ok out →
  ∃ p, ProjectContextBranches events = Ok p ∧
    NoDup (pb_BranchID <$> out) ∧ Sorted (not_after branch_less) out ∧
    (∀ b, b ∈ out ↔ ∃ e, e ∈ events ∧ ev_BranchID e = pb_BranchID b ∧
                       canonical_name repo p e = Ok (Some (pb_Branch b))) ∧
    (∀ e, e ∈ events → ev_Kind e ≠ "position" → ev_Kind e ≠ "attach" → ev_Kind e ≠ "pr-merge" →
       ev_BranchID e ∈ pb_BranchID <$> out).
Proof.
  unfold PublicationHistoryBranches. intros H. inv_ok. rename a0 into catalog, a1 into p, a2 into branches. subst out.
  pose proof (indexPublicationHistory_spec _ _ _ _ H1) as Hc.
  assert (scope_inv repo p (pc_all catalog) branches) as (S1 & S2 & S3).
  { revert H3. apply (fold_each_invariant _ (scope_inv repo p)).
    - split_and!; [intros id b; by rewrite lookup_empty|set_solver|set_solver].
    - intros pre x s1 s2 Hs _. by apply history_branch_step. }
  assert (∀ e, e ∈ pc_all catalog ↔ e ∈ events) as Hall by (intros e; by rewrite (catalog_all _ _ _ _ Hc)).
  exists p. split.
  { rewrite <-H2. unfold ProjectContextBranches. cbn zeta. f_equal. apply order_history_same.
    intros e. rewrite !list_elem_of_filter, Hall. done. }
  assert (∀ b, b ∈ (map_to_list branches).*2 ↔ branches !! pb_BranchID b = Some b) as Hmem.
  { intros b. rewrite list_elem_of_fmap. split.
    - intros ([id x] & -> & Hx%elem_of_map_to_list). cbn. by destruct (S1 id x Hx) as [-> _].
    - intros Hb. exists (pb_BranchID b, b). split; [done|]. by apply elem_of_map_to_list. }
  split_and!.
  - rewrite sort_slice_Permutation. rewrite <-list_fmap_compose.
    assert (NoDup (map_to_list branches).*1) as Hnd by apply NoDup_fst_map_to_list.
    erewrite list_fmap_ext; [exact Hnd|]. intros i [id x] Hi. cbn.
    apply list_elem_of_lookup_2, elem_of_map_to_list in Hi. by destruct (S1 id x Hi).
  - apply sort_slice_Sorted. intros x y. apply str_lt_asym.
  - intros b. rewrite elem_of_sort_slice, Hmem. split.
    + intros Hb. destruct (S1 _ _ Hb) as (_ & e & He%Hall & ? & ?). eauto.
    + intros (e & He%Hall & Hid & Hn). rewrite <-Hid, (S2 e _ He Hn), Hid. by destruct b.
  - intros e He%Hall Hk1 Hk2 Hk3. specialize (S3 e He).
    assert (∃ name, canonical_name repo p e = Ok (Some name)) as [name Hn].
    { unfold canonical_name in *.
      rewrite (bool_decide_false (ev_Kind e = "position")), (bool_decide_false (ev_Kind e = "attach")),
        (bool_decide_false (ev_Kind e = "pr-merge")) in S3 |- * by done. cbn [orb] in S3 |- *.
      destruct (ByID p !! ev_BranchID e); [eauto|]. destruct (_ && _); [eauto|done]. }
    apply list_elem_of_fmap. exists (MkPublicationBranch name (ev_BranchID e)). split; [done|].
    rewrite elem_of_sort_slice, Hmem. cbn. auto.
Qed.

(** ** Witnesses *)

Module BranchesSamples.
Import HistorySamples.
Definition unrelated := event id5 "b-9" "topic" "birth" "" 2.
Definition events := unrelated :: HistoryOrderSamples.ordered.
Definition selected := [MkPublicationBranch "main" "b-2"].
Lemma valid e : e ∈ events → ValidateHistoryEvent e = Ok tt.
Proof.
  unfold events, HistoryOrderSamples.ordered. rewrite !elem_of_cons.
  intros H. repeat destruct H as [-> | H]; try compute_decision. by apply elem_of_nil in H.
Qed.
Lemma binding_ids e1 e2 : e1 ∈ bindings events → e2 ∈ bindings events → ev_ID e1 = ev_ID e2 → e1 = e2.
Proof.
  intros [_ H1]%list_elem_of_filter [_ H2]%list_elem_of_filter. revert H1 H2.
  unfold events, HistoryOrderSamples.ordered. rewrite !elem_of_cons. intros H1 H2.
  repeat destruct H1 as [-> | H1]; [..|by apply elem_of_nil in H1];
    (repeat destruct H2 as [-> | H2]; [..|by apply elem_of_nil in H2]); done.
Qed.
Lemma projects_ok : is_ok (ProjectContextBranches events) = true.
Proof. vm_compute. reflexivity. Qed.
End BranchesSamples.

Lemma publication_component_closed_witness :
  ∃ component, publication_component BranchesSamples.events BranchesSamples.selected = Ok component ∧
    HistorySamples.birth ∈ component ∧ BranchesSamples.unrelated ∉ component.
Proof.
  destruct (publication_component_closed _ BranchesSamples.selected BranchesSamples.binding_ids)
    as (component & Hrun & _ & _ & _ & Hsel).
  exists component. split; [exact Hrun|]. split.
  - apply (Hsel (MkPublicationBranch "main" "b-2")); [left|compute_decision|right; split; [done|by left]].
  - assert (publication_component BranchesSamples.events BranchesSamples.selected =
      Ok [HistorySamples.rebirth; HistorySamples.birth; HistorySamples.rename; HistorySamples.archive]) as H
      by compute_decision.
    rewrite H in Hrun. injection Hrun as <-. compute_decision.
Defined.

Lemma publication_projection_faithful_witness :
  ∃ p', projectPublicationBranches BranchesSamples.events BranchesSamples.selected = Ok p' ∧
    cb_ID <$> Active p' !! "main" = Some "b-2".
Proof.
  destruct (ProjectContextBranches BranchesSamples.events) as [p|e] eqn:E.
  2:{ pose proof BranchesSamples.projects_ok as H. rewrite E in H. discriminate H. }
  destruct (publication_projection_faithful _ BranchesSamples.selected _ E BranchesSamples.valid) as (p' & Hp' & Hb).
  exists p'. split; [exact Hp'|].
  destruct (Hb (MkPublicationBranch "main" "b-2")) as [Hn _]; [left|]. destruct (Hn ltac:(done)) as [Ha _].
  cbn in Ha. rewrite Ha.
  assert (cb_ID <$> (match ProjectContextBranches BranchesSamples.events with
    | Ok p => Active p | Err _ => ∅ end) !! "main" = Some "b-2") as H by compute_decision.
  rewrite E in H. exact H.
Defined.

Lemma publication_history_scope_witness :
  ∃ out, PublicationHistoryBranches HistorySamples.repo BranchesSamples.events = Ok out ∧
    NoDup (pb_BranchID <$> out) ∧ length out = 3.
Proof.
  exists [MkPublicationBranch "trunk" "b-1"; MkPublicationBranch "main" "b-2"; MkPublicationBranch "topic" "b-9"].
  assert (PublicationHistoryBranches HistorySamples.repo BranchesSamples.events =
    Ok [MkPublicationBranch "trunk" "b-1"; MkPublicationBranch "main" "b-2"; MkPublicationBranch "topic" "b-9"]) as H
    by compute_decision.
  split; [exact H|]. destruct (publication_history_scope _ _ _ H) as (p & _ & Hnd & _).
  split; [exact Hnd|reflexivity].
Defined.
