(* ===== verification/PublicationOrder.v ===== *)
(** * Ordering a publication payload

    Models [orderPublicationDependencies] of [cli/internal/domain/publication_plan.go]:
    events are sent in their given order except that every event follows the events
    it depends on, and no completion may overtake an ordinary event. *)
From S2P Require Import Prelude GoStrings Sha256 Values History TopoSort Graph.

Record degree_state := MkDegrees {
  ds_degree : gmap nat Z;
  ds_children : gmap nat (list nat);
  ds_queue : list nat;
}.

Definition count_edge (index : gmap string nat) (i : nat) (st : degree_state) (parent : string)
    : degree_state :=
  match index !! parent with
  | None => st
  | Some j =>
      MkDegrees (<[i := (default 0 (ds_degree st !! i) + 1)%Z]> (ds_degree st))
        (<[j := default [] (ds_children st !! j) ++ [i]]> (ds_children st)) (ds_queue st)
  end.

Definition count_event (index : gmap string nat) (edges : gmap string (gset string))
    (st : degree_state) (entry : nat * HistoryEvent) : degree_state :=
  let '(i, e) := entry in
  let st := fold_left (count_edge index i) (elements (default ∅ (edges !! ev_ID e))) st in
  MkDegrees (ds_degree st) (ds_children st)
    (if (default 0 (ds_degree st !! i) =? 0)%Z then heap_push (ds_queue st) i else ds_queue st).

(** [i >= ordinary && len(out) < ordinary] *)
Definition completion_guard (ordinary : nat) (out : list nat) (i : nat) : result unit :=
  reject_if ((ordinary <=? i)%nat && (length out <? ordinary)%nat) ErrSyncConflict.

Definition orderPublicationDependencies (events : list HistoryEvent) (edges : gmap string (gset string))
    (ordinary : nat) : result (list HistoryEvent) :=
  let index := fold_left (λ m entry, <[ev_ID entry.2 := entry.1]> m) (indexed events)
                 (∅ : gmap string nat) in
  let st := fold_left (count_event index edges) (indexed events) (MkDegrees ∅ ∅ []) in
  out ← kahn_guarded id Nat.ltb (λ i, default [] (ds_children st !! i)) (completion_guard ordinary)
          (length events) (ds_degree st) (ds_queue st) [];
  reject_if (length out <>? length events) ErrSyncConflict ;;
  Ok (omap (λ i, events !! i) out).

(** ** Indices *)

Section order.
Context (events : list HistoryEvent) (edges : gmap string (gset string)).
Hypothesis ids_NoDup : NoDup (ev_ID <$> events).

Definition event_index : gmap string nat :=
  fold_left (λ m entry, <[ev_ID entry.2 := entry.1]> m) (indexed events) (∅ : gmap string nat).

Lemma event_index_spec p j :
  event_index !! p = Some j ↔ ∃ e, events !! j = Some e ∧ ev_ID e = p.
Proof.
  assert (∀ (l : list (nat * HistoryEvent)) (m : gmap string nat), NoDup ((λ x, ev_ID x.2) <$> l) →
    (∀ x, x ∈ l → m !! ev_ID x.2 = None) →
    fold_left (λ m entry, <[ev_ID entry.2 := entry.1]> m) l m !! p = Some j ↔
    m !! p = Some j ∨ ∃ e, (j, e) ∈ l ∧ ev_ID e = p) as H.
  { induction l as [|[k x] l IH]; intros m Hnd Hm; cbn [fold_left fst snd]; [set_solver|].
    rewrite fmap_cons, NoDup_cons in Hnd. destruct Hnd as [Hk Hnd]. cbn in Hk.
    rewrite IH; [|done|].
    - rewrite lookup_insert. setoid_rewrite elem_of_cons. case_decide as Hp.
      + subst p. pose proof (Hm (k, x) ltac:(left)) as Hkx. cbn in Hkx. rewrite Hkx. split; [naive_solver|].
        intros [?|(e & [[= -> ->]|He] & Hid)]; [done|by left|right; eauto].
      + naive_solver.
    - intros y Hy. rewrite lookup_insert_ne; [apply Hm; by right|]. intros Heq. apply Hk.
      rewrite Heq. apply list_elem_of_fmap. by exists y. }
  unfold event_index. rewrite H; [|by rewrite indexed_snd|intros; apply lookup_empty].
  rewrite lookup_empty. setoid_rewrite indexed_elem. naive_solver.
Qed.

Lemma events_id_inj i j a b :
  events !! i = Some a → events !! j = Some b → ev_ID a = ev_ID b → i = j.
Proof.
  intros Hi Hj Hid. assert (event_index !! ev_ID a = Some i) by (apply event_index_spec; eauto).
  assert (event_index !! ev_ID a = Some j) by (rewrite Hid; apply event_index_spec; eauto). congruence.
Qed.

(** The positions an event waits for. *)
Definition parents_of (e : HistoryEvent) : list nat :=
  omap (λ p, event_index !! p) (elements (default ∅ (edges !! ev_ID e))).

Lemma parents_of_elem e j :
  j ∈ parents_of e ↔ ∃ x, events !! j = Some x ∧ ev_ID x ∈ default ∅ (edges !! ev_ID e).
Proof.
  unfold parents_of. rewrite list_elem_of_omap. setoid_rewrite elem_of_elements.
  setoid_rewrite event_index_spec. naive_solver.
Qed.

Lemma parents_of_NoDup e : NoDup (parents_of e).
Proof.
  unfold parents_of. rewrite <-(list_fmap_id (omap _ _)). apply NoDup_omap; [|apply NoDup_elements].
  intros p q i j Hi Hj Hij. unfold id in Hij. subst j.
  apply event_index_spec in Hi as (x & Hx & <-), Hj as (y & Hy & <-). congruence.
Qed.

(** ** Degrees *)

Lemma count_edges_spec i ps st :
  let st' := fold_left (count_edge event_index i) ps st in
  ds_queue st' = ds_queue st ∧
  (∀ k, default 0%Z (ds_degree st' !! k) = (default 0 (ds_degree st !! k) +
     if decide (k = i) then Z.of_nat (length (omap (λ p, event_index !! p) ps)) else 0)%Z) ∧
  (∀ j, default [] (ds_children st' !! j) = default [] (ds_children st !! j) ++
     replicate (occ j (omap (λ p, event_index !! p) ps)) i).
Proof.
  revert st. induction ps as [|p ps IH]; intros st; cbn [fold_left omap list_omap].
  { split_and!; [done|..]; intros k; [case_decide; cbn; lia|]. by rewrite app_nil_r. }
  destruct (IH (count_edge event_index i st p)) as (Hq & Hd & Hc). unfold count_edge in *.
  destruct (event_index !! p) as [j|]; [|done]. cbn [ds_queue ds_degree ds_children] in *.
  split_and!; [done|..].
  - intros k. rewrite Hd, lookup_insert. cbn [length]. repeat case_decide; subst; try done; cbn; lia.
  - intros k. rewrite Hc, lookup_insert, occ_cons. destruct (decide (j = k)) as [->|Hne].
    + cbn. by rewrite <-(assoc_L (++)).
    + done.
Qed.

Definition degrees (pre : list (nat * HistoryEvent)) (st : degree_state) : Prop :=
  (∀ i e, (i, e) ∈ pre → default 0%Z (ds_degree st !! i) = Z.of_nat (length (parents_of e))) ∧
  (∀ i, i ∉ pre.*1 → default 0%Z (ds_degree st !! i) = 0%Z) ∧
  (∀ j, default [] (ds_children st !! j) = (filter (λ x, j ∈ parents_of x.2) pre).*1) ∧
  ds_queue st = (filter (λ x, parents_of x.2 = []) pre).*1.

Lemma degrees_step pre i e st :
  degrees pre st → i ∉ pre.*1 → degrees (pre ++ [(i, e)]) (count_event event_index edges st (i, e)).
Proof.
  intros (Hin & Hout & Hch & Hq) Hi. unfold count_event.
  destruct (count_edges_spec i (elements (default ∅ (edges !! ev_ID e))) st) as (Hq' & Hd' & Hc').
  fold (parents_of e) in Hd', Hc'. cbn zeta.
  set (st' := fold_left _ _ st) in *. unfold degrees. cbn [ds_queue ds_degree ds_children]. split_and!.
  - intros k x [Hp|[= -> ->]%list_elem_of_singleton]%elem_of_app.
    + rewrite Hd', (Hin _ _ Hp), decide_False; [lia|]. intros ->. apply Hi, list_elem_of_fmap. by exists (i, x).
    + by rewrite Hd', (Hout _ Hi), decide_True by done.
  - intros k. rewrite fmap_app. intros Hk. rewrite Hd', Hout, decide_False by set_solver. done.
  - intros j. rewrite Hc', Hch, filter_app, fmap_app, occ_NoDup by apply parents_of_NoDup. f_equal.
    rewrite filter_cons, filter_nil. cbn. by case_decide.
  - rewrite Hq', Hq, filter_app, fmap_app, Hd', (Hout _ Hi), decide_True by done.
    rewrite filter_cons, filter_nil. cbn [snd]. destruct (parents_of e); [by rewrite decide_True|].
    rewrite decide_False by done. by rewrite app_nil_r.
Qed.

Lemma degrees_fold : degrees (indexed events)
  (fold_left (count_event event_index edges) (indexed events) (MkDegrees ∅ ∅ [])).
Proof.
  assert (∀ todo pre st, NoDup (pre ++ todo).*1 → degrees pre st →
    degrees (pre ++ todo) (fold_left (count_event event_index edges) todo st)) as H.
  { induction todo as [|[i e] todo IH]; intros pre st Hnd Hst; cbn [fold_left]; [by rewrite app_nil_r|].
    rewrite (assoc_L (++) pre [(i, e)] todo : pre ++ (i, e) :: todo = (pre ++ [(i, e)]) ++ todo) in Hnd |- *.
    apply IH; [done|]. apply degrees_step; [done|].
    rewrite !fmap_app, <-(assoc_L (++)) in Hnd. apply NoDup_app in Hnd as (_ & Hdis & _).
    intros Hin. apply (Hdis i Hin). cbn. left. }
  apply (H (indexed events) []).
  - apply indexed_fst_NoDup.
  - unfold degrees. cbn. setoid_rewrite lookup_empty. set_solver.
Qed.
(** ** The loop *)

Definition positions : list nat := seq 0 (length events).

Definition successors (j : nat) : list nat := (filter (λ x, j ∈ parents_of x.2) (indexed events)).*1.

Lemma successors_elem i j : i ∈ successors j ↔ ∃ e, events !! i = Some e ∧ j ∈ parents_of e.
Proof.
  unfold successors. rewrite list_elem_of_fmap. setoid_rewrite list_elem_of_filter. split.
  - intros ([k e] & -> & Hj & Hk). exists e. split; [by apply indexed_elem|done].
  - intros (e & He & Hj). exists (i, e). split_and!; [done|done|by apply indexed_elem].
Qed.

Lemma successors_NoDup j : NoDup (successors j).
Proof.
  unfold successors. eapply sublist_NoDup; [apply (indexed_fst_NoDup events)|].
  apply fmap_sublist, sublist_filter.
Qed.

Lemma positions_elem i : i ∈ positions ↔ is_Some (events !! i).
Proof. unfold positions. rewrite elem_of_seq, lookup_lt_is_Some. lia. Qed.

Lemma waiting_parents i e :
  events !! i = Some e → waiting successors positions [] i = length (parents_of e).
Proof.
  intros He. unfold waiting.
  assert (∀ l, sum_list_with (λ j, occ i (successors j)) (filter (λ j, j ∉ []) l) =
    length (filter (λ j, j ∈ parents_of e) l)) as ->.
  { induction l as [|j l IH]; [done|]. rewrite !filter_cons, decide_True by set_solver.
    cbn [sum_list_with]. rewrite IH, occ_NoDup by apply successors_NoDup.
    destruct (decide (j ∈ parents_of e)) as [Hj|Hj].
    - rewrite decide_True by (apply successors_elem; eauto). done.
    - rewrite decide_False by (rewrite successors_elem; naive_solver). done. }
  apply Permutation_length, NoDup_Permutation;
    [apply NoDup_filter, NoDup_seq|apply parents_of_NoDup|].
  intros j. rewrite list_elem_of_filter, positions_elem. split; [tauto|]. intros Hj. split; [done|].
  apply parents_of_elem in Hj as (x & Hx & _). eauto.
Qed.

Lemma degrees_kahn_inv st :
  degrees (indexed events) st →
  kahn_inv id Nat.ltb successors positions (ds_degree st) (ds_queue st) [].
Proof.
  intros (Hin & _ & _ & Hq). split; [constructor|split; [|split]].
  - rewrite Hq. eapply sublist_NoDup; [apply (indexed_fst_NoDup events)|apply fmap_sublist, sublist_filter].
  - intros i [e He]%positions_elem. rewrite (waiting_parents i e He). apply Hin. by apply indexed_elem.
  - intros i. rewrite Hq. unfold available.
    rewrite <-(waiting_zero successors positions [] i), list_elem_of_fmap. split.
    + intros ([k e] & -> & [Hp Hk]%list_elem_of_filter). apply indexed_elem in Hk. cbn in *.
      split; [apply positions_elem; eauto|split; [set_solver|]]. by rewrite (waiting_parents k e Hk), Hp.
    + intros ([e He]%positions_elem & _ & Hw). exists (i, e). split; [done|].
      apply list_elem_of_filter. split; [|by apply indexed_elem]. cbn.
      apply length_zero_iff_nil. by rewrite <-(waiting_parents i e He).
Qed.

Lemma order_kahn :
  let st := fold_left (count_event event_index edges) (indexed events) (MkDegrees ∅ ∅ []) in
  ∃ out, kahn id Nat.ltb (λ i, default [] (ds_children st !! i)) (length events)
      (ds_degree st) (ds_queue st) [] = Ok out ∧
    maximal_greedy Nat.ltb successors positions out.
Proof.
  intros st. pose proof degrees_fold as Hst. fold st in Hst.
  destruct (kahn_spec id Nat.ltb successors positions) with
    (fuel := length events) (count := ds_degree st) (ready := ds_queue st) (out := @nil nat)
    as (out & Hrun & Hg).
  - done.
  - apply NoDup_seq.
  - intros j i _ (e & He & _)%successors_elem. apply positions_elem. eauto.
  - apply Nat.ltb_irrefl.
  - intros a b c. rewrite !Nat.ltb_lt. lia.
  - intros a b _ _ Hne. rewrite !Nat.ltb_lt. lia.
  - by apply degrees_kahn_inv.
  - unfold positions. rewrite length_seq. cbn. lia.
  - exists out. split; [|done]. rewrite <-Hrun. apply kahn_ext. intros j.
    destruct Hst as (_ & _ & Hch & _). apply Hch.
Qed.
End order.

(** What a successful ordering guarantees. *)
Lemma orderPublicationDependencies_Ok events edges ordinary out :
  NoDup (ev_ID <$> events) → orderPublicationDependencies events edges ordinary = Ok out →
  out ≡ₚ events ∧
  (∀ l1 e l2, out = l1 ++ e :: l2 →
     (∀ p, p ∈ default ∅ (edges !! ev_ID e) → p ∈ ev_ID <$> events → p ∈ ev_ID <$> l1) ∧
     (length l1 < ordinary → e ∈ take ordinary events)%nat).
Proof.
  intros Hnd H. unfold orderPublicationDependencies in H. fold (event_index events) in H. inv_ok. bools.
  subst out. destruct (kahn_guarded_Ok _ _ _ _ _ _ _ _ _ H0) as (Hrun & rest & Heq & Hguard).
  destruct (order_kahn events edges Hnd) as (out & Hrun' & [Hg _]).
  cbn zeta in Hrun'. rewrite Hrun in Hrun'. injection Hrun' as <-. cbn in Heq. subst rest.
  assert (∀ i, i ∈ a → is_Some (events !! i)) as Hin.
  { intros i Hi. apply positions_elem. by apply (greedy_subset _ _ _ _ Hg). }
  assert (a ≡ₚ seq 0 (length events)) as Hperm.
  { apply NoDup_Permutation; [by apply (greedy_NoDup _ _ _ _ Hg)|apply NoDup_seq|]. intros i.
    split; [by apply (greedy_subset _ _ _ _ Hg)|]. apply NoDup_full;
      [by apply (greedy_NoDup _ _ _ _ Hg)|by apply (greedy_subset _ _ _ _ Hg)|by rewrite length_seq]. }
  split.
  { apply NoDup_Permutation; [|by eapply NoDup_fmap_1|].
    - apply (NoDup_fmap_1 ev_ID), NoDup_omap; [by apply (events_id_inj events)|].
      by apply (greedy_NoDup _ _ _ _ Hg).
    - intros e. rewrite list_elem_of_omap. setoid_rewrite Hperm. split.
      + intros (i & _ & Hi). by eapply list_elem_of_lookup_2.
      + intros [i Hi]%list_elem_of_lookup. exists i. split; [|done].
        apply elem_of_seq. apply lookup_lt_Some in Hi. lia. }
  intros l1 e l2 (k1 & i & k2 & Ha & <- & He)%omap_split. split.
  - intros p Hp (x & -> & [j Hj]%list_elem_of_lookup)%list_elem_of_fmap.
    apply list_elem_of_fmap_2, list_elem_of_omap. exists j. split; [|done].
    apply (greedy_topological _ _ _ _ Hg _ _ _ Ha); [apply positions_elem; eauto|].
    apply successors_elem. exists e. split; [done|]. apply parents_of_elem; eauto.
  - intros Hlen. apply list_elem_of_lookup. exists i. rewrite lookup_take_lt; [done|].
    specialize (Hguard k1 i k2 Ha). unfold completion_guard in Hguard. inv_ok.
    assert (length (omap (λ i, events !! i) k1) = length k1) as Hk1.
    { clear -Hin Ha. assert (∀ j, j ∈ k1 → is_Some (events !! j)) as Hk by (intros; apply Hin; rewrite Ha; set_solver).
      clear Ha Hin. induction k1 as [|j k IH]; [done|]. cbn. destruct (Hk j) as [x ->]; [left|].
      cbn. rewrite IH; [done|]. intros; apply Hk; by right. }
    apply andb_false_iff in Hguard as [Hgd|Hgd]; [apply Nat.leb_gt in Hgd; lia|].
    apply Nat.ltb_ge in Hgd. cbn in Hgd. lia.
Qed.

Lemma orderPublicationDependencies_Err events edges ordinary e :
  NoDup (ev_ID <$> events) → orderPublicationDependencies events edges ordinary = Err e →
  e = ErrSyncConflict.
Proof.
  intros Hnd H. unfold orderPublicationDependencies in H. fold (event_index events) in H.
  apply bind_Err in H as [H|(out & _ & H)].
  - destruct (order_kahn events edges Hnd) as (out & Hrun & _). cbn zeta in Hrun.
    apply kahn_guarded_Err in H as [?|(l & x & Hg)]; [congruence|].
    unfold completion_guard, reject_if in Hg. case_match; congruence.
  - apply bind_Err in H as [H|(? & _ & ?)]; [|done]. unfold reject_if in H. case_match; congruence.
Qed.
