(* ===== verification/PublicationPlan.v ===== *)
(** * Publication plans

    Models [cli/internal/domain/publication_plan.go]: which events, refs and snapshot
    roots a selected publication sends, and in which order.

    The closure of dependencies ([visit]) mutates maps shared by all recursive calls
    and is called speculatively: an optional witness that cannot be closed is rolled
    back.  The model threads that state through a state-and-error monad. *)
From S2P Require Import Prelude GoStrings Sha256 Values History TopoSort HistoryOrder ContextBranch.
From S2P Require Import Graph Ancestry PublicationCatalog PublicationBranches PublicationOrder.

(** ** Computations with shared state

    A failing computation keeps the state it reached. *)
Definition M (S A : Type) : Type := S → result A * S.

#[export] Instance M_ret {S} : MRet (M S) := λ A a s, (Ok a, s).
#[export] Instance M_bind {S} : MBind (M S) := λ A B f m s,
  match m s with
  | (Ok a, s) => f a s
  | (Err e, s) => (Err e, s)
  end.

Lemma M_bind_run {S A B} (m : M S A) (k : A → M S B) s :
  (m ≫= k) s = match m s with (Ok a, s) => k a s | (Err e, s) => (Err e, s) end.
Proof. done. Qed.

Definition m_fail {S A} (e : error) : M S A := λ s, (Err e, s).
Definition m_reject_if {S} (c : bool) (e : error) : M S unit := if c then m_fail e else mret tt.

Fixpoint m_fold {S A B} (f : B → A → M S B) (l : list A) (b : B) : M S B :=
  match l with
  | [] => mret b
  | x :: l => b ← f b x; m_fold f l b
  end.

(** ** Closing the events to send *)

Record visit_state := MkVisit {
  vs_send : gmap string HistoryEvent;
  vs_edges : gmap string (gset string);
  vs_visiting : gset string;
}.

Definition is_observation (e : HistoryEvent) : bool :=
  (ev_Kind e =? "position") || (ev_Kind e =? "attach").

(** Copies the structures behind the event's pointers; values are unchanged. *)
Definition clonePublicationEvent (e : HistoryEvent) : HistoryEvent := e.

Section visit.
Context (catalog : publicationCatalog) (allowed : gset string).

(** [e.Kind == "pr-merge" || (!allowed\[e.BranchID\] && not an observation)] *)
Definition exceeds_authority (e : HistoryEvent) : bool :=
  (ev_Kind e =? "pr-merge") ||
  (bool_decide (ev_BranchID e ∉ allowed) && (ev_Kind e <>? "position") && (ev_Kind e <>? "attach")).

(** The creation origin a witness is needed for. *)
Definition witnessed_origin (e : HistoryEvent) : option GitCreation :=
  match ev_Creation e with
  | Some origin =>
      if (gc_OriginBranchID origin <>? "") &&
         (gc_OriginBranchID origin <>? LegacyContextBranchID (ev_RepoID e) (gc_OriginBranch origin))
      then Some origin else None
  | None => None
  end.

Definition origin_witness (id : string) (origin : GitCreation) (witness : HistoryEvent) : bool :=
  negb ((ev_Kind witness =? "publish") && bool_decide (ev_ID witness ∉ pc_accepted catalog)) &&
  (ev_ID witness <>? id) && (ev_BranchID witness =? gc_OriginBranchID origin) &&
  ((ev_Branch witness =? gc_OriginBranch origin) ||
   ((ev_Kind witness =? "rename") && (ev_PreviousBranch witness =? gc_OriginBranch origin))).

(** Accepted witnesses first, then observations, then by id. *)
Definition witness_less (a b : HistoryEvent) : bool :=
  let aa := bool_decide (ev_ID a ∈ pc_accepted catalog) in
  let ba := bool_decide (ev_ID b ∈ pc_accepted catalog) in
  if aa <>? ba then aa
  else if is_observation a <>? is_observation b then is_observation a
  else str_lt (ev_ID a) (ev_ID b).

Definition origin_candidates (id : string) (origin : GitCreation) : list HistoryEvent :=
  sort_slice witness_less (filter (λ w, origin_witness id origin w = true) (pc_all catalog)).

(** Drops what was added to [send] since its keys were [before]. *)
Definition rollback (before : gset string) (st : visit_state) : visit_state :=
  MkVisit (filter (λ kv, kv.1 ∈ before) (vs_send st))
    (filter (λ kv, ¬ (kv.1 ∈ dom (vs_send st) ∧ kv.1 ∉ before)) (vs_edges st)) (vs_visiting st).

(** [send\[id\], edges\[id\] = clonePublicationEvent(e), deps] *)
Definition record_event (id : string) (e : HistoryEvent) (deps : gset string) : M visit_state unit := λ st,
  (Ok tt, MkVisit (<[id := clonePublicationEvent e]> (vs_send st)) (<[id := deps]> (vs_edges st))
            (vs_visiting st)).

Section calls.
Context (visit : string → M visit_state unit).

(** [need(parent)], returning the grown set of dependencies. *)
Definition need (deps : gset string) (parent : string) : M visit_state (gset string) :=
  if parent =? "" then mret deps
  else visit parent ;; mret ({[parent]} ∪ deps).

(** The first candidate that can be closed. *)
Fixpoint try_witnesses (deps : gset string) (none : error) (candidates : list HistoryEvent)
    : M visit_state (gset string) := λ st,
  match candidates with
  | [] => (Err none, st)
  | w :: rest =>
      let before := dom (vs_send st) in
      match need deps (ev_ID w) st with
      | (Ok deps, st) => (Ok deps, st)
      | (Err cause, st) => try_witnesses deps cause rest (rollback before st)
      end
  end.

Definition need_origin (id : string) (e : HistoryEvent) (deps : gset string)
    : M visit_state (gset string) :=
  match witnessed_origin e with
  | None => mret deps
  | Some origin =>
      try_witnesses deps
        (PublicationBlockedError id "" (gc_OriginBranchID origin) "creation origin has no usable witness")
        (origin_candidates id origin)
  end.

(** One ordinary proof of a completion, with the attachments of its alias. *)
Definition need_proof (e : HistoryEvent) (st : bool * gset string) (proof : HistoryEvent)
    : M visit_state (bool * gset string) :=
  if negb (publicationProof e proof) then mret st
  else
    deps ← need st.2 (ev_ID proof);
    deps ← (if (ev_LocalBranch e <>? "") && (ev_LocalBranch e <>? ev_Branch e) && (ev_WorktreeID e <>? "")
            then m_fold (λ deps a, if publicationAliasAttachment e proof a then need deps (ev_ID a)
                                   else mret deps) (pc_all catalog) deps
            else mret deps);
    mret (true, deps).

Definition need_publication (id : string) (e : HistoryEvent) (deps : gset string)
    : M visit_state (gset string) :=
  if ev_Kind e =? "publish" then
    st ← m_fold (need_proof e) (pc_all catalog) (false, deps);
    m_reject_if (negb st.1)
      (PublicationBlockedError id "" "" "publication has no exact ordinary proof") ;;
    mret st.2
  else mret deps.

(** The dependencies of an event, closed. *)
Definition visit_deps (id : string) (e : HistoryEvent) : M visit_state (gset string) :=
  deps ← m_fold need (HistoryDependencies e) ∅;
  m_reject_if (match ev_Creation e with
               | Some c => (gc_OriginBranchID c =? ev_BranchID e) && (ev_Kind e <>? "attach")
               | None => false
               end) (PublicationBlockedError id "" "" "branch cannot be its own creation origin") ;;
  deps ← need_origin id e deps;
  need_publication id e deps.

(** The body of [visit] once the event is known, authorized and marked. *)
Definition visit_known (id : string) (e : HistoryEvent) : M visit_state unit :=
  deps ← visit_deps id e;
  record_event id e deps.
End calls.

Fixpoint visit (fuel : nat) (id : string) : M visit_state unit := λ st,
  if decide (id ∈ pc_accepted catalog) then (Ok tt, st)
  else if decide (is_Some (vs_send st !! id)) then (Ok tt, st)
  else match pc_byID catalog !! id with
  | None => (Err (PublicationBlockedError "" id "" "missing history dependency"), st)
  | Some e =>
      if decide (id ∈ vs_visiting st)
      then (Err (PublicationBlockedError id "" "" "cyclic publication dependency"), st)
      else if exceeds_authority e
      then (Err (PublicationBlockedError "" id (ev_BranchID e)
                   "unaccepted event would exceed publication authority"), st)
      else match fuel with
      | O => (Err ErrOutOfFuel, st)
      | S fuel =>
          let (r, st) := visit_known (visit fuel) id e
                           (MkVisit (vs_send st) (vs_edges st) ({[id]} ∪ vs_visiting st)) in
          (r, MkVisit (vs_send st) (vs_edges st) (vs_visiting st ∖ {[id]}))
      end
  end.
End visit.

(** ** What the closure guarantees *)

Section visit_spec.
Context (catalog : publicationCatalog) (allowed : gset string).
Hypothesis all_ids : ∀ e, e ∈ pc_all catalog → ev_ID e ≠ "".

(** An event that may be sent. *)
Definition sendable (id : string) (e : HistoryEvent) : Prop :=
  pc_byID catalog !! id = Some e ∧ id ∉ pc_accepted catalog ∧ exceeds_authority allowed e = false.

(** The recorded dependencies cover every evidence the event needs. *)
Definition justified (id : string) (e : HistoryEvent) (deps : gset string) : Prop :=
  (∀ d, d ∈ HistoryDependencies e → d ∈ deps) ∧
  (∀ origin, witnessed_origin e = Some origin →
     ∃ w, w ∈ pc_all catalog ∧ origin_witness catalog id origin w = true ∧ ev_ID w ∈ deps) ∧
  (ev_Kind e = "publish" →
     ∃ proof, proof ∈ pc_all catalog ∧ publicationProof e proof = true ∧ ev_ID proof ∈ deps).

Definition satisfied (st : visit_state) (p : string) : Prop :=
  p ∈ pc_accepted catalog ∨ p ∈ dom (vs_send st).

Definition visit_inv (st : visit_state) : Prop :=
  dom (vs_edges st) = dom (vs_send st) ∧
  (∀ id, id ∈ vs_visiting st → vs_send st !! id = None) ∧
  (∀ id e, vs_send st !! id = Some e → sendable id e ∧
     ∃ deps, vs_edges st !! id = Some deps ∧ justified id e deps ∧ ∀ p, p ∈ deps → satisfied st p).

Definition grows (st st' : visit_state) : Prop :=
  vs_send st ⊆ vs_send st' ∧ vs_edges st ⊆ vs_edges st' ∧ vs_visiting st' = vs_visiting st.

Definition room (fuel : nat) (st : visit_state) : Prop :=
  vs_visiting st ⊆ dom (pc_byID catalog) ∧
  size (pc_byID catalog) ≤ fuel + size (vs_visiting st).

(** A computation that keeps the invariant, only adds, and never runs out of fuel. *)
Definition runs {A} (fuel : nat) (m : M visit_state A) (P : visit_state → Prop)
    (Q : A → visit_state → Prop) : Prop :=
  ∀ st r st', visit_inv st → room fuel st → P st → m st = (r, st') →
    visit_inv st' ∧ grows st st' ∧ r ≠ Err ErrOutOfFuel ∧ ∀ a, r = Ok a → Q a st'.

#[global] Instance grows_preorder : PreOrder grows.
Proof.
  split; [intros st; by split_and!|]. intros a b c (? & ? & ?) (? & ? & ?). unfold grows.
  split_and!; [by etrans..|congruence].
Qed.

Lemma satisfied_grows st st' p : grows st st' → satisfied st p → satisfied st' p.
Proof.
  intros (Hs & _) [?|Hp]; [by left|right]. apply subseteq_dom in Hs. set_solver.
Qed.

Lemma room_grows fuel st st' : grows st st' → room fuel st → room fuel st'.
Proof. unfold room. intros (_ & _ & ->). done. Qed.

Lemma runs_ret {A} fuel (a : A) P : runs fuel (mret a) P (λ b st, b = a ∧ P st).
Proof. intros st r st' Hi Hr HP [= <- <-]. split_and!; [done|done|done|]. by intros ? [= <-]. Qed.

Lemma runs_bind {A B} fuel (m : M visit_state A) (k : A → M visit_state B) P Q R :
  runs fuel m P Q → (∀ a, runs fuel (k a) (Q a) R) → runs fuel (m ≫= k) P R.
Proof.
  intros Hm Hk st r st' Hi Hroom HP. rewrite M_bind_run. destruct (m st) as [[a|e] st1] eqn:Em.
  - destruct (Hm _ _ _ Hi Hroom HP Em) as (Hi1 & Hg1 & _ & Ha). intros Hrun.
    destruct (Hk a _ _ _ Hi1 (room_grows _ _ _ Hg1 Hroom) (Ha _ eq_refl) Hrun) as (Hi2 & Hg2 & Hn & Hb).
    split_and!; [done|by etrans|done|done].
  - intros [= <- <-]. destruct (Hm _ _ _ Hi Hroom HP Em) as (Hi1 & Hg1 & Hn & _).
    split_and!; [done|done| |done]. intros [= ->]. done.
Qed.

Lemma runs_weaken {A} fuel (m : M visit_state A) (P P' : visit_state → Prop) (Q Q' : A → visit_state → Prop) :
  runs fuel m P Q → (∀ st, P' st → P st) → (∀ a st, Q a st → Q' a st) → runs fuel m P' Q'.
Proof.
  intros Hm HP HQ st r st' Hi Hroom HP' Hrun.
  destruct (Hm _ _ _ Hi Hroom (HP _ HP') Hrun) as (? & ? & ? & ?). split_and!; naive_solver.
Qed.

(** Dependencies collected so far. *)
Definition good (deps : gset string) (st : visit_state) : Prop := ∀ p, p ∈ deps → satisfied st p.

Lemma good_grows deps st st' : grows st st' → good deps st → good deps st'.
Proof. intros Hg Hd p Hp. by eapply satisfied_grows, Hd. Qed.

Section calls_spec.
Context (fuel : nat) (visit : string → M visit_state unit).
Hypothesis visit_runs : ∀ p, runs fuel (visit p) (λ _, True) (λ _ st, satisfied st p).

Lemma need_runs deps p :
  runs fuel (need visit deps p) (good deps)
    (λ deps' st, good deps' st ∧ deps ⊆ deps' ∧ (p ≠ "" → p ∈ deps')).
Proof.
  unfold need. case_bool_decide as Hp.
  { eapply runs_weaken; [apply (runs_ret fuel deps (good deps))|done|]. intros d st [-> ?]. done. }
  intros st r st' Hi Hroom Hgood. rewrite M_bind_run. destruct (visit p st) as [[[]|e] st1] eqn:Ev;
    destruct (visit_runs p _ _ _ Hi Hroom I Ev) as (Hi1 & Hg1 & Hn & Hs); intros [= <- <-].
  - split_and!; [done|done|done|]. intros d [= <-]. split_and!; [|set_solver|set_solver].
    intros q [->%elem_of_singleton|Hq]%elem_of_union; [by apply (Hs tt)|]. by eapply good_grows.
  - split_and!; [done|done| |done]. intros [= ->]. done.
Qed.

(** Folding a step that only adds dependencies: what one step establishes of its
    element ([R]) and what every step maintains ([J]). *)
Lemma fold_runs {X B} (f : B → X → M visit_state B) (deps_of : B → gset string) (R : X → B → Prop)
    (J : B → Prop) l b :
  (∀ b x, x ∈ l → runs fuel (f b x) (good (deps_of b))
     (λ b' st, good (deps_of b') st ∧ deps_of b ⊆ deps_of b' ∧ R x b' ∧ (∀ y, R y b → R y b') ∧
               (J b → J b'))) →
  runs fuel (m_fold f l b) (good (deps_of b))
    (λ b' st, good (deps_of b') st ∧ deps_of b ⊆ deps_of b' ∧ (∀ x, x ∈ l → R x b') ∧
              (∀ y, R y b → R y b') ∧ (J b → J b')).
Proof.
  revert b. induction l as [|x l IH]; intros b Hf; cbn [m_fold].
  { eapply runs_weaken; [apply (runs_ret fuel b (good (deps_of b)))|done|].
    intros b' st [-> ?]. split_and!; [done|done|set_solver|done|done]. }
  intros st r st' Hi Hroom Hgood. rewrite M_bind_run. destruct (f b x st) as [[b1|e] st1] eqn:Ef;
    destruct (Hf b x ltac:(left) _ _ _ Hi Hroom Hgood Ef) as (Hi1 & Hg1 & Hn & Hs).
  - intros Hrun. destruct (Hs _ eq_refl) as (Hgd & Hsub & Hx & Hkeep & HJ).
    destruct (IH b1 ltac:(intros; apply Hf; by right) _ _ _ Hi1 (room_grows _ _ _ Hg1 Hroom) Hgd Hrun)
      as (Hi2 & Hg2 & Hn2 & Hs2). split_and!; [done|by etrans|done|].
    intros b' Hb'. destruct (Hs2 _ Hb') as (? & ? & Hall & Hk2 & HJ2). split_and!; [done|by etrans| |auto|auto].
    intros y [-> | Hy]%elem_of_cons; auto.
  - intros [= <- <-]. split_and!; [done|done| |done]. intros [= ->]. done.
Qed.

(** Rolling back restores the state exactly. *)
Lemma rollback_grows st st' :
  visit_inv st → visit_inv st' → grows st st' → rollback (dom (vs_send st)) st' = st.
Proof.
  intros (Hd & _ & _) (Hd' & _ & _) (Hs & He & Hv). destruct st as [s e v], st' as [s' e' v'].
  unfold rollback. cbn in *. subst v'. f_equal.
  - apply map_eq. intros k. rewrite map_lookup_filter. destruct (s' !! k) as [x|] eqn:Hk; cbn.
    + destruct (s !! k) as [y|] eqn:Hy.
      * rewrite option_guard_True by (apply elem_of_dom; eauto).
        apply (lookup_weaken _ s') in Hy; [|done]. congruence.
      * by rewrite option_guard_False by (by apply not_elem_of_dom).
    + symmetry. eapply lookup_weaken_None; done.
  - apply map_eq. intros k. rewrite map_lookup_filter. destruct (e' !! k) as [x|] eqn:Hk; cbn.
    + assert (k ∈ dom s') as Hks by (rewrite <-Hd'; apply elem_of_dom; eauto).
      destruct (e !! k) as [y|] eqn:Hy.
      * assert (k ∈ dom s) by (rewrite <-Hd; apply elem_of_dom; eauto).
        rewrite option_guard_True by tauto.
        apply (lookup_weaken _ e') in Hy; [|done]. congruence.
      * assert (k ∉ dom s) by (rewrite <-Hd; by apply not_elem_of_dom).
        by rewrite option_guard_False by tauto.
    + symmetry. eapply lookup_weaken_None; done.
Qed.

Lemma try_witnesses_runs deps none cands :
  (∀ w, w ∈ cands → w ∈ pc_all catalog) → none ≠ ErrOutOfFuel →
  runs fuel (try_witnesses visit deps none cands) (good deps)
    (λ deps' st, good deps' st ∧ deps ⊆ deps' ∧ ∃ w, w ∈ cands ∧ ev_ID w ∈ deps').
Proof.
  revert none. induction cands as [|w cands IH]; intros none Hall Hnone st r st' Hi Hroom Hgood; cbn [try_witnesses].
  { intros [= <- <-]. split_and!; [done|done| |done]. congruence. }
  destruct (need visit deps (ev_ID w) st) as [[d|cause] st1] eqn:En;
    destruct (need_runs deps (ev_ID w) _ _ _ Hi Hroom Hgood En) as (Hi1 & Hg1 & Hn & Hs).
  - intros [= <- <-]. split_and!; [done|done|done|]. intros d' [= <-].
    destruct (Hs _ eq_refl) as (? & ? & Hw). split_and!; [done|done|]. exists w.
    split; [left|]. apply Hw, all_ids, Hall. left.
  - rewrite (rollback_grows _ _ Hi Hi1 Hg1). intros Hrun.
    destruct (IH cause ltac:(set_solver) ltac:(congruence) _ _ _ Hi Hroom Hgood Hrun) as (? & ? & ? & Hq).
    split_and!; [done|done|done|]. intros d' Hd'. destruct (Hq _ Hd') as (? & ? & x & ? & ?).
    split_and!; [done|done|]. exists x. set_solver.
Qed.

Lemma need_origin_runs id e deps :
  runs fuel (need_origin catalog visit id e deps) (good deps)
    (λ deps' st, good deps' st ∧ deps ⊆ deps' ∧
       ∀ origin, witnessed_origin e = Some origin →
         ∃ w, w ∈ pc_all catalog ∧ origin_witness catalog id origin w = true ∧ ev_ID w ∈ deps').
Proof.
  unfold need_origin. destruct (witnessed_origin e) as [origin|].
  - assert (∀ w, w ∈ origin_candidates catalog id origin ↔
      w ∈ pc_all catalog ∧ origin_witness catalog id origin w = true) as Hc.
    { intros w. unfold origin_candidates. rewrite elem_of_sort_slice, list_elem_of_filter. tauto. }
    eapply runs_weaken; [apply try_witnesses_runs|done|].
    + intros w [? _]%Hc. done.
    + done.
    + intros d st (? & ? & w & [? ?]%Hc & ?). split_and!; [done|done|]. intros o [= <-]. eauto.
  - eapply runs_weaken; [apply (runs_ret fuel deps (good deps))|done|]. by intros d st [-> ?].
Qed.

(** Some exact ordinary proof is among the dependencies. *)
Definition proven (e : HistoryEvent) (deps : gset string) : Prop :=
  ∃ p, p ∈ pc_all catalog ∧ publicationProof e p = true ∧ ev_ID p ∈ deps.

Lemma need_alias_runs e proof deps :
  runs fuel (m_fold (λ deps a, if publicationAliasAttachment e proof a then need visit deps (ev_ID a)
      else mret deps) (pc_all catalog) deps) (good deps) (λ d s, good d s ∧ deps ⊆ d).
Proof.
  eapply runs_weaken; [apply (fold_runs _ (λ d, d) (λ _ _, True) (λ _, True))|done|by intros ? ? (? & ? & _)].
  intros b a Ha. destruct (publicationAliasAttachment e proof a).
  - eapply runs_weaken; [apply need_runs|done|]. by intros ? ? (? & ? & _).
  - eapply runs_weaken; [apply (runs_ret fuel b (good b))|done|]. by intros ? ? [-> ?].
Qed.

Lemma need_proof_runs e st proof :
  proof ∈ pc_all catalog →
  runs fuel (need_proof catalog visit e st proof) (good st.2)
    (λ st' s, good st'.2 s ∧ st.2 ⊆ st'.2 ∧ True ∧ (∀ y : HistoryEvent, True → True) ∧
       ((st.1 = true → proven e st.2) → st'.1 = true → proven e st'.2)).
Proof.
  intros Hall. unfold need_proof. destruct (publicationProof e proof) eqn:Hp; cbn [negb].
  2:{ eapply runs_weaken; [apply (runs_ret fuel st (good st.2))|done|]. intros d s [-> ?]. by split_and!. }
  eapply runs_bind; [apply need_runs|]. intros d1.
  eapply (runs_bind _ _ _ _ (λ d2 s, good d2 s ∧ st.2 ⊆ d2 ∧ ev_ID proof ∈ d2)).
  - intros s r s' Hi Hroom (Hg & Hsub & Hin). specialize (Hin (all_ids _ Hall)). destruct (_ && _ && _).
    + intros Hrun. destruct (need_alias_runs _ _ _ _ _ _ Hi Hroom Hg Hrun) as (? & ? & ? & Hq).
      split_and!; [done|done|done|]. intros d2 Hd2. destruct (Hq _ Hd2). split_and!; [done|by etrans|set_solver].
    + intros [= <- <-]. split_and!; [done|done|done|]. by intros d2 [= <-].
  - intros d2. eapply runs_weaken;
      [apply (runs_ret fuel (true, d2) (λ s, good d2 s ∧ st.2 ⊆ d2 ∧ ev_ID proof ∈ d2))|done|].
    intros st' s (-> & ? & ? & ?). cbn. split_and!; try done. intros _ _. by exists proof.
Qed.

Lemma need_publication_runs id e deps :
  runs fuel (need_publication catalog visit id e deps) (good deps)
    (λ d s, good d s ∧ deps ⊆ d ∧ (ev_Kind e = "publish" → proven e d)).
Proof.
  unfold need_publication. case_bool_decide as Hk.
  2:{ eapply runs_weaken; [apply (runs_ret fuel deps (good deps))|done|]. by intros d s [-> ?]. }
  eapply runs_bind.
  { apply (fold_runs (need_proof catalog visit e) snd (λ _ _, True) (λ b, b.1 = true → proven e b.2)).
    intros b x Hx. by apply need_proof_runs. }
  intros [[|] d]; cbn [fst snd negb].
  - intros s r s' Hi Hroom (Hg & Hsub & _ & _ & Hj) [= <- <-]. split_and!; [done|done|done|].
    intros d' [= <-]. split_and!; [done|done|]. intros _. by apply Hj.
  - intros s r s' Hi Hroom _ [= <- <-]. by split_and!.
Qed.

Lemma visit_deps_runs id e :
  runs fuel (visit_deps catalog visit id e) (λ _, True) (λ d s, good d s ∧ justified id e d).
Proof.
  unfold visit_deps.
  eapply runs_bind.
  { eapply runs_weaken; [apply (fold_runs (need visit) (λ d, d) (λ p d, p ≠ "" → p ∈ d) (λ _, True))| |].
    - intros b x Hx. eapply runs_weaken; [apply need_runs|done|].
      intros d s (? & ? & ?). split_and!; [done|done|done|set_solver|done].
    - intros s _ p. set_solver.
    - intros d s (? & ? & Hd & _). exact (conj H (λ x Hx Hne, Hd x Hx Hne)). }
  intros d1. eapply (runs_bind _ _ _ _ (λ _ s, good d1 s ∧
    ∀ x, x ∈ HistoryDependencies e → x ≠ "" → x ∈ d1)).
  { intros s r s' Hi Hroom HP. unfold m_reject_if, m_fail.
    destruct (match ev_Creation e with Some c => _ | None => _ end); intros [= <- <-]; by split_and!. }
  intros _. intros s r s' Hi Hroom [Hg1 Hd1].
  eapply (runs_bind _ _ _ (good d1) (λ d s, good d s ∧ d1 ⊆ d ∧ _)
    (λ d s, good d s ∧ justified id e d)); [apply need_origin_runs| |done|done|done].
  intros d2. intros s2 r2 s2' Hi2 Hroom2 (Hg2 & Hsub2 & Ho2) Hrun.
  destruct (need_publication_runs _ _ _ _ _ _ Hi2 Hroom2 Hg2 Hrun) as (? & ? & ? & Hq).
  split_and!; [done|done|done|]. intros d3 Hd3. destruct (Hq _ Hd3) as (? & Hsub3 & Hp3).
  split; [done|]. split_and!; [| |done].
  - intros x Hx. apply Hsub3, Hsub2, Hd1; [done|]. by apply HistoryDependencies_elem in Hx as [? _].
  - intros o Ho. destruct (Ho2 o Ho) as (w & ? & ? & ?). exists w. set_solver.
Qed.
End calls_spec.

Lemma visit_room fuel st id e :
  room fuel st → pc_byID catalog !! id = Some e → id ∉ vs_visiting st →
  ∃ fuel', fuel = S fuel' ∧ room fuel' (MkVisit (vs_send st) (vs_edges st) ({[id]} ∪ vs_visiting st)).
Proof.
  intros [Hsub Hlen] He Hid. assert (id ∈ dom (pc_byID catalog)) by (apply elem_of_dom; eauto).
  assert ({[id]} ∪ vs_visiting st ⊆ dom (pc_byID catalog)) as Hsub' by set_solver.
  pose proof (subseteq_size _ _ Hsub') as Hsz. rewrite size_dom in Hsz. unfold room. cbn.
  rewrite size_union, size_singleton in * by set_solver.
  destruct fuel as [|fuel']; [lia|]. exists fuel'. split_and!; [done|done|lia].
Qed.

(** Recording an event whose dependencies are closed and dropping its mark. *)
Lemma record_inv id e deps st :
  visit_inv st → id ∈ vs_visiting st → sendable id e → justified id e deps → good deps st →
  visit_inv (MkVisit (<[id := e]> (vs_send st)) (<[id := deps]> (vs_edges st)) (vs_visiting st ∖ {[id]})).
Proof.
  intros (Hd & Hv & Hs) Hid He Hj Hg. split_and!; cbn.
  - by rewrite !dom_insert_L, Hd.
  - intros i [Hi Hne]%elem_of_difference. rewrite lookup_insert_ne by set_solver. auto.
  - assert (∀ p, satisfied st p → satisfied (MkVisit (<[id := e]> (vs_send st))
      (<[id := deps]> (vs_edges st)) (vs_visiting st ∖ {[id]})) p) as Hmono.
    { intros p [?|Hp]; [by left|right]. cbn. rewrite dom_insert. set_solver. }
    intros i x. rewrite !lookup_insert. case_decide as Hi.
    + intros [= <-]. subst i. split; [done|]. exists deps. split_and!; auto.
    + intros Hx. destruct (Hs i x Hx) as (? & ds & ? & ? & ?). split; [done|]. exists ds. split_and!; auto.
Qed.

Lemma unmark_inv st v :
  visit_inv st → visit_inv (MkVisit (vs_send st) (vs_edges st) (vs_visiting st ∖ v)).
Proof.
  intros (Hd & Hv & Hs). split_and!; [done| |done]. cbn. intros i [Hi _]%elem_of_difference. auto.
Qed.

(** [visit] closes the event it is called for. *)
Lemma visit_runs fuel id :
  runs fuel (visit catalog allowed fuel id) (λ _, True) (λ _ st, satisfied st id).
Proof.
  revert id. induction fuel as [|fuel IH]; intros id st r st' Hi Hroom _; cbn [visit];
    (destruct (decide (id ∈ pc_accepted catalog)) as [Hacc|Hacc];
      [intros [= <- <-]; split_and!; [done|done|done|intros; by left]|]);
    (destruct (decide (is_Some (vs_send st !! id))) as [Hin|Hin];
      [intros [= <- <-]; split_and!; [done|done|done|intros; right; by apply elem_of_dom]|]);
    (destruct (pc_byID catalog !! id) as [e|] eqn:He; [|intros [= <- <-]; by split_and!]);
    (destruct (decide (id ∈ vs_visiting st)) as [Hvis|Hvis]; [intros [= <- <-]; by split_and!|]);
    (destruct (exceeds_authority allowed e) eqn:Hex; [intros [= <- <-]; by split_and!|]);
    destruct (visit_room _ _ _ _ Hroom He Hvis) as (f' & [= <-] & Hroom').
  set (st1 := MkVisit (vs_send st) (vs_edges st) ({[id]} ∪ vs_visiting st)) in *.
  assert (vs_send st !! id = None) as Hnone by (by apply eq_None_not_Some).
  assert (visit_inv st1) as Hi1.
  { destruct Hi as (Hd & Hv & Hs). split_and!; [done| |done]. cbn. intros i Hiv. set_solver. }
  unfold visit_known. rewrite M_bind_run.
  destruct (visit_deps catalog (visit catalog allowed fuel) id e st1) as [[deps|err] st2] eqn:Ed;
    destruct (visit_deps_runs _ _ IH _ _ _ _ _ Hi1 Hroom' I Ed) as (Hi2 & (Hs2 & He2 & Hv2) & Hn2 & Hq);
    intros [= <- <-]; cbn in Hs2, He2, Hv2.
  - destruct (Hq _ eq_refl) as [Hgood Hj].
    assert (id ∈ vs_visiting st2) as Hid by (rewrite Hv2; set_solver).
    pose proof (proj1 (proj2 Hi2) id Hid) as Hfresh.
    split_and!; [by apply record_inv| |done|].
    + unfold grows. cbn. split_and!; [| |rewrite Hv2; set_solver].
      * etrans; [done|]. by apply insert_subseteq.
      * etrans; [done|]. apply insert_subseteq, not_elem_of_dom. destruct Hi2 as (-> & _).
        by apply not_elem_of_dom.
    + intros _ _. right. cbn. rewrite dom_insert. set_solver.
  - split_and!; [by apply unmark_inv| |congruence|done]. unfold grows. cbn. split_and!; [done|done|].
    rewrite Hv2. set_solver.
Qed.
End visit_spec.

(** ** The plan *)

Record PublicationScope := MkScope {
  ps_Branches : list PublicationBranch;
  ps_HistoryOnly : bool;
  ps_ExpectedTargets : gmap string string;
}.

Record PublicationPlanInput := MkPlanInput {
  pi_RepoID : string;
  pi_ContextProtocol : Z;
  pi_Ref : string;
  pi_Scope : PublicationScope;
  pi_Refs : list Ref;
  pi_History : list HistoryEvent;
  pi_Accepted : list HistoryEvent;
  pi_Snapshots : list Snapshot;
}.

Record PublicationPlan := MkPlan {
  pp_Authority : list PublicationBranch;
  pp_HistoryToSend : list HistoryEvent;
  pp_RefsToPush : list Ref;
  pp_SnapshotRoots : list string;
}.

#[export] Instance PublicationPlan_eq_dec : EqDecision PublicationPlan.
Proof. solve_decision. Defined.

(** The identity the local history gives a ref. *)
Definition localIdentity (repo : string) (events : list HistoryEvent) (ref : Ref) : result string :=
  if ref_BranchID ref <>? "" then Ok (ref_BranchID ref)
  else
    local ← or_else (projectPublicationBranches events [MkPublicationBranch (ref_Name ref) ""])
              ErrSyncConflict;
    Ok (Identity local repo (ref_Name ref)).

Definition plan_ref (repo : string) (refs : gmap string Ref) (r : Ref) : result (gmap string Ref) :=
  if ref_Kind r <>? RefBranch then Ok refs
  else
    reject_if ((ref_RepoID r <>? repo) || negb (is_ok (ValidateRef r))) ErrHashMismatch ;;
    reject_if (match refs !! ref_Name r with Some old => old <>? r | None => false end) ErrHashMismatch ;;
    Ok (<[ref_Name r := r]> refs).

(** The branches of the scope, or the one the ref names. *)
Definition plan_branches (input : PublicationPlanInput) (events : list HistoryEvent)
    (refs : gmap string Ref) : result (list PublicationBranch) :=
  if pi_Ref input <>? "" then
    ValidateBranchName (pi_Ref input) ;;
    match refs !! pi_Ref input with
    | None => Err ErrNotFound
    | Some ref =>
        id ← localIdentity (pi_RepoID input) events ref;
        Ok [MkPublicationBranch (pi_Ref input) id]
    end
  else Ok (ps_Branches (pi_Scope input)).

(** A deferred push publishes the captured targets and nothing newer. *)
Definition plan_expected (scope : PublicationScope) (refs : gmap string Ref)
    (branches : list PublicationBranch) : result unit :=
  if bool_decide (ps_ExpectedTargets scope = ∅) then Ok tt
  else
    reject_if (ps_HistoryOnly scope || (size (ps_ExpectedTargets scope) <>? length branches)) ErrInvalidRef ;;
    for_each (λ b,
        let target := default "" (ps_ExpectedTargets scope !! pb_BranchID b) in
        reject_if (negb (is_ok (ValidateContentHash target)) ||
                   (default "" (ref_Target <$> refs !! pb_Branch b) <>? target)) ErrSyncConflict)
      branches.

Record authority_state := MkAuthority {
  as_refs : list Ref;
  as_names : gmap string string;
  as_authority : list PublicationBranch;
}.

Definition with_branch_id (r : Ref) (id : string) : Ref :=
  MkRef id (ref_Kind r) (ref_Name r) (ref_RepoID r) (ref_Target r) (ref_Symbolic r).

(** The ref a branch pushes. *)
Definition authorize_ref (repo : string) (events : list HistoryEvent) (projection : ContextBranchProjection)
    (refs : gmap string Ref) (b : PublicationBranch) : result Ref :=
  match refs !! pb_Branch b with
  | None => Err ErrNotFound
  | Some r =>
      localID ← localIdentity repo events r;
      reject_if ((Identity projection repo (pb_Branch b) <>? pb_BranchID b) || (localID <>? pb_BranchID b))
        ErrSyncConflict ;;
      reject_if ((ref_Symbolic r <>? "") || (ref_Target r =? "") ||
                 negb (is_ok (ValidateContentHash (ref_Target r)))) ErrInvalidRef ;;
      Ok (with_branch_id r (pb_BranchID b))
  end.

Definition authorize (repo : string) (historyOnly : bool) (events : list HistoryEvent)
    (projection : ContextBranchProjection) (refs : gmap string Ref) (st : authority_state)
    (b : PublicationBranch) : result authority_state :=
  reject_if ((pb_BranchID b =? "") ||
             negb (is_ok (ValidateRef (MkRef (pb_BranchID b) RefBranch (pb_Branch b) "" repo ""))))
    ErrInvalidRef ;;
  match as_names st !! pb_BranchID b with
  | Some name => reject_if (name <>? pb_Branch b) ErrSyncConflict ;; Ok st
  | None =>
      match ByID projection !! pb_BranchID b with
      | Some known =>
          reject_if ((cb_Name known <>? pb_Branch b) || (negb historyOnly && cb_Archived known)) ErrSyncConflict
      | None =>
          reject_if (pb_BranchID b <>? LegacyContextBranchID repo (pb_Branch b)) ErrSyncConflict
      end ;;
      pushed ← (if historyOnly then Ok []
                else r ← authorize_ref repo events projection refs b; Ok [r]);
      Ok (MkAuthority (as_refs st ++ pushed) (<[pb_BranchID b := pb_Branch b]> (as_names st))
            (as_authority st ++ [b]))
  end.

Definition ref_less (a b : Ref) : bool := str_lt (ref_Name a) (ref_Name b).

(** The completions in completion order, each after the previous one. *)
Definition chain_completion (send : gmap string HistoryEvent)
    (st : list HistoryEvent * gmap string (gset string) * string) (e : HistoryEvent)
    : list HistoryEvent * gmap string (gset string) * string :=
  let '(publications, edges, prior) := st in
  if ev_Kind e =? "publish" then
    (publications ++ option_list (send !! ev_ID e),
     (if prior <>? "" then <[ev_ID e := {[prior]} ∪ default ∅ (edges !! ev_ID e)]> edges else edges),
     ev_ID e)
  else st.

(** The payload: ordinary events by time, completions by group policy, reordered so
    that dependencies come first. *)
Definition plan_payload (ordered : list HistoryEvent) (st : visit_state) : result (list HistoryEvent) :=
  let ordinary := sort_slice history_less
                    (filter (λ e, ev_Kind e ≠ "publish") (map_to_list (vs_send st)).*2) in
  let '(publications, edges, _) := fold_left (chain_completion (vs_send st)) ordered ([], vs_edges st, "") in
  orderPublicationDependencies (ordinary ++ publications) edges (length ordinary).

Definition event_roots (e : HistoryEvent) : list string :=
  filter (λ id, id ≠ "") [ev_Source e; ev_Target e; ev_SharedTarget e; ev_MemorySource e].

Definition PlanPublication (input : PublicationPlanInput) : result PublicationPlan :=
  let repo := pi_RepoID input in
  let scope := pi_Scope input in
  reject_if (negb (pi_ContextProtocol input =? 1)%Z) ErrContextProtocolRequired ;;
  ValidateContentHash repo ;;
  reject_if ((pi_Ref input <>? "") && ((length (ps_Branches scope) <>? 0) || ps_HistoryOnly scope))
    ErrInvalidRef ;;
  let events := sort_slice history_less (pi_History input) in
  catalog ← indexPublicationHistory repo events (pi_Accepted input);
  refs ← fold_each (plan_ref repo) (pi_Refs input) ∅;
  branches ← plan_branches input events refs;
  reject_if (length branches =? 0) ErrInvalidRef ;;
  plan_expected scope refs branches ;;
  projection ← or_else (projectPublicationBranches (pc_all catalog) branches) ErrSyncConflict;
  auth ← fold_each (authorize repo (ps_HistoryOnly scope) events projection refs) branches
           (MkAuthority [] ∅ []);
  let allowed := dom (as_names auth) in
  ancestry ← publicationAncestry repo (pi_Snapshots input) (ancestryRoots catalog (Some allowed));
  ordered ← order catalog repo (Some allowed) ancestry;
  let '(visited, st) := m_fold (λ _ e, visit catalog allowed (size (pc_byID catalog)) (ev_ID e)) ordered tt
                          (MkVisit ∅ ∅ ∅) in
  visited ;;
  history ← plan_payload ordered st;
  let pushed := sort_slice ref_less (as_refs auth) in
  let roots : gset string := list_to_set ((ref_Target <$> pushed) ++ concat (event_roots <$> history)) in
  Ok (MkPlan (sort_slice branch_less (as_authority auth)) history pushed
        (sort_slice str_lt (elements roots))).

Lemma exceeds_authority_false allowed e :
  exceeds_authority allowed e = false →
  ev_Kind e ≠ "pr-merge" ∧ (ev_BranchID e ∈ allowed ∨ ev_Kind e = "position" ∨ ev_Kind e = "attach").
Proof.
  unfold exceeds_authority. repeat case_bool_decide; try done; intros _; split; try done; try tauto.
Qed.

(** ** Properties of the closure *)

Section closure.
Context (catalog : publicationCatalog) (allowed : gset string).
Hypothesis all_ids : ∀ e, e ∈ pc_all catalog → ev_ID e ≠ "".

Lemma visit_all_runs fuel l :
  runs catalog allowed fuel (m_fold (λ _ e, visit catalog allowed fuel (ev_ID e)) l tt) (λ _, True)
    (λ _ st, ∀ e, e ∈ l → satisfied catalog st (ev_ID e)).
Proof.
  induction l as [|x l IH]; cbn [m_fold].
  { intros st r st' Hi Hroom _ [= <- <-]. split_and!; [done|done|done|]. set_solver. }
  intros st r st' Hi Hroom _. rewrite M_bind_run.
  destruct (visit catalog allowed fuel (ev_ID x) st) as [[[]|e] st1] eqn:Ev;
    destruct (visit_runs catalog allowed all_ids fuel (ev_ID x) _ _ _ Hi Hroom I Ev) as (Hi1 & Hg1 & Hn1 & Hs1).
  - intros Hrun. destruct (IH _ _ _ Hi1 (room_grows _ _ _ _ Hg1 Hroom) I Hrun) as (Hi2 & Hg2 & Hn2 & Hs2).
    split_and!; [done|by etrans|done|]. intros [] Ha y [-> | Hy]%elem_of_cons; [|by apply (Hs2 tt)].
    eapply satisfied_grows; [done..|]. by apply (Hs1 tt).
  - intros [= <- <-]. split_and!; [done|done| |done]. congruence.
Qed.

Lemma visit_init : visit_inv catalog allowed (MkVisit ∅ ∅ ∅).
Proof.
  split_and!; cbn; [by rewrite !dom_empty_L|set_solver|]. intros ??. by rewrite lookup_empty.
Qed.

Lemma room_init : room catalog (size (pc_byID catalog)) (MkVisit ∅ ∅ ∅).
Proof. split; cbn; [set_solver|lia]. Qed.

(** The state after visiting the ordered events. *)
Lemma visit_all_Ok l r st :
  m_fold (λ _ e, visit catalog allowed (size (pc_byID catalog)) (ev_ID e)) l tt (MkVisit ∅ ∅ ∅) = (r, st) →
  r ≠ Err ErrOutOfFuel ∧
  (r = Ok tt → visit_inv catalog allowed st ∧ ∀ e, e ∈ l → satisfied catalog st (ev_ID e)).
Proof.
  intros Hrun. destruct (visit_all_runs _ _ _ _ _ visit_init room_init I Hrun) as (Hi & _ & Hn & Hs).
  split; [done|]. intros ->. split; [done|]. by apply (Hs tt).
Qed.
End closure.

(** ** Properties of the payload *)

Lemma chain_spec send l pubs edges prior pubs' edges' prior' :
  fold_left (chain_completion send) l (pubs, edges, prior) = (pubs', edges', prior') →
  pubs' = pubs ++ omap (λ e, send !! ev_ID e) (filter (λ e, ev_Kind e = "publish") l) ∧
  ∀ id, default ∅ (edges !! id) ⊆ default ∅ (edges' !! id).
Proof.
  revert pubs edges prior. induction l as [|e l IH]; intros pubs edges prior; cbn [fold_left].
  { intros [= -> -> ->]. cbn. by rewrite app_nil_r. }
  unfold chain_completion at 2. rewrite filter_cons. case_bool_decide as Hk.
  - rewrite decide_True by done. intros (-> & Hsub)%IH. split.
    + cbn. destruct (send !! ev_ID e); cbn; rewrite <-?(assoc_L (++)); done.
    + intros id. etrans; [|apply Hsub]. case_bool_decide; cbn; [done|].
      rewrite lookup_insert. case_decide; [subst; cbn; set_solver|done].
  - rewrite decide_False by done. apply IH.
Qed.

Section payload.
Context (catalog : publicationCatalog) (allowed : gset string) (ordered : list HistoryEvent) (st : visit_state).
Hypothesis Hinv : visit_inv catalog allowed st.
Hypothesis Hkeys : ∀ id e, pc_byID catalog !! id = Some e → ev_ID e = id.
Hypothesis Hordered : ∀ e, e ∈ ordered → pc_byID catalog !! ev_ID e = Some e.
Hypothesis Hordered_ids : NoDup (ev_ID <$> ordered).
(** Every completion that may be sent is among the ordered events. *)
Hypothesis Hcompletions : ∀ id e, vs_send st !! id = Some e → ev_Kind e = "publish" → e ∈ ordered.

Lemma send_id id e : vs_send st !! id = Some e → ev_ID e = id.
Proof. destruct Hinv as (_ & _ & Hs). intros He. destruct (Hs _ _ He) as [(? & _) _]. auto. Qed.

Definition ordinary_part : list HistoryEvent :=
  sort_slice history_less (filter (λ e, ev_Kind e ≠ "publish") (map_to_list (vs_send st)).*2).
Definition completion_part : list HistoryEvent :=
  omap (λ e, vs_send st !! ev_ID e) (filter (λ e, ev_Kind e = "publish") ordered).

Lemma ordinary_part_elem e :
  e ∈ ordinary_part ↔ vs_send st !! ev_ID e = Some e ∧ ev_Kind e ≠ "publish".
Proof.
  unfold ordinary_part. rewrite elem_of_sort_slice, list_elem_of_filter, list_elem_of_fmap. split.
  - intros (Hk & [id x] & -> & Hin%elem_of_map_to_list). cbn. by rewrite (send_id _ _ Hin).
  - intros [He Hk]. split; [done|]. exists (ev_ID e, e). split; [done|]. by apply elem_of_map_to_list.
Qed.

Lemma completion_part_elem e :
  e ∈ completion_part ↔ vs_send st !! ev_ID e = Some e ∧ ev_Kind e = "publish".
Proof.
  unfold completion_part. rewrite list_elem_of_omap. split.
  - intros (x & [Hk Hx]%list_elem_of_filter & He). pose proof (send_id _ _ He) as Hid.
    destruct Hinv as (_ & _ & Hs). destruct (Hs _ _ He) as [(Hb & _) _].
    rewrite (Hordered x Hx) in Hb. injection Hb as <-. done.
  - intros [He Hk]. exists e. split; [|done]. apply list_elem_of_filter. split; [done|]. by eapply Hcompletions.
Qed.

Lemma payload_ids_NoDup : NoDup (ev_ID <$> (ordinary_part ++ completion_part)).
Proof.
  rewrite fmap_app. apply NoDup_app. split_and!.
  - unfold ordinary_part. rewrite sort_slice_Permutation.
    assert (NoDup (map_to_list (vs_send st)).*1) as Hnd by apply NoDup_fst_map_to_list.
    assert ((map_to_list (vs_send st)).*1 = ev_ID <$> (map_to_list (vs_send st)).*2) as Heq.
    { rewrite <-list_fmap_compose. apply list_fmap_ext. intros i [k v] Hi. cbn. symmetry. apply send_id.
      apply elem_of_map_to_list. by eapply list_elem_of_lookup_2. }
    rewrite Heq in Hnd. eapply sublist_NoDup; [exact Hnd|]. apply fmap_sublist, sublist_filter.
  - intros id (e & -> & [He Hk]%ordinary_part_elem)%list_elem_of_fmap
      (x & Hid & [Hx Hkx]%completion_part_elem)%list_elem_of_fmap. rewrite Hid in He. congruence.
  - eapply sublist_NoDup; [exact Hordered_ids|]. unfold completion_part.
    etrans; [|apply fmap_sublist, (sublist_filter (λ e, ev_Kind e = "publish"))].
    induction (filter _ ordered) as [|x l IH]; [done|]. cbn.
    destruct (vs_send st !! ev_ID x) as [y|] eqn:Hy; cbn; [|by constructor].
    rewrite (send_id _ _ Hy). by constructor.
Qed.

(** The leading positions hold exactly the ordinary events. *)
Lemma ordinary_first history :
  history ≡ₚ ordinary_part ++ completion_part →
  (∀ l1 e l2, history = l1 ++ e :: l2 →
     (length l1 < length ordinary_part → e ∈ take (length ordinary_part) (ordinary_part ++ completion_part))%nat) →
  ∀ x, x ∈ ordinary_part → x ∈ take (length ordinary_part) history.
Proof.
  intros Hperm Hord. pose proof payload_ids_NoDup as Hnd. apply NoDup_fmap_1 in Hnd. apply NoDup_full.
  - eapply sublist_NoDup; [|apply sublist_take]. by rewrite Hperm.
  - intros y (k & Hk & Hlt)%elem_of_take. rewrite <-(take_app_length ordinary_part completion_part).
    apply (Hord (take k history) y (drop (S k) history)); [by rewrite take_drop_middle|].
    rewrite length_take. lia.
  - rewrite length_take, Hperm, length_app. lia.
Qed.

Lemma plan_payload_total : no_fuel_error (plan_payload ordered st).
Proof.
  unfold plan_payload. fold ordinary_part.
  destruct (fold_left (chain_completion (vs_send st)) ordered ([], vs_edges st, "")) as [[pubs edges] prior] eqn:Ec.
  apply chain_spec in Ec as [Hpubs _]. cbn in Hpubs. fold completion_part in Hpubs. subst pubs.
  intros He. by apply orderPublicationDependencies_Err in He; [|apply payload_ids_NoDup].
Qed.

(** What the payload contains and in which order. *)
Lemma plan_payload_spec history :
  plan_payload ordered st = Ok history →
  (∀ e, e ∈ history ↔ vs_send st !! ev_ID e = Some e) ∧ NoDup (ev_ID <$> history) ∧
  (∀ l1 e l2, history = l1 ++ e :: l2 →
     (∀ p, p ∈ default ∅ (vs_edges st !! ev_ID e) → p ∈ pc_accepted catalog ∨ p ∈ ev_ID <$> l1) ∧
     (ev_Kind e = "publish" → ∀ x, x ∈ l2 → ev_Kind x = "publish")).
Proof.
  unfold plan_payload. fold ordinary_part.
  destruct (fold_left (chain_completion (vs_send st)) ordered ([], vs_edges st, "")) as [[pubs edges] prior] eqn:Ec.
  apply chain_spec in Ec as [Hpubs Hedges]. cbn in Hpubs. fold completion_part in Hpubs. subst pubs.
  intros Hrun.
  destruct (orderPublicationDependencies_Ok _ _ _ _ payload_ids_NoDup Hrun) as [Hperm Hpos].
  assert (∀ e, e ∈ history ↔ vs_send st !! ev_ID e = Some e) as Hin.
  { intros e. rewrite Hperm, elem_of_app, ordinary_part_elem, completion_part_elem.
    destruct (decide (ev_Kind e = "publish")); tauto. }
  assert (NoDup (ev_ID <$> history)) as Hnd by (rewrite Hperm; apply payload_ids_NoDup).
  split_and!; [done|done|]. intros l1 e l2 Heq. destruct (Hpos _ _ _ Heq) as [Hdep Hord]. split.
  - intros p Hp. destruct Hinv as (_ & _ & Hs).
    assert (vs_send st !! ev_ID e = Some e) as He by (apply Hin; rewrite Heq; set_solver).
    destruct (Hs _ _ He) as (_ & deps & Hde & _ & Hsat). rewrite Hde in Hp. cbn in Hp.
    destruct (Hsat p Hp) as [?|Hp']; [by left|right].
    apply elem_of_dom in Hp' as [x Hx]. pose proof (send_id _ _ Hx) as <-.
    apply Hdep; [apply Hedges; by rewrite Hde|]. rewrite <-Hperm. apply list_elem_of_fmap_2. by apply Hin.
  - intros Hk x Hx. destruct (decide (ev_Kind x = "publish")) as [|Hkx]; [done|exfalso].
    assert (length ordinary_part ≤ length l1) as Hlen.
    { apply Nat.le_ngt. intros Hlt%Hord. rewrite take_app_length in Hlt.
      apply ordinary_part_elem in Hlt as [_ ?]. done. }
    assert (x ∈ ordinary_part) as Hxo.
    { apply ordinary_part_elem. split; [|done]. apply Hin. rewrite Heq. set_solver. }
    apply (ordinary_first history Hperm (λ l1 e l2 H, proj2 (Hpos l1 e l2 H))) in Hxo.
    rewrite Heq, take_app_le in Hxo by done. apply elem_of_take in Hxo as (i & Hi & _).
    rewrite Heq, fmap_app in Hnd. apply NoDup_app in Hnd as (_ & Hdis & _).
    apply (Hdis (ev_ID x)); apply list_elem_of_fmap_2; [by eapply list_elem_of_lookup_2|by right].
Qed.
End payload.

(** ** Properties of the authority *)

Lemma plan_refs_spec repo l refs :
  fold_each (plan_ref repo) l ∅ = Ok refs →
  ∀ n r, refs !! n = Some r → r ∈ l ∧ ref_Name r = n ∧ ref_Kind r = RefBranch ∧ ref_RepoID r = repo.
Proof.
  apply (fold_each_invariant (plan_ref repo) (λ pre refs, ∀ n r, refs !! n = Some r →
    r ∈ pre ∧ ref_Name r = n ∧ ref_Kind r = RefBranch ∧ ref_RepoID r = repo)).
  { intros n r. by rewrite lookup_empty. }
  intros pre x m m' Hm _. unfold plan_ref. case_bool_decide as Hk; cbn [negb].
  - intros H. inv_ok. bools. subst m'. intros n r. rewrite lookup_insert. case_decide.
    + intros [= <-]. split_and!; [set_solver|done..].
    + intros Hr. destruct (Hm n r Hr) as (? & ?). split; [set_solver|done].
  - intros [= <-] n r Hr. destruct (Hm n r Hr). split; [set_solver|done].
Qed.

(** A ref pushed on behalf of a branch. *)
Definition pushes (refs : gmap string Ref) (b : PublicationBranch) (r : Ref) : Prop :=
  ∃ r0, refs !! pb_Branch b = Some r0 ∧ r = with_branch_id r0 (pb_BranchID b) ∧
    (ref_BranchID r0 = "" ∨ ref_BranchID r0 = pb_BranchID b) ∧
    ref_Symbolic r0 = "" ∧ ValidateContentHash (ref_Target r0) = Ok tt.

Lemma authorize_ref_Ok repo events projection refs b r :
  authorize_ref repo events projection refs b = Ok r → pushes refs b r.
Proof.
  unfold authorize_ref. destruct (refs !! pb_Branch b) as [r0|] eqn:Hr; [|done].
  intros H. inv_ok. bools. subst. exists r0. rewrite <-is_ok_unit. split_and!; try done.
  unfold localIdentity in H0. case_bool_decide; [by left|]. cbn in H0. inv_ok. subst. by right.
Qed.

Definition authority_inv (historyOnly : bool) (refs : gmap string Ref) (pre : list PublicationBranch)
    (st : authority_state) : Prop :=
  (∀ id, id ∈ dom (as_names st) ↔ id ∈ pb_BranchID <$> as_authority st) ∧
  (∀ b, b ∈ as_authority st → b ∈ pre) ∧
  (∀ b, b ∈ pre → pb_BranchID b ∈ dom (as_names st)) ∧
  NoDup (pb_BranchID <$> as_authority st) ∧
  (if historyOnly then as_refs st = []
   else Forall2 (pushes refs) (as_authority st) (as_refs st)).

Lemma authorize_fold repo historyOnly events projection refs branches auth :
  fold_each (authorize repo historyOnly events projection refs) branches (MkAuthority [] ∅ []) = Ok auth →
  authority_inv historyOnly refs branches auth.
Proof.
  apply (fold_each_invariant _ (authority_inv historyOnly refs)).
  { unfold authority_inv. cbn. split_and!; [set_solver..|constructor|]. destruct historyOnly; [done|constructor]. }
  intros pre b st st' (Hd & Hsub & Hall & Hnd & Hr) _. unfold authorize. intros H. inv_ok.
  destruct (as_names st !! pb_BranchID b) as [name|] eqn:Hn.
  - inv_ok. subst st'. unfold authority_inv. split_and!; [done|set_solver| |done|done].
    intros x [?| ->%list_elem_of_singleton]%elem_of_app; [auto|]. apply elem_of_dom. eauto.
  - inv_ok. subst st'. unfold authority_inv. cbn. rewrite fmap_app. split_and!.
    + intros id. rewrite dom_insert, elem_of_union, elem_of_singleton, Hd, elem_of_app. cbn.
      rewrite list_elem_of_singleton. tauto.
    + set_solver.
    + intros x Hx. rewrite dom_insert. set_solver.
    + apply NoDup_app. split_and!; [done| |apply NoDup_singleton].
      intros id Hid%Hd. cbn. rewrite list_elem_of_singleton. intros ->.
      apply elem_of_dom in Hid as [? ?]. congruence.
    + destruct historyOnly; inv_ok; subst; [by rewrite app_nil_r|].
      apply Forall2_app; [done|]. constructor; [|constructor]. by eapply authorize_ref_Ok.
Qed.

Lemma plan_expected_Ok scope refs branches b r :
  plan_expected scope refs branches = Ok tt → ps_ExpectedTargets scope ≠ ∅ → b ∈ branches →
  pushes refs b r → ps_ExpectedTargets scope !! pb_BranchID b = Some (ref_Target r).
Proof.
  intros H Hne Hb (r0 & Hr0 & -> & _). unfold plan_expected in H. rewrite bool_decide_false in H by done.
  inv_ok. rewrite Forall_forall in H. specialize (H b Hb). cbn zeta in H. inv_ok. bools.
  rewrite Hr0 in *. cbn in *. unfold id in *.
  destruct (ps_ExpectedTargets scope !! pb_BranchID b) as [t|]; cbn in *; [by subst|].
  discriminate.
Qed.

(** ** Properties of the plan *)

(** The intermediate results of a successful plan. *)
Lemma plan_Ok input plan :
  PlanPublication input = Ok plan →
  let repo := pi_RepoID input in let scope := pi_Scope input in
  ∃ catalog refs branches projection auth ancestry ordered st,
    indexPublicationHistory repo (sort_slice history_less (pi_History input)) (pi_Accepted input) = Ok catalog ∧
    fold_each (plan_ref repo) (pi_Refs input) ∅ = Ok refs ∧
    plan_expected scope refs branches = Ok tt ∧
    fold_each (authorize repo (ps_HistoryOnly scope) (sort_slice history_less (pi_History input)) projection refs)
      branches (MkAuthority [] ∅ []) = Ok auth ∧
    order catalog repo (Some (dom (as_names auth))) ancestry = Ok ordered ∧
    m_fold (λ _ e, visit catalog (dom (as_names auth)) (size (pc_byID catalog)) (ev_ID e)) ordered tt
      (MkVisit ∅ ∅ ∅) = (Ok tt, st) ∧
    plan_payload ordered st = Ok (pp_HistoryToSend plan) ∧
    pp_Authority plan = sort_slice branch_less (as_authority auth) ∧
    pp_RefsToPush plan = sort_slice ref_less (as_refs auth) ∧
    pp_SnapshotRoots plan = sort_slice str_lt (elements (list_to_set
      ((ref_Target <$> pp_RefsToPush plan) ++ concat (event_roots <$> pp_HistoryToSend plan)) : gset string)).
Proof.
  intros H repo scope. unfold PlanPublication in H.
  apply bind_Ok in H as ([] & _ & H). apply bind_Ok in H as ([] & _ & H). apply bind_Ok in H as ([] & _ & H).
  apply bind_Ok in H as (catalog & Hcat & H). apply bind_Ok in H as (refs & Hrefs & H).
  apply bind_Ok in H as (branches & _ & H). apply bind_Ok in H as ([] & _ & H).
  apply bind_Ok in H as ([] & Hexp & H). apply bind_Ok in H as (projection & _ & H).
  apply bind_Ok in H as (auth & Hauth & H). apply bind_Ok in H as (ancestry & _ & H).
  apply bind_Ok in H as (ordered & Hord & H). cbn zeta in H.
  destruct (m_fold _ ordered tt _) as [visited st] eqn:Hvisit.
  apply bind_Ok in H as ([] & -> & H). apply bind_Ok in H as (history & Hpay & H).
  injection H as <-. exists catalog, refs, branches, projection, auth, ancestry, ordered, st. done.
Qed.

(** The ordered events, as the payload needs them. *)
Lemma ordered_ready repo events accepted catalog allowed ancestry ordered st :
  catalog_of repo events accepted catalog → order catalog repo (Some allowed) ancestry = Ok ordered →
  visit_inv catalog allowed st →
  (∀ id e, pc_byID catalog !! id = Some e → ev_ID e = id) ∧
  (∀ e, e ∈ ordered ↔ e ∈ pc_pending catalog ∧ ev_BranchID e ∈ allowed) ∧
  (∀ e, e ∈ ordered → pc_byID catalog !! ev_ID e = Some e) ∧
  NoDup (ev_ID <$> ordered) ∧
  (∀ id e, vs_send st !! id = Some e → ev_Kind e = "publish" → e ∈ ordered).
Proof.
  intros Hc Hord Hinv.
  pose proof (order_Permutation _ _ _ _ _ (NoDup_fmap_1 _ _ (catalog_pending_NoDup _ _ _ _ Hc)) Hord) as Hperm.
  assert (∀ e, e ∈ ordered ↔ e ∈ pc_pending catalog ∧ ev_BranchID e ∈ allowed) as Hmem.
  { intros e. rewrite Hperm, list_elem_of_filter. cbn. rewrite bool_decide_eq_true. tauto. }
  split_and!; [by intros id e [_ ?]%(catalog_lookup _ _ _ _ Hc)|done|..].
  - intros e [[? _]%(catalog_pending _ _ _ _ Hc) _]%Hmem. apply (catalog_lookup _ _ _ _ Hc). set_solver.
  - rewrite Hperm. eapply sublist_NoDup; [apply (catalog_pending_NoDup _ _ _ _ Hc)|].
    apply fmap_sublist, (sublist_filter (λ e, is_selected _ (ev_BranchID e) = true)).
  - intros id e He Hk. destruct Hinv as (_ & _ & Hs). destruct (Hs _ _ He) as [(Hb & Hna & Hex) _].
    apply Hmem. apply (catalog_lookup _ _ _ _ Hc) in Hb as [Hin <-]. split.
    + apply (catalog_pending _ _ _ _ Hc). split; [|done]. apply elem_of_app in Hin as [Hin|?]; [|done].
      destruct Hna. apply (catalog_accepted _ _ _ _ Hc). by apply list_elem_of_fmap_2.
    + apply exceeds_authority_false in Hex as [_ [?|[?|?]]]; [done|congruence..].
Qed.

Lemma catalog_ids repo events accepted catalog :
  catalog_of repo events accepted catalog → ∀ e, e ∈ pc_all catalog → ev_ID e ≠ "".
Proof.
  intros Hc e He%(catalog_all _ _ _ _ Hc). by apply ValidateHistoryEvent_id, (catalog_valid _ _ _ _ Hc e He).
Qed.

(** What holds of the closure a successful plan sends. *)
Lemma plan_closure input plan :
  PlanPublication input = Ok plan →
  ∃ catalog allowed st, catalog_of (pi_RepoID input) (sort_slice history_less (pi_History input))
      (pi_Accepted input) catalog ∧
    (∀ id, id ∈ allowed ↔ id ∈ pb_BranchID <$> pp_Authority plan) ∧
    visit_inv catalog allowed st ∧
    (∀ e, e ∈ pc_pending catalog → ev_BranchID e ∈ allowed → vs_send st !! ev_ID e = Some e) ∧
    (∀ e, e ∈ pp_HistoryToSend plan ↔ vs_send st !! ev_ID e = Some e) ∧
    NoDup (ev_ID <$> pp_HistoryToSend plan) ∧
    (∀ l1 e l2, pp_HistoryToSend plan = l1 ++ e :: l2 →
       (∀ p, p ∈ default ∅ (vs_edges st !! ev_ID e) → p ∈ pc_accepted catalog ∨ p ∈ ev_ID <$> l1) ∧
       (ev_Kind e = "publish" → ∀ x, x ∈ l2 → ev_Kind x = "publish")).
Proof.
  intros (catalog & refs & branches & projection & auth & ancestry & ordered & st & Hcat & _ & _ &
    Hauth & Hord & Hvisit & Hpay & Ha & _)%plan_Ok.
  pose proof (indexPublicationHistory_spec _ _ _ _ Hcat) as Hc.
  destruct (authorize_fold _ _ _ _ _ _ _ Hauth) as (Hdom & _).
  destruct (visit_all_Ok _ _ (catalog_ids _ _ _ _ Hc) _ _ _ Hvisit) as [_ Hst].
  destruct (Hst eq_refl) as [Hinv Hsat].
  destruct (ordered_ready _ _ _ _ _ _ _ _ Hc Hord Hinv) as (Hkey & Hmem & Hknown & Hnd & Hpub).
  exists catalog, (dom (as_names auth)), st. split; [done|]. split.
  { intros id. rewrite Hdom, Ha. by rewrite sort_slice_Permutation. }
  split; [done|]. split; [|by apply (plan_payload_spec catalog (dom (as_names auth)) ordered st)].
  intros e He Hal. assert (e ∈ ordered) as Ho by (by apply Hmem). destruct (Hsat e Ho) as [Hacc|Hs].
  - apply (catalog_pending _ _ _ _ Hc) in He as [_ ?]. done.
  - apply elem_of_dom in Hs as [x Hx]. destruct Hinv as (_ & _ & Hs). destruct (Hs _ _ Hx) as [(Hb & _) _].
    rewrite (Hknown e Ho) in Hb. congruence.
Qed.

(** What [origin_witness] says of an event of the catalog. *)
Lemma origin_witness_known repo events accepted catalog id origin w : catalog_of repo events accepted catalog → w ∈ pc_all catalog →
  origin_witness catalog id origin w = true →
  ev_BranchID w = gc_OriginBranchID origin ∧
  (ev_Branch w = gc_OriginBranch origin ∨ (ev_Kind w = "rename" ∧ ev_PreviousBranch w = gc_OriginBranch origin)) ∧
  (ev_Kind w = "publish" → w ∈ accepted).
Proof.
  intros Hc Hall. unfold origin_witness. rewrite !andb_true_iff, orb_true_iff, andb_true_iff, negb_true_iff. intros [[[Hp%andb_false_iff _] Hb] Hn].
  rewrite !bool_decide_eq_true in Hb, Hn. split; [done|].
  split; [destruct Hn as [?|[?%bool_decide_eq_true ?%bool_decide_eq_true]]; [by left|by right]|]. intros Hk. destruct Hp as [Hp|Hp]; [by rewrite Hk in Hp|]. apply bool_decide_eq_false in Hp.
  destruct (decide (ev_ID w ∈ pc_accepted catalog)) as [(x & E & Hx)%(catalog_accepted _ _ _ _ Hc)%list_elem_of_fmap|]; [|done].
  assert (Some w = Some x) as [= ->]; [|done].
  rewrite <- (proj2 (catalog_lookup _ _ _ _ Hc (ev_ID w) w)) by (split; [by apply (catalog_all _ _ _ _ Hc)|done]).
  apply (catalog_lookup _ _ _ _ Hc). split; [set_solver|done].
Qed.

(** C1: authority confinement: every event of the payload is a local event the server
    has not accepted, never a server receipt, and belongs to an authorized branch
    identity unless it is a position or attach observation. *)
Theorem plan_within_authority (input : PublicationPlanInput) (plan : PublicationPlan) (e : HistoryEvent) :
  PlanPublication input = Ok plan → e ∈ pp_HistoryToSend plan →
  e ∈ pi_History input ∧ ev_ID e ∉ ev_ID <$> pi_Accepted input ∧ ev_Kind e ≠ "pr-merge" ∧
  ValidateHistoryEvent e = Ok tt ∧ ev_RepoID e = pi_RepoID input ∧
  (ev_BranchID e ∈ pb_BranchID <$> pp_Authority plan ∨ ev_Kind e = "position" ∨ ev_Kind e = "attach").
Proof.
  intros (catalog & allowed & st & Hc & Hal & (_ & _ & Hs) & _ & Hin & _)%plan_closure He%Hin.
  destruct (Hs _ _ He) as [(Hb & Hna & Hex) _]. rewrite (catalog_accepted _ _ _ _ Hc) in Hna.
  apply (catalog_lookup _ _ _ _ Hc) in Hb as [Hmem _].
  destruct (catalog_valid _ _ _ _ Hc e Hmem) as [Hv Hrepo].
  apply exceeds_authority_false in Hex as [Hpr Hauth]. rewrite <-Hal. split_and!; try done.
  apply elem_of_app in Hmem as [Hm|Hm]; [by destruct Hna; apply list_elem_of_fmap_2|].
  by rewrite elem_of_sort_slice in Hm.
Qed.

(** C2: the payload is causally closed and ordered: it holds each event once; every
    history dependency of an event is accepted by the server or sent earlier; an exact
    ordinary proof of a completion is itself an event the server accepted or one sent
    earlier; so is, for a recorded creation origin that needs one, an event of the origin's
    identity under the origin's branch name, or its renaming from that name, and not a
    completion unless the server accepted it; and no ordinary event follows a completion. *)
Theorem plan_causally_ordered (input : PublicationPlanInput) (plan : PublicationPlan) :
  PlanPublication input = Ok plan →
  NoDup (ev_ID <$> pp_HistoryToSend plan) ∧
  ∀ l1 e l2, pp_HistoryToSend plan = l1 ++ e :: l2 →
    let known x := x ∈ pi_Accepted input ∨ x ∈ l1 in
    (∀ d, d ∈ HistoryDependencies e → ∃ x, known x ∧ ev_ID x = d) ∧
    (ev_Kind e = "publish" → ∃ proof, known proof ∧ publicationProof e proof = true) ∧
    (∀ origin, witnessed_origin e = Some origin →
       ∃ w, known w ∧ ev_BranchID w = gc_OriginBranchID origin ∧
         (ev_Branch w = gc_OriginBranch origin ∨ (ev_Kind w = "rename" ∧ ev_PreviousBranch w = gc_OriginBranch origin)) ∧
         (ev_Kind w = "publish" → w ∈ pi_Accepted input)) ∧
    (ev_Kind e = "publish" → ∀ x, x ∈ l2 → ev_Kind x = "publish").
Proof.
  intros (catalog & allowed & st & Hc & _ & (_ & _ & Hs) & _ & Hin & Hnd & Hpos)%plan_closure.
  split; [done|]. intros l1 e l2 Heq known. destruct (Hpos _ _ _ Heq) as [Hdeps Hord].
  assert (vs_send st !! ev_ID e = Some e) as He by (apply Hin; rewrite Heq; set_solver).
  destruct (Hs _ _ He) as (_ & deps & Hde & (Hj1 & Hj2 & Hj3) & _).
  assert (∀ p, p ∈ deps → ∃ x, known x ∧ ev_ID x = p ∧ pc_byID catalog !! p = Some x) as Hav.
  { intros p Hp. rewrite Hde in Hdeps. apply Hdeps in Hp as [(x & -> & Hx)%(catalog_accepted _ _ _ _ Hc)%list_elem_of_fmap|(x & -> & Hx)%list_elem_of_fmap].
    - exists x. split; [by left|]. split; [done|]. apply (catalog_lookup _ _ _ _ Hc). split; [set_solver|done].
    - exists x. split; [by right|]. split; [done|]. apply (Hs _ x). apply Hin. rewrite Heq. set_solver. }
  assert (∀ w, w ∈ pc_all catalog → ev_ID w ∈ deps → known w) as Hknown.
  { intros w Hw%(catalog_all _ _ _ _ Hc) (x & Hx & _ & Hb)%Hav.
    assert (pc_byID catalog !! ev_ID w = Some w) by (by apply (catalog_lookup _ _ _ _ Hc)). congruence. }
  split_and!; [|intros Hk| |done].
  - intros d Hd. destruct (Hav d) as (x & ? & ? & _); eauto.
  - destruct (Hj3 Hk) as (proof & ? & ? & ?). eauto.
  - intros origin Ho. destruct (Hj2 origin Ho) as (w & Hall & Hw & Hd). exists w. pose proof (Hknown w Hall Hd) as Hkw.
    destruct (origin_witness_known _ _ _ _ _ _ _ Hc Hall Hw) as (? & ? & ?). by split_and!.
Qed.

(** C5: the payload is complete for its authority: every local event of an authorized
    identity that the server has not accepted is sent. *)
Theorem plan_complete (input : PublicationPlanInput) (plan : PublicationPlan) (e : HistoryEvent) :
  PlanPublication input = Ok plan → e ∈ pi_History input → ev_ID e ∉ ev_ID <$> pi_Accepted input →
  ev_BranchID e ∈ pb_BranchID <$> pp_Authority plan → e ∈ pp_HistoryToSend plan.
Proof.
  intros (catalog & allowed & st & Hc & Hal & _ & Hall & Hin & _)%plan_closure He Hna Hauth.
  apply Hin, Hall; [|by apply Hal]. apply (catalog_pending _ _ _ _ Hc).
  rewrite elem_of_sort_slice, (catalog_accepted _ _ _ _ Hc). done.
Qed.

(** Refs are pushed only on behalf of authorized branches: each is a ref of the input
    with the branch's name, carrying the branch's identity, a real target, and, for a
    deferred push, exactly the captured target; a history-only scope pushes no ref. *)
Theorem plan_refs_authorized (input : PublicationPlanInput) (plan : PublicationPlan) (r : Ref) :
  PlanPublication input = Ok plan → r ∈ pp_RefsToPush plan →
  ps_HistoryOnly (pi_Scope input) = false ∧
  ∃ b r0, b ∈ pp_Authority plan ∧ r0 ∈ pi_Refs input ∧
    ref_Kind r0 = RefBranch ∧ ref_RepoID r0 = pi_RepoID input ∧ ref_Name r0 = pb_Branch b ∧
    r = with_branch_id r0 (pb_BranchID b) ∧ (ref_BranchID r0 = "" ∨ ref_BranchID r0 = pb_BranchID b) ∧
    ref_Symbolic r = "" ∧ ValidateContentHash (ref_Target r) = Ok tt ∧
    (ps_ExpectedTargets (pi_Scope input) ≠ ∅ →
     ps_ExpectedTargets (pi_Scope input) !! pb_BranchID b = Some (ref_Target r)).
Proof.
  intros (catalog & refs & branches & projection & auth & ancestry & ordered & st & _ & Hrefs & Hexp &
    Hauth & _ & _ & _ & Ha & Hr & _)%plan_Ok Hin. rewrite Hr, elem_of_sort_slice in Hin.
  destruct (authorize_fold _ _ _ _ _ _ _ Hauth) as (_ & Hsub & _ & _ & Hpush).
  destruct (ps_HistoryOnly (pi_Scope input)); [rewrite Hpush in Hin; set_solver|]. split; [done|].
  apply list_elem_of_lookup in Hin as [i Hi]. destruct (Forall2_lookup_r _ _ _ _ _ Hpush Hi) as (b & Hb & Hp).
  apply list_elem_of_lookup_2 in Hb. pose proof (plan_expected_Ok _ _ _ b r Hexp) as Ht.
  destruct Hp as (r0 & Hr0 & -> & Hid & Hsym & Hval).
  destruct (plan_refs_spec _ _ _ Hrefs _ _ Hr0) as (? & ? & ? & ?).
  exists b, r0. rewrite Ha, elem_of_sort_slice. split_and!; try done.
  intros Hne. apply Ht; [done|auto|]. exists r0. done.
Qed.

(** The snapshot roots are exactly the targets of the pushed refs and the nonempty
    source, target, shared and memory snapshots of the sent events, in increasing order. *)
Theorem plan_roots_exact (input : PublicationPlanInput) (plan : PublicationPlan) :
  PlanPublication input = Ok plan →
  Sorted (not_after str_lt) (pp_SnapshotRoots plan) ∧ NoDup (pp_SnapshotRoots plan) ∧
  ∀ id, id ∈ pp_SnapshotRoots plan ↔
    (∃ r, r ∈ pp_RefsToPush plan ∧ id = ref_Target r) ∨
    (∃ e, e ∈ pp_HistoryToSend plan ∧ id ≠ "" ∧
       (id = ev_Source e ∨ id = ev_Target e ∨ id = ev_SharedTarget e ∨ id = ev_MemorySource e)).
Proof.
  intros (catalog & refs & branches & projection & auth & ancestry & ordered & st & _ & _ & _ &
    _ & _ & _ & _ & _ & _ & ->)%plan_Ok.
  split; [apply sort_slice_Sorted, str_lt_asym|split; [rewrite sort_slice_Permutation; apply NoDup_elements|]].
  intros id. rewrite elem_of_sort_slice, elem_of_elements, elem_of_list_to_set, elem_of_app, list_elem_of_fmap.
  f_equiv; [naive_solver|]. rewrite elem_of_concat. unfold event_roots.
  setoid_rewrite list_elem_of_fmap. split.
  - intros (l & Hid & e & -> & He). exists e. split; [done|].
    apply list_elem_of_filter in Hid as [? Hid]. split; [done|]. set_solver.
  - intros (e & He & Hne & Hid). eexists. split; [|by exists e]. apply list_elem_of_filter. set_solver.
Qed.

(** ** Termination of the plan *)

Lemma localIdentity_total repo events r : no_fuel_error (localIdentity repo events r).
Proof. unfold localIdentity. auto 10 with total. Qed.

Lemma authorize_total repo historyOnly events projection refs st b :
  no_fuel_error (authorize repo historyOnly events projection refs st b).
Proof. unfold authorize, authorize_ref. pose proof localIdentity_total. auto 30 with total. Qed.

Lemma plan_prefix_total input events refs : no_fuel_error (plan_branches input events refs).
Proof. unfold plan_branches. pose proof localIdentity_total. auto 20 with total. Qed.

(** Planning always ends: neither the recursive closure of dependencies, nor the
    ancestry walk, nor either of the sorting loops ever exhausts its bound. *)
Theorem plan_terminates (input : PublicationPlanInput) : PlanPublication input ≠ Err ErrOutOfFuel.
Proof.
  fold (no_fuel_error (PlanPublication input)). unfold PlanPublication.
  do 3 (apply total_bind; [by auto with total|]; intros []).
  apply total_bind_eq; [by auto with total|]. intros catalog Hcat.
  apply total_bind; [unfold plan_ref; by auto 20 with total|]. intros refs.
  apply total_bind; [apply plan_prefix_total|]. intros branches.
  apply total_bind; [by auto with total|]. intros [].
  apply total_bind; [unfold plan_expected; by auto 20 with total|]. intros [].
  apply total_bind; [by auto with total|]. intros projection.
  apply total_bind; [apply total_fold_each, authorize_total|]. intros auth.
  apply total_bind; [by auto with total|]. intros ancestry.
  apply total_bind_eq; [by auto with total|]. intros ordered Hord.
  apply indexPublicationHistory_spec in Hcat as Hc.
  destruct (m_fold _ ordered tt _) as [visited st] eqn:Hvisit.
  destruct (visit_all_Ok _ _ (catalog_ids _ _ _ _ Hc) _ _ _ Hvisit) as [Hnf Hst].
  apply total_bind_eq; [done|]. intros [] Hv. destruct (Hst Hv) as [Hinv _].
  destruct (ordered_ready _ _ _ _ _ _ _ _ Hc Hord Hinv) as (Hkey & _ & Hknown & Hnd & Hpub).
  apply total_bind; [|done].
  by apply (plan_payload_total catalog (dom (as_names auth))).
Qed.

(** ** Witnesses *)

Module PlanSamples.
Import HistorySamples AncestrySamples.
Definition main := MkPublicationBranch "main" "b-1".
Definition birth := event id1 "b-1" "main" "birth" "" 1.
Definition other := event id2 "b-2" "topic" "birth" "" 2.
Definition position := observation id3 "b-1" "main" "position" c git1 3.
Definition older := observation id4 "b-1" "main" "publish" a git1 4.
Definition old_proof := observation id5 "b-1" "main" "position" a git1 6.
Definition newer := observation id6 "b-1" "main" "publish" c git1 5.
Definition tip := MkRef "b-1" RefBranch "main" repo c "".
(** A deferred push of [main]; the birth is already accepted and [topic] is unrelated. *)
Definition input := MkPlanInput repo 1 ""
  (MkScope [main] false {[ "b-1" := c ]}) [tip]
  [newer; older; position; other; birth; old_proof] [birth] AncestrySamples.snapshots.
Definition plan := MkPlan [main] [position; old_proof; newer; older] [tip] (sort_slice str_lt [a; c]).
Lemma planned : PlanPublication input = Ok plan.
Proof. compute_decision. Qed.
End PlanSamples.

Lemma plan_within_authority_witness :
  PlanSamples.newer ∈ pi_History PlanSamples.input ∧
  ev_BranchID PlanSamples.newer ∈ pb_BranchID <$> pp_Authority PlanSamples.plan.
Proof.
  destruct (plan_within_authority _ _ PlanSamples.newer PlanSamples.planned) as (Hin & _ & _ & _ & _ & Hauth).
  - right; right; left.
  - split; [exact Hin|]. destruct Hauth as [H|[H|H]]; [exact H|discriminate H|discriminate H].
Defined.

Lemma plan_causally_ordered_witness :
  PlanPublication PlanSamples.input = Ok PlanSamples.plan ∧
  ∀ x, x ∈ [PlanSamples.older] → ev_Kind x = "publish".
Proof.
  split; [exact PlanSamples.planned|].
  destruct (plan_causally_ordered _ _ PlanSamples.planned) as [_ Hpos].
  destruct (Hpos [PlanSamples.position; PlanSamples.old_proof] PlanSamples.newer [PlanSamples.older] eq_refl)
    as (_ & _ & _ & H). exact (H eq_refl).
Defined.

Lemma plan_complete_witness : PlanSamples.position ∈ pp_HistoryToSend PlanSamples.plan.
Proof.
  apply (plan_complete _ _ _ PlanSamples.planned); [right; right; left|compute_decision|left].
Defined.

Lemma plan_refs_authorized_witness :
  ps_ExpectedTargets (pi_Scope PlanSamples.input) !! "b-1" = Some (ref_Target PlanSamples.tip).
Proof.
  destruct (plan_refs_authorized _ _ PlanSamples.tip PlanSamples.planned) as
    (_ & b & r0 & Hb & _ & _ & _ & _ & _ & _ & _ & _ & Ht); [left|].
  apply list_elem_of_singleton in Hb as ->. apply Ht. compute_decision.
Defined.

Lemma plan_roots_exact_witness : NoDup (pp_SnapshotRoots PlanSamples.plan).
Proof. exact (proj1 (proj2 (plan_roots_exact _ _ PlanSamples.planned))). Defined.
