(* ===== verification/Tracking.v ===== *)
(** * Tracking a server branch

    Models [cli/internal/domain/tracking.go]: whether an observed server branch is
    compatible with local history, the proof retained with an attachment, and its
    validation. *)
From S2P Require Import Prelude GoStrings Sha256 Values History TopoSort HistoryOrder ContextBranch.
From S2P Require Import BranchFrame.
From Stdlib Require Import Ascii.

(** [identity := ref.BranchID; if identity == "" { identity = Legacy... }] *)
Definition ref_identity (ref : Ref) : string :=
  if ref_BranchID ref =? "" then LegacyContextBranchID (ref_RepoID ref) (ref_Name ref)
  else ref_BranchID ref.

(** [pin{code, target, memory, owner}] *)
Notation pin := (string * string * string * string)%type.

(** Owners are consulted only when supplied ([nil] keeps the recorded field). *)
Definition pinOf (owners : option (gmap string string)) (e : HistoryEvent) : result pin :=
  match owners with
  | Some owners =>
      if ev_MemoryHash e <>? "" then
        let owner := default "" (owners !! ev_MemoryHash e) in
        reject_if (negb (is_ok (ValidateContentHash owner)) ||
                   ((ev_MemorySource e <>? "") && (ev_MemorySource e <>? owner)) ||
                   ((owner <>? ev_Source e) && (owner <>? ev_Target e) && (owner <>? ev_MemorySource e)))
          ErrHashMismatch ;;
        Ok (ev_GitAfter e, ev_Target e, ev_MemoryHash e, owner)
      else Ok (ev_GitAfter e, ev_Target e, ev_MemoryHash e, ev_MemorySource e)
  | None => Ok (ev_GitAfter e, ev_Target e, ev_MemoryHash e, ev_MemorySource e)
  end.

Definition check_event (repo : string) (e : HistoryEvent) : result unit :=
  ValidateHistoryEvent e ;;
  reject_if (ev_RepoID e <>? repo) ErrHashMismatch.

(** The server's pin observations of an identity. *)
Definition pins_identity (identity : string) (e : HistoryEvent) : bool :=
  (ev_BranchID e =? identity) && ev_MemoryPinned e && (ev_Kind e <>? "publish") && (ev_Kind e <>? "pr-merge").

Definition known_pin (owners : option (gmap string string)) (identity : string) (pins : gset pin)
    (e : HistoryEvent) : result (gset pin) :=
  if pins_identity identity e then
    p ← pinOf owners e;
    Ok ({[p]} ∪ pins)
  else Ok pins.

(** A local selection of the identity that is not lifecycle and not a completion. *)
Definition local_selection (identity : string) (e : HistoryEvent) : bool :=
  negb ((ev_BranchID e <>? identity) || IsBranchBindingEvent e || (ev_Kind e =? "publish")).

Definition check_local (owners : option (gmap string string)) (identity : string) (known : gset string)
    (pins : gset pin) (e : HistoryEvent) : result unit :=
  if negb (local_selection identity e) then Ok tt
  else if bool_decide (ev_ID e ∈ known) then Ok tt
  else
    p ← pinOf owners e;
    reject_if (negb (ev_MemoryPinned e) || bool_decide (p ∉ pins)) ErrSyncConflict.

Definition TrackingHistoryWithMemoryOwners (ref : Ref) (remote local : list HistoryEvent)
    (owners : option (gmap string string)) : result (list HistoryEvent) :=
  ValidateRef ref ;;
  reject_if ((ref_Kind ref <>? RefBranch) || (ref_Target ref =? "") || (ref_Symbolic ref <>? "")) ErrInvalidRef ;;
  for_each (check_event (ref_RepoID ref)) remote ;;
  for_each (check_event (ref_RepoID ref)) local ;;
  ordered ← or_else (OrderHistoryEvents remote) ErrSyncConflict;
  observed ← or_else (ProjectContextBranches ordered) ErrSyncConflict;
  let identity := ref_identity ref in
  let active := Active observed !! ref_Name ref in
  let modern := bool_decide (is_Some active) in
  reject_if (modern && (default "" (cb_ID <$> active) <>? identity)) ErrSyncConflict ;;
  reject_if (negb modern && ((released observed (ref_Name ref) <>? "") ||
               (identity <>? LegacyContextBranchID (ref_RepoID ref) (ref_Name ref)))) ErrSyncConflict ;;
  combined ← or_else (OrderHistoryEvents (ordered ++ local)) ErrSyncConflict;
  merged ← or_else (ProjectContextBranches combined) ErrSyncConflict;
  let current := Active merged !! ref_Name ref in
  let activeNow := bool_decide (is_Some current) in
  reject_if ((modern && (negb activeNow || (default "" (cb_ID <$> current) <>? identity))) ||
             (negb modern && ((Identity merged (ref_RepoID ref) (ref_Name ref) <>? identity) ||
                              (released merged (ref_Name ref) <>? "")))) ErrSyncConflict ;;
  pins ← fold_each (known_pin owners identity) ordered ∅;
  for_each (check_local owners identity (list_to_set (ev_ID <$> ordered)) pins) local ;;
  Ok ordered.

Definition TrackingHistory (ref : Ref) (remote local : list HistoryEvent) : result (list HistoryEvent) :=
  TrackingHistoryWithMemoryOwners ref remote local None.

(** ** Retained proofs *)

Record TrackingAttachment := MkTrackingAttachment {
  ta_Event : HistoryEvent;
  ta_ObservedRef : Ref;
  ta_Proof : list HistoryEvent;
  ta_Code : string;
  ta_Rewound : bool;
}.

Section closure.
Context (byID : gmap string HistoryEvent).

(** One dependency of the popped event; the queue's head is the slice's end. *)
Definition want_dependency (st : gset string * list string) (dep : string)
    : result (gset string * list string) :=
  let (wanted, queue) := st in
  if (dep <>? "") && bool_decide (dep ∉ wanted) then
    match byID !! dep with
    | None => Err ErrHashMismatch
    | Some _ => Ok ({[dep]} ∪ wanted, dep :: queue)
    end
  else Ok st.

Definition popped_dependencies (id : string) : list string :=
  match byID !! id with Some e => HistoryDependencies e | None => [] end.

Fixpoint closure_loop (fuel : nat) (wanted : gset string) (queue : list string) : result (gset string) :=
  match queue with
  | [] => Ok wanted
  | id :: queue =>
      match fuel with
      | O => Err ErrOutOfFuel
      | S fuel =>
          st ← fold_each want_dependency (popped_dependencies id) (wanted, queue);
          closure_loop fuel st.1 st.2
      end
  end.
End closure.

Definition history_by_id (ordered : list HistoryEvent) : gmap string HistoryEvent :=
  foldl (λ m e, <[ev_ID e := e]> m) ∅ ordered.

Definition trackingHistoryClosure (ordered : list HistoryEvent) (wanted : gset string)
    : result (list HistoryEvent) :=
  let byID := history_by_id ordered in
  wanted ← closure_loop byID (size wanted + size byID) wanted (elements wanted);
  Ok (filter (λ e, ev_ID e ∈ wanted) ordered).

(** A completed pull request of the identity at the selected code and context. *)
Definition selected_receipt (identity code target : string) (e : HistoryEvent) : option PullRequestMerge :=
  match ev_PR e with
  | Some pr =>
      if (ev_BranchID e <>? identity) || (ev_Kind e <>? "pr-merge") || negb (ev_PRCompleted e) ||
         (pr_MergeSHA pr <>? code) || (ev_Source e <>? target) then None
      else Some pr
  | None => None
  end.

(** [e.ID] is listed in [sources\[key\]]. *)
Definition sources_at (ordered : list HistoryEvent) (key : string * string * string) : list string :=
  ev_ID <$> filter (λ e, IsPinnedContextEvent e = true ∧ (ev_BranchID e, ev_GitAfter e, ev_Target e) = key) ordered.

Definition want_receipt (ordered : list HistoryEvent) (identity code target : string) (wanted : gset string)
    (e : HistoryEvent) : gset string :=
  match selected_receipt identity code target e with
  | Some pr => wanted ∪ list_to_set (sources_at ordered (ev_SourceBranchID e, pr_HeadSHA pr, ev_Source e))
  | None => wanted
  end.

Definition tracking_wanted (ordered : list HistoryEvent) (identity code target : string) : gset string :=
  foldl (want_receipt ordered identity code target)
    (list_to_set (ev_ID <$> filter (λ e, ev_BranchID e = identity) ordered)) ordered.

Definition TrackingProof (ref : Ref) (events : list HistoryEvent) (code target : string)
    : result (list HistoryEvent) :=
  ordered ← TrackingHistory ref events [];
  trackingHistoryClosure ordered (tracking_wanted ordered (ref_identity ref) code target).

Definition AppliedTrackingProof (a : TrackingAttachment) : result (list HistoryEvent) :=
  ordered ← OrderHistoryEvents (ta_Proof a);
  trackingHistoryClosure ordered
    (list_to_set (ev_ID <$> filter (λ e, ev_BranchID e = ev_BranchID (ta_Event a)) ordered)).

(** ** Validating an attachment *)

(** [matches]: the witness selects the attached context and memory. *)
Definition pin_matches (e p : HistoryEvent) : bool :=
  if negb (ev_MemoryPinned p) || (ev_Target p <>? ev_Target e) || (ev_MemoryHash p <>? ev_MemoryHash e) then false
  else if (ev_MemorySource p =? ev_MemorySource e) ||
          ((ev_MemorySource p =? "") && (ev_Source p =? ev_MemorySource e)) then true
  else (ev_MemoryHash e <>? "") &&
       (((ev_MemorySource p =? "") && (ev_MemorySource e =? ev_Target e)) ||
        ((ev_MemorySource p =? ev_Target p) && (ev_MemorySource e =? ""))).

Definition exact_pin (e p : HistoryEvent) : bool := IsPinnedContextEvent p && pin_matches e p.

(** A receipt whose source pin is among the proof. *)
Definition receipt_proves (a : TrackingAttachment) (identity : string) (receipt : HistoryEvent) : bool :=
  match ev_PR receipt with
  | Some pr =>
      (ev_Kind receipt =? "pr-merge") && ev_PRCompleted receipt && (ev_BranchID receipt =? identity) &&
      (pr_MergeSHA pr =? ta_Code a) && (ev_Source receipt =? ev_Target (ta_Event a)) &&
      existsb (λ p, exact_pin (ta_Event a) p && (ev_BranchID p =? ev_SourceBranchID receipt) &&
                    (ev_GitAfter p =? pr_HeadSHA pr)) (ta_Proof a)
  | None => false
  end.

Definition attachment_mismatch (a : TrackingAttachment) : bool :=
  let e := ta_Event a in
  let r := ta_ObservedRef a in
  (ev_Kind e <>? "attach") || negb (ev_MemoryPinned e) || (ev_Source e =? "") || (ev_Source e <>? ev_Target e) ||
  (ev_SharedTarget e <>? ref_Target r) || (ev_BranchID e <>? ref_identity r) || (ev_Branch e <>? ref_Name r) ||
  (ev_RepoID e <>? ref_RepoID r) || (ref_Kind r <>? RefBranch) || negb (ValidGitOID (ta_Code a)) ||
  ((ev_Target e =? ref_Target r) && ta_Rewound a).

Definition ValidateTrackingAttachment (a : TrackingAttachment) : result unit :=
  let e := ta_Event a in
  let r := ta_ObservedRef a in
  ValidateHistoryEvent e ;;
  ValidateRef r ;;
  reject_if (attachment_mismatch a) ErrHashMismatch ;;
  closure ← TrackingProof r (ta_Proof a) (ta_Code a) (ev_Target e);
  ordered ← OrderHistoryEvents (ta_Proof a);
  reject_if (closure <>? ordered) ErrHashMismatch ;;
  if existsb (λ p, exact_pin e p && (ev_BranchID p =? ref_identity r) && (ev_GitAfter p =? ta_Code a)) (ta_Proof a)
  then Ok tt
  else reject_if (negb (existsb (receipt_proves a (ref_identity r)) (ta_Proof a))) ErrSyncConflict.

(** Local history without an identical copy of the attachment's own event. *)
Definition without_attachment (a : TrackingAttachment) (filtered : list HistoryEvent) (e : HistoryEvent)
    : result (list HistoryEvent) :=
  if ev_ID e =? ev_ID (ta_Event a) then
    reject_if (e <>? ta_Event a) ErrHashMismatch ;;
    Ok filtered
  else Ok (filtered ++ [e]).

Definition ValidateTrackingAttachmentCompatibilityWithMemoryOwners (local : list HistoryEvent)
    (a : TrackingAttachment) (owners : option (gmap string string)) : result unit :=
  ValidateTrackingAttachment a ;;
  filtered ← fold_each (without_attachment a) local [];
  _ ← TrackingHistoryWithMemoryOwners (ta_ObservedRef a) (ta_Proof a) filtered owners;
  Ok tt.

(** ** The closure of wanted events *)

Section closure_spec.
Context (byID : gmap string HistoryEvent).
Hypothesis closed : ∀ id e d, byID !! id = Some e → d ∈ HistoryDependencies e → is_Some (byID !! d).

Definition dependency (id d : string) : Prop := d ∈ popped_dependencies byID id.

Lemma dependency_known id d : dependency id d → is_Some (byID !! d).
Proof. unfold dependency, popped_dependencies. destruct (byID !! id) eqn:E; [eauto|set_solver]. Qed.

(** What is wanted but not yet expanded is queued. *)
Definition closure_inv (wanted0 wanted : gset string) (queue : list string) : Prop :=
  wanted0 ⊆ wanted ∧ (∀ id, id ∈ queue → id ∈ wanted) ∧
  (∀ id, id ∈ wanted → ∃ r, r ∈ wanted0 ∧ rtc dependency r id) ∧
  (∀ id, id ∈ wanted → id ∈ queue ∨ ∀ d, dependency id d → d ∈ wanted).

Definition unwanted (wanted : gset string) : nat := size (dom byID ∖ wanted).

Lemma want_dependencies_spec deps wanted queue :
  (∀ d, d ∈ deps → is_Some (byID !! d)) → (∀ d, d ∈ deps → d ≠ "") →
  ∃ added, fold_each (want_dependency byID) deps (wanted, queue) =
             Ok (list_to_set added ∪ wanted, added ++ queue) ∧
    (∀ d, d ∈ deps → d ∈ added ∨ d ∈ wanted) ∧ (∀ d, d ∈ added → d ∈ deps) ∧
    length added + unwanted (list_to_set added ∪ wanted) ≤ unwanted wanted.
Proof.
  intros Hin Hne. revert wanted queue. induction deps as [|d deps IH]; intros wanted queue.
  { exists []. cbn. split_and!; [by rewrite union_empty_l_L|set_solver|set_solver|].
    by rewrite union_empty_l_L. }
  cbn [fold_each]. unfold want_dependency at 2. rewrite (bool_decide_false (d = "")) by (apply Hne; left).
  destruct (Hin d ltac:(left)) as [e He]. rewrite He. cbn [negb andb].
  case_bool_decide as Hd; cbn [mbind result_bind].
  - destruct (IH ltac:(set_solver) ltac:(set_solver) ({[d]} ∪ wanted) (d :: queue)) as (added & -> & Hall & Hsub & Hlen).
    exists (added ++ [d]). split_and!.
    + f_equal. f_equal; [set_solver|by simplify_list_eq].
    + set_solver.
    + set_solver.
    + rewrite length_app. cbn.
      assert (list_to_set (added ++ [d]) ∪ wanted = list_to_set added ∪ ({[d]} ∪ wanted)) as -> by set_solver.
      assert (unwanted ({[d]} ∪ wanted) + 1 ≤ unwanted wanted); [|lia]. unfold unwanted.
      assert (d ∈ dom byID) as Hdom by (apply elem_of_dom; eauto).
      assert (size ({[d]} ∪ dom byID ∖ ({[d]} ∪ wanted)) ≤ size (dom byID ∖ wanted)) as Hsz
        by (apply subseteq_size; set_solver).
      rewrite size_union, size_singleton in Hsz by set_solver. lia.
  - destruct (IH ltac:(set_solver) ltac:(set_solver) wanted queue) as (added & -> & Hall & Hsub & Hlen).
    exists added. split_and!; [done|set_solver|set_solver|done].
Qed.

Lemma closure_loop_spec fuel wanted0 wanted queue :
  closure_inv wanted0 wanted queue → length queue + unwanted wanted ≤ fuel →
  ∃ out, closure_loop byID fuel wanted queue = Ok out ∧ closure_inv wanted0 out [].
Proof.
  revert wanted queue. induction fuel as [|fuel IH]; intros wanted queue Hinv Hfuel.
  { destruct queue; [by exists wanted|cbn in Hfuel; lia]. }
  destruct queue as [|id queue]; [by exists wanted|]. cbn [closure_loop].
  destruct (want_dependencies_spec (popped_dependencies byID id) wanted queue) as (added & -> & Hall & Hsub & Hlen).
  { intros d Hd. by apply (dependency_known id). }
  { unfold popped_dependencies. intros d. destruct (byID !! id); [|set_solver].
    by intros [? _]%HistoryDependencies_elem. }
  cbn [mbind result_bind fst snd]. destruct Hinv as (H1 & H2 & H3 & H4). apply IH.
  - split_and!; [set_solver|set_solver| |].
    + intros x [Hx|Hx]%elem_of_union; [|auto].
      rewrite elem_of_list_to_set in Hx. destruct (H3 id) as (r & Hr & Hrid); [set_solver|].
      exists r. split; [done|]. eapply rtc_r; [done|]. by apply Hsub.
    + intros x [Hx|Hx]%elem_of_union; [left; set_solver|].
      destruct (H4 x Hx) as [[-> |Hq]%elem_of_cons|Hd]; [right|left; set_solver|right; set_solver].
      intros d Hd. destruct (Hall d Hd); set_solver.
  - rewrite length_app. cbn in Hfuel. lia.
Qed.

(** The wanted events and everything they depend on. *)
Lemma closure_loop_total wanted :
  ∃ out, closure_loop byID (size wanted + size byID) wanted (elements wanted) = Ok out ∧
    ∀ id, id ∈ out ↔ ∃ r, r ∈ wanted ∧ rtc dependency r id.
Proof.
  destruct (closure_loop_spec (size wanted + size byID) wanted wanted (elements wanted)) as (out & -> & H1 & _ & H3 & H4).
  - split_and!; [done|set_solver| |set_solver]. intros id Hid. by exists id.
  - unfold unwanted. rewrite <-(size_dom byID).
    assert (size (dom byID ∖ wanted) ≤ size (dom byID)) by (apply subseteq_size; set_solver).
    change (length (elements wanted)) with (size wanted). lia.
  - exists out. split; [done|]. intros id. split; [by apply H3|]. intros (r & Hr%H1 & Hrtc).
    induction Hrtc as [x|x y z Hxy Hyz IH]; [done|]. apply IH. destruct (H4 x Hr) as [?|Hd]; [set_solver|auto].
Qed.
End closure_spec.

(** Two events of a list with distinct ids. *)
Lemma index_by_id ordered id e :
  NoDup (ev_ID <$> ordered) →
  history_by_id ordered !! id = Some e ↔ e ∈ ordered ∧ ev_ID e = id.
Proof.
  unfold history_by_id. induction ordered as [|x ordered IH] using rev_ind; intros Hnd; [cbn; rewrite lookup_empty; set_solver|].
  rewrite fmap_app in Hnd. apply NoDup_app in Hnd as (Hnd & Hdis & _).
  rewrite foldl_app. cbn [foldl]. rewrite lookup_insert, elem_of_app, list_elem_of_singleton.
  case_decide as Hid; [|rewrite (IH Hnd); naive_solver].
  split; [intros [= <-]; auto|]. intros [[He| ->] Heid]; [|done].
  destruct (Hdis (ev_ID e)); [by apply list_elem_of_fmap_2|]. subst id. rewrite Heid. set_solver.
Qed.

(** [x] is reached from [r] over dependencies within a history. *)
Definition depends (events : list HistoryEvent) (r x : HistoryEvent) : Prop :=
  rtc (λ a b, b ∈ events ∧ ev_ID b ∈ HistoryDependencies a) r x.

Section closure_of_order.
Context (events ordered : list HistoryEvent) (Hord : OrderHistoryEvents events = Ok ordered).

Lemma closure_events wanted :
  (∀ id, id ∈ wanted → id ∈ ev_ID <$> ordered) →
  ∃ out : gset string, trackingHistoryClosure ordered wanted = Ok (filter (λ e, ev_ID e ∈ out) ordered) ∧
    ∀ e, e ∈ ordered → ev_ID e ∈ out ↔ ∃ r, r ∈ ordered ∧ ev_ID r ∈ wanted ∧ depends ordered r e.
Proof.
  destruct (order_history_Ok _ _ Hord) as (Hnd & Hsame & Hdeps). intros Hw.
  pose proof (index_by_id ordered) as Hidx. unfold trackingHistoryClosure.
  set (byID := history_by_id ordered) in *.
  assert (∀ id e d, byID !! id = Some e → d ∈ HistoryDependencies e → ∃ x, x ∈ ordered ∧ ev_ID x = d) as Hclosed.
  { intros id e d [He _]%Hidx Hd; [|done]. apply list_elem_of_split in He as (l1 & l2 & E).
    specialize (Hdeps _ _ _ E _ Hd). apply list_elem_of_fmap in Hdeps as (x & -> & Hx).
    exists x. split; [rewrite E; set_solver|done]. }
  destruct (closure_loop_total byID) with (wanted := wanted) as (out & -> & Hout).
  { intros id e d He Hd. destruct (Hclosed _ _ _ He Hd) as (x & Hx & <-). exists x. by apply Hidx. }
  exists out. split; [done|]. intros e He. rewrite Hout.
  assert (∀ a b, a ∈ ordered → dependency byID (ev_ID a) b ↔ ∃ y, y ∈ ordered ∧ ev_ID y = b ∧ b ∈ HistoryDependencies a) as Hstep.
  { intros a b Ha. unfold dependency, popped_dependencies.
    assert (byID !! ev_ID a = Some a) as Hba by (by apply Hidx). rewrite Hba. split; [|naive_solver].
    intros Hb. destruct (Hclosed _ _ _ Hba Hb) as (y & ? & ?). eauto. }
  assert (∀ a b, a ∈ ordered → b ∈ ordered → ev_ID a = ev_ID b → a = b) as Hinj.
  { intros a b Ha Hb Hid. assert (byID !! ev_ID a = Some a) as H1 by (by apply Hidx).
    assert (byID !! ev_ID b = Some b) as H2 by (by apply Hidx). congruence. }
  split.
  - intros (id & Hid & Hrtc). destruct (list_elem_of_fmap_1 _ _ _ (Hw id Hid)) as (r & -> & Hr).
    exists r. split_and!; [done..|]. remember (ev_ID r) as i eqn:Ei. remember (ev_ID e) as j eqn:Ej.
    clear Hid. revert r Hr Ei. induction Hrtc as [|i k j Hik Hkj IH]; intros r Hr ->.
    + rewrite (Hinj r e); [apply rtc_refl|done..].
    + apply Hstep in Hik as (y & Hy & <- & Hyd); [|done].
      eapply rtc_l; [split; [exact Hy|exact Hyd]|]. by apply IH.
  - intros (r & Hr & Hrw & Hrtc). exists (ev_ID r). split; [done|].
    clear Hrw. revert Hr. induction Hrtc as [|a b c [Hb Hab] Hbc IH]; intros Ha; [apply rtc_refl|].
    eapply rtc_l; [apply Hstep; eauto|by apply IH].
Qed.
End closure_of_order.

(** ** Observing a server branch *)

(** The projected state of the observed name agrees with the server's identity. *)
Definition observed_identity (p : ContextBranchProjection) (ref : Ref) : Prop :=
  match Active p !! ref_Name ref with
  | Some b => cb_ID b = ref_identity ref
  | None => Released p !! ref_Name ref = None ∧
            ref_identity ref = LegacyContextBranchID (ref_RepoID ref) (ref_Name ref)
  end.

Definition branch_tip (ref : Ref) : Prop :=
  ValidateRef ref = Ok tt ∧ ref_Kind ref = RefBranch ∧ ref_Target ref ≠ "" ∧ ref_Symbolic ref = "".

Definition valid_for (repo : string) (e : HistoryEvent) : Prop :=
  ValidateHistoryEvent e = Ok tt ∧ ev_RepoID e = repo.

Lemma check_event_Ok repo e : check_event repo e = Ok tt ↔ valid_for repo e.
Proof.
  unfold check_event, valid_for. split.
  - intros H. inv_ok. by bools.
  - intros [-> ->]. cbn. by rewrite bool_decide_true.
Qed.

Lemma released_None events p n :
  ProjectContextBranches events = Ok p → (∀ e, e ∈ events → ev_ID e ≠ "") →
  released p n = "" ↔ Released p !! n = None.
Proof.
  intros (ordered & Hord & Hp & _)%project_at Hids. unfold released. split; [|by intros ->].
  rewrite (projects_Released _ _ Hp). destruct (last_such _ ordered) as [e|] eqn:He; [|done].
  cbn. intros Hid. apply last_such_Some in He as [He _]. destruct (order_history_Ok _ _ Hord) as (_ & Hsame & _).
  apply Hsame, list_elem_of_filter in He as [_ He]. by destruct (Hids e He).
Qed.

Lemma project_ordered events ordered :
  OrderHistoryEvents events = Ok ordered → ProjectContextBranches ordered = ProjectContextBranches events.
Proof. intros (_ & Hsame & _)%order_history_Ok. apply project_same. auto. Qed.

Lemma order_ordered events ordered :
  OrderHistoryEvents events = Ok ordered → OrderHistoryEvents ordered = Ok ordered.
Proof. intros Hord. rewrite <-Hord. destruct (order_history_Ok _ _ Hord) as (_ & Hsame & _). by apply order_history_same. Qed.

Lemma known_pins_spec owners identity ordered pins :
  fold_each (known_pin owners identity) ordered ∅ = Ok pins →
  ∀ p, p ∈ pins → ∃ r, r ∈ ordered ∧ pins_identity identity r = true ∧ pinOf owners r = Ok p.
Proof.
  apply (fold_each_invariant (known_pin owners identity) (λ pre pins, ∀ p, p ∈ pins →
    ∃ r, r ∈ pre ∧ pins_identity identity r = true ∧ pinOf owners r = Ok p)); [set_solver|].
  intros pre e s1 s2 IH _ Hstep p Hp. unfold known_pin in Hstep.
  destruct (pins_identity identity e) eqn:He; inv_ok; subst s2; [|set_solver].
  apply elem_of_union in Hp as [->%elem_of_singleton|Hp]; [|set_solver]. exists e. set_solver.
Qed.

Lemma known_pins_ok owners identity ordered pins : is_ok (fold_each (known_pin owners identity) ordered pins) = true ↔
  ∀ e, e ∈ ordered → pins_identity identity e = true → is_ok (pinOf owners e) = true.
Proof.
  revert pins. induction ordered as [|x l IH]; intros pins; cbn [fold_each]; [set_solver|].
  assert ((∃ pins', known_pin owners identity pins x = Ok pins') ↔ (pins_identity identity x = true → is_ok (pinOf owners x) = true)) as Hx.
  { unfold known_pin. destruct (pins_identity identity x), (pinOf owners x); cbn; naive_solver. }
  destruct (known_pin owners identity pins x) as [pins'|err]; cbn [mbind result_bind].
  - rewrite IH. split; [|intros H e He; apply H; by right]. intros H e [->|He]%elem_of_cons; [apply Hx; eauto|by apply H].
  - split; [done|]. intros H. destruct (proj2 Hx (H x ltac:(left))) as [? [=]].
Qed.

(** What a successful observation established. *)
Lemma tracking_history_inv ref remote local owners ordered :
  TrackingHistoryWithMemoryOwners ref remote local owners = Ok ordered →
  branch_tip ref ∧ (∀ e, e ∈ remote ++ local → valid_for (ref_RepoID ref) e) ∧
  OrderHistoryEvents remote = Ok ordered ∧
  ∃ p q pins, ProjectContextBranches remote = Ok p ∧ observed_identity p ref ∧
    is_ok (OrderHistoryEvents (remote ++ local)) = true ∧
    ProjectContextBranches (remote ++ local) = Ok q ∧ observed_identity q ref ∧
    fold_each (known_pin owners (ref_identity ref)) ordered ∅ = Ok pins ∧
    ∀ e, e ∈ local → check_local owners (ref_identity ref) (list_to_set (ev_ID <$> ordered)) pins e = Ok tt.
Proof.
  unfold TrackingHistoryWithMemoryOwners. cbn zeta. intros H. inv_ok. bools. subst a3.
  rename a4 into p, a7 into combined, a8 into q, a10 into pins.
  rewrite Forall_forall in H2, H3, H12. setoid_rewrite check_event_Ok in H2. setoid_rewrite check_event_Ok in H3.
  assert (∀ e, e ∈ remote ++ local → valid_for (ref_RepoID ref) e) as Hvalid by set_solver.
  assert (∀ e, e ∈ remote ++ local → ev_ID e ≠ "") as Hids
    by (intros e [He _]%Hvalid; by apply ValidateHistoryEvent_id).
  assert (ProjectContextBranches remote = Ok p) as Hp by (by rewrite <-(project_ordered _ _ H4)).
  assert (OrderHistoryEvents (remote ++ local) = Ok combined) as Hall.
  { rewrite <-H8. apply order_history_same. intros e. destruct (order_history_Ok _ _ H4) as (_ & Hsame & _).
    by rewrite !elem_of_app, Hsame. }
  assert (ProjectContextBranches (remote ++ local) = Ok q) as Hq by (by rewrite <-(project_ordered _ _ Hall)).
  split; [done|]. split; [done|]. split; [done|]. exists p, q, pins.
  split; [done|]. split; [|split; [by rewrite Hall|split; [done|split; [|done]]]].
  - unfold observed_identity. destruct (Active p !! ref_Name ref) as [b|] eqn:E; cbn in H6, H7; bools; [done|].
    split; [|done]. apply (released_None remote); [done|set_solver|done].
  - unfold observed_identity. destruct (Active q !! ref_Name ref) as [b|] eqn:E;
      destruct (Active p !! ref_Name ref) as [b'|] eqn:E'; cbn in H7, H10, H13; bools; try done.
    + unfold Identity in *. rewrite E in *. done.
    + split; [|done]. by apply (released_None (remote ++ local)).
Qed.

(** Observing with no local event but those observed succeeds exactly on a consistent
    observation whose pins have owners. *)
Lemma tracking_history_known ref events local owners ordered : (∀ e, e ∈ local → e ∈ events) →
  TrackingHistoryWithMemoryOwners ref events local owners = Ok ordered ↔
  branch_tip ref ∧ (∀ e, e ∈ events → valid_for (ref_RepoID ref) e) ∧
  OrderHistoryEvents events = Ok ordered ∧
  (∃ p, ProjectContextBranches events = Ok p ∧ observed_identity p ref) ∧
  ∀ e, e ∈ events → pins_identity (ref_identity ref) e = true → is_ok (pinOf owners e) = true.
Proof.
  intros Hlocal. split.
  { intros (Htip & Hv & Hord & p & _ & pins & Hp & Hobs & _ & _ & _ & Hpins & _)%tracking_history_inv.
    split_and!; [done| |done|by exists p|]; [intros e He; apply Hv; set_solver|].
    destruct (order_history_Ok _ _ Hord) as (_ & Hsame & _). setoid_rewrite <- Hsame. apply (known_pins_ok _ _ _ ∅). by rewrite Hpins. }
  intros ((Href & Hk & Ht & Hs) & Hv & Hord & (p & Hp & Hobs) & Hpins).
  assert (ProjectContextBranches ordered = Ok p) as Hpo by (by rewrite (project_ordered _ _ Hord)).
  assert (∀ l, (∀ e, e ∈ l → e ∈ events) → for_each (check_event (ref_RepoID ref)) l = Ok tt) as Hfor
    by (intros l Hl; apply for_each_Ok, Forall_forall; intros; by apply check_event_Ok, Hv, Hl).
  assert (∀ n, Released p !! n = None → released p n = "") as Hrel by (unfold released; by intros n ->).
  destruct (order_history_Ok _ _ Hord) as (_ & Hsame & _). setoid_rewrite <- Hsame in Hpins.
  assert (OrderHistoryEvents (ordered ++ local) = Ok ordered) as Hall.
  { rewrite <- Hord. apply order_history_same. intros e. rewrite elem_of_app, Hsame. naive_solver. }
  assert (∀ pins, for_each (check_local owners (ref_identity ref) (list_to_set (ev_ID <$> ordered)) pins) local = Ok tt) as Hloc.
  { intros pins. apply for_each_Ok, Forall_forall. intros e He. unfold check_local. destruct (negb _); [done|].
    rewrite bool_decide_true; [done|]. apply elem_of_list_to_set, list_elem_of_fmap_2. by apply Hsame, Hlocal. }
  unfold TrackingHistoryWithMemoryOwners. rewrite Href, Hk, Hs.
  rewrite (bool_decide_false (ref_Target ref = "")) by done. cbn -[RefBranch].
  rewrite (Hfor events) by done. cbn. rewrite (Hfor local) by done. cbn. rewrite Hord. cbn. rewrite Hpo, Hall. cbn. rewrite Hpo. cbn.
  apply (known_pins_ok _ _ _ ∅) in Hpins. apply is_ok_true in Hpins as [pins ->].
  unfold observed_identity, Identity in *.
  destruct (Active p !! ref_Name ref) as [b|]; cbn in *.
  - rewrite !bool_decide_true by done. cbn. by rewrite Hloc.
  - destruct Hobs as [Hr Hi]. rewrite <-Hi, (Hrel _ Hr). rewrite !bool_decide_true by done. cbn. by rewrite Hloc.
Qed.

(** Observing without local history succeeds exactly on a consistent observation. *)
Lemma tracking_history_iff ref events ordered :
  TrackingHistory ref events [] = Ok ordered ↔
  branch_tip ref ∧ (∀ e, e ∈ events → valid_for (ref_RepoID ref) e) ∧
  OrderHistoryEvents events = Ok ordered ∧
  ∃ p, ProjectContextBranches events = Ok p ∧ observed_identity p ref.
Proof.
  unfold TrackingHistory. rewrite tracking_history_known by (by intros e ?%elem_of_nil). naive_solver.
Qed.

(** ** The retained proof *)

(** The events a proof starts from: the identity's own, and the source pins of its
    selected completed pull requests. *)
Definition proof_root (events : list HistoryEvent) (identity code target : string) (e : HistoryEvent) : Prop :=
  ev_BranchID e = identity ∨
  ∃ receipt pr, receipt ∈ events ∧ selected_receipt identity code target receipt = Some pr ∧
    IsPinnedContextEvent e = true ∧
    (ev_BranchID e, ev_GitAfter e, ev_Target e) = (ev_SourceBranchID receipt, pr_HeadSHA pr, ev_Source receipt).

Lemma sources_at_elem ordered key id :
  id ∈ sources_at ordered key ↔ ∃ e, e ∈ ordered ∧ ev_ID e = id ∧ IsPinnedContextEvent e = true ∧
    (ev_BranchID e, ev_GitAfter e, ev_Target e) = key.
Proof.
  unfold sources_at. rewrite list_elem_of_fmap. setoid_rewrite list_elem_of_filter. naive_solver.
Qed.

Lemma tracking_wanted_elem ordered identity code target id :
  id ∈ tracking_wanted ordered identity code target ↔
  ∃ e, e ∈ ordered ∧ ev_ID e = id ∧ proof_root ordered identity code target e.
Proof.
  unfold tracking_wanted.
  assert (∀ l wanted, id ∈ foldl (want_receipt ordered identity code target) wanted l ↔
    id ∈ wanted ∨ ∃ receipt pr, receipt ∈ l ∧ selected_receipt identity code target receipt = Some pr ∧
      id ∈ sources_at ordered (ev_SourceBranchID receipt, pr_HeadSHA pr, ev_Source receipt)) as H.
  { induction l as [|x l IH]; intros wanted; cbn [foldl]; [set_solver|]. rewrite IH. unfold want_receipt.
    setoid_rewrite elem_of_cons. destruct (selected_receipt identity code target x) as [pr|] eqn:E;
      [rewrite elem_of_union, elem_of_list_to_set|]; naive_solver. }
  rewrite H, elem_of_list_to_set, list_elem_of_fmap. setoid_rewrite list_elem_of_filter.
  setoid_rewrite sources_at_elem. unfold proof_root. split.
  - intros [(e & -> & He & ?)|(r & pr & Hr & Hs & e & He & <- & ? & ?)]; exists e; [by auto|].
    split_and!; [done..|]. right. by exists r, pr.
  - intros (e & He & <- & [?|(r & pr & Hr & Hs & ? & ?)]); [by eauto|]. right. exists r, pr.
    split_and!; [done..|]. by exists e.
Qed.

Lemma tracking_proof_spec ref events code target proof :
  TrackingProof ref events code target = Ok proof →
  ∃ ordered, TrackingHistory ref events [] = Ok ordered ∧ proof = filter (λ e, e ∈ proof) ordered ∧
    ∀ e, e ∈ proof ↔ e ∈ events ∧ ∃ r, r ∈ events ∧ proof_root events (ref_identity ref) code target r ∧
      depends events r e.
Proof.
  unfold TrackingProof. intros H. inv_ok. rename a into ordered. exists ordered. split; [done|].
  destruct (proj1 (tracking_history_iff _ _ _) H0) as (_ & _ & Hord & _).
  destruct (order_history_Ok _ _ Hord) as (Hnd & Hsame & _).
  assert (∀ a b, depends ordered a b ↔ depends events a b) as Hdep.
  { intros a b. unfold depends. split; apply rtc_subrel; intros x y [? ?]; split; set_solver. }
  assert (∀ e, proof_root ordered (ref_identity ref) code target e ↔ proof_root events (ref_identity ref) code target e)
    as Hroot by (intros e; unfold proof_root; by setoid_rewrite Hsame).
  destruct (closure_events _ _ Hord (tracking_wanted ordered (ref_identity ref) code target)) as (out & Hout & Hin).
  { intros id (e & He & <- & _)%tracking_wanted_elem. by apply list_elem_of_fmap_2. }
  rewrite H in Hout. injection Hout as ->.
  assert (∀ a b, a ∈ ordered → b ∈ ordered → ev_ID a = ev_ID b → a = b) as Hinj.
  { intros a b Ha Hb Hid. apply list_elem_of_lookup in Ha as [i Hi], Hb as [j Hj].
    assert (i = j) as ->; [|congruence]. eapply NoDup_lookup; [done|by rewrite list_lookup_fmap, Hi|].
    rewrite list_lookup_fmap, Hj. cbn. congruence. }
  split; [apply filter_ext_elem; intros x Hx; rewrite list_elem_of_filter; tauto|].
  intros e. rewrite list_elem_of_filter, <-Hsame. split.
  - intros [Hid He]. split; [done|]. destruct (proj1 (Hin e He) Hid) as (r & Hr & Hw & Hd).
    apply tracking_wanted_elem in Hw as (r' & Hr' & Hid' & Hroot'). rewrite (Hinj r' r) in Hroot' by done.
    exists r. rewrite <-Hsame, <-Hroot, <-Hdep. done.
  - intros [He (r & Hr & Hrt & Hd)]. split; [|done]. apply Hin; [done|]. exists r.
    rewrite Hsame, Hdep. split_and!; [done| |done]. apply tracking_wanted_elem. exists r. by rewrite Hsame, Hroot.
Qed.

(** The proof is a history of its own. *)
Lemma tracking_proof_part ref events code target proof :
  TrackingProof ref events code target = Ok proof →
  (∀ e, e ∈ proof → e ∈ events) ∧ OrderHistoryEvents proof = Ok proof ∧
  (∀ e x, e ∈ proof → x ∈ events → ev_ID x ∈ HistoryDependencies e → x ∈ proof) ∧
  (∀ e, e ∈ events → proof_root events (ref_identity ref) code target e → e ∈ proof).
Proof.
  intros (ordered & Hhist & Heq & Hin)%tracking_proof_spec.
  apply tracking_history_iff in Hhist as (_ & _ & Hord & _).
  assert (∀ e x, e ∈ proof → x ∈ events → ev_ID x ∈ HistoryDependencies e → x ∈ proof) as Hclosed.
  { intros e x He Hx Hd. apply Hin. split; [done|]. apply Hin in He as (_ & r & Hr & Hrt & Hre).
    exists r. split_and!; [done..|]. eapply rtc_r; [done|]. done. }
  split_and!; [by intros e [? _]%Hin| |done|].
  - rewrite Heq at 2. apply (order_history_restrict events); [done|by intros e [? _]%Hin|done].
  - intros e He Hrt. apply Hin. split; [done|]. exists e. split_and!; [done..|apply rtc_refl].
Qed.

Lemma tracking_proof_again ref events code target proof :
  TrackingProof ref events code target = Ok proof → TrackingProof ref proof code target = Ok proof.
Proof.
  intros Hproof. pose proof (tracking_proof_spec _ _ _ _ _ Hproof) as (ordered & Hhist & Heq & Hin).
  destruct (tracking_proof_part _ _ _ _ _ Hproof) as (Hsub & Hordp & Hclosed & Hroots).
  apply tracking_history_iff in Hhist as (Htip & Hv & Hord & p & Hp & Hobs).
  assert (TrackingHistory ref proof [] = Ok proof) as Hhistp.
  { apply tracking_history_iff. split_and!; [done|by auto|done|].
    destruct (project_restrict events proof p Hp) as (p' & Hp' & Hid & Hfree); [|done|done|].
    { intros e He. by apply ValidateHistoryEvent_id, Hv. }
    exists p'. split; [done|]. revert Hobs. unfold observed_identity.
    destruct (Active p !! ref_Name ref) as [b|] eqn:Ea.
    - intros Hb. destruct (project_at _ _ Hp) as (o & _ & Hpo & _), (project_at _ _ Hp') as (o' & _ & Hpo' & _).
      apply (projects_Active _ _ Hpo) in Ea as (Hby & Hname & Har).
      assert (Active p' !! ref_Name ref = Some b) as ->; [|done].
      apply (projects_Active _ _ Hpo'). split_and!; [|done..]. rewrite Hid; [done|].
      intros e [_ He]%list_elem_of_filter Heid. apply Hroots; [done|]. left. congruence.
    - intros [Hr Hi]. destruct (Hfree _ Ea Hr) as [-> ->]. done. }
  unfold TrackingProof. rewrite Hhistp. cbn.
  destruct (closure_events _ _ Hordp (tracking_wanted proof (ref_identity ref) code target)) as (out & -> & Hout).
  { intros id (e & He & <- & _)%tracking_wanted_elem. by apply list_elem_of_fmap_2. }
  f_equal. apply filter_all. intros e He. apply Hout; [done|].
  pose proof He as (_ & r & Hr & Hrt & Hre)%Hin. assert (r ∈ proof) as Hrp by (by apply Hroots).
  exists r. split; [done|]. split.
  - apply tracking_wanted_elem. exists r. split_and!; [done..|].
    destruct Hrt as [?|(receipt & pr & Hrec & Hsel & Hpin & Hkey)]; [by left|right].
    exists receipt, pr. split_and!; [|done..]. apply Hroots; [done|]. left.
    unfold selected_receipt in Hsel. destruct (ev_PR receipt); [|done]. destruct (_ || _) eqn:E in Hsel; [done|].
    by bools.
  - clear Hrt. revert Hrp. unfold depends in *. clear He Hr. induction Hre as [|a b c [Hb Hab] Hbc IH]; intros Ha; [apply rtc_refl|].
    assert (b ∈ proof) by (by eapply Hclosed). eapply rtc_l; [|by apply IH]. done.
Qed.

Lemma history_consistent events ordered a b :
  OrderHistoryEvents events = Ok ordered → a ∈ events → b ∈ events → ev_ID a = ev_ID b → a = b.
Proof.
  intros Hord. destruct (order_history_cases events) as [(o & _ & _ & Hc & _)|[? _]]; [apply Hc|congruence].
Qed.

(** A local selection that passed is the server's own event or repeats a server pin. *)
Lemma check_local_spec owners identity ordered pins e :
  fold_each (known_pin owners identity) ordered ∅ = Ok pins →
  check_local owners identity (list_to_set (ev_ID <$> ordered)) pins e = Ok tt →
  local_selection identity e = true → ev_ID e ∉ ev_ID <$> ordered →
  ev_MemoryPinned e = true ∧
  ∃ r p, r ∈ ordered ∧ pins_identity identity r = true ∧ pinOf owners r = Ok p ∧ pinOf owners e = Ok p.
Proof.
  unfold check_local. intros Hpins H Hsel Hid. rewrite Hsel in H. cbn in H.
  rewrite bool_decide_false in H by (by rewrite elem_of_list_to_set). inv_ok. bools.
  split; [done|]. destruct (decide (a ∈ pins)) as [Ha|]; [|done].
  destruct (known_pins_spec _ _ _ _ Hpins _ Ha) as (r & ? & ? & ?). by exists r, a.
Qed.

Lemma tracking_selection ref remote local owners ordered e :
  TrackingHistoryWithMemoryOwners ref remote local owners = Ok ordered →
  e ∈ local → local_selection (ref_identity ref) e = true →
  e ∈ remote ∨
  (ev_MemoryPinned e = true ∧
   ∃ r p, r ∈ remote ∧ pins_identity (ref_identity ref) r = true ∧
     pinOf owners r = Ok p ∧ pinOf owners e = Ok p).
Proof.
  intros (_ & _ & Hord & p & q & pins & _ & _ & [combined Hall]%is_ok_true & _ & _ & Hpins & Hloc)%tracking_history_inv He Hsel.
  destruct (order_history_Ok _ _ Hord) as (_ & Hsame & _).
  destruct (decide (ev_ID e ∈ ev_ID <$> ordered)) as [Hid|Hid].
  - left. apply list_elem_of_fmap in Hid as (x & Hid & Hx%Hsame).
    rewrite (history_consistent _ _ e x Hall); [done|set_solver|set_solver|done].
  - right. destruct (check_local_spec _ _ _ _ e Hpins (Hloc e He) Hsel Hid) as (? & r & pn & ? & ? & ? & ?).
    split; [done|]. exists r, pn. by rewrite <-Hsame.
Qed.

Lemma without_attachment_spec a local filtered :
  fold_each (without_attachment a) local [] = Ok filtered →
  ∀ e, e ∈ local → e = ta_Event a ∨ e ∈ filtered.
Proof.
  apply (fold_each_invariant (without_attachment a) (λ pre out, ∀ e, e ∈ pre → e = ta_Event a ∨ e ∈ out));
    [set_solver|].
  intros pre x s1 s2 IH _ Hstep e He. unfold without_attachment in Hstep.
  case_bool_decide; inv_ok; bools; subst; set_solver.
Qed.

(** A witness of the observation is in the proof that was retained for it. *)
Lemma frozen_witness e ref events code proof rewound :
  (∀ x, x ∈ proof → x ∈ events) →
  (∀ x, x ∈ events → proof_root events (ref_identity ref) code (ev_Target e) x → x ∈ proof) →
  (existsb (λ p, exact_pin e p && (ev_BranchID p =? ref_identity ref) && (ev_GitAfter p =? code)) proof = true ∨
   existsb (receipt_proves (MkTrackingAttachment e ref proof code rewound) (ref_identity ref)) proof = true) ↔
  ((∃ p, p ∈ events ∧ exact_pin e p = true ∧ ev_BranchID p = ref_identity ref ∧ ev_GitAfter p = code) ∨
   (∃ receipt pr p, receipt ∈ events ∧
      selected_receipt (ref_identity ref) code (ev_Target e) receipt = Some pr ∧
      p ∈ events ∧ exact_pin e p = true ∧
      ev_BranchID p = ev_SourceBranchID receipt ∧ ev_GitAfter p = pr_HeadSHA pr)).
Proof.
  intros Hsub Hroots. rewrite !existsb_elem. unfold receipt_proves, selected_receipt.
  cbn [ta_Event ta_Proof ta_Code]. split.
  - intros [(p & Hp & H)|(r & Hr & H)]; [left; exists p; bools; by auto|right].
    destruct (ev_PR r) as [pr|] eqn:Epr; [|done]. bools.
    match goal with H : existsb _ _ = true |- _ => apply existsb_elem in H as (p & Hp & H) end. bools.
    exists r, pr, p. rewrite Epr. split_and!; auto.
    repeat (rewrite bool_decide_true by done; cbn [negb orb]). by destruct (ev_PRCompleted r).
  - intros [(p & Hp & Hx & Hb & Hg)|(r & pr & p & Hr & Hsel & Hp & Hx & Hb & Hg)].
    + left. exists p. split; [apply Hroots; [done|by left]|]. by rewrite Hx, !bool_decide_true.
    + right. destruct (ev_PR r) as [pr'|] eqn:Epr; [|done].
      destruct (_ || _) eqn:E in Hsel; [done|]. injection Hsel as ->.
      assert (selected_receipt (ref_identity ref) code (ev_Target e) r = Some pr) as Hsel
        by (unfold selected_receipt; by rewrite Epr, E).
      bools.
      assert (ev_Target p = ev_Target e) as Ht.
      { unfold exact_pin in Hx. apply andb_true_iff in Hx as [_ Hx]. unfold pin_matches in Hx.
        destruct (_ || _ || _) eqn:E' in Hx; [done|]. by bools. }
      exists r. split; [apply Hroots; [done|by left]|]. rewrite Epr, !bool_decide_true by done.
      assert (ev_PRCompleted r = true) as -> by done. cbn [andb]. apply existsb_elem. exists p.
      split; [|by rewrite Hx, !bool_decide_true]. apply Hroots; [done|]. right.
      exists r, pr. unfold exact_pin in Hx. bools. split; [done|]. split; [done|]. split; [done|]. congruence.
Qed.

(** ** Properties *)

(** C7: adopting a server branch never replaces an unpublished local choice: when an
    observation is accepted, the server's events have an order and so have the server's
    and the local events together; both the server's history and the combined one give the
    name to the observed identity; events with one id are the same event;
    and every local selection of that identity is an event the server already has or
    pins exactly the code, context, memory and owner of one of the server's pins. *)
Theorem tracking_preserves_local (ref : Ref) (remote local : list HistoryEvent)
    (owners : option (gmap string string)) (ordered : list HistoryEvent) :
  TrackingHistoryWithMemoryOwners ref remote local owners = Ok ordered →
  OrderHistoryEvents remote = Ok ordered ∧
  (∃ combined, OrderHistoryEvents (remote ++ local) = Ok combined) ∧
  (∃ p q, ProjectContextBranches remote = Ok p ∧ ProjectContextBranches (remote ++ local) = Ok q ∧
     Identity p (ref_RepoID ref) (ref_Name ref) = ref_identity ref ∧
     Identity q (ref_RepoID ref) (ref_Name ref) = ref_identity ref) ∧
  (∀ a b, a ∈ remote → b ∈ local → ev_ID a = ev_ID b → a = b) ∧
  ∀ e, e ∈ local → local_selection (ref_identity ref) e = true →
    e ∈ remote ∨
    (ev_MemoryPinned e = true ∧
     ∃ r p, r ∈ remote ∧ pins_identity (ref_identity ref) r = true ∧
       pinOf owners r = Ok p ∧ pinOf owners e = Ok p).
Proof.
  intros Hrun. pose proof Hrun as (_ & _ & Hord & p & q & _ & Hp & Hop & [c Hall]%is_ok_true & Hq & Hoq & _)%tracking_history_inv.
  split; [done|]. split; [by exists c|]. split; [|split].
  - exists p, q. split; [done|]. split; [done|]. unfold observed_identity, Identity in *.
    split; repeat case_match; naive_solver.
  - intros a b Ha Hb. apply (history_consistent _ _ a b Hall); set_solver.
  - intros e He Hsel. by eapply tracking_selection.
Qed.

(** C8: the retained proof is exactly the part of the observed history that the
    identity's own events and the source pins of its selected completed pull requests
    depend on; it is ordered, closed under dependencies, and retaining it again from
    itself gives the same proof. *)
Theorem tracking_proof_exact (ref : Ref) (events : list HistoryEvent) (code target : string)
    (proof : list HistoryEvent) :
  TrackingProof ref events code target = Ok proof →
  (∀ e, e ∈ proof ↔ e ∈ events ∧ ∃ r, r ∈ events ∧
     proof_root events (ref_identity ref) code target r ∧ depends events r e) ∧
  OrderHistoryEvents proof = Ok proof ∧
  TrackingProof ref proof code target = Ok proof.
Proof.
  intros Hproof. split; [|split].
  - by destruct (tracking_proof_spec _ _ _ _ _ Hproof) as (ordered & _ & _ & ?).
  - by destruct (tracking_proof_part _ _ _ _ _ Hproof) as (_ & ? & _).
  - by eapply tracking_proof_again.
Qed.

(** An attachment frozen with the proof retained from an observation validates
    exactly when its event is valid, its fields match the observed ref, and the
    observation holds an exact pinned witness: either the identity's own pin at the
    selected code, or a completed pull request merged as that code together with the
    pin of its source branch at its head. *)
Theorem tracking_attachment_frozen (ref : Ref) (events : list HistoryEvent) (code : string)
    (proof : list HistoryEvent) (e : HistoryEvent) (rewound : bool) :
  TrackingProof ref events code (ev_Target e) = Ok proof →
  ValidateTrackingAttachment (MkTrackingAttachment e ref proof code rewound) = Ok tt ↔
  ValidateHistoryEvent e = Ok tt ∧
  attachment_mismatch (MkTrackingAttachment e ref proof code rewound) = false ∧
  ((∃ p, p ∈ events ∧ exact_pin e p = true ∧ ev_BranchID p = ref_identity ref ∧ ev_GitAfter p = code) ∨
   (∃ receipt pr p, receipt ∈ events ∧
      selected_receipt (ref_identity ref) code (ev_Target e) receipt = Some pr ∧
      p ∈ events ∧ exact_pin e p = true ∧
      ev_BranchID p = ev_SourceBranchID receipt ∧ ev_GitAfter p = pr_HeadSHA pr)).
Proof.
  intros Hproof. destruct (tracking_proof_part _ _ _ _ _ Hproof) as (Hsub & Hord & _ & Hroots).
  pose proof (tracking_proof_again _ _ _ _ _ Hproof) as Hagain.
  assert (ValidateRef ref = Ok tt) as Href.
  { destruct (tracking_proof_spec _ _ _ _ _ Hproof) as (o & Ho & _). apply tracking_history_iff in Ho. apply Ho. }
  unfold ValidateTrackingAttachment. cbn [ta_Event ta_ObservedRef ta_Proof ta_Code].
  rewrite Href, Hagain, Hord. destruct (ValidateHistoryEvent e) as [[]|]; [|naive_solver].
  destruct (attachment_mismatch _) eqn:Hm; [naive_solver|]. cbn [mbind result_bind reject_if].
  rewrite bool_decide_true by done. cbn [negb reject_if mbind result_bind].
  rewrite <-(frozen_witness e ref events code proof rewound Hsub Hroots).
  destruct (existsb _ proof) eqn:E1; [naive_solver|]. rewrite reject_if_Ok, negb_false_iff. naive_solver.
Qed.

(** Replaying an attachment against local history is safe: a local event carrying the
    attachment's id is the attachment's event itself, and every other local selection
    of the branch is part of the frozen proof or repeats one of its pins. *)
Theorem tracking_replay_compatible (local : list HistoryEvent) (a : TrackingAttachment)
    (owners : option (gmap string string)) (e : HistoryEvent) :
  ValidateTrackingAttachmentCompatibilityWithMemoryOwners local a owners = Ok tt → e ∈ local →
  local_selection (ev_BranchID (ta_Event a)) e = true →
  e = ta_Event a ∨ e ∈ ta_Proof a ∨
  ∃ r p, r ∈ ta_Proof a ∧ pins_identity (ev_BranchID (ta_Event a)) r = true ∧
    pinOf owners r = Ok p ∧ pinOf owners e = Ok p.
Proof.
  unfold ValidateTrackingAttachmentCompatibilityWithMemoryOwners. intros H He Hsel. inv_ok.
  rename a1 into filtered, a2 into ordered.
  assert (ev_BranchID (ta_Event a) = ref_identity (ta_ObservedRef a)) as Hid.
  { unfold ValidateTrackingAttachment in H0. cbn zeta in H0. inv_ok. unfold attachment_mismatch in *.
    cbn zeta in *. by bools. }
  rewrite Hid in *. pose proof (without_attachment_spec a local filtered H1 e He) as [? | Hf]; [by left|].
  right. destruct (tracking_selection _ _ _ _ _ e H2 Hf Hsel) as [?|(_ & ?)]; [by left|by right].
Qed.

(** ** Witnesses *)

Module TrackingSamples.
Import HistorySamples.
Definition c := hash "c"%char.
Definition ref := MkRef "b-1" RefBranch "main" repo c "".
Definition birth := event id1 "b-1" "main" "birth" "" 1.
Definition position := observation id2 "b-1" "main" "position" c git1 2.
Definition other := event id3 "b-2" "topic" "birth" "" 3.
Definition events := [other; position; birth].
Definition proof := [birth; position].
(** The same pin, observed again by another worktree. *)
Definition again := observation id4 "b-1" "main" "position" c git1 4.
Definition attach := MkHistoryEvent None false "" None "" id5 repo "b-1" "main" "attach" "" "" "" "" ""
  c c c "" "" true "" git1 "" (MkTime 7 0).
Definition attachment := MkTrackingAttachment attach ref proof git1 false.
Lemma tracked : TrackingHistoryWithMemoryOwners ref events [again] None = Ok [birth; position; other].
Proof. compute_decision. Qed.
Lemma retained : TrackingProof ref events git1 (ev_Target attach) = Ok proof.
Proof. compute_decision. Qed.
Lemma compatible :
  ValidateTrackingAttachmentCompatibilityWithMemoryOwners [attach; again] attachment None = Ok tt.
Proof. compute_decision. Qed.
End TrackingSamples.

Lemma tracking_preserves_local_witness :
  TrackingSamples.again ∈ TrackingSamples.events ∨
  ∃ r p, r ∈ TrackingSamples.events ∧ pinOf None r = Ok p ∧ pinOf None TrackingSamples.again = Ok p.
Proof.
  destruct (tracking_preserves_local _ _ _ _ _ TrackingSamples.tracked) as (_ & _ & _ & _ & H).
  destruct (H TrackingSamples.again) as [?|(_ & r & p & ? & _ & ? & ?)]; [left|compute_decision|by left|right].
  exists r, p. auto.
Defined.

Lemma tracking_proof_exact_witness :
  TrackingProof TrackingSamples.ref TrackingSamples.proof HistorySamples.git1
    (ev_Target TrackingSamples.attach) = Ok TrackingSamples.proof.
Proof. apply (tracking_proof_exact _ _ _ _ _ TrackingSamples.retained). Defined.

Lemma tracking_attachment_frozen_witness :
  ValidateTrackingAttachment TrackingSamples.attachment = Ok tt.
Proof.
  apply (tracking_attachment_frozen _ _ _ _ _ false TrackingSamples.retained).
  split; [compute_decision|]. split; [vm_compute; reflexivity|]. left. exists TrackingSamples.position.
  split; [right; left|]. split; [vm_compute; reflexivity|]. split; vm_compute; reflexivity.
Defined.

Lemma tracking_replay_compatible_witness :
  TrackingSamples.again = TrackingSamples.attach ∨ TrackingSamples.again ∈ TrackingSamples.proof ∨
  ∃ r p, r ∈ TrackingSamples.proof ∧ pins_identity "b-1" r = true ∧
    pinOf None r = Ok p ∧ pinOf None TrackingSamples.again = Ok p.
Proof.
  apply (tracking_replay_compatible _ _ _ TrackingSamples.again TrackingSamples.compatible);
    [right; left|vm_compute; reflexivity].
Defined.
