(* ===== verification/BranchPull.v ===== *)
(** * Branch pulls

    Models [cli/internal/domain/branch_pull.go] and [branch_pull_validate.go]: the
    request for one branch's evidence and the validation of the inventory a server
    answers with, before any object is fetched. *)
From S2P Require Import Prelude GoStrings Sha256 Values Lifecycle History TopoSort HistoryOrder.
From S2P Require Import ContextBranch BranchFrame Tracking.
From Stdlib Require Import Ascii.

Definition BranchPullVersion : Z := 1.
Definition MaxBranchPullRoots : nat := 256.

Record BranchPullRequest := MkBranchPullRequest {
  bq_Version : Z;
  bq_Branch : string;
  bq_ObservationRoots : list string;
}.

Record BranchPullSettings := MkBranchPullSettings { bs_Kind : string; bs_Hash : string }.

Record BranchPullPlan := MkBranchPullPlan {
  bp_Version : Z;
  bp_RepoID : string;
  bp_Branch : string;
  bp_ContextProtocol : Z;
  bp_SelectedRef : Ref;
  bp_Refs : list Ref;
  bp_History : list HistoryEvent;
  bp_SnapshotIndex : list string;
  bp_SnapshotStates : gmap string string;
  bp_AbsentRoots : list string;
  bp_SettingsObjects : list BranchPullSettings;
}.

Definition BranchPullRequest_Validate (r : BranchPullRequest) : result unit :=
  reject_if (bool_decide (bq_Version r ≠ BranchPullVersion) || negb (is_ok (ValidateBranchName (bq_Branch r))) ||
             (MaxBranchPullRoots <? length (bq_ObservationRoots r))%nat) ErrInvalidRef ;;
  for_each (λ id, reject_if (negb (is_ok (ValidateContentHash id))) ErrInvalidRef) (bq_ObservationRoots r).

Notation bad := ErrHashMismatch.

Definition invalid (r : result unit) : bool := negb (is_ok r).

(** One id of the inventory; a missing state is the empty string. *)
Definition index_state (states : gmap string string) (index : gset string) (id : string)
    : result (gset string) :=
  reject_if (invalid (ValidateContentHash id) || bool_decide (id ∈ index) ||
             invalid (ValidateContentHash (default "" (states !! id)))) bad ;;
  Ok ({[id]} ∪ index).

(** One ref: the selected branch, or a lifecycle tag of it. *)
Definition pull_ref (repo branch : string) (selected : Ref) (index : gset string)
    (st : gset string * nat) (ref : Ref) : result (gset string * nat) :=
  reject_if ((ref_RepoID ref <>? repo) || invalid (ValidateRef ref) || (ref_Symbolic ref <>? "") ||
             bool_decide (ref_Target ref ∉ index)) bad ;;
  let key := ref_Kind ref +:+ "/" +:+ ref_Name ref in
  reject_if (bool_decide (key ∈ st.1)) bad ;;
  if ref_Kind ref =? RefBranch then
    reject_if (ref <>? selected) bad ;;
    Ok ({[key]} ∪ st.1, S st.2)
  else
    match ParseBranchLifecycleRef ref with
    | Ok (Some lifecycle) =>
        reject_if (le_Branch lifecycle <>? branch) bad ;;
        Ok ({[key]} ∪ st.1, st.2)
    | _ => Err bad
    end.

(** The snapshots an event refers to. *)
Definition event_snapshots (e : HistoryEvent) : list string :=
  [ev_Source e; ev_Target e; ev_SharedTarget e; ev_MemorySource e].

Definition pull_event (repo : string) (index : gset string) (e : HistoryEvent) : result unit :=
  reject_if ((ev_RepoID e <>? repo) || invalid (ValidateHistoryEvent e)) bad ;;
  for_each (λ id, reject_if ((id <>? "") && bool_decide (id ∉ index)) bad) (event_snapshots e).

Notation source_pin := (string * string * string)%type.

Definition source_pins (ordered : list HistoryEvent) : gset source_pin :=
  list_to_set ((λ e, (ev_BranchID e, ev_GitAfter e, ev_Target e)) <$>
               filter (λ e, IsPinnedContextEvent e = true) ordered).

(** A completed pull request of the identity without its source pin.  A validated
    ["pr-merge"] event always carries [PR]. *)
Definition unproven_receipt (identity : string) (pins : gset source_pin) (e : HistoryEvent) : bool :=
  (ev_BranchID e =? identity) && (ev_Kind e =? "pr-merge") && ev_PRCompleted e &&
  bool_decide ((ev_SourceBranchID e, default "" (pr_HeadSHA <$> ev_PR e), ev_Source e) ∉ pins).

Definition absent_root (requested index : gset string) (absent : gset string) (id : string)
    : result (gset string) :=
  reject_if (bool_decide (id ∉ requested) || bool_decide (id ∈ absent) || bool_decide (id ∈ index)) bad ;;
  Ok ({[id]} ∪ absent).

Definition pull_setting (settings : gset string) (s : BranchPullSettings) : result (gset string) :=
  reject_if (invalid (ValidateContentHash (bs_Hash s)) || bool_decide (bs_Hash s ∈ settings) ||
             ((bs_Kind s <>? "claude") && (bs_Kind s <>? "codex") && (bs_Kind s <>? "agents"))) bad ;;
  Ok ({[bs_Hash s]} ∪ settings).

(** [selected.BranchID], or the legacy identity of the requested branch. *)
Definition pull_identity (repo branch : string) (selected : Ref) : string :=
  if ref_BranchID selected =? "" then LegacyContextBranchID repo branch else ref_BranchID selected.

Definition ValidateBranchPullPlan (repo : string) (request : BranchPullRequest) (plan : BranchPullPlan)
    : result unit :=
  let branch := bq_Branch request in
  let selected := bp_SelectedRef plan in
  reject_if (bool_decide (bp_Version plan ≠ BranchPullVersion) || (bp_RepoID plan <>? repo) ||
             (bp_Branch plan <>? branch) || (bp_ContextProtocol plan <? 0)%Z || (1 <? bp_ContextProtocol plan)%Z) bad ;;
  reject_if ((ref_RepoID selected <>? repo) || (ref_Kind selected <>? RefBranch) || (ref_Name selected <>? branch) ||
             (ref_Target selected =? "") || (ref_Symbolic selected <>? "") || invalid (ValidateRef selected)) bad ;;
  index ← fold_each (index_state (bp_SnapshotStates plan)) (bp_SnapshotIndex plan) ∅;
  reject_if (bool_decide (size index ≠ size (bp_SnapshotStates plan)) ||
             bool_decide (ref_Target selected ∉ index)) bad ;;
  seen ← fold_each (pull_ref repo branch selected index) (bp_Refs plan) (∅, 0);
  reject_if (bool_decide (seen.2 ≠ 1)) bad ;;
  latest ← or_else (LatestBranchLifecycle (bp_Refs plan) branch) bad;
  reject_if (match latest with
             | Some l => (ref_BranchID selected =? "") && (le_State l =? BranchArchived) &&
                         (le_Target l =? ref_Target selected)
             | None => false
             end) bad ;;
  for_each (pull_event repo index) (bp_History plan) ;;
  ordered ← or_else (OrderHistoryEvents (bp_History plan)) bad;
  reject_if (bool_decide (length ordered ≠ length (bp_History plan))) bad ;;
  projection ← or_else (ProjectContextBranches ordered) bad;
  let identity := pull_identity repo branch selected in
  reject_if (match Active projection !! branch with
             | Some active => cb_ID active <>? identity
             | None => (released projection branch <>? "") || (identity <>? LegacyContextBranchID repo branch)
             end) bad ;;
  reject_if (existsb (unproven_receipt identity (source_pins ordered)) ordered) bad ;;
  let requested : gset string := list_to_set (bq_ObservationRoots request) in
  absent ← fold_each (absent_root requested index) (bp_AbsentRoots plan) ∅;
  reject_if (existsb (λ id, bool_decide (id ∉ index) && bool_decide (id ∉ absent)) (elements requested)) bad ;;
  _ ← fold_each pull_setting (bp_SettingsObjects plan) ∅;
  Ok tt.

(** ** The loops of the validation *)

Lemma invalid_false r : invalid r = false ↔ r = Ok tt.
Proof. unfold invalid. destruct r as [[]|]; naive_solver. Qed.

Lemma index_states_spec states ids index :
  fold_each (index_state states) ids ∅ = Ok index →
  NoDup ids ∧ index = list_to_set ids ∧
  ∀ id, id ∈ ids → ValidateContentHash id = Ok tt ∧
    ∃ s, states !! id = Some s ∧ ValidateContentHash s = Ok tt.
Proof.
  apply (fold_each_invariant (index_state states) (λ pre index, NoDup pre ∧ index = list_to_set pre ∧
    ∀ id, id ∈ pre → ValidateContentHash id = Ok tt ∧
      ∃ s, states !! id = Some s ∧ ValidateContentHash s = Ok tt)); [split_and!; [constructor|done|set_solver]|].
  intros pre id s1 s2 (Hnd & -> & Hall) _ Hstep. unfold index_state in Hstep. inv_ok. bools.
  rewrite invalid_false in *. subst s2. split_and!.
  - apply NoDup_app. split; [done|]. split; [set_solver|apply NoDup_singleton].
  - set_solver.
  - intros x [Hx| ->%list_elem_of_singleton]%elem_of_app; [auto|]. split; [done|].
    destruct (states !! id) as [s|]; [eauto|].
    by match goal with Hd : ValidateContentHash (default _ None) = _ |- _ => vm_compute in Hd end.
Qed.

(** A ref of the inventory. *)
Definition pull_ref_ok (repo branch : string) (selected : Ref) (index : gset string) (ref : Ref) : Prop :=
  ref_RepoID ref = repo ∧ ValidateRef ref = Ok tt ∧ ref_Symbolic ref = "" ∧ ref_Target ref ∈ index ∧
  (ref = selected ∨ ∃ l, ParseBranchLifecycleRef ref = Ok (Some l) ∧ le_Branch l = branch).

Lemma pull_refs_spec repo branch selected index refs seen :
  fold_each (pull_ref repo branch selected index) refs (∅, 0) = Ok seen →
  (∀ ref, ref ∈ refs → pull_ref_ok repo branch selected index ref) ∧ (seen.2 ≠ 0 → selected ∈ refs).
Proof.
  apply (fold_each_invariant (pull_ref repo branch selected index) (λ pre seen,
    (∀ ref, ref ∈ pre → pull_ref_ok repo branch selected index ref) ∧ (seen.2 ≠ 0 → selected ∈ pre)));
    [split; [set_solver|done]|].
  intros pre ref s1 s2 (Hall & Hsel) _ Hstep. unfold pull_ref in Hstep. inv_ok. bools.
  assert (ref_Target ref ∈ index) as Hin by (destruct (decide (ref_Target ref ∈ index)); [done|tauto]).
  rewrite invalid_false in *. case_bool_decide as Hk.
  - inv_ok. bools. subst s2 ref. split; [|intros _; set_solver].
    intros r [Hr| ->%list_elem_of_singleton]%elem_of_app; [auto|]. unfold pull_ref_ok. naive_solver.
  - destruct (ParseBranchLifecycleRef ref) as [[l|]|] eqn:El; [|done..]. inv_ok. bools. subst s2. split.
    + intros r [Hr| ->%list_elem_of_singleton]%elem_of_app; [auto|]. unfold pull_ref_ok. naive_solver.
    + cbn. intros ?%Hsel. set_solver.
Qed.

Lemma absent_roots_spec requested index ids absent :
  fold_each (absent_root requested index) ids ∅ = Ok absent →
  absent = list_to_set ids ∧ ∀ id, id ∈ ids → id ∈ requested ∧ id ∉ index.
Proof.
  apply (fold_each_invariant (absent_root requested index) (λ pre absent,
    absent = list_to_set pre ∧ ∀ id, id ∈ pre → id ∈ requested ∧ id ∉ index)); [split; [done|set_solver]|].
  intros pre id s1 s2 (-> & Hall) _ Hstep. unfold absent_root in Hstep. inv_ok. bools. subst s2.
  assert (id ∈ requested) by (destruct (decide (id ∈ requested)); [done|tauto]).
  split; [set_solver|]. intros x [?| ->%list_elem_of_singleton]%elem_of_app; auto.
Qed.

Lemma pull_event_spec repo index e :
  pull_event repo index e = Ok tt →
  valid_for repo e ∧ ∀ id, id ∈ event_snapshots e → id ≠ "" → id ∈ index.
Proof.
  unfold pull_event. intros H. inv_ok. bools. rewrite invalid_false in *. split; [done|].
  rewrite Forall_forall in H. intros id Hid Hne. specialize (H id Hid). cbn beta in H. inv_ok.
  rewrite (bool_decide_false (id = "")) in H by done. cbn in H. bools.
  destruct (decide (id ∈ index)); [done|tauto].
Qed.

Lemma source_pins_elem ordered key :
  key ∈ source_pins ordered ↔ ∃ e, e ∈ ordered ∧ IsPinnedContextEvent e = true ∧
    (ev_BranchID e, ev_GitAfter e, ev_Target e) = key.
Proof.
  unfold source_pins. rewrite elem_of_list_to_set, list_elem_of_fmap.
  setoid_rewrite list_elem_of_filter. naive_solver.
Qed.

Lemma receipts_proven identity ordered e :
  existsb (unproven_receipt identity (source_pins ordered)) ordered = false →
  e ∈ ordered → ev_BranchID e = identity → ev_Kind e = "pr-merge" → ev_PRCompleted e = true →
  ∃ w, w ∈ ordered ∧ IsPinnedContextEvent w = true ∧
    (ev_BranchID w, ev_GitAfter w, ev_Target w) =
    (ev_SourceBranchID e, default "" (pr_HeadSHA <$> ev_PR e), ev_Source e).
Proof.
  intros Hex He Hid Hk Hc. apply source_pins_elem.
  destruct (decide ((ev_SourceBranchID e, default "" (pr_HeadSHA <$> ev_PR e), ev_Source e) ∈ source_pins ordered))
    as [|Hn]; [done|].
  rewrite <-not_true_iff_false, existsb_elem in Hex. destruct Hex. exists e. split; [done|].
  unfold unproven_receipt. by rewrite Hc, !bool_decide_true.
Qed.

(** ** Properties *)

(** An accepted branch inventory is complete and self-consistent.  Its snapshot
    index has no repetition and is exactly the domain of the frozen states, all of
    which are content addresses; its refs contain the selected branch and otherwise
    only lifecycle tags of it, all pointing into the index; every snapshot an event of
    the history refers to is in the index; every requested observation root is either
    in the index or declared absent, never both; and every completed pull request of
    the branch has an exact source pin among the events. *)
Theorem pull_plan_inventory (repo : string) (request : BranchPullRequest) (plan : BranchPullPlan) :
  ValidateBranchPullPlan repo request plan = Ok tt →
  let index := bp_SnapshotIndex plan in
  NoDup index ∧ (∀ id, id ∈ index ↔ is_Some (bp_SnapshotStates plan !! id)) ∧
  (∀ id s, bp_SnapshotStates plan !! id = Some s →
     ValidateContentHash id = Ok tt ∧ ValidateContentHash s = Ok tt) ∧
  bp_SelectedRef plan ∈ bp_Refs plan ∧
  (∀ ref, ref ∈ bp_Refs plan → ref_Target ref ∈ index ∧
     (ref = bp_SelectedRef plan ∨
      ∃ l, ParseBranchLifecycleRef ref = Ok (Some l) ∧ le_Branch l = bq_Branch request)) ∧
  (∀ e id, e ∈ bp_History plan → id ∈ event_snapshots e → id ≠ "" → id ∈ index) ∧
  (∀ id, id ∈ bq_ObservationRoots request → id ∈ index ∨ id ∈ bp_AbsentRoots plan) ∧
  (∀ id, id ∈ bp_AbsentRoots plan → id ∈ bq_ObservationRoots request ∧ id ∉ index) ∧
  (∀ e, e ∈ bp_History plan → ev_BranchID e = pull_identity repo (bq_Branch request) (bp_SelectedRef plan) →
     ev_Kind e = "pr-merge" → ev_PRCompleted e = true →
     ∃ w, w ∈ bp_History plan ∧ IsPinnedContextEvent w = true ∧
       (ev_BranchID w, ev_GitAfter w, ev_Target w) =
       (ev_SourceBranchID e, default "" (pr_HeadSHA <$> ev_PR e), ev_Source e)).
Proof.
  unfold ValidateBranchPullPlan. cbn zeta. intros H. inv_ok.
  destruct (index_states_spec _ _ _ H2) as (Hnd & -> & Hids).
  destruct (pull_refs_spec _ _ _ _ _ _ H4) as [Hrefs Hsel].
  destruct (absent_roots_spec _ _ _ _ H14) as [-> Habs]. setoid_rewrite elem_of_list_to_set in Habs.
  destruct (order_history_Ok _ _ H9) as (_ & Hsame & _).
  rewrite Forall_forall in H8. rewrite <-not_true_iff_false, existsb_elem in H15.
  assert (list_to_set (bp_SnapshotIndex plan) = dom (bp_SnapshotStates plan)) as Hdom.
  { apply set_subseteq_size_eq; [|bools; rewrite size_dom; destruct (decide (size (list_to_set (bp_SnapshotIndex plan) : gset string) =
      size (bp_SnapshotStates plan))); lia].
    intros id Hid%elem_of_list_to_set. destruct (Hids id Hid) as (_ & s & Hs & _). apply elem_of_dom. eauto. }
  assert (∀ id, id ∈ bp_SnapshotIndex plan ↔ is_Some (bp_SnapshotStates plan !! id)) as Hindex.
  { intros id. by rewrite <-elem_of_dom, <-Hdom, elem_of_list_to_set. }
  split; [done|]. split; [done|]. split.
  { intros id s Hs. destruct (Hids id) as (Hid & s' & Hs' & Hv); [apply Hindex; eauto|]. split; [done|congruence]. }
  split; [apply Hsel; bools; lia|]. split; [|split; [|split; [|split; [done|]]]].
  - intros ref (_ & _ & _ & Hin & Hor)%Hrefs. by apply elem_of_list_to_set in Hin.
  - intros e id He Hid Hne. apply (elem_of_list_to_set (C := gset string)). by apply (pull_event_spec _ _ _ (H8 e He)).
  - intros id Hid. destruct (decide (id ∈ bp_SnapshotIndex plan)) as [|Hn]; [by left|right].
    destruct (decide (id ∈ bp_AbsentRoots plan)) as [|Ha]; [done|]. destruct H15. exists id.
    split; [by apply elem_of_elements, elem_of_list_to_set|]. by rewrite !bool_decide_true by (by rewrite elem_of_list_to_set).
  - intros e He%Hsame Hid Hk Hc. destruct (receipts_proven _ _ e H13 He Hid Hk Hc) as (w & Hw & ?).
    exists w. by rewrite <-Hsame.
Qed.

(** What was pulled is observed without conflict. *)
Lemma pull_plan_observed (repo : string) (request : BranchPullRequest) (plan : BranchPullPlan) :
  ValidateBranchPullPlan repo request plan = Ok tt →
  ∃ ordered, TrackingHistory (bp_SelectedRef plan) (bp_History plan) [] = Ok ordered ∧
    ordered ≡ₚ bp_History plan.
Proof.
  unfold ValidateBranchPullPlan. cbn zeta. intros H. inv_ok. bools.
  rewrite invalid_false in *. rename a8 into ordered, a10 into p. exists ordered.
  destruct (order_history_Ok _ _ H9) as (Hnd & Hsame & _). apply NoDup_fmap_1 in Hnd.
  rewrite Forall_forall in H8.
  assert (ref_Name (bp_SelectedRef plan) = bq_Branch request) as Hn by done.
  assert (ref_RepoID (bp_SelectedRef plan) = repo) as Hr by done.
  assert (∀ e, e ∈ bp_History plan → valid_for (ref_RepoID (bp_SelectedRef plan)) e) as Hv.
  { rewrite Hr. by intros e [? _]%H8%pull_event_spec. }
  assert (ProjectContextBranches (bp_History plan) = Ok p) as Hp by (by rewrite <-(project_ordered _ _ H9)).
  split.
  - apply tracking_history_iff. split; [done|]. split; [done|]. split; [done|]. exists p. split; [done|].
    assert (ref_identity (bp_SelectedRef plan) = pull_identity repo (bq_Branch request) (bp_SelectedRef plan)) as Hid.
    { unfold ref_identity, pull_identity. by rewrite Hn, Hr. }
    unfold observed_identity. rewrite Hid, Hn, Hr. destruct (Active p !! bq_Branch request); bools; [done|].
    split; [|done]. apply (released_None (bp_History plan)); [done| |done].
    intros e [He _]%Hv. by apply ValidateHistoryEvent_id.
  - destruct (decide (length ordered = length (bp_History plan))) as [Hlen|]; [|done].
    apply submseteq_length_Permutation; [|lia]. apply NoDup_submseteq; [done|]. intros e. by rewrite Hsame.
Qed.


(** ** Witnesses *)

Module PullSamples.
Import HistorySamples.
Definition request := MkBranchPullRequest 1 "main" [hash "c"%char; hash "d"%char].
Definition plan := MkBranchPullPlan 1 repo "main" 1 TrackingSamples.ref
  [TrackingSamples.ref] [TrackingSamples.position; TrackingSamples.birth]
  [hash "c"%char] {[ hash "c"%char := hash "e"%char ]} [hash "d"%char]
  [MkBranchPullSettings "claude" (hash "f"%char)].
Lemma accepted : ValidateBranchPullPlan repo request plan = Ok tt.
Proof. compute_decision. Qed.
End PullSamples.

Lemma pull_plan_inventory_witness : bp_SelectedRef PullSamples.plan ∈ bp_Refs PullSamples.plan.
Proof. apply (pull_plan_inventory _ _ _ PullSamples.accepted). Defined.

