(* ===== verification/AgentBudget.v ===== *)
(** * Agent context budgets

    Models [agent_context_budget.go], [agent_input_calibration.go],
    [agent_input_accounting.go] and, of [agent_context.go], the input policy, the host
    capability and [Check] (all under [cli/internal/domain]).  Token counts are Go [int]s:
    every sum and difference wraps as the machine's does, and the theorems show that on
    values that fit an [int] none of them does. *)
From S2P Require Import Prelude GoStrings Utf8 GoInt GoJson Sha256 Values History.
From Stdlib Require Import Ascii.

(** ** Policies and text accounting *)

Definition AgentContextVersion : Z := 1.
Definition MaxAgentContextTokens : Z := 800000.
Definition DefaultMemoryContextTokens : Z := 8000.
Definition UTF8ByteBoundCounter : string := "utf8_bytes_conservative_bound".
Definition MeasuredInputReserveV1 : string := "measured_reserve_v1".
Definition NativeEstimateReserveV1 : string := "native_estimate_reserve_v1".
Definition CatalogEstimateReserveV1 : string := "catalog_estimate_reserve_v1".
Definition NativeLocalEstimate : string := "local_estimate".

Record InputPolicy := MkInputPolicy {
  ip_Version : Z; ip_Mode : string; ip_BudgetTokens : Z; ip_Source : string }.

Definition MemoryInputPolicy : InputPolicy :=
  MkInputPolicy AgentContextVersion "memory" DefaultMemoryContextTokens "product_default".

Definition TrimSuffix (s p : string) : string :=
  if HasSuffix s p then take_chars (String.length s - String.length p) s else s.

(** The count before the multiplier; [Atoi] runs on digits only. *)
Definition budget_digits (value : string) : result Z :=
  reject_if (value =? "") ErrContextBudgetExceeded ;;
  reject_if (has_char (λ c, negb (is_digit c)) value) ErrContextBudgetExceeded ;;
  match Atoi value with Some n => Ok n | None => Err ErrContextBudgetExceeded end.

Definition ParseHistoryBudget (value : string) : result Z :=
  if (value =? "") || (value =? "full") then Ok MaxAgentContextTokens
  else
    let multiplier := if HasSuffix value "k" then 1000%Z else 1%Z in
    n ← budget_digits (if HasSuffix value "k" then TrimSuffix value "k" else value);
    reject_if ((n <=? 0)%Z || (div MaxAgentContextTokens multiplier <? n)%Z) ErrContextBudgetExceeded ;;
    Ok (mul n multiplier).

Definition InputPolicy_Validate (p : InputPolicy) : result unit :=
  reject_if (negb (ip_Version p =? AgentContextVersion)%Z ||
             ((ip_Mode p <>? "memory") && (ip_Mode p <>? "history")) || (ip_Source p =? "")) ErrAgentContextUnavailable ;;
  reject_if ((ip_BudgetTokens p <=? 0)%Z || (MaxAgentContextTokens <? ip_BudgetTokens p)%Z) ErrContextBudgetExceeded.

Record AgentTokenUsage := MkUsage {
  tu_Tokens : Z; tu_Exact : bool; tu_Tokenizer : string; tu_Scope : string; tu_Reason : string }.

#[export] Instance AgentTokenUsage_eq_dec : EqDecision AgentTokenUsage.
Proof. solve_decision. Defined.

(** [AgentTextAccounting] *)
Inductive text_accounting := TextExact | TextUTF8Allowance.

#[export] Instance text_accounting_eq_dec : EqDecision text_accounting.
Proof. solve_decision. Defined.

Definition supported_host (provider : string) : bool :=
  (provider =? ProviderCodex) || (provider =? ProviderClaude).

Definition accounting_kind (policy : string) (usage : AgentTokenUsage) : result text_accounting :=
  if (policy =? "") || (policy =? MeasuredInputReserveV1) then Ok TextExact
  else if policy =? NativeEstimateReserveV1 then Ok TextUTF8Allowance
  else if policy =? CatalogEstimateReserveV1 then Ok (if tu_Exact usage then TextExact else TextUTF8Allowance)
  else Err ErrProviderCapabilityUnknown.

Definition accounting_valid (kind : text_accounting) (policy provider tokenizer : string) (usage : AgentTokenUsage) : bool :=
  supported_host provider && (tokenizer <>? "") && (tu_Tokenizer usage =? tokenizer) &&
  match kind with
  | TextExact =>
      tu_Exact usage &&
      (if policy =? CatalogEstimateReserveV1 then
         (provider =? ProviderCodex) && (tokenizer <>? UTF8ByteBoundCounter) &&
         ((tu_Scope usage =? "") || (tu_Scope usage =? "text")) && (tu_Reason usage =? "")
       else true)
  | TextUTF8Allowance =>
      (((policy =? NativeEstimateReserveV1) && (provider =? ProviderClaude)) ||
       ((policy =? CatalogEstimateReserveV1) && (provider =? ProviderCodex))) &&
      negb (tu_Exact usage) && (tokenizer =? UTF8ByteBoundCounter) &&
      (tu_Scope usage =? "text") && (tu_Reason usage =? "model_tokenizer_unavailable")
  end.

(** The classification is returned with the error too; the callers use it only without. *)
Definition ValidateAgentTokenAccounting (policy provider tokenizer : string) (usage : AgentTokenUsage)
    : result text_accounting :=
  kind ← accounting_kind policy usage;
  reject_if (negb (accounting_valid kind policy provider tokenizer usage)) ErrProviderCapabilityUnknown ;;
  Ok kind.

(** ** Calibration *)

Record AgentInputCalibration := MkCalibration {
  ic_Scope : string; ic_OverheadTokens : Z; ic_InputCeilingTokens : Z }.

#[export] Instance AgentInputCalibration_eq_dec : EqDecision AgentInputCalibration.
Proof. solve_decision. Defined.

Definition zero_calibration : AgentInputCalibration := MkCalibration "" 0 0.

Definition Calibration_Validate (c : AgentInputCalibration) (scope : string) : result unit :=
  reject_if (negb (is_ok (ValidateContentHash scope)) || (ic_Scope c <>? scope) ||
             (ic_OverheadTokens c <? 0)%Z || (ic_InputCeilingTokens c <? 0)%Z) ErrProviderCapabilityUnknown.

Definition Calibration_Merge (c other : AgentInputCalibration) : result AgentInputCalibration :=
  Calibration_Validate c (ic_Scope other) ;;
  Calibration_Validate other (ic_Scope c) ;;
  let ceiling :=
    if (0 <? ic_InputCeilingTokens other)%Z &&
       ((ic_InputCeilingTokens c =? 0)%Z || (ic_InputCeilingTokens other <? ic_InputCeilingTokens c)%Z)
    then ic_InputCeilingTokens other else ic_InputCeilingTokens c in
  Ok (MkCalibration (ic_Scope c) (Z.max (ic_OverheadTokens c) (ic_OverheadTokens other)) ceiling).

Definition InputReserveMargin (window : Z) : Z := Z.max 16000 (div window 20).

(** ** Host capabilities *)

Record AgentHostCapability := MkCapability {
  hc_Provider : string; hc_Model : string; hc_HostVersion : string; hc_Evidence : string;
  hc_Verified : bool; hc_ContextWindow : Z; hc_HostInputTokens : Z; hc_HostInputKnown : bool;
  hc_InitialPromptTokens : Z; hc_ReservedTokens : Z; hc_FramingTokens : Z;
  hc_AutoCompactTokens : Z; hc_AutoCompactKnown : bool; hc_Tokenizer : string;
  hc_InputAccountingPolicy : string; hc_RuntimeScope : string; hc_Calibration : AgentInputCalibration;
  hc_WindowEstimateSource : string; hc_WindowEstimateObservedAt : string; hc_WindowEstimateHash : string;
  hc_WindowEstimateClientVersion : string; hc_BaselineInputEstimateTokens : Z;
  hc_BaselineInputMeasurement : string; hc_FramingAllowanceTokens : Z }.

Definition hasWindowEstimate (c : AgentHostCapability) : bool :=
  (hc_WindowEstimateSource c <>? "") || (hc_WindowEstimateObservedAt c <>? "") ||
  (hc_WindowEstimateHash c <>? "") || (hc_WindowEstimateClientVersion c <>? "").

Definition validateWindowEstimate (c : AgentHostCapability) : result unit :=
  reject_if ((hc_Provider c <>? ProviderCodex) || hc_Verified c ||
             (hc_WindowEstimateSource c <>? "native_model_cache") ||
             negb (ParseRFC3339 (hc_WindowEstimateObservedAt c)) ||
             negb (is_ok (ValidateContentHash (hc_WindowEstimateHash c))) ||
             (TrimSpace (hc_WindowEstimateClientVersion c) =? "")) ErrProviderCapabilityUnknown.

(** The JSON of the anonymous struct the scope is the hash of. *)
Definition calibration_scope_json (c : AgentHostCapability) : json :=
  JObj (str_field "Policy" MeasuredInputReserveV1 ++ str_field "Provider" (hc_Provider c) ++
        str_field "Model" (hc_Model c) ++ str_field "Host" (hc_HostVersion c) ++
        str_field "Tokenizer" (hc_Tokenizer c) ++ field "Window" (JInt (hc_ContextWindow c)) ++
        str_field "Runtime" (hc_RuntimeScope c)).

Definition CalibrationScope (c : AgentHostCapability) : result string :=
  reject_if ((hc_InputAccountingPolicy c =? NativeEstimateReserveV1) ||
             (hc_InputAccountingPolicy c =? CatalogEstimateReserveV1) || hasWindowEstimate c)
    ErrProviderCapabilityUnknown ;;
  reject_if (negb (hc_Verified c) || (hc_Evidence c =? "") || negb (supported_host (hc_Provider c)) ||
             (hc_Model c =? "") || (hc_HostVersion c =? "") || (hc_Tokenizer c =? "") ||
             (hc_ContextWindow c <=? 0)%Z || negb (is_ok (ValidateContentHash (hc_RuntimeScope c))))
    ErrProviderCapabilityUnknown ;;
  Ok (HashContent (encode (calibration_scope_json c))).

(** ** Resolving a budget *)

Record AgentContextBudget := MkBudget {
  ab_Provider : string; ab_Model : string; ab_HostVersion : string; ab_Tokenizer : string;
  ab_RequestedTokens : Z; ab_EffectiveTokens : Z; ab_ContextWindow : Z; ab_InitialInputLimit : Z;
  ab_HostInputTokens : Z; ab_FramingTokens : Z; ab_InitialPromptTokens : Z; ab_ReservedTokens : Z;
  ab_AutoCompactTokens : Z; ab_AdjustmentReason : string; ab_InputAccountingPolicy : string;
  ab_RuntimeScope : string; ab_WindowEstimateSource : string; ab_WindowEstimateObservedAt : string;
  ab_WindowEstimateHash : string; ab_WindowEstimateClientVersion : string;
  ab_HostInputUnverified : bool; ab_AutoCompactUnverified : bool; ab_OverheadAllowanceTokens : Z;
  ab_ObservedOverheadTokens : Z; ab_ObservedInputCeilingTokens : Z; ab_BaselineInputEstimateTokens : Z;
  ab_BaselineInputMeasurement : string; ab_FramingAllowanceTokens : Z }.

#[export] Instance AgentContextBudget_eq_dec : EqDecision AgentContextBudget.
Proof. solve_decision. Defined.

Definition is_measured (c : AgentHostCapability) : bool := hc_InputAccountingPolicy c =? MeasuredInputReserveV1.
Definition is_estimated (c : AgentHostCapability) : bool := hc_InputAccountingPolicy c =? NativeEstimateReserveV1.
Definition is_catalog (c : AgentHostCapability) : bool := hc_InputAccountingPolicy c =? CatalogEstimateReserveV1.

(** The evidence and the signs of the counts. *)
Definition capability_mismatch (c : AgentHostCapability) (provider model : string) : bool :=
  negb (supported_host provider) || (negb (is_catalog c) && negb (hc_Verified c)) ||
  (hc_Provider c <>? provider) || (hc_Model c <>? model) || (hc_Model c =? "") || (hc_HostVersion c =? "") ||
  (hc_Evidence c =? "") || (hc_ContextWindow c <=? 0)%Z || (hc_HostInputTokens c <? 0)%Z ||
  (hc_ReservedTokens c <? 0)%Z || (hc_FramingTokens c <? 0)%Z || (hc_AutoCompactTokens c <? 0)%Z.

(** A capability under an estimate policy claims no runtime measurement. *)
Definition claims_runtime (c : AgentHostCapability) : bool :=
  negb (is_ok (ValidateContentHash (hc_RuntimeScope c))) || hc_HostInputKnown c ||
  negb (hc_HostInputTokens c =? 0)%Z || negb (hc_FramingTokens c =? 0)%Z ||
  (hc_Calibration c <>? zero_calibration) || (negb (hc_AutoCompactKnown c) && negb (hc_AutoCompactTokens c =? 0)%Z).

(** The measured policy: the overhead no known input explains, and a fresh margin. *)
Definition measured_allowance (c : AgentHostCapability) : result Z :=
  scope ← CalibrationScope c;
  Calibration_Validate (hc_Calibration c) scope ;;
  reject_if ((negb (hc_HostInputKnown c) && negb (hc_HostInputTokens c =? 0)%Z) ||
             (negb (hc_AutoCompactKnown c) && negb (hc_AutoCompactTokens c =? 0)%Z)) ErrProviderCapabilityUnknown ;;
  reject_if ((hc_ContextWindow c <? hc_FramingTokens c)%Z ||
             (sub (hc_ContextWindow c) (hc_FramingTokens c) <? hc_HostInputTokens c)%Z) ErrContextBudgetExceeded ;;
  let known := add (hc_HostInputTokens c) (hc_FramingTokens c) in
  let unexplained := Z.max 0 (sub (ic_OverheadTokens (hc_Calibration c)) known) in
  let margin := InputReserveMargin (hc_ContextWindow c) in
  reject_if ((hc_ContextWindow c <? unexplained)%Z || (sub (hc_ContextWindow c) unexplained <? margin)%Z)
    ErrContextBudgetExceeded ;;
  Ok (add unexplained margin).

(** The internal allowance, by policy. *)
Definition input_allowance (c : AgentHostCapability) : result Z :=
  if is_catalog c then
    validateWindowEstimate c ;;
    reject_if (claims_runtime c) ErrProviderCapabilityUnknown ;;
    Ok (InputReserveMargin (hc_ContextWindow c))
  else if is_estimated c then
    reject_if (claims_runtime c || (hc_BaselineInputEstimateTokens c <? 0)%Z ||
               (hc_BaselineInputMeasurement c <>? NativeLocalEstimate) || (hc_FramingAllowanceTokens c <? 0)%Z)
      ErrProviderCapabilityUnknown ;;
    Ok (InputReserveMargin (hc_ContextWindow c))
  else if is_measured c then measured_allowance c
  else
    reject_if ((hc_InputAccountingPolicy c <>? "") || negb (hc_HostInputKnown c) || negb (hc_AutoCompactKnown c) ||
               (hc_RuntimeScope c <>? "") || (hc_Calibration c <>? zero_calibration)) ErrProviderCapabilityUnknown ;;
    Ok 0%Z.

(** [floor(4*window/5)] without forming [4*window]. *)
Definition window_limit (window : Z) : Z :=
  add (mul (div window 5) 4) (div (mul (rem window 5) 4) 5).

(** The initial input limit with the bound that set it. *)
Definition lower_limit (use : bool) (bound : Z) (reason : string) (l : Z * string) : Z * string :=
  if use && (bound <? l.1)%Z then (bound, reason) else l.

Definition input_limit (c : AgentHostCapability) : Z * string :=
  lower_limit (is_measured c && (0 <? ic_InputCeilingTokens (hc_Calibration c))%Z)
    (ic_InputCeilingTokens (hc_Calibration c)) "observed_initial_input_limit"
  (lower_limit (hc_AutoCompactKnown c && (0 <? hc_AutoCompactTokens c)%Z)
    (sub (hc_AutoCompactTokens c) 1) "automatic_compaction_threshold"
  (lower_limit true (sub (hc_ContextWindow c) (hc_ReservedTokens c)) "required_output_reserve"
    (window_limit (hc_ContextWindow c), "model_window_80_percent"))).

(** [if n >= available { return exceeded }; available -= n] *)
Definition reserve (available n : Z) : result Z :=
  reject_if (available <=? n)%Z ErrContextBudgetExceeded ;;
  Ok (sub available n).

(** What the limit leaves for the package. *)
Definition package_capacity (c : AgentHostCapability) (limit allowance : Z) : result Z :=
  reject_if ((limit <=? hc_HostInputTokens c)%Z ||
             (sub limit (hc_HostInputTokens c) <=? hc_FramingTokens c)%Z) ErrContextBudgetExceeded ;;
  let available := sub (sub limit (hc_HostInputTokens c)) (hc_FramingTokens c) in
  available ← (if is_estimated c then
      reject_if ((available <=? hc_BaselineInputEstimateTokens c)%Z ||
                 (sub available (hc_BaselineInputEstimateTokens c) <=? hc_FramingAllowanceTokens c)%Z)
        ErrContextBudgetExceeded ;;
      Ok (sub available (add (hc_BaselineInputEstimateTokens c) (hc_FramingAllowanceTokens c)))
    else Ok available);
  available ← reserve available (hc_InitialPromptTokens c);
  reserve available allowance.

(** The receipt. *)
Definition resolved_budget (c : AgentHostCapability) (provider model : string) (requested limit : Z) (reason : string)
    (allowance available : Z) : AgentContextBudget :=
  let effective := Z.min requested available in
  let unverified := is_measured c || is_estimated c || is_catalog c in
  {| ab_Provider := provider; ab_Model := model; ab_HostVersion := hc_HostVersion c;
        ab_Tokenizer := hc_Tokenizer c; ab_RequestedTokens := requested; ab_EffectiveTokens := effective;
        ab_ContextWindow := hc_ContextWindow c; ab_InitialInputLimit := limit;
        ab_HostInputTokens := hc_HostInputTokens c; ab_FramingTokens := hc_FramingTokens c;
        ab_InitialPromptTokens := hc_InitialPromptTokens c; ab_ReservedTokens := hc_ReservedTokens c;
        ab_AutoCompactTokens := hc_AutoCompactTokens c;
        ab_AdjustmentReason := if (effective =? requested)%Z then "" else reason;
        ab_InputAccountingPolicy := hc_InputAccountingPolicy c; ab_RuntimeScope := hc_RuntimeScope c;
        ab_WindowEstimateSource := hc_WindowEstimateSource c;
        ab_WindowEstimateObservedAt := hc_WindowEstimateObservedAt c;
        ab_WindowEstimateHash := hc_WindowEstimateHash c;
        ab_WindowEstimateClientVersion := hc_WindowEstimateClientVersion c;
        ab_HostInputUnverified := unverified && negb (hc_HostInputKnown c);
        ab_AutoCompactUnverified := unverified && negb (hc_AutoCompactKnown c);
        ab_OverheadAllowanceTokens := allowance;
        ab_ObservedOverheadTokens := ic_OverheadTokens (hc_Calibration c);
        ab_ObservedInputCeilingTokens := ic_InputCeilingTokens (hc_Calibration c);
        ab_BaselineInputEstimateTokens := hc_BaselineInputEstimateTokens c;
        ab_BaselineInputMeasurement := hc_BaselineInputMeasurement c;
        ab_FramingAllowanceTokens := hc_FramingAllowanceTokens c |}.

Definition ResolveBudget (c : AgentHostCapability) (provider model : string) (requested : Z)
    (counter : AgentTokenUsage) : result AgentContextBudget :=
  reject_if (capability_mismatch c provider model) ErrProviderCapabilityUnknown ;;
  ValidateAgentTokenAccounting (hc_InputAccountingPolicy c) provider (hc_Tokenizer c) counter ;;
  reject_if (negb (is_estimated c) &&
             (negb (hc_BaselineInputEstimateTokens c =? 0)%Z || (hc_BaselineInputMeasurement c <>? "") ||
              negb (hc_FramingAllowanceTokens c =? 0)%Z)) ErrProviderCapabilityUnknown ;;
  reject_if (negb (is_catalog c) && hasWindowEstimate c) ErrProviderCapabilityUnknown ;;
  allowance ← input_allowance c;
  reject_if ((requested <=? 0)%Z || (MaxAgentContextTokens <? requested)%Z || (tu_Tokens counter <? 0)%Z ||
             (hc_InitialPromptTokens c <? 0)%Z || (hc_ContextWindow c <? hc_ReservedTokens c)%Z)
    ErrContextBudgetExceeded ;;
  let '(limit, reason) := input_limit c in
  available ← package_capacity c limit allowance;
  Ok (resolved_budget c provider model requested limit reason allowance available).

(** ** Checking a recorded budget *)

Definition recorded_evidence : string := "recorded preparation accounting".

Definition capability_uncalibrated (b : AgentContextBudget) : AgentHostCapability :=
  {| hc_Provider := ab_Provider b; hc_Model := ab_Model b; hc_HostVersion := ab_HostVersion b;
     hc_Evidence := recorded_evidence; hc_Verified := ab_InputAccountingPolicy b <>? CatalogEstimateReserveV1;
     hc_ContextWindow := ab_ContextWindow b; hc_HostInputTokens := ab_HostInputTokens b;
     hc_HostInputKnown := negb (ab_HostInputUnverified b); hc_InitialPromptTokens := ab_InitialPromptTokens b;
     hc_ReservedTokens := ab_ReservedTokens b; hc_FramingTokens := ab_FramingTokens b;
     hc_AutoCompactTokens := ab_AutoCompactTokens b; hc_AutoCompactKnown := negb (ab_AutoCompactUnverified b);
     hc_Tokenizer := ab_Tokenizer b; hc_InputAccountingPolicy := ab_InputAccountingPolicy b;
     hc_RuntimeScope := ab_RuntimeScope b; hc_Calibration := zero_calibration;
     hc_WindowEstimateSource := ab_WindowEstimateSource b;
     hc_WindowEstimateObservedAt := ab_WindowEstimateObservedAt b;
     hc_WindowEstimateHash := ab_WindowEstimateHash b;
     hc_WindowEstimateClientVersion := ab_WindowEstimateClientVersion b;
     hc_BaselineInputEstimateTokens := ab_BaselineInputEstimateTokens b;
     hc_BaselineInputMeasurement := ab_BaselineInputMeasurement b;
     hc_FramingAllowanceTokens := ab_FramingAllowanceTokens b |}.

(** [c.Calibration = calibration] *)
Definition with_calibration (c : AgentHostCapability) (cal : AgentInputCalibration) : AgentHostCapability :=
  {| hc_Provider := hc_Provider c; hc_Model := hc_Model c; hc_HostVersion := hc_HostVersion c;
     hc_Evidence := hc_Evidence c; hc_Verified := hc_Verified c; hc_ContextWindow := hc_ContextWindow c;
     hc_HostInputTokens := hc_HostInputTokens c; hc_HostInputKnown := hc_HostInputKnown c;
     hc_InitialPromptTokens := hc_InitialPromptTokens c; hc_ReservedTokens := hc_ReservedTokens c;
     hc_FramingTokens := hc_FramingTokens c; hc_AutoCompactTokens := hc_AutoCompactTokens c;
     hc_AutoCompactKnown := hc_AutoCompactKnown c; hc_Tokenizer := hc_Tokenizer c;
     hc_InputAccountingPolicy := hc_InputAccountingPolicy c; hc_RuntimeScope := hc_RuntimeScope c;
     hc_Calibration := cal; hc_WindowEstimateSource := hc_WindowEstimateSource c;
     hc_WindowEstimateObservedAt := hc_WindowEstimateObservedAt c;
     hc_WindowEstimateHash := hc_WindowEstimateHash c;
     hc_WindowEstimateClientVersion := hc_WindowEstimateClientVersion c;
     hc_BaselineInputEstimateTokens := hc_BaselineInputEstimateTokens c;
     hc_BaselineInputMeasurement := hc_BaselineInputMeasurement c;
     hc_FramingAllowanceTokens := hc_FramingAllowanceTokens c |}.

(** A failed scope leaves the empty hash. *)
Definition capability (b : AgentContextBudget) : AgentHostCapability :=
  let c := capability_uncalibrated b in
  if ab_InputAccountingPolicy b =? MeasuredInputReserveV1 then
    let scope := match CalibrationScope c with Ok s => s | Err _ => "" end in
    with_calibration c (MkCalibration scope (ab_ObservedOverheadTokens b) (ab_ObservedInputCeilingTokens b))
  else c.

Definition Budget_Validate (b : AgentContextBudget) (provider model : string) (requested : Z)
    (usage : AgentTokenUsage) : result unit :=
  reject_if (tu_Tokens usage <=? 0)%Z ErrContextBudgetExceeded ;;
  expected ← ResolveBudget (capability b) provider model requested usage;
  reject_if (b <>? expected) ErrContextBudgetExceeded ;;
  reject_if (ab_EffectiveTokens b <? tu_Tokens usage)%Z ErrContextBudgetExceeded.

Definition Capability_Check (c : AgentHostCapability) (provider model : string) (usage : AgentTokenUsage) : result unit :=
  b ← ResolveBudget c provider model MaxAgentContextTokens usage;
  Budget_Validate b provider model MaxAgentContextTokens usage.

Definition ExpectedPreparationCapability (b : AgentContextBudget) : string :=
  if ab_InputAccountingPolicy b =? CatalogEstimateReserveV1 then "estimated_for_preparation"
  else "verified_for_preparation".

(** ** Observing a native turn *)

Record AgentInputObservation := MkObservation {
  io_Scope : string; io_PackageID : string; io_Outcome : string; io_InitialRequest : bool;
  io_ExecutionKnown : bool; io_ExecutionStarted : bool; io_UsageKnown : bool; io_UsageBeforeCompaction : bool;
  io_TotalInputTokens : Z; io_SubmittedTextTokens : Z; io_SubmittedTextExact : bool; io_RetryAttempt : Z }.

Definition submitted_tokens (b : AgentContextBudget) (selected : AgentTokenUsage) : Z :=
  add (tu_Tokens selected) (ab_InitialPromptTokens b).

Definition observation_mismatch (b : AgentContextBudget) (packageID : string) (o : AgentInputObservation) : bool :=
  match CalibrationScope (capability b) with
  | Err _ => true
  | Ok scope =>
      (ab_InputAccountingPolicy b <>? MeasuredInputReserveV1) || negb (is_ok (ValidateContentHash packageID)) ||
      (io_PackageID o <>? packageID) || (io_Scope o <>? scope) || negb (io_InitialRequest o) ||
      (io_RetryAttempt o <? 0)%Z || (io_TotalInputTokens o <? 0)%Z || (io_SubmittedTextTokens o <? 0)%Z ||
      (io_ExecutionStarted o && negb (io_ExecutionKnown o))
  end.

(** The overhead seen, when the native usage is known. *)
Definition observed_overhead (b : AgentContextBudget) (selected : AgentTokenUsage) (o : AgentInputObservation)
    (feedback : AgentInputCalibration) : result AgentInputCalibration :=
  if io_UsageKnown o then
    reject_if (negb (io_SubmittedTextExact o) || negb (io_UsageBeforeCompaction o) ||
               negb (io_SubmittedTextTokens o =? submitted_tokens b selected)%Z ||
               (io_TotalInputTokens o <? io_SubmittedTextTokens o)%Z) ErrProviderCapabilityUnknown ;;
    Ok (MkCalibration (ic_Scope feedback)
          (Z.max (ic_OverheadTokens feedback) (sub (io_TotalInputTokens o) (io_SubmittedTextTokens o)))
          (ic_InputCeilingTokens feedback))
  else
    reject_if (negb (io_TotalInputTokens o =? 0)%Z || io_UsageBeforeCompaction o) ErrProviderCapabilityUnknown ;;
    Ok feedback.

(** The size of the input that was refused or compacted. *)
Definition refused_base (b : AgentContextBudget) (selected : AgentTokenUsage) (o : AgentInputObservation) : Z :=
  let base := foldl add (submitted_tokens b selected)
                [ab_HostInputTokens b; ab_FramingTokens b; ab_OverheadAllowanceTokens b] in
  if io_UsageKnown o then Z.min base (io_TotalInputTokens o) else base.

Definition lower_ceiling (b : AgentContextBudget) (selected : AgentTokenUsage) (o : AgentInputObservation)
    (feedback : AgentInputCalibration) : AgentInputCalibration :=
  let ceiling := Z.max 1 (sub (refused_base b selected o) (InputReserveMargin (ab_ContextWindow b))) in
  if (ic_InputCeilingTokens feedback =? 0)%Z || (ceiling <? ic_InputCeilingTokens feedback)%Z
  then MkCalibration (ic_Scope feedback) (ic_OverheadTokens feedback) ceiling else feedback.

Definition ObserveInput (b : AgentContextBudget) (packageID : string) (selected : AgentTokenUsage)
    (o : AgentInputObservation) : result (AgentInputCalibration * bool) :=
  Budget_Validate b (ab_Provider b) (ab_Model b) (ab_RequestedTokens b) selected ;;
  reject_if (observation_mismatch b packageID o) ErrProviderCapabilityUnknown ;;
  reject_if ((io_SubmittedTextExact o && negb (io_SubmittedTextTokens o =? submitted_tokens b selected)%Z) ||
             (negb (io_SubmittedTextExact o) && negb (io_SubmittedTextTokens o =? 0)%Z)) ErrProviderCapabilityUnknown ;;
  feedback ← observed_overhead b selected o (hc_Calibration (capability b));
  if (io_Outcome o =? "completed") || (io_Outcome o =? "unknown") then Ok (feedback, false)
  else
    (if io_Outcome o =? "input_rejected" then reject_if (io_ExecutionStarted o) ErrProviderCapabilityUnknown
     else reject_if (io_Outcome o <>? "initial_compaction") ErrProviderCapabilityUnknown) ;;
    Ok (lower_ceiling b selected o feedback,
        (io_Outcome o =? "input_rejected") && io_ExecutionKnown o && (io_RetryAttempt o =? 0)%Z).

(** ** The native estimate of the assembled input *)

Record AgentNativeInputEstimate := MkEstimate {
  ne_Provider : string; ne_Model : string; ne_HostVersion : string; ne_RuntimeScope : string;
  ne_ContextWindow : Z; ne_AutoCompactKnown : bool; ne_AutoCompactTokens : Z; ne_Measurement : string;
  ne_TotalTokens : Z }.

Definition ValidateNativeInputEstimate (b : AgentContextBudget) (usage : AgentTokenUsage)
    (e : AgentNativeInputEstimate) : result unit :=
  reject_if (ab_InputAccountingPolicy b <>? NativeEstimateReserveV1) ErrProviderCapabilityUnknown ;;
  Budget_Validate b (ab_Provider b) (ab_Model b) (ab_RequestedTokens b) usage ;;
  reject_if ((ne_Provider e <>? ab_Provider b) || (ne_Model e <>? ab_Model b) ||
             (ne_HostVersion e <>? ab_HostVersion b) || (ne_RuntimeScope e <>? ab_RuntimeScope b) ||
             negb (ne_ContextWindow e =? ab_ContextWindow b)%Z ||
             negb (Bool.eqb (ne_AutoCompactKnown e) (negb (ab_AutoCompactUnverified b))) ||
             negb (ne_AutoCompactTokens e =? ab_AutoCompactTokens b)%Z ||
             (ne_Measurement e <>? NativeLocalEstimate) || (ne_TotalTokens e <? 0)%Z) ErrProviderCapabilityUnknown ;;
  reject_if (sub (sub (ab_InitialInputLimit b) (ab_InitialPromptTokens b)) (ab_OverheadAllowanceTokens b) <? ne_TotalTokens e)%Z
    ErrContextBudgetExceeded.

(** * Properties *)

(** ** The counts fit an [int] *)

Definition capability_ints (c : AgentHostCapability) : Prop :=
  Forall is_int
    [hc_ContextWindow c; hc_HostInputTokens c; hc_InitialPromptTokens c; hc_ReservedTokens c; hc_FramingTokens c;
     hc_AutoCompactTokens c; hc_BaselineInputEstimateTokens c; hc_FramingAllowanceTokens c;
     ic_OverheadTokens (hc_Calibration c); ic_InputCeilingTokens (hc_Calibration c)].

(** An integer of the machine, not negative. *)
Notation count z := (0 ≤ z ≤ max_int)%Z.

Lemma count_is_int z : (0 ≤ z)%Z → is_int z → count z.
Proof. unfold is_int. lia. Qed.

Lemma window_limit_exact w : count w → window_limit w = (4 * w / 5)%Z.
Proof.
  intros Hw. unfold window_limit. rewrite (div_exact w 5), (rem_exact w 5) by lia.
  pose proof (Z.div_mod w 5 ltac:(lia)) as Hd. pose proof (Z.mod_pos_bound w 5 ltac:(lia)) as Hm.
  set (q := (w / 5)%Z) in *. set (r := (w mod 5)%Z) in *.
  assert (Hq : (0 ≤ q)%Z) by (apply Z.div_pos; lia).
  rewrite (mul_exact q 4), (mul_exact r 4) by (unfold is_int, min_int, max_int in *; lia).
  rewrite (div_exact (r * 4) 5) by (unfold max_int in *; lia).
  pose proof (Z.div_le_upper_bound (r * 4) 5 r ltac:(lia) ltac:(lia)).
  pose proof (Z.div_pos (r * 4) 5 ltac:(lia) ltac:(lia)).
  rewrite add_exact by (unfold is_int, min_int, max_int in *; lia).
  replace (4 * w)%Z with ((4 * q) * 5 + r * 4)%Z by lia. rewrite Z.div_add_l by lia. lia.
Qed.

Lemma margin_bounds w : count w → (16000 ≤ InputReserveMargin w ≤ Z.max 16000 w)%Z.
Proof.
  intros Hw. unfold InputReserveMargin. rewrite div_exact by lia.
  pose proof (Z.div_le_upper_bound w 20 w ltac:(lia) ltac:(lia)). lia.
Qed.

Lemma reserve_Ok available n a : count available → (0 ≤ n)%Z →
  reserve available n = Ok a ↔ (n < available ∧ a = available - n)%Z.
Proof.
  intros Ha Hn. unfold reserve. destruct (Z.leb_spec available n); cbn; [split; [done|lia]|].
  rewrite sub_nonneg by lia. split; [intros [= <-]; lia|intros [_ ->]; done].
Qed.

(** The limit: every bound that applies, and one of them attained. *)
Lemma lower_limit_fst use bound reason l :
  (lower_limit use bound reason l).1 = if use then Z.min l.1 bound else l.1.
Proof. unfold lower_limit. destruct use; cbn; [|done]. destruct (Z.ltb_spec bound l.1); cbn; lia. Qed.

Definition limit_of (window reserved : Z) (compact ceiling : option Z) : Z :=
  foldr Z.min (Z.min (4 * window / 5) (window - reserved))
    (from_option (λ z, [(z - 1)%Z]) [] compact ++ from_option (λ z, [z]) [] ceiling).

Definition compact_bound (c : AgentHostCapability) : option Z :=
  if hc_AutoCompactKnown c && (0 <? hc_AutoCompactTokens c)%Z then Some (hc_AutoCompactTokens c) else None.

Definition ceiling_bound (c : AgentHostCapability) : option Z :=
  if is_measured c && (0 <? ic_InputCeilingTokens (hc_Calibration c))%Z
  then Some (ic_InputCeilingTokens (hc_Calibration c)) else None.

Lemma input_limit_exact c :
  count (hc_ContextWindow c) → count (hc_ReservedTokens c) → count (hc_AutoCompactTokens c) →
  (input_limit c).1 = limit_of (hc_ContextWindow c) (hc_ReservedTokens c) (compact_bound c) (ceiling_bound c).
Proof.
  intros Hw Hr Ha. unfold input_limit, limit_of, compact_bound, ceiling_bound.
  rewrite !lower_limit_fst. cbn [fst]. rewrite window_limit_exact, sub_nonneg by done.
  destruct (hc_AutoCompactKnown c); cbn [andb]; [destruct (Z.ltb_spec 0 (hc_AutoCompactTokens c))|];
    destruct (is_measured c && _); cbn; rewrite ?sub_nonneg by (unfold max_int in *; lia); lia.
Qed.

Lemma limit_of_count window reserved compact ceiling :
  count window → (0 ≤ reserved)%Z → (reserved ≤ window)%Z →
  (∀ z, compact = Some z → 0 < z)%Z → (∀ z, ceiling = Some z → 0 < z)%Z →
  count (limit_of window reserved compact ceiling).
Proof.
  intros Hw Hr Hrw Hc Hl. unfold limit_of.
  assert (0 ≤ 4 * window / 5 ≤ window)%Z.
  { split; [apply Z.div_pos; lia|apply Z.div_le_upper_bound; lia]. }
  destruct compact as [z|]; [specialize (Hc z eq_refl)|]; (destruct ceiling as [y|]; [specialize (Hl y eq_refl)|]);
    cbn; lia.
Qed.

(** ** What is set aside, and what is left *)

Definition reservations (c : AgentHostCapability) (allowance : Z) : Z :=
  (hc_HostInputTokens c + hc_FramingTokens c +
   (if is_estimated c then hc_BaselineInputEstimateTokens c + hc_FramingAllowanceTokens c else 0) +
   hc_InitialPromptTokens c + allowance)%Z.

Record reservable (c : AgentHostCapability) (allowance : Z) : Prop := {
  rs_host : count (hc_HostInputTokens c); rs_framing : count (hc_FramingTokens c);
  rs_prompt : count (hc_InitialPromptTokens c); rs_allowance : count allowance;
  rs_estimate : is_estimated c = true → count (hc_BaselineInputEstimateTokens c) ∧ count (hc_FramingAllowanceTokens c) }.

Lemma estimate_step c available : is_estimated c = true → count available →
  count (hc_BaselineInputEstimateTokens c) → count (hc_FramingAllowanceTokens c) →
  ((available <=? hc_BaselineInputEstimateTokens c)%Z ||
   (sub available (hc_BaselineInputEstimateTokens c) <=? hc_FramingAllowanceTokens c)%Z) =
  (available <=? hc_BaselineInputEstimateTokens c + hc_FramingAllowanceTokens c)%Z.
Proof.
  intros He Ha Hb Hf. rewrite sub_nonneg by done.
  destruct (Z.leb_spec available (hc_BaselineInputEstimateTokens c)); cbn; [symmetry; apply Z.leb_le; lia|].
  destruct (Z.leb_spec (available - hc_BaselineInputEstimateTokens c) (hc_FramingAllowanceTokens c)); symmetry;
    [apply Z.leb_le|apply Z.leb_gt]; lia.
Qed.

Lemma two_reserves available n m a : count available → count n → count m →
  (x ← reserve available n; reserve x m) = Ok a ↔ (0 < a ∧ a = available - n - m)%Z.
Proof.
  intros Ha Hn Hm. rewrite bind_Ok. split.
  - intros (x & Hx & Hr). apply reserve_Ok in Hx as [? ->]; [|lia..]. apply reserve_Ok in Hr as [? ->]; lia.
  - intros [Hpos ->]. exists (available - n)%Z. split; apply reserve_Ok; lia.
Qed.

(** The package gets exactly what the reservations leave, and a reservation that leaves
    nothing is an error. *)
Lemma package_capacity_Ok c limit allowance a : count limit → reservable c allowance →
  package_capacity c limit allowance = Ok a ↔ (0 < a ∧ a = limit - reservations c allowance)%Z.
Proof.
  intros Hl [Hh Hf Hp Ha He]. unfold package_capacity, reservations.
  rewrite (sub_nonneg limit (hc_HostInputTokens c)) by lia.
  destruct (Z.leb_spec limit (hc_HostInputTokens c)); cbn [orb reject_if]; cbn.
  { split; [done|]. destruct (is_estimated c); [destruct (He eq_refl)|]; lia. }
  destruct (Z.leb_spec (limit - hc_HostInputTokens c) (hc_FramingTokens c)); cbn.
  { split; [done|]. destruct (is_estimated c); [destruct (He eq_refl)|]; lia. }
  rewrite (sub_nonneg (limit - hc_HostInputTokens c) (hc_FramingTokens c)) by lia.
  assert (Hav : count (limit - hc_HostInputTokens c - hc_FramingTokens c)) by lia.
  set (available := (limit - hc_HostInputTokens c - hc_FramingTokens c)%Z) in *.
  destruct (is_estimated c) eqn:He'; cbn.
  - destruct He as [Hb Hfa]; [done|]. rewrite (estimate_step c available) by done.
    destruct (Z.leb_spec available (hc_BaselineInputEstimateTokens c + hc_FramingAllowanceTokens c)); cbn.
    { split; [done|]. subst available. lia. }
    rewrite add_exact, sub_nonneg by (unfold is_int, min_int in *; lia).
    rewrite two_reserves by lia. subst available. lia.
  - rewrite two_reserves by lia. subst available. lia.
Qed.

Definition margin_of (window : Z) : Z := Z.max 16000 (window / 20).

Definition allowance_of (c : AgentHostCapability) : Z :=
  if is_catalog c || is_estimated c then margin_of (hc_ContextWindow c)
  else if is_measured c then
    (Z.max 0 (ic_OverheadTokens (hc_Calibration c) - (hc_HostInputTokens c + hc_FramingTokens c)) +
     margin_of (hc_ContextWindow c))%Z
  else 0.

Lemma margin_exact w : count w → InputReserveMargin w = margin_of w ∧ count (margin_of w).
Proof.
  intros Hw. pose proof (margin_bounds w Hw) as Hm. unfold InputReserveMargin, margin_of in *.
  rewrite div_exact in * by lia. split; [done|]. unfold max_int in *. lia.
Qed.

Lemma measured_allowance_Ok c a :
  count (hc_ContextWindow c) → count (hc_HostInputTokens c) → count (hc_FramingTokens c) →
  is_int (ic_OverheadTokens (hc_Calibration c)) → measured_allowance c = Ok a →
  a = (Z.max 0 (ic_OverheadTokens (hc_Calibration c) - (hc_HostInputTokens c + hc_FramingTokens c)) +
       margin_of (hc_ContextWindow c))%Z ∧ count a.
Proof.
  intros Hw Hh Hf Ho H. unfold measured_allowance in H.
  apply bind_Ok in H as (scope & _ & H). apply bind_Ok in H as ([] & Hcal & H). apply bind_Ok in H as ([] & _ & H).
  unfold Calibration_Validate in Hcal. apply reject_if_Ok in Hcal. rewrite !orb_false_iff in Hcal.
  destruct Hcal as [[[_ _] Hov%Z.ltb_ge] _].
  apply bind_Ok in H as ([] & Hk & H). apply reject_if_Ok, orb_false_iff in Hk as [Hk1%Z.ltb_ge Hk2%Z.ltb_ge].
  rewrite sub_nonneg in Hk2 by done. cbv zeta in H.
  rewrite (add_exact (hc_HostInputTokens c)) in H by (unfold is_int, min_int in *; lia).
  destruct (margin_exact _ Hw) as [Hm Hmc]. rewrite Hm in H.
  rewrite (sub_nonneg (ic_OverheadTokens (hc_Calibration c))) in H by (unfold is_int in *; lia).
  set (u := Z.max 0 (ic_OverheadTokens (hc_Calibration c) - (hc_HostInputTokens c + hc_FramingTokens c))) in *.
  assert (count u) by (unfold is_int in *; subst u; lia).
  apply bind_Ok in H as ([] & Hk & H). apply reject_if_Ok, orb_false_iff in Hk as [Hk3%Z.ltb_ge Hk4%Z.ltb_ge].
  rewrite sub_nonneg in Hk4 by done. rewrite add_exact in H by (unfold is_int, min_int in *; lia).
  injection H as <-. lia.
Qed.

Lemma policy_distinct c :
  (is_estimated c = true → is_catalog c = false ∧ is_measured c = false) ∧
  (is_measured c = true → is_catalog c = false ∧ is_estimated c = false).
Proof.
  unfold is_catalog, is_measured, is_estimated. split; intros H%bool_decide_eq_true; rewrite H; done.
Qed.

Lemma input_allowance_Ok c a :
  count (hc_ContextWindow c) → count (hc_HostInputTokens c) → count (hc_FramingTokens c) →
  is_int (ic_OverheadTokens (hc_Calibration c)) → input_allowance c = Ok a →
  a = allowance_of c ∧ count a ∧
  (is_estimated c = true → (0 ≤ hc_BaselineInputEstimateTokens c ∧ 0 ≤ hc_FramingAllowanceTokens c)%Z).
Proof.
  intros Hw Hh Hf Ho H. destruct (policy_distinct c) as [He Hme]. unfold input_allowance, allowance_of in *.
  destruct (margin_exact _ Hw) as [Hm Hmc]. rewrite Hm in H.
  destruct (is_catalog c) eqn:Hcat.
  { apply bind_Ok in H as ([] & _ & H). apply bind_Ok in H as ([] & _ & H). injection H as <-.
    split; [done|split; [done|]]. intros Hest. by destruct (He Hest). }
  destruct (is_estimated c) eqn:Hest; cbn [orb].
  { apply bind_Ok in H as ([] & Hk & H). injection H as <-. apply reject_if_Ok in Hk.
    rewrite !orb_false_iff in Hk. destruct Hk as [[[_ Hb%Z.ltb_ge] _] Hfa%Z.ltb_ge]. done. }
  destruct (is_measured c).
  { destruct (measured_allowance_Ok c a) as [-> ?]; done. }
  apply bind_Ok in H as ([] & _ & H). injection H as <-. unfold max_int. split; [done|split; [lia|done]].
Qed.

(** ** Resolving, step by step *)

Lemma ResolveBudget_Ok c provider model requested counter b :
  ResolveBudget c provider model requested counter = Ok b ↔ ∃ kind allowance available,
    capability_mismatch c provider model = false ∧
    ValidateAgentTokenAccounting (hc_InputAccountingPolicy c) provider (hc_Tokenizer c) counter = Ok kind ∧
    negb (is_estimated c) && (negb (hc_BaselineInputEstimateTokens c =? 0)%Z ||
      (hc_BaselineInputMeasurement c <>? "") || negb (hc_FramingAllowanceTokens c =? 0)%Z) = false ∧
    negb (is_catalog c) && hasWindowEstimate c = false ∧ input_allowance c = Ok allowance ∧
    (0 < requested ≤ MaxAgentContextTokens ∧ 0 ≤ tu_Tokens counter ∧ 0 ≤ hc_InitialPromptTokens c ∧
     hc_ReservedTokens c ≤ hc_ContextWindow c)%Z ∧
    package_capacity c (input_limit c).1 allowance = Ok available ∧
    b = resolved_budget c provider model requested (input_limit c).1 (input_limit c).2 allowance available.
Proof.
  unfold ResolveBudget. split.
  - intros H. apply bind_Ok in H as ([] & H1%reject_if_Ok & H). apply bind_Ok in H as (kind & H2 & H).
    apply bind_Ok in H as ([] & H3%reject_if_Ok & H). apply bind_Ok in H as ([] & H4%reject_if_Ok & H).
    apply bind_Ok in H as (allowance & H5 & H). apply bind_Ok in H as ([] & H6%reject_if_Ok & H).
    rewrite !orb_false_iff in H6. destruct H6 as [[[[Ha%Z.leb_gt Hb%Z.ltb_ge] Hc%Z.ltb_ge] Hd%Z.ltb_ge] He%Z.ltb_ge].
    destruct (input_limit c) as [limit reason]. apply bind_Ok in H as (available & H7 & H). injection H as <-.
    exists kind, allowance, available. repeat (split; [done || lia|]). done.
  - intros (kind & allowance & available & H1 & H2 & H3 & H4 & H5 & (Hr & Hc & Hd & He) & H7 & ->).
    rewrite H1, H3, H4, H5, H2. cbn [reject_if]. cbn.
    replace (_ || _) with false
      by (symmetry; rewrite !orb_false_iff, Z.leb_gt, !Z.ltb_ge; lia). cbn.
    destruct (input_limit c) as [limit reason]. cbn in *. by rewrite H7.
Qed.

Lemma capability_facts c provider model : capability_ints c → capability_mismatch c provider model = false →
  (0 < hc_ContextWindow c)%Z ∧ count (hc_ContextWindow c) ∧ count (hc_HostInputTokens c) ∧ count (hc_ReservedTokens c) ∧
  count (hc_FramingTokens c) ∧ count (hc_AutoCompactTokens c).
Proof.
  intros Hi H. unfold capability_mismatch in H. rewrite !orb_false_iff in H.
  destruct H as [[[[[_ Hw%Z.leb_gt] Hh%Z.ltb_ge] Hr%Z.ltb_ge] Hf%Z.ltb_ge] Ha%Z.ltb_ge].
  unfold capability_ints in Hi. rewrite !Forall_cons in Hi.
  destruct Hi as (Iw & Ih & _ & Ir & If & Ia & _). unfold is_int in *. lia.
Qed.

(** The whole initial input a budget plans for. *)
Definition budget_input (b : AgentContextBudget) : Z :=
  (ab_EffectiveTokens b + ab_InitialPromptTokens b + ab_HostInputTokens b + ab_FramingTokens b +
   ab_BaselineInputEstimateTokens b + ab_FramingAllowanceTokens b + ab_OverheadAllowanceTokens b)%Z.

Record budget_sound (b : AgentContextBudget) : Prop := {
  bs_effective : (0 < ab_EffectiveTokens b ≤ ab_RequestedTokens b)%Z;
  bs_requested : (ab_RequestedTokens b ≤ MaxAgentContextTokens)%Z;
  bs_parts : Forall (λ z, 0 ≤ z)%Z
    [ab_InitialPromptTokens b; ab_HostInputTokens b; ab_FramingTokens b; ab_BaselineInputEstimateTokens b;
     ab_FramingAllowanceTokens b; ab_OverheadAllowanceTokens b; ab_ReservedTokens b];
  bs_input : (budget_input b ≤ ab_InitialInputLimit b)%Z;
  bs_window : (5 * ab_InitialInputLimit b ≤ 4 * ab_ContextWindow b)%Z;
  bs_window_int : count (ab_ContextWindow b);
  bs_output : (ab_InitialInputLimit b + ab_ReservedTokens b ≤ ab_ContextWindow b)%Z;
  bs_compact : ab_AutoCompactUnverified b = false → (0 < ab_AutoCompactTokens b)%Z →
    (ab_InitialInputLimit b < ab_AutoCompactTokens b)%Z;
  bs_ceiling : ab_InputAccountingPolicy b = MeasuredInputReserveV1 → (0 < ab_ObservedInputCeilingTokens b)%Z →
    (ab_InitialInputLimit b ≤ ab_ObservedInputCeilingTokens b)%Z }.

(** The limit respects each of its bounds. *)
Lemma limit_of_bounds window reserved compact ceiling : (0 ≤ window)%Z →
  let limit := limit_of window reserved compact ceiling in
  (5 * limit ≤ 4 * window ∧ limit + reserved ≤ window)%Z ∧
  (∀ z, compact = Some z → limit < z)%Z ∧ (∀ z, ceiling = Some z → limit ≤ z)%Z.
Proof.
  intros Hw. unfold limit_of. pose proof (Z.mul_div_le (4 * window) 5 ltac:(lia)).
  destruct compact, ceiling; cbn; split_and!; intros; simplify_eq; lia.
Qed.

Lemma compact_bound_pos c z : compact_bound c = Some z → (0 < z)%Z.
Proof. unfold compact_bound. destruct (Z.ltb_spec 0 (hc_AutoCompactTokens c)), (hc_AutoCompactKnown c); cbn; naive_solver. Qed.

Lemma ceiling_bound_pos c z : ceiling_bound c = Some z → (0 < z)%Z.
Proof.
  unfold ceiling_bound. destruct (Z.ltb_spec 0 (ic_InputCeilingTokens (hc_Calibration c))), (is_measured c); cbn;
    naive_solver.
Qed.

(** What a successful resolution says, with exact integers. *)
Lemma ResolveBudget_exact c provider model requested counter b :
  capability_ints c → ResolveBudget c provider model requested counter = Ok b →
  ∃ available, (0 < available)%Z ∧ reservable c (allowance_of c) ∧
    ab_InitialInputLimit b = limit_of (hc_ContextWindow c) (hc_ReservedTokens c) (compact_bound c) (ceiling_bound c) ∧
    available = (ab_InitialInputLimit b - reservations c (allowance_of c))%Z ∧
    b = resolved_budget c provider model requested (input_limit c).1 (input_limit c).2 (allowance_of c) available.
Proof.
  intros Hi H. apply ResolveBudget_Ok in H as
    (kind & allowance & available & H1 & H2 & H3 & H4 & H5 & (Hr & Hc & Hd & He) & H7 & ->).
  destruct (capability_facts c provider model Hi H1) as (Hw0 & Hw & Hh & Hrs & Hf & Ha).
  unfold capability_ints in Hi. rewrite !Forall_cons in Hi. destruct Hi as (_ & _ & Ip & _ & _ & _ & Ib & Ifa & Io & _).
  destruct (input_allowance_Ok c allowance) as (-> & Hall & Hest); [done..|].
  assert (Hres : reservable c (allowance_of c)).
  { split; [done..|by apply count_is_int|done|]. intros E. destruct (Hest E). split; by apply count_is_int. }
  pose proof (input_limit_exact c Hw Hrs Ha) as Hlim.
  apply package_capacity_Ok in H7 as [Hpos ->]; [|rewrite Hlim; apply limit_of_count;
    [done|lia|done|apply compact_bound_pos|apply ceiling_bound_pos]|done].
  eexists. split; [exact Hpos|]. split; [done|]. split; [exact Hlim|]. done.
Qed.

(** Without a policy of its own the capability knows its input and its compaction. *)
Lemma strict_known c a : input_allowance c = Ok a → is_measured c || is_estimated c || is_catalog c = false →
  hc_HostInputKnown c = true ∧ hc_AutoCompactKnown c = true ∧ hc_Calibration c = zero_calibration.
Proof.
  unfold input_allowance. intros H. rewrite !orb_false_iff. intros [[Hm He] Hc]. rewrite Hm, He, Hc in H.
  apply bind_Ok in H as ([] & Hk & _). apply reject_if_Ok in Hk. rewrite !orb_false_iff, !negb_false_iff in Hk.
  destruct Hk as [[[[_ Hh] Ha] _] Hz%bool_decide_eq_true]. done.
Qed.

Lemma ResolveBudget_sound c provider model requested counter b :
  capability_ints c → ResolveBudget c provider model requested counter = Ok b → budget_sound b.
Proof.
  intros Hi H. pose proof (ResolveBudget_exact _ _ _ _ _ _ Hi H) as (available & Hpos & Hres & Hlim & Hav & Hb).
  apply ResolveBudget_Ok in H as (kind & allowance & av & H1 & _ & H3 & _ & H5 & (Hr & _ & Hd & He) & _ & _).
  destruct (capability_facts c provider model Hi H1) as (Hw0 & Hw & Hh & Hrs & Hf & Ha).
  destruct (limit_of_bounds (hc_ContextWindow c) (hc_ReservedTokens c) (compact_bound c) (ceiling_bound c))
    as ((B1 & B2) & B3 & B4); [lia|]. rewrite <- Hlim in *.
  destruct Hres as [_ _ Hp Hal Hest]. unfold reservations in Hav.
  assert (Hbase : (0 ≤ hc_BaselineInputEstimateTokens c ∧ 0 ≤ hc_FramingAllowanceTokens c ∧
     (if is_estimated c then hc_BaselineInputEstimateTokens c + hc_FramingAllowanceTokens c else 0) =
     hc_BaselineInputEstimateTokens c + hc_FramingAllowanceTokens c)%Z).
  { destruct (is_estimated c) eqn:E; [destruct (Hest eq_refl); lia|]. cbn in H3. rewrite !orb_false_iff, !negb_false_iff in H3.
    destruct H3 as [[->%Z.eqb_eq _] ->%Z.eqb_eq]. lia. }
  destruct Hbase as (Hb1 & Hb2 & Hbe). rewrite Hbe in Hav. clear Hlim.
  rewrite Hb in B1, B2, B3, B4, Hav |- *. cbn [ab_InitialInputLimit resolved_budget] in B1, B2, B3, B4, Hav.
  split; cbn -[MaxAgentContextTokens Z.mul limit_of].
  - lia.
  - lia.
  - repeat constructor; try lia.
  - unfold budget_input. cbn -[Z.mul]. lia.
  - done.
  - done.
  - done.
  - intros Hun Hc. apply B3. unfold compact_bound. rewrite (proj2 (Z.ltb_lt 0 _) Hc), andb_true_r.
    destruct (is_measured c || is_estimated c || is_catalog c) eqn:E; [|by destruct (strict_known c allowance H5 E) as (_ & -> & _)].
    by destruct (hc_AutoCompactKnown c).
  - intros Hm Hc. apply B4. unfold ceiling_bound, is_measured. by rewrite Hm, (proj2 (Z.ltb_lt 0 _) Hc).
Qed.

(** ** Receipts *)

Definition with_evidence (c : AgentHostCapability) (evidence : string) : AgentHostCapability :=
  {| hc_Provider := hc_Provider c; hc_Model := hc_Model c; hc_HostVersion := hc_HostVersion c;
     hc_Evidence := evidence; hc_Verified := hc_Verified c; hc_ContextWindow := hc_ContextWindow c;
     hc_HostInputTokens := hc_HostInputTokens c; hc_HostInputKnown := hc_HostInputKnown c;
     hc_InitialPromptTokens := hc_InitialPromptTokens c; hc_ReservedTokens := hc_ReservedTokens c;
     hc_FramingTokens := hc_FramingTokens c; hc_AutoCompactTokens := hc_AutoCompactTokens c;
     hc_AutoCompactKnown := hc_AutoCompactKnown c; hc_Tokenizer := hc_Tokenizer c;
     hc_InputAccountingPolicy := hc_InputAccountingPolicy c; hc_RuntimeScope := hc_RuntimeScope c;
     hc_Calibration := hc_Calibration c; hc_WindowEstimateSource := hc_WindowEstimateSource c;
     hc_WindowEstimateObservedAt := hc_WindowEstimateObservedAt c;
     hc_WindowEstimateHash := hc_WindowEstimateHash c;
     hc_WindowEstimateClientVersion := hc_WindowEstimateClientVersion c;
     hc_BaselineInputEstimateTokens := hc_BaselineInputEstimateTokens c;
     hc_BaselineInputMeasurement := hc_BaselineInputMeasurement c;
     hc_FramingAllowanceTokens := hc_FramingAllowanceTokens c |}.

Lemma CalibrationScope_evidence c evidence : hc_Evidence c ≠ "" → evidence ≠ "" →
  CalibrationScope (with_evidence c evidence) = CalibrationScope c.
Proof.
  intros H1 H2. unfold CalibrationScope.
  change (calibration_scope_json (with_evidence c evidence)) with (calibration_scope_json c).
  generalize (HashContent (encode (calibration_scope_json c))). intros scope.
  cbn [with_evidence hc_Evidence]. rewrite (bool_decide_false (evidence = "")), (bool_decide_false (hc_Evidence c = "")); done.
Qed.

Lemma ResolveBudget_evidence c evidence provider model requested counter :
  hc_Evidence c ≠ "" → evidence ≠ "" →
  ResolveBudget (with_evidence c evidence) provider model requested counter =
  ResolveBudget c provider model requested counter.
Proof.
  intros H1 H2. unfold ResolveBudget.
  assert (capability_mismatch (with_evidence c evidence) provider model = capability_mismatch c provider model) as ->.
  { unfold capability_mismatch. cbn. rewrite (bool_decide_false (evidence = "")), (bool_decide_false (hc_Evidence c = "")); done. }
  assert (input_allowance (with_evidence c evidence) = input_allowance c) as ->; [|done].
  unfold input_allowance, measured_allowance. rewrite CalibrationScope_evidence by done. done.
Qed.

(** The calibration a resolved capability carries: its scope is its own, or it is empty. *)
Lemma resolved_calibration c a : input_allowance c = Ok a →
  (is_measured c = true → ∃ scope, CalibrationScope c = Ok scope ∧ ic_Scope (hc_Calibration c) = scope) ∧
  (is_measured c = false → hc_Calibration c = zero_calibration).
Proof.
  intros H. pose proof (strict_known c a H) as Hs. unfold input_allowance in H. destruct (policy_distinct c) as [He Hm].
  destruct (is_catalog c) eqn:Hcat.
  { split; [intros E; by destruct (Hm E)|intros _].
    apply bind_Ok in H as ([] & _ & H). apply bind_Ok in H as ([] & Hk & _). apply reject_if_Ok in Hk.
    unfold claims_runtime in Hk. rewrite !orb_false_iff in Hk.
    by destruct Hk as [[_ Hz%negb_false_iff%bool_decide_eq_true] _]. }
  destruct (is_estimated c) eqn:Hest.
  { split; [intros E; by destruct (Hm E)|intros _].
    apply bind_Ok in H as ([] & Hk & _). apply reject_if_Ok in Hk. rewrite !orb_false_iff in Hk.
    destruct Hk as [[[Hk _] _] _]. unfold claims_runtime in Hk. rewrite !orb_false_iff in Hk.
    by destruct Hk as [[_ Hz%negb_false_iff%bool_decide_eq_true] _]. }
  destruct (is_measured c) eqn:Hme.
  { split; [intros _|done]. unfold measured_allowance in H. apply bind_Ok in H as (scope & Hsc & H).
    apply bind_Ok in H as ([] & Hk & _). apply reject_if_Ok in Hk. rewrite !orb_false_iff in Hk.
    destruct Hk as [[[_ Hz%negb_false_iff%bool_decide_eq_true] _] _]. eauto. }
  split; [done|intros _]. by apply Hs.
Qed.

Lemma resolved_verified c provider model a : capability_mismatch c provider model = false → input_allowance c = Ok a →
  hc_Verified c = negb (is_catalog c) ∧ hc_Provider c = provider ∧ hc_Model c = model ∧ hc_Evidence c ≠ "".
Proof.
  intros H1 H. unfold capability_mismatch in H1. rewrite !orb_false_iff in H1.
  destruct H1 as [[[[[[[[[[[_ Hv] Hp%negb_false_iff%bool_decide_eq_true] Hm%negb_false_iff%bool_decide_eq_true] _] _] Hev%bool_decide_eq_false] _] _] _] _] _].
  split; [|done]. destruct (is_catalog c) eqn:Hcat; [|by destruct (hc_Verified c)].
  unfold input_allowance in H. rewrite Hcat in H. apply bind_Ok in H as ([] & Hk & _).
  unfold validateWindowEstimate in Hk. apply reject_if_Ok in Hk. rewrite !orb_false_iff in Hk.
  by destruct Hk as [[[[[_ ->] _] _] _] _].
Qed.

(** Recording a budget and reading it back loses only the evidence's wording. *)
Lemma capability_resolved c provider model requested limit reason a available :
  capability_mismatch c provider model = false → input_allowance c = Ok a →
  capability (resolved_budget c provider model requested limit reason a available) = with_evidence c recorded_evidence.
Proof.
  intros H1 H. destruct (resolved_verified c provider model a H1 H) as (Hv & Hp & Hm & Hev).
  destruct (resolved_calibration c a H) as [Hcal Hzero]. pose proof (strict_known c a H) as Hs.
  set (b := resolved_budget c provider model requested limit reason a available).
  assert (Hknown : negb (ab_HostInputUnverified b) = hc_HostInputKnown c ∧
                   negb (ab_AutoCompactUnverified b) = hc_AutoCompactKnown c).
  { subst b. cbn. destruct (is_measured c || is_estimated c || is_catalog c) eqn:E; cbn.
    - by rewrite !negb_involutive.
    - destruct (Hs eq_refl) as (-> & -> & _). done. }
  assert (Hu : with_calibration (capability_uncalibrated b) (hc_Calibration c) = with_evidence c recorded_evidence).
  { unfold with_calibration, capability_uncalibrated, with_evidence. destruct Hknown as [-> ->].
    subst b. cbn. rewrite Hv, Hp, Hm. done. }
  rewrite <- Hu. unfold capability. change (ab_InputAccountingPolicy b) with (hc_InputAccountingPolicy c).
  change (hc_InputAccountingPolicy c =? MeasuredInputReserveV1) with (is_measured c).
  destruct (is_measured c) eqn:Hme.
  - destruct (Hcal eq_refl) as (scope & Hsc & Hscope).
    assert (CalibrationScope (capability_uncalibrated b) = CalibrationScope c) as Heq.
    { rewrite <- (CalibrationScope_evidence c recorded_evidence) by done. rewrite <- Hu. reflexivity. }
    rewrite Heq, Hsc, <- Hscope. subst b. cbn [ab_ObservedOverheadTokens ab_ObservedInputCeilingTokens resolved_budget].
    by destruct (hc_Calibration c).
  - rewrite (Hzero eq_refl). reflexivity.
Qed.

Definition budget_ints (b : AgentContextBudget) : Prop :=
  Forall is_int
    [ab_ContextWindow b; ab_HostInputTokens b; ab_InitialPromptTokens b; ab_ReservedTokens b; ab_FramingTokens b;
     ab_AutoCompactTokens b; ab_BaselineInputEstimateTokens b; ab_FramingAllowanceTokens b;
     ab_ObservedOverheadTokens b; ab_ObservedInputCeilingTokens b].

Lemma capability_budget_ints b : budget_ints b → capability_ints (capability b).
Proof.
  unfold budget_ints, capability_ints, capability. rewrite !Forall_cons, !Forall_nil.
  intros (? & ? & ? & ? & ? & ? & ? & ? & ? & ? & _).
  assert (is_int 0) by (unfold is_int, min_int, max_int; lia).
  destruct (ab_InputAccountingPolicy b =? MeasuredInputReserveV1); done.
Qed.

Lemma Budget_Validate_Ok b provider model requested usage :
  Budget_Validate b provider model requested usage = Ok tt ↔
  (0 < tu_Tokens usage ≤ ab_EffectiveTokens b)%Z ∧ ResolveBudget (capability b) provider model requested usage = Ok b.
Proof.
  unfold Budget_Validate. split.
  - intros H. apply bind_Ok in H as ([] & Hk%reject_if_Ok%Z.leb_gt & H). apply bind_Ok in H as (e & He & H).
    apply bind_Ok in H as ([] & Hb%reject_if_Ok & H). apply reject_if_Ok, Z.ltb_ge in H.
    apply negb_false_iff, bool_decide_eq_true in Hb as <-. split; [lia|done].
  - intros [Ht ->]. rewrite (proj2 (Z.leb_gt _ _)) by lia. cbn.
    rewrite bool_decide_true by done. cbn. by rewrite (proj2 (Z.ltb_ge _ _)) by lia.
Qed.

Lemma Budget_Validate_sound b provider model requested usage :
  budget_ints b → Budget_Validate b provider model requested usage = Ok tt →
  budget_sound b ∧ (0 < tu_Tokens usage ≤ ab_EffectiveTokens b)%Z ∧
  ab_Provider b = provider ∧ ab_Model b = model ∧ ab_RequestedTokens b = requested.
Proof.
  intros Hi [Ht H]%Budget_Validate_Ok. split; [eapply ResolveBudget_sound; [by apply capability_budget_ints|exact H]|].
  split; [done|]. apply ResolveBudget_Ok in H as (k & a & v & _ & _ & _ & _ & _ & _ & _ & Hb).
  rewrite Hb. done.
Qed.

(** The counter matters to a resolution only through its accounting. *)
Lemma ResolveBudget_counter c provider model requested counter usage kind b :
  ResolveBudget c provider model requested counter = Ok b → (0 ≤ tu_Tokens usage)%Z →
  ValidateAgentTokenAccounting (hc_InputAccountingPolicy c) provider (hc_Tokenizer c) usage = Ok kind →
  ResolveBudget c provider model requested usage = Ok b.
Proof.
  intros H Hu Hk. apply ResolveBudget_Ok in H as (k & a & v & H1 & _ & H3 & H4 & H5 & (Hr & _ & Hd & He) & H7 & Hb).
  apply ResolveBudget_Ok. exists kind, a, v. repeat (split; [done|]). done.
Qed.

Lemma Budget_roundtrip c provider model requested counter usage kind b :
  ResolveBudget c provider model requested counter = Ok b →
  ValidateAgentTokenAccounting (hc_InputAccountingPolicy c) provider (hc_Tokenizer c) usage = Ok kind →
  (0 < tu_Tokens usage ≤ ab_EffectiveTokens b)%Z → Budget_Validate b provider model requested usage = Ok tt.
Proof.
  intros H Hk Ht. apply Budget_Validate_Ok. split; [done|].
  pose proof H as H'. apply ResolveBudget_Ok in H' as (k & a & v & H1 & _ & _ & _ & H5 & _ & _ & Hb).
  assert (capability b = with_evidence c recorded_evidence) as -> by (rewrite Hb; by apply capability_resolved).
  destruct (resolved_verified c provider model a H1 H5) as (_ & _ & _ & Hev).
  rewrite ResolveBudget_evidence by done. eapply ResolveBudget_counter; [done|lia|done].
Qed.

(** ** Merging observations *)

Lemma Calibration_Validate_Ok c scope : Calibration_Validate c scope = Ok tt ↔
  is_content_hash scope ∧ ic_Scope c = scope ∧ (0 ≤ ic_OverheadTokens c ∧ 0 ≤ ic_InputCeilingTokens c)%Z.
Proof.
  unfold Calibration_Validate. rewrite reject_if_Ok, !orb_false_iff, !Z.ltb_ge, negb_false_iff, is_ok_unit,
    ValidateContentHash_Ok, negb_false_iff, bool_decide_eq_true. tauto.
Qed.

Lemma Calibration_Validate_Err c scope e : Calibration_Validate c scope = Err e → e = ErrProviderCapabilityUnknown.
Proof. unfold Calibration_Validate. destruct (_ || _); cbn; congruence. Qed.

(** Valid feedback of one scope; no ceiling is the weakest one. *)
Definition calibrated (scope : string) (c : AgentInputCalibration) : Prop := Calibration_Validate c scope = Ok tt.

Definition merged (a b : AgentInputCalibration) : AgentInputCalibration :=
  MkCalibration (ic_Scope a) (Z.max (ic_OverheadTokens a) (ic_OverheadTokens b))
    (if (ic_InputCeilingTokens a =? 0)%Z then ic_InputCeilingTokens b
     else if (ic_InputCeilingTokens b =? 0)%Z then ic_InputCeilingTokens a
     else Z.min (ic_InputCeilingTokens a) (ic_InputCeilingTokens b)).

Lemma Calibration_Merge_cases a b :
  (calibrated (ic_Scope a) a ∧ calibrated (ic_Scope a) b ∧ Calibration_Merge a b = Ok (merged a b)) ∨
  (¬ (calibrated (ic_Scope a) a ∧ calibrated (ic_Scope a) b) ∧ Calibration_Merge a b = Err ErrProviderCapabilityUnknown).
Proof.
  unfold Calibration_Merge, calibrated. destruct (Calibration_Validate a (ic_Scope b)) as [[]|e] eqn:Ha.
  - pose proof Ha as (Hh & Hs & Ho & Hc)%Calibration_Validate_Ok. rewrite Hs. cbn.
    destruct (Calibration_Validate b (ic_Scope b)) as [[]|e] eqn:Hb.
    + left. pose proof Hb as (_ & _ & Hbo & Hbc)%Calibration_Validate_Ok. split_and!; [done..|]. cbn. unfold merged. rewrite Hs. do 2 f_equal.
      destruct (Z.ltb_spec 0 (ic_InputCeilingTokens b)), (Z.eqb_spec (ic_InputCeilingTokens a) 0),
        (Z.eqb_spec (ic_InputCeilingTokens b) 0),
        (Z.ltb_spec (ic_InputCeilingTokens b) (ic_InputCeilingTokens a)); cbn; lia.
    + right. split; [naive_solver|]. cbn. by rewrite (Calibration_Validate_Err _ _ _ Hb).
  - right. split; [|cbn; by rewrite (Calibration_Validate_Err _ _ _ Ha)].
    intros [Ha' (_ & Hs & _)%Calibration_Validate_Ok]. congruence.
Qed.

Lemma merged_calibrated scope a b : calibrated scope a → calibrated scope b → calibrated scope (merged a b).
Proof.
  unfold calibrated. rewrite !Calibration_Validate_Ok. cbn. intros (? & ? & ? & ?) (_ & ? & ? & ?). split_and!; [done|done|lia|].
  destruct (Z.eqb_spec (ic_InputCeilingTokens a) 0), (Z.eqb_spec (ic_InputCeilingTokens b) 0); lia.
Qed.

Lemma merged_comm scope a b : calibrated scope a → calibrated scope b → merged a b = merged b a.
Proof.
  unfold calibrated. rewrite !Calibration_Validate_Ok. intros (_ & Ha & ?) (_ & Hb & ?). unfold merged.
  rewrite Ha, Hb. f_equal; [lia|].
  destruct (Z.eqb_spec (ic_InputCeilingTokens a) 0), (Z.eqb_spec (ic_InputCeilingTokens b) 0); lia.
Qed.

Lemma merged_assoc scope a b c : calibrated scope a → calibrated scope b → calibrated scope c →
  merged (merged a b) c = merged a (merged b c).
Proof.
  unfold calibrated. rewrite !Calibration_Validate_Ok. intros (_ & Ha & ? & ?) (_ & Hb & ? & ?) (_ & Hc & ? & ?).
  unfold merged. cbn. f_equal; [lia|].
  destruct (Z.eqb_spec (ic_InputCeilingTokens a) 0), (Z.eqb_spec (ic_InputCeilingTokens b) 0),
    (Z.eqb_spec (ic_InputCeilingTokens c) 0); cbn;
    repeat match goal with |- context [Z.eqb ?x ?y] => destruct (Z.eqb_spec x y) end; lia.
Qed.

Lemma merged_idem a : merged a a = a.
Proof.
  unfold merged. rewrite !Z.max_id, Z.min_id. destruct a as [s o c]. cbn.
  by destruct (Z.eqb_spec c 0).
Qed.

Lemma Merge_Ok_iff a b r : Calibration_Merge a b = Ok r ↔
  calibrated (ic_Scope a) a ∧ calibrated (ic_Scope a) b ∧ r = merged a b.
Proof. destruct (Calibration_Merge_cases a b) as [(Ha & Hb & ->)|[Hn ->]]; naive_solver. Qed.

Lemma calibrated_scope scope c : calibrated scope c → ic_Scope c = scope.
Proof. unfold calibrated. rewrite Calibration_Validate_Ok. tauto. Qed.

(** ** Observations *)

Definition observation_ints (o : AgentInputObservation) : Prop :=
  is_int (io_TotalInputTokens o) ∧ is_int (io_SubmittedTextTokens o).

(** The observation refuses the prepared input. *)
Definition refuses (o : AgentInputObservation) : Prop :=
  io_Outcome o = "input_rejected" ∧ io_ExecutionStarted o = false ∨ io_Outcome o = "initial_compaction".

Record observed (b : AgentContextBudget) (selected : AgentTokenUsage) (o : AgentInputObservation)
    (feedback : AgentInputCalibration) (retry : bool) : Prop := {
  od_valid : Budget_Validate b (ab_Provider b) (ab_Model b) (ab_RequestedTokens b) selected = Ok tt;
  od_policy : ab_InputAccountingPolicy b = MeasuredInputReserveV1;
  od_scope : CalibrationScope (capability b) = Ok (io_Scope o);
  od_total : (0 ≤ io_TotalInputTokens o)%Z;
  od_submitted : (0 ≤ io_SubmittedTextTokens o)%Z;
  od_result : ∃ seen, observed_overhead b selected o (hc_Calibration (capability b)) = Ok seen ∧
    ((io_Outcome o = "completed" ∨ io_Outcome o = "unknown") ∧ feedback = seen ∧ retry = false ∨
     refuses o ∧ feedback = lower_ceiling b selected o seen ∧
     retry = (io_Outcome o =? "input_rejected") && io_ExecutionKnown o && (io_RetryAttempt o =? 0)%Z) }.

Lemma ObserveInput_Ok b packageID selected o feedback retry :
  ObserveInput b packageID selected o = Ok (feedback, retry) → observed b selected o feedback retry.
Proof.
  unfold ObserveInput. intros H. apply bind_Ok in H as ([] & Hv & H). apply bind_Ok in H as ([] & Hm%reject_if_Ok & H).
  apply bind_Ok in H as ([] & _ & H). apply bind_Ok in H as (seen & Hs & H).
  unfold observation_mismatch in Hm. destruct (CalibrationScope (capability b)) as [scope|] eqn:Hsc; [|done].
  rewrite !orb_false_iff in Hm.
  destruct Hm as [[[[[[[[Hp _] _] Hscope] _] _] Ht%Z.ltb_ge] Hsub%Z.ltb_ge] _].
  apply negb_false_iff, bool_decide_eq_true in Hp, Hscope.
  split; [done|done|by rewrite Hscope|done|done|]. exists seen. split; [done|].
  destruct ((io_Outcome o =? "completed") || (io_Outcome o =? "unknown")) eqn:Ho.
  - left. apply orb_true_iff in Ho. rewrite !bool_decide_eq_true in Ho. injection H as <- <-. done.
  - right. apply bind_Ok in H as ([] & Hr & H). injection H as <- <-. split; [|done]. unfold refuses.
    destruct (bool_decide_reflect (io_Outcome o = "input_rejected")) as [->|Hne].
    + left. by apply reject_if_Ok in Hr.
    + right. by apply reject_if_Ok, negb_false_iff, bool_decide_eq_true in Hr.
Qed.

Section observation.
Context (b : AgentContextBudget) (selected : AgentTokenUsage) (o : AgentInputObservation).
Context (feedback : AgentInputCalibration) (retry : bool).
Hypothesis Hints : budget_ints b.
Hypothesis Hoints : observation_ints o.
Hypothesis Hobs : observed b selected o feedback retry.

Lemma observed_sound : budget_sound b ∧ (0 < tu_Tokens selected ≤ ab_EffectiveTokens b)%Z.
Proof. pose proof (Budget_Validate_sound _ _ _ _ _ Hints (od_valid _ _ _ _ _ Hobs)). tauto. Qed.

Lemma observed_calibration :
  hc_Calibration (capability b) =
    MkCalibration (io_Scope o) (ab_ObservedOverheadTokens b) (ab_ObservedInputCeilingTokens b) ∧
  calibrated (io_Scope o) (hc_Calibration (capability b)).
Proof.
  pose proof (od_valid _ _ _ _ _ Hobs) as [_ Hr]%Budget_Validate_Ok.
  apply ResolveBudget_Ok in Hr as (k & a & v & _ & _ & _ & _ & H5 & _).
  destruct (resolved_calibration _ _ H5) as [Hcal _]. pose proof (od_scope _ _ _ _ _ Hobs) as Hsc.
  assert (Hm : is_measured (capability b) = true).
  { unfold is_measured, capability. pose proof (od_policy _ _ _ _ _ Hobs) as Hp. rewrite Hp.
    rewrite (bool_decide_true (MeasuredInputReserveV1 = MeasuredInputReserveV1)) by done.
    cbn [with_calibration capability_uncalibrated hc_InputAccountingPolicy]. rewrite Hp. by apply bool_decide_true. }
  destruct (Hcal Hm) as (scope & Hs & Heq). rewrite Hsc in Hs. injection Hs as <-. split.
  - revert Heq. unfold capability. rewrite (od_policy _ _ _ _ _ Hobs), bool_decide_true by done. cbn. by intros ->.
  - unfold input_allowance in H5. destruct (policy_distinct (capability b)) as [_ Hd].
    destruct (Hd Hm) as [Hd1 Hd2]. rewrite Hd1, Hd2, Hm in H5.
    unfold measured_allowance in H5. rewrite Hsc in H5. cbn [mbind result_bind] in H5.
    apply bind_Ok in H5 as ([] & Hv & _). exact Hv.
Qed.

(** The parts of the submitted input fit, so no sum of them wraps. *)
Lemma submitted_exact : submitted_tokens b selected = (tu_Tokens selected + ab_InitialPromptTokens b)%Z ∧
  (tu_Tokens selected + ab_InitialPromptTokens b + ab_HostInputTokens b + ab_FramingTokens b +
   ab_OverheadAllowanceTokens b ≤ ab_InitialInputLimit b)%Z ∧ count (ab_InitialInputLimit b).
Proof.
  destruct observed_sound as [[He _ Hparts Hin Hw Hwc Hout _ _] Ht]. rewrite !Forall_cons in Hparts.
  destruct Hparts as (? & ? & ? & ? & ? & ? & ? & _). unfold budget_input in Hin.
  split; [|lia]. unfold submitted_tokens. apply add_exact. unfold is_int, min_int. lia.
Qed.

Lemma refused_base_bounds : (0 ≤ refused_base b selected o ≤ ab_InitialInputLimit b)%Z.
Proof.
  destruct submitted_exact as (Hs & Hsum & Hl). destruct observed_sound as [[He _ Hparts _ _ _ _ _ _] Ht].
  rewrite !Forall_cons in Hparts. destruct Hparts as (? & ? & ? & ? & ? & ? & ? & _).
  unfold refused_base. cbn [foldl]. rewrite Hs.
  rewrite !add_exact by (unfold is_int, min_int; rewrite ?add_exact by (unfold is_int, min_int; rewrite ?add_exact by (unfold is_int, min_int; lia); lia); lia).
  pose proof (od_total _ _ _ _ _ Hobs). destruct (io_UsageKnown o); lia.
Qed.

Lemma observed_overhead_Ok seen : observed_overhead b selected o (hc_Calibration (capability b)) = Ok seen →
  calibrated (io_Scope o) seen ∧ ic_InputCeilingTokens seen = ab_ObservedInputCeilingTokens b ∧
  (ab_ObservedOverheadTokens b ≤ ic_OverheadTokens seen ≤ max_int)%Z ∧
  (io_UsageKnown o = true → (io_TotalInputTokens o - io_SubmittedTextTokens o ≤ ic_OverheadTokens seen)%Z).
Proof.
  destruct observed_calibration as [-> Hc]. destruct Hoints as [It Is].
  apply Calibration_Validate_Ok in Hc as (Hh & Hsc & Hov & Hce).
  assert (Io : is_int (ab_ObservedOverheadTokens b)).
  { unfold budget_ints in Hints. rewrite !Forall_cons in Hints. tauto. }
  unfold observed_overhead, calibrated. destruct (io_UsageKnown o); intros H; apply bind_Ok in H as ([] & Hk%reject_if_Ok & H);
    injection H as <-; rewrite Calibration_Validate_Ok; cbn in *.
  - rewrite !orb_false_iff in Hk. destruct Hk as [_ Hle%Z.ltb_ge].
    pose proof (od_submitted _ _ _ _ _ Hobs). pose proof (od_total _ _ _ _ _ Hobs).
    rewrite sub_nonneg by (unfold is_int in *; lia). split_and!; try done; try lia; unfold is_int in *; lia.
  - split_and!; try done; try lia; unfold is_int in *; lia.
Qed.

(** What an observation can change: overhead grows, the ceiling appears or falls, and a
    refusal brings it a margin below the refused input. *)
Lemma observed_feedback :
  calibrated (io_Scope o) feedback ∧
  (ab_ObservedOverheadTokens b ≤ ic_OverheadTokens feedback ≤ max_int)%Z ∧
  (ic_InputCeilingTokens feedback = ab_ObservedInputCeilingTokens b ∨
   refuses o ∧ (0 < ic_InputCeilingTokens feedback)%Z ∧
   (ab_ObservedInputCeilingTokens b = 0 ∨ ic_InputCeilingTokens feedback < ab_ObservedInputCeilingTokens b)%Z) ∧
  (refuses o → (0 < ic_InputCeilingTokens feedback ≤ Z.max 1 (ab_InitialInputLimit b - 16000))%Z) ∧
  (retry = true → io_Outcome o = "input_rejected" ∧ io_ExecutionStarted o = false ∧ io_ExecutionKnown o = true ∧
     io_RetryAttempt o = 0%Z).
Proof.
  pose proof refused_base_bounds as Hbase. destruct observed_sound as [[_ _ _ _ _ Hwc _ _ _] _].
  destruct submitted_exact as (_ & _ & Hlim).
  destruct (od_result _ _ _ _ _ Hobs) as (seen & Hseen & Hcase).
  destruct (observed_overhead_Ok seen Hseen) as (Hcal & Hceil & Hov & _).
  destruct Hcase as [(Hout & -> & ->)|(Href & -> & Hretry)].
  { split_and!; try done; try lia. unfold refuses. intros [[E _]|E]; destruct Hout; congruence. }
  pose proof (margin_bounds _ Hwc) as Hm.
  destruct (margin_exact _ Hwc) as [Hme Hmc]. rewrite <- Hme in Hmc.
  unfold lower_ceiling. rewrite sub_nonneg by lia.
  set (ceiling := Z.max 1 (refused_base b selected o - InputReserveMargin (ab_ContextWindow b))).
  assert (Hc1 : (0 < ceiling ≤ Z.max 1 (ab_InitialInputLimit b - 16000))%Z) by (subst ceiling; lia).
  pose proof Hcal as (Hh & Hsc & Hov0 & Hce)%Calibration_Validate_Ok. rewrite Hceil in *.
  assert (Hnew : calibrated (io_Scope o) (MkCalibration (ic_Scope seen) (ic_OverheadTokens seen) ceiling)).
  { apply Calibration_Validate_Ok. cbn. split_and!; [done|done|lia|lia]. }
  assert (Hr : retry = true → io_Outcome o = "input_rejected" ∧ io_ExecutionStarted o = false ∧
     io_ExecutionKnown o = true ∧ io_RetryAttempt o = 0%Z).
  { intros E. rewrite Hretry, !andb_true_iff, bool_decide_eq_true, Z.eqb_eq in E. destruct E as [[E1 E2] E3].
    destruct Href as [[_ E4]|E4]; [done|congruence]. }
  destruct (Z.eqb_spec (ab_ObservedInputCeilingTokens b) 0) as [E0|E0];
    [|destruct (Z.ltb_spec ceiling (ab_ObservedInputCeilingTokens b)) as [E1|E1]]; cbn [orb].
  - split_and!; [done|cbn; lia..|right; cbn; tauto|cbn; tauto|done].
  - split_and!; [done|cbn; lia..|right; cbn; tauto|cbn; tauto|done].
  - split_and!; [done|lia..|by left|rewrite Hceil; lia|done].
Qed.
End observation.

(** ** A host that keeps refusing *)

(** [n] preparations of one capability, each refused, each with the previous one's feedback. *)
Inductive refused_preparations (c : AgentHostCapability) : AgentInputCalibration → nat → Prop :=
  | refused_none f : refused_preparations c f 0
  | refused_round f provider model requested counter b packageID selected o f' retry n :
      ResolveBudget (with_calibration c f) provider model requested counter = Ok b →
      observation_ints o → refuses o → ObserveInput b packageID selected o = Ok (f', retry) →
      refused_preparations c f' n → refused_preparations c f (S n).

Lemma resolved_ints c provider model requested counter b :
  capability_ints c → ResolveBudget c provider model requested counter = Ok b → budget_ints b.
Proof. intros Hi (k & a & v & _ & _ & _ & _ & _ & _ & _ & ->)%ResolveBudget_Ok. exact Hi. Qed.

(** Every measured preparation keeps a margin below its limit. *)
Lemma measured_above_margin c provider model requested counter b :
  capability_ints c → ResolveBudget c provider model requested counter = Ok b →
  ab_InputAccountingPolicy b = MeasuredInputReserveV1 → (16000 < ab_InitialInputLimit b)%Z.
Proof.
  intros Hi H Hp. pose proof (ResolveBudget_sound _ _ _ _ _ _ Hi H) as [He _ Hparts Hin _ _ _ _ _].
  pose proof (ResolveBudget_exact _ _ _ _ _ _ Hi H) as (v & _ & _ & _ & _ & Hb).
  rewrite !Forall_cons in Hparts. destruct Hparts as (? & ? & ? & ? & ? & ? & ? & _). unfold budget_input in Hin.
  assert (Hm : is_measured c = true) by (rewrite Hb in Hp; by apply bool_decide_true).
  assert (Ha : (16000 ≤ ab_OverheadAllowanceTokens b)%Z); [|lia].
  rewrite Hb. cbn. unfold allowance_of. destruct (policy_distinct c) as [_ Hd]. destruct (Hd Hm) as [-> ->].
  rewrite Hm. cbn. unfold margin_of. lia.
Qed.

Lemma refused_preparations_bound c f n : capability_ints (with_calibration c f) → refused_preparations c f n → 0 < n →
  (16000 * Z.of_nat n < hc_ContextWindow c)%Z ∧
  ((0 < ic_InputCeilingTokens f)%Z → (16000 * Z.of_nat n < ic_InputCeilingTokens f)%Z).
Proof.
  intros Hi Hr. induction Hr as [f|f provider model requested counter b packageID selected o f' retry n Hres Ho Href Hobs _ IH].
  { lia. }
  intros _. pose proof (ResolveBudget_sound _ _ _ _ _ _ Hi Hres) as Hs.
  pose proof (resolved_ints _ _ _ _ _ _ Hi Hres) as Hbi. apply ObserveInput_Ok in Hobs as Hod.
  pose proof (od_policy _ _ _ _ _ Hod) as Hp. pose proof (measured_above_margin _ _ _ _ _ _ Hi Hres Hp) as Hlim.
  destruct (observed_feedback _ _ _ _ _ Hbi Ho Hod) as (Hcal & Hov & _ & Hce & _). specialize (Hce Href).
  destruct Hs as [_ _ _ _ Hw Hwc _ _ Hcl].
  assert (Hwin : ab_ContextWindow b = hc_ContextWindow c ∧ ab_ObservedInputCeilingTokens b = ic_InputCeilingTokens f).
  { apply ResolveBudget_Ok in Hres as (k & a & v & _ & _ & _ & _ & _ & _ & _ & ->). done. }
  destruct Hwin as [Hwin Hceil]. rewrite Hwin, ?Hceil in *.
  assert (Hn : (16000 * Z.of_nat (S n) < ab_InitialInputLimit b)%Z).
  { destruct (decide (n = 0)) as [->|Hn]; [lia|]. destruct IH as [_ IH]; [|lia|].
    - unfold capability_ints in *. rewrite !Forall_cons in *. destruct Hi as (? & ? & ? & ? & ? & ? & ? & ? & _).
      apply calibrated_scope in Hcal as Hsc. apply Calibration_Validate_Ok in Hcal as (_ & _ & Ho1 & Ho2).
      split_and!; try done; cbn; unfold is_int, min_int; lia.
    - specialize (IH ltac:(lia)). lia. }
  specialize (Hcl Hp). lia.
Qed.

(** ** Requested budgets and native estimates *)

Lemma ParseHistoryBudget_range value n : ParseHistoryBudget value = Ok n → (1 ≤ n ≤ MaxAgentContextTokens)%Z.
Proof.
  unfold ParseHistoryBudget. destruct (_ || _); [intros [= <-]; done|]. intros H. apply bind_Ok in H as (m & _ & H).
  apply bind_Ok in H as ([] & Hk%reject_if_Ok & H). injection H as <-.
  apply orb_false_iff in Hk as [Hpos%Z.leb_gt Hmax%Z.ltb_ge]. unfold MaxAgentContextTokens in *.
  destruct (HasSuffix value "k"); rewrite div_exact in Hmax by (unfold max_int; lia);
    [change (800000 / 1000)%Z with 800%Z in Hmax|change (800000 / 1)%Z with 800000%Z in Hmax];
    rewrite mul_exact by (unfold is_int, min_int, max_int; lia); lia.
Qed.

(** The whole native input, the pending prompt and the allowance fit the limit. *)
Lemma ValidateNativeInputEstimate_fits b usage e : budget_ints b → ValidateNativeInputEstimate b usage e = Ok tt →
  (0 ≤ ne_TotalTokens e ∧ ne_TotalTokens e + ab_InitialPromptTokens b + ab_OverheadAllowanceTokens b ≤ ab_InitialInputLimit b)%Z.
Proof.
  intros Hi H. unfold ValidateNativeInputEstimate in H. apply bind_Ok in H as ([] & _ & H).
  apply bind_Ok in H as ([] & Hv & H). apply bind_Ok in H as ([] & Hk%reject_if_Ok & H).
  apply Budget_Validate_sound in Hv as ([He _ Hparts Hin Hw Hwc Hout _ _] & _); [|done].
  rewrite !Forall_cons in Hparts. destruct Hparts as (? & ? & ? & ? & ? & ? & ? & _). unfold budget_input in Hin.
  apply reject_if_Ok, Z.ltb_ge in H. rewrite !sub_nonneg in H by (rewrite ?sub_nonneg by lia; lia).
  rewrite !orb_false_iff in Hk. destruct Hk as [_ Ht%Z.ltb_ge]. lia.
Qed.

(** * A sample capability *)
Module BudgetSamples.
Definition uncalibrated : AgentHostCapability :=
  {| hc_Provider := ProviderCodex; hc_Model := "model"; hc_HostVersion := "1.0"; hc_Evidence := "probe";
     hc_Verified := true; hc_ContextWindow := 200000; hc_HostInputTokens := 1000; hc_HostInputKnown := true;
     hc_InitialPromptTokens := 100; hc_ReservedTokens := 20000; hc_FramingTokens := 50;
     hc_AutoCompactTokens := 150000; hc_AutoCompactKnown := true; hc_Tokenizer := "o200k";
     hc_InputAccountingPolicy := MeasuredInputReserveV1; hc_RuntimeScope := HashContent "runtime";
     hc_Calibration := zero_calibration; hc_WindowEstimateSource := ""; hc_WindowEstimateObservedAt := "";
     hc_WindowEstimateHash := ""; hc_WindowEstimateClientVersion := ""; hc_BaselineInputEstimateTokens := 0;
     hc_BaselineInputMeasurement := ""; hc_FramingAllowanceTokens := 0 |}.

Definition scope : string := match CalibrationScope uncalibrated with Ok s => s | Err _ => "" end.
Definition initial : AgentInputCalibration := MkCalibration scope 0 0.
Definition host : AgentHostCapability := with_calibration uncalibrated initial.
Definition usage (n : Z) : AgentTokenUsage := MkUsage n true "o200k" "" "".

Definition budget : AgentContextBudget :=
  match ResolveBudget host ProviderCodex "model" 100000 (usage 0) with
  | Ok b => b
  | Err _ => resolved_budget host "" "" 0 0 "" 0 0
  end.

Definition rejection : AgentInputObservation :=
  {| io_Scope := scope; io_PackageID := HashContent "package"; io_Outcome := "input_rejected"; io_InitialRequest := true;
     io_ExecutionKnown := true; io_ExecutionStarted := false; io_UsageKnown := true; io_UsageBeforeCompaction := true;
     io_TotalInputTokens := 92000; io_SubmittedTextTokens := 90100; io_SubmittedTextExact := true; io_RetryAttempt := 0 |}.

Definition feedback : AgentInputCalibration * bool :=
  match ObserveInput budget (HashContent "package") (usage 90000) rejection with
  | Ok r => r
  | Err _ => (zero_calibration, false)
  end.
End BudgetSamples.

(** * The claims *)

(** C25: A resolved budget never plans past its window.  On counts that fit an [int], however
    large, the effective package, the prompt, the host's input, the framing, the baseline
    estimate and the internal allowance are nonnegative and sum to at most the initial
    input limit; the limit is within 80% of the window, leaves the required output, is
    below the known compaction trigger and within an observed ceiling; and the package has
    at least one token and no more than requested.  The package is as large as that allows:
    the request, or the limit less the reservations. *)
Theorem resolve_budget_sound c provider model requested counter b :
  capability_ints c → ResolveBudget c provider model requested counter = Ok b →
  budget_sound b ∧
  ab_EffectiveTokens b = Z.min requested (ab_InitialInputLimit b - reservations c (ab_OverheadAllowanceTokens b)).
Proof.
  intros Hi H. split; [by eapply ResolveBudget_sound|].
  destruct (ResolveBudget_exact _ _ _ _ _ _ Hi H) as (v & _ & _ & _ & Hv & Hb).
  rewrite Hb in Hv |- *. cbn in *. by rewrite Hv.
Qed.

Lemma resolve_budget_sound_witness :
  ab_EffectiveTokens BudgetSamples.budget = 100000%Z ∧ budget_sound BudgetSamples.budget.
Proof.
  split; [vm_compute; reflexivity|].
  apply (resolve_budget_sound BudgetSamples.host ProviderCodex "model" 100000 (BudgetSamples.usage 0));
    [repeat constructor; vm_compute; discriminate|vm_compute; reflexivity].
Defined.

(** A recorded budget is accepted for exactly what it was prepared for.  The budget a
    capability resolves to validates against the same request with any positive package
    accounting within the effective size, by any counter the policy accepts, and with no
    other: what was resolved survives being recorded and recomputed. *)
Theorem budget_receipt_roundtrip c provider model requested counter b :
  ResolveBudget c provider model requested counter = Ok b →
  ∀ usage, is_ok (ValidateAgentTokenAccounting (hc_InputAccountingPolicy c) provider (hc_Tokenizer c) usage) = true →
  Budget_Validate b provider model requested usage = Ok tt ↔ (0 < tu_Tokens usage ≤ ab_EffectiveTokens b)%Z.
Proof.
  intros H usage [kind Hk]%is_ok_true. split; [by intros [? _]%Budget_Validate_Ok|]. by eapply Budget_roundtrip.
Qed.

Lemma budget_receipt_roundtrip_witness :
  Budget_Validate BudgetSamples.budget ProviderCodex "model" 100000 (BudgetSamples.usage 90000) = Ok tt.
Proof.
  apply (budget_receipt_roundtrip BudgetSamples.host ProviderCodex "model" 100000 (BudgetSamples.usage 0));
    [vm_compute; reflexivity..|vm_compute; split; [reflexivity|discriminate]].
Defined.

(** An accepted record is sound: whatever its origin, a budget that validates keeps every
    bound of a resolved one, and the selected package fits it. *)
Theorem validated_budget_sound b provider model requested usage :
  budget_ints b → Budget_Validate b provider model requested usage = Ok tt →
  budget_sound b ∧ (0 < tu_Tokens usage ≤ ab_EffectiveTokens b)%Z ∧
  ab_Provider b = provider ∧ ab_Model b = model ∧ ab_RequestedTokens b = requested.
Proof. apply Budget_Validate_sound. Qed.

Lemma validated_budget_sound_witness : budget_sound BudgetSamples.budget.
Proof.
  apply (validated_budget_sound BudgetSamples.budget ProviderCodex "model" 100000 (BudgetSamples.usage 90000));
    [repeat constructor; vm_compute; discriminate|vm_compute; reflexivity].
Defined.

(** Feedback is order-independent: merging calibrations is commutative and associative,
    errors included, and merging one with itself changes nothing, so duplicate and
    reordered observations are safe. *)
Theorem calibration_merge_semilattice a b c :
  Calibration_Merge a b = Calibration_Merge b a ∧
  (x ← Calibration_Merge a b; Calibration_Merge x c) = (x ← Calibration_Merge b c; Calibration_Merge a x) ∧
  (Calibration_Validate a (ic_Scope a) = Ok tt → Calibration_Merge a a = Ok a).
Proof.
  split; [|split].
  - destruct (Calibration_Merge_cases a b) as [(Ha & Hb & ->)|[Hn ->]].
    + symmetry. apply Merge_Ok_iff. rewrite (calibrated_scope _ _ Hb). split_and!; [done..|]. by eapply merged_comm.
    + destruct (Calibration_Merge_cases b a) as [(Hb & Ha & ->)|[_ ->]]; [|done].
      destruct Hn. by rewrite (calibrated_scope _ _ Ha) in *.
  - destruct (Calibration_Merge_cases a b) as [(Ha & Hb & ->)|[Hn ->]]; cbn [mbind result_bind].
    + pose proof (merged_calibrated _ _ _ Ha Hb) as Hab.
      destruct (Calibration_Merge_cases b c) as [(_ & Hc & ->)|[Hm ->]]; cbn [mbind result_bind].
      * rewrite (calibrated_scope _ _ Hb) in Hc. pose proof (merged_calibrated _ _ _ Hb Hc) as Hbc.
        apply eq_trans with (Ok (merged (merged a b) c)); [by apply Merge_Ok_iff|].
        symmetry. apply Merge_Ok_iff. split_and!; [done..|]. by eapply merged_assoc.
      * destruct (Calibration_Merge_cases (merged a b) c) as [(_ & Hc & _)|[_ ->]]; [|done].
        destruct Hm. rewrite (calibrated_scope _ _ Hb). done.
    + destruct (Calibration_Merge_cases b c) as [(Hb & Hc & ->)|[_ ->]]; cbn [mbind result_bind]; [|done].
      destruct (Calibration_Merge_cases a (merged b c)) as [(Ha & Hbc & _)|[_ ->]]; [|done].
      destruct Hn. split; [done|]. apply calibrated_scope in Hbc. cbn in Hbc. by rewrite <- Hbc.
  - intros H. apply Merge_Ok_iff. by rewrite merged_idem.
Qed.

Lemma calibration_merge_semilattice_witness :
  Calibration_Merge BudgetSamples.initial BudgetSamples.initial = Ok BudgetSamples.initial.
Proof.
  apply (calibration_merge_semilattice BudgetSamples.initial BudgetSamples.initial BudgetSamples.initial).
  vm_compute. reflexivity.
Defined.

(** An observation teaches, and permits one retry.  Feedback from a native turn stays
    valid for the observed scope, never forgets overhead, introduces or lowers the ceiling
    only when the input was refused, and then puts it a margin below the prepared limit; a
    retry is permitted only for an input rejected before execution, on the first attempt. *)
Theorem observe_input_feedback b packageID selected o feedback retry :
  budget_ints b → observation_ints o → ObserveInput b packageID selected o = Ok (feedback, retry) →
  Calibration_Validate feedback (io_Scope o) = Ok tt ∧
  (ab_ObservedOverheadTokens b ≤ ic_OverheadTokens feedback)%Z ∧
  (ic_InputCeilingTokens feedback = ab_ObservedInputCeilingTokens b ∨
   refuses o ∧ (ab_ObservedInputCeilingTokens b = 0 ∨ ic_InputCeilingTokens feedback < ab_ObservedInputCeilingTokens b)%Z) ∧
  (refuses o → (0 < ic_InputCeilingTokens feedback ≤ Z.max 1 (ab_InitialInputLimit b - 16000))%Z) ∧
  (retry = true → io_Outcome o = "input_rejected" ∧ io_ExecutionStarted o = false ∧ io_ExecutionKnown o = true ∧
     io_RetryAttempt o = 0%Z).
Proof.
  intros Hb Ho H%ObserveInput_Ok. destruct (observed_feedback _ _ _ _ _ Hb Ho H) as (H1 & H2 & H3 & H4 & H5).
  split_and!; [done|lia|tauto|done|done].
Qed.

Lemma observe_input_feedback_witness :
  BudgetSamples.feedback = (MkCalibration BudgetSamples.scope 1900 76000, true) ∧
  Calibration_Validate BudgetSamples.feedback.1 BudgetSamples.scope = Ok tt.
Proof.
  split; [vm_compute; reflexivity|].
  apply (observe_input_feedback BudgetSamples.budget (HashContent "package") (BudgetSamples.usage 90000)
           BudgetSamples.rejection BudgetSamples.feedback.1 BudgetSamples.feedback.2);
    [repeat constructor; vm_compute; discriminate|split; split; vm_compute; discriminate|vm_compute; reflexivity].
Defined.

(** C38: Adapting to refusals ends.  If each preparation of a capability uses the feedback of
    the previous refused one, fewer preparations can succeed than the window holds margins
    of 16,000 tokens: a host that keeps refusing is given up, not retried forever. *)
Theorem refused_preparations_finite c f n :
  capability_ints (with_calibration c f) → refused_preparations c f n → 0 < n →
  (16000 * Z.of_nat n < hc_ContextWindow c)%Z.
Proof. intros Hi Hr Hn. by apply (refused_preparations_bound c f n). Qed.

Lemma refused_preparations_finite_witness : (16000 * 1 < hc_ContextWindow BudgetSamples.uncalibrated)%Z.
Proof.
  apply (refused_preparations_finite BudgetSamples.uncalibrated BudgetSamples.initial 1);
    [repeat constructor; vm_compute; discriminate| |lia].
  eapply (refused_round _ _ ProviderCodex "model" 100000 (BudgetSamples.usage 0) BudgetSamples.budget
            (HashContent "package") (BudgetSamples.usage 90000) BudgetSamples.rejection
            BudgetSamples.feedback.1 BudgetSamples.feedback.2);
    [vm_compute; reflexivity|split; split; vm_compute; discriminate|left; split; reflexivity|vm_compute; reflexivity|].
  constructor.
Defined.
