(* ===== verification/AgentPrompt.v ===== *)
(** * Initial prompt reservations

    Models [cli/internal/domain/agent_initial_prompt.go]: an opaque authorization that
    binds one prompt to the accounting it was reserved under.  A reservation is the pair of
    closures of the code, so what it authorizes is what the closures accept. *)
From S2P Require Import Prelude GoStrings Utf8 GoInt GoJson Sha256 Values History AgentBudget.
From Stdlib Require Import Ascii.

(** A supplied empty prompt is not an absent one. *)
Record AgentInitialPrompt := MkPrompt { pt_text : string; pt_present : bool }.

#[export] Instance AgentInitialPrompt_eq_dec : EqDecision AgentInitialPrompt.
Proof. solve_decision. Defined.

Definition NewAgentInitialPrompt (text : string) : AgentInitialPrompt := MkPrompt text true.
Definition absent_prompt : AgentInitialPrompt := MkPrompt "" false.

(** The closures: [None] is Go's nil function. *)
Record AgentPromptReservation := MkReservation {
  rv_validate : option (AgentInitialPrompt → string → string → string → Z → result unit);
  rv_validateBudget : option (AgentInitialPrompt → AgentContextBudget → result unit) }.

Definition zero_reservation : AgentPromptReservation := MkReservation None None.

(** The closure over the reserved prompt, provider, model and usage. *)
Definition reserved_prompt (prompt : AgentInitialPrompt) (provider model : string) (usage : AgentTokenUsage)
    (actual : AgentInitialPrompt) (actualProvider actualModel tokenizer : string) (tokens : Z) : result unit :=
  reject_if (actual <>? prompt) ErrContextBudgetExceeded ;;
  reject_if ((actualProvider <>? provider) || (actualModel <>? model) || (tokenizer <>? tu_Tokenizer usage))
    ErrProviderCapabilityUnknown ;;
  reject_if (negb (tokens =? tu_Tokens usage)%Z) ErrContextBudgetExceeded.

Definition newAgentPromptReservation (prompt : AgentInitialPrompt) (provider model policy : string)
    (usage : AgentTokenUsage) : result AgentPromptReservation :=
  kind ← ValidateAgentTokenAccounting policy provider (tu_Tokenizer usage) usage;
  reject_if ((TrimSpace model =? "") || (TrimSpace (tu_Tokenizer usage) =? "")) ErrProviderCapabilityUnknown ;;
  reject_if ((tu_Tokens usage <? 0)%Z || ((pt_text prompt =? "") && negb (tu_Tokens usage =? 0)%Z) ||
             ((pt_text prompt <>? "") && (tu_Tokens usage =? 0)%Z)) ErrContextBudgetExceeded ;;
  reject_if ((kind =? TextUTF8Allowance) &&
             negb (tu_Tokens usage =? Z.of_nat (String.length (pt_text prompt)))%Z) ErrContextBudgetExceeded ;;
  Ok (MkReservation (Some (reserved_prompt prompt provider model usage)) None).

Definition NewAgentPromptReservation (prompt : AgentInitialPrompt) (provider model : string) (usage : AgentTokenUsage)
    : result AgentPromptReservation :=
  newAgentPromptReservation prompt provider model "" usage.

(** The budget must carry the capability's policy, scope and provenance. *)
Definition budget_provenance_changed (c : AgentHostCapability) (b : AgentContextBudget) : bool :=
  (ab_InputAccountingPolicy b <>? hc_InputAccountingPolicy c) || (ab_RuntimeScope b <>? hc_RuntimeScope c) ||
  (ab_WindowEstimateSource b <>? hc_WindowEstimateSource c) ||
  (ab_WindowEstimateObservedAt b <>? hc_WindowEstimateObservedAt c) ||
  (ab_WindowEstimateHash b <>? hc_WindowEstimateHash c) ||
  (ab_WindowEstimateClientVersion b <>? hc_WindowEstimateClientVersion c).

Definition reserved_budget (c : AgentHostCapability)
    (validate : AgentInitialPrompt → string → string → string → Z → result unit)
    (actual : AgentInitialPrompt) (b : AgentContextBudget) : result unit :=
  reject_if (budget_provenance_changed c b) ErrProviderCapabilityUnknown ;;
  validate actual (ab_Provider b) (ab_Model b) (ab_Tokenizer b) (ab_InitialPromptTokens b).

Definition estimate_policy (policy : string) : bool :=
  (policy =? NativeEstimateReserveV1) || (policy =? CatalogEstimateReserveV1).

(** The legacy entry point of an estimate reservation. *)
Definition refuse_prompt (_ : AgentInitialPrompt) (_ _ _ : string) (_ : Z) : result unit :=
  Err ErrProviderCapabilityUnknown.

Definition NewAgentPromptReservationForCapability (prompt : AgentInitialPrompt) (c : AgentHostCapability)
    (usage : AgentTokenUsage) : result AgentPromptReservation :=
  reject_if (tu_Tokenizer usage <>? hc_Tokenizer c) ErrProviderCapabilityUnknown ;;
  r ← newAgentPromptReservation prompt (hc_Provider c) (hc_Model c) (hc_InputAccountingPolicy c) usage;
  let validate := default refuse_prompt (rv_validate r) in
  let byBudget := Some (reserved_budget c validate) in
  (if hc_InputAccountingPolicy c =? CatalogEstimateReserveV1 then validateWindowEstimate c else Ok tt) ;;
  if estimate_policy (hc_InputAccountingPolicy c) then
    reject_if (negb (is_ok (ValidateContentHash (hc_RuntimeScope c)))) ErrProviderCapabilityUnknown ;;
    Ok (MkReservation (Some refuse_prompt) byBudget)
  else Ok (MkReservation (rv_validate r) byBudget).

Definition Reservation_Validate (r : AgentPromptReservation) (prompt : AgentInitialPrompt)
    (provider model tokenizer : string) (tokens : Z) : result unit :=
  match rv_validate r with
  | None => if negb (pt_present prompt) && (tokens =? 0)%Z then Ok tt else Err ErrContextBudgetExceeded
  | Some validate => validate prompt provider model tokenizer tokens
  end.

Definition ValidateForBudget (r : AgentPromptReservation) (prompt : AgentInitialPrompt) (b : AgentContextBudget)
    : result unit :=
  match rv_validateBudget r with
  | Some validateBudget => validateBudget prompt b
  | None =>
      reject_if (estimate_policy (ab_InputAccountingPolicy b)) ErrProviderCapabilityUnknown ;;
      Reservation_Validate r prompt (ab_Provider b) (ab_Model b) (ab_Tokenizer b) (ab_InitialPromptTokens b)
  end.

(** [UnmarshalJSON] of a reservation and of a package that holds one: an object or null is read,
    and no authorization is restored. *)
Definition Reservation_UnmarshalJSON (readable : bool) (r : AgentPromptReservation) : result AgentPromptReservation :=
  if readable then Ok zero_reservation else Err ErrUnclassified.

(** The part of a package the prompt check reads. *)
Record prepared_package := MkPrepared {
  pp_Budget : option AgentContextBudget; pp_initialPromptReservation : AgentPromptReservation }.

Definition BindInitialPrompt (p : prepared_package) (r : AgentPromptReservation) : prepared_package :=
  MkPrepared (pp_Budget p) r.

Definition ValidateInitialPrompt (p : prepared_package) (prompt : AgentInitialPrompt) : result unit :=
  match pp_Budget p with
  | None =>
      match rv_validate (pp_initialPromptReservation p) with
      | None => Ok tt
      | Some _ => Err ErrProviderCapabilityUnknown
      end
  | Some b => ValidateForBudget (pp_initialPromptReservation p) prompt b
  end.

(** * Properties *)

(** The budget was prepared for the reserved prompt under the capability. *)
Definition budget_for (c : AgentHostCapability) (usage : AgentTokenUsage) (b : AgentContextBudget) : Prop :=
  ab_InputAccountingPolicy b = hc_InputAccountingPolicy c ∧ ab_RuntimeScope b = hc_RuntimeScope c ∧
  ab_WindowEstimateSource b = hc_WindowEstimateSource c ∧
  ab_WindowEstimateObservedAt b = hc_WindowEstimateObservedAt c ∧
  ab_WindowEstimateHash b = hc_WindowEstimateHash c ∧
  ab_WindowEstimateClientVersion b = hc_WindowEstimateClientVersion c ∧
  ab_Provider b = hc_Provider c ∧ ab_Model b = hc_Model c ∧ ab_Tokenizer b = hc_Tokenizer c ∧
  ab_InitialPromptTokens b = tu_Tokens usage.

Lemma reserved_prompt_Ok prompt provider model usage actual p m t n :
  reserved_prompt prompt provider model usage actual p m t n = Ok tt ↔
  actual = prompt ∧ p = provider ∧ m = model ∧ t = tu_Tokenizer usage ∧ n = tu_Tokens usage.
Proof.
  unfold reserved_prompt. split.
  - intros H. apply bind_Ok in H as ([] & H1%reject_if_Ok & H). apply bind_Ok in H as ([] & H2%reject_if_Ok & H3%reject_if_Ok).
    rewrite !orb_false_iff, !negb_false_iff, !bool_decide_eq_true in H2. apply negb_false_iff, bool_decide_eq_true in H1.
    apply negb_false_iff, Z.eqb_eq in H3. tauto.
  - intros (-> & -> & -> & -> & ->). rewrite !bool_decide_true, Z.eqb_refl by done. done.
Qed.

Lemma budget_provenance_same c b : budget_provenance_changed c b = false ↔
  ab_InputAccountingPolicy b = hc_InputAccountingPolicy c ∧ ab_RuntimeScope b = hc_RuntimeScope c ∧
  ab_WindowEstimateSource b = hc_WindowEstimateSource c ∧
  ab_WindowEstimateObservedAt b = hc_WindowEstimateObservedAt c ∧
  ab_WindowEstimateHash b = hc_WindowEstimateHash c ∧
  ab_WindowEstimateClientVersion b = hc_WindowEstimateClientVersion c.
Proof.
  unfold budget_provenance_changed. rewrite !orb_false_iff, !negb_false_iff, !bool_decide_eq_true. tauto.
Qed.

Lemma newAgentPromptReservation_Ok prompt provider model policy usage r :
  newAgentPromptReservation prompt provider model policy usage = Ok r →
  r = MkReservation (Some (reserved_prompt prompt provider model usage)) None ∧
  (∃ kind, ValidateAgentTokenAccounting policy provider (tu_Tokenizer usage) usage = Ok kind ∧
     (kind = TextUTF8Allowance → tu_Tokens usage = Z.of_nat (String.length (pt_text prompt)))) ∧
  (0 ≤ tu_Tokens usage)%Z ∧ (pt_text prompt = "" ↔ tu_Tokens usage = 0%Z).
Proof.
  unfold newAgentPromptReservation. intros H. apply bind_Ok in H as (kind & Hk & H). apply bind_Ok in H as ([] & _ & H).
  apply bind_Ok in H as ([] & Ht%reject_if_Ok & H). apply bind_Ok in H as ([] & Hu%reject_if_Ok & H). injection H as <-.
  rewrite !orb_false_iff, !andb_false_iff, !negb_false_iff in Ht. destruct Ht as [[H1%Z.ltb_ge H2] H3].
  rewrite Z.eqb_eq, bool_decide_eq_false in H2. rewrite Z.eqb_neq, bool_decide_eq_true in H3.
  split; [done|]. split; [|split; [done|destruct H2, H3; tauto]].
  exists kind. split; [done|]. intros ->. rewrite bool_decide_true in Hu by done. cbn in Hu.
  by apply negb_false_iff, Z.eqb_eq in Hu.
Qed.

Lemma ForCapability_Ok prompt c usage r : NewAgentPromptReservationForCapability prompt c usage = Ok r →
  tu_Tokenizer usage = hc_Tokenizer c ∧
  newAgentPromptReservation prompt (hc_Provider c) (hc_Model c) (hc_InputAccountingPolicy c) usage =
    Ok (MkReservation (Some (reserved_prompt prompt (hc_Provider c) (hc_Model c) usage)) None) ∧
  rv_validateBudget r = Some (reserved_budget c (reserved_prompt prompt (hc_Provider c) (hc_Model c) usage)) ∧
  rv_validate r = Some (if estimate_policy (hc_InputAccountingPolicy c) then refuse_prompt
                        else reserved_prompt prompt (hc_Provider c) (hc_Model c) usage).
Proof.
  unfold NewAgentPromptReservationForCapability. intros H. apply bind_Ok in H as ([] & Ht%reject_if_Ok & H).
  apply bind_Ok in H as (r0 & Hr & H). pose proof (newAgentPromptReservation_Ok _ _ _ _ _ _ Hr) as [-> _].
  apply bind_Ok in H as ([] & _ & H). cbn in H. split; [by apply negb_false_iff, bool_decide_eq_true in Ht|]. split; [done|].
  destruct (estimate_policy (hc_InputAccountingPolicy c)); [|by injection H as <-].
  apply bind_Ok in H as ([] & _ & H). by injection H as <-.
Qed.

(** * The claims *)

(** A reservation authorizes exactly what was reserved.  A reservation made for a
    capability accepts a prompt for a budget if and only if it is the reserved prompt,
    byte for byte and present as then, and the budget carries the same provider, model,
    tokenizer, policy, runtime scope, window provenance and prompt count; under the native estimate
    policy the count is the prompt's length in bytes, and the entry point without a policy
    authorizes nothing. *)
Theorem prompt_reservation_exact prompt c usage r :
  NewAgentPromptReservationForCapability prompt c usage = Ok r →
  (∀ actual b, ValidateForBudget r actual b = Ok tt ↔ actual = prompt ∧ budget_for c usage b) ∧
  (hc_InputAccountingPolicy c = NativeEstimateReserveV1 →
     tu_Tokens usage = Z.of_nat (String.length (pt_text prompt)) ∧
     ∀ actual provider model tokenizer tokens, Reservation_Validate r actual provider model tokenizer tokens ≠ Ok tt).
Proof.
  intros H. destruct (ForCapability_Ok _ _ _ _ H) as (Ht & Hn & Hb & Hv). split.
  - intros actual b. unfold ValidateForBudget, reserved_budget. rewrite Hb. unfold reserved_budget. rewrite bind_Ok.
    setoid_rewrite reserved_prompt_Ok. unfold budget_for. rewrite <- Ht. split.
    + intros ([] & Hs%reject_if_Ok%budget_provenance_same & Hr). tauto.
    + intros (He & Hs). exists tt. rewrite reject_if_Ok, budget_provenance_same. tauto.
  - intros Hp. destruct (newAgentPromptReservation_Ok _ _ _ _ _ _ Hn) as (_ & (kind & Hk & Hlen) & _). rewrite Hp in Hk, Hv.
    split; [|intros *; unfold Reservation_Validate; rewrite Hv; done].
    apply Hlen. unfold ValidateAgentTokenAccounting in Hk. apply bind_Ok in Hk as (k & Hk & Hk').
    vm_compute in Hk. injection Hk as <-. apply bind_Ok in Hk' as ([] & _ & Hk'). by injection Hk'.
Qed.

Module PromptSamples.
Definition question : AgentInitialPrompt := NewAgentInitialPrompt "why?".
Definition reservation : AgentPromptReservation :=
  match NewAgentPromptReservationForCapability question BudgetSamples.uncalibrated (BudgetSamples.usage 100) with
  | Ok r => r
  | Err _ => zero_reservation
  end.
End PromptSamples.

Lemma prompt_reservation_exact_witness :
  ValidateForBudget PromptSamples.reservation PromptSamples.question BudgetSamples.budget = Ok tt ∧
  ValidateForBudget PromptSamples.reservation (NewAgentInitialPrompt "why!") BudgetSamples.budget ≠ Ok tt.
Proof.
  assert (H : NewAgentPromptReservationForCapability PromptSamples.question BudgetSamples.uncalibrated
                (BudgetSamples.usage 100) = Ok PromptSamples.reservation) by (vm_compute; reflexivity).
  destruct (prompt_reservation_exact _ _ _ _ H) as [Hex _]. split.
  - apply Hex. split; [reflexivity|]. vm_compute. repeat split.
  - rewrite (Hex (NewAgentInitialPrompt "why!") BudgetSamples.budget). intros [E _]. discriminate E.
Defined.

(** A decoded reservation authorizes only an absent prompt with no tokens, and no estimate. *)
Theorem decoded_reservation_powerless readable r r' actual b :
  Reservation_UnmarshalJSON readable r = Ok r' → ValidateForBudget r' actual b = Ok tt →
  pt_present actual = false ∧ ab_InitialPromptTokens b = 0%Z ∧ estimate_policy (ab_InputAccountingPolicy b) = false.
Proof.
  unfold Reservation_UnmarshalJSON. destruct readable; [|done]. intros [= <-]. unfold ValidateForBudget. cbn.
  intros H. apply bind_Ok in H as ([] & He%reject_if_Ok & H). unfold Reservation_Validate in H. cbn in H.
  destruct (negb (pt_present actual) && _) eqn:E; [|done]. apply andb_true_iff in E as [E1%negb_true_iff E2%Z.eqb_eq]. done.
Qed.
