(* ===== verification/EventProofs.v ===== *)
(** * Proofs of stored events

    Models the bounded cache of [cli/internal/domain/stored_document_verifier.go]: the exact
    canonical events already checked, keyed by digest and version, with a ring buffer that
    evicts the oldest.  [remember] is shown to be a bounded first-in first-out queue. *)
From S2P Require Import Prelude GoStrings Utf8 Sha256 Values.
From Stdlib Require Import Ascii.

(** [\[32\]byte] is represented by its hexadecimal text. *)
Notation storedEventKey := (string * string)%type.
Notation storedEventProof := (storedEventKey * Z)%type.

Definition storedEventProofLimit : N := 65536.

Definition event_key (event version : string) : storedEventKey := (Sha256.hex_digest event, version).

Record StoredDocumentVerifier := MkVerifier {
  v_events : gmap storedEventKey Z; v_order : list storedEventKey; v_next : N; v_firstBytes : Z }.

Definition zero_verifier : StoredDocumentVerifier := MkVerifier ∅ [] 0 0.

(** A nil verifier finds nothing. *)
Definition lookup_proof (v : option StoredDocumentVerifier) (key : storedEventKey) : option Z :=
  v ← v; v_events v !! key.

(** One proof of the loop in [remember]; [limit] is [storedEventProofLimit].  The index is
    in range whenever the buffer is full ([cache_wf]). *)
Definition remember_one (limit : N) (v : StoredDocumentVerifier) (proof : storedEventProof) : StoredDocumentVerifier :=
  let '(key, seq) := proof in
  match v_events v !! key with
  | Some _ => v
  | None =>
      if (N.of_nat (length (v_order v)) <? limit)%N then
        MkVerifier (<[key := seq]> (v_events v)) (v_order v ++ [key]) (v_next v) (v_firstBytes v)
      else
        match v_order v !! N.to_nat (v_next v) with
        | Some oldest =>
            MkVerifier (<[key := seq]> (delete oldest (v_events v))) (<[N.to_nat (v_next v) := key]> (v_order v))
              ((v_next v + 1) mod limit) (v_firstBytes v)
        | None => v
        end
  end.

Definition set_firstBytes (v : StoredDocumentVerifier) (firstBytes : option Z) : StoredDocumentVerifier :=
  match firstBytes with
  | Some n => MkVerifier (v_events v) (v_order v) (v_next v) n
  | None => v
  end.

Definition remember_with (limit : N) (v : StoredDocumentVerifier) (proofs : list storedEventProof) (firstBytes : option Z)
    : StoredDocumentVerifier :=
  foldl (remember_one limit) (set_firstBytes v firstBytes) proofs.

Definition remember (v : option StoredDocumentVerifier) (proofs : list storedEventProof) (firstBytes : option Z)
    : option StoredDocumentVerifier :=
  (λ v, remember_with storedEventProofLimit v proofs firstBytes) <$> v.

(** * The bounded queue

    Reading the ring from its write index gives the keys from oldest to newest. *)
Definition queue (v : StoredDocumentVerifier) : list storedEventKey :=
  drop (N.to_nat (v_next v)) (v_order v) ++ take (N.to_nat (v_next v)) (v_order v).

Record cache_wf (limit : N) (v : StoredDocumentVerifier) : Prop := {
  wf_next : (v_next v < limit)%N;
  wf_bound : length (v_order v) ≤ N.to_nat limit;
  wf_start : length (v_order v) < N.to_nat limit → v_next v = 0%N;
  wf_nodup : NoDup (v_order v);
  wf_keys : ∀ k, is_Some (v_events v !! k) ↔ k ∈ v_order v }.

(** The specification: a queue of at most [limit] keys, without repetitions. *)
Definition enqueue (limit : N) (q : list storedEventKey) (k : storedEventKey) : list storedEventKey :=
  if bool_decide (k ∈ q) then q
  else (if (N.of_nat (length q) <? limit)%N then q else tail q) ++ [k].

Lemma queue_elem v k : k ∈ queue v ↔ k ∈ v_order v.
Proof.
  unfold queue. pose proof (elem_of_app (take (N.to_nat (v_next v)) (v_order v)) (drop (N.to_nat (v_next v)) (v_order v)) k) as H.
  rewrite take_drop in H. rewrite elem_of_app. tauto.
Qed.

Lemma queue_length v : length (queue v) = length (v_order v).
Proof. unfold queue. rewrite length_app, length_drop, length_take. lia. Qed.

Lemma zero_verifier_wf limit : (0 < limit)%N → cache_wf limit zero_verifier.
Proof. intros H. split; cbn; [done|lia|done|constructor|]. intros k. rewrite lookup_empty, elem_of_nil. by split; [intros []|]. Qed.

Section remember.
Context (limit : N) (v : StoredDocumentVerifier) (Hwf : cache_wf limit v).
Context (key : storedEventKey) (seq : Z).

Lemma wf_fresh : v_events v !! key = None → key ∉ v_order v.
Proof. intros H Hin. apply (wf_keys _ _ Hwf) in Hin as [? Hs]. congruence. Qed.

(** A full buffer always holds the slot to evict. *)
Lemma full_slot : ¬ (N.of_nat (length (v_order v)) < limit)%N →
  length (v_order v) = N.to_nat limit ∧ ∃ oldest, v_order v !! N.to_nat (v_next v) = Some oldest.
Proof.
  intros Hf. pose proof (wf_bound _ _ Hwf). pose proof (wf_next _ _ Hwf). split; [lia|].
  apply lookup_lt_is_Some. lia.
Qed.

Lemma remember_one_wf : cache_wf limit (remember_one limit v (key, seq)).
Proof.
  unfold remember_one. destruct (v_events v !! key) as [x|] eqn:Hk; [done|]. pose proof (wf_fresh Hk) as Hfresh.
  destruct Hwf as [Hn Hb Hs Hnd Hkeys]. destruct (N.ltb_spec (N.of_nat (length (v_order v))) limit) as [Hlt|Hge].
  - split; cbn; [done|rewrite length_app; cbn; lia|intros _; apply Hs; lia| |].
    + apply NoDup_app. split; [done|]. split; [|apply NoDup_singleton]. intros k Hin ->%list_elem_of_singleton. done.
    + intros k. rewrite elem_of_app, list_elem_of_singleton, <- Hkeys, lookup_insert_is_Some'. naive_solver.
  - destruct full_slot as [Hfull [oldest Ho]]; [lia|]. rewrite Ho. pose proof (lookup_lt_Some _ _ _ Ho) as Hlt.
    assert (Hin : ∀ k, k ∈ <[N.to_nat (v_next v):=key]> (v_order v) ↔ k = key ∨ k ≠ oldest ∧ k ∈ v_order v).
    { intros k. rewrite !list_elem_of_lookup. setoid_rewrite list_lookup_insert_Some. split.
      - intros (i & [(<- & <- & _)|[Hne Hi]]); [by left|right]. split; [|eauto].
        intros ->. apply Hne. by eapply NoDup_lookup.
      - intros [->|[Hne (i & Hi)]]; [exists (N.to_nat (v_next v)); left; done|].
        exists i. right. split; [|done]. intros <-. congruence. }
    split; cbn -[N.modulo].
    + apply N.mod_lt. lia.
    + rewrite length_insert. lia.
    + rewrite length_insert. lia.
    + apply NoDup_alt. intros i j k Hi Hj. apply list_lookup_insert_Some in Hi, Hj.
      destruct Hi as [(<- & <- & _)|[Hni Hi]], Hj as [(<- & Hk2 & _)|[Hnj Hj]]; [done| | |by eapply NoDup_lookup].
      * exfalso. apply Hfresh. by eapply list_elem_of_lookup_2.
      * exfalso. apply Hfresh. rewrite Hk2. by eapply list_elem_of_lookup_2.
    + intros k. rewrite Hin, lookup_insert_is_Some', lookup_delete_is_Some, Hkeys. naive_solver.
Qed.

Lemma remember_one_lookup k s : v_events (remember_one limit v (key, seq)) !! k = Some s →
  v_events v !! k = Some s ∨ k = key ∧ s = seq ∧ v_events v !! key = None.
Proof.
  unfold remember_one. destruct (v_events v !! key) eqn:Hk; [by left|].
  destruct (_ <? _)%N; [|destruct (v_order v !! _)]; cbn; [| |by left];
    rewrite lookup_insert_Some, ?lookup_delete_Some; naive_solver.
Qed.

(** One proof is one step of the queue. *)
Lemma remember_one_queue : queue (remember_one limit v (key, seq)) = enqueue limit (queue v) key.
Proof.
  unfold enqueue. rewrite queue_length. unfold remember_one. destruct (v_events v !! key) as [x|] eqn:Hk.
  { rewrite bool_decide_true; [done|]. apply queue_elem, (wf_keys _ _ Hwf). eauto. }
  pose proof (wf_fresh Hk) as Hfresh. rewrite bool_decide_false by (by rewrite queue_elem).
  destruct Hwf as [Hn Hb Hs Hnd _]. destruct (N.ltb_spec (N.of_nat (length (v_order v))) limit) as [Hlt|Hge].
  { unfold queue. cbn. rewrite (Hs ltac:(lia)). cbn. by rewrite !app_nil_r. }
  destruct full_slot as [Hfull [oldest Ho]]; [lia|]. rewrite Ho. unfold queue. cbn -[N.modulo].
  pose proof (lookup_lt_Some _ _ _ Ho) as Hlt.
  set (n := N.to_nat (v_next v)) in *. set (l := v_order v) in *.
  rewrite (drop_S _ _ _ Ho). cbn [app tail].
  destruct (decide (v_next v + 1 = limit)%N) as [He|Hne].
  - rewrite He, N.Div0.mod_same. cbn. rewrite app_nil_r.
    assert (n = length l - 1) as Hnl by (subst n; lia). rewrite (drop_ge l (S n)) by lia. cbn.
    rewrite insert_take_drop by done. by rewrite (drop_ge l (S n)) by lia.
  - rewrite N.mod_small by lia. replace (N.to_nat (v_next v + 1)) with (S n) by (subst n; lia).
    rewrite drop_insert_lt by lia. rewrite <- app_assoc. f_equal.
    rewrite insert_take_drop by done. rewrite (cons_middle key), app_assoc, take_app_length'; [done|].
    rewrite length_app, length_take. cbn. lia.
Qed.
End remember.

Section cache.
Context (limit : N).

Lemma remember_with_invariant v proofs firstBytes : cache_wf limit v →
  cache_wf limit (remember_with limit v proofs firstBytes) ∧
  queue (remember_with limit v proofs firstBytes) = foldl (enqueue limit) (queue v) (fst <$> proofs).
Proof.
  intros Hwf. unfold remember_with. assert (Hwf' : cache_wf limit (set_firstBytes v firstBytes)).
  { destruct firstBytes; [by destruct Hwf|done]. }
  replace (queue v) with (queue (set_firstBytes v firstBytes)) by (by destruct firstBytes).
  revert Hwf'. generalize (set_firstBytes v firstBytes). clear Hwf v firstBytes.
  induction proofs as [|[key seq] proofs IH]; intros v Hwf; [done|]. cbn [foldl fmap list_fmap fst].
  destruct (IH (remember_one limit v (key, seq)) (remember_one_wf limit v Hwf key seq)) as [Hw Hq].
  split; [done|]. rewrite Hq. by rewrite (remember_one_queue limit v Hwf key seq).
Qed.

Lemma remember_with_lookup v proofs firstBytes k s : v_events (remember_with limit v proofs firstBytes) !! k = Some s →
  v_events v !! k = Some s ∨ (k, s) ∈ proofs.
Proof.
  unfold remember_with. replace (v_events v) with (v_events (set_firstBytes v firstBytes)) by (by destruct firstBytes).
  generalize (set_firstBytes v firstBytes). clear v firstBytes.
  induction proofs as [|[key seq] proofs IH]; intros v; cbn [foldl]; [by left|].
  intros [H|H]%IH; [|right; by right].
  apply remember_one_lookup in H as [H|(-> & -> & _)]; [by left|right; left].
Qed.
End cache.


(** C28: The event cache is a bounded first-in first-out queue.  Admitting proofs to a
    well-formed cache keeps it well formed (at most 65,536 distinct keys, exactly those of
    the map, the write index in range), its ring read from the write index is the queue
    after appending each new key and dropping the oldest only when full, and every answer it
    can give was cached before or is one of the admitted proofs. *)
Theorem remember_refines_fifo v proofs firstBytes :
  cache_wf storedEventProofLimit v →
  ∃ v', remember (Some v) proofs firstBytes = Some v' ∧ cache_wf storedEventProofLimit v' ∧
    queue v' = foldl (enqueue storedEventProofLimit) (queue v) (fst <$> proofs) ∧
    ∀ k s, lookup_proof (Some v') k = Some s → lookup_proof (Some v) k = Some s ∨ (k, s) ∈ proofs.
Proof.
  intros Hwf. eexists. split; [reflexivity|].
  destruct (remember_with_invariant storedEventProofLimit v proofs firstBytes Hwf) as [Hw Hq].
  split; [done|]. split; [done|]. intros k s. apply remember_with_lookup.
Qed.

Lemma remember_refines_fifo_witness :
  cache_wf storedEventProofLimit zero_verifier ∧
  foldl (enqueue storedEventProofLimit) (queue zero_verifier) [("a", "1"); ("b", "1"); ("a", "1")] = [("a", "1"); ("b", "1")] ∧
  ∃ v', remember (Some zero_verifier) [(("a", "1"), 4%Z); (("b", "1"), 5%Z); (("a", "1"), 6%Z)] None = Some v' ∧
    queue v' = [("a", "1"); ("b", "1")].
Proof.
  assert (H : cache_wf storedEventProofLimit zero_verifier) by (apply zero_verifier_wf; reflexivity).
  split; [exact H|]. split; [vm_compute; reflexivity|].
  destruct (remember_refines_fifo zero_verifier [(("a", "1"), 4%Z); (("b", "1"), 5%Z); (("a", "1"), 6%Z)] None H)
    as (v' & Hv & _ & Hq & _).
  exists v'. split; [exact Hv|]. rewrite Hq. vm_compute. reflexivity.
Defined.

(** With room for two keys the third drops the first. *)
Example ring_evicts_oldest :
  queue (remember_with 2 zero_verifier [(("a", "1"), 1%Z); (("b", "1"), 2%Z); (("c", "1"), 3%Z); (("a", "1"), 4%Z)] None) =
  [("c", "1"); ("a", "1")].
Proof. vm_compute. reflexivity. Qed.
