(* ===== verification/EventScanner.v ===== *)
(** * Conversation manifests and event streams

    Models [conversation_manifest.go], [conversation_manifest_verify.go] and, of
    [stored_document_verifier.go], the fast path and its event visitor
    ([cli/internal/domain]).  A stream is a sequence of compact JSON events separated by
    commas; it arrives in chunks, and a scanner finds the events byte by byte.

    What the code leaves to typed JSON decoding is a parameter: [event_check] is
    [conversationManifestEvent] and [envelope_check] is [conversationManifestEnvelope]. *)
From stdpp Require Import pretty.
From S2P Require Import Prelude GoStrings Utf8 GoJson Sha256 Values EventProofs.
From Stdlib Require Import Ascii.

Definition brace_open : ascii := ascii_of_N 123.
Definition brace_close : ascii := ascii_of_N 125.
Definition bracket_open : ascii := ascii_of_N 91.
Definition bracket_close : ascii := ascii_of_N 93.
Definition comma : ascii := ascii_of_N 44.

Definition char_eqb (a b : ascii) : bool := (code a =? code b)%N.

(** Two outer levels of [encoding/json]'s 10,000 are the document's. *)
Definition max_event_depth : N := 9998.

(** ** The scanner's state *)

Record conversationEventScanner := MkScanner {
  s_version : string; s_stack : list ascii; s_event : string;
  s_quoted : bool; s_escaped : bool; s_needComma : bool; s_afterComma : bool; s_havePrevious : bool;
  s_previous : Z; s_count : Z; s_limit : Z; s_pending : list storedEventProof }.

Definition new_scanner (version : string) (limit : Z) : conversationEventScanner :=
  MkScanner version [] "" false false false false false 0 0 limit [].

Section scanner.
Context (event_check : string → string → result Z).

(** The sequence number, and the scanner with the proof to admit later. *)
Definition verifyEvent (v : option StoredDocumentVerifier) (s : conversationEventScanner)
    : result (Z * conversationEventScanner) :=
  match v with
  | None => seq ← event_check (s_version s) (s_event s); Ok (seq, s)
  | Some _ =>
      let key := event_key (s_event s) (s_version s) in
      match lookup_proof v key with
      | Some seq => Ok (seq, s)
      | None =>
          seq ← event_check (s_version s) (s_event s);
          let pending := if (N.of_nat (length (s_pending s)) <? storedEventProofLimit)%N
                         then s_pending s ++ [(key, seq)] else s_pending s in
          Ok (seq, MkScanner (s_version s) (s_stack s) (s_event s) (s_quoted s) (s_escaped s) (s_needComma s)
                     (s_afterComma s) (s_havePrevious s) (s_previous s) (s_count s) (s_limit s) pending)
      end
  end.

(** The closing byte of an event: UTF-8, the event's check, and the order of sequences.
    An error of the check is wrapped into [ErrConversationManifest]. *)
Definition close_event (v : option StoredDocumentVerifier) (s : conversationEventScanner)
    : result conversationEventScanner :=
  reject_if (negb (ValidString (s_event s))) ErrConversationManifest ;;
  '(seq, s) ← or_else (verifyEvent v s) ErrConversationManifest;
  reject_if (s_havePrevious s && (seq <? s_previous s)%Z) ErrConversationManifest ;;
  Ok (MkScanner (s_version s) (s_stack s) (s_event s) (s_quoted s) (s_escaped s) true (s_afterComma s) true seq
        (s_count s + 1) (s_limit s) (s_pending s)).

(** Between events: a comma, or the brace that opens one. *)
Definition add_between (s : conversationEventScanner) (ch : ascii) : result conversationEventScanner :=
  if s_needComma s then
    reject_if (negb (char_eqb ch comma)) ErrConversationManifest ;;
    Ok (MkScanner (s_version s) (s_stack s) (s_event s) (s_quoted s) (s_escaped s) false true (s_havePrevious s)
          (s_previous s) (s_count s) (s_limit s) (s_pending s))
  else
    reject_if (negb (char_eqb ch brace_open) || (s_limit s <=? s_count s)%Z) ErrConversationManifest ;;
    Ok (MkScanner (s_version s) [ch] (String ch "") (s_quoted s) (s_escaped s) (s_needComma s) false (s_havePrevious s)
          (s_previous s) (s_count s) (s_limit s) (s_pending s)).

(** The bracket a closing byte needs on top of the stack. *)
Definition opens (ch : ascii) : bool := char_eqb ch brace_open || char_eqb ch bracket_open.
Definition closes (ch : ascii) : bool := char_eqb ch brace_close || char_eqb ch bracket_close.

Definition mismatched (ch open : ascii) : bool :=
  (char_eqb ch brace_close && negb (char_eqb open brace_open)) ||
  (char_eqb ch bracket_close && negb (char_eqb open bracket_open)).

Definition with_frame (s : conversationEventScanner) (stack : list ascii) (quoted escaped : bool) (ch : ascii)
    : conversationEventScanner :=
  MkScanner (s_version s) stack (s_event s +:+ String ch "") quoted escaped (s_needComma s) (s_afterComma s)
    (s_havePrevious s) (s_previous s) (s_count s) (s_limit s) (s_pending s).

(** Inside an event; [top] is the top of the stack and [rest] what is below it. *)
Definition add_inside (v : option StoredDocumentVerifier) (s : conversationEventScanner) (top : ascii) (rest : list ascii)
    (ch : ascii) : result conversationEventScanner :=
  let stack := top :: rest in
  if s_quoted s then
    if s_escaped s then Ok (with_frame s stack true false ch)
    else if char_eqb ch backslash then Ok (with_frame s stack true true ch)
    else if char_eqb ch quote then Ok (with_frame s stack false false ch)
    else Ok (with_frame s stack true false ch)
  else if char_eqb ch quote then Ok (with_frame s stack true (s_escaped s) ch)
  else if opens ch then
    reject_if (N.of_nat (length stack) =? max_event_depth)%N ErrConversationManifest ;;
    Ok (with_frame s (ch :: stack) false (s_escaped s) ch)
  else if closes ch then
    reject_if (mismatched ch top) ErrConversationManifest ;;
    let s := with_frame s rest false (s_escaped s) ch in
    match rest with [] => close_event v s | _ => Ok s end
  else Ok (with_frame s stack false (s_escaped s) ch).

(** One byte of the loop in [add]. *)
Definition add_byte (v : option StoredDocumentVerifier) (s : conversationEventScanner) (ch : ascii)
    : result conversationEventScanner :=
  match s_stack s with
  | [] => add_between s ch
  | top :: rest => add_inside v s top rest ch
  end.

Definition add (v : option StoredDocumentVerifier) (s : conversationEventScanner) (body : string)
    : result conversationEventScanner :=
  fold_each (add_byte v) (String.list_ascii_of_string body) s.

(** The test after the last chunk. *)
Definition incomplete (s : conversationEventScanner) : bool :=
  bool_decide (s_stack s ≠ []) || s_quoted s || s_afterComma s || negb (s_count s =? s_limit s)%Z.
End scanner.

(** ** Manifests *)

Definition ConversationManifestVersion : Z := 1.
Definition ConversationManifestIdentity : string := "cxt-manifest-sha256-v1".
Definition ConversationManifestChunkFormat : string := "cxt-doc-chunks-v2".
Definition ConversationManifestChunkBytes : Z := 524288.
Definition MaxConversationManifestBytes : Z := 262144.
Definition MaxConversationManifestChunks : Z := 2048.
Definition MaxConversationDocumentBytes : Z := 536870912.

Definition quoted_text (s : string) : string := String quote (s +:+ String quote "").

Definition conversationManifestDomain : string := "cxt-conversation-root-v1" +:+ String (ascii_of_N 0) "".
Definition conversationDocPrefix : string := "{" +:+ quoted_text "envelope" +:+ ":".
Definition conversationDocMiddle : string := "," +:+ quoted_text "events" +:+ ":[".
Definition conversationDocSuffix : string := "]}".

Definition zlen (s : string) : Z := Z.of_nat (String.length s).

Definition conversationFrameBytes : Z :=
  zlen conversationDocPrefix + zlen conversationDocMiddle + zlen conversationDocSuffix.

Record ConversationManifestChunk := MkChunk { ck_Hash : string; ck_Bytes : Z }.

Record ConversationManifest := MkManifest {
  cm_Version : Z; cm_Identity : string; cm_ChunkFormat : string; cm_Envelope : string;
  cm_Chunks : slice ConversationManifestChunk; cm_StreamBytes : Z; cm_EventCount : Z }.

Definition chunk_json (c : ConversationManifestChunk) : json :=
  JObj (field "bytes" (JInt (ck_Bytes c)) ++ str_field "hash" (ck_Hash c)).

(** [canonicalJSON(m)]: compact, keys sorted.  The envelope is raw JSON that already is its
    own canonical encoding, so it is embedded as it is. *)
Definition manifest_text (m : ConversationManifest) : string :=
  "{" +:+ Join
    [quoted_text "chunk_format" +:+ ":" +:+ encode (JStr (cm_ChunkFormat m));
     quoted_text "chunks" +:+ ":" +:+ encode (JArr (chunk_json <$> elems (cm_Chunks m)));
     quoted_text "envelope" +:+ ":" +:+ cm_Envelope m;
     quoted_text "event_count" +:+ ":" +:+ encode (JInt (cm_EventCount m));
     quoted_text "identity" +:+ ":" +:+ encode (JStr (cm_Identity m));
     quoted_text "stream_bytes" +:+ ":" +:+ encode (JInt (cm_StreamBytes m));
     quoted_text "version" +:+ ":" +:+ encode (JInt (cm_Version m))] "," +:+ "}".

Section manifest.
Context (event_check : string → string → result Z) (envelope_check : string → result string).

Definition manifest_shape_invalid (m : ConversationManifest) : bool :=
  negb (cm_Version m =? ConversationManifestVersion)%Z || (cm_Identity m <>? ConversationManifestIdentity) ||
  (cm_ChunkFormat m <>? ConversationManifestChunkFormat) || bool_decide (cm_Chunks m = None) ||
  (MaxConversationManifestChunks <? Z.of_nat (length (elems (cm_Chunks m))))%Z || (cm_Envelope m =? "") ||
  (MaxConversationManifestBytes <? zlen (cm_Envelope m))%Z || negb (ValidString (cm_Envelope m)).

(** The chunk loop: [left] counts the chunks that follow, [total] the bytes so far. *)
Fixpoint check_chunks (available total : Z) (chunks : list ConversationManifestChunk) : result Z :=
  match chunks with
  | [] => Ok total
  | c :: chunks =>
      reject_if (negb (is_ok (ValidateContentHash (ck_Hash c))) || (ck_Bytes c <=? 0)%Z ||
                 (ConversationManifestChunkBytes <? ck_Bytes c)%Z ||
                 (bool_decide (chunks ≠ []) && negb (ck_Bytes c =? ConversationManifestChunkBytes)%Z) ||
                 (available - total <? ck_Bytes c)%Z) ErrConversationManifest ;;
      check_chunks available (total + ck_Bytes c) chunks
  end.

Definition CanonicalConversationManifest (m : ConversationManifest) : result string :=
  reject_if (manifest_shape_invalid m) ErrConversationManifest ;;
  or_else (envelope_check (cm_Envelope m)) ErrConversationManifest ;;
  let available := (MaxConversationDocumentBytes - conversationFrameBytes - zlen (cm_Envelope m))%Z in
  reject_if ((cm_StreamBytes m <? 0)%Z || (available <? cm_StreamBytes m)%Z || (cm_EventCount m <? 0)%Z ||
             (cm_StreamBytes m <? cm_EventCount m)%Z) ErrConversationManifest ;;
  total ← check_chunks available 0 (elems (cm_Chunks m));
  reject_if (negb (total =? cm_StreamBytes m)%Z || negb (Bool.eqb (total =? 0)%Z (cm_EventCount m =? 0)%Z))
    ErrConversationManifest ;;
  reject_if (MaxConversationManifestBytes <? zlen (manifest_text m))%Z ErrConversationManifest ;;
  Ok (manifest_text m).

Definition ConversationManifestHash (m : ConversationManifest) : result string :=
  raw ← CanonicalConversationManifest m;
  Ok (HashContent (conversationManifestDomain +:+ raw)).

Definition ConversationManifest_Validate (m : ConversationManifest) : result unit :=
  CanonicalConversationManifest m ;; Ok tt.

Definition add_chunk_bytes (total : Z) (c : ConversationManifestChunk) : result Z :=
  reject_if ((ck_Bytes c <=? 0)%Z || (MaxConversationDocumentBytes - total <? ck_Bytes c)%Z) ErrConversationManifest ;;
  Ok (total + ck_Bytes c)%Z.

(** The chunks are copied into a fresh slice, so a nil argument becomes an empty one. *)
Definition NewConversationManifest (envelope : string) (chunks : slice ConversationManifestChunk) (eventCount : Z)
    : result ConversationManifest :=
  reject_if ((MaxConversationManifestBytes <? zlen envelope)%Z ||
             (MaxConversationManifestChunks <? Z.of_nat (length (elems chunks)))%Z) ErrConversationManifest ;;
  total ← fold_each add_chunk_bytes (elems chunks) 0%Z;
  let m := MkManifest ConversationManifestVersion ConversationManifestIdentity ConversationManifestChunkFormat envelope
             (Some (elems chunks)) total eventCount in
  ConversationManifest_Validate m ;; Ok m.

(** One chunk: loaded, its length and hash checked, then scanned. *)
Definition scan_chunk (v : option StoredDocumentVerifier) (load : string → result string)
    (s : conversationEventScanner) (c : ConversationManifestChunk) : result conversationEventScanner :=
  body ← load (ck_Hash c);
  reject_if (negb (zlen body =? ck_Bytes c)%Z) ErrConversationManifest ;;
  reject_if (HashContent body <>? ck_Hash c) ErrConversationManifest ;;
  add event_check v s body.

(** The verifier after the call ([None] for a nil receiver); a nil loader is [None]. *)
Definition VerifyConversation (v : option StoredDocumentVerifier) (want : string) (m : ConversationManifest)
    (load : option (string → result string)) : result (option StoredDocumentVerifier) :=
  reject_if ((MaxConversationManifestBytes <? zlen (cm_Envelope m))%Z ||
             (MaxConversationManifestChunks <? Z.of_nat (length (elems (cm_Chunks m))))%Z) ErrConversationManifest ;;
  hash ← ConversationManifestHash m;
  reject_if (negb (is_ok (ValidateContentHash want)) || (hash <>? want) ||
             (bool_decide (load = None) && bool_decide (elems (cm_Chunks m) ≠ []))) ErrConversationManifest ;;
  version ← envelope_check (cm_Envelope m);
  let load := default (λ _, Err ErrConversationManifest) load in
  s ← fold_each (scan_chunk v load) (elems (cm_Chunks m)) (new_scanner version (cm_EventCount m));
  reject_if (incomplete s) ErrConversationManifest ;;
  Ok (remember v (s_pending s) None).

Definition VerifyConversationManifest (want : string) (m : ConversationManifest) (load : option (string → result string))
    : result unit :=
  VerifyConversation None want m load ;; Ok tt.
End manifest.

(** ** The fast path of the stored document verifier

    [visitStoredEvents] walks a contiguous stream; the visitor's state is threaded through,
    and [None] is a visitor that returned false.  [w_event] is [stream\[start:i+1\]]. *)
Record visit_walk (A : Type) := MkWalk {
  w_stack : list ascii; w_event : string; w_quoted : bool; w_escaped : bool; w_comma : bool; w_afterComma : bool;
  w_state : A }.
Arguments MkWalk {A}.
Arguments w_stack {A}.
Arguments w_event {A}.
Arguments w_quoted {A}.
Arguments w_escaped {A}.
Arguments w_comma {A}.
Arguments w_afterComma {A}.
Arguments w_state {A}.

Definition json_space (ch : ascii) : bool :=
  (code ch =? 32)%N || (code ch =? 10)%N || (code ch =? 13)%N || (code ch =? 9)%N.

Section visit.
Context {A : Type} (visit : A → string → option A).

Definition visit_between (w : visit_walk A) (ch : ascii) : option (visit_walk A) :=
  if w_comma w then
    if char_eqb ch comma then Some (MkWalk (w_stack w) (w_event w) (w_quoted w) (w_escaped w) false true (w_state w))
    else None
  else if char_eqb ch brace_open then
    Some (MkWalk [brace_open] (String ch "") (w_quoted w) (w_escaped w) (w_comma w) false (w_state w))
  else None.

Definition walk_frame (w : visit_walk A) (stack : list ascii) (quoted escaped : bool) (ch : ascii) : visit_walk A :=
  MkWalk stack (w_event w +:+ String ch "") quoted escaped (w_comma w) (w_afterComma w) (w_state w).

Definition visit_inside (w : visit_walk A) (top : ascii) (rest : list ascii) (ch : ascii) : option (visit_walk A) :=
  let stack := top :: rest in
  if char_eqb ch quote then Some (walk_frame w stack true (w_escaped w) ch)
  else if opens ch then
    if (N.of_nat (length stack) =? max_event_depth)%N then None
    else Some (walk_frame w (ch :: stack) (w_quoted w) (w_escaped w) ch)
  else if closes ch then
    if mismatched ch top then None
    else
      let w := walk_frame w rest (w_quoted w) (w_escaped w) ch in
      match rest with
      | [] => a ← visit (w_state w) (w_event w);
              Some (MkWalk rest (w_event w) (w_quoted w) (w_escaped w) true (w_afterComma w) a)
      | _ => Some w
      end
  else if json_space ch then None
  else Some (walk_frame w stack (w_quoted w) (w_escaped w) ch).

Definition visit_byte (w : visit_walk A) (ch : ascii) : option (visit_walk A) :=
  if w_quoted w then
    if w_escaped w then Some (walk_frame w (w_stack w) true false ch)
    else if char_eqb ch backslash then Some (walk_frame w (w_stack w) true true ch)
    else if char_eqb ch quote then Some (walk_frame w (w_stack w) false false ch)
    else Some (walk_frame w (w_stack w) true false ch)
  else
    match w_stack w with
    | [] => visit_between w ch
    | top :: rest => visit_inside w top rest ch
    end.

Fixpoint visit_bytes (l : list ascii) (w : visit_walk A) : option (visit_walk A) :=
  match l with
  | [] => Some w
  | ch :: l => w ← visit_byte w ch; visit_bytes l w
  end.

Definition visitStoredEvents (stream : string) (a : A) : option A :=
  w ← visit_bytes (String.list_ascii_of_string stream) (MkWalk [] "" false false false false a);
  if bool_decide (w_stack w = []) && negb (w_quoted w) && negb (w_afterComma w) then Some (w_state w) else None.
End visit.

(** The closure's variables: what was written to the digest, the previous sequence, and the
    proofs to admit. *)
Record fast_state := MkFast {
  f_digest : string; f_previous : Z; f_havePrevious : bool; f_pending : list storedEventProof }.

Section fast_path.
(** [json.Decoder] on the text after the prefix (the raw value and the offset behind it),
    the typed envelope (its version, when it is its own canonical encoding) and the typed
    event (its sequence, likewise). *)
Context (decode_value : string → option (string * nat)).
Context (envelope_version : string → option string).
Context (typed_event : string → string → option Z).

Definition fast_event (v : StoredDocumentVerifier) (version : string) (st : fast_state) (body : string) : option fast_state :=
  let key := event_key body version in
  '(seq, pending) ←
    match lookup_proof (Some v) key with
    | Some seq => Some (seq, f_pending st)
    | None =>
        if negb (f_havePrevious st) then None
        else
          seq ← typed_event version body;
          Some (seq, if (N.of_nat (length (f_pending st)) <? storedEventProofLimit)%N
                     then f_pending st ++ [(key, seq)] else f_pending st)
    end;
  if f_havePrevious st then
    if (seq <? f_previous st)%Z then None
    else Some (MkFast (f_digest st +:+ "," +:+ body) seq true pending)
  else Some (MkFast (f_digest st +:+ body) seq true pending).

(** The parts of a stored document: the envelope, its version, the event stream. *)
Definition split_document (raw : string) : option (string * string * string) :=
  if negb (HasPrefix raw conversationDocPrefix) || negb (HasSuffix raw conversationDocSuffix) then None
  else
    '(env, off) ← decode_value (drop_chars (String.length conversationDocPrefix) raw);
    let offset := String.length conversationDocPrefix + off in
    if negb (HasPrefix (drop_chars offset raw) conversationDocMiddle) then None
    else
      version ← envelope_version env;
      let start := offset + String.length conversationDocMiddle in
      Some (env, version, take_chars (String.length raw - 2 - start) (drop_chars start raw)).

(** The verifier after an accepting run; [None] asks for the original normalizer. *)
Definition canonical (v : option StoredDocumentVerifier) (want raw : string) : option StoredDocumentVerifier :=
  v ← v;
  if (v_firstBytes v <=? 0)%Z then None
  else
    '(env, version, stream) ← split_document raw;
    if (zlen stream <? v_firstBytes v)%Z then None
    else
      _ ← lookup_proof (Some v) (event_key (take_chars (Z.to_nat (v_firstBytes v)) stream) version);
      let digest := conversationDocPrefix +:+ env +:+ conversationDocMiddle in
      st ← visitStoredEvents (fast_event v version) stream (MkFast digest 0 false []);
      if HashContent (f_digest st +:+ conversationDocSuffix) <>? want then None
      else remember (Some v) (f_pending st) (Some (v_firstBytes v)).
End fast_path.

(** ** Verifying a stored document *)

(** [canonicalBytes] from the canonical texts of its parts. *)
Definition document_bytes (env : string) (bodies : list string) : string :=
  conversationDocPrefix +:+ env +:+ conversationDocMiddle +:+ Join bodies "," +:+ conversationDocSuffix.

(** [observe]: the first event's length, and proofs up to the limit. *)
Definition observe_event (version : string) (acc : list storedEventProof * Z) (event : string * Z)
    : list storedEventProof * Z :=
  let '(pending, firstBytes) := acc in
  (if (N.of_nat (length pending) <? storedEventProofLimit)%N
   then pending ++ [(event_key event.1 version, event.2)] else pending,
   if (firstBytes =? 0)%Z then zlen event.1 else firstBytes).

Section verify.
(** [json.Unmarshal] into a document, and [canonicalBytes]'s canonical texts of its envelope,
    with its version, and of its events in order of sequence. *)
Context (decode_value : string → option (string * nat)) (envelope_version : string → option string).
Context (typed_event : string → string → option Z).
Context {D : Type} (decode_document : string → option D).
Context (canonical_parts : D → result (string * string * list (string * Z))).

Definition Verify (v : option StoredDocumentVerifier) (want raw : string) : result (option StoredDocumentVerifier) :=
  match canonical decode_value envelope_version typed_event v want raw with
  | Some v' => Ok (Some v')
  | None =>
      doc ← from_option Ok (Err ErrInvalidCIR) (decode_document raw);
      ValidateContentHash want ;;
      '(env, version, events) ← canonical_parts doc;
      reject_if (HashContent (document_bytes env events.*1) <>? want) ErrHashMismatch ;;
      let '(pending, firstBytes) := foldl (observe_event version) ([], 0%Z) events in
      Ok (remember v pending (Some firstBytes))
  end.
End verify.

(** * Properties *)

#[local] Arguments char_eqb : simpl never.
#[local] Arguments backslash : simpl never.
#[local] Arguments quote : simpl never.
#[local] Arguments comma : simpl never.
#[local] Arguments brace_open : simpl never.
#[local] Arguments opens : simpl never.
#[local] Arguments closes : simpl never.
#[local] Arguments mismatched : simpl never.

(** ** Framing

    The brackets of one event, on their own: [Closed] at the byte that empties the stack. *)
Inductive framing := Closed (body rest : list ascii) | Unfinished | Misframed.

Definition extend (ch : ascii) (f : framing) : framing :=
  match f with Closed body rest => Closed (ch :: body) rest | _ => f end.

Fixpoint frame (stack : list ascii) (quoted escaped : bool) (l : list ascii) : framing :=
  match l, stack with
  | [], _ => Unfinished
  | _, [] => Misframed
  | ch :: l, top :: rest =>
      if quoted then
        extend ch (if escaped then frame stack true false l
                   else if char_eqb ch backslash then frame stack true true l
                   else if char_eqb ch quote then frame stack false false l
                   else frame stack true false l)
      else if char_eqb ch quote then extend ch (frame stack true false l)
      else if opens ch then
        if (N.of_nat (length stack) =? max_event_depth)%N then Misframed
        else extend ch (frame (ch :: stack) false false l)
      else if closes ch then
        if mismatched ch top then Misframed
        else match rest with [] => Closed [ch] l | _ => extend ch (frame rest false false l) end
      else extend ch (frame stack false false l)
  end.

Lemma frame_Closed stack quoted escaped l body rest :
  frame stack quoted escaped l = Closed body rest → l = body ++ rest ∧ body ≠ [].
Proof.
  revert stack quoted escaped body rest. induction l as [|ch l IH]; intros stack quoted escaped body rest; [done|].
  destruct stack as [|top stack]; [done|]. cbn [frame].
  assert (Hext : ∀ f, (∀ b r, f = Closed b r → l = b ++ r) → extend ch f = Closed body rest → ch :: l = body ++ rest ∧ body ≠ []).
  { intros [b r| |] Hf; cbn; [|done..]. intros [= <- <-]. by rewrite (Hf b r eq_refl). }
  repeat case_match; try done; try (apply Hext; intros b r H'; by apply IH in H' as [-> _]).
  intros [= <- <-]. done.
Qed.

(** A closed frame is closed by its own bytes. *)
Lemma frame_body stack quoted escaped l body rest :
  frame stack quoted escaped l = Closed body rest → frame stack quoted escaped body = Closed body [].
Proof.
  revert stack quoted escaped body rest. induction l as [|ch l IH]; intros stack quoted escaped body rest; [done|].
  destruct stack as [|top stack]; [done|]. cbn [frame].
  assert (Hext : ∀ st q e, extend ch (frame st q e l) = Closed body rest →
    ∃ b, body = ch :: b ∧ frame st q e b = Closed b []).
  { intros st q e. destruct (frame st q e l) as [b r| |] eqn:Hf; cbn; [|done..]. intros [= <- <-]. eauto. }
  assert (Hcl : Closed [ch] l = Closed body rest → body = [ch]) by congruence.
  destruct quoted.
  - destruct escaped; [|destruct (char_eqb ch backslash) eqn:E1; [|destruct (char_eqb ch quote) eqn:E2]];
      intros (b & -> & Hb)%Hext; cbn [frame]; try rewrite E1; try rewrite E2; by rewrite Hb.
  - destruct (char_eqb ch quote) eqn:E1; [intros (b & -> & Hb)%Hext; cbn [frame]; by rewrite E1, Hb|].
    destruct (opens ch) eqn:E2.
    { destruct (_ =? _)%N eqn:E3; [done|]. intros (b & -> & Hb)%Hext. cbn [frame]. by rewrite E1, E2, E3, Hb. }
    destruct (closes ch) eqn:E3; [|intros (b & -> & Hb)%Hext; cbn [frame]; by rewrite E1, E2, E3, Hb].
    destruct (mismatched ch top) eqn:E4; [done|]. destruct stack as [|top2 stack].
    { intros ->%Hcl. cbn [frame]. by rewrite E1, E2, E3, E4. }
    intros (b & -> & Hb)%Hext. cbn [frame]. by rewrite E1, E2, E3, E4, Hb.
Qed.

(** More input does not change a closed frame. *)
Lemma frame_app stack quoted escaped l body rest k :
  frame stack quoted escaped l = Closed body rest → frame stack quoted escaped (l ++ k) = Closed body (rest ++ k).
Proof.
  revert stack quoted escaped body rest. induction l as [|ch l IH]; intros stack quoted escaped body rest; [done|].
  destruct stack as [|top stack]; [done|]. cbn [frame app].
  assert (Hext : ∀ st q e, extend ch (frame st q e l) = Closed body rest →
    extend ch (frame st q e (l ++ k)) = Closed body (rest ++ k)).
  { intros st q e. destruct (frame st q e l) as [b r| |] eqn:Hf; cbn; [|done..]. intros [= <- <-]. by rewrite (IH _ _ _ _ _ Hf). }
  repeat case_match; try done; try apply Hext. by intros [= <- <-].
Qed.

Notation text := String.string_of_list_ascii.
Notation chars := String.list_ascii_of_string.

Lemma text_chars s : text (chars s) = s.
Proof. apply String.string_of_list_ascii_of_string. Qed.

Lemma chars_text l : chars (text l) = l.
Proof. apply String.list_ascii_of_string_of_list_ascii. Qed.

Lemma text_app a b : text (a ++ b) = text a +:+ text b.
Proof. induction a as [|c a IH]; [done|]. cbn. by rewrite IH. Qed.

Lemma text_snoc s c l : (s +:+ String c "") +:+ text l = s +:+ text (c :: l).
Proof. by rewrite <- string_app_assoc. Qed.

Lemma fold_each_run {A S} (f : S → A → result S) l k s :
  fold_each f (l ++ k) s = (s' ← fold_each f l s; fold_each f k s').
Proof. revert s. induction l as [|x l IH]; intros s; [done|]. cbn. destruct (f s x); [apply IH|done]. Qed.

Section scan.
Context (event_check : string → string → result Z) (v : option StoredDocumentVerifier).

(** The scanner when the body closes the event that [s] is inside of. *)
Definition at_close (s : conversationEventScanner) (body : list ascii) : conversationEventScanner :=
  MkScanner (s_version s) [] (s_event s +:+ text body) false false (s_needComma s) (s_afterComma s)
    (s_havePrevious s) (s_previous s) (s_count s) (s_limit s) (s_pending s).

Definition inside_outcome (s : conversationEventScanner) (l : list ascii) (f : framing) : Prop :=
  match f with
  | Closed body rest =>
      fold_each (add_byte event_check v) l s =
      (s' ← close_event event_check v (at_close s body); fold_each (add_byte event_check v) rest s')
  | Unfinished => ∃ s', fold_each (add_byte event_check v) l s = Ok s' ∧ s_stack s' ≠ []
  | Misframed => fold_each (add_byte event_check v) l s = Err ErrConversationManifest
  end.

Lemma inside_extend s s1 ch l f :
  add_byte event_check v s ch = Ok s1 →
  (∀ b, at_close s1 b = at_close s (ch :: b)) →
  inside_outcome s1 l f → inside_outcome s (ch :: l) (extend ch f).
Proof.
  intros Hb Hc Ho. destruct f as [body rest| |]; cbn in *; rewrite Hb; cbn; [|done..]. by rewrite Ho, Hc.
Qed.

(** Inside an event the scanner does what the framing says. *)
Lemma scan_inside l s : s_stack s ≠ [] → (s_quoted s = false → s_escaped s = false) →
  inside_outcome s l (frame (s_stack s) (s_quoted s) (s_escaped s) l).
Proof.
  revert s. induction l as [|ch l IH]; intros s Hst Hq; [cbn; eauto|].
  destruct s as [ver stack ev q e nc ac hp p c lim pend]. cbn [s_stack s_quoted s_escaped] in *.
  destruct stack as [|top stack]; [done|]. cbn [frame].
  assert (Hstep : ∀ st q' e', st ≠ [] → (q' = false → e' = false) →
    add_byte event_check v (MkScanner ver (top :: stack) ev q e nc ac hp p c lim pend) ch =
      Ok (MkScanner ver st (ev +:+ String ch "") q' e' nc ac hp p c lim pend) →
    inside_outcome (MkScanner ver (top :: stack) ev q e nc ac hp p c lim pend) (ch :: l) (extend ch (frame st q' e' l))).
  { intros st q' e' Hne Hqe Hadd. eapply inside_extend; [exact Hadd| |exact (IH (MkScanner ver st (ev +:+ String ch "") q' e' nc ac hp p c lim pend) Hne Hqe)].
    intros b. unfold at_close. cbn. by rewrite <- string_app_assoc. }
  destruct q.
  { destruct e; [|destruct (char_eqb ch backslash) eqn:E1; [|destruct (char_eqb ch quote) eqn:E2]];
      apply Hstep; try done; unfold add_byte, add_inside; cbn; try rewrite E1; try rewrite E2; done. }
  assert (e = false) as -> by auto. destruct (char_eqb ch quote) eqn:E1.
  { apply Hstep; try done. unfold add_byte, add_inside; cbn. by rewrite E1. }
  destruct (opens ch) eqn:E2.
  { destruct (N.of_nat (length (top :: stack)) =? max_event_depth)%N eqn:E3.
    - cbn -[N.of_nat N.eqb max_event_depth length]. unfold add_inside. cbn -[N.of_nat N.eqb max_event_depth length]. by rewrite E1, E2, E3.
    - apply Hstep; try done. unfold add_byte, add_inside; cbn -[N.of_nat N.eqb max_event_depth length]. by rewrite E1, E2, E3. }
  destruct (closes ch) eqn:E3.
  { destruct (mismatched ch top) eqn:E4.
    - cbn. unfold add_inside. cbn. by rewrite E1, E2, E3, E4.
    - destruct stack as [|top2 stack].
      + cbn. unfold add_inside. cbn. rewrite E1, E2, E3, E4. done.
      + apply Hstep; try done. unfold add_byte, add_inside; cbn. by rewrite E1, E2, E3, E4. }
  apply Hstep; try done. unfold add_byte, add_inside; cbn. by rewrite E1, E2, E3.
Qed.
End scan.

(** ** What a stream is: events between commas *)

Definition framed (e : string) : Prop :=
  ∃ rest, chars e = brace_open :: rest ∧ frame [brace_open] false false rest = Closed rest [].

Fixpoint nondecreasing (previous : option Z) (seqs : list Z) : Prop :=
  match seqs with
  | [] => True
  | q :: seqs => from_option (λ p, p ≤ q)%Z True previous ∧ nondecreasing (Some q) seqs
  end.

Definition comma_events (events : list string) : list ascii := events ≫= (λ e, comma :: chars e).

(** The bytes still to come for the events, before or after a first one. *)
Definition separated (need : bool) (events : list string) : list ascii :=
  match events with
  | [] => []
  | e :: events => (if need then [comma] else []) ++ chars e ++ comma_events events
  end.

Lemma char_eqb_true a b : char_eqb a b = true ↔ a = b.
Proof.
  unfold char_eqb, code. rewrite N.eqb_eq. split; [|congruence]. intros H.
  rewrite <- (ascii_N_embedding a), <- (ascii_N_embedding b). by f_equal.
Qed.

Lemma separated_Join events : text (separated false events) = Join events ",".
Proof.
  destruct events as [|e events]; [done|]. cbn. rewrite text_app, text_chars. revert e.
  induction events as [|e' events IH]; intros e; cbn; [apply string_app_nil_r|].
  rewrite text_app, text_chars. change (Join (e :: e' :: events) ",") with (e +:+ "," +:+ Join (e' :: events) ",").
  by rewrite <- IH.
Qed.

Section stream.
Context (event_check : string → string → result Z).

(** An event the scanner passes, with its sequence. *)
Definition checked (version e : string) (q : Z) : Prop :=
  framed e ∧ ValidString e = true ∧ event_check version e = Ok q.

Definition between (s : conversationEventScanner) : Prop :=
  s_stack s = [] ∧ s_quoted s = false ∧ s_escaped s = false.

Definition prev_of (s : conversationEventScanner) : option Z := if s_havePrevious s then Some (s_previous s) else None.

Definition closed_scanner (s : conversationEventScanner) (q : Z) : conversationEventScanner :=
  MkScanner (s_version s) (s_stack s) (s_event s) (s_quoted s) (s_escaped s) true (s_afterComma s) true q
    (s_count s + 1) (s_limit s) (s_pending s).

Lemma close_event_Ok s s' : close_event event_check None s = Ok s' ↔
  ValidString (s_event s) = true ∧ ∃ q, event_check (s_version s) (s_event s) = Ok q ∧
  from_option (λ p, p ≤ q)%Z True (prev_of s) ∧ s' = closed_scanner s q.
Proof.
  unfold close_event, prev_of. split.
  - intros H. apply bind_Ok in H as ([] & Hv%reject_if_Ok%negb_false_iff & H).
    apply bind_Ok in H as ([q s1] & Hq & H). apply or_else_Ok in Hq. cbn in Hq. apply bind_Ok in Hq as (q' & Hq & [= -> ->]).
    apply bind_Ok in H as ([] & Hp%reject_if_Ok & H). injection H as <-. split; [done|]. exists q. split; [done|]. split; [|done].
    destruct (s_havePrevious s1); cbn in *; [by apply Z.ltb_ge|done].
  - intros (Hv & q & Hq & Hp & ->). rewrite Hv. cbn. rewrite Hq. cbn.
    destruct (s_havePrevious s); cbn in *; [|done]. by rewrite (proj2 (Z.ltb_ge _ _) Hp).
Qed.

(** The state on entering an event. *)
Definition opened (s : conversationEventScanner) : conversationEventScanner :=
  MkScanner (s_version s) [brace_open] (String brace_open "") (s_quoted s) (s_escaped s) (s_needComma s) false
    (s_havePrevious s) (s_previous s) (s_count s) (s_limit s) (s_pending s).

Definition past_comma (s : conversationEventScanner) : conversationEventScanner :=
  MkScanner (s_version s) (s_stack s) (s_event s) (s_quoted s) (s_escaped s) false true (s_havePrevious s)
    (s_previous s) (s_count s) (s_limit s) (s_pending s).

Lemma add_between_Ok v s ch s' : s_stack s = [] → add_byte event_check v s ch = Ok s' ↔
  if s_needComma s then ch = comma ∧ s' = past_comma s
  else ch = brace_open ∧ (s_count s < s_limit s)%Z ∧ s' = opened s.
Proof.
  intros Hst. unfold add_byte, add_between. rewrite Hst. destruct (s_needComma s) eqn:Hn; split.
  - intros H. apply bind_Ok in H as ([] & H1%reject_if_Ok%negb_false_iff%char_eqb_true & H). injection H as <-.
    by rewrite <- Hst at 1.
  - intros [-> ->]. rewrite (proj2 (char_eqb_true comma comma) eq_refl). cbn. unfold past_comma. by rewrite Hst.
  - intros H. apply bind_Ok in H as ([] & H1%reject_if_Ok & H). injection H as <-.
    apply orb_false_iff in H1 as [->%negb_false_iff%char_eqb_true H2%Z.leb_gt]. unfold opened. by rewrite Hn.
  - intros (-> & Hc & ->). rewrite (proj2 (char_eqb_true brace_open brace_open) eq_refl), (proj2 (Z.leb_gt _ _) Hc).
    cbn. unfold opened. by rewrite Hn.
Qed.

Lemma scan_opened v s l : between s →
  inside_outcome event_check v (opened s) l (frame [brace_open] false false l).
Proof.
  intros (Hst & Hq & He). pose proof (scan_inside event_check v l (opened s)) as H. cbn in H.
  rewrite Hq, He in H. by apply H.
Qed.

(** A scan that ends complete has read a separated list of checked events. *)
Definition reads (s : conversationEventScanner) (l : list ascii) : Prop :=
  ∃ events seqs, l = separated (s_needComma s) events ∧ Forall2 (checked (s_version s)) events seqs ∧
    nondecreasing (prev_of s) seqs ∧ (s_count s + Z.of_nat (length events) = s_limit s)%Z ∧
    (events = [] → s_afterComma s = false).

Lemma reads_event s rest k q :
  between s → s_needComma s = false → frame [brace_open] false false (rest ++ k) = Closed rest k →
  let s1 := closed_scanner (at_close (opened s) rest) q in
  ValidString (s_event s1) = true → event_check (s_version s) (s_event s1) = Ok q →
  from_option (λ p, p ≤ q)%Z True (prev_of s) → reads s1 k → reads s (brace_open :: rest ++ k).
Proof.
  intros Hb Hn Hf s1 Hv Hq Hp (events & seqs & Hk & Hall & Hnd & Hlen & _).
  exists (s_event s1 :: events), (q :: seqs). rewrite Hn. split_and!; [|constructor; [|done]|split; [done|]| |done].
  - cbn. rewrite chars_text. cbn. f_equal. f_equal. rewrite Hk. by destruct events.
  - split; [|done]. exists rest. split; [cbn; by rewrite chars_text|]. by eapply frame_body.
  - exact Hnd.
  - cbn in *. lia.
Qed.

Lemma scan_reads l s s' : between s → fold_each (add_byte event_check None) l s = Ok s' → incomplete s' = false → reads s l.
Proof.
  remember (length l) as n eqn:Hn. revert l s Hn. induction (lt_wf n) as [n _ IH]. intros l s -> Hb Hf Hc.
  destruct l as [|ch l].
  { injection Hf as <-. unfold incomplete in Hc. rewrite !orb_false_iff in Hc. destruct Hc as [[[_ _] Ha] Hl].
    apply negb_false_iff, Z.eqb_eq in Hl. exists [], []. split_and!; [done|constructor|done|cbn; lia|done]. }
  cbn in Hf. apply bind_Ok in Hf as (s1 & H1 & Hf). pose proof (add_between_Ok None s ch s1 (proj1 Hb)) as Hab.
  apply Hab in H1. clear Hab. destruct (s_needComma s) eqn:Hnc.
  - destruct H1 as [-> ->].
    destruct (IH (length l) ltac:(cbn; lia) l (past_comma s) eq_refl) as (events & seqs & -> & Hall & Hnd & Hlen & Hne); [done..|].
    exists events, seqs. rewrite Hnc. destruct events as [|e events]; [by specialize (Hne eq_refl)|]. done.
  - destruct H1 as (-> & Hlt & ->). pose proof (scan_opened None s l Hb) as Ho.
    destruct (frame [brace_open] false false l) as [body rest| |] eqn:Hfr; cbn [inside_outcome] in Ho.
    + destruct (frame_Closed _ _ _ _ _ _ Hfr) as [-> Hne]. rewrite Hf in Ho. symmetry in Ho.
      apply bind_Ok in Ho as (s2 & (Hv & q & Hq & Hp & ->)%close_event_Ok & Hf2).
      eapply reads_event; [done|done|exact Hfr|exact Hv|exact Hq|exact Hp|].
      eapply (IH (length rest)); [|done|split; done|exact Hf2|exact Hc].
      cbn. rewrite length_app. destruct body; [done|cbn; lia].
    + destruct Ho as (s2 & Hf2 & Hst). rewrite Hf in Hf2. injection Hf2 as <-. exfalso.
      unfold incomplete in Hc. rewrite bool_decide_true in Hc by done. done.
    + congruence.
Qed.


Lemma scan_event s e q k : between s → s_needComma s = false → (s_count s < s_limit s)%Z →
  checked (s_version s) e q → from_option (λ p, p ≤ q)%Z True (prev_of s) →
  ∃ s1, fold_each (add_byte event_check None) (chars e ++ k) s = fold_each (add_byte event_check None) k s1 ∧
    between s1 ∧ s_needComma s1 = true ∧ prev_of s1 = Some q ∧ s_version s1 = s_version s ∧
    s_count s1 = (s_count s + 1)%Z ∧ s_limit s1 = s_limit s ∧ s_afterComma s1 = false.
Proof.
  intros Hb Hn Hlt ((rest & He & Hf) & Hv & Hq) Hp. exists (closed_scanner (at_close (opened s) rest) q).
  split; [|done]. assert (Hev : s_event (at_close (opened s) rest) = e).
  { cbn. rewrite <- (text_chars e), He. done. }
  rewrite He. cbn [app fold_each]. assert (add_byte event_check None s brace_open = Ok (opened s)) as ->.
  { apply (add_between_Ok None); [apply Hb|]. by rewrite Hn. }
  cbn [mbind result_bind]. pose proof (scan_opened None s (rest ++ k) Hb) as Ho.
  rewrite (frame_app _ _ _ _ _ _ k Hf) in Ho. cbn [inside_outcome app] in Ho. rewrite Ho.
  assert (close_event event_check None (at_close (opened s) rest) = Ok (closed_scanner (at_close (opened s) rest) q)) as ->;
    [|done].
  apply close_event_Ok. rewrite Hev. split; [done|]. exists q. done.
Qed.

Lemma scan_complete events seqs s : between s → Forall2 (checked (s_version s)) events seqs →
  nondecreasing (prev_of s) seqs → (s_count s + Z.of_nat (length events) ≤ s_limit s)%Z →
  ∃ s', fold_each (add_byte event_check None) (separated (s_needComma s) events) s = Ok s' ∧ between s' ∧
    s_count s' = (s_count s + Z.of_nat (length events))%Z ∧ s_limit s' = s_limit s ∧
    (s_afterComma s' = true → events = [] ∧ s_afterComma s = true).
Proof.
  intros Hb Hall. revert s Hb Hall. revert seqs.
  induction events as [|e events IH]; intros seqs s Hb Hall Hnd Hlen.
  { exists s. split; [done|]. split; [done|]. split; [cbn; lia|]. done. }
  inversion Hall as [|? q ? seqs' Hq Hall']; subst. destruct Hnd as [Hp Hnd]. cbn [separated].
  assert (Hmain : ∀ s0, between s0 → s_needComma s0 = false → s_version s0 = s_version s → s_count s0 = s_count s →
    s_limit s0 = s_limit s → prev_of s0 = prev_of s →
    ∃ s', fold_each (add_byte event_check None) (chars e ++ comma_events events) s0 = Ok s' ∧ between s' ∧
      s_count s' = (s_count s + Z.of_nat (length (e :: events)))%Z ∧ s_limit s' = s_limit s ∧ s_afterComma s' ≠ true).
  { intros s0 Hb0 Hn0 Hv0 Hc0 Hl0 Hp0.
    destruct (scan_event s0 e q (comma_events events)) as (s1 & Hr & Hb1 & Hn1 & Hp1 & Hv1 & Hc1 & Hl1 & Ha1);
      [done|done|cbn in Hlen; lia|by rewrite Hv0|by rewrite Hp0|].
    destruct (IH seqs' s1 Hb1) as (s' & Hr' & Hb' & Hc' & Hl' & Ha');
      [by rewrite Hv1, Hv0|by rewrite Hp1|cbn in Hlen; lia|].
    exists s'. split; [|split; [done|]].
    - rewrite Hr, <- Hr', Hn1. by destruct events.
    - split; [cbn; cbn in Hc'; lia|]. split; [congruence|]. intros [_ Hx]%Ha'. congruence. }
  destruct (s_needComma s) eqn:Hn; cbn [app].
  - assert (Hc : add_byte event_check None s comma = Ok (past_comma s)).
    { apply (add_between_Ok None); [apply Hb|]. by rewrite Hn. }
    cbn [fold_each]. rewrite Hc. cbn [mbind result_bind].
    destruct (Hmain (past_comma s)) as (s' & H1 & H2 & H3 & H4 & H5); [done..|]. exists s'. tauto.
  - destruct (Hmain s) as (s' & H1 & H2 & H3 & H4 & H5); [done..|]. exists s'. tauto.
Qed.

(** The scanner accepts exactly the separated lists of checked events. *)
Lemma scan_exact version limit stream :
  (∃ s, add event_check None (new_scanner version limit) stream = Ok s ∧ incomplete s = false) ↔
  ∃ events seqs, stream = Join events "," ∧ Z.of_nat (length events) = limit ∧
    Forall2 (checked version) events seqs ∧ nondecreasing None seqs.
Proof.
  unfold add. split.
  - intros (s & Hf & Hc). apply scan_reads in Hf as (events & seqs & Hl & Hall & Hnd & Hlen & _); [|done|done].
    exists events, seqs. rewrite <- separated_Join, <- (text_chars stream), Hl. split_and!; [done|cbn in Hlen; lia|done|done].
  - intros (events & seqs & -> & Hlen & Hall & Hnd).
    destruct (scan_complete events seqs (new_scanner version limit)) as (s & Hf & Hb & Hc & Hl & Ha);
      [done|done|done|cbn; lia|].
    exists s. rewrite <- separated_Join, chars_text. split; [exact Hf|]. unfold incomplete.
    destruct Hb as (Hst & Hq & _). rewrite bool_decide_false by (by intros []). rewrite Hq.
    cbn in Hc, Hl. rewrite Hc, Hl, Hlen, Z.eqb_refl. destruct (s_afterComma s); [by destruct Ha|done].
Qed.
End stream.

(** ** Chunk seams *)

Definition Concat (bodies : list string) : string := foldr String.append "" bodies.

Lemma chars_app a b : chars (a +:+ b) = chars a ++ chars b.
Proof. induction a as [|c a IH]; [done|]. cbn. by rewrite IH. Qed.

Section seams.
Context (event_check : string → string → result Z) (v : option StoredDocumentVerifier).

Definition is_chunk (load : string → result string) (c : ConversationManifestChunk) (body : string) : Prop :=
  load (ck_Hash c) = Ok body ∧ zlen body = ck_Bytes c ∧ HashContent body = ck_Hash c.

Lemma scan_chunk_Ok load s c s' : scan_chunk event_check v load s c = Ok s' ↔
  ∃ body, is_chunk load c body ∧ add event_check v s body = Ok s'.
Proof.
  unfold scan_chunk, is_chunk. split.
  - intros H. apply bind_Ok in H as (body & Hl & H). apply bind_Ok in H as ([] & Hz & H).
    apply bind_Ok in H as ([] & Hh & H). apply reject_if_Ok, negb_false_iff, Z.eqb_eq in Hz.
    apply reject_if_Ok, negb_false_iff, bool_decide_eq_true in Hh. eauto.
  - intros (body & (Hl & Hz & Hh) & Ha). rewrite Hl. cbn [mbind result_bind]. rewrite Hz, Z.eqb_refl. cbn [negb reject_if mbind result_bind].
    by rewrite bool_decide_true by done.
Qed.

(** Chunk by chunk is the same as the whole stream at once. *)
Lemma scan_chunks_Ok load chunks s s' : fold_each (scan_chunk event_check v load) chunks s = Ok s' ↔
  ∃ bodies, Forall2 (is_chunk load) chunks bodies ∧ add event_check v s (Concat bodies) = Ok s'.
Proof.
  revert s. induction chunks as [|c chunks IH]; intros s.
  - cbn. split; [intros [= ->]; exists []; by split; [constructor|]|]. intros (bodies & Hb & H). by inversion Hb; subst.
  - cbn [fold_each]. rewrite bind_Ok. split.
    + intros (s1 & (body & Hc & Ha)%scan_chunk_Ok & (bodies & Hb & Has)%IH). exists (body :: bodies).
      split; [by constructor|]. unfold add in *. cbn. by rewrite chars_app, fold_each_run, Ha.
    + intros (bodies & Hb & Has). inversion Hb as [|? body ? bodies' Hc Hbs]; subst. unfold add in Has. cbn in Has.
      rewrite chars_app, fold_each_run in Has. apply bind_Ok in Has as (s1 & Ha & Has).
      exists s1. split; [apply scan_chunk_Ok; eauto|]. apply IH. eauto.
Qed.
End seams.

(** ** Verifying a manifest *)

Section manifests.
Context (event_check : string → string → result Z) (envelope_check : string → result string).

Lemma Canonical_Ok m raw : CanonicalConversationManifest envelope_check m = Ok raw →
  raw = manifest_text m ∧ (∃ version, envelope_check (cm_Envelope m) = Ok version) ∧ manifest_shape_invalid m = false.
Proof.
  unfold CanonicalConversationManifest. intros H. apply bind_Ok in H as ([] & Hs%reject_if_Ok & H).
  apply bind_Ok in H as (version & He%or_else_Ok & H). apply bind_Ok in H as ([] & _ & H).
  apply bind_Ok in H as (total & _ & H). apply bind_Ok in H as ([] & _ & H). apply bind_Ok in H as ([] & _ & H).
  injection H as <-. eauto.
Qed.

Lemma Hash_Ok m want : ConversationManifestHash envelope_check m = Ok want →
  want = HashContent (conversationManifestDomain +:+ manifest_text m) ∧
  (∃ version, envelope_check (cm_Envelope m) = Ok version) ∧
  ((MaxConversationManifestBytes <? zlen (cm_Envelope m))%Z ||
   (MaxConversationManifestChunks <? Z.of_nat (length (elems (cm_Chunks m))))%Z) = false.
Proof.
  unfold ConversationManifestHash. intros H. apply bind_Ok in H as (raw & Hr & H). apply Canonical_Ok in Hr as (-> & Hv & Hs).
  injection H as <-. split; [done|]. split; [done|]. unfold manifest_shape_invalid in Hs. rewrite !orb_false_iff in Hs.
  destruct Hs as [[[[_ Hc] _] He] _]. by rewrite Hc, He.
Qed.

(** What a successful verification went through. *)
Lemma VerifyConversation_Ok v want m load v' :
  VerifyConversation event_check envelope_check v want m (Some load) = Ok v' ↔
  ConversationManifestHash envelope_check m = Ok want ∧ ∃ version s, envelope_check (cm_Envelope m) = Ok version ∧
    fold_each (scan_chunk event_check v load) (elems (cm_Chunks m)) (new_scanner version (cm_EventCount m)) = Ok s ∧
    incomplete s = false ∧ v' = remember v (s_pending s) None.
Proof.
  unfold VerifyConversation. split.
  - intros H. apply bind_Ok in H as ([] & _ & H). apply bind_Ok in H as (hash & Hh & H).
    apply bind_Ok in H as ([] & Hw%reject_if_Ok & H). rewrite !orb_false_iff in Hw.
    destruct Hw as [[_ ->%negb_false_iff%bool_decide_eq_true] _]. split; [done|].
    apply bind_Ok in H as (version & Hv & H). apply bind_Ok in H as (s & Hs & H).
    apply bind_Ok in H as ([] & Hc%reject_if_Ok & H). injection H as <-. exists version, s. done.
  - intros (Hh & version & s & Hv & Hs & Hc & ->). pose proof (Hash_Ok _ _ Hh) as (Hw & _ & Hlim).
    rewrite Hlim. cbn [reject_if mbind result_bind]. rewrite Hh. cbn [mbind result_bind].
    assert (Hok : is_ok (ValidateContentHash want) = true).
    { apply is_ok_unit, ValidateContentHash_Ok. rewrite Hw. apply HashContent_is_content_hash. }
    rewrite Hok, (bool_decide_true (want = want)) by done. cbn [negb orb andb reject_if mbind result_bind].
    rewrite (bool_decide_false (Some load = None)) by done. cbn [andb reject_if mbind result_bind]. rewrite Hv.
    cbn [mbind result_bind]. change (default (λ _ : string, Err ErrConversationManifest) (Some load)) with load. rewrite Hs. cbn [mbind result_bind]. by rewrite Hc.
Qed.

Lemma VerifyManifest_exact want m load :
  VerifyConversationManifest event_check envelope_check want m (Some load) = Ok tt ↔
  ConversationManifestHash envelope_check m = Ok want ∧
  ∃ version bodies events seqs, envelope_check (cm_Envelope m) = Ok version ∧
    Forall2 (is_chunk load) (elems (cm_Chunks m)) bodies ∧ Concat bodies = Join events "," ∧
    Z.of_nat (length events) = cm_EventCount m ∧
    Forall2 (checked event_check version) events seqs ∧ nondecreasing None seqs.
Proof.
  unfold VerifyConversationManifest. rewrite bind_Ok. split.
  - intros (v' & (Hh & version & s & Hv & (bodies & Hb & Ha)%scan_chunks_Ok & Hc & _)%VerifyConversation_Ok & _).
    split; [done|]. destruct (proj1 (scan_exact event_check version (cm_EventCount m) (Concat bodies))) as (events & seqs & H);
      [eauto|]. exists version, bodies, events, seqs. tauto.
  - intros (Hh & version & bodies & events & seqs & Hv & Hb & Hj & Hl & Hall & Hnd).
    destruct (proj2 (scan_exact event_check version (cm_EventCount m) (Concat bodies))) as (s & Ha & Hc); [by exists events, seqs|].
    exists None. split; [|done]. apply VerifyConversation_Ok. split; [done|]. exists version, s.
    split; [done|]. split; [apply scan_chunks_Ok; eauto|]. done.
Qed.
End manifests.

(** ** The partition into chunks *)

Definition chunk_bytes (chunks : list ConversationManifestChunk) : Z := foldr Z.add 0%Z (ck_Bytes <$> chunks).

Lemma check_chunks_Ok available total chunks t : check_chunks available total chunks = Ok t →
  t = (total + chunk_bytes chunks)%Z ∧ (t ≤ Z.max total available)%Z ∧
  Forall (λ c, is_content_hash (ck_Hash c) ∧ 0 < ck_Bytes c ≤ ConversationManifestChunkBytes)%Z chunks ∧
  ∀ before c after, chunks = before ++ c :: after → after ≠ [] → ck_Bytes c = ConversationManifestChunkBytes.
Proof.
  revert total. induction chunks as [|c chunks IH]; intros total H; cbn [check_chunks] in H.
  { injection H as <-. split_and!; [cbn; lia|lia|constructor|]. by intros [|? ?]. }
  apply bind_Ok in H as ([] & Hc%reject_if_Ok & H). rewrite !orb_false_iff in Hc.
  destruct Hc as [[[[Hh Hpos%Z.leb_gt] Hmax%Z.ltb_ge] Hfull] Hav%Z.ltb_ge].
  apply negb_false_iff, is_ok_unit, ValidateContentHash_Ok in Hh.
  destruct (IH _ H) as (Ht & Hb & Hall & Hsplit). split_and!; [cbn; cbn in Ht; unfold chunk_bytes in Ht; lia|lia|by constructor|].
  intros [|c' before] c0 after [= <- Hs] Hne.
  - subst. apply andb_false_iff in Hfull as [Hf|Hf]; [by apply bool_decide_eq_false in Hf|]. by apply negb_false_iff, Z.eqb_eq in Hf.
  - by eapply Hsplit.
Qed.

(** * The claims *)

(** C26: A conversation root verifies exactly when its bytes are what it says.  Verification
    succeeds if and only if the manifest's metadata is valid and hashes to the wanted root,
    every chunk loads with its recorded length and hash, and the chunks together, wherever
    their seams fall, are a comma-separated list of events: as many as recorded, each
    framed by balanced brackets within the depth limit, valid UTF-8 and accepted by the
    event check, with sequences that never decrease. *)
Theorem verify_conversation_exact event_check envelope_check want m load :
  VerifyConversationManifest event_check envelope_check want m (Some load) = Ok tt ↔
  ConversationManifestHash envelope_check m = Ok want ∧
  ∃ version bodies events seqs, envelope_check (cm_Envelope m) = Ok version ∧
    Forall2 (is_chunk load) (elems (cm_Chunks m)) bodies ∧ Concat bodies = Join events "," ∧
    Z.of_nat (length events) = cm_EventCount m ∧
    Forall2 (checked event_check version) events seqs ∧ nondecreasing None seqs.
Proof. apply VerifyManifest_exact. Qed.

(** A valid manifest fixes the partition of its stream: the chunks have valid hashes and
    1 to 512 KiB each, every chunk but the last is full, their sizes sum to the recorded
    stream, which with the envelope and the frame fits the document limit, and the stream
    is empty exactly when no event is recorded. *)
Theorem manifest_partition envelope_check m raw :
  CanonicalConversationManifest envelope_check m = Ok raw →
  chunk_bytes (elems (cm_Chunks m)) = cm_StreamBytes m ∧
  (0 ≤ cm_EventCount m ≤ cm_StreamBytes m)%Z ∧ (cm_StreamBytes m = 0 ↔ cm_EventCount m = 0)%Z ∧
  (conversationFrameBytes + zlen (cm_Envelope m) + cm_StreamBytes m ≤ MaxConversationDocumentBytes)%Z ∧
  Forall (λ c, is_content_hash (ck_Hash c) ∧ 0 < ck_Bytes c ≤ ConversationManifestChunkBytes)%Z (elems (cm_Chunks m)) ∧
  (∀ before c after, elems (cm_Chunks m) = before ++ c :: after → after ≠ [] → ck_Bytes c = ConversationManifestChunkBytes).
Proof.
  unfold CanonicalConversationManifest. intros H. apply bind_Ok in H as ([] & _ & H). apply bind_Ok in H as (version & _ & H).
  apply bind_Ok in H as ([] & Hs%reject_if_Ok & H). apply bind_Ok in H as (total & (Ht & _ & Hall & Hfull)%check_chunks_Ok & H).
  apply bind_Ok in H as ([] & Hz%reject_if_Ok & _). rewrite !orb_false_iff in Hs.
  destruct Hs as [[[H1%Z.ltb_ge H2%Z.ltb_ge] H3%Z.ltb_ge] H4%Z.ltb_ge].
  apply orb_false_iff in Hz as [Hz1%negb_false_iff%Z.eqb_eq Hz2%negb_false_iff%Bool.eqb_prop].
  assert (Hzero : (cm_StreamBytes m = 0 ↔ cm_EventCount m = 0)%Z).
  { rewrite <- Hz1. rewrite <- !Z.eqb_eq, Hz2. done. }
  split_and!; [lia|lia|lia|exact Hzero|lia|done|done].
Qed.

Lemma manifest_partition_witness :
  chunk_bytes [MkChunk (HashContent "{}") 2] = 2%Z.
Proof.
  pose (m := MkManifest 1 ConversationManifestIdentity ConversationManifestChunkFormat "{}" (Some [MkChunk (HashContent "{}") 2]) 2 1).
  refine (proj1 (manifest_partition (λ _, Ok "2") m (manifest_text m) _)). vm_compute. reflexivity.
Defined.
