(* ===== verification/EventReuse.v ===== *)
(** * Reusing proofs of events

    A verifier with a cache of proofs answers as one without: whatever sound caches
    concurrent calls leave behind while a stream is scanned, and through the fast path that
    walks a stored document.  The definitions are those of [EventScanner]. *)
From stdpp Require Import pretty.
From S2P Require Import Prelude GoStrings Utf8 GoJson Sha256 Values EventProofs EventScanner.
From Stdlib Require Import Ascii.

(** [e] occurs in [t]. *)
Definition substring (e t : string) : Prop := ∃ a b, t = a +:+ e +:+ b.

Lemma substring_text_app_l e a b : substring e a → substring e (a +:+ b).
Proof. intros (x & y & ->). exists x, (y +:+ b). by rewrite !string_app_assoc. Qed.

(** The scanner without the proofs it collected. *)
Definition erase (s : conversationEventScanner) : conversationEventScanner :=
  MkScanner (s_version s) (s_stack s) (s_event s) (s_quoted s) (s_escaped s) (s_needComma s) (s_afterComma s)
    (s_havePrevious s) (s_previous s) (s_count s) (s_limit s) [].

Section reuse.
Context (event_check : string → string → result Z).

(** What the cache says of the event is what the check says. *)
Definition agrees (v : option StoredDocumentVerifier) (version e : string) : Prop :=
  ∀ q, lookup_proof v (event_key e version) = Some q → event_check version e = Ok q.

Lemma verifyEvent_erase v s : agrees v (s_version s) (s_event s) →
  (λ p, (p.1, erase p.2)) <$> verifyEvent event_check v s = verifyEvent event_check None (erase s).
Proof.
  intros Ha. destruct v as [v|]; cbn [verifyEvent erase s_version s_event]; [|by destruct (event_check (s_version s) (s_event s))].
  destruct (lookup_proof (Some v) (event_key (s_event s) (s_version s))) as [q|] eqn:Hl.
  - by rewrite (Ha q Hl).
  - by destruct (event_check (s_version s) (s_event s)).
Qed.

Lemma close_event_erase v s : agrees v (s_version s) (s_event s) →
  erase <$> close_event event_check v s = close_event event_check None (erase s).
Proof.
  intros Ha%verifyEvent_erase. unfold close_event. cbn [erase s_event].
  destruct (ValidString (s_event s)); [|done]. cbn [negb reject_if mbind result_bind]. rewrite <- Ha.
  destruct (verifyEvent event_check v s) as [[q s1]|]; [|done].
  cbn [fmap result_fmap or_else mbind result_bind fst snd].
  cbn [erase s_havePrevious s_previous]. destruct (s_havePrevious s1 && _); done.
Qed.

(** What the scanner would key on if the next byte closed its event. *)
Definition pending_event (s : conversationEventScanner) (ch : ascii) : string := s_event s +:+ String ch "".

Lemma add_byte_erase v s ch : (s_stack s ≠ [] → agrees v (s_version s) (pending_event s ch)) →
  erase <$> add_byte event_check v s ch = add_byte event_check None (erase s) ch.
Proof.
  intros Ha. unfold add_byte. cbn [erase s_stack]. destruct (s_stack s) as [|top rest] eqn:Hst.
  - unfold add_between. cbn [erase s_needComma s_count s_limit].
    destruct (s_needComma s); [destruct (char_eqb ch comma); [|done]|destruct (negb _ || _); [done|]];
      cbn; unfold erase; cbn; by rewrite ?Hst.
  - unfold add_inside. cbn [erase s_quoted s_escaped].
    destruct (s_quoted s).
    { destruct (s_escaped s); [done|]. destruct (char_eqb ch backslash); [done|]. by destruct (char_eqb ch quote). }
    destruct (char_eqb ch quote); [done|]. destruct (opens ch).
    { by destruct (_ =? _)%N. }
    destruct (closes ch); [|done]. destruct (mismatched ch top); [done|]. cbn [reject_if mbind result_bind].
    destruct rest as [|top2 rest]; [|done].
    rewrite close_event_erase; [done|]. by apply Ha.
Qed.

(** A run in which every byte may see another cache, as concurrent calls admit and evict. *)
Definition interleaved (l : list (option StoredDocumentVerifier * ascii)) (s : conversationEventScanner)
    : result conversationEventScanner :=
  fold_each (λ s p, add_byte event_check p.1 s p.2) l s.

(** Inside an event, its text ends what has been read. *)
Definition event_read (read : list ascii) (s : conversationEventScanner) : Prop :=
  s_stack s ≠ [] → ∃ before, read = before ++ chars (s_event s).

Lemma chars_snoc s ch : chars (s +:+ String ch "") = chars s ++ [ch].
Proof. by rewrite chars_app. Qed.

(** A byte keeps the version, extends or restarts the event, and may add one proof. *)
Lemma add_byte_frame v s ch s' : add_byte event_check v s ch = Ok s' →
  s_version s' = s_version s ∧
  (s_stack s ≠ [] ∧ s_event s' = pending_event s ch ∨ s_stack s = [] ∧ (s_event s' = String ch "" ∨ s_stack s' = [])) ∧
  (s_pending s' = s_pending s ∨ s_stack s ≠ [] ∧ ∃ q, s_pending s' = s_pending s ++ [(event_key (pending_event s ch) (s_version s), q)] ∧
     event_check (s_version s) (pending_event s ch) = Ok q).
Proof.
  unfold add_byte. destruct (s_stack s) as [|top rest] eqn:Hst.
  - unfold add_between. destruct (s_needComma s); intros H; apply bind_Ok in H as ([] & _ & H); injection H as <-; cbn; rewrite ?Hst; naive_solver.
  - unfold add_inside. destruct (s_quoted s).
    { destruct (s_escaped s); [|destruct (char_eqb ch backslash); [|destruct (char_eqb ch quote)]]; intros [= <-]; cbn; rewrite ?Hst; naive_solver. }
    destruct (char_eqb ch quote); [intros [= <-]; cbn; rewrite ?Hst; naive_solver|].
    destruct (opens ch); [intros H; apply bind_Ok in H as ([] & _ & H); injection H as <-; cbn; rewrite ?Hst; naive_solver|].
    destruct (closes ch); [|intros [= <-]; cbn; rewrite ?Hst; naive_solver].
    intros H. apply bind_Ok in H as ([] & _ & H). destruct rest as [|top2 rest]; [|injection H as <-; cbn; rewrite ?Hst; naive_solver].
    unfold close_event in H. apply bind_Ok in H as ([] & _ & H). apply bind_Ok in H as ([q s1] & Hv%or_else_Ok & H).
    apply bind_Ok in H as ([] & _ & H). injection H as <-. cbn.
    unfold verifyEvent in Hv. cbn [with_frame s_version s_event] in Hv.
    change (s_event s +:+ String ch "") with (pending_event s ch) in Hv.
    destruct v as [v|]; [|apply bind_Ok in Hv as (? & _ & [= <- <-]); cbn; rewrite ?Hst; naive_solver].
    destruct (lookup_proof _ _); [injection Hv as <- <-; cbn; rewrite ?Hst; naive_solver|].
    apply bind_Ok in Hv as (q' & Hq & Hv). injection Hv as <- <-. cbn.
    destruct (_ <? _)%N; [|naive_solver]. split; [done|]. split; [left; done|]. right. split; [done|]. eauto.
Qed.

Lemma event_read_step v s ch s' read : event_read read s → add_byte event_check v s ch = Ok s' →
  event_read (read ++ [ch]) s'.
Proof.
  intros Hr (_ & He & _)%add_byte_frame. unfold event_read in *. intros Hs'.
  destruct He as [[Hst ->]|[Hst [->|He]]]; [|by exists read|done].
  destruct (Hr Hst) as [before ->]. exists before. unfold pending_event. by rewrite chars_snoc, app_assoc.
Qed.

(** With caches that agree on what occurs in the stream, the run is the stateless one. *)
Lemma interleaved_erase l s read : event_read read s →
  (∀ v ch e, (v, ch) ∈ l → substring e (text (read ++ l.*2)) → agrees v (s_version s) e) →
  erase <$> interleaved l s = fold_each (add_byte event_check None) l.*2 (erase s).
Proof.
  revert s read. induction l as [|[v ch] l IH]; intros s read Hr Ha; [done|].
  unfold interleaved in *. cbn [fold_each fmap list_fmap fst snd].
  rewrite <- (add_byte_erase v s ch).
  2: { intros Hst. destruct (Hr Hst) as [before ->]. apply (Ha v ch); [left|]. exists (text before), (text l.*2).
       unfold pending_event. cbn [fmap list_fmap snd]. rewrite <- app_assoc, !text_app. f_equal. rewrite text_chars.
       by rewrite <- string_app_assoc. }
  destruct (add_byte event_check v s ch) as [s1|err] eqn:Hb; [|done]. cbn [mbind result_bind fmap result_fmap].
  apply (IH s1 (read ++ [ch])); [by eapply event_read_step|]. intros v' ch' e Hin Hsub.
  destruct (add_byte_frame _ _ _ _ Hb) as [-> _]. apply (Ha v' ch'); [by right|]. by rewrite <- app_assoc in Hsub.
Qed.

(** The collected proofs are of events of the stream that passed the check. *)
Definition proof_of (version stream : string) (p : storedEventProof) : Prop :=
  ∃ e, substring e stream ∧ p.1 = event_key e version ∧ event_check version e = Ok p.2.

Lemma interleaved_pending l s s' read rest : event_read read s → interleaved l s = Ok s' →
  s_version s' = s_version s ∧
  (Forall (proof_of (s_version s) (text (read ++ l.*2) +:+ rest)) (s_pending s) →
   Forall (proof_of (s_version s) (text (read ++ l.*2) +:+ rest)) (s_pending s')).
Proof.
  revert s read. induction l as [|[v ch] l IH]; intros s read Hr; [intros [= <-]; done|].
  unfold interleaved in *. cbn [fold_each fmap list_fmap fst snd]. intros H. apply bind_Ok in H as (s1 & Hb & H).
  destruct (IH s1 (read ++ [ch]) (event_read_step _ _ _ _ _ Hr Hb) H) as [Hv Hp].
  destruct (add_byte_frame _ _ _ _ Hb) as (Hv1 & _ & Hpend). rewrite Hv1 in *. split; [done|]. intros Hall.
  rewrite <- app_assoc in Hp. apply Hp. destruct Hpend as [->|(Hst & q & -> & Hq)]; [done|].
  apply Forall_app. split; [done|]. constructor; [|constructor]. exists (pending_event s ch). split; [|done].
  apply substring_text_app_l. destruct (Hr Hst) as [before ->]. exists (text before), (text l.*2).
  unfold pending_event. cbn [fmap list_fmap]. rewrite <- app_assoc, !text_app. f_equal. rewrite text_chars.
  by rewrite <- string_app_assoc.
Qed.
End reuse.

Section manifests.
Context (event_check : string → string → result Z) (envelope_check : string → result string).
Context (v : StoredDocumentVerifier) (load : string → result string).

(** The bytes a scan can read: the bodies up to the first that does not load. *)
Fixpoint loaded (chunks : list ConversationManifestChunk) : string :=
  match chunks with
  | [] => ""
  | c :: chunks => match load (ck_Hash c) with Ok body => body +:+ loaded chunks | Err _ => "" end
  end.

Lemma add_interleaved s body :
  add event_check (Some v) s body = interleaved event_check ((λ ch, (Some v, ch)) <$> chars body) s.
Proof.
  unfold add, interleaved. revert s. induction (chars body) as [|ch l IH]; intros s; [done|].
  cbn. destruct (add_byte event_check (Some v) s ch); [apply IH|done].
Qed.

Lemma tagged_chars body : ((λ ch, (Some v, ch)) <$> chars body).*2 = chars body.
Proof. rewrite <- list_fmap_compose. apply list_fmap_id. Qed.

Lemma event_read_run l s s' read : event_read read s → interleaved event_check l s = Ok s' →
  event_read (read ++ l.*2) s'.
Proof.
  revert s read. induction l as [|[v' ch] l IH]; intros s read Hr; [intros [= <-]; by rewrite app_nil_r|].
  unfold interleaved in *. cbn [fold_each fst snd fmap list_fmap]. intros H. apply bind_Ok in H as (s1 & Hb & H).
  rewrite cons_middle, app_assoc. eapply IH; [by eapply event_read_step|done].
Qed.

(** One body: the same outcome, and the invariants for the next one. *)
Lemma add_erase s body read rest : event_read read s →
  (∀ e, substring e (text read +:+ body +:+ rest) → agrees event_check (Some v) (s_version s) e) →
  erase <$> add event_check (Some v) s body = add event_check None (erase s) body ∧
  ∀ s', add event_check (Some v) s body = Ok s' →
    event_read (read ++ chars body) s' ∧ s_version s' = s_version s ∧
    (Forall (proof_of event_check (s_version s) (text read +:+ body +:+ rest)) (s_pending s) →
     Forall (proof_of event_check (s_version s) (text read +:+ body +:+ rest)) (s_pending s')).
Proof.
  intros Hr Ha. rewrite add_interleaved.
  assert (Htext : text (read ++ ((λ ch, (Some v, ch)) <$> chars body).*2) = text read +:+ body).
  { by rewrite tagged_chars, text_app, text_chars. }
  split.
  - rewrite (interleaved_erase event_check _ s read Hr); [by rewrite tagged_chars|].
    intros v' ch e Hin Hsub. rewrite Htext in Hsub. apply list_elem_of_fmap in Hin as (ch' & [= -> ->] & _).
    apply Ha. rewrite string_app_assoc. by apply substring_text_app_l.
  - intros s' Hs. pose proof (event_read_run _ _ _ _ Hr Hs) as Hr'. rewrite tagged_chars in Hr'.
    destruct (interleaved_pending event_check _ _ _ _ rest Hr Hs) as [Hv Hp]. rewrite Htext, <- string_app_assoc in Hp. done.
Qed.

Lemma scan_chunks_erase chunks s read : event_read read s →
  (∀ e, substring e (text read +:+ loaded chunks) → agrees event_check (Some v) (s_version s) e) →
  erase <$> fold_each (scan_chunk event_check (Some v) load) chunks s =
    fold_each (scan_chunk event_check None load) chunks (erase s) ∧
  ∀ s', fold_each (scan_chunk event_check (Some v) load) chunks s = Ok s' →
    Forall (proof_of event_check (s_version s) (text read +:+ loaded chunks)) (s_pending s) →
    Forall (proof_of event_check (s_version s) (text read +:+ loaded chunks)) (s_pending s').
Proof.
  revert s read. induction chunks as [|c chunks IH]; intros s read Hr Ha; [split; [done|by intros s' [= <-]]|].
  cbn [fold_each loaded] in *. unfold scan_chunk. destruct (load (ck_Hash c)) as [body|]; [|done]. cbn [mbind result_bind].
  destruct (zlen body =? ck_Bytes c)%Z; [|done]. cbn [negb reject_if mbind result_bind].
  destruct (HashContent body <>? ck_Hash c); [done|]. cbn [reject_if mbind result_bind].
  destruct (add_erase s body read (loaded chunks) Hr Ha) as [He Hnext].
  destruct (add event_check (Some v) s body) as [s1|err].
  2: { cbn [fmap result_fmap] in He. rewrite <- He. done. }
  cbn [fmap result_fmap] in He. rewrite <- He. cbn [mbind result_bind].
  destruct (Hnext s1 eq_refl) as (Hr1 & Hv1 & Hp1).
  destruct (IH s1 (read ++ chars body) Hr1) as [IH1 IH2].
  { intros e. rewrite text_app, text_chars, <- string_app_assoc, Hv1. apply Ha. }
  split; [exact IH1|]. intros s' Hs Hall. rewrite text_app, text_chars, <- string_app_assoc, Hv1 in IH2. eauto.
Qed.

(** The cache holds proofs of known events that passed the check. *)
Definition sound_cache (known : list string) (v : StoredDocumentVerifier) : Prop :=
  ∀ h version q, v_events v !! (h, version) = Some q →
    ∃ e, e ∈ known ∧ Sha256.hex_digest e = h ∧ event_check version e = Ok q.

(** No text of the stream has the digest of another, known, event. *)
Definition no_collision (known : list string) (stream : string) : Prop :=
  ∀ e e', e ∈ known → substring e' stream → Sha256.hex_digest e = Sha256.hex_digest e' → e = e'.

Lemma sound_agrees known stream version e : sound_cache known v → no_collision known stream → substring e stream →
  agrees event_check (Some v) version e.
Proof.
  intros Hs Hn Hsub q Hl. destruct (Hs _ _ _ Hl) as (e0 & Hin & Hd & Hc). by rewrite <- (Hn e0 e Hin Hsub Hd).
Qed.
End manifests.

Section equivalence.
Context (event_check : string → string → result Z) (envelope_check : string → result string).
Context (v : StoredDocumentVerifier) (load : string → result string) (m : ConversationManifest).
Context (known : list string).
Hypothesis Hsound : sound_cache event_check known v.
Hypothesis Hdistinct : no_collision known (loaded load (elems (cm_Chunks m))).

Lemma scan_start version :
  let s := new_scanner version (cm_EventCount m) in
  erase <$> fold_each (scan_chunk event_check (Some v) load) (elems (cm_Chunks m)) s =
    fold_each (scan_chunk event_check None load) (elems (cm_Chunks m)) s ∧
  ∀ s', fold_each (scan_chunk event_check (Some v) load) (elems (cm_Chunks m)) s = Ok s' →
    Forall (proof_of event_check version (loaded load (elems (cm_Chunks m)))) (s_pending s').
Proof.
  intros s. destruct (scan_chunks_erase event_check v load (elems (cm_Chunks m)) s []) as [H1 H2].
  - by intros [].
  - intros e Hsub. by eapply sound_agrees.
  - split; [exact H1|]. intros s' Hs. apply H2; [done|constructor].
Qed.

Lemma cached_outcome want :
  (λ _, tt) <$> VerifyConversation event_check envelope_check (Some v) want m (Some load) =
  VerifyConversationManifest event_check envelope_check want m (Some load).
Proof.
  unfold VerifyConversationManifest, VerifyConversation.
  destruct (reject_if _ _) as [[]|]; [|done]. cbn [mbind result_bind].
  destruct (ConversationManifestHash envelope_check m) as [hash|]; [|done]. cbn [mbind result_bind].
  destruct (reject_if _ _) as [[]|]; [|done]. cbn [mbind result_bind].
  destruct (envelope_check (cm_Envelope m)) as [version|]; [|done]. cbn [mbind result_bind].
  change (default (λ _ : string, Err ErrConversationManifest) (Some load)) with load.
  destruct (scan_start version) as [<- _].
  destruct (fold_each (scan_chunk event_check (Some v) load) _ _) as [s|]; [|done]. cbn [fmap result_fmap mbind result_bind].
  change (incomplete (erase s)) with (incomplete s). by destruct (incomplete s).
Qed.

End equivalence.

Lemma remembered_sound event_check v known version proofs stream :
  sound_cache event_check known v → Forall (proof_of event_check version stream) proofs → cache_wf storedEventProofLimit v →
  ∃ v1 more, remember (Some v) proofs None = Some v1 ∧ cache_wf storedEventProofLimit v1 ∧
    sound_cache event_check (known ++ more) v1 ∧ Forall (λ e, substring e stream) more.
Proof.
  intros Hsound Hall Hwf. apply Forall_exists_Forall2_l in Hall as [more Hmore].
  destruct (remember_with_invariant storedEventProofLimit v proofs None Hwf) as [Hw _].
  exists (remember_with storedEventProofLimit v proofs None), more. split; [done|]. split; [done|]. split.
  - intros h ver q [Hl|Hl]%remember_with_lookup.
    + destruct (Hsound _ _ _ Hl) as (e & He & Hd). exists e. rewrite elem_of_app. tauto.
    + apply list_elem_of_lookup in Hl as [i Hi]. destruct (Forall2_lookup_l _ _ _ _ _ Hmore Hi) as (e & He & _ & Hk & Hc).
      unfold event_key in Hk. cbn in Hk, Hc. injection Hk as -> ->. exists e. split; [|done].
      apply elem_of_app. right. by eapply list_elem_of_lookup_2.
  - clear -Hmore. induction Hmore as [|? e ? more [Hs _] _ IH]; constructor; done.
Qed.

(** * The claims *)

(** C27: A cache of proofs changes no verdict.  When the cache holds proofs of known events
    that passed the check, and nothing in the stream has the digest of another of them, the
    verifier with the cache succeeds, or fails with the same error, exactly as the
    stateless one; and after a success the cache is still well formed and holds proofs of
    the known events and of events of this stream only. *)
Theorem cached_verification_equiv event_check envelope_check v known want m load :
  cache_wf storedEventProofLimit v → sound_cache event_check known v →
  no_collision known (loaded load (elems (cm_Chunks m))) →
  (λ _, tt) <$> VerifyConversation event_check envelope_check (Some v) want m (Some load) =
    VerifyConversationManifest event_check envelope_check want m (Some load) ∧
  ∀ v', VerifyConversation event_check envelope_check (Some v) want m (Some load) = Ok v' →
    ∃ v1 more, v' = Some v1 ∧ cache_wf storedEventProofLimit v1 ∧ sound_cache event_check (known ++ more) v1 ∧
      Forall (λ e, substring e (loaded load (elems (cm_Chunks m)))) more.
Proof.
  intros Hwf Hs Hn. split; [by eapply cached_outcome|].
  intros v' (_ & version & s & _ & Hf & _ & ->)%VerifyConversation_Ok.
  destruct (scan_start event_check v load m known Hs Hn version) as [_ Hp].
  exact (remembered_sound event_check v known version _ _ Hs (Hp s Hf) Hwf).
Qed.

(** Concurrent use is safe.  Let every byte of a stream be scanned against a cache that
    may differ from the previous byte's, as other calls admit and evict proofs: as long as
    each of them agrees with the check on what occurs in the stream, the scan ends in the
    state of the stateless scan, or with its error. *)
Theorem interleaved_scan_equiv event_check version limit l :
  (∀ v ch e, (v, ch) ∈ l → substring e (text l.*2) → agrees event_check v version e) →
  erase <$> interleaved event_check l (new_scanner version limit) =
  add event_check None (new_scanner version limit) (text l.*2).
Proof.
  intros Ha. rewrite (interleaved_erase event_check l (new_scanner version limit) []); [|by intros []|done].
  unfold add. by rewrite chars_text.
Qed.

Lemma zero_verifier_lookup k : v_events zero_verifier !! k = None.
Proof. apply lookup_empty. Qed.

Module ReuseSamples.
Definition event_check (version e : string) : result Z := if HasPrefix e "{" then Ok (zlen e) else Err ErrConversationManifest.
Definition envelope_check (env : string) : result string := Ok "2".
Definition stream : string := "{},{}".
Definition load (h : string) : result string := if h =? HashContent stream then Ok stream else Err ErrNotFound.
Definition manifest : ConversationManifest :=
  MkManifest 1 ConversationManifestIdentity ConversationManifestChunkFormat "{}" (Some [MkChunk (HashContent stream) 5]) 5 2.
Definition root : string := match ConversationManifestHash envelope_check manifest with Ok h => h | Err _ => "" end.
Definition cache : StoredDocumentVerifier := remember_with storedEventProofLimit zero_verifier [(event_key "{}" "2", 2%Z)] None.

Lemma cache_well_formed : cache_wf storedEventProofLimit cache.
Proof. apply remember_with_invariant, zero_verifier_wf. done. Qed.

Lemma cache_sound : sound_cache event_check ["{}"] cache.
Proof.
  intros h version q [Hl|Hl]%remember_with_lookup; [by rewrite zero_verifier_lookup in Hl|].
  apply list_elem_of_singleton in Hl as [= -> -> ->]. exists "{}". split; [left|]. split; [done|]. vm_compute. done.
Qed.
End ReuseSamples.

(** Every text that occurs in [t], by position and length. *)
Definition substrings (t : string) : list string :=
  i ← seq 0 (S (String.length t)); (λ n, take_chars n (drop_chars i t)) <$> seq 0 (S (String.length t)).

Lemma substring_enumerated e t : substring e t → e ∈ substrings t.
Proof.
  intros (a & b & ->). unfold substrings. apply list_elem_of_bind. exists (String.length a). split.
  - apply list_elem_of_fmap. exists (String.length e). rewrite drop_chars_app, take_chars_app. split; [done|].
    apply elem_of_seq. rewrite !length_app_string. lia.
  - apply elem_of_seq. rewrite !length_app_string. lia.
Qed.

Lemma no_collision_computed known t :
  Forall (λ e', Forall (λ e, Sha256.hex_digest e = Sha256.hex_digest e' → e = e') known) (substrings t) →
  no_collision known t.
Proof. rewrite Forall_forall. intros H e e' He Hs%substring_enumerated. apply H in Hs. rewrite Forall_forall in Hs. eauto. Qed.

Lemma cached_verification_equiv_witness :
  VerifyConversationManifest ReuseSamples.event_check ReuseSamples.envelope_check ReuseSamples.root ReuseSamples.manifest
    (Some ReuseSamples.load) = Ok tt ∧
  is_ok (VerifyConversation ReuseSamples.event_check ReuseSamples.envelope_check (Some ReuseSamples.cache) ReuseSamples.root
    ReuseSamples.manifest (Some ReuseSamples.load)) = true.
Proof.
  assert (H : VerifyConversationManifest ReuseSamples.event_check ReuseSamples.envelope_check ReuseSamples.root
    ReuseSamples.manifest (Some ReuseSamples.load) = Ok tt) by (vm_compute; reflexivity).
  split; [exact H|].
  assert (Hn : no_collision ["{}"] (loaded ReuseSamples.load (elems (cm_Chunks ReuseSamples.manifest)))).
  { apply no_collision_computed. compute_decision. }
  pose proof (proj1 (cached_verification_equiv ReuseSamples.event_check ReuseSamples.envelope_check ReuseSamples.cache ["{}"]
    ReuseSamples.root ReuseSamples.manifest ReuseSamples.load ReuseSamples.cache_well_formed ReuseSamples.cache_sound Hn)) as He.
  rewrite H in He. destruct (VerifyConversation _ _ _ _ _ _); [reflexivity|discriminate He].
Defined.

Lemma interleaved_scan_equiv_witness :
  erase <$> interleaved ReuseSamples.event_check
    [(Some ReuseSamples.cache, brace_open); (Some zero_verifier, brace_close)] (new_scanner "1" 1) =
  add ReuseSamples.event_check None (new_scanner "1" 1) "{}".
Proof.
  apply (interleaved_scan_equiv ReuseSamples.event_check "1" 1
    [(Some ReuseSamples.cache, brace_open); (Some zero_verifier, brace_close)]).
  intros v ch e Hin _ q Hl. exfalso. revert Hl.
  assert (Hv : v = Some ReuseSamples.cache ∨ v = Some zero_verifier).
  { apply list_elem_of_In in Hin. destruct Hin as [E|[E|[]]]; injection E as <- <-; [left|right]; reflexivity. }
  destruct Hv as [-> | ->]; [|unfold lookup_proof; cbn [mbind option_bind]; by rewrite zero_verifier_lookup]. unfold lookup_proof. cbn [mbind option_bind]. intros Hl.
  apply ReuseSamples.cache_sound in Hl as Hl'. apply remember_with_lookup in Hl as [Hl|Hl]; [by rewrite zero_verifier_lookup in Hl|].
  apply list_elem_of_singleton in Hl. apply (f_equal (λ p : storedEventProof, p.1.2)) in Hl.
  cbn [fst snd event_key] in Hl. discriminate Hl.
Defined.

(** * The fast path *)

#[local] Arguments char_eqb : simpl never.
#[local] Arguments backslash : simpl never.
#[local] Arguments quote : simpl never.
#[local] Arguments comma : simpl never.
#[local] Arguments brace_open : simpl never.
#[local] Arguments opens : simpl never.
#[local] Arguments closes : simpl never.
#[local] Arguments mismatched : simpl never.
#[local] Arguments json_space : simpl never.
#[local] Arguments max_event_depth : simpl never.

Section visitor.
Context {A : Type} (visit : A → string → option A).

Definition closed_walk (w : visit_walk A) (body : list ascii) (a : A) : visit_walk A :=
  MkWalk [] (w_event w +:+ text body) false false true (w_afterComma w) a.

(** Inside an event: closed as the framing says and passed by the visitor, or still open. *)
Definition visited (w : visit_walk A) (l : list ascii) (w' : visit_walk A) : Prop :=
  (∃ body rest a, frame (w_stack w) (w_quoted w) (w_escaped w) l = Closed body rest ∧
     visit (w_state w) (w_event w +:+ text body) = Some a ∧ visit_bytes visit rest (closed_walk w body a) = Some w') ∨
  w_stack w' ≠ [].

Lemma visited_extend w w1 ch l w' :
  frame (w_stack w) (w_quoted w) (w_escaped w) (ch :: l) = extend ch (frame (w_stack w1) (w_quoted w1) (w_escaped w1) l) →
  w_state w1 = w_state w → w_event w1 = w_event w +:+ String ch "" → w_afterComma w1 = w_afterComma w →
  visited w1 l w' → visited w (ch :: l) w'.
Proof.
  intros Hf Hs He Ha [(body & rest & a & Hfr & Hv & Hb)|Hst]; [left|by right].
  exists (ch :: body), rest, a. rewrite Hf, Hfr. split; [done|].
  unfold closed_walk in *. rewrite Hs, He, <- string_app_assoc in Hv. rewrite He, Ha, <- string_app_assoc in Hb. done.
Qed.

Lemma visit_inside_sound l w w' : w_stack w ≠ [] → (w_quoted w = false → w_escaped w = false) →
  visit_bytes visit l w = Some w' → visited w l w'.
Proof.
  revert w. induction l as [|ch l IH]; intros w Hst Hq H; [right; by injection H as <-|].
  destruct w as [stack ev q e cm ac a]. cbn [w_stack w_quoted w_escaped] in *. destruct stack as [|top stack]; [done|].
  cbn [visit_bytes] in H. apply bind_Some in H as (w1 & H1 & H).
  assert (Hstep : ∀ st q' e', w1 = MkWalk st (ev +:+ String ch "") q' e' cm ac a → st ≠ [] → (q' = false → e' = false) →
    frame (top :: stack) q e (ch :: l) = extend ch (frame st q' e' l) →
    visited (MkWalk (top :: stack) ev q e cm ac a) (ch :: l) w').
  { intros st q' e' -> Hne Hqe Hf. apply (visited_extend _ (MkWalk st (ev +:+ String ch "") q' e' cm ac a)); [exact Hf|done|done|done|]. by apply IH. }
  unfold visit_byte in H1. cbn [w_quoted w_escaped w_stack] in H1. destruct q.
  { destruct e; [|destruct (char_eqb ch backslash) eqn:E1; [|destruct (char_eqb ch quote) eqn:E2]]; injection H1 as H1;
      (eapply Hstep; [symmetry; exact H1|done|done|cbn; try rewrite E1; try rewrite E2; done]). }
  rewrite (Hq eq_refl) in *. unfold visit_inside in H1. cbn [w_quoted w_escaped w_stack] in H1.
  destruct (char_eqb ch quote) eqn:E1; [injection H1 as H1; eapply Hstep; [by symmetry; exact H1|done|done|cbn; by rewrite E1]|].
  destruct (opens ch) eqn:E2.
  { destruct (N.of_nat (length (top :: stack)) =? max_event_depth)%N eqn:E3; [done|].
    injection H1 as H1. eapply Hstep; [by symmetry; exact H1|done|done|cbn -[N.of_nat N.eqb length]; by rewrite E1, E2, E3]. }
  destruct (closes ch) eqn:E3.
  { destruct (mismatched ch top) eqn:E4; [done|]. destruct stack as [|top2 stack].
    - apply bind_Some in H1 as (a' & Hv & [= <-]). left. exists [ch], l, a'. cbn [frame w_stack w_quoted w_escaped].
      rewrite E1, E2, E3, E4. done.
    - injection H1 as H1. eapply Hstep; [by symmetry; exact H1|done|done|cbn; by rewrite E1, E2, E3, E4]. }
  destruct (json_space ch); [done|]. injection H1 as H1.
  eapply Hstep; [by symmetry; exact H1|done|done|cbn; by rewrite E1, E2, E3].
Qed.

(** The visitor on each event in turn. *)
Fixpoint visit_all (events : list string) (a : A) : option A :=
  match events with
  | [] => Some a
  | e :: events => a ← visit a e; visit_all events a
  end.

Lemma visit_between_sound l w w' : w_stack w = [] → w_quoted w = false → w_escaped w = false →
  visit_bytes visit l w = Some w' → w_stack w' = [] → w_afterComma w' = false →
  ∃ events, l = separated (w_comma w) events ∧ Forall framed events ∧
    visit_all events (w_state w) = Some (w_state w') ∧ (events = [] → w_afterComma w = false).
Proof.
  remember (length l) as n eqn:Hn. revert l w Hn. induction (lt_wf n) as [n _ IH]. intros l w -> Hst Hq He H Hst' Ha'.
  destruct l as [|ch l]; [injection H as <-; by exists []|].
  cbn [visit_bytes] in H. apply bind_Some in H as (w1 & H1 & H).
  unfold visit_byte in H1. rewrite Hq, Hst in H1. unfold visit_between in H1. destruct (w_comma w) eqn:Hc.
  - destruct (char_eqb ch comma) eqn:Ec; [|done]. apply char_eqb_true in Ec as ->. injection H1 as <-.
    match type of H with visit_bytes _ _ ?w0 = _ =>
      destruct (IH (length l) ltac:(cbn; lia) l w0 eq_refl Hst Hq He H Hst' Ha') as (events & -> & Hf & Hv & Hne) end.
    cbn in *. destruct events as [|e events]; [by specialize (Hne eq_refl)|]. exists (e :: events). done.
  - destruct (char_eqb ch brace_open) eqn:Eb; [|done]. apply char_eqb_true in Eb as ->. injection H1 as <-.
    apply visit_inside_sound in H as [(body & rest & a & Hf & Hv & Hb)|Hx]; [|by rewrite Hst' in Hx|done|intros _; exact He].
    cbn in Hf, Hv. rewrite Hq, He in Hf. destruct (frame_Closed _ _ _ _ _ _ Hf) as [-> Hne].
    match type of Hb with visit_bytes _ _ ?w0 = _ =>
      destruct (IH (length rest)) with (l := rest) (w := w0) as (events & -> & Hfr & Hva & _); try done end.
    { cbn. rewrite length_app. destruct body; [done|cbn; lia]. }
    exists (String brace_open (text body) :: events). split_and!; [|constructor; [|done]|cbn in *; by rewrite Hv|done].
    + cbn. rewrite chars_text. do 2 f_equal. by destruct events.
    + exists body. split; [cbn; by rewrite chars_text|]. by eapply frame_body.
Qed.

Lemma visitStoredEvents_sound stream a a' : visitStoredEvents visit stream a = Some a' →
  ∃ events, stream = Join events "," ∧ Forall framed events ∧ visit_all events a = Some a'.
Proof.
  unfold visitStoredEvents. intros H. apply bind_Some in H as (w & Hw & H).
  destruct (bool_decide (w_stack w = [])) eqn:Hst; [|done]. apply bool_decide_eq_true in Hst.
  destruct (w_quoted w); [done|]. destruct (w_afterComma w) eqn:Ha; [done|]. injection H as <-.
  apply visit_between_sound in Hw as (events & Hl & Hf & Hv & _); [|done..].
  exists events. split; [|done]. by rewrite <- separated_Join, <- (text_chars stream), Hl.
Qed.
End visitor.

Section fast.
Context (decode_value : string → option (string * nat)) (envelope_version : string → option string).
Context (typed_event : string → string → option Z).
Context (v : StoredDocumentVerifier).

(** The typed event check as a check of the scanner. *)
Definition typed_check (version e : string) : result Z :=
  from_option Ok (Err ErrConversationManifest) (typed_event version e).

Definition fast_prev (st : fast_state) : option Z := if f_havePrevious st then Some (f_previous st) else None.

(** The event has a cached proof or passes the typed check. *)
Definition proved_or_typed (version e : string) (q : Z) : Prop :=
  lookup_proof (Some v) (event_key e version) = Some q ∨ typed_event version e = Some q.

Lemma fast_event_Some version st e st' : fast_event typed_event v version st e = Some st' →
  ∃ q, proved_or_typed version e q ∧ from_option (λ p, p ≤ q)%Z True (fast_prev st) ∧ fast_prev st' = Some q ∧
    f_havePrevious st' = true ∧ f_digest st' = f_digest st +:+ (if f_havePrevious st then "," else "") +:+ e.
Proof.
  unfold fast_event, proved_or_typed, fast_prev. intros H. apply bind_Some in H as ([q pending] & Hq & H).
  assert (Hp : lookup_proof (Some v) (event_key e version) = Some q ∨ typed_event version e = Some q).
  { destruct (lookup_proof (Some v) (event_key e version)) as [q'|]; [left; congruence|right].
    destruct (f_havePrevious st); [|done]. cbn in Hq. by apply bind_Some in Hq as (q' & Ht & [= -> _]). }
  exists q. split; [done|]. destruct (f_havePrevious st).
  - destruct (Z.ltb_spec q (f_previous st)); [done|]. injection H as <-. done.
  - injection H as <-. done.
Qed.

Lemma fast_all version events st st' : visit_all (fast_event typed_event v version) events st = Some st' →
  ∃ seqs, Forall2 (proved_or_typed version) events seqs ∧ nondecreasing (fast_prev st) seqs ∧
    f_digest st' = f_digest st +:+ text (separated (f_havePrevious st) events).
Proof.
  revert st. induction events as [|e events IH]; intros st H.
  { injection H as <-. exists []. split; [constructor|]. split; [done|]. by rewrite string_app_nil_r. }
  cbn in H. apply bind_Some in H as (st1 & H1 & H).
  destruct (fast_event_Some _ _ _ _ H1) as (q & Hq & Hp & Hp1 & Hh1 & Hd1).
  destruct (IH st1 H) as (seqs & Hall & Hnd & Hd). exists (q :: seqs). split; [by constructor|].
  rewrite Hp1 in Hnd. split; [done|]. rewrite Hd, Hd1, Hh1. cbn [separated]. rewrite <- !string_app_assoc. f_equal.
  rewrite text_app. f_equal; [by destruct (f_havePrevious st)|]. rewrite text_app, text_chars. f_equal.
  f_equal. by destruct events.
Qed.

Lemma canonical_Some want raw v' : canonical decode_value envelope_version typed_event (Some v) want raw = Some v' →
  ∃ env version stream bodies seqs, split_document decode_value envelope_version raw = Some (env, version, stream) ∧
    stream = Join bodies "," ∧ Forall framed bodies ∧ Forall2 (proved_or_typed version) bodies seqs ∧
    nondecreasing None seqs ∧ HashContent (document_bytes env bodies) = want.
Proof.
  unfold canonical. cbn [mbind option_bind]. destruct (_ <=? _)%Z; [done|]. intros H.
  apply bind_Some in H as ([[env version] stream] & Hs & H). destruct (_ <? _)%Z; [done|].
  apply bind_Some in H as (q & _ & H). apply bind_Some in H as (st & Hv & H).
  destruct (HashContent (f_digest st +:+ conversationDocSuffix) <>? want) eqn:Hh; [done|].
  apply negb_false_iff, bool_decide_eq_true in Hh.
  apply visitStoredEvents_sound in Hv as (bodies & -> & Hf & Hall).
  apply fast_all in Hall as (seqs & Hp & Hnd & Hd). exists env, version, (Join bodies ","), bodies, seqs.
  split_and!; [done..|]. rewrite <- Hh, Hd. unfold document_bytes. cbn [f_digest f_havePrevious].
  by rewrite separated_Join, <- !string_app_assoc.
Qed.

Lemma Join_substring bodies e sep : e ∈ bodies → substring e (Join bodies sep).
Proof.
  induction bodies as [|b bodies IH]; [by intros ?%elem_of_nil|].
  destruct bodies as [|b2 bodies].
  - intros ->%list_elem_of_singleton. exists "", "". cbn. by rewrite string_app_nil_r.
  - change (Join (b :: b2 :: bodies) sep) with (b +:+ sep +:+ Join (b2 :: bodies) sep).
    intros [->|Hin]%elem_of_cons; [by exists "", (sep +:+ Join (b2 :: bodies) sep)|].
    destruct (IH Hin) as (x & y & ->). exists (b +:+ sep +:+ x), y. by rewrite <- !string_app_assoc.
Qed.
End fast.

(** The fast path accepts only what the normalizer would.  Let the cache hold proofs of
    known events that pass the typed check, none colliding with a text of the document.  A
    stored document taken by the fast path is an envelope and a comma-separated list of
    framed events, each of which passes the typed check, in order of sequence; and the
    canonical bytes of that envelope and those events have the wanted hash. *)
Theorem fast_path_sound decode_value envelope_version typed_event v known want raw v' :
  sound_cache (typed_check typed_event) known v →
  (∀ env version stream, split_document decode_value envelope_version raw = Some (env, version, stream) →
     no_collision known stream) →
  canonical decode_value envelope_version typed_event (Some v) want raw = Some v' →
  ∃ env version bodies seqs,
    split_document decode_value envelope_version raw = Some (env, version, Join bodies ",") ∧
    Forall framed bodies ∧ Forall2 (λ e q, typed_event version e = Some q) bodies seqs ∧ nondecreasing None seqs ∧
    HashContent (document_bytes env bodies) = want.
Proof.
  intros Hs Hn (env & version & stream & bodies & seqs & Hd & -> & Hf & Hp & Hnd & Hh)%canonical_Some.
  exists env, version, bodies, seqs. split_and!; [done|done| |done|done].
  apply Forall2_same_length_lookup. split; [by eapply Forall2_length|]. intros i e q He Hq.
  pose proof (Forall2_lookup_lr _ _ _ _ _ _ Hp He Hq) as [Hl|Ht]; [|done].
  assert (Hsub : substring e (Join bodies ",")) by (apply Join_substring; by eapply list_elem_of_lookup_2).
  pose proof (sound_agrees _ _ _ _ version e Hs (Hn _ _ _ Hd) Hsub q Hl) as Hc. unfold typed_check in Hc.
  destruct (typed_event version e); [by injection Hc as <-|done].
Qed.

Module FastSamples.
Definition decode_value (s : string) : option (string * nat) := if HasPrefix s "{}" then Some ("{}", 2) else None.
Definition envelope_version (env : string) : option string := if env =? "{}" then Some "2" else None.
Definition typed_event (version e : string) : option Z := if HasPrefix e "{" then Some (zlen e) else None.
Definition raw : string := document_bytes "{}" ["{}"; "{}"].
Definition cache : StoredDocumentVerifier := remember_with storedEventProofLimit zero_verifier [(event_key "{}" "2", 2%Z)] (Some 2%Z).

Lemma fast_cache_sound : sound_cache (typed_check typed_event) ["{}"] cache.
Proof.
  intros h version q [Hl|Hl]%remember_with_lookup; [by rewrite zero_verifier_lookup in Hl|].
  apply list_elem_of_singleton in Hl as [= -> -> ->]. exists "{}". split; [left|]. split; [done|]. vm_compute. done.
Qed.
End FastSamples.

Lemma fast_path_sound_witness :
  ∃ v' env version bodies seqs,
    canonical FastSamples.decode_value FastSamples.envelope_version FastSamples.typed_event (Some FastSamples.cache)
      (HashContent FastSamples.raw) FastSamples.raw = Some v' ∧
    Forall2 (λ e q, FastSamples.typed_event version e = Some q) bodies seqs ∧
    HashContent (document_bytes env bodies) = HashContent FastSamples.raw.
Proof.
  destruct (canonical FastSamples.decode_value FastSamples.envelope_version FastSamples.typed_event (Some FastSamples.cache)
      (HashContent FastSamples.raw) FastSamples.raw) as [v'|] eqn:E; [|exfalso; revert E; vm_compute; discriminate].
  destruct (fast_path_sound FastSamples.decode_value FastSamples.envelope_version FastSamples.typed_event FastSamples.cache ["{}"]
      (HashContent FastSamples.raw) FastSamples.raw v' FastSamples.fast_cache_sound) as (env & version & bodies & seqs & _ & _ & Ht & _ & Hh);
    [|exact E|exists v', env, version, bodies, seqs; exact (conj eq_refl (conj Ht Hh))].
  intros env version stream Hs.
  assert (Hd : split_document FastSamples.decode_value FastSamples.envelope_version FastSamples.raw = Some ("{}", "2", "{},{}"))
    by (vm_compute; reflexivity).
  rewrite Hd in Hs. injection Hs as <- <- <-. apply no_collision_computed. compute_decision.
Defined.
