(* ===== verification/Catalog.v ===== *)
(** * Session catalogs

    Models [catalog.go], [catalog_validate.go] and [snapshot_state.go]
    ([cli/internal/domain]): requests, pages and checkpoints of catalog synchronisation, the
    validation of each after-image, and the projection of a complete image to a manifest.

    Strict typed decoding ([decodeCatalogJSON]) is an interface, [CatalogDecoder]: one
    decoder per type the code decodes into. *)
From stdpp Require Import pretty.
From S2P Require Import Prelude GoStrings Utf8 GoJson Sha256 Values Lifecycle History Graph.
From Stdlib Require Import Ascii.

Definition CatalogVersion : Z := 1.
Definition DefaultCatalogLimit : Z := 256.
Definition MaxCatalogLimit : Z := 1000.
Definition MaxGraftSeq : N := 9223372036854775807.

Record CatalogCheckpoint := MkCheckpoint { cp_Version : Z; cp_RepoID : string; cp_Epoch : string; cp_Sequence : Z }.

#[export] Instance CatalogCheckpoint_eq_dec : EqDecision CatalogCheckpoint.
Proof. solve_decision. Defined.

Record CatalogRequest := MkCatalogRequest {
  cq_Version : Z; cq_After : option CatalogCheckpoint; cq_Cursor : string; cq_Limit : Z }.

(** [Value] is raw JSON; no bytes is the absent value. *)
Record CatalogEntry := MkEntry { en_Sequence : Z; en_Kind : string; en_Key : string; en_Deleted : bool; en_Value : string }.

#[export] Instance CatalogEntry_eq_dec : EqDecision CatalogEntry.
Proof. solve_decision. Defined.

Record CatalogPage := MkPage {
  pa_Version : Z; pa_RepoID : string; pa_Epoch : string; pa_Through : Z; pa_Mode : string;
  pa_Entries : slice CatalogEntry; pa_NextCursor : string; pa_Checkpoint : option CatalogCheckpoint }.

(** ** Checkpoints and requests *)

Definition dash : ascii := ascii_of_N 45.

(** The byte loop of [catalogEpochValid] and [ValidSessionID]. *)
Fixpoint uuid_bytes (i : N) (s : string) : bool :=
  match s with
  | EmptyString => true
  | String c s =>
      (if (i =? 8)%N || (i =? 13)%N || (i =? 18)%N || (i =? 23)%N then c =? dash else is_hex c) &&
      uuid_bytes (i + 1) s
  end.

Definition catalogEpochValid (epoch : string) : bool :=
  (String.length epoch =? 36)%nat && uuid_bytes 0 epoch.

(** [range] over the text yields runes; one outside ASCII is neither a dash nor a digit, so
    the loop is the one over bytes. *)
Definition ValidSessionID (value : string) : bool :=
  (String.length value =? 36)%nat && uuid_bytes 0 value.

Definition checkpoint_invalid (repo : string) (cp : CatalogCheckpoint) : bool :=
  negb (is_ok (ValidateContentHash repo)) || negb (cp_Version cp =? CatalogVersion)%Z || (cp_RepoID cp <>? repo) ||
  negb (catalogEpochValid (cp_Epoch cp)) || (cp_Sequence cp <? 0)%Z.

Definition ValidateCatalogCheckpoint (repo : string) (cp : CatalogCheckpoint) : result unit :=
  reject_if (checkpoint_invalid repo cp) ErrHashMismatch.

Definition CatalogRequest_Validate (r : CatalogRequest) : result unit :=
  reject_if (negb (cq_Version r =? CatalogVersion)%Z || (cq_Limit r <? 0)%Z || (MaxCatalogLimit <? cq_Limit r)%Z ||
             (bool_decide (is_Some (cq_After r)) && (cq_Cursor r <>? ""))) ErrHashMismatch ;;
  match cq_After r with
  | Some after =>
      reject_if (negb (cp_Version after =? CatalogVersion)%Z) ErrCatalogResetRequired ;;
      ValidateCatalogCheckpoint (cp_RepoID after) after
  | None => Ok tt
  end.

(** ** The state token of a snapshot *)

Definition DocumentIdentityRootV1 : string := "cxt-manifest-sha256-v1".

Definition DocumentIdentity_Validate (identity : string) : result unit :=
  reject_if (negb ((identity =? "") || (identity =? DocumentIdentityRootV1))) ErrUnsupportedDocumentIdentity.

Definition snapshot_state_json (s : Snapshot) : json :=
  JObj (str_field "id" (sn_ID s) ++ str_field "branch" (sn_Branch s) ++ str_field "memory_hash" (sn_MemoryHash s) ++
        str_field "message" (sn_Message s) ++ field "grafted" (JBool (sn_Grafted s)) ++
        field "graft_parents" (JArr (JStr <$> elems (sn_GraftParents s))) ++
        field "graft_seq" (JInt (Z.of_N (sn_GraftSeq s))) ++ str_omitempty "doc_identity" (sn_DocIdentity s)).

(** The identity's own encoder refuses an unsupported one. *)
Definition SnapshotStateHash (s : Snapshot) : result string :=
  DocumentIdentity_Validate (sn_DocIdentity s) ;;
  Ok (HashContent (encode (snapshot_state_json s))).

(** ** Entries *)

Class CatalogDecoder := {
  decode_names : string → result (list string);
  decode_snapshot : string → result Snapshot;
  decode_ref : string → result Ref;
  decode_history : string → result HistoryEvent;
  decode_protocol : string → result Z }.

Record catalogEntity := MkEntity { ce_snapshot : option Snapshot; ce_ref : option Ref; ce_protocol : Z }.

Definition no_entity : catalogEntity := MkEntity None None 0.

Definition catalogHistoryIDValid (id : string) : bool :=
  (String.length id =? 32)%nat && (id =? ToLower id) && hex_decodes id.

Definition validateCatalogSnapshot (s : Snapshot) : result unit :=
  reject_if (negb (is_ok (ValidateContentHash (sn_ID s))) || negb (is_ok (ValidateContentHash (sn_DocHash s))) ||
             (sn_ID s <>? sn_DocHash s) || (MaxGraftSeq <? sn_GraftSeq s)%N || (sn_CompactionCount s <? 0)%Z) ErrHashMismatch ;;
  reject_if (existsb (λ h, negb (is_ok (ValidateOptionalContentHash h)))
               [sn_MemoryHash s; sn_ClaudeSettings s; sn_AgentsSettings s; sn_CodexSettings s]) ErrHashMismatch ;;
  reject_if (existsb (λ h, negb (is_ok (ValidateContentHash h))) (elems (sn_Parents s) ++ elems (sn_GraftParents s)))
    ErrHashMismatch ;;
  SnapshotStateHash s ;; Ok tt.

Section entries.
Context `{CatalogDecoder}.

Definition catalogRefKey (key : string) : result (string * string) :=
  match decode_names key with
  | Ok [kind; name] => reject_if (negb (is_ok (ValidateRefName kind name))) ErrHashMismatch ;; Ok (kind, name)
  | _ => Err ErrHashMismatch
  end.

(** The key by kind; a ref's is decoded. *)
Definition check_entry_key (repo : string) (e : CatalogEntry) : result (string * string) :=
  if en_Kind e =? "snapshot" then
    reject_if (negb (is_ok (ValidateContentHash (en_Key e)))) ErrHashMismatch ;; Ok ("", "")
  else if en_Kind e =? "ref" then catalogRefKey (en_Key e)
  else if en_Kind e =? "history" then
    reject_if (negb (catalogHistoryIDValid (en_Key e))) ErrHashMismatch ;; Ok ("", "")
  else if en_Kind e =? "protocol" then reject_if (en_Key e <>? repo) ErrHashMismatch ;; Ok ("", "")
  else Err ErrHashMismatch.

(** The value by kind. *)
Definition decode_entry_value (repo : string) (e : CatalogEntry) (refKey : string * string) : result catalogEntity :=
  if en_Kind e =? "snapshot" then
    s ← decode_snapshot (en_Value e);
    reject_if ((sn_RepoID s <>? repo) || (sn_ID s <>? en_Key e) || negb (is_ok (validateCatalogSnapshot s))) ErrHashMismatch ;;
    Ok (MkEntity (Some s) None 0)
  else if en_Kind e =? "ref" then
    r ← decode_ref (en_Value e);
    reject_if ((ref_RepoID r <>? repo) || (ref_Kind r <>? refKey.1) || (ref_Name r <>? refKey.2) ||
               negb (is_ok (ValidateRef r)) || ((ref_Kind r <>? RefHEAD) && (ref_Symbolic r <>? ""))) ErrHashMismatch ;;
    reject_if (negb (is_ok (ParseBranchLifecycleRef r))) ErrHashMismatch ;;
    Ok (MkEntity None (Some r) 0)
  else if en_Kind e =? "history" then
    event ← decode_history (en_Value e);
    reject_if ((ev_RepoID event <>? repo) || (ev_ID event <>? en_Key e) || negb (is_ok (ValidateHistoryEvent event)))
      ErrHashMismatch ;;
    Ok no_entity
  else if en_Kind e =? "protocol" then
    protocol ← decode_protocol (en_Value e);
    reject_if ((protocol <? 0)%Z || (1 <? protocol)%Z) ErrHashMismatch ;;
    Ok (MkEntity None None protocol)
  else Ok no_entity.

Definition decodeCatalogEntry (repo : string) (e : CatalogEntry) : result catalogEntity :=
  reject_if (negb (is_ok (ValidateContentHash repo)) || (en_Sequence e <? 0)%Z) ErrHashMismatch ;;
  refKey ← check_entry_key repo e;
  if en_Deleted e then reject_if (en_Value e <>? "") ErrHashMismatch ;; Ok no_entity
  else decode_entry_value repo e refKey.

Definition ValidateCatalogEntry (repo : string) (e : CatalogEntry) : result unit :=
  decodeCatalogEntry repo e ;; Ok tt.

Definition catalogEntryLess (a b : CatalogEntry) (mode : string) : bool :=
  if (mode =? "delta") && negb (en_Sequence a =? en_Sequence b)%Z then (en_Sequence a <? en_Sequence b)%Z
  else if en_Kind a <>? en_Kind b then str_lt (en_Kind a) (en_Kind b)
  else str_lt (en_Key a) (en_Key b).

Definition zero_byte : string := String (ascii_of_N 0) "".

Definition CatalogEntryIdentity (e : CatalogEntry) : string :=
  if en_Kind e =? "ref" then
    match catalogRefKey (en_Key e) with
    | Ok key => en_Kind e +:+ zero_byte +:+ encode (JArr [JStr key.1; JStr key.2])
    | Err _ => ""
    end
  else en_Kind e +:+ zero_byte +:+ en_Key e.

(** ** Pages *)

Definition page_checkpoint (p : CatalogPage) : CatalogCheckpoint :=
  MkCheckpoint (pa_Version p) (pa_RepoID p) (pa_Epoch p) (pa_Through p).

(** One entry of the loop: the previous entry and the identities seen, with sequences. *)
Definition check_page_entry (repo : string) (after : option CatalogCheckpoint) (p : CatalogPage)
    (st : option CatalogEntry * gmap string Z) (e : CatalogEntry) : result (option CatalogEntry * gmap string Z) :=
  let '(previous, seen) := st in
  ValidateCatalogEntry repo e ;;
  reject_if ((pa_Through p <? en_Sequence e)%Z ||
             from_option (λ a, (en_Sequence e <=? cp_Sequence a)%Z) false after ||
             ((pa_Mode p =? "baseline") && en_Deleted e)) ErrHashMismatch ;;
  reject_if (from_option (λ x, negb (catalogEntryLess x e (pa_Mode p))) false previous) ErrHashMismatch ;;
  let identity := CatalogEntryIdentity e in
  reject_if (from_option (λ q, (pa_Mode p =? "baseline") || (q =? en_Sequence e)%Z) false (seen !! identity)) ErrHashMismatch ;;
  Ok (Some e, <[identity := en_Sequence e]> seen).

Definition validateCatalogPageShape (repo : string) (after : option CatalogCheckpoint) (p : CatalogPage) : result unit :=
  let cp := page_checkpoint p in
  ValidateCatalogCheckpoint repo cp ;;
  reject_if (bool_decide (pa_Entries p = None) || (MaxCatalogLimit <? Z.of_nat (length (elems (pa_Entries p))))%Z) ErrHashMismatch ;;
  match after with
  | None => reject_if (pa_Mode p <>? "baseline") ErrHashMismatch
  | Some after =>
      reject_if (negb (is_ok (ValidateCatalogCheckpoint repo after)) || (pa_Mode p <>? "delta") ||
                 (pa_Epoch p <>? cp_Epoch after) || (pa_Through p <? cp_Sequence after)%Z) ErrHashMismatch
  end ;;
  (if pa_NextCursor p <>? "" then
     reject_if (bool_decide (is_Some (pa_Checkpoint p)) || bool_decide (elems (pa_Entries p) = [])) ErrHashMismatch
   else reject_if (pa_Checkpoint p <>? Some cp) ErrHashMismatch) ;;
  fold_each (check_page_entry repo after p) (elems (pa_Entries p)) (None, ∅) ;; Ok tt.

(** [oldIdentities]: the sequence of the last old entry of each identity. *)
Definition entry_identities (entries : list CatalogEntry) : gmap string Z :=
  foldl (λ m e, <[CatalogEntryIdentity e := en_Sequence e]> m) ∅ entries.

Definition ValidateCatalogPage (repo : string) (after : option CatalogCheckpoint) (previous : option CatalogPage)
    (page : CatalogPage) : result unit :=
  validateCatalogPageShape repo after page ;;
  match previous with
  | None => Ok tt
  | Some previous =>
      validateCatalogPageShape repo after previous ;;
      reject_if ((pa_NextCursor previous =? "") || bool_decide (is_Some (pa_Checkpoint previous)) ||
                 (pa_Epoch previous <>? pa_Epoch page) || negb (pa_Through previous =? pa_Through page)%Z ||
                 (pa_Mode previous <>? pa_Mode page) ||
                 ((pa_NextCursor page <>? "") && (pa_NextCursor previous =? pa_NextCursor page))) ErrHashMismatch ;;
      match elems (pa_Entries page), last (elems (pa_Entries previous)) with
      | first :: _, Some tail =>
          reject_if (negb (catalogEntryLess tail first (pa_Mode page))) ErrHashMismatch ;;
          let old := entry_identities (elems (pa_Entries previous)) in
          reject_if (existsb (λ e, from_option (λ q, (pa_Mode page =? "baseline") || (q =? en_Sequence e)%Z) false
                                     (old !! CatalogEntryIdentity e)) (elems (pa_Entries page))) ErrHashMismatch
      | _, _ => Ok tt
      end
  end.

(** ** The complete image *)

Record Manifest := MkManifest {
  mf_ContextProtocol : Z; mf_RepoID : string; mf_Refs : list Ref; mf_SnapshotIndex : list string;
  mf_MemoryAttachments : gmap string string; mf_SnapshotStates : gmap string string; mf_Version : Z }.

(** The loop's variables: what is seen and collected, and the protocol entries. *)
Record image := MkImage {
  im_seen : gset string; im_snapshots : list Snapshot; im_refs : list Ref; im_protocols : Z; im_protocol : Z }.

Definition add_entry (repo : string) (im : image) (e : CatalogEntry) : result image :=
  entity ← decodeCatalogEntry repo e;
  let identity := CatalogEntryIdentity e in
  reject_if (en_Deleted e || bool_decide (identity ∈ im_seen im)) ErrHashMismatch ;;
  let seen := {[identity]} ∪ im_seen im in
  Ok (if en_Kind e =? "protocol" then
        MkImage seen (im_snapshots im) (im_refs im) (im_protocols im + 1) (ce_protocol entity)
      else MkImage seen (im_snapshots im ++ option_list (ce_snapshot entity)) (im_refs im ++ option_list (ce_ref entity))
             (im_protocols im) (im_protocol im)).

Definition ref_less (a b : Ref) : bool :=
  str_lt (ref_Kind a) (ref_Kind b) || ((ref_Kind a =? ref_Kind b) && str_lt (ref_Name a) (ref_Name b)).

Definition snapshot_less (a b : Snapshot) : bool := str_lt (sn_ID a) (sn_ID b).

Definition index_snapshot (m : Manifest) (s : Snapshot) : result Manifest :=
  state ← SnapshotStateHash s;
  Ok (MkManifest (mf_ContextProtocol m) (mf_RepoID m) (mf_Refs m) (mf_SnapshotIndex m ++ [sn_ID s])
        (if sn_MemoryHash s <>? "" then <[sn_ID s := sn_MemoryHash s]> (mf_MemoryAttachments m) else mf_MemoryAttachments m)
        (<[sn_ID s := state]> (mf_SnapshotStates m)) (mf_Version m)).

Definition CatalogManifest (repo : string) (entries : list CatalogEntry) : result (Manifest * list Snapshot) :=
  im ← fold_each (add_entry repo) entries (MkImage ∅ [] [] 0 0);
  reject_if (negb (im_protocols im =? 1)%Z) ErrHashMismatch ;;
  refs ← (if (im_protocol im =? 0)%Z then ProjectBranchLifecycleRefs (im_refs im) else Ok (im_refs im));
  let snapshots := sort_slice snapshot_less (im_snapshots im) in
  m ← fold_each index_snapshot snapshots
        (MkManifest (im_protocol im) repo (sort_slice ref_less refs) [] ∅ ∅ (Z.of_nat (length snapshots)));
  Ok (m, snapshots).
End entries.

(** * Properties *)

(** ** The wire order *)

Definition entry_lt (mode : string) (a b : CatalogEntry) : Prop := catalogEntryLess a b mode = true.

Lemma entry_lt_cases mode a b : entry_lt mode a b ↔
  (mode = "delta" ∧ en_Sequence a < en_Sequence b)%Z ∨
  (mode = "delta" → en_Sequence a = en_Sequence b) ∧
  (str_lt (en_Kind a) (en_Kind b) = true ∨ en_Kind a = en_Kind b ∧ str_lt (en_Key a) (en_Key b) = true).
Proof.
  unfold entry_lt, catalogEntryLess.
  destruct (bool_decide_reflect (mode = "delta")) as [Hm|Hm]; cbn [andb].
  - destruct (Z.eqb_spec (en_Sequence a) (en_Sequence b)) as [He|He]; cbn [negb].
    + destruct (bool_decide_reflect (en_Kind a = en_Kind b)) as [Hk|Hk]; cbn [negb].
      * rewrite <- Hk, str_lt_irrefl. split; [tauto|]. intros [[_ H]|[_ [H|H]]]; [lia|done|tauto].
      * split; [tauto|]. intros [[_ H]|[_ [H|[H _]]]]; [lia|done|done].
    + rewrite Z.ltb_lt. split; [tauto|]. intros [[_ H]|[H _]]; [done|]. by specialize (H Hm).
  - destruct (bool_decide_reflect (en_Kind a = en_Kind b)) as [Hk|Hk]; cbn [negb].
    + rewrite <- Hk, str_lt_irrefl. split; [tauto|]. intros [[H _]|[_ [H|H]]]; [done|done|tauto].
    + split; [tauto|]. intros [[H _]|[_ [H|[H _]]]]; done.
Qed.

Lemma entry_lt_trans mode a b c : entry_lt mode a b → entry_lt mode b c → entry_lt mode a c.
Proof.
  rewrite !entry_lt_cases. intros [[Hm Hab]|[Hs Hab]] [[Hm' Hbc]|[Hs' Hbc]].
  - left. split; [done|lia].
  - left. rewrite <- (Hs' Hm). done.
  - left. rewrite (Hs Hm'). done.
  - right. split; [intros Hm; by rewrite (Hs Hm), (Hs' Hm)|].
    destruct Hab as [Hab|[Ha Hab]], Hbc as [Hbc|[Hb Hbc]].
    + left. by eapply str_lt_trans.
    + left. by rewrite <- Hb.
    + left. by rewrite Ha.
    + right. split; [congruence|]. by eapply str_lt_trans.
Qed.

Lemma entry_lt_irrefl mode a : ¬ entry_lt mode a a.
Proof. rewrite entry_lt_cases, !str_lt_irrefl. intros [[_ ?]|[_ [?|[_ ?]]]]; [lia|done|done]. Qed.

#[export] Instance entry_lt_Transitive mode : Transitive (entry_lt mode).
Proof. intros a b c. apply entry_lt_trans. Qed.

Lemma StronglySorted_NoDup mode l : StronglySorted (entry_lt mode) l → NoDup l.
Proof.
  induction 1 as [|a l _ IH Hall]; constructor; [|done]. intros Hin. rewrite Forall_forall in Hall.
  by apply (entry_lt_irrefl mode a), Hall.
Qed.

Section pages.
Context `{CatalogDecoder} (repo : string) (after : option CatalogCheckpoint).

(** What holds of an entry by itself on a valid page. *)
Record entry_fits (p : CatalogPage) (e : CatalogEntry) : Prop := {
  ef_valid : ValidateCatalogEntry repo e = Ok tt;
  ef_through : (en_Sequence e ≤ pa_Through p)%Z;
  ef_after : from_option (λ a, cp_Sequence a < en_Sequence e)%Z True after;
  ef_live : pa_Mode p = "baseline" → en_Deleted e = false }.

Record page_ok (p : CatalogPage) : Prop := {
  po_mode : pa_Mode p = if after then "delta" else "baseline";
  po_entries : Forall (entry_fits p) (elems (pa_Entries p));
  po_sorted : StronglySorted (entry_lt (pa_Mode p)) (elems (pa_Entries p));
  po_bound : (Z.of_nat (length (elems (pa_Entries p))) ≤ MaxCatalogLimit)%Z;
  po_partial : pa_NextCursor p ≠ "" → elems (pa_Entries p) ≠ [];
  po_final : pa_NextCursor p = "" → pa_Checkpoint p = Some (page_checkpoint p) }.

Lemma check_page_entry_Ok p st e st' : check_page_entry repo after p st e = Ok st' →
  entry_fits p e ∧ st'.1 = Some e ∧ from_option (λ x, entry_lt (pa_Mode p) x e) True st.1.
Proof.
  unfold check_page_entry. destruct st as [previous seen]. intros Hc.
  apply bind_Ok in Hc as ([] & Hv & Hc). apply bind_Ok in Hc as ([] & Hb%reject_if_Ok & Hc).
  apply bind_Ok in Hc as ([] & Ho%reject_if_Ok & Hc). apply bind_Ok in Hc as ([] & _ & Hc). injection Hc as <-.
  rewrite !orb_false_iff in Hb. destruct Hb as [[Ht%Z.ltb_ge Ha] Hd]. split; [split|split; [done|]].
  - done.
  - done.
  - destruct after; cbn in *; [by apply Z.leb_gt|done].
  - intros Hm. apply andb_false_iff in Hd as [Hd|Hd]; [by apply bool_decide_eq_false in Hd|done].
  - destruct previous; cbn in *; [by apply negb_false_iff in Ho|done].
Qed.

Lemma page_entries_sorted p l st st' : fold_each (check_page_entry repo after p) l st = Ok st' →
  Forall (entry_fits p) l ∧ Sorted (entry_lt (pa_Mode p)) l ∧
  (∀ x, st.1 = Some x → HdRel (entry_lt (pa_Mode p)) x l).
Proof.
  revert st. induction l as [|e l IH]; intros st Hf; [split_and!; constructor|].
  cbn in Hf. apply bind_Ok in Hf as (st1 & He & Hf). destruct (check_page_entry_Ok _ _ _ _ He) as (Hfit & H1 & Hlt).
  destruct (IH st1 Hf) as (Hall & Hs & Hhd). split_and!; [by constructor|constructor; auto|].
  intros x Hx. rewrite Hx in Hlt. by constructor.
Qed.

Lemma page_shape p : validateCatalogPageShape repo after p = Ok tt → page_ok p.
Proof.
  unfold validateCatalogPageShape. cbn zeta. intros Hs. apply bind_Ok in Hs as ([] & _ & Hs).
  apply bind_Ok in Hs as ([] & Hb%reject_if_Ok & Hs). apply bind_Ok in Hs as ([] & Hm & Hs).
  apply bind_Ok in Hs as ([] & Hn & Hs). apply bind_Ok in Hs as (st & Hf & _).
  apply orb_false_iff in Hb as [_ Hb%Z.ltb_ge].
  destruct (page_entries_sorted p _ _ _ Hf) as (Hall & Hsort & _).
  split; [|done|by apply Sorted_StronglySorted; [apply _|]|done| |].
  - destruct after as [a|]; apply reject_if_Ok in Hm; [|by apply negb_false_iff, bool_decide_eq_true in Hm].
    rewrite !orb_false_iff in Hm. by destruct Hm as [[[_ Hm%negb_false_iff%bool_decide_eq_true] _] _].
  - intros Hne. rewrite (bool_decide_false (pa_NextCursor p = "")) in Hn by done.
    apply reject_if_Ok, orb_false_iff in Hn as [_ Hn]. by apply bool_decide_eq_false in Hn.
  - intros He. rewrite (bool_decide_true (pa_NextCursor p = "")) in Hn by done.
    by apply reject_if_Ok, negb_false_iff, bool_decide_eq_true in Hn.
Qed.

(** A run: the first page, then each page after the one before it. *)
Fixpoint acquires (previous : option CatalogPage) (pages : list CatalogPage) : Prop :=
  match pages with
  | [] => True
  | p :: pages => ValidateCatalogPage repo after previous p = Ok tt ∧ acquires (Some p) pages
  end.

Definition run_entries (pages : list CatalogPage) : list CatalogEntry := pages ≫= (λ p, elems (pa_Entries p)).

(** Two adjacent pages of a run. *)
Lemma page_continues previous p : ValidateCatalogPage repo after (Some previous) p = Ok tt →
  page_ok previous ∧ page_ok p ∧ pa_NextCursor previous ≠ "" ∧ pa_Epoch previous = pa_Epoch p ∧
  pa_Through previous = pa_Through p ∧ pa_Mode previous = pa_Mode p ∧
  (∀ tail first, last (elems (pa_Entries previous)) = Some tail → head (elems (pa_Entries p)) = Some first →
     entry_lt (pa_Mode p) tail first).
Proof.
  unfold ValidateCatalogPage. intros Hv. apply bind_Ok in Hv as ([] & Hp%page_shape & Hv).
  apply bind_Ok in Hv as ([] & Hq%page_shape & Hv). apply bind_Ok in Hv as ([] & Hb%reject_if_Ok & Hv).
  rewrite !orb_false_iff in Hb.
  destruct Hb as [[[[[Hn%bool_decide_eq_false _] He%negb_false_iff%bool_decide_eq_true] Ht%negb_false_iff%Z.eqb_eq]
    Hm%negb_false_iff%bool_decide_eq_true] _].
  split_and!; [done..|]. intros tail first Hl Hh. rewrite Hl in Hv.
  destruct (elems (pa_Entries p)) as [|e l]; [done|]. injection Hh as ->.
  apply bind_Ok in Hv as ([] & Ho%reject_if_Ok%negb_false_iff & _). done.
Qed.

Lemma Sorted_link {A} (R : relation A) l k : Sorted R l → Sorted R k →
  (∀ x y, last l = Some x → head k = Some y → R x y) → Sorted R (l ++ k).
Proof.
  induction 1 as [|a l Hs IH Hhd]; intros Hk Hl; [done|]. cbn. constructor.
  - apply IH; [done|]. intros x y Hx Hy. apply Hl; [|done]. destruct l; [done|]. by rewrite last_cons_cons.
  - destruct l as [|b l]; [|by inversion Hhd; constructor]. cbn. destruct k; constructor. by apply Hl.
Qed.

Lemma acquires_sorted previous pages : page_ok previous → acquires (Some previous) pages →
  Sorted (entry_lt (pa_Mode previous)) (run_entries (previous :: pages)) ∧
  Forall (λ p, page_ok p ∧ pa_Epoch p = pa_Epoch previous ∧ pa_Through p = pa_Through previous ∧
               pa_Mode p = pa_Mode previous) (previous :: pages) ∧
  Forall (λ p, pa_NextCursor p ≠ "") (removelast (previous :: pages)).
Proof.
  revert previous. induction pages as [|p pages IH]; intros previous Hok Ha.
  { cbn. rewrite app_nil_r. split; [apply StronglySorted_Sorted, Hok|]. split; [|constructor]. constructor; [done|constructor]. }
  destruct Ha as [Hv Ha]. destruct (page_continues previous p Hv) as (_ & Hp & Hn & He & Ht & Hm & Hlink).
  destruct (IH p Hp Ha) as (Hs & Hall & Hc). split_and!.
  - change (run_entries (previous :: p :: pages)) with (elems (pa_Entries previous) ++ run_entries (p :: pages)).
    rewrite Hm in *. apply Sorted_link; [|done|].
    + rewrite <- Hm. apply StronglySorted_Sorted, Hok.
    + intros x y Hx Hy. apply Hlink; [done|]. cbn in Hy. destruct (elems (pa_Entries p)) as [|e l] eqn:Hel; [|done].
      exfalso. destruct pages as [|p2 pages]; [done|]. destruct Ha as [Hv2 _].
      destruct (page_continues p p2 Hv2) as (_ & _ & Hn2 & _). by apply (po_partial p Hp Hn2).
  - constructor; [done|]. eapply Forall_impl; [exact Hall|]. cbn. intros q (? & ? & ? & ?). split_and!; [done|congruence..].
  - destruct pages; cbn in *; by constructor.
Qed.

(** Each page but the last carries an entry. *)
Lemma run_length pages : Forall page_ok pages → Forall (λ p, pa_NextCursor p ≠ "") (removelast pages) →
  length pages ≤ S (length (run_entries pages)).
Proof.
  induction pages as [|p pages IH]; intros Hok Hn; [cbn; lia|]. inversion Hok as [|? ? Hp Hok']; subst.
  cbn [run_entries mbind list_bind length]. rewrite length_app. destruct pages as [|p2 pages]; [cbn; lia|].
  inversion Hn as [|? ? Hne Hn']; subst. specialize (IH Hok' Hn'). cbn [run_entries mbind list_bind length] in IH |- *.
  pose proof (po_partial p Hp Hne) as Hl. destruct (elems (pa_Entries p)); [done|]. cbn in *. lia.
Qed.
End pages.

(** ** The complete image *)

Section image.
Context `{CatalogDecoder} (repo : string).

Definition entity_of (e : CatalogEntry) : option catalogEntity :=
  match decodeCatalogEntry repo e with Ok x => Some x | Err _ => None end.

Definition snapshot_of (e : CatalogEntry) : option Snapshot := entity_of e ≫= ce_snapshot.
Definition ref_of (e : CatalogEntry) : option Ref := entity_of e ≫= ce_ref.

Lemma decode_by_kind e x : decodeCatalogEntry repo e = Ok x →
  (∀ s, ce_snapshot x = Some s → en_Kind e = "snapshot" ∧ sn_ID s = en_Key e ∧ sn_RepoID s = repo) ∧
  (∀ r, ce_ref x = Some r → en_Kind e = "ref" ∧ ref_RepoID r = repo) ∧
  (en_Kind e = "protocol" → ce_snapshot x = None ∧ ce_ref x = None).
Proof.
  unfold decodeCatalogEntry. intros Hd. apply bind_Ok in Hd as ([] & _ & Hd). apply bind_Ok in Hd as (key & _ & Hd).
  destruct (en_Deleted e); [apply bind_Ok in Hd as ([] & _ & Hd); injection Hd as <-; done|].
  unfold decode_entry_value in Hd. destruct (bool_decide_reflect (en_Kind e = "snapshot")) as [Hk|Hk].
  { apply bind_Ok in Hd as (s & _ & Hd). apply bind_Ok in Hd as ([] & Hb%reject_if_Ok & Hd). injection Hd as <-.
    rewrite !orb_false_iff in Hb. destruct Hb as [[Hr%negb_false_iff%bool_decide_eq_true Hi%negb_false_iff%bool_decide_eq_true] _].
    split; [by intros ? [= <-]|]. split; [done|]. congruence. }
  destruct (bool_decide_reflect (en_Kind e = "ref")) as [Hk2|Hk2].
  { apply bind_Ok in Hd as (r & _ & Hd). apply bind_Ok in Hd as ([] & Hb%reject_if_Ok & Hd). apply bind_Ok in Hd as ([] & _ & Hd).
    injection Hd as <-. rewrite !orb_false_iff in Hb. destruct Hb as [[[[Hr%negb_false_iff%bool_decide_eq_true _] _] _] _].
    split; [done|]. split; [by intros ? [= <-]|]. congruence. }
  destruct (en_Kind e =? "history").
  { apply bind_Ok in Hd as (ev & _ & Hd). apply bind_Ok in Hd as ([] & _ & Hd). by injection Hd as <-. }
  destruct (en_Kind e =? "protocol"); [|by injection Hd as <-].
  apply bind_Ok in Hd as (pr & _ & Hd). apply bind_Ok in Hd as ([] & _ & Hd). by injection Hd as <-.
Qed.

Definition is_protocol (e : CatalogEntry) : bool := en_Kind e =? "protocol".

(** What the loop has collected from the entries it has passed. *)
Record collected (l : list CatalogEntry) (im : image) : Prop := {
  co_valid : Forall (λ e, ValidateCatalogEntry repo e = Ok tt ∧ en_Deleted e = false) l;
  co_nodup : NoDup (CatalogEntryIdentity <$> l);
  co_seen : ∀ i, i ∈ im_seen im ↔ i ∈ CatalogEntryIdentity <$> l;
  co_snapshots : im_snapshots im = omap snapshot_of l;
  co_refs : im_refs im = omap ref_of l;
  co_protocols : im_protocols im = Z.of_nat (length (filter (λ e, is_protocol e = true) l));
  co_protocol : im_protocols im = 1%Z → ∃ e x, e ∈ l ∧ is_protocol e = true ∧ decodeCatalogEntry repo e = Ok x ∧
    ce_protocol x = im_protocol im }.

Lemma collected_step l im e im' : collected l im → add_entry repo im e = Ok im' → collected (l ++ [e]) im'.
Proof.
  intros [Hv Hnd Hse Hs Hr Hp Hpr] Ha. unfold add_entry in Ha. apply bind_Ok in Ha as (x & Hx & Ha).
  apply bind_Ok in Ha as ([] & Hb%reject_if_Ok & Ha). injection Ha as Ha. apply orb_false_iff in Hb as [Hd Hi%bool_decide_eq_false].
  destruct (decode_by_kind e x Hx) as (Hks & Hkr & Hkp).
  assert (Hent : entity_of e = Some x) by (unfold entity_of; by rewrite Hx).
  assert (Hsn : snapshot_of e = ce_snapshot x) by (unfold snapshot_of; by rewrite Hent).
  assert (Hre : ref_of e = ce_ref x) by (unfold ref_of; by rewrite Hent).
  assert (Hval : ValidateCatalogEntry repo e = Ok tt) by (unfold ValidateCatalogEntry; by rewrite Hx).
  split.
  - apply Forall_app. split; [done|]. by repeat constructor.
  - rewrite fmap_app. apply NoDup_app. split; [done|]. split; [|apply NoDup_singleton].
    intros i Hin ->%list_elem_of_singleton. by apply Hi, Hse.
  - intros i. rewrite fmap_app, elem_of_app, list_fmap_singleton, list_elem_of_singleton, <- Hse, <- Ha. destruct (en_Kind e =? "protocol"); cbn; set_solver.
  - rewrite omap_app. cbn. rewrite Hsn, <- Ha, Hs. unfold is_protocol in *.
    destruct (bool_decide_reflect (en_Kind e = "protocol")) as [Hk|Hk]; cbn.
    + destruct (Hkp Hk) as [-> _]. by rewrite app_nil_r.
    + by destruct (ce_snapshot x).
  - rewrite omap_app. cbn. rewrite Hre, <- Ha, Hr. destruct (bool_decide_reflect (en_Kind e = "protocol")) as [Hk|Hk]; cbn.
    + destruct (Hkp Hk) as [_ ->]. by rewrite app_nil_r.
    + by destruct (ce_ref x).
  - rewrite filter_app, length_app, Nat2Z.inj_add, <- Hp, <- Ha. unfold is_protocol. cbn [filter list_filter].
    destruct (bool_decide_reflect (en_Kind e = "protocol")) as [Hk|Hk]; cbn.
    + rewrite decide_True by done. done.
    + rewrite decide_False by done. cbn. lia.
  - rewrite <- Ha. destruct (bool_decide_reflect (en_Kind e = "protocol")) as [Hk|Hk]; cbn.
    + intros _. exists e, x. split_and!; [apply elem_of_app; right; left|by apply bool_decide_true|done|done].
    + intros (e' & x' & Hin & Hrest)%Hpr. exists e', x'. split; [apply elem_of_app; by left|done].
Qed.

Lemma collects l im : fold_each (add_entry repo) l (MkImage ∅ [] [] 0 0) = Ok im → collected l im.
Proof.
  intros Hf. apply (fold_each_invariant (add_entry repo) collected l (MkImage ∅ [] [] 0 0)); [|by intros; eapply collected_step|done].
  split; cbn; try done; [constructor|]. intros i. split; [intros ?%not_elem_of_empty; done|intros ?%elem_of_nil; done].
Qed.
End image.

(** ** Indexing the snapshots *)

Lemma index_snapshots snaps m0 m : NoDup (sn_ID <$> snaps) →
  (∀ s, s ∈ snaps → mf_SnapshotStates m0 !! sn_ID s = None ∧ mf_MemoryAttachments m0 !! sn_ID s = None) →
  fold_each index_snapshot snaps m0 = Ok m →
  mf_SnapshotIndex m = mf_SnapshotIndex m0 ++ (sn_ID <$> snaps) ∧
  (mf_ContextProtocol m, mf_RepoID m, mf_Refs m, mf_Version m) =
    (mf_ContextProtocol m0, mf_RepoID m0, mf_Refs m0, mf_Version m0) ∧
  (∀ id h, mf_SnapshotStates m !! id = Some h ↔ mf_SnapshotStates m0 !! id = Some h ∨
     ∃ s, s ∈ snaps ∧ sn_ID s = id ∧ SnapshotStateHash s = Ok h) ∧
  (∀ id h, mf_MemoryAttachments m !! id = Some h ↔ mf_MemoryAttachments m0 !! id = Some h ∨
     ∃ s, s ∈ snaps ∧ sn_ID s = id ∧ sn_MemoryHash s = h ∧ h ≠ "").
Proof.
  revert m0. induction snaps as [|s snaps IH]; intros m0 Hnd Hfresh Hf.
  { injection Hf as <-. rewrite app_nil_r. split_and!; [done|done|..]; intros id h; split; [by left| |by left|];
      (intros [?|(x & ?%elem_of_nil & _)]; done). }
  cbn in Hf. apply bind_Ok in Hf as (m1 & H1 & Hf). unfold index_snapshot in H1. apply bind_Ok in H1 as (st & Hst & H1).
  injection H1 as <-. inversion Hnd as [|? ? Hni Hnd']; subst.
  apply IH in Hf as (Hi & Hc & Hs & Hm); [|exact Hnd'|].
  2: { intros x Hx. destruct (Hfresh x (proj2 (elem_of_cons _ _ _) (or_intror Hx))) as [F1 F2].
    assert (sn_ID s ≠ sn_ID x) by (intros E; apply Hni; rewrite E; by apply list_elem_of_fmap_2). cbn.
    split; [by rewrite lookup_insert_ne|]. destruct (_ <>? _); [by rewrite lookup_insert_ne|done]. }
  destruct (Hfresh s (list_elem_of_here _ _)) as [F1 F2]. cbn in Hi, Hc, Hs, Hm. split_and!.
  - rewrite Hi. by rewrite <- app_assoc.
  - done.
  - intros id h. rewrite Hs, lookup_insert_Some. setoid_rewrite elem_of_cons. split.
    + intros [[[<- <-]|[_ ?]]|(x & ? & ?)]; eauto 6.
    + intros [Ho|(x & [->|Hx] & Hid & Hh)]; [|rewrite Hst in Hh; injection Hh as <-; auto|eauto].
      left. right. split; [|done]. intros <-. congruence.
  - intros id h. rewrite Hm. setoid_rewrite elem_of_cons.
    destruct (bool_decide_reflect (sn_MemoryHash s = "")) as [He|He]; cbn [negb].
    + split; [intros [?|(x & ? & ?)]; eauto 6|].
      intros [Ho|(x & [->|Hx] & Hid & Hh & Hne)]; [by left|congruence|eauto 6].
    + rewrite lookup_insert_Some. split.
      * intros [[[<- <-]|[_ ?]]|(x & ? & ?)]; eauto 7.
      * intros [Ho|(x & [->|Hx] & Hid & Hh & Hne)]; [|auto|eauto 6].
        left. right. split; [|done]. intros <-. congruence.
Qed.

(** ** Sorting by distinct keys

    When no two elements have the same key, sorting orders them strictly, in one way. *)
Section sort_by_key.
Context {A K : Type} (key : A → K) (lt : K → K → bool).
Hypothesis lt_irrefl : ∀ k, lt k k = false.
Hypothesis lt_trans : ∀ a b c, lt a b = true → lt b c = true → lt a c = true.
Hypothesis lt_total : ∀ a b, lt a b = true ∨ a = b ∨ lt b a = true.

Definition key_lt (a b : A) : Prop := lt (key a) (key b) = true.

Lemma sort_by_key_Sorted l : NoDup (key <$> l) → Sorted key_lt (sort_slice (λ a b, lt (key a) (key b)) l).
Proof.
  intros Hnd. set (less := λ a b, lt (key a) (key b)).
  assert (Hnd' : NoDup (key <$> sort_slice less l)) by (by rewrite (sort_slice_Permutation less l)).
  assert (Hs : Sorted (not_after less) (sort_slice less l)).
  { apply sort_slice_Sorted. intros a b Hab. unfold less in *. destruct (lt (key b) (key a)) eqn:E; [|done].
    pose proof (lt_irrefl (key a)) as Hx. by rewrite (lt_trans _ _ _ Hab E) in Hx. }
  induction Hs as [|a k Hs IH Hhd]; constructor; inversion Hnd' as [|? ? Hni Hnd'']; subst; [by apply IH|].
  destruct Hhd as [|b k Hab]; constructor. unfold key_lt, not_after, less in *.
  destruct (lt_total (key a) (key b)) as [?|[E|?]]; [done| |congruence].
  exfalso. apply Hni. cbn. rewrite E. left.
Qed.

Lemma key_lt_unique l k : Sorted key_lt l → Sorted key_lt k → l ≡ₚ k → l = k.
Proof.
  assert (Transitive key_lt) by (intros a b c; apply lt_trans).
  assert (AntiSymm (=) key_lt).
  { intros a b Hab Hba. pose proof (lt_irrefl (key a)) as Hx. by rewrite (lt_trans _ _ _ Hab Hba) in Hx. }
  intros Hl Hk Hp. by apply (Sorted_unique key_lt).
Qed.

Lemma Sorted_key_NoDup l : Sorted key_lt l → NoDup (key <$> l).
Proof.
  assert (Transitive key_lt) by (intros a b c; apply lt_trans).
  intros Hs%Sorted_StronglySorted; [|done]. induction Hs as [|a l _ IH Hall]; cbn; constructor; [|done].
  intros (b & Hb & Hin)%list_elem_of_fmap. rewrite Forall_forall in Hall. specialize (Hall b Hin). unfold key_lt in Hall.
  rewrite Hb in Hall. pose proof (lt_irrefl (key b)). congruence.
Qed.
End sort_by_key.

(** The sorted order of snapshots. *)
Definition before_id : Snapshot → Snapshot → Prop := key_lt sn_ID str_lt.

Lemma sorted_ids l : NoDup (sn_ID <$> l) → Sorted before_id (sort_slice snapshot_less l).
Proof. apply (sort_by_key_Sorted sn_ID str_lt); [apply str_lt_irrefl|apply str_lt_trans|apply str_lt_total]. Qed.

Section snapshots.
Context `{CatalogDecoder} (repo : string).

Lemma snapshot_identity e s : snapshot_of repo e = Some s → CatalogEntryIdentity e = "snapshot" +:+ zero_byte +:+ sn_ID s.
Proof.
  unfold snapshot_of, entity_of. intros (x & Hx & Hs)%bind_Some. destruct (decodeCatalogEntry repo e) as [y|] eqn:Hd; [|done].
  injection Hx as ->. destruct (decode_by_kind repo e x Hd) as (Hk & _ & _). destruct (Hk s Hs) as (Hkind & Hid & _).
  unfold CatalogEntryIdentity. rewrite Hkind. by rewrite (bool_decide_false ("snapshot" = "ref")), Hid by done.
Qed.

Lemma snapshot_ids_NoDup l : NoDup (CatalogEntryIdentity <$> l) → NoDup (sn_ID <$> omap (snapshot_of repo) l).
Proof.
  induction l as [|e l IH]; [constructor|]. cbn. intros Hnd. inversion Hnd as [|? ? Hni Hnd']; subst.
  destruct (snapshot_of repo e) as [s|] eqn:Hs; [|by apply IH]. cbn. constructor; [|by apply IH].
  intros (s' & Hid & (e' & He' & Hs')%list_elem_of_omap)%list_elem_of_fmap. apply Hni.
  apply list_elem_of_fmap. exists e'. split; [|done]. by rewrite (snapshot_identity e s), (snapshot_identity e' s'), Hid.
Qed.

Lemma CatalogManifest_Ok entries m snaps : CatalogManifest repo entries = Ok (m, snaps) →
  ∃ im refs, collected repo entries im ∧ im_protocols im = 1%Z ∧
    (if (im_protocol im =? 0)%Z then ProjectBranchLifecycleRefs (im_refs im) else Ok (im_refs im)) = Ok refs ∧
    snaps = sort_slice snapshot_less (im_snapshots im) ∧
    fold_each index_snapshot snaps
      (MkManifest (im_protocol im) repo (sort_slice ref_less refs) [] ∅ ∅ (Z.of_nat (length snaps))) = Ok m.
Proof.
  unfold CatalogManifest. intros Hc. apply bind_Ok in Hc as (im & Him%collects & Hc).
  apply bind_Ok in Hc as ([] & Hp%reject_if_Ok%negb_false_iff%Z.eqb_eq & Hc). apply bind_Ok in Hc as (refs & Hr & Hc).
  apply bind_Ok in Hc as (m' & Hm & Hc). injection Hc as <- <-. exists im, refs. done.
Qed.
End snapshots.

(** * A sample catalog *)
Module CatalogSamples.
Definition repo : string := HashContent "repo".
Definition document : string := HashContent "document".
Definition epoch : string := "01234567-89ab-cdef-0123-456789abcdef".

Definition snapshot : Snapshot :=
  {| sn_ID := document; sn_RepoID := repo; sn_Branch := "main"; sn_Parents := None; sn_DocHash := document;
     sn_DocIdentity := ""; sn_MemoryHash := HashContent "memory"; sn_ClaudeSettings := ""; sn_AgentsSettings := "";
     sn_CodexSettings := ""; sn_Provider := ProviderCodex; sn_Fidelity := "full"; sn_Message := "first";
     sn_Author := MkTeamIdentity "" "" ""; sn_CreatedAt := MkTime 1 0; sn_Grafted := false; sn_GraftParents := None;
     sn_GraftSeq := 0; sn_SessionID := ""; sn_Models := None; sn_CompactionCount := 0 |}.

#[local] Instance decoder : CatalogDecoder := {|
  decode_names key := if key =? "[branch,main]" then Ok ["branch"; "main"] else Err ErrHashMismatch;
  decode_snapshot v := if v =? "{snapshot}" then Ok snapshot else Err ErrHashMismatch;
  decode_ref _ := Err ErrHashMismatch;
  decode_history _ := Err ErrHashMismatch;
  decode_protocol v := if v =? "{protocol}" then Ok 1%Z else Err ErrHashMismatch |}.

Definition protocol_entry : CatalogEntry := MkEntry 3 "protocol" repo false "{protocol}".
Definition snapshot_entry : CatalogEntry := MkEntry 4 "snapshot" document false "{snapshot}".

Definition first_page : CatalogPage := MkPage 1 repo epoch 5 "baseline" (Some [protocol_entry]) "cursor" None.
Definition last_page : CatalogPage :=
  MkPage 1 repo epoch 5 "baseline" (Some [snapshot_entry]) "" (Some (MkCheckpoint 1 repo epoch 5)).

Lemma run : acquires repo None None [first_page; last_page].
Proof. split; [vm_compute; reflexivity|]. split; [vm_compute; reflexivity|exact I]. Qed.

Definition manifest : Manifest * list Snapshot :=
  match CatalogManifest repo [snapshot_entry; protocol_entry] with
  | Ok r => r
  | Err _ => (MkManifest 0 "" [] [] ∅ ∅ 0, [])
  end.
End CatalogSamples.
#[local] Existing Instance CatalogSamples.decoder.

(** * The claims *)

(** C29: The pages of one acquisition fit together.  A run accepted page by page keeps one
    epoch, boundary and mode, and its entries, read across the pages, are strictly
    increasing in the wire order (so none is repeated), each valid for the repository, past
    the requested checkpoint and within the committed boundary, and live in a baseline; and
    every page but the last has a cursor. *)
Theorem catalog_run_ordered `{CatalogDecoder} repo after p pages :
  acquires repo after None (p :: pages) →
  StronglySorted (entry_lt (pa_Mode p)) (run_entries (p :: pages)) ∧
  Forall (entry_fits repo after p) (run_entries (p :: pages)) ∧
  Forall (λ q, pa_Epoch q = pa_Epoch p ∧ pa_Through q = pa_Through p ∧ pa_Mode q = pa_Mode p) (p :: pages) ∧
  Forall (λ q, pa_NextCursor q ≠ "") (removelast (p :: pages)).
Proof.
  intros [Hv Ha]. unfold ValidateCatalogPage in Hv. apply bind_Ok in Hv as ([] & Hp%page_shape & _).
  destruct (acquires_sorted repo after p pages Hp Ha) as (Hs & Hall & Hn). split_and!; [| | |done].
  - apply Sorted_StronglySorted; [apply _|done].
  - apply Forall_forall. intros e (q & He & Hq)%list_elem_of_bind. rewrite Forall_forall in Hall.
    destruct (Hall q Hq) as (Hok & _ & Ht & Hm). pose proof (po_entries _ _ _ Hok) as Hf. rewrite Forall_forall in Hf.
    destruct (Hf e He) as [H1 H2 H3 H4]. split; [done|by rewrite <- Ht|done|by rewrite <- Hm].
  - eapply Forall_impl; [exact Hall|]. by intros q (_ & ?).
Qed.

Lemma catalog_run_ordered_witness :
  StronglySorted (entry_lt "baseline") [CatalogSamples.protocol_entry; CatalogSamples.snapshot_entry].
Proof.
  exact (proj1 (catalog_run_ordered CatalogSamples.repo None CatalogSamples.first_page [CatalogSamples.last_page]
                  CatalogSamples.run)).
Defined.

(** Acquiring a finite catalog ends.  If the entries a server serves are drawn from a
    catalog of [n] entries, no accepted run has more than [n + 1] pages: every page but the
    last brings an entry not seen before, so a client that follows cursors as long as the
    pages are accepted reaches the final page or an error. *)
Theorem catalog_run_finite `{CatalogDecoder} repo after p pages (catalog : list CatalogEntry) :
  acquires repo after None (p :: pages) → (∀ e, e ∈ run_entries (p :: pages) → e ∈ catalog) →
  length (p :: pages) ≤ S (length catalog).
Proof.
  intros Hacq Hin. destruct Hacq as [Hv Ha]. unfold ValidateCatalogPage in Hv. apply bind_Ok in Hv as ([] & Hp%page_shape & _).
  destruct (acquires_sorted repo after p pages Hp Ha) as (Hs & Hall & Hn).
  assert (Hlen : length (run_entries (p :: pages)) ≤ length catalog).
  { apply submseteq_length, NoDup_submseteq; [|done].
    apply (StronglySorted_NoDup (pa_Mode p)), Sorted_StronglySorted; [apply _|done]. }
  assert (Hok : Forall (page_ok repo after) (p :: pages)) by (eapply Forall_impl; [exact Hall|by intros q [? _]]).
  pose proof (run_length repo after (p :: pages) Hok Hn). lia.
Qed.

Lemma catalog_run_finite_witness : length [CatalogSamples.first_page; CatalogSamples.last_page] ≤ 3.
Proof.
  apply (catalog_run_finite CatalogSamples.repo None CatalogSamples.first_page [CatalogSamples.last_page]
           [CatalogSamples.protocol_entry; CatalogSamples.snapshot_entry] CatalogSamples.run).
  intros e He. exact He.
Defined.

(** The manifest of a complete image says exactly what the image holds.  When the
    projection succeeds, every entry is valid and live with an identity of its own, one
    entry is the protocol and its value is the manifest's; the snapshots are those of the
    snapshot entries in strictly increasing order of identifier, and the index, the count,
    the state tokens and the memory attachments are those snapshots' and no others'. *)
Theorem catalog_manifest_exact `{CatalogDecoder} repo entries m snaps :
  CatalogManifest repo entries = Ok (m, snaps) →
  Forall (λ e, ValidateCatalogEntry repo e = Ok tt ∧ en_Deleted e = false) entries ∧
  NoDup (CatalogEntryIdentity <$> entries) ∧
  length (filter (λ e, is_protocol e = true) entries) = 1 ∧
  (∃ e x, e ∈ entries ∧ is_protocol e = true ∧ decodeCatalogEntry repo e = Ok x ∧ ce_protocol x = mf_ContextProtocol m) ∧
  snaps ≡ₚ omap (snapshot_of repo) entries ∧ Sorted before_id snaps ∧
  mf_SnapshotIndex m = sn_ID <$> snaps ∧ mf_Version m = Z.of_nat (length snaps) ∧
  (∀ id h, mf_SnapshotStates m !! id = Some h ↔ ∃ s, s ∈ snaps ∧ sn_ID s = id ∧ SnapshotStateHash s = Ok h) ∧
  (∀ id h, mf_MemoryAttachments m !! id = Some h ↔ ∃ s, s ∈ snaps ∧ sn_ID s = id ∧ sn_MemoryHash s = h ∧ h ≠ "").
Proof.
  intros (im & refs & [Hv Hnd _ Hs _ Hp Hpr] & H1 & _ & Hsn & Hf)%CatalogManifest_Ok.
  pose proof (snapshot_ids_NoDup repo entries Hnd) as Hids. rewrite <- Hs in Hids.
  assert (Hnds : NoDup (sn_ID <$> snaps)) by (rewrite Hsn, (sort_slice_Permutation snapshot_less _); exact Hids).
  apply index_snapshots in Hf as (Hi & Hc & Hst & Hm); [|done|intros s _; cbn; by rewrite !lookup_empty].
  cbn in Hi, Hc, Hst, Hm. injection Hc as Hc1 _ _ Hc4. split_and!; [done|done|lia| |..].
  - destruct (Hpr H1) as (e & x & ? & ? & ? & ?). exists e, x. rewrite Hc1. done.
  - rewrite Hsn, <- Hs. apply sort_slice_Permutation.
  - rewrite Hsn. by apply sorted_ids.
  - done.
  - done.
  - intros id h. rewrite Hst, lookup_empty. split; [by intros [?|?]|by right].
  - intros id h. rewrite Hm, lookup_empty. split; [by intros [?|?]|by right].
Qed.

Lemma catalog_manifest_exact_witness :
  CatalogManifest CatalogSamples.repo [CatalogSamples.snapshot_entry; CatalogSamples.protocol_entry] =
    Ok CatalogSamples.manifest ∧
  mf_SnapshotIndex CatalogSamples.manifest.1 = sn_ID <$> CatalogSamples.manifest.2.
Proof.
  assert (E : CatalogManifest CatalogSamples.repo [CatalogSamples.snapshot_entry; CatalogSamples.protocol_entry] =
    Ok (CatalogSamples.manifest.1, CatalogSamples.manifest.2)) by (vm_compute; reflexivity).
  split; [exact E|].
  destruct (catalog_manifest_exact _ _ _ _ E) as (_ & _ & _ & _ & _ & _ & Hindex & _). exact Hindex.
Defined.
