(* ===== verification/CatalogMerkle.v ===== *)
(** * The catalog's Merkle tree

    Models [catalog_merkle.go] and [catalog_merkle_decode.go] ([cli/internal/domain]): a
    fixed tree of a root, 16 branches and 256 leaves over the live entries of a catalog,
    bucketed by the hash of their logical key, and the pages in which a node is served.

    [CatalogDecoder] is as in [Catalog]; [canonical_value] is [canonicalJSON] of an entry's
    raw value. *)
From stdpp Require Import pretty.
From S2P Require Import Prelude GoStrings Utf8 GoJson Sha256 Values Lifecycle History Graph Catalog.
From Stdlib Require Import Ascii.

Definition CatalogMerkleVersion : Z := 1.
Definition CatalogMerkleScope : string := "sync-metadata-merkle-v1".
Definition catalogMerkleKeyDomain : string := CatalogMerkleScope +:+ ":key" +:+ zero_byte.
Definition catalogMerkleNodeDomain : string := CatalogMerkleScope +:+ ":node" +:+ zero_byte.
Definition catalogMerkleHex : string := "0123456789abcdef".
Definition max_int64 : Z := 9223372036854775807.

Record CatalogMerkleChild := MkChild { cc_Prefix : string; cc_Hash : string; cc_Count : Z }.

Record CatalogMerkleNode := MkNode {
  nd_Version : Z; nd_Scope : string; nd_RepoID : string; nd_Prefix : string; nd_Count : Z;
  nd_Children : slice CatalogMerkleChild; nd_Entries : slice CatalogEntry }.

Record CatalogMerkleRequest := MkMerkleRequest {
  mq_Version : Z; mq_RootHash : string; mq_Checkpoint : option CatalogCheckpoint; mq_Prefix : string;
  mq_Offset : Z; mq_Limit : Z }.

Record CatalogMerklePage := MkMerklePage {
  mp_Version : Z; mp_Scope : string; mp_RepoID : string; mp_Checkpoint : CatalogCheckpoint; mp_RootHash : string;
  mp_Prefix : string; mp_NodeHash : string; mp_Count : Z; mp_Children : slice CatalogMerkleChild;
  mp_Entries : slice CatalogEntry; mp_Offset : Z; mp_NextOffset : option Z }.

(** ** Requests *)

Definition catalogMerklePrefixValid (prefix : string) : bool :=
  (String.length prefix <=? 2)%nat && all_chars (in_cutset catalogMerkleHex) prefix.

Definition catalogMerkleCheckpointValid (repo : string) (cp : CatalogCheckpoint) : bool :=
  is_ok (ValidateContentHash repo) && (cp_Version cp =? CatalogVersion)%Z && (cp_RepoID cp =? repo) &&
  catalogEpochValid (cp_Epoch cp) && (0 <=? cp_Sequence cp)%Z.

Definition MerkleRequest_Validate (r : CatalogMerkleRequest) : result unit :=
  reject_if (negb (mq_Version r =? CatalogMerkleVersion)%Z || negb (catalogMerklePrefixValid (mq_Prefix r)) ||
             (mq_Offset r <? 0)%Z || (mq_Limit r <? 0)%Z || (MaxCatalogLimit <? mq_Limit r)%Z) ErrHashMismatch ;;
  reject_if (negb (Bool.eqb (mq_RootHash r =? "") (bool_decide (mq_Checkpoint r = None)))) ErrHashMismatch ;;
  match mq_Checkpoint r with
  | None => reject_if ((mq_Prefix r <>? "") || negb (mq_Offset r =? 0)%Z) ErrHashMismatch
  | Some cp =>
      reject_if (negb (is_ok (ValidateContentHash (mq_RootHash r))) ||
                 negb (catalogMerkleCheckpointValid (cp_RepoID cp) cp)) ErrHashMismatch
  end ;;
  reject_if ((String.length (mq_Prefix r) <? 2)%nat && negb (mq_Offset r =? 0)%Z) ErrHashMismatch.

(** ** Keys and buckets *)

Definition canonical_names (names : list string) : string := encode (JArr ((λ s, JStr (utf8_clean s)) <$> names)).

Section merkle.
Context `{CatalogDecoder} (canonical_value : string → result string).

Definition catalogMerkleNormalizedKey (e : CatalogEntry) : result string :=
  if (en_Kind e =? "snapshot") || (en_Kind e =? "protocol") then
    reject_if (negb (is_ok (ValidateContentHash (en_Key e)))) ErrHashMismatch ;; Ok (en_Key e)
  else if en_Kind e =? "history" then
    reject_if (negb (String.length (en_Key e) =? 32)%nat || (Trim (en_Key e) catalogMerkleHex <>? "")) ErrHashMismatch ;;
    Ok (en_Key e)
  else if en_Kind e =? "ref" then key ← catalogRefKey (en_Key e); Ok (canonical_names [key.1; key.2])
  else Err ErrHashMismatch.

Definition CatalogMerkleBucket (e : CatalogEntry) : result string :=
  key ← catalogMerkleNormalizedKey e;
  Ok (take_chars 2 (drop_chars 7 (HashContent (catalogMerkleKeyDomain +:+ canonical_names [en_Kind e; key])))).

(** ** Nodes *)

(** The canonical entries of a leaf: live and valid, in their bucket, in strict order of
    kind and normalized key, with canonical values. *)
Definition canonical_entry (repo prefix : string) (st : option (string * string) * list CatalogEntry) (e : CatalogEntry)
    : result (option (string * string) * list CatalogEntry) :=
  let '(previous, out) := st in
  reject_if (en_Deleted e || negb (is_ok (ValidateCatalogEntry repo e))) ErrHashMismatch ;;
  key ← catalogMerkleNormalizedKey e;
  bucket ← or_else (CatalogMerkleBucket e) ErrHashMismatch;
  reject_if (bucket <>? prefix) ErrHashMismatch ;;
  reject_if (from_option (λ p, negb (str_lt p.1 (en_Kind e) || ((p.1 =? en_Kind e) && str_lt p.2 key))) false previous)
    ErrHashMismatch ;;
  value ← or_else (canonical_value (en_Value e)) ErrHashMismatch;
  Ok (Some (en_Kind e, key), out ++ [MkEntry (en_Sequence e) (en_Kind e) key (en_Deleted e) value]).

Definition catalogMerkleCanonicalEntries (repo prefix : string) (entries : list CatalogEntry) : result (list CatalogEntry) :=
  st ← fold_each (canonical_entry repo prefix) entries (None, []);
  Ok st.2.

Definition hex_chars : list ascii := String.list_ascii_of_string catalogMerkleHex.

(** One child of a branch, with the prefix its place gives it. *)
Definition check_child (prefix : string) (count : Z) (p : ascii * CatalogMerkleChild) : result Z :=
  let '(digit, c) := p in
  reject_if ((cc_Prefix c <>? prefix +:+ String digit "") || negb (is_ok (ValidateContentHash (cc_Hash c))) ||
             (cc_Count c <? 0)%Z || (max_int64 - count <? cc_Count c)%Z) ErrHashMismatch ;;
  Ok (count + cc_Count c)%Z.

Definition with_entries (n : CatalogMerkleNode) (entries : list CatalogEntry) : CatalogMerkleNode :=
  MkNode (nd_Version n) (nd_Scope n) (nd_RepoID n) (nd_Prefix n) (nd_Count n) (nd_Children n) (Some entries).

Definition catalogMerkleCanonicalNode (n : CatalogMerkleNode) : result CatalogMerkleNode :=
  reject_if (negb (nd_Version n =? CatalogMerkleVersion)%Z || (nd_Scope n <>? CatalogMerkleScope) ||
             negb (is_ok (ValidateContentHash (nd_RepoID n))) || negb (catalogMerklePrefixValid (nd_Prefix n)) ||
             (nd_Count n <? 0)%Z || bool_decide (nd_Children n = None) || bool_decide (nd_Entries n = None)) ErrHashMismatch ;;
  if (String.length (nd_Prefix n) <? 2)%nat then
    reject_if (negb (length (elems (nd_Children n)) =? 16)%nat || negb (length (elems (nd_Entries n)) =? 0)%nat) ErrHashMismatch ;;
    count ← fold_each (check_child (nd_Prefix n)) (zip hex_chars (elems (nd_Children n))) 0%Z;
    reject_if (negb (count =? nd_Count n)%Z) ErrHashMismatch ;;
    Ok n
  else
    reject_if (negb (length (elems (nd_Children n)) =? 0)%nat ||
               negb (nd_Count n =? Z.of_nat (length (elems (nd_Entries n))))%Z) ErrHashMismatch ;;
    entries ← catalogMerkleCanonicalEntries (nd_RepoID n) (nd_Prefix n) (elems (nd_Entries n));
    Ok (with_entries n entries).

(** The order of [NewCatalogMerkleLeaf]; its map from kind and key to normalized key is the
    function itself, since every entry's key was normalized. *)
Definition leaf_less (a b : CatalogEntry) : bool :=
  let key e := match catalogMerkleNormalizedKey e with Ok k => k | Err _ => "" end in
  str_lt (en_Kind a) (en_Kind b) || ((en_Kind a =? en_Kind b) && str_lt (key a) (key b)).

Definition NewCatalogMerkleLeaf (repo prefix : string) (entries : list CatalogEntry) : result CatalogMerkleNode :=
  reject_if (negb (String.length prefix =? 2)%nat) ErrHashMismatch ;;
  for_each (λ e, catalogMerkleNormalizedKey e ;; Ok tt) entries ;;
  let n := MkNode CatalogMerkleVersion CatalogMerkleScope repo prefix (Z.of_nat (length entries)) (Some [])
             (Some (sort_slice leaf_less entries)) in
  catalogMerkleCanonicalNode n ;; Ok n.

Definition add_child_count (count : Z) (c : CatalogMerkleChild) : result Z :=
  reject_if ((cc_Count c <? 0)%Z || (max_int64 - count <? cc_Count c)%Z) ErrHashMismatch ;;
  Ok (count + cc_Count c)%Z.

Definition NewCatalogMerkleBranch (repo prefix : string) (children : list CatalogMerkleChild) : result CatalogMerkleNode :=
  reject_if (1 <? String.length prefix)%nat ErrHashMismatch ;;
  count ← fold_each add_child_count children 0%Z;
  let n := MkNode CatalogMerkleVersion CatalogMerkleScope repo prefix count (Some children) (Some []) in
  catalogMerkleCanonicalNode n ;; Ok n.

(** ** Hashes *)

Definition quoted_key (k : string) : string := String quote (k +:+ String quote ":").

(** [canonicalJSON] of a normalized node: keys sorted, the values already canonical.  Live
    entries have no [deleted] field; an empty value is omitted. *)
Definition entry_text (e : CatalogEntry) : string :=
  "{" +:+ Join ([quoted_key "key" +:+ encode (JStr (utf8_clean (en_Key e))); quoted_key "kind" +:+ encode (JStr (utf8_clean (en_Kind e)));
                 quoted_key "sequence" +:+ encode (JInt (en_Sequence e))] ++
                (if en_Value e =? "" then [] else [quoted_key "value" +:+ en_Value e])) "," +:+ "}".

Definition child_json (c : CatalogMerkleChild) : json :=
  JObj (field "count" (JInt (cc_Count c)) ++ str_field "hash" (utf8_clean (cc_Hash c)) ++ str_field "prefix" (utf8_clean (cc_Prefix c))).

Definition node_text (n : CatalogMerkleNode) : string :=
  "{" +:+ Join [quoted_key "children" +:+ encode (JArr (child_json <$> elems (nd_Children n)));
                quoted_key "count" +:+ encode (JInt (nd_Count n));
                quoted_key "entries" +:+ "[" +:+ Join (entry_text <$> elems (nd_Entries n)) "," +:+ "]";
                quoted_key "prefix" +:+ encode (JStr (utf8_clean (nd_Prefix n)));
                quoted_key "repo_id" +:+ encode (JStr (utf8_clean (nd_RepoID n)));
                quoted_key "scope" +:+ encode (JStr (utf8_clean (nd_Scope n)));
                quoted_key "version" +:+ encode (JInt (nd_Version n))] "," +:+ "}".

Definition CatalogMerkleHash (n : CatalogMerkleNode) : result string :=
  normalized ← catalogMerkleCanonicalNode n;
  Ok (HashContent (catalogMerkleNodeDomain +:+ node_text normalized)).

(** ** Building *)

Definition bucket_entry (buckets : gmap string (list CatalogEntry)) (e : CatalogEntry)
    : result (gmap string (list CatalogEntry)) :=
  bucket ← CatalogMerkleBucket e;
  Ok (<[bucket := default [] (buckets !! bucket) ++ [e]]> buckets).

Definition nodes_children : Type := gmap string CatalogMerkleNode * list CatalogMerkleChild.

(** [nodes\[hash\] = node; children = append(children, ...)] *)
Definition record_node (st : nodes_children) (n : CatalogMerkleNode) : result nodes_children :=
  hash ← CatalogMerkleHash n;
  Ok (<[hash := n]> st.1, st.2 ++ [MkChild (nd_Prefix n) hash (nd_Count n)]).

Definition build_leaf (repo prefix : string) (buckets : gmap string (list CatalogEntry)) (st : nodes_children) (low : ascii)
    : result nodes_children :=
  let bucket := prefix +:+ String low "" in
  leaf ← NewCatalogMerkleLeaf repo bucket (default [] (buckets !! bucket));
  record_node st leaf.

Definition build_branch (repo : string) (buckets : gmap string (list CatalogEntry)) (st : nodes_children) (high : ascii)
    : result nodes_children :=
  let prefix := String high "" in
  leaves ← fold_each (build_leaf repo prefix buckets) hex_chars (st.1, []);
  branch ← NewCatalogMerkleBranch repo prefix leaves.2;
  record_node (leaves.1, st.2) branch.

Definition BuildCatalogMerkle (repo : string) (entries : list CatalogEntry)
    : result (CatalogMerkleNode * gmap string CatalogMerkleNode) :=
  reject_if (negb (is_ok (ValidateContentHash repo))) ErrHashMismatch ;;
  buckets ← fold_each bucket_entry entries ∅;
  st ← fold_each (build_branch repo buckets) hex_chars (∅, []);
  root ← NewCatalogMerkleBranch repo "" st.2;
  hash ← CatalogMerkleHash root;
  Ok (root, <[hash := root]> st.1).

(** ** Pages *)

Definition page_node (p : CatalogMerklePage) : CatalogMerkleNode :=
  MkNode (mp_Version p) (mp_Scope p) (mp_RepoID p) (mp_Prefix p) (mp_Count p) (mp_Children p) (mp_Entries p).

Definition page_limit (r : CatalogMerkleRequest) : Z := if (mq_Limit r =? 0)%Z then DefaultCatalogLimit else mq_Limit r.

(** The bounds and the cursor of a page of a leaf. *)
Definition check_leaf_page (repo : string) (r : CatalogMerkleRequest) (p : CatalogMerklePage) : result unit :=
  let count := Z.of_nat (length (elems (mp_Entries p))) in
  reject_if (negb (length (elems (mp_Children p)) =? 0)%nat || (page_limit r <? count)%Z || (mp_Count p <? mp_Offset p)%Z ||
             (mp_Count p - mp_Offset p <? count)%Z) ErrHashMismatch ;;
  let stop := (mp_Offset p + count)%Z in
  (if (stop <? mp_Count p)%Z then
     reject_if ((count =? 0)%Z || (mp_NextOffset p <>? Some stop)) ErrHashMismatch
   else reject_if (bool_decide (is_Some (mp_NextOffset p)) || (negb (mp_Offset p =? 0)%Z && (count =? 0)%Z)) ErrHashMismatch) ;;
  catalogMerkleCanonicalEntries repo (mp_Prefix p) (elems (mp_Entries p)) ;;
  reject_if (existsb (λ e, (cp_Sequence (mp_Checkpoint p) <? en_Sequence e)%Z) (elems (mp_Entries p))) ErrHashMismatch.

Definition MerklePage_Validate (repo : string) (r : CatalogMerkleRequest) (p : CatalogMerklePage) : result unit :=
  MerkleRequest_Validate r ;;
  reject_if (negb (mp_Version p =? CatalogMerkleVersion)%Z || (mp_Scope p <>? CatalogMerkleScope) || (mp_RepoID p <>? repo) ||
             negb (catalogMerkleCheckpointValid repo (mp_Checkpoint p)) || negb (is_ok (ValidateContentHash (mp_RootHash p))) ||
             negb (is_ok (ValidateContentHash (mp_NodeHash p))) || (mp_Prefix p <>? mq_Prefix r) ||
             negb (mp_Offset p =? mq_Offset r)%Z || (mp_Count p <? 0)%Z || bool_decide (mp_Children p = None) ||
             bool_decide (mp_Entries p = None)) ErrHashMismatch ;;
  reject_if ((mq_RootHash r <>? "") && ((mq_RootHash r <>? mp_RootHash p) || (mq_Checkpoint r <>? Some (mp_Checkpoint p))))
    ErrHashMismatch ;;
  reject_if ((mp_Prefix p =? "") && (mp_NodeHash p <>? mp_RootHash p)) ErrHashMismatch ;;
  let check_hash :=
    hash ← CatalogMerkleHash (page_node p);
    reject_if (hash <>? mp_NodeHash p) ErrHashMismatch in
  if (String.length (mp_Prefix p) <? 2)%nat then
    reject_if (bool_decide (is_Some (mp_NextOffset p))) ErrHashMismatch ;;
    check_hash
  else
    check_leaf_page repo r p ;;
    if negb (mp_Offset p =? 0)%Z || bool_decide (is_Some (mp_NextOffset p)) then Ok tt
    else check_hash.
End merkle.

(** * Properties *)

(** ** The order of a leaf *)

Definition pair_lt (a b : string * string) : bool := str_lt a.1 b.1 || ((a.1 =? b.1) && str_lt a.2 b.2).

Lemma pair_lt_true a b : pair_lt a b = true ↔ str_lt a.1 b.1 = true ∨ a.1 = b.1 ∧ str_lt a.2 b.2 = true.
Proof. unfold pair_lt. by rewrite orb_true_iff, andb_true_iff, bool_decide_eq_true. Qed.

Lemma pair_lt_irrefl a : pair_lt a a = false.
Proof. unfold pair_lt. by rewrite !str_lt_irrefl, andb_false_r. Qed.

Lemma pair_lt_trans a b c : pair_lt a b = true → pair_lt b c = true → pair_lt a c = true.
Proof.
  rewrite !pair_lt_true. intros [H1|[E1 H1]] [H2|[E2 H2]].
  - left. by eapply str_lt_trans.
  - left. by rewrite <- E2.
  - left. by rewrite E1.
  - right. split; [congruence|]. by eapply str_lt_trans.
Qed.

Lemma pair_lt_total a b : pair_lt a b = true ∨ a = b ∨ pair_lt b a = true.
Proof.
  rewrite !pair_lt_true. destruct a as [a1 a2], b as [b1 b2]. cbn.
  destruct (str_lt_total a1 b1) as [?|[->|?]]; [tauto| |tauto]. destruct (str_lt_total a2 b2) as [?|[->|?]]; tauto.
Qed.

Section merkle.
Context `{CatalogDecoder} (canonical_value : string → result string).

(** The kind and normalized key of an entry. *)
Definition leaf_key (e : CatalogEntry) : string * string :=
  (en_Kind e, match catalogMerkleNormalizedKey e with Ok k => k | Err _ => "" end).

Definition leaf_lt : CatalogEntry → CatalogEntry → Prop := key_lt leaf_key pair_lt.

Lemma leaf_sorted l : NoDup (leaf_key <$> l) → Sorted leaf_lt (sort_slice leaf_less l).
Proof. apply (sort_by_key_Sorted leaf_key pair_lt); [apply pair_lt_irrefl|apply pair_lt_trans|apply pair_lt_total]. Qed.

Lemma leaf_unique l k : Sorted leaf_lt l → Sorted leaf_lt k → l ≡ₚ k → l = k.
Proof. apply key_lt_unique; [apply pair_lt_irrefl|apply pair_lt_trans]. Qed.

Lemma leaf_NoDup l : Sorted leaf_lt l → NoDup (leaf_key <$> l).
Proof. apply Sorted_key_NoDup; [apply pair_lt_irrefl|apply pair_lt_trans]. Qed.

(** An entry that belongs in the leaf. *)
Record leaf_entry (repo prefix : string) (e : CatalogEntry) : Prop := {
  le_live : en_Deleted e = false;
  le_valid : ValidateCatalogEntry repo e = Ok tt;
  le_bucket : CatalogMerkleBucket e = Ok prefix }.

Lemma canonical_entry_Ok repo prefix st e st' : canonical_entry canonical_value repo prefix st e = Ok st' →
  leaf_entry repo prefix e ∧ st'.1 = Some (leaf_key e) ∧ from_option (λ p, pair_lt p (leaf_key e) = true) True st.1.
Proof.
  unfold canonical_entry. destruct st as [previous out]. intros Hc.
  apply bind_Ok in Hc as ([] & Hd%reject_if_Ok & Hc). apply bind_Ok in Hc as (key & Hk & Hc).
  apply bind_Ok in Hc as (bucket & Hb%or_else_Ok & Hc). apply bind_Ok in Hc as ([] & He%reject_if_Ok & Hc).
  apply bind_Ok in Hc as ([] & Ho%reject_if_Ok & Hc). apply bind_Ok in Hc as (value & _ & Hc). injection Hc as <-.
  apply orb_false_iff in Hd as [Hd Hv%negb_false_iff%is_ok_unit]. apply negb_false_iff, bool_decide_eq_true in He as ->.
  split; [by split|]. unfold leaf_key. rewrite Hk. split; [done|].
  destruct previous as [[pk pkey]|]; cbn in *; [by apply negb_false_iff in Ho|done].
Qed.

Lemma canonical_entries_Ok repo prefix l out : catalogMerkleCanonicalEntries canonical_value repo prefix l = Ok out →
  Forall (leaf_entry repo prefix) l ∧ Sorted leaf_lt l.
Proof.
  unfold catalogMerkleCanonicalEntries. intros Hc. apply bind_Ok in Hc as (st & Hf & _).
  assert (Hgen : ∀ st0, fold_each (canonical_entry canonical_value repo prefix) l st0 = Ok st →
    Forall (leaf_entry repo prefix) l ∧ Sorted leaf_lt l ∧
    (∀ e0, st0.1 = Some (leaf_key e0) → HdRel leaf_lt e0 l)); [|by destruct (Hgen _ Hf) as (? & ? & _)].
  clear Hf. induction l as [|e l IH]; intros st0 Hf; [split_and!; constructor|].
  cbn in Hf. apply bind_Ok in Hf as (st1 & He & Hf). destruct (canonical_entry_Ok _ _ _ _ _ He) as (Hle & H1 & Hlt).
  destruct (IH st1 Hf) as (Hall & Hs & Hhd). split_and!; [by constructor|constructor; auto|].
  intros e0 Hx. rewrite Hx in Hlt. by constructor.
Qed.

(** ** Leaves *)

Lemma NewLeaf_Ok repo prefix l n : NewCatalogMerkleLeaf canonical_value repo prefix l = Ok n →
  String.length prefix = 2 ∧ Forall (leaf_entry repo prefix) l ∧ Sorted leaf_lt (sort_slice leaf_less l) ∧
  n = MkNode CatalogMerkleVersion CatalogMerkleScope repo prefix (Z.of_nat (length l)) (Some []) (Some (sort_slice leaf_less l)).
Proof.
  unfold NewCatalogMerkleLeaf. intros Hn. apply bind_Ok in Hn as ([] & Hp%reject_if_Ok%negb_false_iff%Nat.eqb_eq & Hn).
  apply bind_Ok in Hn as ([] & _ & Hn). apply bind_Ok in Hn as (c & Hc & Hn). injection Hn as <-. split; [done|].
  unfold catalogMerkleCanonicalNode in Hc. apply bind_Ok in Hc as ([] & _ & Hc). cbn [nd_Prefix] in Hc.
  rewrite Hp in Hc. cbn [Nat.ltb Nat.leb] in Hc. apply bind_Ok in Hc as ([] & _ & Hc). apply bind_Ok in Hc as (out & Hc & _).
  apply canonical_entries_Ok in Hc as [Hall Hs]. split; [|done].
  cbn in Hall. apply Forall_forall. intros e He. rewrite Forall_forall in Hall. apply Hall. by apply elem_of_sort_slice.
Qed.

(** A leaf does not depend on the order in which its entries are given. *)
Lemma NewLeaf_permutation repo prefix l l' n : l ≡ₚ l' →
  NewCatalogMerkleLeaf canonical_value repo prefix l = Ok n → NewCatalogMerkleLeaf canonical_value repo prefix l' = Ok n.
Proof.
  intros Hp Hn. pose proof (NewLeaf_Ok _ _ _ _ Hn) as (Hlen & _ & Hs & _).
  assert (Heq : sort_slice leaf_less l' = sort_slice leaf_less l).
  { apply leaf_unique; [|done|by rewrite !sort_slice_Permutation]. apply leaf_sorted.
    apply leaf_NoDup in Hs. by rewrite sort_slice_Permutation, Hp in Hs. }
  unfold NewCatalogMerkleLeaf in *. rewrite Heq, <- (Permutation_length Hp).
  apply bind_Ok in Hn as ([] & H1 & Hn). apply bind_Ok in Hn as ([] & H2 & Hn).
  rewrite H1. cbn [mbind result_bind]. apply bind_Ok. exists tt. split; [|done].
  apply for_each_Ok. apply for_each_Ok in H2. by rewrite <- Hp.
Qed.
End merkle.

(** ** Buckets *)

Lemma fold_each_mono {A S} (f g : S → A → result S) l s r :
  (∀ s x r, x ∈ l → f s x = Ok r → g s x = Ok r) → fold_each f l s = Ok r → fold_each g l s = Ok r.
Proof.
  revert s. induction l as [|x l IH]; intros s Hfg Hf; [done|]. cbn in *. apply bind_Ok in Hf as (s1 & H1 & Hf).
  rewrite (Hfg s x s1 (list_elem_of_here _ _) H1). cbn. apply IH; [|done]. intros s2 y r2 Hy. apply Hfg. by right.
Qed.

(** Every element of a completed loop had its step. *)
Lemma fold_each_step {A S} (f : S → A → result S) l x s r : fold_each f l s = Ok r → x ∈ l → ∃ s1 s2, f s1 x = Ok s2.
Proof.
  intros Hf (l1 & l2 & ->)%list_elem_of_split. apply fold_each_app in Hf as (s1 & _ & Hf). cbn in Hf.
  apply bind_Ok in Hf as (s2 & Hs & _). by exists s1, s2.
Qed.

(** A loop completes when its invariant makes every step succeed. *)
Lemma fold_each_total {A S} (f : S → A → result S) (I : list A → S → Prop) l s : I [] s →
  (∀ pre x post s1, l = pre ++ x :: post → I pre s1 → ∃ s2, f s1 x = Ok s2 ∧ I (pre ++ [x]) s2) →
  ∃ r, fold_each f l s = Ok r ∧ I l r.
Proof.
  intros HI Hstep. assert (∀ post pre s1, l = pre ++ post → I pre s1 → ∃ r, fold_each f post s1 = Ok r ∧ I l r) as H; [|by apply (H l [])].
  induction post as [|x post IH]; intros pre s1 Hl H1; [exists s1; split; [done|]; by rewrite Hl, app_nil_r|].
  destruct (Hstep pre x post s1 Hl H1) as (s2 & Hs & H2). destruct (IH (pre ++ [x]) s2) as (r & Hr & HIr); [by rewrite <- app_assoc|done|].
  exists r. split; [|done]. cbn. by rewrite Hs.
Qed.

Lemma Forall2_snoc {A B} (R : A → B → Prop) l k x y : Forall2 R l k → R x y → Forall2 R (l ++ [x]) (k ++ [y]).
Proof. intros Hl Hx. apply Forall2_app; [done|]. constructor; [done|constructor]. Qed.

Lemma take_chars_all P n s : all_chars P s = true → all_chars P (take_chars n s) = true.
Proof.
  revert n. induction s as [|c s IH]; intros [|n]; cbn; try done. intros [Hc Hs]%andb_true_iff. by rewrite Hc, IH.
Qed.

Section build.
Context `{CatalogDecoder} (canonical_value : string → result string).

Definition in_bucket (b : string) (e : CatalogEntry) : Prop := CatalogMerkleBucket e = Ok b.

#[local] Instance in_bucket_dec b e : Decision (in_bucket b e).
Proof. unfold in_bucket. apply _. Defined.

Definition bucket_of (b : string) (entries : list CatalogEntry) : list CatalogEntry := filter (in_bucket b) entries.

Lemma bucket_of_snoc b entries e b' : CatalogMerkleBucket e = Ok b' →
  bucket_of b (entries ++ [e]) = bucket_of b entries ++ (if decide (b = b') then [e] else []).
Proof.
  intros Hb. unfold bucket_of. rewrite filter_app. cbn. unfold in_bucket. f_equal.
  destruct (decide (b = b')) as [->|Hne]; [by rewrite decide_True|]. rewrite decide_False; [done|congruence].
Qed.

Lemma buckets_Ok entries buckets : fold_each bucket_entry entries ∅ = Ok buckets →
  (∀ e, e ∈ entries → ∃ b, CatalogMerkleBucket e = Ok b) ∧ ∀ b, default [] (buckets !! b) = bucket_of b entries.
Proof.
  intros Hf. apply (fold_each_invariant bucket_entry
    (λ pre m, (∀ e, e ∈ pre → ∃ b, CatalogMerkleBucket e = Ok b) ∧ ∀ b, default [] (m !! b) = bucket_of b pre) entries ∅);
    [|clear|exact Hf].
  { split; [by intros ? ?%elem_of_nil|]. intros b. by rewrite lookup_empty. }
  intros pre e m m' [Hall Hm] _ Hb. unfold bucket_entry in Hb. apply bind_Ok in Hb as (b' & Hb & [= <-]). split.
  - intros x [Hx| ->%list_elem_of_singleton]%elem_of_app; [by apply Hall|eauto].
  - intros b. rewrite (bucket_of_snoc b pre e b' Hb), <- Hm. destruct (decide (b = b')) as [->|Hne].
    + by rewrite lookup_insert_eq, Hm.
    + rewrite lookup_insert_ne by done. by rewrite app_nil_r.
Qed.

Lemma buckets_exist entries : (∀ e, e ∈ entries → ∃ b, CatalogMerkleBucket e = Ok b) →
  ∃ buckets, fold_each bucket_entry entries ∅ = Ok buckets.
Proof.
  generalize (∅ : gmap string (list CatalogEntry)). induction entries as [|e entries IH]; intros m Hall; [eauto|].
  destruct (Hall e (list_elem_of_here _ _)) as [b Hb]. cbn [fold_each].
  assert (bucket_entry m e = Ok (<[b := default [] (m !! b) ++ [e]]> m)) as ->; [unfold bucket_entry; by rewrite Hb|].
  cbn [mbind result_bind]. apply IH. intros x Hx. apply Hall. by right.
Qed.

(** ** Order independence *)

Lemma build_permutation repo entries entries' r : entries ≡ₚ entries' →
  BuildCatalogMerkle canonical_value repo entries = Ok r → BuildCatalogMerkle canonical_value repo entries' = Ok r.
Proof.
  intros Hp Hb. unfold BuildCatalogMerkle in *. apply bind_Ok in Hb as ([] & Hr & Hb). rewrite Hr. cbn [mbind result_bind].
  apply bind_Ok in Hb as (buckets & Hbk & Hb). apply bind_Ok in Hb as (st & Hst & Hb).
  destruct (buckets_Ok _ _ Hbk) as [Hall Hm].
  destruct (buckets_exist entries') as [buckets' Hbk']; [intros e He; apply Hall; by rewrite Hp|].
  destruct (buckets_Ok _ _ Hbk') as [_ Hm']. rewrite Hbk'. cbn [mbind result_bind].
  assert (Hleaf : ∀ prefix n, NewCatalogMerkleLeaf canonical_value repo prefix (default [] (buckets !! prefix)) = Ok n →
    NewCatalogMerkleLeaf canonical_value repo prefix (default [] (buckets' !! prefix)) = Ok n).
  { intros prefix n. rewrite Hm, Hm'. apply NewLeaf_permutation. unfold bucket_of. by rewrite Hp. }
  assert (fold_each (build_branch canonical_value repo buckets') hex_chars (∅, []) = Ok st) as ->; [|done].
  revert Hst. apply fold_each_mono. intros s high r1 _ Hbr. unfold build_branch in *. apply bind_Ok in Hbr as (leaves & Hl & Hbr).
  assert (fold_each (build_leaf canonical_value repo (String high "") buckets') hex_chars (s.1, []) = Ok leaves) as ->; [|done].
  revert Hl. apply fold_each_mono. intros s2 low r2 _ Hlf. unfold build_leaf in *. apply bind_Ok in Hlf as (leaf & Hn & Hlf).
  rewrite (Hleaf _ _ Hn). done.
Qed.

(** ** Contents *)

Definition children_count (children : list CatalogMerkleChild) : Z := foldr Z.add 0%Z (cc_Count <$> children).

Lemma children_count_app a b : children_count (a ++ b) = (children_count a + children_count b)%Z.
Proof. unfold children_count. induction a as [|c a IH]; cbn; [done|]. unfold children_count in IH. lia. Qed.

Lemma NewBranch_Ok repo prefix children n : NewCatalogMerkleBranch canonical_value repo prefix children = Ok n →
  nd_Count n = children_count children ∧ nd_Prefix n = prefix ∧ nd_Children n = Some children ∧
  (nd_Count n ≤ max_int64)%Z.
Proof.
  unfold NewCatalogMerkleBranch. intros Hn. apply bind_Ok in Hn as ([] & _ & Hn). apply bind_Ok in Hn as (count & Hc & Hn).
  apply bind_Ok in Hn as (c & _ & Hn). injection Hn as <-. cbn.
  assert (Hgen : ∀ l s r, (s ≤ max_int64)%Z → fold_each add_child_count l s = Ok r → r = (s + children_count l)%Z ∧ (r ≤ max_int64)%Z).
  { induction l as [|x l IH]; intros s r Hs Hf; [injection Hf as <-; cbn; lia|]. cbn in Hf. apply bind_Ok in Hf as (s1 & H1 & Hf).
    unfold add_child_count in H1. apply bind_Ok in H1 as ([] & Hg%reject_if_Ok & [= <-]).
    apply orb_false_iff in Hg as [_ Hg%Z.ltb_ge]. apply IH in Hf as [-> Hle]; [|lia]. unfold children_count. cbn. unfold children_count in Hle. lia. }
  destruct (Hgen children 0%Z count) as [-> Hle]; [done|done|]. done.
Qed.

(** What a child of a branch says of its node. *)
Definition describes (n : CatalogMerkleNode) (c : CatalogMerkleChild) : Prop :=
  CatalogMerkleHash canonical_value n = Ok (cc_Hash c) ∧ cc_Prefix c = nd_Prefix n ∧ cc_Count c = nd_Count n.

(** The map of nodes holds the recorded nodes, each under its hash. *)
Definition holds (recorded : list CatalogMerkleNode) (nodes : gmap string CatalogMerkleNode) : Prop :=
  (∀ h n, nodes !! h = Some n → n ∈ recorded ∧ CatalogMerkleHash canonical_value n = Ok h) ∧
  (∀ n, n ∈ recorded → ∃ h, CatalogMerkleHash canonical_value n = Ok h ∧ is_Some (nodes !! h)).

Lemma holds_insert recorded nodes n h : holds recorded nodes → CatalogMerkleHash canonical_value n = Ok h →
  holds (recorded ++ [n]) (<[h := n]> nodes).
Proof.
  intros [H1 H2] Hh. split.
  - intros h' n' [[<- <-]|[_ Hn]]%lookup_insert_Some; [split; [set_solver|done]|].
    apply H1 in Hn as [? ?]. split; [set_solver|done].
  - intros n' [Hn| ->%list_elem_of_singleton]%elem_of_app.
    + destruct (H2 _ Hn) as (h' & ? & ?). exists h'. split; [done|]. apply lookup_insert_is_Some'. by right.
    + exists h. split; [done|]. rewrite lookup_insert_eq. eauto.
Qed.

Lemma record_node_Ok recorded st n st' : holds recorded st.1 → record_node canonical_value st n = Ok st' →
  holds (recorded ++ [n]) st'.1 ∧ ∃ c, describes n c ∧ st'.2 = st.2 ++ [c].
Proof.
  intros Hh Hr. unfold record_node in Hr. apply bind_Ok in Hr as (h & Hn & Hr). injection Hr as <-.
  split; [by apply holds_insert|]. by exists (MkChild (nd_Prefix n) h (nd_Count n)).
Qed.

(** The leaf of a bucket. *)
Definition leaf_node (repo b : string) (entries : list CatalogEntry) : CatalogMerkleNode :=
  MkNode CatalogMerkleVersion CatalogMerkleScope repo b (Z.of_nat (length (bucket_of b entries))) (Some [])
    (Some (sort_slice leaf_less (bucket_of b entries))).

Definition leaves_of (repo prefix : string) (entries : list CatalogEntry) (lows : list ascii) : list CatalogMerkleNode :=
  (λ low, leaf_node repo (prefix +:+ String low "") entries) <$> lows.

Lemma build_leaves_Ok repo prefix entries buckets recorded nodes lows st :
  (∀ b, default [] (buckets !! b) = bucket_of b entries) → holds recorded nodes →
  fold_each (build_leaf canonical_value repo prefix buckets) lows (nodes, []) = Ok st →
  holds (recorded ++ leaves_of repo prefix entries lows) st.1 ∧ Forall2 describes (leaves_of repo prefix entries lows) st.2.
Proof.
  intros Hb Hh Hf. apply (fold_each_invariant (build_leaf canonical_value repo prefix buckets) (λ pre st,
    holds (recorded ++ leaves_of repo prefix entries pre) st.1 ∧ Forall2 describes (leaves_of repo prefix entries pre) st.2)
    lows (nodes, [])); [|clear Hf st|exact Hf].
  { cbn. rewrite app_nil_r. split; [done|constructor]. }
  intros pre low st st' [H1 H2] _ Hl. unfold build_leaf in Hl. apply bind_Ok in Hl as (leaf & Hn & Hl).
  rewrite Hb in Hn. apply NewLeaf_Ok in Hn as (_ & _ & _ & ->).
  destruct (record_node_Ok _ _ _ _ H1 Hl) as (H3 & c & Hc & ->).
  unfold leaves_of in *. rewrite fmap_app, app_assoc. split; [exact H3|]. by apply Forall2_snoc.
Qed.

(** A branch over its children. *)
Definition branch_node (repo prefix : string) (children : list CatalogMerkleChild) : CatalogMerkleNode :=
  MkNode CatalogMerkleVersion CatalogMerkleScope repo prefix (children_count children) (Some children) (Some []).

Lemma NewBranch_node repo prefix children n : NewCatalogMerkleBranch canonical_value repo prefix children = Ok n →
  n = branch_node repo prefix children.
Proof.
  intros Hn. pose proof (NewBranch_Ok _ _ _ _ Hn) as (Hc & _). revert Hn Hc. unfold NewCatalogMerkleBranch. intros Hn Hc.
  apply bind_Ok in Hn as ([] & _ & Hn). apply bind_Ok in Hn as (count & _ & Hn). apply bind_Ok in Hn as (c & _ & Hn).
  injection Hn as <-. cbn in Hc. subst count. done.
Qed.

(** The branch of a digit, and the nodes below it. *)
Definition is_branch (repo : string) (entries : list CatalogEntry) (high : ascii) (b : CatalogMerkleNode) : Prop :=
  ∃ children, b = branch_node repo (String high "") children ∧
    Forall2 describes (leaves_of repo (String high "") entries hex_chars) children.

Definition below (repo : string) (entries : list CatalogEntry) (p : ascii * CatalogMerkleNode) : list CatalogMerkleNode :=
  leaves_of repo (String p.1 "") entries hex_chars ++ [p.2].

Lemma build_branches_Ok repo entries buckets highs st : (∀ b, default [] (buckets !! b) = bucket_of b entries) →
  fold_each (build_branch canonical_value repo buckets) highs (∅, []) = Ok st →
  ∃ branches, Forall2 (is_branch repo entries) highs branches ∧
    holds (zip highs branches ≫= below repo entries) st.1 ∧ Forall2 describes branches st.2.
Proof.
  intros Hb Hf. apply (fold_each_invariant (build_branch canonical_value repo buckets) (λ pre st, ∃ branches,
    Forall2 (is_branch repo entries) pre branches ∧ holds (zip pre branches ≫= below repo entries) st.1 ∧
    Forall2 describes branches st.2) highs (∅, [])); [|clear Hf st|exact Hf].
  { exists []. split_and!; [constructor| |constructor]. split; [intros ? ? Hn; cbn in Hn; by rewrite lookup_empty in Hn|by intros ? ?%elem_of_nil]. }
  intros pre high st st' (branches & H1 & H2 & H3) _ Hl. unfold build_branch in Hl. apply bind_Ok in Hl as (leaves & Hlv & Hl).
  apply bind_Ok in Hl as (b & Hbr%NewBranch_node & Hl).
  destruct (build_leaves_Ok _ _ _ _ _ _ _ _ Hb H2 Hlv) as [H4 H5].
  destruct (record_node_Ok _ (leaves.1, st.2) _ _ H4 Hl) as (H6 & c & Hc & ->). exists (branches ++ [b]). split_and!.
  - apply Forall2_snoc; [done|]. by exists leaves.2.
  - rewrite zip_with_app by (by eapply Forall2_length). cbn [zip_with]. rewrite bind_app. cbn [mbind list_bind].
    rewrite app_nil_r. unfold below at 2. cbn [fst snd]. by rewrite app_assoc.
  - by apply Forall2_snoc.
Qed.

(** *** Every entry is in one of the 256 buckets *)

Definition all_buckets : list string := hex_chars ≫= λ high, (λ low, String high (String low "")) <$> hex_chars.

Lemma lower_hex_chars c : is_lower_hex c = true → c ∈ hex_chars.
Proof.
  intros Hc. assert (implb (is_lower_hex c) (bool_decide (c ∈ hex_chars)) = true) as H'.
  { clear Hc. by destruct c as [[] [] [] [] [] [] [] []]; vm_compute. }
  rewrite Hc in H'. by apply bool_decide_eq_true in H'.
Qed.

Lemma all_buckets_NoDup : NoDup all_buckets.
Proof. compute_decision. Qed.

Lemma bucket_in e b : CatalogMerkleBucket e = Ok b → b ∈ all_buckets.
Proof.
  unfold CatalogMerkleBucket. intros Hb. apply bind_Ok in Hb as (key & _ & Hb). revert Hb.
  unfold HashContent. generalize (catalogMerkleKeyDomain +:+ canonical_names [en_Kind e; key]). intros data Hb.
  pose proof (Sha256.hex_digest_length data) as Hlen. pose proof (Sha256.hex_digest_lower data) as Hlow.
  revert Hb Hlen Hlow. generalize (Sha256.hex_digest data). intros d Hb. destruct d as [|c [|c' d]]; try discriminate.
  intros _ Hlow. cbn in Hlow. apply andb_true_iff in Hlow as [H1 [H2 _]%andb_true_iff].
  assert (b = String c (String c' "")) as -> by (cbn in Hb; congruence).
  apply list_elem_of_bind. exists c. split; [|by apply lower_hex_chars].
  apply (list_elem_of_fmap_2 (λ low, String c (String low ""))). by apply lower_hex_chars.
Qed.

(** The sizes of the buckets add up. *)
Lemma indicator_sum (b : string) bs : NoDup bs → b ∈ bs → sum_list_with (λ b', if decide (b' = b) then 1 else 0) bs = 1.
Proof.
  induction bs as [|x bs IH]; [by intros _ ?%elem_of_nil|]. intros [Hx Hnd]%NoDup_cons [<-|Hb]%elem_of_cons; cbn.
  - rewrite decide_True by done. f_equal. clear -Hx. induction bs as [|y bs IH]; [done|].
    apply not_elem_of_cons in Hx as [Hy Hx]. cbn. rewrite decide_False by done. by apply IH.
  - rewrite decide_False by (by intros ->). by apply IH.
Qed.

Lemma buckets_total entries bs : NoDup bs → (∀ e, e ∈ entries → ∃ b, CatalogMerkleBucket e = Ok b ∧ b ∈ bs) →
  sum_list_with (λ b, length (bucket_of b entries)) bs = length entries.
Proof.
  intros Hnd Hall. induction entries as [|e entries IH] using rev_ind.
  { clear. induction bs as [|b bs IH]; [done|]. cbn. exact IH. }
  destruct (Hall e) as (b & Hb & Hin); [set_solver|]. rewrite length_app, <- IH; [|intros x Hx; apply Hall; set_solver].
  cbn [length]. rewrite <- (indicator_sum b bs Hnd Hin). clear - Hb. induction bs as [|b' bs IH]; [done|]. cbn. rewrite IH.
  rewrite (bucket_of_snoc b' entries e b Hb), length_app. destruct (decide (b' = b)); cbn; lia.
Qed.

(** *** The whole tree *)

Lemma describes_count ns cs : Forall2 describes ns cs → children_count cs = foldr Z.add 0%Z (nd_Count <$> ns).
Proof. unfold children_count. induction 1 as [|n c ns cs (_ & _ & Hc) _ IH]; [done|]. cbn in *. by rewrite Hc, IH. Qed.

Lemma leaves_count repo prefix entries lows : foldr Z.add 0%Z (nd_Count <$> leaves_of repo prefix entries lows) =
  Z.of_nat (sum_list_with (λ b, length (bucket_of b entries)) ((λ low, prefix +:+ String low "") <$> lows)).
Proof.
  unfold leaves_of. induction lows as [|low lows IH]; [done|]. cbn [fmap list_fmap foldr sum_list_with]. rewrite IH.
  cbn [nd_Count leaf_node]. unfold leaf_node. cbn [nd_Count]. lia.
Qed.

Lemma branches_count repo entries highs branches : Forall2 (is_branch repo entries) highs branches →
  foldr Z.add 0%Z (nd_Count <$> branches) =
  Z.of_nat (sum_list_with (λ b, length (bucket_of b entries))
    (highs ≫= λ high, (λ low, String high (String low "")) <$> hex_chars)).
Proof.
  induction 1 as [|high b highs branches (children & -> & Hd) _ IH]; [done|]. cbn [fmap list_fmap foldr].
  change ((high :: highs) ≫= ?f) with (f high ++ (highs ≫= f)). rewrite sum_list_with_app, IH.
  unfold branch_node at 1. cbn [nd_Count]. rewrite (describes_count _ _ Hd), leaves_count, Nat2Z.inj_add. done.
Qed.

Lemma recorded_prefixes repo entries highs branches : Forall2 (is_branch repo entries) highs branches →
  nd_Prefix <$> (zip highs branches ≫= below repo entries) =
  highs ≫= λ high, ((λ low, String high (String low "")) <$> hex_chars) ++ [String high ""].
Proof.
  induction 1 as [|high b highs branches (children & -> & Hd) _ IH]; [done|]. cbn [zip_with].
  change ((?x :: ?l) ≫= ?f) with (f x ++ (l ≫= f)). rewrite fmap_app, IH. f_equal.
Qed.

Lemma build_Ok repo entries root nodes : BuildCatalogMerkle canonical_value repo entries = Ok (root, nodes) →
  (∀ e, e ∈ entries → ∃ b, CatalogMerkleBucket e = Ok b) ∧
  ∃ branches roots, Forall2 (is_branch repo entries) hex_chars branches ∧ Forall2 describes branches roots ∧
    root = branch_node repo "" roots ∧ holds ((zip hex_chars branches ≫= below repo entries) ++ [root]) nodes.
Proof.
  unfold BuildCatalogMerkle. intros Hb. apply bind_Ok in Hb as ([] & _ & Hb). apply bind_Ok in Hb as (buckets & Hbk & Hb).
  apply bind_Ok in Hb as (st & Hst & Hb). apply bind_Ok in Hb as (r & Hr%NewBranch_node & Hb).
  apply bind_Ok in Hb as (h & Hh & Hb). destruct (buckets_Ok _ _ Hbk) as [Hall Hm]. split; [done|].
  assert (r = root ∧ <[h := r]> st.1 = nodes) as [-> <-] by (split; congruence).
  destruct (build_branches_Ok _ _ _ _ _ Hm Hst) as (branches & H1 & H2 & H3).
  exists branches, st.2. split_and!; [done..|]. by apply holds_insert.
Qed.

(** Reading the tree: the child of a digit, and the leaf of a bucket through its branch. *)
Definition find_child (n : CatalogMerkleNode) (prefix : string) : option CatalogMerkleChild :=
  head (filter (λ c, cc_Prefix c = prefix) (elems (nd_Children n))).

Definition find_leaf (nodes : gmap string CatalogMerkleNode) (root : CatalogMerkleNode) (b : string) : option CatalogMerkleNode :=
  high ← find_child root (take_chars 1 b); branch ← nodes !! cc_Hash high; low ← find_child branch b; nodes !! cc_Hash low.

(** Two nodes of different places with one hash. *)
Definition node_collision : Prop := ∃ n n' h, nd_Prefix n ≠ nd_Prefix n' ∧
  CatalogMerkleHash canonical_value n = Ok h ∧ CatalogMerkleHash canonical_value n' = Ok h.

Lemma find_child_describes ns m cs n : Forall2 describes ns cs → NoDup (nd_Prefix <$> ns) → n ∈ ns →
  nd_Children m = Some cs → ∃ c, find_child m (nd_Prefix n) = Some c ∧ describes n c.
Proof.
  unfold find_child. intros Hd Hnd Hin ->. change (elems (Some cs)) with cs. revert Hnd Hin.
  induction Hd as [|n' c ns cs Hc _ IH]; [by intros _ ?%elem_of_nil|].
  cbn [fmap list_fmap]. intros [Hx Hnd]%NoDup_cons Hin. rewrite filter_cons. destruct Hc as (Hh & Hp & Hn).
  apply elem_of_cons in Hin as [->|Hin]; [rewrite decide_True by done; by exists c|].
  rewrite decide_False; [by apply IH|]. rewrite Hp. intros Heq. apply Hx. rewrite Heq. by apply list_elem_of_fmap_2.
Qed.

(** What is stored under a child's hash, collisions apart. *)
Lemma stored_node recorded nodes n c : holds recorded nodes → NoDup (nd_Prefix <$> recorded) → n ∈ recorded → describes n c →
  node_collision ∨ nodes !! cc_Hash c = Some n.
Proof.
  intros [H1 H2] Hnd Hn (Hh & _). destruct (H2 n Hn) as (h & Hh' & [n' Hn']). assert (h = cc_Hash c) as -> by congruence.
  destruct (H1 _ _ Hn') as [Hin Hn2]. destruct (decide (nd_Prefix n = nd_Prefix n')) as [Heq|Hne].
  - right. rewrite Hn'. f_equal. symmetry. by eapply (NoDup_fmap_inj_on nd_Prefix).
  - left. by exists n, n', (cc_Hash c).
Qed.

Lemma tree_prefixes repo entries branches root : Forall2 (is_branch repo entries) hex_chars branches → nd_Prefix root = "" →
  NoDup (nd_Prefix <$> (zip hex_chars branches ≫= below repo entries) ++ [root]).
Proof.
  intros Hb Hr. rewrite fmap_app, (recorded_prefixes _ _ _ _ Hb). cbn [fmap list_fmap]. rewrite Hr. compute_decision.
Qed.

Lemma branch_prefixes repo entries highs branches : Forall2 (is_branch repo entries) highs branches →
  nd_Prefix <$> branches = (λ high, String high "") <$> highs.
Proof. induction 1 as [|high b highs branches (children & -> & _) _ IH]; [done|]. cbn in *. by rewrite IH. Qed.

Lemma find_leaf_Ok repo entries root nodes b : BuildCatalogMerkle canonical_value repo entries = Ok (root, nodes) →
  b ∈ all_buckets → node_collision ∨ find_leaf nodes root b = Some (leaf_node repo b entries).
Proof.
  intros (_ & branches & roots & Hbr & Hroots & -> & Hh)%build_Ok Hb.
  pose proof (tree_prefixes repo entries branches _ Hbr (eq_refl : nd_Prefix (branch_node repo "" roots) = "")) as Hnd.
  apply list_elem_of_bind in Hb as (high & Hb & Hhigh). apply list_elem_of_fmap in Hb as (low & -> & Hlow).
  apply list_elem_of_lookup in Hhigh as [i Hi]. destruct (Forall2_lookup_l _ _ _ _ _ Hbr Hi) as (br & Hbi & ch & Heq & Hch).
  assert (Hrec : below repo entries (high, br) ⊆ (zip hex_chars branches ≫= below repo entries) ++ [branch_node repo "" roots]).
  { intros n Hn. apply elem_of_app. left. apply list_elem_of_bind. exists (high, br). split; [done|].
    apply list_elem_of_lookup. exists i. by rewrite lookup_zip_with, Hi, Hbi. }
  destruct (find_child_describes branches (branch_node repo "" roots) roots br) as (c & Hc & Hdc); [done| | |done|].
  { rewrite (branch_prefixes _ _ _ _ Hbr). compute_decision. }
  { by eapply list_elem_of_lookup_2. }
  destruct (stored_node _ _ br c Hh Hnd) as [?|Hs1]; [apply Hrec, elem_of_app; right; apply list_elem_of_here|done|by left|].
  set (leaf := leaf_node repo (String high (String low "")) entries).
  assert (Hleaf : leaf ∈ leaves_of repo (String high "") entries hex_chars).
  { apply (list_elem_of_fmap_2 (λ low, leaf_node repo (String high "" +:+ String low "") entries)). done. }
  destruct (find_child_describes (leaves_of repo (String high "") entries hex_chars) br ch leaf) as (c' & Hc' & Hdc');
    [done| |done|by rewrite Heq|].
  { unfold leaves_of. rewrite <- list_fmap_compose.
    apply (NoDup_fmap_2_strong (λ low, String high (String low ""))); [congruence|compute_decision]. }
  destruct (stored_node _ _ leaf c' Hh Hnd) as [?|Hs2]; [apply Hrec, elem_of_app; by left|done|by left|].
  right. unfold find_leaf. rewrite Heq in Hc. change (take_chars 1 (String high (String low ""))) with (String high "").
  change (nd_Prefix (branch_node repo (String high "") ch)) with (String high "") in Hc. rewrite Hc. cbn [mbind option_bind].
  rewrite Hs1. cbn [mbind option_bind]. change (nd_Prefix leaf) with (String high (String low "")) in Hc'. rewrite Hc'. exact Hs2.
Qed.

(** The leaf that was built for a bucket. *)
Lemma built_leaf repo entries t b : BuildCatalogMerkle canonical_value repo entries = Ok t → b ∈ all_buckets →
  ∃ leaf, NewCatalogMerkleLeaf canonical_value repo b (bucket_of b entries) = Ok leaf.
Proof.
  unfold BuildCatalogMerkle. intros Hb Hin. apply bind_Ok in Hb as ([] & _ & Hb). apply bind_Ok in Hb as (buckets & Hbk & Hb).
  apply bind_Ok in Hb as (st & Hst & _). destruct (buckets_Ok _ _ Hbk) as [_ Hm].
  apply list_elem_of_bind in Hin as (high & Hin & Hhigh). apply list_elem_of_fmap in Hin as (low & -> & Hlow).
  destruct (fold_each_step _ _ _ _ _ Hst Hhigh) as (s1 & s2 & Hbr). unfold build_branch in Hbr.
  apply bind_Ok in Hbr as (leaves & Hlv & _). destruct (fold_each_step _ _ _ _ _ Hlv Hlow) as (s3 & s4 & Hlf).
  unfold build_leaf in Hlf. apply bind_Ok in Hlf as (leaf & Hn & _). rewrite Hm in Hn. by exists leaf.
Qed.

Lemma bucket_leaf repo entries t b : BuildCatalogMerkle canonical_value repo entries = Ok t →
  b ∈ all_buckets → Sorted leaf_lt (sort_slice leaf_less (bucket_of b entries)) ∧ Forall (leaf_entry repo b) (bucket_of b entries).
Proof. intros Hb Hin. destruct (built_leaf _ _ _ _ Hb Hin) as [leaf Hn]. by apply NewLeaf_Ok in Hn as (_ & Hall & Hs & _). Qed.

(** ** When a tree can be built *)

Definition has_value (e : CatalogEntry) : Prop := is_ok (canonical_value (en_Value e)) = true.

(** A valid repository, and entries that are live, valid, in some bucket, with values of their
    own normal form and distinct keys. *)
Record buildable (repo : string) (entries : list CatalogEntry) : Prop := {
  bd_repo : ValidateContentHash repo = Ok tt;
  bd_entries : Forall (λ e, en_Deleted e = false ∧ ValidateCatalogEntry repo e = Ok tt ∧
    is_ok (CatalogMerkleBucket e) = true ∧ has_value e) entries;
  bd_keys : NoDup (leaf_key <$> entries);
  bd_count : (Z.of_nat (length entries) ≤ max_int64)%Z }.

Lemma bucket_key e e' : leaf_key e = leaf_key e' → is_ok (CatalogMerkleBucket e) = true → is_ok (CatalogMerkleBucket e') = true →
  CatalogMerkleBucket e = CatalogMerkleBucket e'.
Proof.
  unfold leaf_key, CatalogMerkleBucket. intros [= -> Hk].
  destruct (catalogMerkleNormalizedKey e) as [k|]; [|done]. destruct (catalogMerkleNormalizedKey e') as [k'|]; [|done]. by subst.
Qed.

(** *** A tree that was built *)

Lemma canonical_entry_value repo prefix st e st' :
  canonical_entry canonical_value repo prefix st e = Ok st' → has_value e.
Proof.
  unfold canonical_entry. destruct st as [previous out]. intros Hc. do 5 (apply bind_Ok in Hc as (? & _ & Hc)).
  apply bind_Ok in Hc as (v & Hv%or_else_Ok & _). unfold has_value. by rewrite Hv.
Qed.

Lemma canonical_node_entries n n' : catalogMerkleCanonicalNode canonical_value n = Ok n' → String.length (nd_Prefix n) = 2 →
  ∃ out, catalogMerkleCanonicalEntries canonical_value (nd_RepoID n) (nd_Prefix n) (elems (nd_Entries n)) = Ok out.
Proof.
  unfold catalogMerkleCanonicalNode. intros Hn Hlen. apply bind_Ok in Hn as ([] & _ & Hn). rewrite Hlen in Hn.
  cbn [Nat.ltb Nat.leb] in Hn. apply bind_Ok in Hn as ([] & _ & Hn). apply bind_Ok in Hn as (out & Hn & _). by exists out.
Qed.

Lemma NewLeaf_values repo prefix l n : NewCatalogMerkleLeaf canonical_value repo prefix l = Ok n → Forall has_value l.
Proof.
  unfold NewCatalogMerkleLeaf. intros Hn. apply bind_Ok in Hn as ([] & Hp%reject_if_Ok%negb_false_iff%Nat.eqb_eq & Hn).
  apply bind_Ok in Hn as ([] & _ & Hn). apply bind_Ok in Hn as (c & Hc & _).
  apply canonical_node_entries in Hc as (out & Hc); [|done]. unfold catalogMerkleCanonicalEntries in Hc.
  apply bind_Ok in Hc as (st & Hf & _). apply Forall_forall. intros e He.
  destruct (fold_each_step _ _ e _ _ Hf) as (s1 & s2 & Hs); [by apply elem_of_sort_slice|]. by eapply canonical_entry_value.
Qed.

Lemma in_own_bucket e b entries : e ∈ entries → CatalogMerkleBucket e = Ok b → e ∈ bucket_of b entries.
Proof. intros He Hb. by apply list_elem_of_filter. Qed.

Lemma keys_NoDup entries : (∀ e, e ∈ entries → is_ok (CatalogMerkleBucket e) = true) →
  (∀ b, b ∈ all_buckets → NoDup (leaf_key <$> bucket_of b entries)) → NoDup (leaf_key <$> entries).
Proof.
  induction entries as [|e entries IH]; intros Hall Hb; [constructor|]. cbn.
  destruct (is_ok_true (CatalogMerkleBucket e)) as [Hok _]. destruct (Hok (Hall e (list_elem_of_here _ _))) as [b He]. constructor.
  - intros (e' & Hk & Hin)%list_elem_of_fmap. assert (CatalogMerkleBucket e' = Ok b) as He'.
    { rewrite <- He. symmetry. apply bucket_key; [done|apply Hall; left|apply Hall; by right]. }
    specialize (Hb b (bucket_in _ _ He)). unfold bucket_of in Hb. rewrite filter_cons, decide_True in Hb by done.
    cbn in Hb. apply NoDup_cons in Hb as [Hn _]. apply Hn. rewrite Hk. apply list_elem_of_fmap_2. by apply in_own_bucket.
  - apply IH; [intros x Hx; apply Hall; by right|]. intros b' Hb'. specialize (Hb b' Hb'). unfold bucket_of in *.
    rewrite filter_cons in Hb. case_decide; [|done]. cbn in Hb. by apply NoDup_cons in Hb as [_ ?].
Qed.

Lemma build_count repo entries root nodes : BuildCatalogMerkle canonical_value repo entries = Ok (root, nodes) →
  nd_Count root = Z.of_nat (length entries).
Proof.
  intros (Hall & branches & roots & Hbr & Hroots & -> & _)%build_Ok. unfold branch_node. cbn [nd_Count].
  rewrite (describes_count _ _ Hroots), (branches_count _ _ _ _ Hbr). f_equal.
  apply (buckets_total entries all_buckets all_buckets_NoDup). intros e He. destruct (Hall e He) as [b Hb].
  exists b. split; [done|]. by eapply bucket_in.
Qed.

Lemma build_bounded repo entries root nodes : BuildCatalogMerkle canonical_value repo entries = Ok (root, nodes) →
  ValidateContentHash repo = Ok tt ∧ (nd_Count root ≤ max_int64)%Z.
Proof.
  unfold BuildCatalogMerkle. intros Hb. apply bind_Ok in Hb as ([] & Hr%reject_if_Ok%negb_false_iff%is_ok_unit & Hb).
  apply bind_Ok in Hb as (buckets & _ & Hb). apply bind_Ok in Hb as (st & _ & Hb). apply bind_Ok in Hb as (r & Hn & Hb).
  apply bind_Ok in Hb as (h & _ & Hb). assert (r = root) as -> by congruence. split; [done|]. by apply NewBranch_Ok in Hn as (_ & _ & _ & ?).
Qed.

Lemma built_buildable repo entries t : BuildCatalogMerkle canonical_value repo entries = Ok t → buildable repo entries.
Proof.
  destruct t as [root nodes]. intros Hb. pose proof (build_bounded _ _ _ _ Hb) as [Hrepo Hmax].
  rewrite (build_count _ _ _ _ Hb) in Hmax. pose proof (proj1 (build_Ok _ _ _ _ Hb)) as Hall.
  assert (Hplace : ∀ e, e ∈ entries → ∃ b, CatalogMerkleBucket e = Ok b ∧ b ∈ all_buckets ∧ e ∈ bucket_of b entries).
  { intros e He. destruct (Hall e He) as [b Hb']. exists b. split_and!; [done|by eapply bucket_in|by apply in_own_bucket]. }
  split; [done| | |done].
  - apply Forall_forall. intros e He. destruct (Hplace e He) as (b & Hbk & Hbin & Hin).
    destruct (bucket_leaf _ _ _ _ Hb Hbin) as [_ Hle]. rewrite Forall_forall in Hle. destruct (Hle e Hin) as [Hd Hv _].
    destruct (built_leaf _ _ _ _ Hb Hbin) as [leaf Hn%NewLeaf_values]. rewrite Forall_forall in Hn. split_and!; [done|done|by rewrite Hbk|by apply Hn].
  - apply keys_NoDup; [intros e He; destruct (Hall e He) as [b ->]; done|]. intros b Hbin.
    destruct (bucket_leaf _ _ _ _ Hb Hbin) as [Hs%leaf_NoDup _]. by rewrite sort_slice_Permutation in Hs.
Qed.

(** *** Entries a tree can be built of *)

Lemma hash_valid n h : CatalogMerkleHash canonical_value n = Ok h → ValidateContentHash h = Ok tt.
Proof. unfold CatalogMerkleHash. intros Hh. apply bind_Ok in Hh as (m & _ & [= <-]). apply ValidateContentHash_Ok, HashContent_is_content_hash. Qed.

Lemma canonical_hash n n' : catalogMerkleCanonicalNode canonical_value n = Ok n' → ∃ h, CatalogMerkleHash canonical_value n = Ok h.
Proof. intros Hn. unfold CatalogMerkleHash. rewrite Hn. eexists. reflexivity. Qed.

Lemma canonical_entries_total repo prefix l : Forall (leaf_entry repo prefix) l → Forall has_value l → Sorted leaf_lt l →
  ∃ out, catalogMerkleCanonicalEntries canonical_value repo prefix l = Ok out.
Proof.
  intros Hle Hv Hs. unfold catalogMerkleCanonicalEntries.
  destruct (fold_each_total (canonical_entry canonical_value repo prefix) (λ pre st, st.1 = leaf_key <$> last pre) l (None, []))
    as (st & -> & _); [done| |by eexists].
  intros pre e post [previous out] Hl Hp. cbn in Hp. rewrite Forall_forall in Hle, Hv.
  assert (Hin : e ∈ l) by (rewrite Hl; set_solver). destruct (Hle e Hin) as [Hd Hval Hb]. destruct (proj1 (is_ok_true _) (Hv e Hin)) as [v Hcv].
  assert (Hk : ∃ key, catalogMerkleNormalizedKey e = Ok key) by (unfold CatalogMerkleBucket in Hb; apply bind_Ok in Hb as (k & ? & _); eauto).
  destruct Hk as [key Hk]. unfold canonical_entry. rewrite Hd, Hval, Hk, Hb, Hcv. cbn [is_ok negb orb reject_if mbind result_bind or_else].
  rewrite (bool_decide_true (prefix = prefix)) by done. cbn [negb reject_if mbind result_bind].
  assert (from_option (λ p, negb (str_lt p.1 (en_Kind e) || ((p.1 =? en_Kind e) && str_lt p.2 key))) false previous = false) as ->.
  { rewrite Hp. destruct (last pre) as [q|] eqn:Hq; [|done]. cbn. apply negb_false_iff. apply last_Some in Hq as [pre' ->].
    rewrite Hl, <- app_assoc in Hs. apply Sorted_suffix in Hs. cbn in Hs. apply Sorted_inv in Hs as [_ Hs%HdRel_inv].
    unfold leaf_lt, key_lt, pair_lt, leaf_key in Hs. rewrite Hk in Hs. exact Hs. }
  cbn [reject_if mbind result_bind]. eexists. split; [reflexivity|]. cbn. rewrite last_snoc. unfold leaf_key. cbn. by rewrite Hk.
Qed.

Lemma leaf_total repo b l : String.length b = 2 → catalogMerklePrefixValid b = true → ValidateContentHash repo = Ok tt →
  Forall (leaf_entry repo b) l → Forall has_value l → NoDup (leaf_key <$> l) →
  ∃ n h, NewCatalogMerkleLeaf canonical_value repo b l = Ok n ∧ CatalogMerkleHash canonical_value n = Ok h.
Proof.
  intros Hlen Hp Hr Hle Hv Hnd.
  destruct (canonical_entries_total repo b (sort_slice leaf_less l)) as [out Hout]; [by rewrite sort_slice_Permutation..|by apply leaf_sorted|].
  set (n := MkNode CatalogMerkleVersion CatalogMerkleScope repo b (Z.of_nat (length l)) (Some []) (Some (sort_slice leaf_less l))).
  assert (Hc : catalogMerkleCanonicalNode canonical_value n = Ok (with_entries n out)).
  { unfold catalogMerkleCanonicalNode, n. cbn [nd_Version nd_Scope nd_RepoID nd_Prefix nd_Count nd_Children nd_Entries elems].
    change (elems (Some (sort_slice leaf_less l))) with (sort_slice leaf_less l). rewrite Hr, Hp, Hlen, Hout, (Permutation_length (sort_slice_Permutation leaf_less l)), Z.eqb_refl.
    rewrite (proj2 (Z.ltb_ge (Z.of_nat (length l)) 0)) by lia. reflexivity. }
  destruct (canonical_hash _ _ Hc) as [h Hh]. exists n, h. split; [|exact Hh]. unfold NewCatalogMerkleLeaf. rewrite Hlen.
  cbn [Nat.eqb negb reject_if mbind result_bind]. fold n. rewrite Hc. apply bind_Ok. exists tt. split; [|reflexivity].
  apply for_each_Ok. eapply Forall_impl; [exact Hle|]. intros e [_ _ Hb]. unfold CatalogMerkleBucket in Hb.
  by apply bind_Ok in Hb as (k & -> & _).
Qed.

(** Children that a branch accepts, but for the sum of their counts. *)
Definition child_ok (prefix : string) (digit : ascii) (c : CatalogMerkleChild) : Prop :=
  cc_Prefix c = prefix +:+ String digit "" ∧ ValidateContentHash (cc_Hash c) = Ok tt ∧ (0 ≤ cc_Count c)%Z.

Lemma children_count_cons c cs : children_count (c :: cs) = (cc_Count c + children_count cs)%Z.
Proof. reflexivity. Qed.

Lemma children_nonneg prefix digits cs : Forall2 (child_ok prefix) digits cs → (0 ≤ children_count cs)%Z.
Proof. induction 1 as [|d c digits cs (_ & _ & Hc) _ IH]; [done|]. rewrite children_count_cons. lia. Qed.

Lemma children_folds prefix digits cs s : Forall2 (child_ok prefix) digits cs → (s + children_count cs ≤ max_int64)%Z →
  fold_each add_child_count cs s = Ok (s + children_count cs)%Z ∧
  fold_each (check_child prefix) (zip digits cs) s = Ok (s + children_count cs)%Z.
Proof.
  intros Hcs. revert s. induction Hcs as [|d c digits cs (Hp & Hh & Hc) Hcs IH]; intros s Hs.
  { cbn. unfold children_count. cbn. by rewrite Z.add_0_r. }
  rewrite children_count_cons in Hs. pose proof (children_nonneg _ _ _ Hcs) as Hn. rewrite children_count_cons.
  assert (Ha : add_child_count s c = Ok (s + cc_Count c)%Z).
  { unfold add_child_count. by rewrite (proj2 (Z.ltb_ge (cc_Count c) 0)), (proj2 (Z.ltb_ge (max_int64 - s) (cc_Count c))) by lia. }
  assert (Hb : check_child prefix s (d, c) = Ok (s + cc_Count c)%Z).
  { unfold check_child. rewrite Hp, Hh, bool_decide_true by done.
    by rewrite (proj2 (Z.ltb_ge (cc_Count c) 0)), (proj2 (Z.ltb_ge (max_int64 - s) (cc_Count c))) by lia. }
  cbn [zip_with fold_each]. rewrite Ha, Hb. cbn [mbind result_bind].
  rewrite Z.add_assoc. apply IH. lia.
Qed.

Lemma branch_total repo prefix cs : String.length prefix < 2 → catalogMerklePrefixValid prefix = true →
  ValidateContentHash repo = Ok tt → Forall2 (child_ok prefix) hex_chars cs → (children_count cs ≤ max_int64)%Z →
  ∃ n h, NewCatalogMerkleBranch canonical_value repo prefix cs = Ok n ∧ CatalogMerkleHash canonical_value n = Ok h.
Proof.
  intros Hlen Hp Hr Hcs Hmax. pose proof (children_nonneg _ _ _ Hcs) as Hn.
  destruct (children_folds _ _ _ 0 Hcs) as [H1 H2]; [lia|]. rewrite Z.add_0_l in H1, H2.
  assert (Hl : length cs = 16) by (by rewrite <- (Forall2_length _ _ _ Hcs)).
  assert (Hc : catalogMerkleCanonicalNode canonical_value (branch_node repo prefix cs) = Ok (branch_node repo prefix cs)).
  { unfold catalogMerkleCanonicalNode, branch_node. cbn [nd_Version nd_Scope nd_RepoID nd_Prefix nd_Count nd_Children nd_Entries elems].
    change (elems (Some cs)) with cs. rewrite Hr, Hp, Hl, H2, (proj2 (Z.ltb_ge (children_count cs) 0)) by lia.
    rewrite (proj2 (Nat.ltb_lt _ _) Hlen). cbn [mbind result_bind]. rewrite Z.eqb_refl. reflexivity. }
  destruct (canonical_hash _ _ Hc) as [h Hh]. exists (branch_node repo prefix cs), h. split; [|exact Hh].
  unfold NewCatalogMerkleBranch. rewrite (proj2 (Nat.ltb_ge 1 (String.length prefix))) by lia.
  cbn [reject_if mbind result_bind]. rewrite H1. cbn [mbind result_bind]. fold (branch_node repo prefix cs). by rewrite Hc.
Qed.

Lemma buckets_at_most entries bs : NoDup bs → (∀ e, e ∈ entries → ∃ b, CatalogMerkleBucket e = Ok b) →
  sum_list_with (λ b, length (bucket_of b entries)) bs ≤ length entries.
Proof.
  intros Hnd Hall. induction entries as [|e entries IH] using rev_ind.
  { clear. induction bs as [|b bs IH]; [done|]. cbn. exact IH. }
  destruct (Hall e) as [b Hb]; [set_solver|]. rewrite length_app. cbn [length].
  enough (sum_list_with (λ b, length (bucket_of b (entries ++ [e]))) bs ≤
          sum_list_with (λ b, length (bucket_of b entries)) bs + (if decide (b ∈ bs) then 1 else 0)) as Hle.
  { assert (sum_list_with (λ b, length (bucket_of b entries)) bs ≤ length entries) by (apply IH; intros x Hx; apply Hall; set_solver).
    destruct (decide (b ∈ bs)); lia. }
  clear IH Hall. induction bs as [|b' bs IH]; [cbn; lia|]. apply NoDup_cons in Hnd as [Hx Hnd]. specialize (IH Hnd). cbn [sum_list_with].
  rewrite (bucket_of_snoc b' entries e b Hb), length_app. destruct (decide (b' = b)) as [->|Hne]; cbn [length].
  - rewrite decide_False in IH by done. rewrite decide_True by left. lia.
  - destruct (decide (b ∈ bs)); [rewrite decide_True by (by right); lia|]. rewrite decide_False; [lia|].
    intros [?|?]%elem_of_cons; [by subst|done].
Qed.

(** *** The tree of buildable entries *)

Section buildable.
Context (repo : string) (entries : list CatalogEntry) (Hbd : buildable repo entries).

Lemma buildable_bucket e : e ∈ entries → ∃ b, CatalogMerkleBucket e = Ok b.
Proof.
  intros He. destruct Hbd as [_ Hall _ _]. rewrite Forall_forall in Hall. destruct (Hall e He) as (_ & _ & Hb & _). by apply is_ok_true.
Qed.

Lemma buildable_leaf high low : high ∈ hex_chars → low ∈ hex_chars →
  let b := String high (String low "") in
  ∃ h, NewCatalogMerkleLeaf canonical_value repo b (bucket_of b entries) = Ok (leaf_node repo b entries) ∧
    CatalogMerkleHash canonical_value (leaf_node repo b entries) = Ok h.
Proof.
  intros Hh Hl b. destruct Hbd as [Hr Hall Hk _]. rewrite Forall_forall in Hall.
  destruct (leaf_total repo b (bucket_of b entries)) as (n & h & Hn & Hhash).
  - done.
  - clear - Hh Hl. assert (Hc : ∀ c, c ∈ hex_chars → in_cutset catalogMerkleHex c = true) by (apply Forall_forall; compute_decision).
    unfold b, catalogMerklePrefixValid. cbn [all_chars]. by rewrite !Hc.
  - done.
  - apply Forall_forall. intros e [Hb He]%list_elem_of_filter. destruct (Hall e He) as (? & ? & _). by split.
  - apply Forall_forall. intros e [_ He]%list_elem_of_filter. by apply Hall.
  - by apply NoDup_fmap_filter.
  - exists h. pose proof (NewLeaf_Ok _ _ _ _ _ Hn) as (_ & _ & _ & Heq). unfold leaf_node. rewrite Heq in Hn, Hhash. done.
Qed.

Lemma record_total st n h : CatalogMerkleHash canonical_value n = Ok h →
  ∃ st' c, record_node canonical_value st n = Ok st' ∧ describes n c ∧ st'.2 = st.2 ++ [c].
Proof.
  intros Hh. exists (<[h := n]> st.1, st.2 ++ [MkChild (nd_Prefix n) h (nd_Count n)]), (MkChild (nd_Prefix n) h (nd_Count n)).
  unfold record_node. by rewrite Hh.
Qed.

Lemma leaves_total buckets nodes high : (∀ b, default [] (buckets !! b) = bucket_of b entries) → high ∈ hex_chars →
  ∃ st, fold_each (build_leaf canonical_value repo (String high "") buckets) hex_chars (nodes, []) = Ok st ∧
    Forall2 describes (leaves_of repo (String high "") entries hex_chars) st.2.
Proof.
  intros Hm Hh. apply (fold_each_total (build_leaf canonical_value repo (String high "") buckets)
    (λ pre st, Forall2 describes (leaves_of repo (String high "") entries pre) st.2)); [constructor|].
  intros pre low post st Hl Hst. destruct (buildable_leaf high low Hh) as (h & Hn & Hhash); [rewrite Hl; set_solver|].
  destruct (record_total st _ _ Hhash) as (st' & c & Hr & Hd & Heq). exists st'. split.
  - unfold build_leaf. rewrite Hm. change (String high "" +:+ String low "") with (String high (String low "")). rewrite Hn. exact Hr.
  - rewrite Heq. unfold leaves_of. rewrite fmap_app. by apply Forall2_snoc.
Qed.

Lemma describes_child prefix digit n c : nd_Prefix n = prefix +:+ String digit "" → (0 ≤ nd_Count n)%Z → describes n c → child_ok prefix digit c.
Proof. intros Hp Hc (Hh & Hp' & Hc'). split_and!; [congruence|by eapply hash_valid|lia]. Qed.

Lemma leaves_children prefix digits cs : Forall2 describes (leaves_of repo prefix entries digits) cs → Forall2 (child_ok prefix) digits cs.
Proof.
  unfold leaves_of. rewrite Forall2_fmap_l. intros Hd. eapply Forall2_impl; [exact Hd|]. intros d c. apply describes_child; [done|]. unfold leaf_node. cbn [nd_Count]. lia.
Qed.

Lemma branch_buildable high cs : high ∈ hex_chars → Forall2 describes (leaves_of repo (String high "") entries hex_chars) cs →
  ∃ h, NewCatalogMerkleBranch canonical_value repo (String high "") cs = Ok (branch_node repo (String high "") cs) ∧
    CatalogMerkleHash canonical_value (branch_node repo (String high "") cs) = Ok h ∧
    (0 ≤ nd_Count (branch_node repo (String high "") cs))%Z.
Proof.
  intros Hh Hd. pose proof (leaves_children _ _ _ Hd) as Hcs. pose proof (children_nonneg _ _ _ Hcs) as Hn.
  destruct (branch_total repo (String high "") cs) as (n & h & Hnew & Hhash).
  - cbn. lia.
  - clear - Hh. assert (Hc : ∀ c, c ∈ hex_chars → catalogMerklePrefixValid (String c "") = true) by (apply Forall_forall; compute_decision).
    by apply Hc.
  - apply Hbd.
  - done.
  - rewrite (describes_count _ _ Hd), leaves_count. etransitivity; [|apply (bd_count _ _ Hbd)]. apply Nat2Z.inj_le.
    apply buckets_at_most; [|by apply buildable_bucket].
    apply (NoDup_fmap_2_strong (λ low, String high "" +:+ String low "")); [intros x y _ _ [=]; done|compute_decision].
  - exists h. pose proof (NewBranch_node _ _ _ _ Hnew) as ->. split_and!; [done..|]. unfold branch_node. cbn [nd_Count]. done.
Qed.
End buildable.

Lemma buildable_builds repo entries : buildable repo entries → ∃ t, BuildCatalogMerkle canonical_value repo entries = Ok t.
Proof.
  intros Hbd. pose proof (buildable_bucket _ _ Hbd) as Hall. unfold BuildCatalogMerkle. rewrite (bd_repo _ _ Hbd).
  cbn [is_ok negb reject_if mbind result_bind]. destruct (buckets_exist entries Hall) as [buckets Hbk]. rewrite Hbk.
  destruct (buckets_Ok _ _ Hbk) as [_ Hm]. cbn [mbind result_bind].
  destruct (fold_each_total (build_branch canonical_value repo buckets) (λ pre st, ∃ branches,
    Forall2 (is_branch repo entries) pre branches ∧ Forall2 describes branches st.2 ∧ Forall2 (child_ok "") pre st.2) hex_chars (∅, []))
    as (st & Hst & branches & Hbr & Hd & Hc).
  { exists []. split_and!; constructor. }
  { intros pre high post st Hl (branches & H1 & H2 & H3). assert (Hh : high ∈ hex_chars) by (rewrite Hl; set_solver).
    destruct (leaves_total _ _ Hbd buckets st.1 high Hm Hh) as (lv & Hlv & Hdl).
    destruct (branch_buildable _ _ Hbd high lv.2 Hh Hdl) as (h & Hn & Hhash & Hcount).
    destruct (record_total (lv.1, st.2) _ _ Hhash) as (st' & c & Hr & Hdc & Heq). exists st'. split.
    - unfold build_branch. rewrite Hlv. cbn [mbind result_bind]. rewrite Hn. exact Hr.
    - exists (branches ++ [branch_node repo (String high "") lv.2]). rewrite Heq. split_and!.
      + apply Forall2_snoc; [done|]. by exists lv.2.
      + by apply Forall2_snoc.
      + apply Forall2_snoc; [done|]. by apply (describes_child "" high (branch_node repo (String high "") lv.2) c). }
  destruct (branch_total repo "" st.2) as (root & h & Hn & Hhash); [cbn; lia|done|apply Hbd|done| |].
  { rewrite (describes_count _ _ Hd), (branches_count _ _ _ _ Hbr). etransitivity; [|apply (bd_count _ _ Hbd)].
    apply Nat2Z.inj_le. apply buckets_at_most; [exact all_buckets_NoDup|done]. }
  rewrite Hst. cbn [mbind result_bind]. rewrite Hn. cbn [mbind result_bind]. rewrite Hhash. eexists. reflexivity.
Qed.
End build.

(** ** Pages of a leaf *)

Section pages.
Context `{CatalogDecoder} (canonical_value : string → result string).

(** A client reading a leaf: each page is accepted, belongs to the same node, and the next
    one is asked for at the offset this one names. *)
Fixpoint leaf_pages (repo : string) (first : CatalogMerklePage) (offset : Z) (pages : list (CatalogMerkleRequest * CatalogMerklePage)) : Prop :=
  match pages with
  | [] => False
  | (r, p) :: rest =>
      MerklePage_Validate canonical_value repo r p = Ok tt ∧ mq_Offset r = offset ∧
      mp_Prefix p = mp_Prefix first ∧ mp_Count p = mp_Count first ∧
      match mp_NextOffset p with
      | Some next => leaf_pages repo first next rest
      | None => rest = []
      end
  end.

Definition pages_entries (pages : list (CatalogMerkleRequest * CatalogMerklePage)) : list CatalogEntry :=
  pages ≫= λ rp, elems (mp_Entries rp.2).

(** What an accepted page of a leaf says. *)
Record leaf_page (repo : string) (r : CatalogMerkleRequest) (p : CatalogMerklePage) : Prop := {
  lp_offset : mp_Offset p = mq_Offset r;
  lp_bounds : (0 ≤ mp_Offset p ∧ mp_Offset p + Z.of_nat (length (elems (mp_Entries p))) ≤ mp_Count p)%Z;
  lp_limit : (Z.of_nat (length (elems (mp_Entries p))) ≤ MaxCatalogLimit)%Z;
  lp_entries : Forall (λ e, leaf_entry repo (mp_Prefix p) e ∧ (en_Sequence e ≤ cp_Sequence (mp_Checkpoint p))%Z) (elems (mp_Entries p));
  lp_next : match mp_NextOffset p with
            | Some next => (next = mp_Offset p + Z.of_nat (length (elems (mp_Entries p))) ∧ mp_Offset p < next)%Z
            | None => (mp_Count p = mp_Offset p + Z.of_nat (length (elems (mp_Entries p))))%Z
            end }.

Lemma page_validate_leaf repo r p : String.length (mp_Prefix p) = 2 → MerklePage_Validate canonical_value repo r p = Ok tt →
  leaf_page repo r p.
Proof.
  intros Hlen Hv. unfold MerklePage_Validate in Hv. apply bind_Ok in Hv as ([] & Hq & Hv).
  apply bind_Ok in Hv as ([] & Hs%reject_if_Ok & Hv). apply bind_Ok in Hv as ([] & _ & Hv).
  apply bind_Ok in Hv as ([] & _ & Hv). rewrite Hlen in Hv. cbn [Nat.ltb Nat.leb] in Hv.
  apply bind_Ok in Hv as ([] & Hl & _). rewrite !orb_false_iff in Hs.
  destruct Hs as [[[[_ Ho%negb_false_iff%Z.eqb_eq] _] _] _].
  unfold MerkleRequest_Validate in Hq. apply bind_Ok in Hq as ([] & Hq%reject_if_Ok & _). rewrite !orb_false_iff in Hq.
  destruct Hq as [[[_ Hq0%Z.ltb_ge] Hq1%Z.ltb_ge] Hq2%Z.ltb_ge].
  unfold check_leaf_page in Hl. apply bind_Ok in Hl as ([] & H1%reject_if_Ok & Hl). apply bind_Ok in Hl as ([] & H2 & Hl).
  apply bind_Ok in Hl as (out & H3%canonical_entries_Ok & H4%reject_if_Ok). destruct H3 as [H3 _]. rewrite !orb_false_iff in H1.
  destruct H1 as [[[_ Hlim%Z.ltb_ge] Hc1%Z.ltb_ge] Hc2%Z.ltb_ge].
  set (count := Z.of_nat (length (elems (mp_Entries p)))) in *.
  assert (page_limit r ≤ MaxCatalogLimit)%Z by (unfold page_limit, DefaultCatalogLimit, MaxCatalogLimit in *; destruct (_ =? _)%Z; lia).
  split; [done|lia|lia| |].
  - apply Forall_forall. intros e He. rewrite Forall_forall in H3. split; [by apply H3|]. apply Z.ltb_ge. apply not_true_iff_false. intros Hx.
    apply not_true_iff_false in H4. apply H4, existsb_elem. eauto.
  - destruct (Z.ltb_spec (mp_Offset p + count) (mp_Count p)) as [Hlt|Hge].
    + apply reject_if_Ok, orb_false_iff in H2 as [H5%Z.eqb_neq H6%negb_false_iff%bool_decide_eq_true]. rewrite H6. split; [done|lia].
    + apply reject_if_Ok, orb_false_iff in H2 as [H5%bool_decide_eq_false _].
      destruct (mp_NextOffset p); [by destruct H5; eauto|lia].
Qed.

Lemma leaf_pages_cover repo first offset pages : String.length (mp_Prefix first) = 2 → leaf_pages repo first offset pages →
  (offset + Z.of_nat (length (pages_entries pages)) = mp_Count first)%Z ∧
  (Z.of_nat (length pages) ≤ mp_Count first - offset + 1)%Z ∧
  Forall (leaf_entry repo (mp_Prefix first)) (pages_entries pages).
Proof.
  intros Hlen. revert offset. induction pages as [|[r p] pages IH]; intros offset; [done|].
  intros (Hv & Ho & Hp & Hc & Hn). pose proof Hv as [H1 H2 _ H4 H5]%page_validate_leaf; [|by rewrite Hp].
  unfold pages_entries. change (((r, p) :: pages) ≫= ?f) with (f (r, p) ++ (pages ≫= f)). cbn [snd]. fold (pages_entries pages).
  rewrite length_app, Nat2Z.inj_add, Forall_app. cbn [length].
  assert (Hall : Forall (leaf_entry repo (mp_Prefix first)) (elems (mp_Entries p))).
  { rewrite <- Hp. eapply Forall_impl; [exact H4|]. by intros e [? _]. }
  destruct (mp_NextOffset p) as [next|].
  - destruct (IH next Hn) as (H6 & H7 & H8). split_and!; [lia|lia|done|done].
  - subst pages. cbn. split_and!; [lia|lia|done|constructor].
Qed.
End pages.

(** * Samples *)

Module MerkleSamples.
Import CatalogSamples.

#[local] Instance decoder : CatalogDecoder := {|
  decode_names _ := Err ErrHashMismatch;
  decode_snapshot v :=
    Ok {| sn_ID := v; sn_RepoID := repo; sn_Branch := "main"; sn_Parents := None; sn_DocHash := v;
          sn_DocIdentity := ""; sn_MemoryHash := ""; sn_ClaudeSettings := ""; sn_AgentsSettings := "";
          sn_CodexSettings := ""; sn_Provider := ProviderCodex; sn_Fidelity := "full"; sn_Message := "first";
          sn_Author := MkTeamIdentity "" "" ""; sn_CreatedAt := MkTime 1 0; sn_Grafted := false; sn_GraftParents := None;
          sn_GraftSeq := 0; sn_SessionID := ""; sn_Models := None; sn_CompactionCount := 0 |};
  decode_ref _ := Err ErrHashMismatch;
  decode_history _ := Err ErrHashMismatch;
  decode_protocol _ := Ok 1%Z |}.

Definition canonical_value (s : string) : result string := Ok s.

(** Two entries of the bucket [75]. *)
Definition protocol : CatalogEntry := MkEntry 3 "protocol" repo false "1".
Definition other : string := HashContent "document199".
Definition snapshot : CatalogEntry := MkEntry 4 "snapshot" other false other.

Definition root_hash : string := HashContent "root".
Definition leaf_hash : string := HashContent "leaf".
Definition checkpoint : CatalogCheckpoint := MkCheckpoint 1 repo epoch 5.

Definition request (offset : Z) : CatalogMerkleRequest := MkMerkleRequest 1 root_hash (Some checkpoint) "75" offset 1.
Definition page (offset : Z) (e : CatalogEntry) (next : option Z) : CatalogMerklePage :=
  MkMerklePage 1 CatalogMerkleScope repo checkpoint root_hash "75" leaf_hash 2 (Some []) (Some [e]) offset next.

Definition pages : list (CatalogMerkleRequest * CatalogMerklePage) :=
  [(request 0, page 0 protocol (Some 1%Z)); (request 1, page 1 snapshot None)].

Definition tree : result (CatalogMerkleNode * gmap string CatalogMerkleNode) :=
  BuildCatalogMerkle canonical_value repo [snapshot; protocol].
Definition built : CatalogMerkleNode * gmap string CatalogMerkleNode := result_or (MkNode 0 "" "" "" 0 None None, ∅) tree.
Definition tree_ok : bool := is_ok tree.

Lemma tree_built : tree_ok = true.
Proof.
  apply is_ok_true, buildable_builds. split; [vm_compute; reflexivity| |compute_decision|compute_decision].
  repeat constructor; vm_compute; reflexivity.
Qed.
End MerkleSamples.
#[local] Existing Instance MerkleSamples.decoder.

(** * The claims *)

(** When a tree can be built.  The build succeeds exactly when the repository's address is valid
    and every entry is live, valid, in some bucket, holds a value with a normal form, and no two
    entries have one normalised key; nothing else stops it, and what it refuses is one of these. *)
Theorem merkle_build_succeeds `{CatalogDecoder} canonical_value repo entries :
  (∃ t, BuildCatalogMerkle canonical_value repo entries = Ok t) ↔ buildable canonical_value repo entries.
Proof. split; [intros [t Ht]; by eapply built_buildable|apply buildable_builds]. Qed.

(** The tree is a function of the set of entries.  Whether it can be built, its root and
    all its nodes do not depend on the order in which the entries are given. *)
Theorem merkle_order_independent `{CatalogDecoder} canonical_value repo entries entries' : entries ≡ₚ entries' →
  ∀ t, BuildCatalogMerkle canonical_value repo entries = Ok t ↔ BuildCatalogMerkle canonical_value repo entries' = Ok t.
Proof. intros Hp t. split; intros Hb; (eapply build_permutation; [|exact Hb]); by rewrite Hp. Qed.

Lemma merkle_order_independent_witness : ∀ t,
  BuildCatalogMerkle MerkleSamples.canonical_value CatalogSamples.repo [MerkleSamples.snapshot; MerkleSamples.protocol] = Ok t ↔
  BuildCatalogMerkle MerkleSamples.canonical_value CatalogSamples.repo [MerkleSamples.protocol; MerkleSamples.snapshot] = Ok t.
Proof. apply merkle_order_independent. constructor. Defined.

(** C30: A built tree holds exactly the entries it was built from.  Its root counts them; every
    node is stored under its own hash; every entry has one of the 256 buckets; and following
    the hashes from the root down to a bucket reaches the leaf with exactly the entries of
    that bucket, live, valid and strictly ordered by kind and normalized key - unless two
    nodes of different places have the same SHA-256 hash. *)
Theorem merkle_contents `{CatalogDecoder} canonical_value repo entries root nodes :
  BuildCatalogMerkle canonical_value repo entries = Ok (root, nodes) →
  nd_Count root = Z.of_nat (length entries) ∧
  (∀ h n, nodes !! h = Some n → CatalogMerkleHash canonical_value n = Ok h) ∧
  (∀ e, e ∈ entries → ∃ b, b ∈ all_buckets ∧ CatalogMerkleBucket e = Ok b) ∧
  ∀ b, b ∈ all_buckets → node_collision canonical_value ∨
    ∃ leaf, find_leaf nodes root b = Some leaf ∧ nd_Prefix leaf = b ∧ Sorted leaf_lt (elems (nd_Entries leaf)) ∧
      Forall (leaf_entry repo b) (elems (nd_Entries leaf)) ∧
      ∀ e, e ∈ elems (nd_Entries leaf) ↔ e ∈ entries ∧ CatalogMerkleBucket e = Ok b.
Proof.
  intros Hb. pose proof Hb as (Hall & branches & roots & Hbr & Hroots & Hr & Hh)%build_Ok. split_and!.
  - by eapply build_count.
  - intros h n Hn. by apply Hh in Hn as [_ ?].
  - intros e He. destruct (Hall e He) as [b He']. exists b. split; [by eapply bucket_in|done].
  - intros b Hbin. destruct (find_leaf_Ok _ _ _ _ _ _ Hb Hbin) as [?|Hf]; [by left|right].
    destruct (bucket_leaf _ _ _ _ _ Hb Hbin) as [Hs Hle]. exists (leaf_node repo b entries).
    split_and!; [done..| |].
    + cbn. apply Forall_forall. intros e He%elem_of_sort_slice. rewrite Forall_forall in Hle. by apply Hle.
    + intros e. cbn. rewrite elem_of_sort_slice. unfold bucket_of, in_bucket. rewrite list_elem_of_filter. tauto.
Qed.

Lemma merkle_contents_witness : nd_Count MerkleSamples.built.1 = 2%Z.
Proof.
  eapply (merkle_contents MerkleSamples.canonical_value CatalogSamples.repo [MerkleSamples.snapshot; MerkleSamples.protocol]
    MerkleSamples.built.1 MerkleSamples.built.2).
  rewrite <- surjective_pairing. apply result_or_Ok. exact MerkleSamples.tree_built.
Defined.

(** C31: A client that reads a leaf page by page, asking for the offset each accepted page
    names, ends up with exactly [Count] entries, each live, valid and in its bucket, after at
    most [Count] + 1 pages: every accepted page but the last makes progress. *)
Theorem merkle_pages_cover `{CatalogDecoder} canonical_value repo r p pages :
  String.length (mp_Prefix p) = 2 → leaf_pages canonical_value repo p 0 ((r, p) :: pages) →
  Z.of_nat (length (pages_entries ((r, p) :: pages))) = mp_Count p ∧
  (Z.of_nat (length ((r, p) :: pages)) ≤ mp_Count p + 1)%Z ∧
  Forall (leaf_entry repo (mp_Prefix p)) (pages_entries ((r, p) :: pages)).
Proof. intros Hlen Hp. destruct (leaf_pages_cover _ _ _ _ _ Hlen Hp) as (? & ? & ?). split_and!; [lia|lia|done]. Qed.

Lemma merkle_pages_cover_witness : length (pages_entries MerkleSamples.pages) = 2 ∧
  Forall (leaf_entry CatalogSamples.repo "75") (pages_entries MerkleSamples.pages).
Proof.
  split; [vm_compute; reflexivity|].
  apply (merkle_pages_cover MerkleSamples.canonical_value CatalogSamples.repo (MerkleSamples.request 0)
    (MerkleSamples.page 0 MerkleSamples.protocol (Some 1%Z))); [reflexivity|].
  repeat split; vm_compute; reflexivity.
Defined.
