(* ===== verification/Staging.v ===== *)
(** * The staging index

    Models [staging.go] and [working_position.go] ([cli/internal/domain]): frozen sessions, the
    worktree's index of them with its authenticated revision and its sequence number, the
    consumption of committed entries, and the observations derived from a commit.

    [time_json] is [time.Time]'s JSON text, or its refusal of years it cannot write. *)
From stdpp Require Import pretty.
From S2P Require Import Prelude GoStrings Utf8 GoJson Sha256 Values History Graph PublicationCatalog Catalog.
From Stdlib Require Import Ascii.

Definition StagingVersion : Z := 1.
Definition RootStagingVersion : Z := 2.
Definition RootStagingCommitVersion : Z := 3.
Definition StagingCommitVersion : Z := 2.

Record StagedSession := MkStaged {
  sg_Key : string; sg_Provider : string; sg_SessionID : string; sg_SourceID : string; sg_Generation : string;
  sg_DocHash : string; sg_DocIdentity : string; sg_Events : Z; sg_StartEvent : Z; sg_CapturedBytes : Z;
  sg_CodeCommit : string; sg_Branch : string; sg_BranchID : string; sg_Base : string; sg_CapturedAt : time }.

(** Go's [==] on the struct. *)
#[export] Instance StagedSession_eq_dec : EqDecision StagedSession.
Proof. solve_decision. Defined.

(** Whether [Entries] is nil is not observable: every operation copies it first. *)
Record StagingIndex := MkIndex {
  si_Version : Z; si_RepoID : string; si_WorktreeID : string; si_Sequence : N; si_Revision : string;
  si_Entries : list StagedSession }.

Record WorkingPosition := MkPosition {
  wp_RepoID : string; wp_WorktreeID : string; wp_Branch : string; wp_BranchID : string; wp_LocalBranch : string;
  wp_GitCommit : string; wp_Snapshot : string; wp_SharedTarget : string; wp_MemoryHash : string; wp_MemorySource : string;
  wp_MemoryPinned : bool; wp_Orphan : bool; wp_Rewound : bool; wp_Selection : option HistoryEvent }.

Record StagingCommit := MkCommit {
  sc_Version : Z; sc_ID : string; sc_Index : StagingIndex; sc_ExpectedPosition : WorkingPosition; sc_ExpectedRef : Ref;
  sc_Position : WorkingPosition; sc_Ref : Ref; sc_Advance : option HistoryEvent; sc_Publications : list HistoryEvent;
  sc_CreatedAt : time; sc_LocalFinalized : bool }.

(** ** Versions *)

Definition HasRootDocuments (i : StagingIndex) : bool := existsb (λ e, sg_DocIdentity e <>? "") (si_Entries i).

Definition RecordVersion (i : StagingIndex) : Z := if HasRootDocuments i then RootStagingVersion else StagingVersion.

Definition CommitVersion (i : StagingIndex) : Z :=
  if HasRootDocuments i then RootStagingCommitVersion else StagingCommitVersion.

(** ** Keys *)

Definition StagedSessionKey (provider session source generation : string) : string :=
  HashContent (encode (JArr (JStr <$> [provider; session; source; generation]))).

(** ** Sessions *)

Definition DocumentRef_Validate (hash identity : string) : result unit :=
  DocumentIdentity_Validate identity ;; ValidateContentHash hash.

Definition ValidateStagingCode (sha : string) : result unit :=
  reject_if ((negb (String.length sha =? 40)%nat && negb (String.length sha =? 64)%nat) || (sha <>? ToLower sha) ||
             (Trim sha "0" =? "")) ErrUnclassified ;;
  reject_if (negb (hex_decodes sha)) ErrUnclassified.

Definition ValidateStagedSession (e : StagedSession) : result unit :=
  DocumentRef_Validate (sg_DocHash e) (sg_DocIdentity e) ;;
  reject_if ((sg_Provider e <>? ProviderClaude) && (sg_Provider e <>? ProviderCodex)) ErrUnsupportedProvider ;;
  reject_if ((sg_SessionID e =? "") || (256 <? String.length (sg_SessionID e))%nat || (sg_Events e <? 0)%Z ||
             (sg_StartEvent e <? 0)%Z || (sg_Events e <? sg_StartEvent e)%Z || (sg_CapturedBytes e <? 0)%Z ||
             time_IsZero (sg_CapturedAt e) || (sg_BranchID e =? "")) ErrHashMismatch ;;
  for_each ValidateContentHash [sg_Key e; sg_SourceID e; sg_Generation e; sg_DocHash e] ;;
  ValidateOptionalContentHash (sg_Base e) ;;
  reject_if (sg_Key e <>? StagedSessionKey (sg_Provider e) (sg_SessionID e) (sg_SourceID e) (sg_Generation e)) ErrHashMismatch ;;
  ValidateStagingCode (sg_CodeCommit e) ;;
  if sg_Branch e <>? "" then ValidateBranchName (sg_Branch e) else Ok tt.

Section staging.
Context (time_json : time → result string).

(** ** Revisions *)

Definition object_text (fields : list (string * string)) : string :=
  "{" +:+ Join ((λ f, encode_string f.1 +:+ ":" +:+ f.2) <$> fields) "," +:+ "}".

(** An unsupported identity, and a time that has no text, make the encoder fail. *)
Definition session_text (e : StagedSession) : result string :=
  reject_if (negb (is_ok (DocumentIdentity_Validate (sg_DocIdentity e)))) ErrUnsupportedDocumentIdentity ;;
  captured ← time_json (sg_CapturedAt e);
  let str name s := [(name, encode_string s)] in
  let int name z := [(name, encode (JInt z))] in
  let opt name s := if s =? "" then [] else str name s in
  Ok (object_text (str "key" (sg_Key e) ++ str "provider" (sg_Provider e) ++ str "session_id" (sg_SessionID e) ++
    str "source_id" (sg_SourceID e) ++ str "generation" (sg_Generation e) ++ str "doc_hash" (sg_DocHash e) ++
    opt "doc_identity" (sg_DocIdentity e) ++ int "events" (sg_Events e) ++ int "start_event" (sg_StartEvent e) ++
    int "captured_bytes" (sg_CapturedBytes e) ++ str "code_commit" (sg_CodeCommit e) ++ str "branch" (sg_Branch e) ++
    str "branch_id" (sg_BranchID e) ++ opt "base" (sg_Base e) ++ [("captured_at", captured)])).

Definition index_text (i : StagingIndex) : result string :=
  entries ← fold_each (λ texts e, text ← session_text e; Ok (texts ++ [text])) (si_Entries i) [];
  Ok (object_text [("version", encode (JInt (si_Version i))); ("repo_id", encode_string (si_RepoID i));
    ("worktree_id", encode_string (si_WorktreeID i)); ("sequence", encode (JInt (Z.of_N (si_Sequence i))));
    ("revision", encode_string (si_Revision i)); ("entries", "[" +:+ Join entries "," +:+ "]")]).

(** [raw, _ := json.Marshal(i)]: no bytes when the encoder failed. *)
Definition index_bytes (i : StagingIndex) : string := match index_text i with Ok raw => raw | Err _ => "" end.

Definition key_less (a b : StagedSession) : bool := str_lt (sg_Key a) (sg_Key b).

Definition WithRevision (i : StagingIndex) : StagingIndex :=
  let version := if (si_Version i =? StagingVersion)%Z || (si_Version i =? RootStagingVersion)%Z then RecordVersion i else si_Version i in
  let unsigned := MkIndex version (si_RepoID i) (si_WorktreeID i) (si_Sequence i) "" (sort_slice key_less (si_Entries i)) in
  MkIndex version (si_RepoID i) (si_WorktreeID i) (si_Sequence i) (HashContent (index_bytes unsigned)) (si_Entries unsigned).

(** [seen] of the loop of [ValidateStagingIndex]. *)
Definition check_staged (seen : gset string) (e : StagedSession) : result (gset string) :=
  ValidateStagedSession e ;;
  reject_if (bool_decide (sg_Key e ∈ seen)) ErrHashMismatch ;;
  Ok ({[sg_Key e]} ∪ seen).

Definition ValidateStagingIndex (i : StagingIndex) : result unit :=
  reject_if ((negb (si_Version i =? StagingVersion)%Z && negb (si_Version i =? RootStagingVersion)%Z) ||
             negb (si_Version i =? RecordVersion i)%Z) ErrStagingVersion ;;
  reject_if (negb (is_ok (ValidateContentHash (si_RepoID i))) || negb (String.length (si_WorktreeID i) =? 32)%nat) ErrHashMismatch ;;
  reject_if (negb (hex_decodes (si_WorktreeID i))) ErrHashMismatch ;;
  reject_if (si_Revision (WithRevision i) <>? si_Revision i) ErrHashMismatch ;;
  fold_each check_staged (si_Entries i) ∅ ;;
  Ok tt.

(** ** Consumption *)

(** [out.Sequence++] on a [uint64] *)
Definition next_sequence (n : N) : N := (n + 1) mod (max_uint64 + 1).

Definition ConsumeStagedEntries (current : StagingIndex) (frozen : list StagedSession) : StagingIndex :=
  let consumed := fold_left (λ m e, <[sg_Key e := e]> m) frozen (∅ : gmap string StagedSession) in
  let kept := filter (λ e, consumed !! sg_Key e ≠ Some e) (si_Entries current) in
  let sequence := if (length kept =? length (si_Entries current))%nat then si_Sequence current
                  else next_sequence (si_Sequence current) in
  WithRevision (MkIndex (si_Version current) (si_RepoID current) (si_WorktreeID current) sequence (si_Revision current) kept).
End staging.

(** ** Observations *)

Definition with_ID_Kind (e : HistoryEvent) (id kind : string) : HistoryEvent :=
  MkHistoryEvent (ev_Creation e) (ev_PRCompleted e) (ev_RecoveryEvidence e) (ev_PR e) (ev_SourceBranchID e) id (ev_RepoID e)
    (ev_BranchID e) (ev_Branch e) kind (ev_LocalBranch e) (ev_PreviousBranch e) (ev_BindingParent e) (ev_NameParent e)
    (ev_MemorySelectionParent e) (ev_Source e) (ev_Target e) (ev_SharedTarget e) (ev_MemorySource e) (ev_MemoryHash e)
    (ev_MemoryPinned e) (ev_GitBefore e) (ev_GitAfter e) (ev_WorktreeID e) (ev_CreatedAt e).

Definition zero_event : HistoryEvent :=
  MkHistoryEvent None false "" None "" "" "" "" "" "" "" "" "" "" "" "" "" "" "" "" false "" "" "" (MkTime 0 0).

Definition observation_id (id : string) : string := take_chars 32 (drop_chars 7 (HashContent ("staging-observation/v1/" +:+ id))).

Definition observe (e : HistoryEvent) : HistoryEvent := with_ID_Kind e (observation_id (ev_ID e)) "position".

Definition StagingObservations (op : StagingCommit) : list HistoryEvent :=
  let final := match wp_Selection (sc_Position op) with
               | Some s => with_ID_Kind s (ev_ID s) "position"
               | None => zero_event
               end in
  let publications := filter (λ e, negb ((StagingCommitVersion <=? sc_Version op)%Z && publicationProof e final) = true) (sc_Publications op) in
  observe <$> publications ++ option_list (wp_Selection (sc_Position op)).

(** * Properties *)

Section staging.
Context (time_json : time → result string).

Definition keys (l : list StagedSession) : list string := sg_Key <$> l.
Definition key_order : StagedSession → StagedSession → Prop := key_lt sg_Key str_lt.

Lemma staged_sorted l : NoDup (keys l) → Sorted key_order (sort_slice key_less l).
Proof. apply (sort_by_key_Sorted sg_Key str_lt); [apply str_lt_irrefl|apply str_lt_trans|apply str_lt_total]. Qed.

Lemma staged_sort_permutation l l' : NoDup (keys l) → l ≡ₚ l' → sort_slice key_less l = sort_slice key_less l'.
Proof.
  intros Hnd Hp. apply (key_lt_unique sg_Key str_lt); [apply str_lt_irrefl|apply str_lt_trans|by apply staged_sorted| |].
  - apply staged_sorted. unfold keys. by rewrite <- Hp.
  - by rewrite !sort_slice_Permutation.
Qed.

(** The same index up to the order of its entries and its stored revision. *)
Definition same_contents (i j : StagingIndex) : Prop :=
  si_Version i = si_Version j ∧ si_RepoID i = si_RepoID j ∧ si_WorktreeID i = si_WorktreeID j ∧
  si_Sequence i = si_Sequence j ∧ si_Entries i ≡ₚ si_Entries j.

Lemma WithRevision_same i j : NoDup (keys (si_Entries i)) → same_contents i j → WithRevision time_json i = WithRevision time_json j.
Proof.
  intros Hnd (Hv & Hr & Hw & Hs & Hp). unfold WithRevision, RecordVersion, HasRootDocuments.
  rewrite (existsb_permutation _ _ _ Hp), (staged_sort_permutation _ _ Hnd Hp), Hv, Hr, Hw, Hs. done.
Qed.

(** A supported version is already the one [WithRevision] writes. *)
Definition version_current (i : StagingIndex) : Prop := si_Version i = RecordVersion i.

Lemma WithRevision_entries i : si_Entries (WithRevision time_json i) ≡ₚ si_Entries i.
Proof. cbn. apply sort_slice_Permutation. Qed.

Lemma record_version_current i : (RecordVersion i =? StagingVersion)%Z || (RecordVersion i =? RootStagingVersion)%Z = true.
Proof. unfold RecordVersion. by destruct (HasRootDocuments i). Qed.

Lemma WithRevision_version i :
  (si_Version i =? StagingVersion)%Z || (si_Version i =? RootStagingVersion)%Z = true →
  version_current (WithRevision time_json i).
Proof.
  intros Hv. unfold version_current, WithRevision. rewrite Hv. cbn. unfold RecordVersion, HasRootDocuments. cbn.
  by rewrite (existsb_permutation _ _ _ (sort_slice_Permutation key_less (si_Entries i))).
Qed.

Lemma WithRevision_idem i : NoDup (keys (si_Entries i)) →
  WithRevision time_json (WithRevision time_json i) = WithRevision time_json i.
Proof.
  intros Hnd. transitivity (WithRevision time_json
    (MkIndex (si_Version (WithRevision time_json i)) (si_RepoID i) (si_WorktreeID i) (si_Sequence i) "" (si_Entries i))).
  { symmetry. apply WithRevision_same; [done|]. split_and!; [done..|]. symmetry. exact (WithRevision_entries i). }
  unfold WithRevision at 1 3. cbn [si_Version si_RepoID si_WorktreeID si_Sequence si_Entries].
  assert (∀ v r, RecordVersion (MkIndex v (si_RepoID i) (si_WorktreeID i) (si_Sequence i) r (si_Entries i)) = RecordVersion i) as Hrv
    by done.
  unfold WithRevision. cbn [si_Version]. rewrite Hrv.
  destruct ((si_Version i =? StagingVersion)%Z || (si_Version i =? RootStagingVersion)%Z) eqn:Hv; [|by rewrite Hv].
  by rewrite record_version_current.
Qed.

(** ** What a valid index is *)

Record valid_index (i : StagingIndex) : Prop := {
  vi_version : si_Version i = RecordVersion i;
  vi_repo : ValidateContentHash (si_RepoID i) = Ok tt;
  vi_worktree : String.length (si_WorktreeID i) = 32 ∧ hex_decodes (si_WorktreeID i) = true;
  vi_revision : si_Revision i = si_Revision (WithRevision time_json i);
  vi_sessions : Forall (λ e, ValidateStagedSession e = Ok tt) (si_Entries i);
  vi_keys : NoDup (keys (si_Entries i)) }.

Lemma check_staged_iff l seen : is_ok (fold_each check_staged l seen) = true ↔
  Forall (λ e, ValidateStagedSession e = Ok tt) l ∧ NoDup (keys l) ∧ ∀ e, e ∈ l → sg_Key e ∉ seen.
Proof.
  revert seen. induction l as [|e l IH]; intros seen; cbn [fold_each].
  { split; [|done]. intros _. split; [constructor|]. split; [constructor|by intros ? ?%elem_of_nil]. }
  assert (check_staged seen e = (ValidateStagedSession e ;; if decide (sg_Key e ∈ seen) then Err ErrHashMismatch
    else Ok ({[sg_Key e]} ∪ seen))) as ->.
  { unfold check_staged, reject_if. destruct (ValidateStagedSession e); [|done]. by case_bool_decide; case_decide. }
  destruct (ValidateStagedSession e) as [[]|] eqn:Hv; cbn [mbind result_bind is_ok].
  2:{ split; [discriminate|]. intros [Hf _]. inversion Hf. congruence. }
  case_decide as Hin; cbn [mbind result_bind is_ok].
  { split; [discriminate|]. intros (_ & _ & Hn). by destruct (Hn e (list_elem_of_here _ _)). }
  rewrite IH, Forall_cons. unfold keys. cbn [fmap list_fmap]. rewrite NoDup_cons. split.
  - intros (Hf & Hnd & Hn). split_and!; [done|done| |done|].
    + intros (x & Hx & Hxl)%list_elem_of_fmap. apply (Hn x Hxl). rewrite <- Hx. set_solver.
    + intros x [->|Hx]%elem_of_cons; [done|]. specialize (Hn x Hx). set_solver.
  - intros ([_ Hf] & [Hni Hnd] & Hn). split_and!; [done|done|]. intros x Hx [Heq%elem_of_singleton|Hs]%elem_of_union.
    + apply Hni. rewrite <- Heq. by apply list_elem_of_fmap_2.
    + apply (Hn x); [by right|done].
Qed.

Lemma ValidateStagingIndex_iff i : ValidateStagingIndex time_json i = Ok tt ↔ valid_index i.
Proof.
  unfold ValidateStagingIndex. split.
  - intros Hv. apply bind_Ok in Hv as ([] & H1%reject_if_Ok & Hv). apply bind_Ok in Hv as ([] & H2%reject_if_Ok & Hv).
    apply bind_Ok in Hv as ([] & H3%reject_if_Ok & Hv). apply bind_Ok in Hv as ([] & H4%reject_if_Ok & Hv).
    apply bind_Ok in Hv as (seen & H5 & _). apply orb_false_iff in H1 as [_ H1%negb_false_iff%Z.eqb_eq].
    apply orb_false_iff in H2 as [H2%negb_false_iff%is_ok_unit H6%negb_false_iff%Nat.eqb_eq]. apply negb_false_iff in H3.
    apply negb_false_iff, bool_decide_eq_true in H4.
    destruct (proj1 (check_staged_iff (si_Entries i) ∅)) as (Hf & Hnd & _); [by rewrite H5|]. done.
  - intros [H1 H2 [H3 H4] H5 H6 H7]. rewrite H1 at 1 2 3. rewrite Z.eqb_refl, H2, H3, H4, <- H5, bool_decide_true by done.
    pose proof (record_version_current i) as Hrv. rewrite <- negb_orb, Hrv. cbn.
    destruct (fold_each check_staged (si_Entries i) ∅) as [seen|] eqn:Hk; [done|].
    assert (is_ok (fold_each check_staged (si_Entries i) ∅) = true) as Hx; [|by rewrite Hk in Hx].
    apply check_staged_iff. split_and!; [done..|set_solver].
Qed.

Lemma WithRevision_valid i : (si_Version i =? StagingVersion)%Z || (si_Version i =? RootStagingVersion)%Z = true →
  ValidateContentHash (si_RepoID i) = Ok tt → String.length (si_WorktreeID i) = 32 ∧ hex_decodes (si_WorktreeID i) = true →
  Forall (λ e, ValidateStagedSession e = Ok tt) (si_Entries i) → NoDup (keys (si_Entries i)) →
  valid_index (WithRevision time_json i).
Proof.
  intros Hv Hr Hw Hf Hnd. split; [by apply WithRevision_version|done|done| | |].
  - by rewrite WithRevision_idem.
  - by rewrite WithRevision_entries.
  - unfold keys. by rewrite WithRevision_entries.
Qed.

(** ** Consumption *)

Definition consumed_map (frozen : list StagedSession) : gmap string StagedSession :=
  fold_left (λ m e, <[sg_Key e := e]> m) frozen ∅.

Lemma consumed_lookup frozen e : NoDup (keys frozen) → consumed_map frozen !! sg_Key e = Some e ↔ e ∈ frozen.
Proof.
  unfold consumed_map. induction frozen as [|x frozen IH] using rev_ind.
  { cbn. rewrite lookup_empty, elem_of_nil. done. }
  unfold keys. rewrite fold_left_app, fmap_app. cbn [fold_left fmap list_fmap]. rewrite NoDup_app. intros (Hnd & Hni & _).
  rewrite elem_of_app, list_elem_of_singleton, <- (IH Hnd), lookup_insert_Some. split; [naive_solver|].
  intros [Hin| ->]; [|by left]. right. split; [|done]. intros Heq. apply (Hni (sg_Key x)); [|set_solver].
  rewrite Heq. apply list_elem_of_fmap_2. by apply IH.
Qed.

Definition kept (current : StagingIndex) (frozen : list StagedSession) : list StagedSession :=
  filter (λ e, consumed_map frozen !! sg_Key e ≠ Some e) (si_Entries current).

Lemma elem_of_kept current frozen e : NoDup (keys frozen) → e ∈ kept current frozen ↔ e ∈ si_Entries current ∧ e ∉ frozen.
Proof. intros Hnd. unfold kept. rewrite list_elem_of_filter, consumed_lookup by done. tauto. Qed.

Lemma kept_valid current frozen : valid_index current →
  Forall (λ e, ValidateStagedSession e = Ok tt) (kept current frozen) ∧ NoDup (keys (kept current frozen)).
Proof.
  intros Hv. unfold kept, keys. split.
  - apply Forall_forall. intros e [_ He]%list_elem_of_filter. pose proof (vi_sessions _ Hv) as Hf. rewrite Forall_forall in Hf. auto.
  - eapply sublist_NoDup; [exact (vi_keys _ Hv)|]. apply fmap_sublist, sublist_filter.
Qed.

Lemma filter_id {A} (P : A → Prop) `{∀ x, Decision (P x)} (l : list A) : (∀ x, x ∈ l → P x) → filter P l = l.
Proof.
  induction l as [|x l IH]; intros Hall; [done|]. rewrite filter_cons_True by (apply Hall; left).
  f_equal. apply IH. intros y Hy. apply Hall. by right.
Qed.

(** Nothing was consumed exactly when the length did not change. *)
Lemma kept_length current frozen : NoDup (keys frozen) →
  length (kept current frozen) = length (si_Entries current) ↔ ∀ e, e ∈ si_Entries current → e ∉ frozen.
Proof.
  intros Hnd. unfold kept. split.
  - intros Hl e He Hf. apply (length_filter_lt (λ e, consumed_map frozen !! sg_Key e ≠ Some e)) in He; [lia|].
    intros Hn. apply Hn. by apply consumed_lookup.
  - intros Hall. f_equal. apply filter_id. intros e He Hf. by apply (Hall e He), consumed_lookup.
Qed.

Lemma consume_eq current frozen : ConsumeStagedEntries time_json current frozen =
  WithRevision time_json (MkIndex (si_Version current) (si_RepoID current) (si_WorktreeID current)
    (if (length (kept current frozen) =? length (si_Entries current))%nat then si_Sequence current
     else next_sequence (si_Sequence current)) (si_Revision current) (kept current frozen)).
Proof. done. Qed.

Lemma next_sequence_ne n : (n ≤ max_uint64)%N → next_sequence n ≠ n ∧ (next_sequence n ≤ max_uint64)%N.
Proof.
  intros Hn. unfold next_sequence. destruct (N.eq_dec n max_uint64) as [->|Hne]; [done|].
  rewrite N.mod_small by lia. lia.
Qed.
End staging.

(** * Samples *)

Module StagingSamples.
Definition time_json (t : time) : result string := Ok (pretty (t_instant t)).

Definition session (source generation : string) (at_ : Z) : StagedSession :=
  let source := HashContent source in
  let generation := HashContent generation in
  MkStaged (StagedSessionKey ProviderCodex "s" source generation) ProviderCodex "s" source generation (HashContent "doc") ""
    4 1 100 "0123456789012345678901234567890123456789" "main" "branch" "" (MkTime at_ 0).

Definition first : StagedSession := session "a" "g" 5.
Definition second : StagedSession := session "b" "g" 6.

(** The second source after it was added again. *)
Definition readded : StagedSession := session "b" "g" 9.

Definition index (sequence : N) (entries : list StagedSession) : StagingIndex :=
  WithRevision time_json (MkIndex StagingVersion (HashContent "repo") "0123456789abcdef0123456789abcdef" sequence "" entries).

Definition prepared : StagingIndex := index 7 [first; second].
Definition current : StagingIndex := index 8 [first; readded].
End StagingSamples.

(** * The claims *)

(** C32: Consuming the entries of a commit removes exactly those that are unchanged since they
    were frozen, and leaves every concurrent re-add in place.  The index stays valid and
    keeps its repository and worktree; its sequence number moves, never to the same value,
    exactly when an entry was removed, and otherwise the index is the same up to the order of
    its entries. *)
Theorem staging_consume_exact time_json current frozen : ValidateStagingIndex time_json current = Ok tt →
  NoDup (keys frozen) → (si_Sequence current ≤ max_uint64)%N →
  let out := ConsumeStagedEntries time_json current frozen in
  ValidateStagingIndex time_json out = Ok tt ∧ si_RepoID out = si_RepoID current ∧ si_WorktreeID out = si_WorktreeID current ∧
  (∀ e, e ∈ si_Entries out ↔ e ∈ si_Entries current ∧ e ∉ frozen) ∧
  (si_Sequence out = si_Sequence current ↔ ∀ e, e ∈ si_Entries current → e ∉ frozen) ∧
  (si_Sequence out = si_Sequence current → out = WithRevision time_json current ∧ si_Revision out = si_Revision current).
Proof.
  intros Hv%ValidateStagingIndex_iff Hnd Hseq. cbn zeta. destruct (kept_valid time_json current frozen Hv) as [Hf Hk].
  assert (Hs : si_Sequence (ConsumeStagedEntries time_json current frozen) = si_Sequence current ↔
    ∀ e, e ∈ si_Entries current → e ∉ frozen).
  { rewrite <- (kept_length current frozen Hnd), consume_eq. cbn [si_Sequence WithRevision].
    destruct (Nat.eqb_spec (length (kept current frozen)) (length (si_Entries current))) as [->|Hne]; [done|].
    pose proof (next_sequence_ne _ Hseq) as [? _]. tauto. }
  split_and!; [| |done| |done|].
  - apply ValidateStagingIndex_iff. rewrite consume_eq. destruct Hv as [H1 H2 H3 _ _ _].
    apply WithRevision_valid; [|done..]. cbn [si_Version]. rewrite H1. apply record_version_current.
  - done.
  - intros e. rewrite consume_eq, WithRevision_entries. cbn [si_Entries]. by apply elem_of_kept.
  - intros Heq. pose proof (proj1 Hs Heq) as Hall. apply (kept_length current frozen Hnd) in Hall as Hl.
    assert (kept current frozen = si_Entries current) as Hke.
    { unfold kept. apply filter_id. intros e He Hc. apply (Hall e He). by apply (consumed_lookup frozen e Hnd). }
    assert (ConsumeStagedEntries time_json current frozen = WithRevision time_json current) as ->.
    { rewrite consume_eq, Hke, Nat.eqb_refl. apply WithRevision_same; [exact (vi_keys _ _ Hv)|done]. }
    split; [done|]. by rewrite (vi_revision _ _ Hv).
Qed.

Lemma staging_consume_exact_witness :
  let out := ConsumeStagedEntries StagingSamples.time_json StagingSamples.current (si_Entries StagingSamples.prepared) in
  ValidateStagingIndex StagingSamples.time_json out = Ok tt ∧ si_Entries out = [StagingSamples.readded] ∧ si_Sequence out = 9%N.
Proof.
  cbn zeta. split_and!; [|vm_compute; reflexivity..].
  apply (staging_consume_exact StagingSamples.time_json StagingSamples.current (si_Entries StagingSamples.prepared)).
  - vm_compute. reflexivity.
  - compute_decision.
  - vm_compute. discriminate.
Defined.

(** Consuming is safe to repeat: after a crash, running it again on its own result, with the
    same frozen entries, changes nothing - neither entries, sequence nor revision. *)
Theorem staging_consume_retry time_json current frozen : ValidateStagingIndex time_json current = Ok tt →
  NoDup (keys frozen) →
  let out := ConsumeStagedEntries time_json current frozen in
  ConsumeStagedEntries time_json out frozen = out.
Proof.
  intros Hv%ValidateStagingIndex_iff Hnd. cbn zeta. destruct (kept_valid time_json current frozen Hv) as [_ Hk].
  set (out := ConsumeStagedEntries time_json current frozen).
  assert (Hin : ∀ e, e ∈ si_Entries out → e ∉ frozen).
  { intros e He. unfold out in He. rewrite consume_eq, WithRevision_entries in He. by apply elem_of_kept in He as [_ ?]. }
  assert (kept out frozen = si_Entries out) as Hke.
  { unfold kept. apply filter_id. intros e He Hc. apply (Hin e He). by apply (consumed_lookup frozen e Hnd). }
  rewrite consume_eq, Hke, Nat.eqb_refl. unfold out. rewrite consume_eq. (etransitivity; [|by apply WithRevision_idem]).
  apply WithRevision_same; [|done]. cbn [si_Entries]. unfold keys. by rewrite WithRevision_entries.
Qed.

Lemma staging_consume_retry_witness :
  let out := ConsumeStagedEntries StagingSamples.time_json StagingSamples.current (si_Entries StagingSamples.prepared) in
  ConsumeStagedEntries StagingSamples.time_json out (si_Entries StagingSamples.prepared) = out.
Proof.
  apply (staging_consume_retry StagingSamples.time_json StagingSamples.current (si_Entries StagingSamples.prepared)).
  - vm_compute. reflexivity.
  - compute_decision.
Defined.
