(* ===== verification/CanonicalJson.v ===== *)
(** * Canonical JSON

    [canonicalJSON] of [hash.go] ([cli/internal/domain]): a value is marshalled, parsed again
    into maps, slices and number texts, and marshalled once more, which sorts every object's
    keys.  Values are [json] trees: the tree of the first marshalling goes in, the final text
    comes out. *)
From stdpp Require Import pretty.
From S2P Require Import Prelude GoStrings Utf8 GoJson Catalog.
From Stdlib Require Import Ascii.

(** ** Maps: [json.Marshal] writes their keys in byte order *)

Definition field_less (a b : string * json) : bool := str_lt a.1 b.1.
Definition sort_fields (fields : list (string * json)) : list (string * json) := sort_slice field_less fields.

Fixpoint sort_keys (j : json) : json :=
  match j with
  | JArr l => JArr (List.map sort_keys l)
  | JObj fields => JObj (sort_fields (List.map (λ f, (f.1, sort_keys f.2)) fields))
  | _ => j
  end.

(** ** Parsing back: texts become UTF-8, and of a repeated key the last value stays *)

Fixpoint last_wins (fields : list (string * json)) : list (string * json) :=
  match fields with
  | [] => []
  | f :: fields => if existsb (λ g, g.1 =? f.1) fields then last_wins fields else f :: last_wins fields
  end.

Fixpoint reparse (j : json) : json :=
  match j with
  | JStr s => JStr (utf8_clean s)
  | JArr l => JArr (List.map reparse l)
  | JObj fields => JObj (last_wins (List.map (λ f, (utf8_clean f.1, reparse f.2)) fields))
  | _ => j
  end.

Definition canonicalJSON (j : json) : string := encode (sort_keys (reparse j)).

(** ** Plain values: what parsing JSON produces *)

Fixpoint plain (j : json) : bool :=
  match j with
  | JStr s => ValidString s
  | JArr l => forallb plain l
  | JObj fields => bool_decide (NoDup (fst <$> fields)) && forallb (λ f, ValidString f.1 && plain f.2) fields
  | _ => true
  end.

(** * Properties *)

(** Induction through the nested lists. *)
Lemma json_nested_ind (P : json → Prop) :
  (∀ l, (∀ j, j ∈ l → P j) → P (JArr l)) →
  (∀ fields, (∀ f, f ∈ fields → P f.2) → P (JObj fields)) →
  (∀ j, (∀ l, j ≠ JArr l) → (∀ fields, j ≠ JObj fields) → P j) → ∀ j, P j.
Proof.
  intros Harr Hobj Hleaf. fix IH 1. intros [| | | | |l|fields]; try (apply Hleaf; congruence).
  - apply Harr. induction l as [|j l IHl]; [intros j Hj; destruct (proj1 (elem_of_nil j) Hj)|].
    intros j' [->|Hj]%elem_of_cons; [apply IH|by apply IHl].
  - apply Hobj. induction fields as [|[k j] fields IHl]; [intros f Hf; destruct (proj1 (elem_of_nil f) Hf)|].
    intros f [->|Hf]%elem_of_cons; [exact (IH j)|by apply IHl].
Qed.

Lemma utf8_clean_valid s : ValidString s = true → utf8_clean s = s.
Proof.
  intros Hv. unfold utf8_clean. rewrite <- (texts_runes s) at 2. f_equal. unfold ValidString in Hv.
  induction (runes s) as [|[b t] l IH]; [done|]. cbn in *. apply andb_true_iff in Hv as [-> Hv]. by rewrite IH.
Qed.

Lemma map_id_on {A} (f : A → A) l : (∀ x, x ∈ l → f x = x) → List.map f l = l.
Proof.
  induction l as [|x l IH]; intros Hall; [done|]. cbn. rewrite Hall by left. f_equal. apply IH. intros y Hy. apply Hall. by right.
Qed.

Lemma map_ext_on {A B} (f g : A → B) l : (∀ x, x ∈ l → f x = g x) → List.map f l = List.map g l.
Proof.
  induction l as [|x l IH]; intros Hall; [done|]. cbn. rewrite Hall by left. f_equal. apply IH. intros y Hy. apply Hall. by right.
Qed.

Lemma forallb_elem {A} (f : A → bool) l : forallb f l = true ↔ ∀ x, x ∈ l → f x = true.
Proof. rewrite forallb_forall. by setoid_rewrite list_elem_of_In. Qed.

Lemma last_wins_NoDup fields : NoDup (fst <$> fields) → last_wins fields = fields.
Proof.
  induction fields as [|f fields IH]; [done|]. cbn. intros [Hni Hnd]%NoDup_cons.
  destruct (existsb (λ g, g.1 =? f.1) fields) eqn:He; [|by rewrite IH].
  apply existsb_elem in He as (g & Hg & Heq%bool_decide_eq_true). exfalso. apply Hni. rewrite <- Heq. by apply list_elem_of_fmap_2.
Qed.

Lemma reparse_plain j : plain j = true → reparse j = j.
Proof.
  induction j as [l IH|fields IH|j Ha Ho] using json_nested_ind; cbn [plain reparse].
  - intros Hl. rewrite forallb_elem in Hl. f_equal. apply map_id_on. auto.
  - intros [Hnd%bool_decide_eq_true Hf]%andb_true_iff. rewrite forallb_elem in Hf. f_equal.
    rewrite map_id_on; [by apply last_wins_NoDup|]. intros [k v] Hin.
    specialize (Hf _ Hin). apply andb_true_iff in Hf as [Hk Hv]. cbn [fst snd] in *. rewrite utf8_clean_valid by done.
    f_equal. by apply (IH (k, v)).
  - destruct j; try done; [|by destruct (Ha l)|by destruct (Ho fields)]. cbn [plain reparse]. intros Hv. by rewrite utf8_clean_valid.
Qed.

(** ** Sorted objects *)

Definition field_order : string * json → string * json → Prop := key_lt fst str_lt.

Lemma sort_fields_Sorted fields : NoDup (fst <$> fields) → Sorted field_order (sort_fields fields).
Proof. apply (sort_by_key_Sorted fst str_lt); [apply str_lt_irrefl|apply str_lt_trans|apply str_lt_total]. Qed.

Lemma sort_fields_permutation fields fields' : NoDup (fst <$> fields) → fields ≡ₚ fields' → sort_fields fields = sort_fields fields'.
Proof.
  intros Hnd Hp. apply (key_lt_unique fst str_lt); [apply str_lt_irrefl|apply str_lt_trans|by apply sort_fields_Sorted| |].
  - apply sort_fields_Sorted. by rewrite <- Hp.
  - unfold sort_fields. by rewrite !sort_slice_Permutation.
Qed.

(** Sorting looks at keys only. *)
Lemma sort_fields_map (f : json → json) fields : NoDup (fst <$> fields) →
  sort_fields (List.map (λ p, (p.1, f p.2)) (sort_fields fields)) = sort_fields (List.map (λ p, (p.1, f p.2)) fields).
Proof.
  intros Hnd. symmetry. apply sort_fields_permutation.
  - rewrite <- list_fmap_compose. exact Hnd.
  - apply fmap_Permutation. symmetry. apply sort_slice_Permutation.
Qed.

Lemma sort_keys_fields fields : NoDup (fst <$> fields) → sort_keys (JObj (sort_fields fields)) = sort_keys (JObj fields).
Proof. intros Hnd. cbn. f_equal. by apply sort_fields_map. Qed.

Lemma sort_keys_idem j : plain j = true → sort_keys (sort_keys j) = sort_keys j.
Proof.
  induction j as [l IH|fields IH|j Ha Ho] using json_nested_ind; cbn [plain].
  - intros Hl. rewrite forallb_elem in Hl. cbn. f_equal. rewrite List.map_map. apply map_ext_on. auto.
  - intros [Hnd%bool_decide_eq_true Hf]%andb_true_iff. rewrite forallb_elem in Hf.
    assert (Hnd' : NoDup (fst <$> List.map (λ f, (f.1, sort_keys f.2)) fields)) by (rewrite <- list_fmap_compose; exact Hnd).
    change (sort_keys (JObj fields)) with (JObj (sort_fields (List.map (λ f, (f.1, sort_keys f.2)) fields))).
    rewrite (sort_keys_fields _ Hnd'). cbn. do 2 f_equal. rewrite List.map_map. apply map_ext_on. intros [k v] Hin. cbn.
    specialize (Hf _ Hin). apply andb_true_iff in Hf as [_ Hv]. f_equal. by apply (IH (k, v)).
  - destruct j; done || (exfalso; by eapply Ha) || (exfalso; by eapply Ho).
Qed.

Lemma plain_object fields : plain (JObj fields) = true ↔
  NoDup (fst <$> fields) ∧ ∀ f, f ∈ fields → ValidString f.1 = true ∧ plain f.2 = true.
Proof.
  cbn [plain]. rewrite andb_true_iff, bool_decide_eq_true, forallb_elem. by setoid_rewrite andb_true_iff.
Qed.

Lemma plain_permutation fields fields' : fields ≡ₚ fields' → plain (JObj fields) = true → plain (JObj fields') = true.
Proof. intros Hp. rewrite !plain_object. by setoid_rewrite Hp. Qed.

Lemma plain_sort_keys j : plain j = true → plain (sort_keys j) = true.
Proof.
  induction j as [l IH|fields IH|j Ha Ho] using json_nested_ind.
  - cbn [plain sort_keys]. rewrite !forallb_elem. intros Hl x Hx. change (List.map sort_keys l) with (sort_keys <$> l) in Hx.
    apply list_elem_of_fmap in Hx as (y & -> & Hy). auto.
  - intros [Hnd Hf]%plain_object. apply (plain_permutation (List.map (λ f, (f.1, sort_keys f.2)) fields));
      [symmetry; apply sort_slice_Permutation|].
    apply plain_object. split; [rewrite <- list_fmap_compose; exact Hnd|]. intros f Hx.
    change (List.map ?g fields) with (g <$> fields) in Hx. apply list_elem_of_fmap in Hx as (g & -> & Hg).
    destruct (Hf g Hg) as [? ?]. split; [done|]. cbn. by apply IH.
  - destruct j; done || (exfalso; by eapply Ha) || (exfalso; by eapply Ho).
Qed.
