(* ===== verification/Cir.v ===== *)
(** * Conversation documents

    Models [cir.go], [cir_version.go], [canonical_event_json.go] and the document part of
    [hash.go] ([cli/internal/domain]): events with their union of fields by kind, the
    versions that may carry them, the effective context after a compaction, and the canonical
    bytes whose hash names a document.

    An [Event] is its own fields and, at a compaction boundary, its replacement events.
    Values of type [any] ([Input], [Output]) are [json] trees whose objects are Go maps.
    [encoding/json]'s limit on nesting is not modelled. *)
From stdpp Require Import pretty.
From S2P Require Import Prelude GoStrings Utf8 GoJson Sha256 Values Catalog CanonicalJson.
From Stdlib Require Import Ascii.

Definition EventTurn : string := "turn".
Definition EventMessage : string := "message".
Definition EventToolCall : string := "tool_call".
Definition EventToolResult : string := "tool_result".
Definition EventReasoning : string := "reasoning".
Definition EventCompaction : string := "compaction".

Record ContentBlock := MkBlock { cb_Type : string; cb_Text : string }.
Record LockedBlob := MkLocked { lb_Provider : string; lb_Scheme : string; lb_Blob : string }.

(** [CreateTime] is a [json.Number]: a text, which marshals as [0] when it is empty. *)
Record ProviderMetadata := MkMetadata { pm_TurnID : string; pm_CreateTime : option string }.

Record EventFields := MkFields {
  f_Kind : string; f_ID : string; f_Ts : string; f_Seq : Z; f_ProviderMetadata : option ProviderMetadata;
  f_presence : N; f_Role : string; f_Blocks : slice ContentBlock; f_CompactSummary : bool; f_AgentMessage : bool;
  f_AgentAuthor : string; f_AgentRecipient : string; f_ReplacementComplete : bool; f_CallID : string; f_ToolName : string;
  f_ProviderToolName : string; f_Input : option (list (string * json)); f_Status : string; f_Output : option json;
  f_IsError : bool; f_Locked : option LockedBlob; f_RedactedSummary : string; f_CrossReplayable : bool }.

Inductive Event : Type := MkEvent (fields : EventFields) (replacement : option (list Event)).

Definition fields (e : Event) : EventFields := match e with MkEvent f _ => f end.
Definition Replacement (e : Event) : slice Event := match e with MkEvent _ r => r end.
Definition Kind (e : Event) : string := f_Kind (fields e).
Definition Seq (e : Event) : Z := f_Seq (fields e).

Record Envelope := MkEnvelope {
  env_CIRVersion : string; env_SourceProvider : string; env_SourceModel : string; env_CapturedAt : string; env_Cwd : string;
  env_GitBranch : string; env_SessionOriginID : string; env_Fidelity : string; env_ContextTokens : Z; env_OutputTokens : Z;
  env_SourceModels : slice string; env_CompactionCount : Z }.

Record CIRDocument := MkDocument { doc_Envelope : Envelope; doc_Events : list Event }.

(** ** Which fields were present *)

Definition eventFieldProviderMetadata : N := 1.
Definition eventFieldAgentMessage : N := 2.
Definition eventFieldAgentAuthor : N := 4.
Definition eventFieldAgentRecipient : N := 8.
Definition eventFieldReplacement : N := 16.
Definition eventFieldReplacementComplete : N := 32.
Definition eventFieldLocked : N := 64.

Definition eventV2PresenceMask : N :=
  foldr N.lor 0%N [eventFieldProviderMetadata; eventFieldAgentMessage; eventFieldAgentAuthor; eventFieldAgentRecipient;
                   eventFieldReplacement; eventFieldReplacementComplete].

(** [e.fieldPresence&mask != 0] *)
Definition present (f : EventFields) (mask : N) : bool := negb (N.land (f_presence f) mask =? 0)%N.

Definition presence_table : list (string * N) :=
  [("provider_metadata", eventFieldProviderMetadata); ("agent_message", eventFieldAgentMessage);
   ("agent_author", eventFieldAgentAuthor); ("agent_recipient", eventFieldAgentRecipient);
   ("replacement", eventFieldReplacement); ("replacement_complete", eventFieldReplacementComplete);
   ("locked", eventFieldLocked)].

Definition eventPresence (names : list string) : N :=
  fold_left (λ bits entry, if bool_decide (entry.1 ∈ names) then N.lor bits entry.2 else bits) presence_table 0%N.

Definition is_some {A} (o : option A) : bool := match o with Some _ => true | None => false end.

Definition validateKindFieldPresence (e : Event) : result unit :=
  let f := fields e in
  reject_if (negb (is_some (f_ProviderMetadata f)) && present f eventFieldProviderMetadata) ErrUnclassified ;;
  reject_if ((f_Kind f <>? EventCompaction) &&
             (is_some (Replacement e) || f_ReplacementComplete f ||
              present f (N.lor eventFieldReplacement eventFieldReplacementComplete))) ErrUnclassified ;;
  reject_if ((f_Kind f <>? EventMessage) &&
             (f_AgentMessage f || (f_AgentAuthor f <>? "") || (f_AgentRecipient f <>? "") ||
              present f (N.lor (N.lor eventFieldAgentMessage eventFieldAgentAuthor) eventFieldAgentRecipient))) ErrUnclassified ;;
  reject_if ((f_Kind f =? EventMessage) && negb (f_AgentMessage f) &&
             ((f_AgentAuthor f <>? "") || (f_AgentRecipient f <>? "") || is_some (f_Locked f) ||
              present f (N.lor (N.lor eventFieldAgentAuthor eventFieldAgentRecipient) eventFieldLocked))) ErrUnclassified ;;
  reject_if ((f_Kind f <>? EventMessage) && (f_Kind f <>? EventReasoning) && (f_Kind f <>? EventCompaction) &&
             (is_some (f_Locked f) || present f eventFieldLocked)) ErrUnclassified ;;
  reject_if (present f eventFieldLocked && negb (is_some (f_Locked f))) ErrUnclassified.

(** ** The JSON of an event *)

(** What [eventJSONObject] puts into its map, by Go type. *)
Inductive field_value : Type :=
  | VPlain (j : json)
  | VBlocks (l : list ContentBlock)
  | VMetadata (m : ProviderMetadata)
  | VLocked (b : LockedBlob)
  | VEvents (l : list Event).

Definition put (name : string) (v : field_value) : list (string * field_value) := [(name, v)].
Definition put_str (name s : string) : list (string * field_value) := put name (VPlain (JStr s)).
Definition put_if (c : bool) (l : list (string * field_value)) : list (string * field_value) := if c then l else [].
Definition put_locked (o : option LockedBlob) : list (string * field_value) :=
  match o with Some b => put "locked" (VLocked b) | None => [] end.

Definition common_fields (f : EventFields) : list (string * field_value) :=
  put_str "kind" (f_Kind f) ++ put "seq" (VPlain (JInt (f_Seq f))) ++ put_if (f_ID f <>? "") (put_str "id" (f_ID f)) ++
  put_if (f_Ts f <>? "") (put_str "ts" (f_Ts f)) ++
  match f_ProviderMetadata f with Some m => put "provider_metadata" (VMetadata m) | None => [] end.

Definition message_fields (f : EventFields) : list (string * field_value) :=
  put_str "role" (f_Role f) ++ put "blocks" (VBlocks (elems (f_Blocks f))) ++
  put_if (f_CompactSummary f) (put "compact_summary" (VPlain (JBool true))) ++
  put_if (f_AgentMessage f || present f eventFieldAgentMessage)
    (put "agent_message" (VPlain (JBool (f_AgentMessage f))) ++
     put_if ((f_AgentAuthor f <>? "") || present f eventFieldAgentAuthor) (put_str "agent_author" (f_AgentAuthor f)) ++
     put_if ((f_AgentRecipient f <>? "") || present f eventFieldAgentRecipient) (put_str "agent_recipient" (f_AgentRecipient f)) ++
     put_locked (f_Locked f)).

Definition tool_call_fields (f : EventFields) : list (string * field_value) :=
  put_str "call_id" (f_CallID f) ++ put_str "tool_name" (f_ToolName f) ++
  put_if (f_ProviderToolName f <>? "") (put_str "provider_tool_name" (f_ProviderToolName f)) ++
  put "input" (VPlain (JObj (default [] (f_Input f)))) ++ put_if (f_Status f <>? "") (put_str "status" (f_Status f)).

Definition tool_result_fields (f : EventFields) : list (string * field_value) :=
  put_str "call_id" (f_CallID f) ++ put "output" (VPlain (default (JStr "") (f_Output f))) ++
  put_if (f_IsError f) (put "is_error" (VPlain (JBool true))).

Definition reasoning_fields (f : EventFields) : list (string * field_value) :=
  put_locked (f_Locked f) ++ put_if (f_RedactedSummary f <>? "") (put_str "redacted_summary" (f_RedactedSummary f)) ++
  put "cross_replayable" (VPlain (JBool false)).

Definition compaction_fields (f : EventFields) (r : slice Event) : result (list (string * field_value)) :=
  reject_if (is_some r && is_some (f_Locked f)) ErrUnclassified ;;
  let out := match r with
             | Some l => put "replacement" (VEvents l) ++ put "replacement_complete" (VPlain (JBool (f_ReplacementComplete f)))
             | None => []
             end ++ put_locked (f_Locked f) in
  reject_if (negb (is_some r) && negb (is_some (f_Locked f))) ErrUnclassified ;;
  Ok out.

Definition eventJSONObject (e : Event) : result (list (string * field_value)) :=
  validateKindFieldPresence e ;;
  let f := fields e in
  payload ← (if f_Kind f =? EventTurn then Ok (put_str "role" (f_Role f))
             else if f_Kind f =? EventMessage then Ok (message_fields f)
             else if f_Kind f =? EventToolCall then Ok (tool_call_fields f)
             else if f_Kind f =? EventToolResult then Ok (tool_result_fields f)
             else if f_Kind f =? EventReasoning then Ok (reasoning_fields f)
             else if f_Kind f =? EventCompaction then compaction_fields f (Replacement e)
             else Err ErrUnclassified);
  Ok (common_fields f ++ payload).

(** *** Marshalling *)

Fixpoint sequence {A} (l : list (result A)) : result (list A) :=
  match l with
  | [] => Ok []
  | r :: l => a ← r; rest ← sequence l; Ok (a :: rest)
  end.

Fixpoint drop_digits (s : string) : string :=
  match s with
  | String c r => if is_digit c then drop_digits r else s
  | EmptyString => ""
  end.

Definition strip_sign (s : string) : string :=
  match s with
  | String c r => if String c "" =? "-" then r else s
  | EmptyString => ""
  end.

(** [encoding/json]'s [isValidNumber], from the end of the number to its beginning. *)
Definition valid_exponent (s : string) : bool :=
  match s with
  | String e (String c r) =>
      if (String e "" =? "e") || (String e "" =? "E") then
        if (String c "" =? "+") || (String c "" =? "-") then (r <>? "") && (drop_digits r =? "")
        else drop_digits (String c r) =? ""
      else false
  | _ => s =? ""
  end.

Definition valid_fraction (s : string) : bool :=
  match s with
  | String p (String d r) =>
      if (String p "" =? ".") && is_digit d then valid_exponent (drop_digits r) else valid_exponent s
  | _ => valid_exponent s
  end.

Definition isValidNumber (s : string) : bool :=
  match strip_sign s with
  | String c r => if String c "" =? "0" then valid_fraction r
                  else if is_digit c then valid_fraction (drop_digits r) else false
  | EmptyString => false
  end.

(** A [json.Number] as [json.Marshal] writes it. *)
Definition number_json (n : string) : result json :=
  let text := if n =? "" then "0" else n in
  reject_if (negb (isValidNumber text)) ErrUnclassified ;; Ok (JNum text).

Definition metadata_json (m : ProviderMetadata) : result json :=
  create ← match pm_CreateTime m with
           | Some n => j ← number_json n; Ok (field "create_time" j)
           | None => Ok []
           end;
  Ok (JObj (str_omitempty "turn_id" (pm_TurnID m) ++ create)).

(** A value as [json.Marshal] writes it: structs in declaration order, maps sorted.  The only
    events are the replacement, whose marshalling is [nested]. *)
Definition marshal_value (nested : result (list json)) (v : field_value) : result json :=
  match v with
  | VPlain j => Ok (sort_keys j)
  | VBlocks l => Ok (JArr ((λ b, JObj (str_field "type" (cb_Type b) ++ str_field "text" (cb_Text b))) <$> l))
  | VMetadata m => metadata_json m
  | VLocked b => Ok (JObj (str_field "provider" (lb_Provider b) ++ str_field "scheme" (lb_Scheme b) ++ str_field "blob" (lb_Blob b)))
  | VEvents _ => l ← nested; Ok (JArr l)
  end.

Definition marshal_fields (value : field_value → result json) (m : list (string * field_value)) : result (list (string * json)) :=
  sequence ((λ p, j ← value p.2; Ok (p.1, j)) <$> m).

(** [Event.MarshalJSON] *)
Fixpoint marshal_event (e : Event) : result json :=
  match e with
  | MkEvent f r =>
      let nested := sequence (match r with Some l => List.map marshal_event l | None => [] end) in
      m ← eventJSONObject (MkEvent f r);
      out ← marshal_fields (marshal_value nested) m;
      Ok (JObj (sort_fields out))
  end.

(** *** The canonical object of an already decoded event *)

Definition canonical_value (nested : result (list json)) (v : field_value) : result json :=
  match v with
  | VPlain j => Ok j
  | VBlocks l => Ok (JArr ((λ b, JObj (str_field "type" (cb_Type b) ++ str_field "text" (cb_Text b))) <$> l))
  | VMetadata m => metadata_json m
  | VLocked b => Ok (JObj (str_field "provider" (lb_Provider b) ++ str_field "scheme" (lb_Scheme b) ++ str_field "blob" (lb_Blob b)))
  | VEvents _ => l ← nested; Ok (JArr l)
  end.

Fixpoint canonicalEventJSONObject (e : Event) : result json :=
  match e with
  | MkEvent f r =>
      let nested := sequence (match r with Some l => List.map canonicalEventJSONObject l | None => [] end) in
      m ← eventJSONObject (MkEvent f r);
      out ← marshal_fields (canonical_value nested) m;
      Ok (JObj out)
  end.

(** Every object here is a map, so [json.Marshal] sorts them all. *)
Definition canonicalDecodedEventJSON (e : Event) : result string :=
  j ← canonicalEventJSONObject e; Ok (encode (sort_keys j)).

(** [canonicalJSON(event)] *)
Definition canonicalEventJSON (e : Event) : result string := j ← marshal_event e; Ok (canonicalJSON j).

(** ** Canonical bytes *)

(** [sort.SliceStable] by [Seq]: an event goes before the first one that is not less. *)
Fixpoint insert_stable (e : Event) (l : list Event) : list Event :=
  match l with
  | [] => [e]
  | x :: rest => if (Seq x <? Seq e)%Z then x :: insert_stable e rest else e :: l
  end.

Definition sort_stable (l : list Event) : list Event := foldr insert_stable [] l.

Fixpoint canonicalEvent (e : Event) : Event :=
  match e with
  | MkEvent f r => MkEvent f (match r with Some l => Some (sort_stable (List.map canonicalEvent l)) | None => None end)
  end.

Definition canonicalEvents (events : list Event) : list Event := sort_stable (canonicalEvent <$> events).

Definition int_omitempty (name : string) (z : Z) : list (string * json) := omitempty (z =? 0)%Z name (JInt z).

Definition envelope_json (v : Envelope) : json :=
  JObj (str_field "cir_version" (env_CIRVersion v) ++ str_field "source_provider" (env_SourceProvider v) ++
        str_field "source_model" (env_SourceModel v) ++ str_field "captured_at" (env_CapturedAt v) ++
        str_field "cwd" (env_Cwd v) ++ str_field "git_branch" (env_GitBranch v) ++
        str_field "session_origin_id" (env_SessionOriginID v) ++ str_field "fidelity" (env_Fidelity v) ++
        int_omitempty "context_tokens" (env_ContextTokens v) ++ int_omitempty "output_tokens" (env_OutputTokens v) ++
        list_omitempty JStr "source_models" (elems (env_SourceModels v)) ++
        int_omitempty "compaction_count" (env_CompactionCount v)).

(** ** Versions *)

Definition CIRVersionV1 : string := "1".
Definition CIRVersionV2 : string := "2".
Definition SupportedCIRVersions : list string := [CIRVersionV1; CIRVersionV2].

Definition SupportsCIRVersion (versions : list string) (version : string) : bool := existsb (λ c, c =? version) versions.

(** An event that only version 2 can carry, its replacement aside. *)
Definition fields_require_v2 (f : EventFields) (r : slice Event) : bool :=
  (f_Kind f =? EventCompaction) || f_AgentMessage f || (f_AgentAuthor f <>? "") || (f_AgentRecipient f <>? "") ||
  is_some (f_ProviderMetadata f) || ((f_Kind f =? EventMessage) && is_some (f_Locked f)) || is_some r ||
  f_ReplacementComplete f || present f eventV2PresenceMask || ((f_Kind f =? EventMessage) && present f eventFieldLocked).

Fixpoint event_requires_v2 (e : Event) : bool :=
  match e with
  | MkEvent f r => fields_require_v2 f r || match r with Some l => existsb event_requires_v2 l | None => false end
  end.

Definition eventsRequireCIRV2 (events : list Event) : bool := existsb event_requires_v2 events.

Definition CIRVersionForEvents (events : list Event) : string :=
  if eventsRequireCIRV2 events then CIRVersionV2 else CIRVersionV1.

Definition ValidateCIRVersion (doc : CIRDocument) : result unit :=
  let version := env_CIRVersion (doc_Envelope doc) in
  if (version =? "") || (version =? CIRVersionV1) then reject_if (eventsRequireCIRV2 (doc_Events doc)) ErrInvalidCIR
  else if version =? CIRVersionV2 then Ok tt
  else Err ErrUnsupportedCIRVersion.

(** ** Documents *)

Definition document_text (envelope : string) (events : list string) : string :=
  "{" +:+ encode_string "envelope" +:+ ":" +:+ envelope +:+ "," +:+ encode_string "events" +:+ ":[" +:+ Join events "," +:+ "]}".

Definition CanonicalBytes (doc : CIRDocument) : result string :=
  ValidateCIRVersion doc ;;
  let env := canonicalJSON (envelope_json (doc_Envelope doc)) in
  events ← sequence (canonicalEventJSON <$> canonicalEvents (doc_Events doc));
  Ok (document_text env events).

Record SessionDoc := MkSessionDoc { sd_Hash : string; sd_Identity : string; sd_CIR : CIRDocument }.

Definition ValidateSessionDocHash (doc : SessionDoc) : result unit :=
  ValidateContentHash (sd_Hash doc) ;;
  reject_if (sd_Identity doc <>? "") ErrUnsupportedDocumentIdentity ;;
  canonical ← CanonicalBytes (sd_CIR doc);
  reject_if (HashContent canonical <>? sd_Hash doc) ErrHashMismatch.

(** ** The effective context *)

Definition is_boundary (e : Event) : bool := (Kind e =? EventCompaction) && is_some (Replacement e).

(** The index of the latest boundary; [-1] when there is none. *)
Definition latest_boundary (events : list Event) : Z :=
  (fold_left (λ st e, (st.1 + 1, if is_boundary e then st.1 else st.2)%Z) events (0, -1)%Z).2.

Definition latestCompactionBoundary (d : CIRDocument) : Z * bool :=
  let latest := latest_boundary (doc_Events d) in
  if (latest <? 0)%Z then (-1, false)%Z
  else (latest, from_option (λ e, f_ReplacementComplete (fields e)) false (doc_Events d !! Z.to_nat latest)).

Definition with_Seq (e : Event) (seq : Z) : Event :=
  match e with
  | MkEvent f r => MkEvent (MkFields (f_Kind f) (f_ID f) (f_Ts f) seq (f_ProviderMetadata f) (f_presence f) (f_Role f) (f_Blocks f)
      (f_CompactSummary f) (f_AgentMessage f) (f_AgentAuthor f) (f_AgentRecipient f) (f_ReplacementComplete f) (f_CallID f)
      (f_ToolName f) (f_ProviderToolName f) (f_Input f) (f_Status f) (f_Output f) (f_IsError f) (f_Locked f)
      (f_RedactedSummary f) (f_CrossReplayable f)) r
  end.

Definition renumber (l : list Event) : list Event := imap (λ i e, with_Seq e (Z.of_nat i)) l.

Definition EffectiveContext (d : CIRDocument) : CIRDocument :=
  let '(latest, complete) := latestCompactionBoundary d in
  if (latest <? 0)%Z || negb complete then d
  else
    let replacement := from_option (λ e, elems (Replacement e)) [] (doc_Events d !! Z.to_nat latest) in
    MkDocument (doc_Envelope d) (renumber (replacement ++ drop (S (Z.to_nat latest)) (doc_Events d))).

Definition LatestCompactionReplacementCount (d : CIRDocument) : Z * bool :=
  let '(latest, complete) := latestCompactionBoundary d in
  if (latest <? 0)%Z || negb complete then (0, false)%Z
  else (Z.of_nat (length (from_option (λ e, elems (Replacement e)) [] (doc_Events d !! Z.to_nat latest))), true).

Definition HasCompleteCompactionBoundary (d : CIRDocument) : bool := (LatestCompactionReplacementCount d).2.

Definition OrderedModels (v : Envelope) : slice string :=
  match elems (env_SourceModels v) with
  | [] => if env_SourceModel v =? "" then None else Some [env_SourceModel v]
  | models =>
      match (if env_SourceModel v =? "" then [] else [env_SourceModel v]) ++
            filter (λ m, m ≠ env_SourceModel v) (reverse models) with
      | [] => None
      | out => Some out
      end
  end.

(** * Properties *)

(** Induction through the replacements. *)
Lemma Event_nested_ind (P : Event → Prop) :
  (∀ f, P (MkEvent f None)) → (∀ f l, (∀ e, e ∈ l → P e) → P (MkEvent f (Some l))) → ∀ e, P e.
Proof.
  intros Hnone Hsome. fix IH 1. intros [f [l|]]; [|apply Hnone]. apply Hsome.
  induction l as [|e l IHl]; [intros e He; destruct (proj1 (elem_of_nil e) He)|].
  intros e' [->|He]%elem_of_cons; [exact (IH e)|by apply IHl].
Qed.

(** ** The decoded event's serializer *)

(** Trees that differ in the order of keys only. *)
Definition same_keys (j k : json) : Prop := sort_keys j = sort_keys k.

(** Two computations that fail alike or give trees related by [R]. *)
Inductive alike {A B} (R : A → B → Prop) : result A → result B → Prop :=
  | alike_Ok a b : R a b → alike R (Ok a) (Ok b)
  | alike_Err e : alike R (Err e) (Err e).

Lemma alike_bind {A B A' B'} (R : A → B → Prop) (R' : A' → B' → Prop) r s f g : alike R r s →
  (∀ a b, R a b → alike R' (f a) (g b)) → alike R' (a ← r; f a) (b ← s; g b).
Proof. intros [a b Hab|e] Hfg; cbn; [by apply Hfg|constructor]. Qed.

Lemma alike_sequence {A B} (R : A → B → Prop) l k : Forall2 (alike R) l k → alike (Forall2 R) (sequence l) (sequence k).
Proof.
  induction 1 as [|r s l k Hr _ IH]; cbn; [repeat constructor|]. eapply alike_bind; [exact Hr|]. intros a b Hab.
  eapply alike_bind; [exact IH|]. intros l' k' Hl. by repeat constructor.
Qed.

Definition same_field (p q : string * json) : Prop := p.1 = q.1 ∧ same_keys p.2 q.2.

Lemma marshal_fields_alike f g m : (∀ p, p ∈ m → alike same_keys (f p.2) (g p.2)) →
  alike (Forall2 same_field) (marshal_fields f m) (marshal_fields g m).
Proof.
  intros Hfg. unfold marshal_fields. apply alike_sequence. induction m as [|p m IH]; cbn; constructor.
  - eapply alike_bind; [apply Hfg; left|]. intros a b Hab. by constructor.
  - apply IH. intros q Hq. apply Hfg. by right.
Qed.

Lemma same_fields_map l k : Forall2 same_field l k →
  List.map (λ p, (p.1, sort_keys p.2)) l = List.map (λ p, (p.1, sort_keys p.2)) k.
Proof. induction 1 as [|p q l k [H1 H2] _ IH]; [done|]. cbn. by rewrite H1, H2, IH. Qed.

Lemma same_fields_keys l k : Forall2 same_field l k → fst <$> l = fst <$> k.
Proof. induction 1 as [|p q l k [H1 _] _ IH]; [done|]. cbn. by rewrite H1, IH. Qed.

Lemma same_elements l k : Forall2 same_keys l k → same_keys (JArr l) (JArr k).
Proof.
  intros Hl. unfold same_keys. cbn. f_equal. induction Hl as [|a b l k Hab _ IH]; [done|]. cbn. by rewrite Hab, IH.
Qed.

(** Marshalling keeps the keys of the map. *)
Lemma marshal_fields_keys f m out : marshal_fields f m = Ok out → fst <$> out = fst <$> m.
Proof.
  revert out. unfold marshal_fields. induction m as [|p m IH]; intros out; cbn; [by intros [= <-]|].
  destruct (f p.2) as [j|]; cbn; [|done]. destruct (sequence _) as [rest|]; cbn; [|done]. intros [= <-]. cbn. f_equal. by apply IH.
Qed.

(** The keys of the union are distinct: a subsequence of those its kind may have. *)
Ltac sub_keys := repeat first
  [ rewrite fmap_app
  | apply sublist_app
  | reflexivity
  | apply sublist_nil_l
  | match goal with
    | |- context [put_if ?c ?l] => destruct c; [change (put_if true l) with l|change (put_if false l) with (@nil (string * field_value))]
    | |- context [match ?o with Some _ => _ | None => _ end] => destruct o
    end ].

Definition common_keys : list string := ["kind"] ++ ["seq"] ++ ["id"] ++ ["ts"] ++ ["provider_metadata"].
Definition message_keys : list string :=
  ["role"] ++ ["blocks"] ++ ["compact_summary"] ++ ["agent_message"] ++ ["agent_author"] ++ ["agent_recipient"] ++ ["locked"].
Definition tool_call_keys : list string := ["call_id"] ++ ["tool_name"] ++ ["provider_tool_name"] ++ ["input"] ++ ["status"].
Definition tool_result_keys : list string := ["call_id"] ++ ["output"] ++ ["is_error"].
Definition reasoning_keys : list string := ["locked"] ++ ["redacted_summary"] ++ ["cross_replayable"].
Definition compaction_keys : list string := (["replacement"] ++ ["replacement_complete"]) ++ ["locked"].

Lemma common_keys_sub f : (common_fields f).*1 `sublist_of` common_keys.
Proof. unfold common_fields, common_keys, put_str. sub_keys. Qed.

Lemma message_keys_sub f : (message_fields f).*1 `sublist_of` message_keys.
Proof. unfold message_fields, message_keys, put_str, put_locked. sub_keys. Qed.

Lemma tool_call_keys_sub f : (tool_call_fields f).*1 `sublist_of` tool_call_keys.
Proof. unfold tool_call_fields, tool_call_keys, put_str. sub_keys. Qed.

Lemma tool_result_keys_sub f : (tool_result_fields f).*1 `sublist_of` tool_result_keys.
Proof. unfold tool_result_fields, tool_result_keys, put_str. sub_keys. Qed.

Lemma reasoning_keys_sub f : (reasoning_fields f).*1 `sublist_of` reasoning_keys.
Proof. unfold reasoning_fields, reasoning_keys, put_str, put_locked. sub_keys. Qed.

Lemma compaction_keys_sub f r out : compaction_fields f r = Ok out → out.*1 `sublist_of` compaction_keys.
Proof.
  unfold compaction_fields. intros Hc. apply bind_Ok in Hc as ([] & _ & Hc). apply bind_Ok in Hc as ([] & _ & Hc).
  injection Hc as <-. unfold compaction_keys, put_locked. sub_keys.
Qed.

Lemma eventJSONObject_keys e m : eventJSONObject e = Ok m → NoDup (fst <$> m).
Proof.
  unfold eventJSONObject. intros Hm. apply bind_Ok in Hm as ([] & _ & Hm). apply bind_Ok in Hm as (payload & Hp & Hm).
  assert (m = common_fields (fields e) ++ payload) as -> by congruence. rewrite fmap_app.
  assert (∃ keys, payload.*1 `sublist_of` keys ∧ NoDup (common_keys ++ keys)) as (keys & Hk & Hnd).
  { repeat match type of Hp with (if ?c then _ else _) = _ => destruct c end; try discriminate.
    1-5: injection Hp as <-.
    - exists ["role"]. split; [reflexivity|compute_decision].
    - exists message_keys. split; [apply message_keys_sub|compute_decision].
    - exists tool_call_keys. split; [apply tool_call_keys_sub|compute_decision].
    - exists tool_result_keys. split; [apply tool_result_keys_sub|compute_decision].
    - exists reasoning_keys. split; [apply reasoning_keys_sub|compute_decision].
    - exists compaction_keys. split; [by eapply compaction_keys_sub|compute_decision]. }
  eapply sublist_NoDup; [exact Hnd|]. apply sublist_app; [apply common_keys_sub|done].
Qed.

(** Values as the JSON decoder leaves them. *)
Definition plain_fields (f : EventFields) : bool :=
  plain (JObj (default [] (f_Input f))) && plain (default (JStr "") (f_Output f)) &&
  forallb ValidString [f_Kind f; f_ID f; f_Ts f; f_Role f; f_AgentAuthor f; f_AgentRecipient f; f_CallID f; f_ToolName f;
                       f_ProviderToolName f; f_Status f; f_RedactedSummary f] &&
  forallb (λ b, ValidString (cb_Type b) && ValidString (cb_Text b)) (elems (f_Blocks f)) &&
  from_option (λ m, ValidString (pm_TurnID m)) true (f_ProviderMetadata f) &&
  from_option (λ b, forallb ValidString [lb_Provider b; lb_Scheme b; lb_Blob b]) true (f_Locked f).

Fixpoint plain_event (e : Event) : bool :=
  match e with
  | MkEvent f r => plain_fields f && match r with Some l => forallb plain_event l | None => true end
  end.

(** A value the union emits. *)
Definition plain_value (v : field_value) : bool :=
  match v with
  | VPlain j => plain j
  | VBlocks l => forallb (λ b, ValidString (cb_Type b) && ValidString (cb_Text b)) l
  | VMetadata m => ValidString (pm_TurnID m)
  | VLocked b => forallb ValidString [lb_Provider b; lb_Scheme b; lb_Blob b]
  | VEvents _ => true
  end.

Definition emitted (r : slice Event) (p : string * field_value) : Prop :=
  ValidString p.1 = true ∧ plain_value p.2 = true ∧ ∀ l, p.2 = VEvents l → r = Some l.

Lemma emit_one r name v : ValidString name = true → plain_value v = true → (∀ l, v = VEvents l → r = Some l) → Forall (emitted r) (put name v).
Proof. intros Hn Hv Hr. constructor; [by split|constructor]. Qed.

Lemma emit_if r c l : Forall (emitted r) l → Forall (emitted r) (put_if c l).
Proof. by destruct c. Qed.

Lemma emit_locked r o : from_option (λ b, forallb ValidString [lb_Provider b; lb_Scheme b; lb_Blob b]) true o = true →
  Forall (emitted r) (put_locked o).
Proof. destruct o as [b|]; intros Hb; [|constructor]. by apply emit_one. Qed.

Ltac emit := repeat first
  [ apply Forall_app; split | apply emit_if | apply emit_locked; assumption
  | apply emit_one; [reflexivity|first [assumption|reflexivity]|discriminate] | constructor ].

Lemma eventJSONObject_plain e m : eventJSONObject e = Ok m → plain_fields (fields e) = true → Forall (emitted (Replacement e)) m.
Proof.
  unfold eventJSONObject. intros Hm Hp. apply bind_Ok in Hm as ([] & _ & Hm). apply bind_Ok in Hm as (payload & Hf & Hm).
  assert (m = common_fields (fields e) ++ payload) as -> by congruence. clear Hm. unfold plain_fields in Hp.
  rewrite !andb_true_iff in Hp. destruct Hp as [[[[[Hin Hout] Hs] Hb] Hmd] Hl]. cbn [forallb] in Hs.
  rewrite !andb_true_iff in Hs. destruct Hs as (? & ? & ? & ? & ? & ? & ? & ? & ? & ? & ? & _).
  apply Forall_app. split.
  - unfold common_fields, put_str. emit. destruct (f_ProviderMetadata (fields e)); [|constructor]. by apply emit_one.
  - repeat match type of Hf with (if ?c then _ else _) = _ => destruct c end; try discriminate.
    1-5: injection Hf as <-.
    1: unfold put_str; emit.
    1: unfold message_fields, put_str; emit.
    1: unfold tool_call_fields, put_str; emit.
    1: unfold tool_result_fields, put_str; emit.
    1: unfold reasoning_fields, put_str; emit.
    unfold compaction_fields in Hf. apply bind_Ok in Hf as ([] & _ & Hf). apply bind_Ok in Hf as ([] & _ & Hf).
    injection Hf as <-. destruct (Replacement e) as [l|]; [|emit].
    apply Forall_app. split; [|emit]. apply Forall_cons. split; [split_and!; [done..|by intros l' [= ->]]|emit].
Qed.

(** Marshalling a value and converting it for the canonical map agree up to the order of keys. *)
Lemma value_alike nested nested' v : plain_value v = true → alike (Forall2 same_keys) nested nested' →
  alike same_keys (marshal_value nested v) (canonical_value nested' v).
Proof.
  intros Hv Hn. destruct v as [j|l|m|b|l]; cbn [marshal_value canonical_value].
  - constructor. by apply sort_keys_idem.
  - by constructor.
  - destruct (metadata_json m); by constructor.
  - by constructor.
  - eapply alike_bind; [exact Hn|]. intros a c Hac. constructor. by apply same_elements.
Qed.

Lemma event_alike e : plain_event e = true → alike same_keys (marshal_event e) (canonicalEventJSONObject e).
Proof.
  assert (Hgen : ∀ f r, plain_fields f = true →
    alike (Forall2 same_keys) (sequence (match r with Some l => List.map marshal_event l | None => [] end))
      (sequence (match r with Some l => List.map canonicalEventJSONObject l | None => [] end)) →
    alike same_keys (marshal_event (MkEvent f r)) (canonicalEventJSONObject (MkEvent f r))).
  { intros f r Hf Hn. cbn [marshal_event canonicalEventJSONObject].
    destruct (eventJSONObject (MkEvent f r)) as [m|err] eqn:Hm; cbn [mbind result_bind]; [|constructor].
    pose proof (eventJSONObject_keys _ _ Hm) as Hk. pose proof (eventJSONObject_plain _ _ Hm Hf) as He. rewrite Forall_forall in He.
    revert Hn. generalize (sequence (match r with Some l => List.map canonicalEventJSONObject l | None => [] end)). intros n2.
    generalize (sequence (match r with Some l => List.map marshal_event l | None => [] end)). intros n1 Hn.
    assert (Ha : alike (Forall2 same_field) (marshal_fields (marshal_value n1) m) (marshal_fields (canonical_value n2) m)).
    { apply marshal_fields_alike. intros p Hp. apply value_alike; [by apply He|exact Hn]. }
    destruct (marshal_fields (marshal_value n1) m) as [out|] eqn:Ho; inversion Ha as [? out' Hs|]; subst; cbn [mbind result_bind];
      [|constructor].
    constructor. unfold same_keys. apply marshal_fields_keys in Ho. rewrite <- Ho in Hk. rewrite (sort_keys_fields _ Hk). cbn.
    by rewrite (same_fields_map _ _ Hs). }
  induction e as [f|f l IH] using Event_nested_ind; cbn [plain_event]; intros [Hf Hl]%andb_true_iff.
  - apply Hgen; [done|]. cbn. repeat constructor.
  - apply Hgen; [done|]. apply alike_sequence. rewrite forallb_elem in Hl.
    assert (Hall : ∀ e, e ∈ l → alike same_keys (marshal_event e) (canonicalEventJSONObject e)) by auto. clear - Hall.
    induction l as [|e l IH]; cbn; constructor; [apply Hall; left|]. apply IH. intros x Hx. apply Hall. by right.
Qed.

(** What marshalling writes can be parsed back unchanged. *)
Lemma sequence_Forall {A} (P : A → Prop) (l : list (result A)) out :
  sequence l = Ok out → (∀ r a, r ∈ l → r = Ok a → P a) → Forall P out.
Proof.
  revert out. induction l as [|r l IH]; intros out; cbn; [intros [= <-]; constructor|].
  destruct r as [a|]; cbn; [|done]. destruct (sequence l) as [rest|]; cbn; [|done]. intros [= <-] Hall.
  constructor; [apply (Hall (Ok a)); [left|done]|]. apply IH; [done|]. intros r' a' Hr. apply Hall. by right.
Qed.

Lemma value_plain nested v j : plain_value v = true → (∀ l, nested = Ok l → Forall (λ j, plain j = true) l) →
  marshal_value nested v = Ok j → plain j = true.
Proof.
  intros Hv Hn Hj. destruct v as [k|l|m|b|l]; cbn [marshal_value] in Hj.
  - assert (j = sort_keys k) as -> by congruence. by apply plain_sort_keys.
  - injection Hj as <-. cbn [plain]. cbn [plain_value] in Hv. rewrite forallb_elem in Hv. apply forallb_elem. intros x (b & -> & Hb)%list_elem_of_fmap.
    specialize (Hv b Hb). apply andb_true_iff in Hv as [H1 H2]. cbn. rewrite H1, H2. done.
  - unfold metadata_json in Hj. apply bind_Ok in Hj as (create & Hc & Hj).
    assert (create = [] ∨ ∃ t, create = field "create_time" (JNum t)) as Hcr.
    { destruct (pm_CreateTime m) as [n|]; [|left; congruence]. right. apply bind_Ok in Hc as (k & Hk & Hc).
      unfold number_json in Hk. apply bind_Ok in Hk as ([] & _ & Hk). injection Hk as <-. injection Hc as <-. eauto. }
    assert (j = JObj (str_omitempty "turn_id" (pm_TurnID m) ++ create)) as -> by congruence. clear Hj Hc. cbn [plain_value] in Hv.
    unfold str_omitempty, omitempty. apply plain_object.
    destruct (pm_TurnID m =? ""), Hcr as [->|[t ->]]; (split; [cbn; compute_decision|]); cbn; intros f Hf;
      repeat (apply elem_of_cons in Hf as [->|Hf]; [by split|]); by apply elem_of_nil in Hf.
  - injection Hj as <-. cbn in Hv. rewrite !andb_true_iff in Hv. destruct Hv as (H1 & H2 & H3 & _). cbn. by rewrite H1, H2, H3.
  - apply bind_Ok in Hj as (l' & Hl & Hj). injection Hj as <-. cbn. apply forallb_elem. specialize (Hn _ Hl).
    by rewrite Forall_forall in Hn.
Qed.

Lemma marshal_event_plain e j : plain_event e = true → marshal_event e = Ok j → plain j = true.
Proof.
  assert (Hgen : ∀ f r j, plain_fields f = true →
    (∀ l, sequence (match r with Some l => List.map marshal_event l | None => [] end) = Ok l → Forall (λ j, plain j = true) l) →
    marshal_event (MkEvent f r) = Ok j → plain j = true).
  { intros f r k Hf Hn Hk. cbn [marshal_event] in Hk. apply bind_Ok in Hk as (m & Hm & Hk). apply bind_Ok in Hk as (out & Ho & Hk).
    assert (k = JObj (sort_fields out)) as -> by congruence.
    apply (plain_permutation out); [symmetry; apply sort_slice_Permutation|]. apply plain_object.
    pose proof (eventJSONObject_keys _ _ Hm) as Hnd. rewrite <- (marshal_fields_keys _ _ _ Ho) in Hnd. split; [done|].
    pose proof (eventJSONObject_plain _ _ Hm Hf) as He. rewrite Forall_forall in He. apply Forall_forall.
    eapply sequence_Forall; [exact Ho|]. intros x a Hx ->. apply list_elem_of_fmap in Hx as (p & Hp & Hin).
    destruct (He p Hin) as (H1 & H2 & _). symmetry in Hp. apply bind_Ok in Hp as (v & Hv & Hp). injection Hp as <-.
    split; [done|]. by eapply value_plain. }
  revert j. induction e as [f|f l IH] using Event_nested_ind; cbn [plain_event]; intros j [Hf Hl]%andb_true_iff; apply Hgen; try done.
  - intros l [= <-]. constructor.
  - intros out Ho. eapply sequence_Forall; [exact Ho|]. intros r a Hr ->. change (List.map marshal_event l) with (marshal_event <$> l) in Hr.
    apply list_elem_of_fmap in Hr as (e & He & Hin). rewrite forallb_elem in Hl. by eapply IH; [exact Hin|apply Hl|].
Qed.

Lemma fast_path_eq e : plain_event e = true → canonicalDecodedEventJSON e = canonicalEventJSON e.
Proof.
  intros Hp. unfold canonicalDecodedEventJSON, canonicalEventJSON. pose proof (event_alike e Hp) as Ha.
  pose proof (marshal_event_plain e) as Hm. destruct (marshal_event e) as [j|err]; inversion Ha as [? k Hs|]; [|done].
  cbn. unfold canonicalJSON. rewrite (reparse_plain j (Hm j Hp eq_refl)). by rewrite Hs.
Qed.

(** ** Stable order *)

Definition seq_le (a b : Event) : Prop := (Seq a ≤ Seq b)%Z.

Lemma insert_stable_Permutation e l : insert_stable e l ≡ₚ e :: l.
Proof.
  induction l as [|x l IH]; [done|]. cbn. destruct (Seq x <? Seq e)%Z; [|done]. rewrite IH. constructor.
Qed.

Lemma sort_stable_Permutation l : sort_stable l ≡ₚ l.
Proof. induction l as [|e l IH]; [done|]. cbn. rewrite insert_stable_Permutation. by constructor. Qed.

Lemma insert_stable_Sorted e l : Sorted seq_le l → Sorted seq_le (insert_stable e l).
Proof.
  induction 1 as [|x l Hs IH Hhd]; cbn; [by repeat constructor|]. destruct (Z.ltb_spec (Seq x) (Seq e)) as [Hlt|Hge].
  - constructor; [done|]. destruct Hhd as [|y l Hxy]; cbn; [constructor; unfold seq_le; lia|].
    destruct (Seq y <? Seq e)%Z; constructor; [done|unfold seq_le; lia].
  - constructor; [by constructor|]. constructor. unfold seq_le. lia.
Qed.

Lemma sort_stable_Sorted l : Sorted seq_le (sort_stable l).
Proof. induction l as [|e l IH]; [constructor|]. cbn. by apply insert_stable_Sorted. Qed.

Lemma sort_stable_id l : Sorted seq_le l → sort_stable l = l.
Proof.
  induction 1 as [|x l Hs IH Hhd]; [done|]. cbn. unfold sort_stable in IH. rewrite IH. destruct Hhd as [|y l Hxy]; [done|]. cbn. unfold seq_le in Hxy.
  by destruct (Z.ltb_spec (Seq y) (Seq x)); [lia|].
Qed.

(** Events of one sequence number keep their order. *)
Lemma insert_stable_filter e l s :
  filter (λ x, Seq x = s) (insert_stable e l) = filter (λ x, Seq x = s) (e :: l).
Proof.
  induction l as [|x l IH]; [done|]. cbn [insert_stable]. destruct (Z.ltb_spec (Seq x) (Seq e)) as [Hlt|]; [|done].
  rewrite filter_cons, IH, !filter_cons. repeat case_decide; subst; [lia|done..].
Qed.

Lemma sort_stable_filter l s : filter (λ x, Seq x = s) (sort_stable l) = filter (λ x, Seq x = s) l.
Proof.
  induction l as [|e l IH]; [done|]. cbn [sort_stable foldr]. rewrite insert_stable_filter, !filter_cons.
  unfold sort_stable in IH. by rewrite IH.
Qed.

(** Two sorted lists whose classes agree are equal. *)
Lemma sorted_classes l k : Sorted seq_le l → Sorted seq_le k →
  (∀ s, filter (λ x, Seq x = s) l = filter (λ x, Seq x = s) k) → l = k.
Proof.
  assert (Transitive seq_le) by (intros a b c; unfold seq_le; lia).
  intros Hl%Sorted_StronglySorted Hk%Sorted_StronglySorted; [|done..].
  revert k Hk. induction Hl as [|x l Hl IH Hx]; intros k Hk Hf.
  { destruct k as [|y k]; [done|]. specialize (Hf (Seq y)). rewrite filter_nil, filter_cons_True in Hf by done. discriminate. }
  destruct Hk as [|y k Hk Hy]; [specialize (Hf (Seq x)); rewrite filter_nil, filter_cons_True in Hf by done; discriminate|].
  assert (Seq x = Seq y) as Hxy.
  { rewrite Forall_forall in Hx, Hy.
    assert (Hin : ∀ z l' z' k', filter (λ x, Seq x = Seq z) (z :: l') = filter (λ x, Seq x = Seq z) (z' :: k') → z ∈ z' :: k').
    { intros z l' z' k' Heq. rewrite filter_cons_True in Heq by done.
      assert (z ∈ filter (λ x, Seq x = Seq z) (z' :: k')) as [_ ?]%list_elem_of_filter by (rewrite <- Heq; left). done. }
    pose proof (Hin _ _ _ _ (Hf (Seq x))) as H1. pose proof (Hin _ _ _ _ (eq_sym (Hf (Seq y)))) as H2.
    apply elem_of_cons in H1 as [->|H1]; [done|]. apply elem_of_cons in H2 as [->|H2]; [done|].
    specialize (Hy _ H1). specialize (Hx _ H2). unfold seq_le in *. lia. }
  pose proof (Hf (Seq x)) as Hs. rewrite !filter_cons_True in Hs by done. injection Hs as -> Hs. f_equal. apply IH; [done|].
  intros s. specialize (Hf s). rewrite !filter_cons in Hf. case_decide; [by injection Hf|done].
Qed.

Lemma Seq_canonicalEvent e : Seq (canonicalEvent e) = Seq e.
Proof. by destruct e. Qed.

Lemma canonicalEvent_idem e : canonicalEvent (canonicalEvent e) = canonicalEvent e.
Proof.
  induction e as [f|f l IH] using Event_nested_ind; [done|]. cbn. do 2 f_equal.
  rewrite (map_id_on canonicalEvent); [apply sort_stable_id, sort_stable_Sorted|].
  intros e He. rewrite sort_stable_Permutation in He. change (List.map canonicalEvent l) with (canonicalEvent <$> l) in He.
  apply list_elem_of_fmap in He as (e' & -> & He). by apply IH.
Qed.

Lemma canonicalEvents_idem l : canonicalEvents (canonicalEvents l) = canonicalEvents l.
Proof.
  unfold canonicalEvents. change (canonicalEvent <$> sort_stable (canonicalEvent <$> l)) with (List.map canonicalEvent (sort_stable (canonicalEvent <$> l))).
  rewrite (map_id_on canonicalEvent); [apply sort_stable_id, sort_stable_Sorted|].
  intros e He. rewrite sort_stable_Permutation in He. apply list_elem_of_fmap in He as (e' & -> & He). apply canonicalEvent_idem.
Qed.

(** The order of events with different sequence numbers does not matter. *)
Lemma canonicalEvents_classes l k : (∀ s, filter (λ x, Seq x = s) l = filter (λ x, Seq x = s) k) →
  canonicalEvents l = canonicalEvents k.
Proof.
  intros Hf. assert (Hc : ∀ s (m : list Event), filter (λ x, Seq x = s) (canonicalEvent <$> m) = canonicalEvent <$> filter (λ x, Seq x = s) m).
  { intros s m. induction m as [|e m IH]; [done|]. cbn [fmap list_fmap]. rewrite !filter_cons, Seq_canonicalEvent, IH.
    by case_decide. }
  apply sorted_classes; [apply sort_stable_Sorted..|]. intros s. unfold canonicalEvents.
  by rewrite !sort_stable_filter, !Hc, Hf.
Qed.

(** ** Versions *)

Lemma event_requires_canonical e : event_requires_v2 (canonicalEvent e) = event_requires_v2 e.
Proof.
  induction e as [f|f l IH] using Event_nested_ind; [done|]. cbn. f_equal.
  rewrite (existsb_permutation _ _ _ (sort_stable_Permutation _)). apply eq_true_iff_eq. rewrite !existsb_elem. split.
  - intros (x & Hx & Hr). change (List.map canonicalEvent l) with (canonicalEvent <$> l) in Hx.
    apply list_elem_of_fmap in Hx as (e & -> & He). exists e. by rewrite <- IH.
  - intros (e & He & Hr). exists (canonicalEvent e). split; [by apply (list_elem_of_fmap_2 canonicalEvent)|by rewrite IH].
Qed.

Lemma requires_canonical l : eventsRequireCIRV2 (canonicalEvents l) = eventsRequireCIRV2 l.
Proof.
  unfold eventsRequireCIRV2, canonicalEvents. rewrite (existsb_permutation _ _ _ (sort_stable_Permutation _)).
  induction l as [|e l IH]; [done|]. cbn. by rewrite event_requires_canonical, IH.
Qed.

(** ** Boundaries *)

Lemma latest_boundary_spec events :
  (latest_boundary events = (-1)%Z ∧ Forall (λ e, is_boundary e = false) events) ∨
  ∃ pre b post, events = pre ++ b :: post ∧ latest_boundary events = Z.of_nat (length pre) ∧ is_boundary b = true ∧
    Forall (λ e, is_boundary e = false) post.
Proof.
  unfold latest_boundary. set (step := λ (st : Z * Z) e, ((st.1 + 1)%Z, if is_boundary e then st.1 else st.2)).
  assert (Hlen : ∀ l st, (fold_left step l st).1 = (st.1 + Z.of_nat (length l))%Z).
  { induction l as [|e l IH]; intros st; cbn [fold_left length]; [lia|]. rewrite IH. cbn [step fst]. lia. }
  induction events as [|e events IH] using rev_ind; [by left|]. rewrite fold_left_app. cbn [fold_left].
  unfold step at 1 3. cbn [snd]. rewrite Hlen. cbn [fst]. destruct (is_boundary e) eqn:He.
  - right. exists events, e, []. split_and!; [done|lia|done|constructor].
  - destruct IH as [[-> Hall]|(pre & b & post & -> & -> & Hb & Hall)].
    + left. split; [done|]. apply Forall_app. by repeat constructor.
    + right. exists pre, b, (post ++ [e]). split_and!; [by rewrite <- app_assoc|done|done|]. apply Forall_app. by repeat constructor.
Qed.

Lemma renumber_Seq l i e : renumber l !! i = Some e → Seq e = Z.of_nat i.
Proof.
  unfold renumber. rewrite list_lookup_imap. intros (x & _ & Hx)%fmap_Some. subst e. by destruct x.
Qed.

Lemma renumber_Sorted l : Sorted seq_le (renumber l).
Proof.
  unfold renumber. change (imap ?f l) with (imap (λ i e, with_Seq e (Z.of_nat (0 + i))) l). generalize 0.
  induction l as [|e l IH]; intros n; [constructor|]. rewrite imap_cons. constructor.
  - specialize (IH (S n)). erewrite imap_ext; [exact IH|]. intros i x _. cbn. by rewrite Nat.add_succ_r.
  - destruct l as [|x l]; [constructor|]. rewrite imap_cons. constructor. unfold seq_le. destruct e, x. cbn. lia.
Qed.

Lemma is_boundary_replacement b : is_boundary b = true → ∃ l, Replacement b = Some l.
Proof. unfold is_boundary. intros [_ Hr]%andb_true_iff. destruct (Replacement b); [eauto|done]. Qed.

(** * Samples *)

Module CirSamples.
Definition blank (kind : string) (seq : Z) : EventFields :=
  MkFields kind "" "" seq None 0 "" None false false "" "" false "" "" "" None "" None false None "" false.

Definition call : Event :=
  MkEvent (MkFields EventToolCall "c1" "" 3 (Some (MkMetadata "turn" (Some "12.5"))) 0 "" None false false "" "" false "call" "shell" ""
    (Some [("z", JArr [JInt 1; JNum "2.5"]); ("a", JObj [("y", JBool true); ("x", JStr "t")])]) "" None false None "" false) None.

Definition message (seq : Z) : Event :=
  MkEvent (MkFields EventMessage "" "" seq None 0 "user" (Some [MkBlock "text" "hello"]) false false "" "" false "" "" "" None "" None
    false None "" false) None.

Definition boundary : Event :=
  MkEvent (MkFields EventCompaction "" "" 5 None 0 "" None false false "" "" true "" "" "" None "" None false None "" false)
    (Some [call; message 1]).
End CirSamples.

(** * The claims *)

(** C34: The serializer of decoded events is the canonical one.  For every event whose texts are
    UTF-8 and whose payload maps have distinct keys, as the typed decoder leaves them,
    nested replacements included, the direct canonical serialization gives the same bytes as
    marshalling, parsing and marshalling again, and refuses the same events. *)
Theorem canonical_fast_path e : plain_event e = true → canonicalDecodedEventJSON e = canonicalEventJSON e.
Proof. apply fast_path_eq. Qed.

Lemma canonical_fast_path_witness : is_ok (canonicalEventJSON CirSamples.boundary) = true ∧
  canonicalDecodedEventJSON CirSamples.boundary = canonicalEventJSON CirSamples.boundary.
Proof. split; [vm_compute; reflexivity|]. apply canonical_fast_path. vm_compute. reflexivity. Defined.

(** The bytes that name a document depend on its events up to the stable order by sequence
    number: reordering events of different numbers, or storing the events already sorted,
    changes neither the bytes nor whether the document is accepted. *)
Theorem canonical_bytes_order env events events' :
  (∀ s, filter (λ e, Seq e = s) events = filter (λ e, Seq e = s) events') →
  CanonicalBytes (MkDocument env events) = CanonicalBytes (MkDocument env events') ∧
  CanonicalBytes (MkDocument env (canonicalEvents events)) = CanonicalBytes (MkDocument env events).
Proof.
  assert (Hgen : ∀ l k, canonicalEvents l = canonicalEvents k → CanonicalBytes (MkDocument env l) = CanonicalBytes (MkDocument env k)).
  { intros l k Heq. unfold CanonicalBytes, ValidateCIRVersion. cbn [doc_Events doc_Envelope].
    by rewrite <- (requires_canonical l), <- (requires_canonical k), Heq. }
  intros Hf. split; apply Hgen; [by apply canonicalEvents_classes|apply canonicalEvents_idem].
Qed.

Lemma canonical_bytes_order_witness : ∀ env,
  CanonicalBytes (MkDocument env [CirSamples.boundary; CirSamples.call; CirSamples.message 4]) =
  CanonicalBytes (MkDocument env [CirSamples.call; CirSamples.message 4; CirSamples.boundary]).
Proof.
  intros env. apply (canonical_bytes_order env [CirSamples.boundary; CirSamples.call; CirSamples.message 4]
    [CirSamples.call; CirSamples.message 4; CirSamples.boundary]).
  intros s. rewrite !filter_cons, !filter_nil. cbn. repeat case_decide; (lia || reflexivity).
Defined.

(** The effective context.  Without a compaction boundary it is the document itself, and so
    it is when the latest boundary's replacement is incomplete.  Otherwise it is exactly the
    latest boundary's replacement followed by the events after that boundary, numbered from
    zero, so that the codec's sort keeps them in place; nothing before the boundary remains. *)
Theorem effective_context_exact d :
  (Forall (λ e, is_boundary e = false) (doc_Events d) ∧ EffectiveContext d = d ∧ HasCompleteCompactionBoundary d = false) ∨
  ∃ pre b replacement post, doc_Events d = pre ++ b :: post ∧ is_boundary b = true ∧ Replacement b = Some replacement ∧
    Forall (λ e, is_boundary e = false) post ∧
    HasCompleteCompactionBoundary d = f_ReplacementComplete (fields b) ∧
    if f_ReplacementComplete (fields b)
    then EffectiveContext d = MkDocument (doc_Envelope d) (renumber (replacement ++ post)) ∧
         LatestCompactionReplacementCount d = (Z.of_nat (length replacement), true) ∧
         sort_stable (doc_Events (EffectiveContext d)) = doc_Events (EffectiveContext d) ∧
         (∀ i e, doc_Events (EffectiveContext d) !! i = Some e → Seq e = Z.of_nat i)
    else EffectiveContext d = d.
Proof.
  unfold HasCompleteCompactionBoundary, EffectiveContext, LatestCompactionReplacementCount, latestCompactionBoundary.
  destruct (latest_boundary_spec (doc_Events d)) as [[-> Hall]|(pre & b & post & Hd & -> & Hb & Hall)]; [by left|right].
  destruct (is_boundary_replacement b Hb) as [l Hl]. exists pre, b, l, post.
  assert (Hlk : doc_Events d !! Z.to_nat (Z.of_nat (length pre)) = Some b).
  { rewrite Hd, Nat2Z.id. by apply list_lookup_middle. }
  assert ((Z.of_nat (length pre) <? 0)%Z = false) as Hn by (apply Z.ltb_ge; lia).
  rewrite Hn, Hlk. cbn [from_option]. rewrite Hn, Hl. cbn [orb]. split_and!; [done..| |].
  - by destruct (f_ReplacementComplete (fields b)).
  - destruct (f_ReplacementComplete (fields b)); [|done]. cbn [negb elems default doc_Events].
    replace (drop (S (Z.to_nat (Z.of_nat (length pre)))) (doc_Events d)) with post.
    2:{ rewrite Hd, Nat2Z.id. rewrite (cons_middle b pre post), app_assoc. rewrite drop_app_length'; [done|]. rewrite length_app. cbn. lia. }
    split_and!; [done|done|apply sort_stable_id, renumber_Sorted|]. intros i e. apply renumber_Seq.
Qed.

(** The version a document needs.  A list of events is accepted under the version chosen for
    it; version 1 is accepted exactly for events that do not need version 2, and version 2
    always; and putting the events into canonical order does not change which. *)
Theorem cir_version_least env events :
  let at_version v := ValidateCIRVersion (MkDocument (MkEnvelope v (env_SourceProvider env) (env_SourceModel env) (env_CapturedAt env)
    (env_Cwd env) (env_GitBranch env) (env_SessionOriginID env) (env_Fidelity env) (env_ContextTokens env) (env_OutputTokens env)
    (env_SourceModels env) (env_CompactionCount env)) events) in
  at_version (CIRVersionForEvents events) = Ok tt ∧ at_version CIRVersionV2 = Ok tt ∧
  (at_version CIRVersionV1 = Ok tt ↔ CIRVersionForEvents events = CIRVersionV1) ∧
  (∀ v, v ≠ "" → v ∉ SupportedCIRVersions → at_version v = Err ErrUnsupportedCIRVersion) ∧
  CIRVersionForEvents (canonicalEvents events) = CIRVersionForEvents events.
Proof.
  cbn zeta. unfold CIRVersionForEvents. rewrite requires_canonical. unfold ValidateCIRVersion. cbn [doc_Envelope doc_Events env_CIRVersion].
  split_and!; [| | |intros v Hne Hv|done].
  - by destruct (eventsRequireCIRV2 events) eqn:E; cbn; rewrite ?E.
  - done.
  - cbn. by destruct (eventsRequireCIRV2 events).
  - rewrite !bool_decide_false; [done|..]; [| |done]; intros ->; apply Hv; unfold SupportedCIRVersions; set_solver.
Qed.
