(* ===== verification/Documents.v ===== *)
(** * Documents and their identities

    Models [conversation_manifest_cir.go], [conversation_manifest_build.go],
    [document_identity.go] and [context_diff.go] ([cli/internal/domain]): the typed checks of a
    manifest's envelope and events, the manifest built from a document, the two identities of
    a document, and the comparison of two documents of one session.  The manifest verifier of
    [EventScanner] is used with these typed checks in place of its parameters.

    [json.Unmarshal] into an [Event] and into an [Envelope] is the class [CirDecoder]. *)
From stdpp Require Import pretty.
From S2P Require Import Prelude GoStrings Utf8 GoJson Sha256 Values Catalog CanonicalJson Cir EventProofs EventScanner EventReuse.
From Stdlib Require Import Ascii.

Class CirDecoder := { decode_event : string → option Event; decode_envelope : string → option Envelope }.

(** What typed decoding leaves: texts are UTF-8 and objects have distinct keys. *)
Class PlainDecoder `{CirDecoder} : Prop := decoded_plain raw e : decode_event raw = Some e → plain_event e = true.

Definition version_envelope (version : string) : Envelope := MkEnvelope version "" "" "" "" "" "" "" 0 0 None 0.

Section documents.
Context `{CirDecoder}.

(** ** The typed checks *)

Definition conversationManifestEnvelope (raw : string) : result string :=
  match decode_envelope raw with
  | Some env =>
      reject_if ((env_CIRVersion env <>? CIRVersionV1) && (env_CIRVersion env <>? CIRVersionV2)) ErrConversationManifest ;;
      reject_if (raw <>? canonicalJSON (envelope_json env)) ErrConversationManifest ;;
      Ok (env_CIRVersion env)
  | None => Err ErrConversationManifest
  end.

Definition conversationManifestEvent (version raw : string) : result Z :=
  match decode_event raw with
  | Some e =>
      ValidateCIRVersion (MkDocument (version_envelope version) [e]) ;;
      match canonicalEvents [e] with
      | e :: _ =>
          canonical ← or_else (canonicalDecodedEventJSON e) ErrConversationManifest;
          reject_if (canonical <>? raw) ErrConversationManifest ;;
          Ok (Seq e)
      | [] => Err ErrConversationManifest
      end
  | None => Err ErrConversationManifest
  end.

(** ** Building a manifest *)

(** The bodies of [stream] in order; [fuel] bounds the number of chunks. *)
Fixpoint chunk_bodies (fuel : nat) (stream : string) : list string :=
  match fuel with
  | O => []
  | S fuel =>
      if stream =? "" then []
      else let n := Z.to_nat ConversationManifestChunkBytes in take_chars n stream :: chunk_bodies fuel (drop_chars n stream)
  end.

Definition body_chunk (body : string) : ConversationManifestChunk := MkChunk (HashContent body) (zlen body).

Definition body_map (bodies : list string) : gmap string string :=
  fold_left (λ m body, <[HashContent body := body]> m) bodies ∅.

(** [bodies\[hash\]]: no bytes for a hash that is not there. *)
Definition load_body (bodies : gmap string string) (hash : string) : result string := Ok (default "" (bodies !! hash)).

Definition conversation_frame (envelope stream : string) : string :=
  conversationDocPrefix +:+ envelope +:+ conversationDocMiddle +:+ stream +:+ conversationDocSuffix.

Definition manifest_prefix (envelope : string) : string := conversationDocPrefix +:+ envelope +:+ conversationDocMiddle.

(** The events between the frame of the canonical bytes. *)
Definition manifest_stream (envelope canonical : string) : result string :=
  reject_if (negb (HasPrefix canonical (manifest_prefix envelope)) || negb (HasSuffix canonical conversationDocSuffix))
    ErrConversationManifest ;;
  Ok (take_chars (String.length canonical - String.length conversationDocSuffix - String.length (manifest_prefix envelope))
        (drop_chars (String.length (manifest_prefix envelope)) canonical)).

(** The manifest over the chunks, verified against them. *)
Definition manifest_over (envelope : string) (count : Z) (list : list string) : result (ConversationManifest * gmap string string) :=
  manifest ← NewConversationManifest conversationManifestEnvelope envelope (Some (body_chunk <$> list)) count;
  root ← ConversationManifestHash conversationManifestEnvelope manifest;
  VerifyConversationManifest conversationManifestEvent conversationManifestEnvelope root manifest (Some (load_body (body_map list))) ;;
  Ok (manifest, body_map list).

Definition canonical_envelope (doc : CIRDocument) : string := canonicalJSON (envelope_json (doc_Envelope doc)).

Definition ConversationManifestForCIR (doc : CIRDocument) : result (ConversationManifest * gmap string string) :=
  reject_if (MaxConversationManifestBytes <? zlen (canonical_envelope doc))%Z ErrConversationManifest ;;
  conversationManifestEnvelope (canonical_envelope doc) ;;
  canonical ← or_else (CanonicalBytes doc) ErrConversationManifest;
  reject_if (MaxConversationDocumentBytes <? zlen canonical)%Z ErrConversationManifest ;;
  stream ← manifest_stream (canonical_envelope doc) canonical;
  manifest_over (canonical_envelope doc) (Z.of_nat (length (doc_Events doc))) (chunk_bodies (String.length stream) stream).

(** ** Identities *)

Definition DocumentRef : Type := string * string.

Definition DocumentRef_check (ref : DocumentRef) : result unit :=
  DocumentIdentity_Validate ref.2 ;; ValidateContentHash ref.1.

Definition SessionDoc_DocumentRef (doc : SessionDoc) : DocumentRef := (sd_Hash doc, sd_Identity doc).

Definition validateRootSessionDoc (doc : SessionDoc) : result unit :=
  built ← ConversationManifestForCIR (sd_CIR doc);
  got ← ConversationManifestHash conversationManifestEnvelope built.1;
  reject_if (got <>? sd_Hash doc) ErrHashMismatch.

Definition VerifySessionDocIdentity (doc : SessionDoc) : result unit :=
  DocumentRef_check (SessionDoc_DocumentRef doc) ;;
  if sd_Identity doc =? "" then ValidateSessionDocHash doc else validateRootSessionDoc doc.

(** ** Comparing two documents *)

Record EventRange := MkRange { er_Start : nat; er_End : nat; er_Kinds : gmap string Z }.

Definition count_kind (kinds : gmap string Z) (e : Event) : gmap string Z := <[Kind e := (default 0 (kinds !! Kind e) + 1)%Z]> kinds.

Definition eventRange (events : list Event) (start stop : nat) : EventRange :=
  MkRange start stop (fold_left count_kind (take (stop - start) (drop start events)) ∅).

(** The fields that the comparison fills in. *)
Record ContextChange := MkChange {
  cg_CountsKnown : bool; cg_Provider : string; cg_SessionID : string; cg_BeforeIdentity : string; cg_AfterIdentity : string;
  cg_Before : string; cg_After : string; cg_State : string; cg_BeforeEvents : nat; cg_AfterEvents : nat;
  cg_Added : EventRange; cg_Removed : EventRange }.

(** The loop over the common prefix. *)
Fixpoint common_prefix (prior next : list Event) : result nat :=
  match prior, next with
  | p :: prior, n :: next =>
      a ← canonicalEventJSON p;
      b ← canonicalEventJSON n;
      if a <>? b then Ok 0 else common ← common_prefix prior next; Ok (S common)
  | _, _ => Ok 0
  end.

Definition change_state (common prior next : nat) : string :=
  if (common =? prior)%nat && (common =? next)%nat then "unchanged"
  else if (common =? prior)%nat then "extended"
  else if (common =? next)%nat then "older_observation"
  else "replacement".

Definition CompareContextDocuments (before : option SessionDoc) (after : SessionDoc) : result ContextChange :=
  let env := doc_Envelope (sd_CIR after) in
  let provider := env_SourceProvider env in
  let session := env_SessionOriginID env in
  VerifySessionDocIdentity after ;;
  reject_if (session =? "") ErrHashMismatch ;;
  let next := canonicalEvents (doc_Events (sd_CIR after)) in
  match before with
  | None =>
      Ok (MkChange true provider session "" (sd_Identity after) "" (sd_Hash after) "new_source" 0 (length next)
            (eventRange next 0 (length next)) (eventRange [] 0 0))
  | Some before =>
      VerifySessionDocIdentity before ;;
      let benv := doc_Envelope (sd_CIR before) in
      reject_if ((env_SourceProvider benv <>? provider) || (env_SessionOriginID benv <>? session)) ErrHashMismatch ;;
      let prior := canonicalEvents (doc_Events (sd_CIR before)) in
      common ← common_prefix prior next;
      Ok (MkChange true provider session (sd_Identity before) (sd_Identity after) (sd_Hash before) (sd_Hash after)
            (change_state common (length prior) (length next)) (length prior) (length next)
            (eventRange next common (length next)) (eventRange prior common (length prior)))
  end.
End documents.

(** * Properties *)

(** ** Accepted events *)

Lemma plain_canonicalEvent e : plain_event (canonicalEvent e) = plain_event e.
Proof.
  induction e as [f|f l IH] using Event_nested_ind; [done|]. cbn. f_equal. apply eq_true_iff_eq. rewrite !forallb_elem. split.
  - intros Hall e He. rewrite <- IH by done. apply Hall. rewrite sort_stable_Permutation. by apply (list_elem_of_fmap_2 canonicalEvent).
  - intros Hall x Hx. rewrite sort_stable_Permutation in Hx. change (List.map canonicalEvent l) with (canonicalEvent <$> l) in Hx.
    apply list_elem_of_fmap in Hx as (e & -> & He). rewrite IH by done. by apply Hall.
Qed.

Lemma document_frame env events : document_text env events = conversation_frame env (Join events ",").
Proof. reflexivity. Qed.

Section accepted.
Context `{PlainDecoder}.

(** The event a text decodes to, with its sequence number. *)
Definition decodes (version raw : string) (e : Event) : Prop :=
  decode_event raw = Some e ∧ ValidateCIRVersion (MkDocument (version_envelope version) [e]) = Ok tt ∧
  canonicalEventJSON (canonicalEvent e) = Ok raw.

Lemma event_check_Ok version raw q : conversationManifestEvent version raw = Ok q → ∃ e, decodes version raw e ∧ Seq e = q.
Proof.
  unfold conversationManifestEvent. destruct (decode_event raw) as [e|] eqn:Hd; [|done]. intros Hc.
  apply bind_Ok in Hc as ([] & Hv & Hc). change (canonicalEvents [e]) with [canonicalEvent e] in Hc.
  apply bind_Ok in Hc as (canonical & Hj%or_else_Ok & Hc). apply bind_Ok in Hc as ([] & He%reject_if_Ok & Hc).
  apply negb_false_iff, bool_decide_eq_true in He as ->. rewrite Seq_canonicalEvent in Hc. exists e. split; [|congruence].
  split_and!; [done|done|]. rewrite <- fast_path_eq; [done|]. rewrite plain_canonicalEvent. by eapply decoded_plain.
Qed.

Lemma decoded_events version raws seqs : Forall2 (checked conversationManifestEvent version) raws seqs →
  ∃ es, Forall2 (decodes version) raws es ∧ Seq <$> es = seqs.
Proof.
  induction 1 as [|raw q raws seqs (_ & _ & (e & He & Hs)%event_check_Ok) _ (es & Hes & IH)]; [by exists []|].
  exists (e :: es). split; [by constructor|]. cbn. by rewrite Hs, IH.
Qed.

Lemma nondecreasing_Sorted es p : nondecreasing p (Seq <$> es) → Sorted seq_le es.
Proof.
  revert p. induction es as [|e es IH]; intros p; [constructor|]. cbn. intros [_ Hn]. constructor; [by eapply IH|].
  destruct es as [|e' es]; constructor. cbn in Hn. unfold seq_le. tauto.
Qed.

(** The version admits a list of events when it admits each. *)
Lemma version_events version raws es env : version = CIRVersionV1 ∨ version = CIRVersionV2 → env_CIRVersion env = version →
  Forall2 (decodes version) raws es → ValidateCIRVersion (MkDocument env es) = Ok tt.
Proof.
  unfold ValidateCIRVersion. intros Hv Henv Hes. cbn [doc_Envelope doc_Events]. rewrite Henv.
  destruct Hv as [->| ->]; [|done]. cbn. assert (eventsRequireCIRV2 es = false) as ->; [|done]. unfold eventsRequireCIRV2.
  induction Hes as [|raw e raws es (_ & He & _) _ IH]; [done|]. cbn. rewrite IH, orb_false_r.
  unfold ValidateCIRVersion in He. cbn in He. rewrite orb_false_r in He. by destruct (event_requires_v2 e).
Qed.

Lemma decodes_sequence version raws es : Forall2 (decodes version) raws es →
  sequence (canonicalEventJSON <$> (canonicalEvent <$> es)) = Ok raws.
Proof.
  induction 1 as [|raw e raws es (_ & _ & He) _ IH]; [done|]. cbn [fmap list_fmap sequence]. rewrite He. cbn [mbind result_bind].
  by rewrite IH.
Qed.

Lemma canonical_sorted es : Sorted seq_le es → canonicalEvents es = canonicalEvent <$> es.
Proof.
  intros Hs. apply sort_stable_id. induction Hs as [|e es Hs IH Hhd]; [constructor|]. constructor; [done|].
  destruct Hhd; constructor. unfold seq_le in *. by rewrite !Seq_canonicalEvent.
Qed.

Lemma envelope_check_Ok raw version : conversationManifestEnvelope raw = Ok version →
  ∃ env, decode_envelope raw = Some env ∧ env_CIRVersion env = version ∧ (version = CIRVersionV1 ∨ version = CIRVersionV2) ∧
    canonicalJSON (envelope_json env) = raw.
Proof.
  unfold conversationManifestEnvelope. destruct (decode_envelope raw) as [env|]; [|done]. intros Hc.
  apply bind_Ok in Hc as ([] & Hv%reject_if_Ok & Hc). apply bind_Ok in Hc as ([] & Hr%reject_if_Ok & Hc).
  apply negb_false_iff, bool_decide_eq_true in Hr as ->. exists env. split_and!; [done|congruence| |done].
  assert (version = env_CIRVersion env) as -> by congruence.
  apply andb_false_iff in Hv as [Hv|Hv]; apply negb_false_iff, bool_decide_eq_true in Hv; tauto.
Qed.
End accepted.

(** ** Chunks *)

Lemma take_drop_chars n s : take_chars n s +:+ drop_chars n s = s.
Proof. revert n. induction s as [|c s IH]; intros [|n]; cbn; try done. by rewrite IH. Qed.

Lemma drop_chars_length n s : String.length (drop_chars n s) = String.length s - n.
Proof. revert n. induction s as [|c s IH]; intros [|n]; cbn; try done. Qed.

Lemma chunk_bodies_Concat fuel s : String.length s ≤ fuel → Concat (chunk_bodies fuel s) = s.
Proof.
  revert s. induction fuel as [|fuel IH]; intros s Hf; cbn [chunk_bodies].
  { destruct s; [done|]. cbn in Hf. lia. }
  case_bool_decide as Hs; [by subst|]. assert (Hn : 0 < Z.to_nat ConversationManifestChunkBytes) by (unfold ConversationManifestChunkBytes; lia).
  revert Hn. generalize (Z.to_nat ConversationManifestChunkBytes). intros n Hn. cbn [Concat foldr].
  fold (Concat (chunk_bodies fuel (drop_chars n s))). rewrite IH; [apply take_drop_chars|].
  rewrite drop_chars_length. destruct s; [done|]. cbn in *. lia.
Qed.

(** Two texts with one SHA-256. *)
Definition hash_collision : Prop := ∃ x y, x ≠ y ∧ HashContent x = HashContent y.

Lemma body_map_lookup l b : b ∈ l → hash_collision ∨ body_map l !! HashContent b = Some b.
Proof.
  intros Hb. assert (Hinv : (∀ h x, body_map l !! h = Some x → HashContent x = h) ∧
    ∀ x, x ∈ l → is_Some (body_map l !! HashContent x)).
  { unfold body_map. clear Hb. induction l as [|y l IH] using rev_ind.
    { split; [intros h x Hx; cbn in Hx; by rewrite lookup_empty in Hx|by intros x ?%elem_of_nil]. }
    rewrite fold_left_app. cbn [fold_left]. destruct IH as [H1 H2]. split.
    - intros h x [[<- <-]|[_ Hx]]%lookup_insert_Some; [done|]. by apply H1.
    - intros x [Hx| ->%list_elem_of_singleton]%elem_of_app; apply lookup_insert_is_Some'; [right; by apply H2|by left]. }
  destruct Hinv as [H1 H2]. destruct (H2 b Hb) as [x Hx]. destruct (decide (x = b)) as [->|Hne]; [by right|].
  left. exists x, b. split; [done|]. by apply H1.
Qed.

(** ** Building *)

(** What is between the prefix and the suffix of a framed text. *)
Lemma frame_stream env stream out : manifest_stream env (conversation_frame env stream) = Ok out → out = stream.
Proof.
  assert (Heq : conversation_frame env stream = manifest_prefix env +:+ (stream +:+ conversationDocSuffix)).
  { unfold conversation_frame, manifest_prefix. by rewrite <- !string_app_assoc. }
  unfold manifest_stream. intros Hs. apply bind_Ok in Hs as ([] & _ & Hs). rewrite Heq, drop_chars_app, !length_app_string in Hs.
  replace (_ - _ - _) with (String.length stream) in Hs by lia. rewrite take_chars_app in Hs. congruence.
Qed.

Lemma sequence_length {A} (l : list (result A)) out : sequence l = Ok out → length out = length l.
Proof.
  revert out. induction l as [|r l IH]; intros out; cbn; [by intros [= <-]|]. destruct r as [a|]; cbn; [|done].
  destruct (sequence l) as [rest|]; cbn; [|done]. intros [= <-]. cbn. by rewrite (IH rest).
Qed.

Lemma CanonicalBytes_Ok doc bytes : CanonicalBytes doc = Ok bytes ↔
  ValidateCIRVersion doc = Ok tt ∧ ∃ texts, sequence (canonicalEventJSON <$> canonicalEvents (doc_Events doc)) = Ok texts ∧
    bytes = conversation_frame (canonicalJSON (envelope_json (doc_Envelope doc))) (Join texts ",").
Proof.
  unfold CanonicalBytes. split.
  - intros Hc. apply bind_Ok in Hc as ([] & Hv & Hc). apply bind_Ok in Hc as (texts & Ht & Hc). split; [done|].
    exists texts. split; [done|]. rewrite <- document_frame. congruence.
  - intros (Hv & texts & Ht & ->). rewrite Hv. cbn [mbind result_bind]. rewrite Ht. cbn [mbind result_bind]. by rewrite document_frame.
Qed.

Section build.
Context `{CirDecoder}.

Lemma NewManifest_Ok env chunks count m : NewConversationManifest conversationManifestEnvelope env (Some chunks) count = Ok m →
  cm_Envelope m = env ∧ cm_Chunks m = Some chunks ∧ cm_EventCount m = count.
Proof.
  unfold NewConversationManifest. intros Hm. apply bind_Ok in Hm as ([] & _ & Hm). apply bind_Ok in Hm as (total & _ & Hm).
  apply bind_Ok in Hm as ([] & _ & Hm). injection Hm as <-. done.
Qed.

Lemma manifest_over_Ok env count list m bodies : manifest_over env count list = Ok (m, bodies) →
  cm_Envelope m = env ∧ cm_EventCount m = count ∧ cm_Chunks m = Some (body_chunk <$> list) ∧ bodies = body_map list ∧
  ∃ root, ConversationManifestHash conversationManifestEnvelope m = Ok root ∧
    VerifyConversationManifest conversationManifestEvent conversationManifestEnvelope root m (Some (load_body bodies)) = Ok tt.
Proof.
  unfold manifest_over. intros Hc. apply bind_Ok in Hc as (m' & (He & Hch & Hn)%NewManifest_Ok & Hc).
  apply bind_Ok in Hc as (root & Hr & Hc). apply bind_Ok in Hc as ([] & Hv & Hc).
  assert (m' = m ∧ body_map list = bodies) as [-> <-] by (split; congruence). split_and!; [done..|]. by exists root.
Qed.

Lemma ForCIR_Ok doc m bodies : ConversationManifestForCIR doc = Ok (m, bodies) →
  ∃ texts, ValidateCIRVersion doc = Ok tt ∧ sequence (canonicalEventJSON <$> canonicalEvents (doc_Events doc)) = Ok texts ∧
    cm_Envelope m = canonical_envelope doc ∧ cm_EventCount m = Z.of_nat (length (doc_Events doc)) ∧
    (∃ root, ConversationManifestHash conversationManifestEnvelope m = Ok root ∧
      VerifyConversationManifest conversationManifestEvent conversationManifestEnvelope root m (Some (load_body bodies)) = Ok tt) ∧
    ∃ list, cm_Chunks m = Some (body_chunk <$> list) ∧ bodies = body_map list ∧ Concat list = Join texts ",".
Proof.
  unfold ConversationManifestForCIR. intros Hc. apply bind_Ok in Hc as ([] & _ & Hc). apply bind_Ok in Hc as (version & _ & Hc).
  apply bind_Ok in Hc as (canonical & Hb%or_else_Ok & Hc). apply bind_Ok in Hc as ([] & _ & Hc).
  apply bind_Ok in Hc as (stream & Hs & Hc). apply CanonicalBytes_Ok in Hb as (Hv & texts & Ht & ->).
  apply frame_stream in Hs as ->. apply manifest_over_Ok in Hc as (He & Hn & Hch & Hbm & Hroot).
  exists texts. split_and!; [done..|]. eexists. split_and!; [exact Hch|exact Hbm|by apply chunk_bodies_Concat].
Qed.

(** Either identity proves that the document has canonical bytes. *)
Lemma legacy_texts doc : ValidateSessionDocHash doc = Ok tt → ∃ bytes, CanonicalBytes (sd_CIR doc) = Ok bytes.
Proof.
  unfold ValidateSessionDocHash. intros Hv. apply bind_Ok in Hv as ([] & _ & Hv). apply bind_Ok in Hv as ([] & _ & Hv).
  apply bind_Ok in Hv as (c & Hc & _). by exists c.
Qed.

Lemma root_texts doc : validateRootSessionDoc doc = Ok tt → ∃ built, ConversationManifestForCIR (sd_CIR doc) = Ok built.
Proof. unfold validateRootSessionDoc. intros Hv. apply bind_Ok in Hv as (built & Hb & _). by exists built. Qed.

Lemma verified_texts doc : VerifySessionDocIdentity doc = Ok tt →
  ∃ texts, sequence (canonicalEventJSON <$> canonicalEvents (doc_Events (sd_CIR doc))) = Ok texts.
Proof.
  unfold VerifySessionDocIdentity. intros Hv. apply bind_Ok in Hv as ([] & _ & Hv). destruct (sd_Identity doc =? "").
  - apply legacy_texts in Hv as (c & (_ & texts & Ht & _)%CanonicalBytes_Ok). by exists texts.
  - apply root_texts in Hv as ([m bodies] & (texts & _ & Ht & _)%ForCIR_Ok). by exists texts.
Qed.

(** ** The common prefix *)

Lemma common_prefix_exact prior next P N :
  sequence (canonicalEventJSON <$> prior) = Ok P → sequence (canonicalEventJSON <$> next) = Ok N →
  ∃ k, common_prefix prior next = Ok k ∧ k ≤ length P ∧ k ≤ length N ∧ take k P = take k N ∧
    (k < length P → k < length N → P !! k ≠ N !! k).
Proof.
  revert next P N. induction prior as [|p prior IH]; intros next P N HP HN.
  { injection HP as <-. exists 0. cbn. split_and!; [done..|lia|done|lia]. }
  destruct next as [|n next]; [injection HN as <-; exists 0; cbn; split_and!; [done|lia..|done|lia]|].
  cbn [fmap list_fmap sequence] in HP, HN. apply bind_Ok in HP as (a & Ha & HP). apply bind_Ok in HP as (P' & HP' & HP).
  apply bind_Ok in HN as (b & Hb & HN). apply bind_Ok in HN as (N' & HN' & HN). injection HP as <-. injection HN as <-.
  cbn [common_prefix]. rewrite Ha, Hb. cbn [mbind result_bind]. case_bool_decide as Hab; cbn [negb].
  - subst b. destruct (IH next P' N' HP' HN') as (k & -> & H1 & H2 & H3 & H4). exists (S k). cbn. split_and!; [done|lia|lia|by rewrite H3|].
    intros ? ?. apply H4; lia.
  - exists 0. cbn. split_and!; [done|lia|lia|done|]. intros _ _ [= ?]. done.
Qed.
End build.

(** What the length of the longest common prefix says. *)
Lemma longest_prefix (P N : list string) k : k ≤ length P → k ≤ length N → take k P = take k N →
  (k < length P → k < length N → P !! k ≠ N !! k) →
  (∀ j, j ≤ length P → j ≤ length N → take j P = take j N → j ≤ k) ∧
  (k = length P ↔ P `prefix_of` N) ∧ (k = length N ↔ N `prefix_of` P).
Proof.
  intros HP HN Heq Hne.
  assert (Hmax : ∀ j, j ≤ length P → j ≤ length N → take j P = take j N → j ≤ k).
  { intros j HjP HjN Hj. destruct (decide (j ≤ k)) as [|Hlt]; [done|]. exfalso. apply Hne; [lia..|].
    rewrite <- (lookup_take_lt P j k), <- (lookup_take_lt N j k) by lia. by rewrite Hj. }
  split; [done|]. split; split.
  - intros ->. rewrite firstn_all in Heq. rewrite Heq. apply prefix_take.
  - intros [l ->]. rewrite length_app in HN. specialize (Hmax (length P)). rewrite length_app, firstn_all, take_app_length in Hmax.
    specialize (Hmax ltac:(lia) ltac:(lia) eq_refl). lia.
  - intros ->. rewrite firstn_all in Heq. rewrite <- Heq. apply prefix_take.
  - intros [l ->]. rewrite length_app in HP. specialize (Hmax (length N)). rewrite length_app, firstn_all, take_app_length in Hmax.
    specialize (Hmax ltac:(lia) ltac:(lia) eq_refl). lia.
Qed.

(** The state by the three lengths. *)
Lemma change_state_cases k p n :
  (change_state k p n = "unchanged" ↔ k = p ∧ k = n) ∧ (change_state k p n = "extended" ↔ k = p ∧ k ≠ n) ∧
  (change_state k p n = "older_observation" ↔ k ≠ p ∧ k = n) ∧ (change_state k p n = "replacement" ↔ k ≠ p ∧ k ≠ n).
Proof. unfold change_state. destruct (Nat.eqb_spec k p), (Nat.eqb_spec k n); cbn; naive_solver. Qed.

(** * Samples *)

Module DocumentSamples.
Definition envelope : Envelope := MkEnvelope CIRVersionV1 "codex" "m" "t" "/" "main" "s" "full" 0 0 None 0.
Definition envelope_text : string := canonicalJSON (envelope_json envelope).
Definition event_text (seq : Z) : string :=
  result_or "" (canonicalEventJSON (CirSamples.message seq)).

#[local] Instance decoder : CirDecoder := {|
  decode_event raw := if raw =? event_text 1 then Some (CirSamples.message 1)
                      else if raw =? event_text 2 then Some (CirSamples.message 2) else None;
  decode_envelope raw := if raw =? envelope_text then Some envelope else None |}.

#[local] Instance decoder_plain : PlainDecoder.
Proof.
  intros raw e. cbn. destruct (raw =? event_text 1); [intros [= <-]; vm_compute; reflexivity|].
  destruct (raw =? event_text 2); [intros [= <-]; vm_compute; reflexivity|done].
Qed.

(** The events are stored out of order. *)
Definition document : CIRDocument := MkDocument envelope [CirSamples.message 2; CirSamples.message 1].
Definition shorter : CIRDocument := MkDocument envelope [CirSamples.message 1].

Definition built : result (ConversationManifest * gmap string string) := ConversationManifestForCIR document.
Definition manifest : ConversationManifest :=
  (result_or (MkManifest 0 "" "" "" None 0 0, ∅) built).1.
Definition bodies : gmap string string := (result_or (MkManifest 0 "" "" "" None 0 0, ∅) built).2.

Definition session_doc (doc : CIRDocument) : SessionDoc :=
  MkSessionDoc (HashContent (result_or "" (CanonicalBytes doc))) "" doc.
End DocumentSamples.
#[local] Existing Instance DocumentSamples.decoder.
#[local] Existing Instance DocumentSamples.decoder_plain.

Lemma sample_builds : DocumentSamples.built = Ok (DocumentSamples.manifest, DocumentSamples.bodies).
Proof. unfold DocumentSamples.manifest, DocumentSamples.bodies. rewrite <- surjective_pairing. apply result_or_Ok. vm_compute. reflexivity. Qed.

(** * The claims *)

(** C33: A conversation root names a document.  When a manifest verifies, its envelope decodes, the
    events its chunks hold decode, and what the frame, the envelope and the chunks spell is
    exactly the canonical bytes of that document - the bytes whose hash is the document's
    legacy name.  So a root and a legacy hash that verify stand for the same content. *)
Theorem manifest_names_document `{PlainDecoder} want m load :
  VerifyConversationManifest conversationManifestEvent conversationManifestEnvelope want m (Some load) = Ok tt →
  ∃ env es bodies, decode_envelope (cm_Envelope m) = Some env ∧ Forall2 (is_chunk load) (elems (cm_Chunks m)) bodies ∧
    Z.of_nat (length es) = cm_EventCount m ∧
    CanonicalBytes (MkDocument env es) = Ok (conversation_frame (cm_Envelope m) (Concat bodies)).
Proof.
  intros (_ & version & bodies & raws & seqs & He & Hb & Hj & Hn & Hc & Hs)%VerifyManifest_exact.
  apply envelope_check_Ok in He as (env & Hd & Hv & Hver & Ht). apply decoded_events in Hc as (es & Hes & <-).
  exists env, es, bodies. split_and!; [done|done|by rewrite <- (Forall2_length _ _ _ Hes)|].
  apply CanonicalBytes_Ok. split; [by eapply version_events|]. exists raws. split; [|by rewrite Hj, <- Ht]. cbn [doc_Events].
  rewrite canonical_sorted by (by eapply nondecreasing_Sorted). by eapply decodes_sequence.
Qed.

Lemma manifest_names_document_witness : ∃ env es bodies, decode_envelope (cm_Envelope DocumentSamples.manifest) = Some env ∧
  Forall2 (is_chunk (load_body DocumentSamples.bodies)) (elems (cm_Chunks DocumentSamples.manifest)) bodies ∧
  Z.of_nat (length es) = cm_EventCount DocumentSamples.manifest ∧
  CanonicalBytes (MkDocument env es) = Ok (conversation_frame (cm_Envelope DocumentSamples.manifest) (Concat bodies)).
Proof.
  destruct (ForCIR_Ok _ _ _ sample_builds) as (_ & _ & _ & _ & _ & (root & _ & Hr) & _).
  exact (manifest_names_document root DocumentSamples.manifest (load_body DocumentSamples.bodies) Hr).
Defined.

(** Building a manifest loses nothing.  The manifest and bodies built from a document verify
    under the manifest's own root; framing the bodies in chunk order gives back the
    document's canonical bytes; every event is counted; and every chunk's body is found under
    its hash - unless two different texts have the same SHA-256. *)
Theorem manifest_build_exact `{CirDecoder} doc m bodies : ConversationManifestForCIR doc = Ok (m, bodies) →
  (∃ root, ConversationManifestHash conversationManifestEnvelope m = Ok root ∧
    VerifyConversationManifest conversationManifestEvent conversationManifestEnvelope root m (Some (load_body bodies)) = Ok tt) ∧
  cm_EventCount m = Z.of_nat (length (doc_Events doc)) ∧
  ∃ list, elems (cm_Chunks m) = body_chunk <$> list ∧
    CanonicalBytes doc = Ok (conversation_frame (cm_Envelope m) (Concat list)) ∧
    (hash_collision ∨ Forall (λ b, bodies !! HashContent b = Some b) list).
Proof.
  intros (texts & Hv & Ht & He & Hn & Hr & list & Hc & -> & Hj)%ForCIR_Ok. split_and!; [done..|]. exists list. split_and!.
  - by rewrite Hc.
  - apply CanonicalBytes_Ok. split; [done|]. exists texts. by rewrite He, Hj.
  - assert (Hall : ∀ l, (∀ b, b ∈ l → b ∈ list) → hash_collision ∨ Forall (λ b, body_map list !! HashContent b = Some b) l).
    { induction l as [|b l IH]; intros Hin; [by right|].
      destruct (body_map_lookup list b) as [?|Hb]; [apply Hin; left|by left|].
      destruct IH as [?|Hl]; [intros x Hx; apply Hin; by right|by left|]. right. by constructor. }
    by apply Hall.
Qed.

Lemma manifest_build_exact_witness : cm_EventCount DocumentSamples.manifest = 2%Z.
Proof.
  refine (proj1 (proj2 (manifest_build_exact DocumentSamples.document DocumentSamples.manifest DocumentSamples.bodies _))).
  exact sample_builds.
Defined.

(** Comparing two documents of one session is exact on their canonical events: the state
    says whether they are the same, one extends the other, or they diverge, and the added and
    removed ranges both start where the longest common prefix ends and run to the ends of the
    two documents. *)
Theorem context_diff_exact `{CirDecoder} before after change : CompareContextDocuments (Some before) after = Ok change →
  ∃ P N, sequence (canonicalEventJSON <$> canonicalEvents (doc_Events (sd_CIR before))) = Ok P ∧
    sequence (canonicalEventJSON <$> canonicalEvents (doc_Events (sd_CIR after))) = Ok N ∧
    (cg_State change = "unchanged" ↔ P = N) ∧
    (cg_State change = "extended" ↔ P ≠ N ∧ P `prefix_of` N) ∧
    (cg_State change = "older_observation" ↔ P ≠ N ∧ N `prefix_of` P) ∧
    (cg_State change = "replacement" ↔ ¬ P `prefix_of` N ∧ ¬ N `prefix_of` P) ∧
    er_Start (cg_Added change) = er_Start (cg_Removed change) ∧
    er_End (cg_Added change) = length N ∧ er_End (cg_Removed change) = length P ∧
    take (er_Start (cg_Added change)) P = take (er_Start (cg_Added change)) N ∧
    ∀ k, k ≤ length P → k ≤ length N → take k P = take k N → k ≤ er_Start (cg_Added change).
Proof.
  unfold CompareContextDocuments. intros Hc. apply bind_Ok in Hc as ([] & (N & HN)%verified_texts & Hc).
  apply bind_Ok in Hc as ([] & _ & Hc). apply bind_Ok in Hc as ([] & (P & HP)%verified_texts & Hc).
  apply bind_Ok in Hc as ([] & _ & Hc). destruct (common_prefix_exact _ _ _ _ HP HN) as (k & Hk & H1 & H2 & H3 & H4).
  rewrite Hk in Hc. cbn [mbind result_bind] in Hc. injection Hc as <-. cbn [cg_State cg_Added cg_Removed er_Start er_End eventRange].
  pose proof (sequence_length _ _ HP) as LP. pose proof (sequence_length _ _ HN) as LN. rewrite length_fmap in LP, LN.
  rewrite <- LP, <- LN. exists P, N. destruct (longest_prefix P N k H1 H2 H3 H4) as (Hmax & HpP & HpN).
  destruct (change_state_cases k (length P) (length N)) as (-> & -> & -> & ->).
  assert (Hsame : P = N ↔ k = length P ∧ k = length N).
  { split; [intros ->; by rewrite HpP|]. intros [-> Hl]. by rewrite <- (firstn_all P), H3, Hl, firstn_all. }
  split_and!; [done..| | | | | | | | |done]; try done; tauto.
Qed.

Lemma context_diff_exact_witness : ∃ change,
  CompareContextDocuments (Some (DocumentSamples.session_doc DocumentSamples.shorter)) (DocumentSamples.session_doc DocumentSamples.document) = Ok change ∧
  ∃ P N : list string, (cg_State change = "extended" ↔ P ≠ N ∧ P `prefix_of` N) ∧ length P = 1 ∧ length N = 2.
Proof.
  eexists. split; [vm_compute; reflexivity|].
  edestruct (context_diff_exact (DocumentSamples.session_doc DocumentSamples.shorter) (DocumentSamples.session_doc DocumentSamples.document))
    as (P & N & HP & HN & _ & He & _); [vm_compute; reflexivity|].
  exists P, N. split; [exact He|]. apply sequence_length in HP, HN. rewrite HP, HN. split; reflexivity.
Defined.
