(* ===== verification/AgentHistory.v ===== *)
(** * Pages of agent history

    Models [agent_history_page.go] ([cli/internal/domain]): the request for a page of whole
    user turns read backwards from a document, and the validation of the page a server
    answers with. *)
From stdpp Require Import pretty.
From S2P Require Import Prelude GoStrings Utf8 GoJson Sha256 Values Catalog CanonicalJson Cir.
From Stdlib Require Import Ascii.

Definition AgentHistoryPageVersion : Z := 1.
Definition AgentHistoryProjectionVersion : Z := 2.
Definition MaxAgentHistoryPageBytes : Z := 4194304.
Definition MaxAgentHistoryPageTurns : Z := 100.

Record AgentHistoryPageRequest := MkHistoryRequest {
  hq_DocIdentity : string; hq_CoveredByIdentity : string; hq_Before : Z; hq_Limit : Z; hq_MaxBytes : Z;
  hq_CoveredBy : string; hq_IncompleteTail : string }.

Record AgentHistoryTail := MkTail { tl_Start : Z; tl_End : Z; tl_Reason : string }.

Record AgentHistoryTurn := MkTurn { tn_Start : Z; tn_End : Z; tn_Hash : string; tn_Events : slice Event }.

Record AgentHistoryPage := MkHistoryPage {
  hp_DocIdentity : string; hp_Version : Z; hp_Hash : string; hp_Provider : string; hp_SessionID : string; hp_Total : Z;
  hp_Before : Z; hp_NextBefore : Z; hp_Covered : bool; hp_Turns : slice AgentHistoryTurn; hp_OmittedTail : option AgentHistoryTail }.

Definition ValidateAgentHistoryPageRequest (req : AgentHistoryPageRequest) : result unit :=
  DocumentIdentity_Validate (hq_DocIdentity req) ;;
  DocumentIdentity_Validate (hq_CoveredByIdentity req) ;;
  reject_if ((hq_Before req <? -1)%Z || (hq_Limit req <? 1)%Z || (MaxAgentHistoryPageTurns <? hq_Limit req)%Z ||
             (hq_MaxBytes req <? 1)%Z || (MaxAgentHistoryPageBytes <? hq_MaxBytes req)%Z ||
             ((hq_CoveredBy req <>? "") && negb (is_ok (ValidateContentHash (hq_CoveredBy req)))) ||
             ((hq_CoveredBy req =? "") && (hq_CoveredByIdentity req <>? "")) ||
             ((hq_IncompleteTail req <>? "") && (hq_IncompleteTail req <>? "omit"))) ErrAgentContextUnavailable.

(** ** The events of a turn *)

(** [calls] and the loop's index, with the first and the previous event. *)
Record turn_state := MkTurnState { ts_index : nat; ts_first : option Event; ts_previous : option Event; ts_calls : gmap string bool }.

Definition Role (e : Event) : string := f_Role (fields e).
Definition CallID (e : Event) : string := f_CallID (fields e).

(** The user events a turn may have: its first, and a message right after a [turn] event. *)
Definition user_boundary_bad (st : turn_state) (e : Event) : bool :=
  (Role e =? "user") &&
  (((Kind e <>? EventMessage) && (Kind e <>? EventTurn)) ||
   ((0 <? ts_index st)%nat &&
    negb ((ts_index st =? 1)%nat && from_option (λ f, Kind f =? EventTurn) false (ts_first st) && (Kind e =? EventMessage)))).

Definition check_call (calls : gmap string bool) (e : Event) : result (gmap string bool) :=
  if Kind e =? EventToolCall then
    reject_if (bool_decide (is_Some (calls !! CallID e)) || (CallID e =? "")) ErrHashMismatch ;;
    Ok (<[CallID e := false]> calls)
  else if Kind e =? EventToolResult then
    reject_if (negb (bool_decide (calls !! CallID e = Some false))) ErrHashMismatch ;;
    Ok (<[CallID e := true]> calls)
  else Ok calls.

Definition check_event (st : turn_state) (e : Event) : result turn_state :=
  reject_if ((Seq e <? 0)%Z || from_option (λ p, (Seq e <=? Seq p)%Z) false (ts_previous st)) ErrHashMismatch ;;
  reject_if (user_boundary_bad st e) ErrHashMismatch ;;
  calls ← check_call (ts_calls st) e;
  Ok (MkTurnState (S (ts_index st)) (match ts_first st with None => Some e | f => f end) (Some e) calls).

(** [json.Marshal(turn.Events)] *)
Definition marshal_events (events : slice Event) : result string :=
  match events with
  | None => Ok "null"
  | Some l => js ← sequence (marshal_event <$> l); Ok (encode (JArr js))
  end.

(** ** The turns of a page *)

(** [end], [remaining] and the first event of the previous turn. *)
Record page_state := MkPageState { ps_end : Z; ps_remaining : Z; ps_first : option Event }.

Definition check_turn (page : AgentHistoryPage) (st : page_state) (turn : AgentHistoryTurn) : result page_state :=
  let events := elems (tn_Events turn) in
  reject_if ((tn_Start turn <? 0)%Z || negb (tn_End turn =? ps_end st)%Z || (tn_End turn <=? tn_Start turn)%Z ||
             (hp_Total page <? tn_End turn)%Z || negb (tn_End turn - tn_Start turn =? Z.of_nat (length events))%Z ||
             negb (is_ok (ValidateContentHash (tn_Hash turn))) ||
             from_option (λ e, Role e <>? "user") true (head events)) ErrHashMismatch ;;
  ts ← fold_each check_event events (MkTurnState 0 None None ∅);
  reject_if (bool_decide (¬ map_Forall (λ _ finished, finished = true) (ts_calls ts))) ErrHashMismatch ;;
  reject_if (match ps_first st, last events with
             | Some f, Some l => (Seq f <=? Seq l)%Z
             | _, _ => false
             end) ErrHashMismatch ;;
  raw ← or_else (marshal_events (tn_Events turn)) ErrHashMismatch;
  let size := Z.of_nat (String.length raw) in
  reject_if ((HashContent raw <>? tn_Hash turn) || (ps_remaining st <? size)%Z) ErrHashMismatch ;;
  Ok (MkPageState (tn_Start turn) (ps_remaining st - size) (head events)).

Definition request_version (req : AgentHistoryPageRequest) : Z :=
  if hq_IncompleteTail req =? "omit" then AgentHistoryProjectionVersion else AgentHistoryPageVersion.

Definition check_page_shape (hash : string) (req : AgentHistoryPageRequest) (page : AgentHistoryPage) : result unit :=
  reject_if (negb (is_ok (DocumentIdentity_Validate (hp_DocIdentity page) ;; ValidateContentHash (hp_Hash page))) ||
             (hp_DocIdentity page <>? hq_DocIdentity req) || negb (is_ok (ValidateContentHash hash)) ||
             negb (hp_Version page =? request_version req)%Z || (hp_Hash page <>? hash) || (hp_Total page <? 0)%Z ||
             (hp_Before page <? 0)%Z || (hp_Total page <? hp_Before page)%Z || bool_decide (hp_Turns page = None) ||
             (hq_Limit req <? Z.of_nat (length (elems (hp_Turns page))))%Z ||
             ((hp_Provider page <>? ProviderClaude) && (hp_Provider page <>? ProviderCodex))) ErrHashMismatch ;;
  let before := if (hq_Before req =? -1)%Z then hp_Total page else hq_Before req in
  reject_if (negb (hp_Before page =? before)%Z) ErrHashMismatch.

(** The end of the turns, after an omitted tail. *)
Definition check_tail (req : AgentHistoryPageRequest) (page : AgentHistoryPage) : result Z :=
  match hp_OmittedTail page with
  | None => Ok (hp_Before page)
  | Some tail =>
      reject_if (negb (request_version req =? AgentHistoryProjectionVersion)%Z || hp_Covered page ||
                 negb (hp_Before page =? hp_Total page)%Z || (tl_Start tail <? 0)%Z || (tl_End tail <=? tl_Start tail)%Z ||
                 negb (tl_End tail =? hp_Total page)%Z || (tl_Reason tail <>? "incomplete_tool_pair")) ErrHashMismatch ;;
      Ok (tl_Start tail)
  end.

Definition ValidateAgentHistoryPage (hash : string) (req : AgentHistoryPageRequest) (page : AgentHistoryPage) : result unit :=
  ValidateAgentHistoryPageRequest req ;;
  check_page_shape hash req page ;;
  stop ← check_tail req page;
  if hp_Covered page then
    reject_if ((hq_CoveredBy req =? "") || (hp_SessionID page =? "") || negb (length (elems (hp_Turns page)) =? 0)%nat ||
               negb (hp_NextBefore page =? -1)%Z || (250000 <? hp_Total page)%Z) ErrHashMismatch
  else
    match elems (hp_Turns page) with
    | [] =>
        reject_if (negb (hp_NextBefore page =? -1)%Z &&
                   (bool_decide (hp_OmittedTail page = None) || (stop <=? 0)%Z || negb (hp_NextBefore page =? stop)%Z))
          ErrHashMismatch
    | turns =>
        st ← fold_each (check_turn page) turns (MkPageState stop (hq_MaxBytes req) None);
        reject_if (negb (hp_NextBefore page =? -1)%Z &&
                   (negb (hp_NextBefore page =? ps_end st)%Z || (ps_end st <=? 0)%Z || (hp_Before page <=? ps_end st)%Z))
          ErrHashMismatch
    end.

(** * Properties *)

(** ** A complete turn *)

Definition calls_of (events : list Event) : list string :=
  omap (λ e, if Kind e =? EventToolCall then Some (CallID e) else None) events.
Definition results_of (events : list Event) : list string :=
  omap (λ e, if Kind e =? EventToolResult then Some (CallID e) else None) events.

Definition seq_lt (a b : Event) : Prop := (Seq a < Seq b)%Z.

#[export] Instance seq_lt_trans : Transitive seq_lt.
Proof. intros a b c. unfold seq_lt. lia. Qed.

(** A user event is the turn's first, or a message right after a first [turn] event. *)
Definition user_place (events : list Event) (i : nat) (e : Event) : Prop :=
  Role e = "user" → i = 0 ∨ (i = 1 ∧ Kind e = EventMessage ∧ ∃ f, head events = Some f ∧ Kind f = EventTurn).

(** What the events seen so far guarantee. *)
Record turn_prefix (events : list Event) : Prop := {
  tp_sorted : StronglySorted seq_lt events;
  tp_seq : Forall (λ e, 0 ≤ Seq e)%Z events;
  tp_users : ∀ i e, events !! i = Some e → user_place events i e;
  tp_calls : NoDup (calls_of events) ∧ "" ∉ calls_of events;
  tp_results : NoDup (results_of events);
  tp_answers : ∀ pre post, events = pre ++ post → ∀ id, id ∈ results_of pre → id ∈ calls_of pre }.

Lemma seq_lt_snoc l e : StronglySorted seq_lt l → (∀ p, last l = Some p → (Seq p < Seq e)%Z) → StronglySorted seq_lt (l ++ [e]).
Proof.
  intros Hs Hl. apply Sorted_StronglySorted; [apply _|]. apply StronglySorted_Sorted in Hs.
  induction Hs as [|a l Hs IH Hhd]; [by repeat constructor|]. cbn. constructor.
  - apply IH. intros p Hp. apply Hl. destruct l; [done|exact Hp].
  - destruct Hhd; constructor; [|done]. by apply Hl.
Qed.

Record turn_inv (pre : list Event) (st : turn_state) : Prop := {
  ti_index : ts_index st = length pre;
  ti_first : ts_first st = head pre;
  ti_previous : ts_previous st = last pre;
  ti_prefix : turn_prefix pre;
  ti_known : ∀ id, is_Some (ts_calls st !! id) ↔ id ∈ calls_of pre;
  ti_answered : ∀ id, ts_calls st !! id = Some true ↔ id ∈ results_of pre }.

Lemma calls_snoc pre e : calls_of (pre ++ [e]) = calls_of pre ++ (if Kind e =? EventToolCall then [CallID e] else []).
Proof. unfold calls_of. rewrite omap_app. cbn. by destruct (Kind e =? EventToolCall). Qed.

Lemma results_snoc pre e : results_of (pre ++ [e]) = results_of pre ++ (if Kind e =? EventToolResult then [CallID e] else []).
Proof. unfold results_of. rewrite omap_app. cbn. by destruct (Kind e =? EventToolResult). Qed.

(** The effect of one event on the calls. *)
Lemma check_call_inv pre st e calls : turn_inv pre st → check_call (ts_calls st) e = Ok calls →
  (∀ id, is_Some (calls !! id) ↔ id ∈ calls_of (pre ++ [e])) ∧ (∀ id, calls !! id = Some true ↔ id ∈ results_of (pre ++ [e])) ∧
  NoDup (calls_of (pre ++ [e])) ∧ "" ∉ calls_of (pre ++ [e]) ∧ NoDup (results_of (pre ++ [e])) ∧
  (∀ id, id ∈ results_of (pre ++ [e]) → id ∈ calls_of (pre ++ [e])).
Proof.
  intros [_ _ _ [_ _ _ [Hnd Hne] Hnr Ha] Hk Hans] Hc. specialize (Ha pre [] (eq_sym (app_nil_r pre))).
  rewrite calls_snoc, results_snoc. unfold check_call in Hc. destruct (Kind e =? EventToolCall) eqn:Hcall.
  - apply bind_Ok in Hc as ([] & Hg%reject_if_Ok & Hc). injection Hc as <-. apply orb_false_iff in Hg as [Hg%bool_decide_eq_false He%bool_decide_eq_false].
    assert (Kind e =? EventToolResult = false) as -> by (apply bool_decide_eq_true in Hcall; rewrite Hcall; done).
    rewrite app_nil_r. assert (Hnin : CallID e ∉ calls_of pre) by (by rewrite <- Hk). split_and!; [| | | |done|].
    + intros id. rewrite lookup_insert_is_Some', Hk, elem_of_app, list_elem_of_singleton. naive_solver.
    + intros id. rewrite lookup_insert_Some, <- Hans. split; [naive_solver|]. intros Hid. right. split; [|done]. intros <-.
      apply Hg. by eexists.
    + apply NoDup_app. split_and!; [done|intros x Hx ->%list_elem_of_singleton; done|apply NoDup_singleton].
    + rewrite elem_of_app, list_elem_of_singleton. intros [?|Heq]; [done|]. by rewrite <- Heq in He.
    + intros id Hid. apply elem_of_app. left. by apply Ha.
  - destruct (Kind e =? EventToolResult) eqn:Hres; rewrite app_nil_r.
    + apply bind_Ok in Hc as ([] & Hg%reject_if_Ok & Hc). injection Hc as <-. apply negb_false_iff, bool_decide_eq_true in Hg.
      assert (Hin : CallID e ∈ calls_of pre) by (apply Hk; eauto).
      assert (Hnr' : CallID e ∉ results_of pre) by (rewrite <- Hans, Hg; congruence). split_and!; [| |done|done| |].
      * intros id. rewrite lookup_insert_is_Some', Hk. split; [by intros [<-|?]|by right].
      * intros id. rewrite lookup_insert_Some, elem_of_app, list_elem_of_singleton, Hans.
        split; [naive_solver|]. intros [Hid| ->]; [|by left]. right. split; [|done]. by intros <-.
      * apply NoDup_app. split_and!; [done|intros x Hx ->%list_elem_of_singleton; done|apply NoDup_singleton].
      * intros id [Hid| ->%list_elem_of_singleton]%elem_of_app; [by apply Ha|done].
    + injection Hc as <-. rewrite app_nil_r. done.
Qed.

Lemma check_event_inv pre st e st' : turn_inv pre st → check_event st e = Ok st' → turn_inv (pre ++ [e]) st'.
Proof.
  intros Hi Hc. unfold check_event in Hc. apply bind_Ok in Hc as ([] & Hq%reject_if_Ok & Hc).
  apply bind_Ok in Hc as ([] & Hu%reject_if_Ok & Hc). apply bind_Ok in Hc as (calls & Hcalls & Hc). injection Hc as <-.
  destruct (check_call_inv pre st e calls Hi Hcalls) as (Hk & Hans & Hnd & Hne & Hnr & Ha).
  pose proof Hi as [H1 H2 H3 [Hs Hf Husers _ _ Hpre] _ _]. apply orb_false_iff in Hq as [Hq0%Z.ltb_ge Hq]. rewrite H3 in Hq.
  split; cbn.
  - rewrite length_app, H1. cbn. lia.
  - rewrite H2. by destruct pre.
  - by rewrite last_snoc.
  - split; [| | |done|done|].
    + apply seq_lt_snoc; [done|]. intros p Hp. rewrite Hp in Hq. cbn in Hq. by apply Z.leb_gt in Hq.
    + apply Forall_app. by repeat constructor.
    + intros i x Hx Hr. assert (Hhead : pre ≠ [] → head (pre ++ [e]) = head pre) by (by destruct pre).
      apply lookup_app_Some in Hx as [Hx|[Hge Hx]].
      * destruct (Husers i x Hx Hr) as [?|(? & ? & f & ? & ?)]; [by left|right]. split_and!; [done..|]. exists f.
        rewrite Hhead; [done|]. by intros ->.
      * apply list_lookup_singleton_Some in Hx as [Hi0 ->]. assert (i = length pre) as -> by lia.
        unfold user_boundary_bad in Hu. rewrite bool_decide_true in Hu by done. cbn [andb] in Hu. apply orb_false_iff in Hu as [_ Hu].
        rewrite H1, H2 in Hu. destruct pre as [|f pre]; [by left|right]. cbn [length] in Hu |- *. cbn [Nat.ltb Nat.leb andb] in Hu.
        apply negb_false_iff, andb_true_iff in Hu as [[H4%Nat.eqb_eq H5]%andb_true_iff H6%bool_decide_eq_true]. cbn in H5.
        apply bool_decide_eq_true in H5. split_and!; [lia|done|]. exists f. done.
    + intros p q Heq. destruct q as [|x q] using rev_ind; [rewrite app_nil_r in Heq; by subst p|].
      rewrite app_assoc in Heq. apply app_inj_tail in Heq as [Heq _]. by apply (Hpre p q).
  - done.
  - done.
Qed.

Lemma turn_events_inv events ts : fold_each check_event events (MkTurnState 0 None None ∅) = Ok ts → turn_inv events ts.
Proof.
  intros Hf. apply (fold_each_invariant check_event turn_inv events (MkTurnState 0 None None ∅)); [|clear Hf|exact Hf].
  { split; cbn; [done..| | |].
    - split; [constructor|constructor|by intros i e; rewrite lookup_nil|split; [constructor|set_solver]|constructor|].
      intros [|] ? [=]. cbn. set_solver.
    - intros id. rewrite lookup_empty. cbn. split; [by intros [? ?]|by intros ?%elem_of_nil].
    - intros id. rewrite lookup_empty. cbn. split; [done|by intros ?%elem_of_nil]. }
  intros pre e s s' Hi _ Hc. by eapply check_event_inv.
Qed.

(** A turn of the page: a user's, ordered, with every tool call answered exactly once, later. *)
Record complete_turn (events : list Event) : Prop := {
  ct_user : ∃ e, head events = Some e ∧ Role e = "user";
  ct_prefix : turn_prefix events;
  ct_paired : results_of events ≡ₚ calls_of events }.

Lemma complete_turn_intro events ts : turn_inv events ts → map_Forall (λ _ finished, finished = true) (ts_calls ts) →
  (∃ e, head events = Some e ∧ Role e = "user") → complete_turn events.
Proof.
  intros [_ _ _ Hp Hk Ha] Hall Hu. split; [done|done|]. apply NoDup_Permutation; [apply tp_results, Hp|apply (tp_calls _ Hp)|].
  intros id. rewrite <- Ha, <- Hk. split; [by intros ->|]. intros [b Hb]. rewrite Hb. f_equal. by apply (Hall id b).
Qed.

(** ** A page *)

(** The turns tile a range of events downwards. *)
Fixpoint tiles (high : Z) (turns : list AgentHistoryTurn) (low : Z) : Prop :=
  match turns with
  | [] => high = low
  | t :: turns =>
      tn_End t = high ∧ (0 ≤ tn_Start t < tn_End t)%Z ∧ (tn_End t - tn_Start t)%Z = Z.of_nat (length (elems (tn_Events t))) ∧
      tiles (tn_Start t) turns low
  end.

Lemma tiles_app high l k low : tiles high (l ++ k) low ↔ ∃ mid, tiles high l mid ∧ tiles mid k low.
Proof.
  revert high. induction l as [|t l IH]; intros high; cbn.
  - split; [intros Ht; by exists high|]. by intros (mid & -> & ?).
  - rewrite IH. naive_solver.
Qed.

Lemma tiles_bounds high turns low : tiles high turns low → (low ≤ high)%Z ∧ (turns ≠ [] → 0 ≤ low < high)%Z.
Proof.
  revert high. induction turns as [|t turns IH]; intros high; cbn; [intros ->; split; [lia|done]|].
  intros (<- & Hb & _ & Ht). destruct (IH _ Ht) as [H1 H2]. split; [lia|]. intros _. destruct turns; [cbn in Ht; lia|].
  specialize (H2 ltac:(done)). lia.
Qed.

(** The bytes of a turn, as its hash was checked. *)
Definition turn_bytes (t : AgentHistoryTurn) (n : Z) : Prop :=
  ∃ raw, marshal_events (tn_Events t) = Ok raw ∧ HashContent raw = tn_Hash t ∧ n = Z.of_nat (String.length raw).

Lemma check_turn_Ok page st t st' : check_turn page st t = Ok st' →
  tn_End t = ps_end st ∧ (0 ≤ tn_Start t < tn_End t)%Z ∧ (tn_End t - tn_Start t)%Z = Z.of_nat (length (elems (tn_Events t))) ∧
  complete_turn (elems (tn_Events t)) ∧ ps_end st' = tn_Start t ∧ (∃ n, turn_bytes t n ∧ ps_remaining st' = ps_remaining st - n)%Z ∧
  (0 ≤ ps_remaining st')%Z ∧ ps_first st' = head (elems (tn_Events t)) ∧
  ∀ f l, ps_first st = Some f → last (elems (tn_Events t)) = Some l → seq_lt l f.
Proof.
  unfold check_turn. intros Hc. apply bind_Ok in Hc as ([] & Hr%reject_if_Ok & Hc). apply bind_Ok in Hc as (ts & Hts & Hc).
  apply bind_Ok in Hc as ([] & Hp%reject_if_Ok & Hc). apply bind_Ok in Hc as ([] & Ho%reject_if_Ok & Hc).
  apply bind_Ok in Hc as (raw & Hraw%or_else_Ok & Hc). apply bind_Ok in Hc as ([] & Hh%reject_if_Ok & Hc).
  rewrite !orb_false_iff in Hr. destruct Hr as [[[[[[H1%Z.ltb_ge H2%negb_false_iff%Z.eqb_eq] H3%Z.leb_gt] _] H4%negb_false_iff%Z.eqb_eq] _] H5].
  apply orb_false_iff in Hh as [Hh%negb_false_iff%bool_decide_eq_true Hrem%Z.ltb_ge]. apply bool_decide_eq_false in Hp.
  assert (st' = MkPageState (tn_Start t) (ps_remaining st - Z.of_nat (String.length raw)) (head (elems (tn_Events t)))) as -> by congruence.
  split; [done|]. split; [lia|]. split; [lia|]. split.
  { apply (complete_turn_intro _ ts); [by apply turn_events_inv|by apply dec_stable|].
    destruct (head (elems (tn_Events t))) as [e|]; [|done]. cbn in H5. apply negb_false_iff, bool_decide_eq_true in H5. by exists e. }
  split; [done|]. split; [exists (Z.of_nat (String.length raw)); split; [by exists raw|reflexivity]|]. split; [cbn; lia|]. split; [done|].
  intros f l Hf Hl. rewrite Hf, Hl in Ho. by apply Z.leb_gt in Ho.
Qed.

(** The total size of the texts. *)
Fixpoint turns_bytes (turns : list AgentHistoryTurn) (n : Z) : Prop :=
  match turns with
  | [] => n = 0%Z
  | t :: turns => ∃ a b, turn_bytes t a ∧ turns_bytes turns b ∧ n = (a + b)%Z
  end.

(** Later turns of the page are older. *)
Fixpoint older_turns (next : option Event) (turns : list AgentHistoryTurn) : Prop :=
  match turns with
  | [] => True
  | t :: turns =>
      (∀ f l, next = Some f → last (elems (tn_Events t)) = Some l → seq_lt l f) ∧ older_turns (head (elems (tn_Events t))) turns
  end.

Lemma check_turns_Ok page turns st st' : (0 ≤ ps_remaining st)%Z → fold_each (check_turn page) turns st = Ok st' →
  tiles (ps_end st) turns (ps_end st') ∧ Forall (λ t, complete_turn (elems (tn_Events t))) turns ∧
  (∃ n, turns_bytes turns n ∧ n ≤ ps_remaining st)%Z ∧ older_turns (ps_first st) turns.
Proof.
  revert st. induction turns as [|t turns IH]; intros st Hrem Hf.
  { injection Hf as <-. split_and!; [done|constructor|exists 0%Z; by split|done]. }
  cbn [fold_each] in Hf. apply bind_Ok in Hf as (st1 & Ht & Hf).
  apply check_turn_Ok in Ht as (H1 & H2 & H3 & H4 & H5 & (a & Ha & H6) & H7 & H8 & H9).
  destruct (IH st1 H7 Hf) as (T1 & T2 & (n & Hn & Hle) & T4). split_and!.
  - cbn. rewrite <- H5. split_and!; (done || lia).
  - by constructor.
  - exists (a + n)%Z. split; [|lia]. cbn. by exists a, n.
  - cbn. rewrite <- H8. done.
Qed.

(** What an accepted page that is not covered says. *)
Record page_facts (req : AgentHistoryPageRequest) (page : AgentHistoryPage) (high low : Z) : Prop := {
  pf_before : (0 ≤ hp_Before page ≤ hp_Total page)%Z;
  pf_high : high = hp_Before page ∨ (hp_Before page = hp_Total page ∧ 0 ≤ high < hp_Total page ∧ is_Some (hp_OmittedTail page))%Z;
  pf_tiles : tiles high (elems (hp_Turns page)) low;
  pf_turns : Forall (λ t, complete_turn (elems (tn_Events t))) (elems (hp_Turns page));
  pf_bytes : ∃ n, turns_bytes (elems (hp_Turns page)) n ∧ (n ≤ hq_MaxBytes req)%Z;
  pf_older : older_turns None (elems (hp_Turns page));
  pf_limit : (Z.of_nat (length (elems (hp_Turns page))) ≤ hq_Limit req)%Z;
  pf_next : hp_NextBefore page = (-1)%Z ∨ (hp_NextBefore page = low ∧ 0 < low < hp_Before page)%Z }.

Lemma page_accepted hash req page : ValidateAgentHistoryPage hash req page = Ok tt → hp_Covered page = false →
  ∃ high low, page_facts req page high low.
Proof.
  unfold ValidateAgentHistoryPage. intros Hv Hcov. apply bind_Ok in Hv as ([] & Hq & Hv). apply bind_Ok in Hv as ([] & Hs & Hv).
  apply bind_Ok in Hv as (stop & Ht & Hv). rewrite Hcov in Hv.
  unfold ValidateAgentHistoryPageRequest in Hq. apply bind_Ok in Hq as ([] & _ & Hq). apply bind_Ok in Hq as ([] & _ & Hq).
  apply reject_if_Ok in Hq. rewrite !orb_false_iff in Hq. destruct Hq as [[[[[[[_ Hl1%Z.ltb_ge] Hl2%Z.ltb_ge] Hm%Z.ltb_ge] _] _] _] _].
  unfold check_page_shape in Hs. apply bind_Ok in Hs as ([] & Hs%reject_if_Ok & _). rewrite !orb_false_iff in Hs.
  destruct Hs as [[[[[[[[[[_ _] _] _] _] Htot%Z.ltb_ge] Hb0%Z.ltb_ge] Hb1%Z.ltb_ge] _] Hlim%Z.ltb_ge] _].
  assert (Hhigh : stop = hp_Before page ∨ (hp_Before page = hp_Total page ∧ 0 ≤ stop < hp_Total page ∧ is_Some (hp_OmittedTail page))%Z).
  { unfold check_tail in Ht. destruct (hp_OmittedTail page) as [tail|]; [right|left; congruence].
    apply bind_Ok in Ht as ([] & Hg%reject_if_Ok & Ht). injection Ht as <-. rewrite !orb_false_iff in Hg.
    destruct Hg as [[[[[[_ _] H1%negb_false_iff%Z.eqb_eq] H2%Z.ltb_ge] H3%Z.leb_gt] H4%negb_false_iff%Z.eqb_eq] _].
    split_and!; (done || lia || eauto). }
  assert (Hstop : (stop ≤ hp_Before page)%Z) by lia.
  destruct (elems (hp_Turns page)) as [|t turns] eqn:Hturns.
  - exists stop, stop. apply reject_if_Ok in Hv. split; rewrite ?Hturns; [lia|done|done|constructor|exists 0%Z; split; [done|lia]|done|cbn in *; lia|].
    apply andb_false_iff in Hv as [Hv%negb_false_iff%Z.eqb_eq|Hv]; [by left|right]. rewrite !orb_false_iff in Hv.
    destruct Hv as [[H1%bool_decide_eq_false H2%Z.leb_gt] H3%negb_false_iff%Z.eqb_eq].
    split; [done|]. destruct Hhigh as [->|(? & ? & _)]; [|lia]. unfold check_tail in Ht.
    destruct (hp_OmittedTail page) as [tail|]; [|done]. apply bind_Ok in Ht as ([] & Hg%reject_if_Ok & Ht). rewrite !orb_false_iff in Hg.
    destruct Hg as [[[[[[_ _] H4%negb_false_iff%Z.eqb_eq] _] H5%Z.leb_gt] H6%negb_false_iff%Z.eqb_eq] _]. injection Ht as Ht. lia.
  - apply bind_Ok in Hv as (st & Hf & Hn%reject_if_Ok).
    destruct (check_turns_Ok page _ _ st (ltac:(cbn; lia) : (0 ≤ ps_remaining (MkPageState stop (hq_MaxBytes req) None))%Z) Hf) as (T1 & T2 & T3 & T4).
    exists stop, (ps_end st). split; rewrite ?Hturns; [lia|done|done|done|done|done|done|].
    apply andb_false_iff in Hn as [Hn%negb_false_iff%Z.eqb_eq|Hn]; [by left|right]. rewrite !orb_false_iff in Hn.
    destruct Hn as [[H1%negb_false_iff%Z.eqb_eq H2%Z.leb_gt] H3%Z.leb_gt]. done.
Qed.

(** ** Reading backwards *)

(** Pages of one document, each asked for at the cursor the previous one named. *)
Fixpoint history_run (hash : string) (total before : Z) (pages : list (AgentHistoryPageRequest * AgentHistoryPage)) : Prop :=
  match pages with
  | [] => False
  | (req, page) :: rest =>
      ValidateAgentHistoryPage hash req page = Ok tt ∧ hp_Covered page = false ∧ hp_Total page = total ∧ hp_Before page = before ∧
      if (hp_NextBefore page =? -1)%Z then rest = [] else history_run hash total (hp_NextBefore page) rest
  end.

Definition run_turns (pages : list (AgentHistoryPageRequest * AgentHistoryPage)) : list AgentHistoryTurn :=
  pages ≫= λ p, elems (hp_Turns p.2).

Lemma history_run_tiles hash total before pages : history_run hash total before pages →
  (0 ≤ before ≤ total)%Z ∧ (Z.of_nat (length pages) ≤ before + 1)%Z ∧
  Forall (λ t, complete_turn (elems (tn_Events t))) (run_turns pages) ∧
  ∃ high low, tiles high (run_turns pages) low ∧ (0 ≤ low)%Z ∧ (high ≤ before)%Z ∧
    (high = before ∨ before = total ∧ ∃ req page rest, pages = (req, page) :: rest ∧ is_Some (hp_OmittedTail page)).
Proof.
  revert before. induction pages as [|[req page] pages IH]; intros before; [done|].
  intros (Hv & Hc & Htot & Hbef & Hr). destruct (page_accepted hash req page Hv Hc) as (high & low & [F1 F2 F3 F4 _ _ _ F8]).
  subst total before. unfold run_turns. change (((req, page) :: pages) ≫= ?f) with (f (req, page) ++ (pages ≫= f)). cbn [snd].
  fold (run_turns pages). pose proof (tiles_bounds _ _ _ F3) as [Hle Hne]. cbn [length].
  assert (Hlow : (0 ≤ low)%Z).
  { destruct (elems (hp_Turns page)) eqn:E; [cbn in F3; lia|]. specialize (Hne ltac:(done)). lia. }
  assert (Htail : high = hp_Before page ∨ hp_Before page = hp_Total page ∧
    ∃ req' page' rest, (req, page) :: pages = (req', page') :: rest ∧ is_Some (hp_OmittedTail page')).
  { destruct F2 as [?|(? & _ & ?)]; [by left|right]. split; [done|]. by exists req, page, pages. }
  destruct (Z.eqb_spec (hp_NextBefore page) (-1)) as [Hn|Hn].
  - subst pages. cbn [run_turns list_bind mbind]. rewrite app_nil_r. split; [lia|]. split; [cbn; lia|]. split; [done|].
    exists high, low. split_and!; (done || lia).
  - destruct F8 as [?|[Hnext Hb]]; [done|]. destruct (IH _ Hr) as (I1 & I2 & I3 & high' & low' & J1 & J2 & J3 & J4).
    assert (high' = low) as ->.
    { destruct J4 as [J4|(J4 & _)]; [by rewrite J4, Hnext|lia]. }
    split; [lia|]. split; [lia|]. split; [by apply Forall_app|].
    exists high, low'. split; [apply tiles_app; by exists low|]. split_and!; (done || lia).
Qed.

(** The page's events in document order. *)
Definition page_events (turns : list AgentHistoryTurn) : list Event := reverse turns ≫= λ t, elems (tn_Events t).

Lemma sorted_before_last l e : StronglySorted seq_lt l → last l = Some e → ∀ x, x ∈ l → x = e ∨ seq_lt x e.
Proof.
  induction 1 as [|a l Hs IH Hall]; [done|]. intros Hl x [->|Hx]%elem_of_cons.
  - destruct l as [|b l]; [left; cbn in Hl; congruence|]. right. rewrite Forall_forall in Hall. apply Hall.
    apply last_Some_elem_of. exact Hl.
  - destruct l as [|b l]; [by apply elem_of_nil in Hx|]. by apply IH.
Qed.

Lemma older_before turns f : Forall (λ t, complete_turn (elems (tn_Events t))) turns → older_turns (Some f) turns →
  ∀ x, x ∈ page_events turns → seq_lt x f.
Proof.
  intros Hall. revert f. induction Hall as [|t turns [(h & Hh & _) Hp _] _ IH]; intros f; cbn [older_turns]; [by intros _ x ?%elem_of_nil|].
  intros [Hlast Hold]. rewrite Hh in Hold.
  assert (Ht : ∀ x, x ∈ elems (tn_Events t) → seq_lt x f).
  { intros x Hx. destruct (last (elems (tn_Events t))) as [l|] eqn:E; [|apply last_None in E; rewrite E in Hx; by apply elem_of_nil in Hx].
    specialize (Hlast f l eq_refl eq_refl). destruct (sorted_before_last _ _ (tp_sorted _ Hp) E x Hx) as [->|?]; [done|by etransitivity]. }
  intros x Hx. unfold page_events in Hx. rewrite reverse_cons, bind_app in Hx. apply elem_of_app in Hx as [Hx|Hx].
  - transitivity h; [by eapply IH|]. apply Ht. by apply head_Some_elem_of.
  - cbn in Hx. rewrite app_nil_r in Hx. by apply Ht.
Qed.

Lemma page_events_sorted turns next : Forall (λ t, complete_turn (elems (tn_Events t))) turns → older_turns next turns →
  StronglySorted seq_lt (page_events turns).
Proof.
  intros Hall. revert next. induction Hall as [|t turns [(h & Hh & _) Hp _] Hts IH]; intros next; [constructor|].
  intros [_ Hold]. unfold page_events. rewrite reverse_cons, bind_app. cbn. rewrite app_nil_r. fold (page_events turns).
  assert (Hb : ∀ x, x ∈ page_events turns → seq_lt x h) by (rewrite Hh in Hold; by apply older_before).
  specialize (IH _ Hold). pose proof (tp_sorted _ Hp) as Hs. destruct (elems (tn_Events t)) as [|h' rest]; [done|].
  injection Hh as ->. assert (Hrest : ∀ y, y ∈ h :: rest → y = h ∨ seq_lt h y).
  { intros y [->|Hy]%elem_of_cons; [by left|right]. inversion Hs as [|? ? _ Hf]; subst. rewrite Forall_forall in Hf. by apply Hf. }
  clear Hp Hold Hts. induction IH as [|a l Hl IHl Ha]; [done|]. cbn. constructor; [apply IHl; intros x Hx; apply Hb; by right|].
  apply Forall_app. split; [done|]. apply Forall_forall. intros y Hy. destruct (Hrest y Hy) as [->|?]; [apply Hb; left|].
  transitivity h; [apply Hb; left|done].
Qed.

(** * Samples *)

Module HistorySamples.
Definition document : string := HashContent "document".

Definition blank (kind : string) (seq : Z) (role call : string) : Event :=
  MkEvent (MkFields kind "" "" seq None 0 role None false false "" "" false call "shell" "" None "" None false None "" false) None.

Definition turn_events (from : Z) : list Event :=
  [blank EventMessage from "user" ""; blank EventToolCall (from + 1) "" "c"; blank EventToolResult (from + 2) "" "c"].

Definition turn (start : Z) : AgentHistoryTurn :=
  MkTurn start (start + 3) (HashContent (result_or "" (marshal_events (Some (turn_events (10 * start)))))) (Some (turn_events (10 * start))).

Definition request (before : Z) : AgentHistoryPageRequest := MkHistoryRequest "" "" before 1 4096 "" "".
Definition page (before next : Z) (t : AgentHistoryTurn) : AgentHistoryPage :=
  MkHistoryPage "" 1 document ProviderCodex "s" 6 before next false (Some [t]) None.

Definition pages : list (AgentHistoryPageRequest * AgentHistoryPage) :=
  [(request (-1), page 6 3 (turn 3)); (request 3, page 3 (-1) (turn 0))].
End HistorySamples.

(** * The claims *)

(** An accepted page of history holds whole, well-formed user turns.  Its turns tile a range
    of events downwards from the cursor, or from the omitted tail; each begins with a user's
    event, has user events nowhere else but right after a [turn] event, and answers every
    tool call exactly once, after the call; the events of the page read in document order are
    strictly increasing in sequence; the texts that the hashes cover fit the byte bound; and a
    next cursor is the start of the last turn and lies strictly below this one. *)
Theorem history_page_sound hash req page : ValidateAgentHistoryPage hash req page = Ok tt → hp_Covered page = false →
  (∃ high low, page_facts req page high low) ∧ StronglySorted seq_lt (page_events (elems (hp_Turns page))).
Proof.
  intros Hv Hc. destruct (page_accepted hash req page Hv Hc) as (high & low & Hf). split; [by exists high, low|].
  eapply page_events_sorted; [apply Hf|exact (pf_older _ _ _ _ Hf)].
Qed.

Lemma history_page_sound_witness :
  StronglySorted seq_lt (page_events (elems (hp_Turns (HistorySamples.page 6 3 (HistorySamples.turn 3))))).
Proof.
  apply (history_page_sound HistorySamples.document (HistorySamples.request (-1)) (HistorySamples.page 6 3 (HistorySamples.turn 3)));
    vm_compute; reflexivity.
Defined.

(** C35: Reading history backwards ends and has no gap.  Following the cursors of accepted pages
    takes at most one page more than there are events; and all the turns read, across the
    pages, tile one range of events, which begins at the requested cursor or, on the first
    page only, below an omitted incomplete tail. *)
Theorem history_run_covers hash total before pages : history_run hash total before pages →
  (Z.of_nat (length pages) ≤ before + 1)%Z ∧ Forall (λ t, complete_turn (elems (tn_Events t))) (run_turns pages) ∧
  ∃ high low, tiles high (run_turns pages) low ∧ (0 ≤ low)%Z ∧ (high ≤ before)%Z ∧
    (high = before ∨ before = total ∧ ∃ req page rest, pages = (req, page) :: rest ∧ is_Some (hp_OmittedTail page)).
Proof. intros Hr. by destruct (history_run_tiles _ _ _ _ Hr) as (_ & H1 & H2 & H3). Qed.

Lemma history_run_covers_witness : ∃ high low, tiles high (run_turns HistorySamples.pages) low ∧ (0 ≤ low)%Z.
Proof.
  destruct (history_run_covers HistorySamples.document 6 6 HistorySamples.pages) as (_ & _ & high & low & Ht & Hl & _).
  - repeat split; vm_compute; reflexivity.
  - exists high, low. split; [exact Ht|exact Hl].
Defined.
