(* ===== verification/Settings.v ===== *)
(** * Settings bundles

    Models [settings.go] ([cli/internal/domain]): the portable paths of a bundle of settings
    files, their decoded sizes, and the hash that names the bundle.  [path.Clean] and
    [base64.StdEncoding] are written out. *)
From stdpp Require Import pretty.
From S2P Require Import Prelude GoStrings Utf8 GoJson Sha256 Values.
From Stdlib Require Import Ascii.

Definition MaxSettingsBundleBytes : Z := 2097152.

Record SettingsFile := MkFile { sf_Path : string; sf_ContentB64 : string }.
Record SettingsBundle := MkBundle { sb_Kind : string; sb_Files : slice SettingsFile }.

Definition ValidSettingsKind (kind : string) : bool := (kind =? "claude") || (kind =? "agents") || (kind =? "codex").

Definition settings_file_json (f : SettingsFile) : json := JObj (str_field "path" (sf_Path f) ++ str_field "content_b64" (sf_ContentB64 f)).

Definition SettingsObjectHash (bundle : SettingsBundle) : result string :=
  Ok (HashContent (encode (JObj (str_field "kind" (sb_Kind bundle) ++ field "files" (slice_json settings_file_json (sb_Files bundle)))))).

(** ** [path.Clean] *)

Definition slash : ascii := "/"%char.

(** One element; [out] holds the kept ones, the last first. *)
Definition clean_element (rooted : bool) (out : list string) (c : string) : list string :=
  if (c =? "") || (c =? ".") then out
  else if c =? ".." then
    match out with
    | x :: rest => if x =? ".." then c :: out else rest
    | [] => if rooted then [] else [c]
    end
  else c :: out.

Definition Clean (p : string) : string :=
  if p =? "" then "."
  else
    let rooted := HasPrefix p "/" in
    let text := Join (reverse (fold_left (clean_element rooted) (Split p slash) [])) "/" in
    if rooted then "/" +:+ text else if text =? "" then "." else text.

(** ** Portable paths *)

Definition upper_char (c : ascii) : ascii := if ((97 <=? code c) && (code c <=? 122))%N then ascii_of_N (code c - 32) else c.

(** ASCII upper case: no other character's upper case is a letter of a reserved name. *)
Fixpoint ToUpper (s : string) : string :=
  match s with
  | EmptyString => ""
  | String c s => String (upper_char c) (ToUpper s)
  end.

Definition numbered (name : string) : list string := (λ d, name +:+ String d "") <$> String.list_ascii_of_string "123456789".

Definition reserved_names : list string := ["CON"; "PRN"; "AUX"; "NUL"] ++ numbered "COM" ++ numbered "LPT".

Definition is_control (c : ascii) : bool := ((code c <=? 31) || (code c =? 127))%N.

Definition segment_base (segment : string) : string := default "" (head (Split segment "."%char)).

Definition segment_ok (segment : string) : bool :=
  negb ((segment =? "") || HasSuffix segment "." || HasSuffix segment " ") &&
  negb (bool_decide (ToUpper (segment_base segment) ∈ reserved_names)).

Definition backslash_colon : string := String backslash ":".

Definition portableSettingsPath (value : string) : bool :=
  if (value =? "") || (4096 <? String.length value)%nat || ContainsAny value backslash_colon then false
  else if has_char is_control value then false
  else
    let clean := Clean value in
    if (clean <>? value) || (clean =? ".") || (clean =? "..") || HasPrefix clean "../" || HasPrefix clean "/" then false
    else forallb segment_ok (Split clean slash).

(** ** [base64.StdEncoding] *)

Definition base64_alphabet : string := "ABCDEFGHIJKLMNOPQRSTUVWXYZabcdefghijklmnopqrstuvwxyz0123456789+/".

Fixpoint index_of (n : nat) (c : ascii) (s : string) : option nat :=
  match s with
  | EmptyString => None
  | String d s => if bool_decide (c = d) then Some n else index_of (S n) c s
  end.

Definition base64_value (c : ascii) : option N := N.of_nat <$> index_of 0 c base64_alphabet.

Definition padding : ascii := "="%char.

Definition byte_of (n : N) : ascii := ascii_of_N (n mod 256).

(** Line breaks are ignored wherever they stand. *)
Definition not_break (c : ascii) : bool := negb ((code c =? 10) || (code c =? 13))%N.

(** Quanta of four; padding ends the text.  Bits that padding leaves over are not checked. *)
Fixpoint decode_quanta (l : list ascii) : option (list ascii) :=
  match l with
  | [] => Some []
  | a :: b :: c :: d :: rest =>
      x ← base64_value a; y ← base64_value b;
      let first := byte_of (x * 4 + y / 16) in
      if bool_decide (c = padding) then
        if bool_decide (d = padding) && bool_decide (rest = []) then Some [first] else None
      else
        z ← base64_value c;
        let second := byte_of (y * 16 + z / 4) in
        if bool_decide (d = padding) then (if bool_decide (rest = []) then Some [first; second] else None)
        else w ← base64_value d; tail ← decode_quanta rest; Some (first :: second :: byte_of (z * 64 + w) :: tail)
  | _ => None
  end.

Definition DecodeString (s : string) : option (list ascii) :=
  decode_quanta (List.filter not_break (String.list_ascii_of_string s)).

Definition EncodedLen (n : Z) : Z := (n + 2) / 3 * 4.

(** ** Bundles *)

(** [seen] and [total] *)
Definition check_file (st : gset string * Z) (f : SettingsFile) : result (gset string * Z) :=
  let '(seen, total) := st in
  reject_if (negb (portableSettingsPath (sf_Path f))) ErrHashMismatch ;;
  let clean := Clean (sf_Path f) in
  reject_if (bool_decide (clean ∈ seen)) ErrHashMismatch ;;
  reject_if (EncodedLen (MaxSettingsBundleBytes - total) <? Z.of_nat (String.length (sf_ContentB64 f)))%Z ErrHashMismatch ;;
  match DecodeString (sf_ContentB64 f) with
  | None => Err ErrHashMismatch
  | Some decoded =>
      let total := (total + Z.of_nat (length decoded))%Z in
      reject_if (MaxSettingsBundleBytes <? total)%Z ErrHashMismatch ;;
      Ok ({[clean]} ∪ seen, total)
  end.

Definition ValidateSettingsBundle (expectedKind expectedHash : string) (bundle : SettingsBundle) : result unit :=
  reject_if (negb (ValidSettingsKind expectedKind) || (sb_Kind bundle <>? expectedKind)) ErrHashMismatch ;;
  (if expectedHash <>? "" then ValidateContentHash expectedHash else Ok tt) ;;
  fold_each check_file (elems (sb_Files bundle)) (∅, 0%Z) ;;
  if expectedHash <>? "" then
    got ← SettingsObjectHash bundle;
    reject_if (got <>? expectedHash) ErrHashMismatch
  else Ok tt.

(** [encoding/base64]'s own examples. *)
Example decode_samples :
  (String.string_of_list_ascii <$> (DecodeString <$> ["Zm9vYmE="; "Zm9vYg=="; "Zm9vYmFy"; ""]) ≫= option_list) = ["fooba"; "foob"; "foobar"; ""] ∧
  DecodeString "Zm9vYg=" = None ∧ DecodeString "Zm9vYg==x" = None.
Proof. vm_compute. split_and!; reflexivity. Qed.

Example clean_samples : Clean <$> ["a/../../b"; "/../a/./b//c/"; "./"; "a/b/.."] = ["../b"; "/a/b/c"; "."; "a"].
Proof. vm_compute. reflexivity. Qed.

(** * Properties *)

(** ** Elements *)

(** An element that [path.Clean] keeps as it is. *)
Definition plain_element (c : string) : Prop := c ≠ "" ∧ c ≠ "." ∧ c ≠ "..".
Definition no_slash (c : string) : Prop := Split c slash = [c].

Lemma Split_sep a b : Split (a +:+ "/" +:+ b) slash = Split a slash ++ Split b slash.
Proof.
  induction a as [|c a IH]; [done|]. cbn [String.append Split] in *. case_bool_decide; [by rewrite IH|]. rewrite IH.
  destruct (Split a slash) as [|h t] eqn:E; [|done]. by apply Split_not_nil in E.
Qed.

Lemma Join_cons_ne c l sep : l ≠ [] → Join (c :: l) sep = c +:+ sep +:+ Join l sep.
Proof. by destruct l. Qed.

Lemma Join_app l k sep : l ≠ [] → k ≠ [] → Join (l ++ k) sep = Join l sep +:+ sep +:+ Join k sep.
Proof.
  intros Hl Hk. induction l as [|c l IH]; [done|]. destruct l as [|d l]; [by apply Join_cons_ne|].
  rewrite <- app_comm_cons, (Join_cons_ne c ((d :: l) ++ k)), (Join_cons_ne c (d :: l)), IH by done. by rewrite <- !string_app_assoc.
Qed.

Lemma Join_Split s : Join (Split s slash) "/" = s.
Proof.
  induction s as [|c s IH]; [done|]. cbn [Split]. case_bool_decide as Hc.
  - rewrite Join_cons_ne by apply Split_not_nil. rewrite IH, Hc. done.
  - destruct (Split s slash) as [|h t] eqn:E; [by apply Split_not_nil in E|]. destruct t as [|h' t].
    + cbn in IH |- *. by rewrite IH.
    + rewrite Join_cons_ne in IH |- * by done. rewrite <- IH. done.
Qed.

Lemma Split_Join_slash l : l ≠ [] → Forall no_slash l → Split (Join l "/") slash = l.
Proof.
  intros Hne Hall. induction Hall as [|c l Hc _ IH]; [done|]. destruct l as [|d l]; [exact Hc|].
  rewrite Join_cons_ne by done. rewrite Split_sep, Hc, IH by done. done.
Qed.

Lemma Split_no_slash s : Forall no_slash (Split s slash).
Proof.
  induction s as [|c s IH]; [by repeat constructor|]. cbn [Split]. case_bool_decide as Hc; [by constructor|].
  destruct IH as [|h t Hh Ht]; repeat constructor; [| |done].
  - unfold no_slash. cbn. by rewrite bool_decide_false.
  - unfold no_slash in *. cbn. rewrite bool_decide_false by done. by rewrite Hh.
Qed.

Lemma clean_plain rooted l out : Forall plain_element l → fold_left (clean_element rooted) l out = reverse l ++ out.
Proof.
  revert out. induction l as [|c l IH]; intros out; [done|]. intros [(H1 & H2 & H3) Hl]%Forall_cons. cbn [fold_left].
  rewrite IH by done. rewrite reverse_cons, <- app_assoc. unfold clean_element.
  by rewrite !bool_decide_false by done.
Qed.

(** A rooted path of plain elements is clean. *)
Lemma Clean_rooted l : l ≠ [] → Forall plain_element l → Forall no_slash l → Clean ("/" +:+ Join l "/") = "/" +:+ Join l "/".
Proof.
  intros Hne Hp Hs. unfold Clean. rewrite (bool_decide_false ("/" +:+ Join l "/" = "")) by done. cbv zeta.
  assert (HasPrefix ("/" +:+ Join l "/") "/" = true) as -> by apply prefix_app. cbn iota.
  change ("/" +:+ Join l "/") with ("" +:+ "/" +:+ Join l "/") at 1. rewrite Split_sep, Split_Join_slash by done.
  cbn [Split app fold_left]. change (clean_element true [] "") with (@nil string). rewrite clean_plain, app_nil_r, reverse_involutive by done.
  done.
Qed.

Lemma portable_segments v : portableSettingsPath v = true → Clean v = v ∧ Forall plain_element (Split v slash) ∧
  (String.length v ≤ 4096) ∧ ContainsAny v backslash_colon = false ∧ has_char is_control v = false ∧
  Forall (λ c, ToUpper (segment_base c) ∉ reserved_names) (Split v slash).
Proof.
  unfold portableSettingsPath. intros Hp.
  destruct ((v =? "") || (4096 <? String.length v)%nat || ContainsAny v backslash_colon) eqn:H1; [done|].
  destruct (has_char is_control v) eqn:H2; [done|]. cbv zeta in Hp.
  destruct ((Clean v <>? v) || (Clean v =? ".") || (Clean v =? "..") || HasPrefix (Clean v) "../" || HasPrefix (Clean v) "/") eqn:H3; [done|].
  rewrite !orb_false_iff in H1. rewrite !orb_false_iff in H3. destruct H1 as [[_ H4%Nat.ltb_ge] H5]. destruct H3 as [[[[H6%negb_false_iff%bool_decide_eq_true _] _] _] _].
  rewrite H6 in Hp. rewrite forallb_forall in Hp. split_and!; [done| |done|done|done|].
  - apply Forall_forall. intros c Hc%list_elem_of_In. specialize (Hp c Hc). apply andb_true_iff in Hp as [Hp _].
    apply negb_true_iff in Hp. rewrite !orb_false_iff in Hp. destruct Hp as [[He%bool_decide_eq_false Hd] _].
    split_and!; [done| |]; intros ->; discriminate.
  - apply Forall_forall. intros c Hc%list_elem_of_In. specialize (Hp c Hc). apply andb_true_iff in Hp as [_ Hp].
    by apply negb_true_iff, bool_decide_eq_false in Hp.
Qed.

(** ** The loop over the files *)

Definition decoded_size (f : SettingsFile) : Z := from_option (λ l, Z.of_nat (length l)) 0%Z (DecodeString (sf_ContentB64 f)).

Lemma check_files_Ok files st st' : fold_each check_file files st = Ok st' →
  st'.2 = (st.2 + foldr Z.add 0 (decoded_size <$> files))%Z ∧ (st.2 ≤ MaxSettingsBundleBytes → st'.2 ≤ MaxSettingsBundleBytes)%Z ∧
  Forall (λ f, portableSettingsPath (sf_Path f) = true ∧ is_Some (DecodeString (sf_ContentB64 f))) files ∧
  NoDup (sf_Path <$> files) ∧ ∀ f, f ∈ files → sf_Path f ∉ st.1.
Proof.
  revert st. induction files as [|f files IH]; intros [seen total] Hf.
  { injection Hf as <-. cbn. split_and!; [lia|done|constructor|constructor|by intros ? ?%elem_of_nil]. }
  cbn [fold_each] in Hf. apply bind_Ok in Hf as (st1 & Hc & Hf). unfold check_file in Hc.
  apply bind_Ok in Hc as ([] & Hp%reject_if_Ok%negb_false_iff & Hc). cbv zeta in Hc.
  apply bind_Ok in Hc as ([] & Hs%reject_if_Ok%bool_decide_eq_false & Hc). apply bind_Ok in Hc as ([] & _ & Hc).
  destruct (DecodeString (sf_ContentB64 f)) as [decoded|] eqn:Hd; [|done].
  apply bind_Ok in Hc as ([] & Ht%reject_if_Ok%Z.ltb_ge & Hc).
  assert (Clean (sf_Path f) = sf_Path f) as Hcl by (by apply portable_segments). rewrite Hcl in *.
  assert (st1 = ({[sf_Path f]} ∪ seen, (total + Z.of_nat (length decoded))%Z)) as -> by congruence.
  destruct (IH _ Hf) as (H1 & H2 & H3 & H4 & H5). cbn [fst snd] in *.
  assert (Hsz : decoded_size f = Z.of_nat (length decoded)) by (unfold decoded_size; by rewrite Hd). split_and!.
  - cbn. rewrite H1, Hsz. lia.
  - intros _. by apply H2.
  - constructor; [by split|done].
  - cbn. constructor; [|done]. intros (g & Hg & Hin)%list_elem_of_fmap. apply (H5 g Hin). rewrite <- Hg. set_solver.
  - intros g [->|Hg]%elem_of_cons; [done|]. specialize (H5 g Hg). set_solver.
Qed.

(** * Samples *)

Module SettingsSamples.
Definition bundle : SettingsBundle := MkBundle "claude" (Some [MkFile "agents/review.md" "Zm9vYmE="; MkFile "settings.json" "e30="]).
Definition hash : string := result_or "" (SettingsObjectHash bundle).
End SettingsSamples.

(** * The claims *)

(** C36: A validated bundle cannot write outside its directory.  Every path, put below any clean
    rooted directory, is a clean path inside that directory, whose elements are plain and name
    no reserved device, without control characters, backslashes and colons; no two files have
    the same path; every content decodes and together they stay within the size limit; and the
    bundle has the hash that was expected. *)
Theorem settings_bundle_confined kind hash bundle : ValidateSettingsBundle kind hash bundle = Ok tt →
  (∀ f root, f ∈ elems (sb_Files bundle) → root ≠ [] → Forall plain_element root → Forall no_slash root →
    let directory := "/" +:+ Join root "/" in
    Clean (directory +:+ "/" +:+ sf_Path f) = directory +:+ "/" +:+ sf_Path f ∧ Forall plain_element (Split (sf_Path f) slash) ∧
    Forall (λ c, ToUpper (segment_base c) ∉ reserved_names) (Split (sf_Path f) slash) ∧
    ContainsAny (sf_Path f) backslash_colon = false ∧ has_char is_control (sf_Path f) = false) ∧
  NoDup (sf_Path <$> elems (sb_Files bundle)) ∧
  Forall (λ f, is_Some (DecodeString (sf_ContentB64 f))) (elems (sb_Files bundle)) ∧
  (foldr Z.add 0 (decoded_size <$> elems (sb_Files bundle)) ≤ MaxSettingsBundleBytes)%Z ∧
  sb_Kind bundle = kind ∧ (hash ≠ "" → SettingsObjectHash bundle = Ok hash).
Proof.
  unfold ValidateSettingsBundle. intros Hv. apply bind_Ok in Hv as ([] & Hk%reject_if_Ok & Hv). apply bind_Ok in Hv as ([] & _ & Hv).
  apply bind_Ok in Hv as (st & Hf & Hh). apply check_files_Ok in Hf as (H1 & H2 & H3 & H4 & _). cbn [fst snd] in *.
  apply orb_false_iff in Hk as [_ Hk%negb_false_iff%bool_decide_eq_true]. rewrite Forall_forall in H3. split_and!; [|done| | |done|].
  - intros f root Hf Hr Hp Hs. destruct (H3 f Hf) as [Hport _]. apply portable_segments in Hport as (_ & Hpl & _ & Hb & Hc & Hres).
    cbn zeta. split_and!; [|done..]. pose proof (Split_not_nil (sf_Path f) slash) as Hne.
    assert ("/" +:+ Join (root ++ Split (sf_Path f) slash) "/" = ("/" +:+ Join root "/") +:+ "/" +:+ sf_Path f) as <-.
    { rewrite Join_app by done. by rewrite Join_Split, <- string_app_assoc. }
    apply Clean_rooted; [by destruct root|by apply Forall_app|]. apply Forall_app. split; [done|apply Split_no_slash].
  - apply Forall_forall. intros f Hf. by apply H3.
  - unfold MaxSettingsBundleBytes in *. lia.
  - intros Hne. rewrite bool_decide_false in Hh by done. cbn [negb] in Hh. apply bind_Ok in Hh as (got & Hg & Hh).
    apply reject_if_Ok, negb_false_iff, bool_decide_eq_true in Hh as ->. done.
Qed.

Lemma settings_bundle_confined_witness :
  Clean ("/" +:+ Join ["home"; "user"] "/" +:+ "/" +:+ "agents/review.md") = "/home/user/agents/review.md" ∧
  SettingsObjectHash SettingsSamples.bundle = Ok SettingsSamples.hash.
Proof.
  destruct (settings_bundle_confined "claude" SettingsSamples.hash SettingsSamples.bundle) as (Hf & _ & _ & _ & _ & Hh);
    [vm_compute; reflexivity|]. split.
  - apply (Hf (MkFile "agents/review.md" "Zm9vYmE=") ["home"; "user"]); [left|done|..].
    + repeat constructor; discriminate.
    + repeat constructor.
  - apply Hh. vm_compute. discriminate.
Defined.
