(* ===== verification/Capture.v ===== *)
(** * Capture journals

    Models [frozen_capture.go] and [capture_recovery.go] ([cli/internal/domain]): the private
    native input that a capture freezes, the journal of a capture attempt and its validation,
    and the publication an attempt stands for.  [CaptureAttempt.Fingerprint] is not modelled.

    [time_text] is the text inside [time.Time]'s JSON string, or its refusal. *)
From stdpp Require Import pretty.
From S2P Require Import Prelude GoStrings Utf8 GoJson Sha256 Values Lifecycle History Graph PublicationCatalog Catalog CanonicalJson Settings Staging.
From Stdlib Require Import Ascii.

(** ** Frozen input *)

Definition FrozenCaptureVersion : Z := 1.
Definition FrozenCaptureChunkBytes : Z := 1048576.
Definition FrozenCaptureMaxBytes : Z := 2147483648.
Definition FrozenCaptureMemoryMaxBytes : Z := 8388608.

(** [Structured] nil and empty marshal alike, and are ranged over alike. *)
Record NativeMemory := MkNative {
  nm_Provider : string; nm_Source : string; nm_Scope : string; nm_AutoLoadedPrefix : string; nm_Text : string;
  nm_Structured : gmap string string }.

Record FrozenCaptureChunk := MkFrozenChunk { fc_Hash : string; fc_Size : Z }.

Record FrozenCaptureInput := MkInput {
  fi_Version : Z; fi_Provider : string; fi_SourcePath : string; fi_Size : Z; fi_Hash : string; fi_Chunks : list FrozenCaptureChunk;
  fi_CapturedAt : time; fi_PolicyFingerprint : string; fi_DocIdentity : string; fi_SessionID : string;
  fi_NativeMemory : option NativeMemory }.

Definition native_json (m : NativeMemory) : json :=
  JObj (str_field "provider" (nm_Provider m) ++ str_field "source" (nm_Source m) ++ str_omitempty "scope" (nm_Scope m) ++
        str_omitempty "auto_loaded_prefix" (nm_AutoLoadedPrefix m) ++ str_field "text" (nm_Text m) ++
        omitempty (bool_decide (nm_Structured m = ∅)) "structured"
          (JObj (sort_fields ((λ p, (p.1, JStr p.2)) <$> map_to_list (nm_Structured m))))).

(** [consume]: the budget left after a value. *)
Definition consume (remaining : Z) (value : string) : result Z :=
  let n := Z.of_nat (String.length value) in
  reject_if (remaining <? n)%Z ErrFrozenCaptureInput ;; Ok (remaining - n)%Z.

Definition consume_pair (remaining : Z) (p : string * string) : result Z := left ← consume remaining p.1; consume left p.2.

(** The map is ranged over in the order of [pairs]. *)
Definition check_native_memory (provider : string) (m : NativeMemory) (pairs : list (string * string)) : result unit :=
  reject_if (nm_Provider m <>? provider) ErrFrozenCaptureInput ;;
  left ← fold_each consume [nm_Provider m; nm_Source m; nm_Scope m; nm_Text m; nm_AutoLoadedPrefix m] FrozenCaptureMemoryMaxBytes;
  fold_each consume_pair pairs left ;;
  reject_if (FrozenCaptureMemoryMaxBytes <? Z.of_nat (String.length (encode (native_json m))))%Z ErrFrozenCaptureInput.

Definition check_frozen_chunk (remaining : Z) (c : FrozenCaptureChunk) : result Z :=
  reject_if (negb (fc_Size c =? Z.min remaining FrozenCaptureChunkBytes)%Z || negb (is_ok (ValidateContentHash (fc_Hash c))))
    ErrFrozenCaptureInput ;;
  Ok (remaining - fc_Size c)%Z.

Definition lower_hex_alphabet : string := "0123456789abcdef".

Definition FrozenCaptureInput_Validate (input : FrozenCaptureInput) : result unit :=
  reject_if (negb (fi_Version input =? FrozenCaptureVersion)%Z ||
             ((fi_Provider input <>? ProviderClaude) && (fi_Provider input <>? ProviderCodex)) ||
             negb (HasPrefix (fi_SourcePath input) "/") || (Clean (fi_SourcePath input) <>? fi_SourcePath input) ||
             has_char (λ c, bool_decide (c = ascii_of_N 0)) (fi_SourcePath input) ||
             (fi_Size input <=? 0)%Z || (FrozenCaptureMaxBytes <? fi_Size input)%Z || time_IsZero (fi_CapturedAt input) ||
             negb (is_ok (ValidateContentHash (fi_Hash input))) || negb (is_ok (DocumentIdentity_Validate (fi_DocIdentity input))) ||
             negb (String.length (fi_PolicyFingerprint input) =? 64)%nat ||
             (Trim (fi_PolicyFingerprint input) lower_hex_alphabet <>? "")) ErrFrozenCaptureInput ;;
  reject_if (negb (Z.of_nat (length (fi_Chunks input)) =?
                   (fi_Size input + FrozenCaptureChunkBytes - 1) / FrozenCaptureChunkBytes)%Z) ErrFrozenCaptureInput ;;
  fold_each check_frozen_chunk (fi_Chunks input) (fi_Size input) ;;
  match fi_NativeMemory input with
  | Some m => check_native_memory (fi_Provider input) m (map_to_list (nm_Structured m))
  | None => Ok tt
  end.

(** ** Attempts *)

Record FrozenCaptureMemory := MkPlan {
  fp_Version : Z; fp_Snapshot : string; fp_ExpectedMemory : string; fp_Memory : string; fp_SelectionParent : string;
  fp_RootSelection : option HistoryEvent }.

Record CaptureOutcome := MkOutcome {
  co_MemoryHash : string; co_MemorySource : string; co_SessionID : string; co_Provider : string; co_State : string;
  co_SessionPath : string; co_Target : string; co_Error : string; co_Input : option FrozenCaptureInput;
  co_MemoryPlan : option FrozenCaptureMemory }.

Record CapturePredecessor := MkPredecessor { cp_AttemptID : string; cp_GitCommit : string }.

Record CaptureAttempt := MkAttempt {
  ca_Version : Z; ca_Proof : HistoryEvent; ca_Initial : string; ca_Outcomes : list CaptureOutcome;
  ca_Observation : option HistoryEvent; ca_Complete : bool; ca_FrozenPosition : option WorkingPosition; ca_Message : string;
  ca_Author : option TeamIdentity; ca_Settings : gmap string string; ca_InputsReady : bool;
  ca_FinalMemory : option FrozenCaptureMemory; ca_MemoryFinalized : bool; ca_Predecessor : option CapturePredecessor;
  ca_PredecessorObservation : option HistoryEvent }.

Definition FrozenCaptureMemory_Validate (m : FrozenCaptureMemory) : result unit :=
  reject_if (negb (fp_Version m =? 1)%Z || negb (is_ok (ValidateContentHash (fp_Snapshot m))) ||
             negb (is_ok (ValidateContentHash (fp_Memory m))) || negb (is_ok (ValidateOptionalContentHash (fp_ExpectedMemory m))))
    ErrHashMismatch ;;
  match fp_RootSelection m with
  | Some e => reject_if (negb (is_ok (ValidateHistoryEvent e)) || (ev_Target e <>? fp_Snapshot m) || (ev_MemorySelectionParent e =? ""))
                ErrHashMismatch
  | None => Ok tt
  end.

Definition validCaptureOID (s : string) : bool :=
  if negb (String.length s =? 40)%nat && negb (String.length s =? 64)%nat then false
  else if Trim s "0" =? "" then false
  else all_chars is_lower_hex s.

(** [strings.TrimPrefix(string(HashContent(...)), "sha256:")[:32]] *)
Definition short_hash (data : string) : string := take_chars 32 (TrimPrefix (HashContent data) "sha256:").

Definition CaptureProviderObservationID (attempt : string) (index : Z) : string :=
  short_hash ("frozen-capture-observation" +:+ zero_byte +:+ attempt +:+ zero_byte +:+ pretty index).
Definition CaptureBaselineObservationID (attempt : string) : string := short_hash ("capture-baseline" +:+ zero_byte +:+ attempt).
Definition CaptureFinalObservationID (attempt : string) : string := short_hash ("capture-final-memory" +:+ zero_byte +:+ attempt).
Definition CaptureContinuationObservationID (attempt : string) : string := short_hash ("capture-continuation" +:+ zero_byte +:+ attempt).
Definition CaptureCompletionObservationID (attempt : string) : string := short_hash ("capture-completion" +:+ zero_byte +:+ attempt).

Definition MatchesObservation (p : CaptureAttempt) (target : string) (e : HistoryEvent) : bool :=
  let proof := ca_Proof p in
  (ev_Kind e <>? "publish") && (ev_Kind e <>? "pr-merge") && (ev_RepoID e =? ev_RepoID proof) &&
  (ev_BranchID e =? ev_BranchID proof) && (ev_Branch e =? ev_Branch proof) && (ev_LocalBranch e =? ev_LocalBranch proof) &&
  (ev_WorktreeID e =? ev_WorktreeID proof) && (ev_GitAfter e =? ev_GitAfter proof) && (ev_Target e =? target).

Definition SameCapturePosition (a b : CaptureAttempt) : bool :=
  let x := ca_Proof a in let y := ca_Proof b in
  (ev_RepoID x =? ev_RepoID y) && (ev_WorktreeID x =? ev_WorktreeID y) && (ev_BranchID x =? ev_BranchID y) &&
  (ev_Branch x =? ev_Branch y) && (ev_LocalBranch x =? ev_LocalBranch y) && (ev_GitAfter x =? ev_GitAfter y).

(** *** Validation *)

Definition predecessor_event_bad (proof : HistoryEvent) (d : CapturePredecessor) (e : HistoryEvent) : bool :=
  negb (bool_decide (ev_ID e ∈ [CaptureFinalObservationID (cp_AttemptID d); CaptureBaselineObservationID (cp_AttemptID d);
          CaptureContinuationObservationID (cp_AttemptID d); CaptureProviderObservationID (cp_AttemptID d) 0;
          CaptureProviderObservationID (cp_AttemptID d) 1])) ||
  negb (is_ok (ValidateHistoryEvent e)) || (ev_Kind e <>? "position") || (ev_RepoID e <>? ev_RepoID proof) ||
  (ev_WorktreeID e <>? ev_WorktreeID proof) || (ev_BranchID e <>? ev_BranchID proof) || (ev_Branch e <>? ev_Branch proof) ||
  (ev_LocalBranch e <>? ev_LocalBranch proof) || (ev_GitAfter e <>? cp_GitCommit d) || (ev_Source e <>? ev_Target e) ||
  negb (ev_MemoryPinned e).

Definition has_some {A} (o : option A) : bool := match o with Some _ => true | None => false end.

Definition check_predecessor (p : CaptureAttempt) : result unit :=
  match ca_Predecessor p with
  | Some d =>
      reject_if (negb (ca_Version p =? 2)%Z || negb (String.length (cp_AttemptID d) =? 32)%nat ||
                 (Trim (cp_AttemptID d) lower_hex_alphabet <>? "") || (cp_AttemptID d =? ev_ID (ca_Proof p)) ||
                 negb (validCaptureOID (cp_GitCommit d)) || (cp_GitCommit d =? ev_GitAfter (ca_Proof p))) ErrHashMismatch ;;
      match ca_PredecessorObservation p with
      | Some e => reject_if (predecessor_event_bad (ca_Proof p) d e) ErrHashMismatch
      | None => reject_if (ca_Complete p || has_some (ca_FinalMemory p) || ca_MemoryFinalized p) ErrHashMismatch
      end
  | None => reject_if (has_some (ca_PredecessorObservation p)) ErrHashMismatch
  end.

Definition check_proof (p : CaptureAttempt) : result unit :=
  let proof := ca_Proof p in
  reject_if ((negb (ca_Version p =? 1)%Z && negb (ca_Version p =? 2)%Z) || (ev_Kind proof <>? "position") ||
             (ev_WorktreeID proof =? "") || negb (validCaptureOID (ev_GitAfter proof)) || (ev_Source proof <>? ev_Target proof) ||
             (length (ca_Outcomes p) =? 0)%nat) ErrHashMismatch ;;
  ValidateHistoryEvent proof ;;
  ValidateOptionalContentHash (ca_Initial p).

Definition frozen_position_bad (p : CaptureAttempt) : bool :=
  let proof := ca_Proof p in
  match ca_FrozenPosition p with
  | None => true
  | Some f =>
      (wp_RepoID f <>? ev_RepoID proof) || (wp_WorktreeID f <>? ev_WorktreeID proof) || (wp_BranchID f <>? ev_BranchID proof) ||
      (wp_Branch f <>? ev_Branch proof) || (wp_LocalBranch f <>? ev_LocalBranch proof) || (wp_Snapshot f <>? ca_Initial p) ||
      (wp_MemoryHash f <>? ev_MemoryHash proof) || (wp_MemorySource f <>? ev_MemorySource proof)
  end.

(** The range over the settings finds an entry that is not valid in any order, or none. *)
Definition settings_bad (settings : gmap string string) : bool :=
  existsb (λ p, negb (ValidSettingsKind p.1) || negb (is_ok (ValidateContentHash p.2))) (map_to_list settings).

Definition check_version (p : CaptureAttempt) : result unit :=
  reject_if ((ca_Version p =? 1)%Z &&
             (has_some (ca_FrozenPosition p) || ca_InputsReady p || bool_decide (ca_Settings p ≠ ∅) || (ca_Message p <>? "") ||
              has_some (ca_Author p) || has_some (ca_FinalMemory p) || ca_MemoryFinalized p)) ErrHashMismatch ;;
  if (ca_Version p =? 2)%Z then
    reject_if (from_option (λ m, negb (is_ok (FrozenCaptureMemory_Validate m))) false (ca_FinalMemory p)) ErrHashMismatch ;;
    reject_if (frozen_position_bad p) ErrHashMismatch ;;
    reject_if (settings_bad (ca_Settings p)) ErrHashMismatch ;;
    reject_if (ca_Complete p && (negb (ca_InputsReady p) || negb (ca_MemoryFinalized p))) ErrHashMismatch
  else Ok tt.

Definition memory_plan_bad (p : CaptureAttempt) (o : CaptureOutcome) : bool :=
  match co_MemoryPlan o with
  | None => false
  | Some m => negb (ca_Version p =? 2)%Z || negb (is_ok (FrozenCaptureMemory_Validate m)) || (co_State o =? "absent") ||
              ((co_State o =? "saved") && ((fp_Snapshot m <>? co_Target o) || (fp_Memory m <>? co_MemoryHash o)))
  end.

Definition outcome_memory_bad (p : CaptureAttempt) (o : CaptureOutcome) : bool :=
  negb (is_ok (ValidateOptionalContentHash (co_MemoryHash o))) || negb (is_ok (ValidateOptionalContentHash (co_MemorySource o))) ||
  ((co_MemoryHash o =? "") && (co_MemorySource o <>? "")) ||
  ((ca_Version p =? 1)%Z && ((co_MemoryHash o <>? "") || (co_MemorySource o <>? ""))).

Definition outcome_input_bad (p : CaptureAttempt) (o : CaptureOutcome) : bool :=
  match co_Input o with
  | None => false
  | Some input => negb (ca_Version p =? 2)%Z || (fi_Provider input <>? co_Provider o) || negb (is_ok (FrozenCaptureInput_Validate input))
  end.

(** [member], [hasTarget] and [seen] *)
Record outcome_state := MkOutcomeState { os_member : bool; os_hasTarget : bool; os_seen : gset string }.

Definition check_outcome (p : CaptureAttempt) (st : outcome_state) (o : CaptureOutcome) : result outcome_state :=
  reject_if (memory_plan_bad p o) ErrHashMismatch ;;
  reject_if (((co_Provider o <>? ProviderClaude) && (co_Provider o <>? ProviderCodex)) || bool_decide (co_Provider o ∈ os_seen st))
    ErrHashMismatch ;;
  let seen := {[co_Provider o]} ∪ os_seen st in
  reject_if (outcome_memory_bad p o) ErrHashMismatch ;;
  reject_if (outcome_input_bad p o) ErrHashMismatch ;;
  reject_if ((ca_Version p =? 2)%Z &&
             (((co_State o =? "absent") && has_some (co_Input o)) ||
              (ca_InputsReady p && (co_State o <>? "absent") && negb (has_some (co_Input o))))) ErrHashMismatch ;;
  st ← (if co_State o =? "saved" then
          ValidateContentHash (co_Target o) ;;
          Ok (MkOutcomeState (os_member st || (ev_Target (ca_Proof p) =? co_Target o)) true seen)
        else if (co_State o =? "absent") || (co_State o =? "pending") then
          reject_if (co_Target o <>? "") ErrHashMismatch ;; Ok (MkOutcomeState (os_member st) (os_hasTarget st) seen)
        else if co_State o =? "failed" then
          ValidateOptionalContentHash (co_Target o) ;; Ok (MkOutcomeState (os_member st) (os_hasTarget st) seen)
        else Err ErrHashMismatch);
  reject_if (ca_Complete p && (co_State o <>? "saved") && (co_State o <>? "absent")) ErrHashMismatch ;;
  Ok st.

Definition initial_state (p : CaptureAttempt) : outcome_state :=
  let target := ev_Target (ca_Proof p) in
  let st := MkOutcomeState (target =? ca_Initial p) (ca_Initial p <>? "") ∅ in
  match ca_PredecessorObservation p with
  | Some e => if ev_Target e <>? "" then MkOutcomeState (os_member st || (target =? ev_Target e)) true ∅ else st
  | None => st
  end.

Definition CaptureAttempt_Validate (p : CaptureAttempt) : result unit :=
  check_predecessor p ;;
  check_proof p ;;
  check_version p ;;
  st ← fold_each (check_outcome p) (ca_Outcomes p) (initial_state p);
  reject_if (ca_Complete p && (negb (os_member st) || (os_hasTarget st && (ev_Target (ca_Proof p) =? "")))) ErrHashMismatch ;;
  match ca_Observation p with
  | Some e =>
      reject_if (negb (MatchesObservation p (ev_Target (ca_Proof p)) e)) ErrHashMismatch ;;
      ValidateHistoryEvent e
  | None => Ok tt
  end.

(** ** Publications *)

Definition bool_omitempty (name : string) (b : bool) : list (string * json) := omitempty (negb b) name (JBool b).

Definition creation_json (c : GitCreation) : json :=
  JObj (str_field "evidence" (gc_Evidence c) ++ list_omitempty JStr "command" (elems (gc_Command c)) ++
        str_omitempty "start_ref" (gc_StartRef c) ++ str_omitempty "start_commit" (gc_StartCommit c) ++
        str_omitempty "origin_branch" (gc_OriginBranch c) ++ str_omitempty "origin_branch_id" (gc_OriginBranchID c)).

Definition pull_request_json (r : PullRequestMerge) : json :=
  JObj (field "number" (JInt (pr_Number r)) ++ str_field "base_branch" (pr_BaseBranch r) ++ str_field "head_branch" (pr_HeadBranch r) ++
        str_field "head_sha" (pr_HeadSHA r) ++ str_field "merge_sha" (pr_MergeSHA r)).

Section publication.
Context (time_text : time → result string).

Definition event_json (e : HistoryEvent) : result json :=
  created ← time_text (ev_CreatedAt e);
  Ok (JObj (pointer_omitempty creation_json "creation" (ev_Creation e) ++ bool_omitempty "pr_completed" (ev_PRCompleted e) ++
    str_omitempty "recovery_evidence" (ev_RecoveryEvidence e) ++ pointer_omitempty pull_request_json "pr" (ev_PR e) ++
    str_omitempty "source_branch_id" (ev_SourceBranchID e) ++ str_field "id" (ev_ID e) ++ str_field "repo_id" (ev_RepoID e) ++
    str_field "branch_id" (ev_BranchID e) ++ str_field "branch" (ev_Branch e) ++ str_field "kind" (ev_Kind e) ++
    str_omitempty "local_branch" (ev_LocalBranch e) ++ str_omitempty "previous_branch" (ev_PreviousBranch e) ++
    str_omitempty "binding_parent" (ev_BindingParent e) ++ str_omitempty "name_parent" (ev_NameParent e) ++
    str_omitempty "memory_selection_parent" (ev_MemorySelectionParent e) ++ str_omitempty "source" (ev_Source e) ++
    str_omitempty "target" (ev_Target e) ++ str_omitempty "shared_target" (ev_SharedTarget e) ++
    str_omitempty "memory_source" (ev_MemorySource e) ++ str_omitempty "memory_hash" (ev_MemoryHash e) ++
    bool_omitempty "memory_pinned" (ev_MemoryPinned e) ++ str_omitempty "git_before" (ev_GitBefore e) ++
    str_omitempty "git_after" (ev_GitAfter e) ++ str_omitempty "worktree_id" (ev_WorktreeID e) ++ str_field "created_at" created)).

(** [raw, _ := json.Marshal(e)] *)
Definition event_bytes (e : HistoryEvent) : string := match event_json e with Ok j => encode j | Err _ => "" end.

Definition zero_time : time := MkTime 0 0.

Definition with_ID_CreatedAt (e : HistoryEvent) (id : string) (at_ : time) : HistoryEvent :=
  MkHistoryEvent (ev_Creation e) (ev_PRCompleted e) (ev_RecoveryEvidence e) (ev_PR e) (ev_SourceBranchID e) id (ev_RepoID e)
    (ev_BranchID e) (ev_Branch e) (ev_Kind e) (ev_LocalBranch e) (ev_PreviousBranch e) (ev_BindingParent e) (ev_NameParent e)
    (ev_MemorySelectionParent e) (ev_Source e) (ev_Target e) (ev_SharedTarget e) (ev_MemorySource e) (ev_MemoryHash e)
    (ev_MemoryPinned e) (ev_GitBefore e) (ev_GitAfter e) (ev_WorktreeID e) at_.

Definition CapturePublicationID (e : HistoryEvent) : string :=
  short_hash ("publication" +:+ zero_byte +:+ event_bytes (with_ID_CreatedAt e "" zero_time)).

(** The event published for an attempt, before its ID. *)
Definition publication_body (e : HistoryEvent) : HistoryEvent :=
  MkHistoryEvent None (ev_PRCompleted e) (ev_RecoveryEvidence e) (ev_PR e) (ev_SourceBranchID e) (ev_ID e) (ev_RepoID e)
    (ev_BranchID e) (ev_Branch e) "publish" (ev_LocalBranch e) (ev_PreviousBranch e) (ev_BindingParent e) (ev_NameParent e)
    (ev_MemorySelectionParent e) (ev_Source e) (ev_Target e) (ev_SharedTarget e) "" "" true (ev_GitBefore e) (ev_GitAfter e)
    (ev_WorktreeID e) (ev_CreatedAt e).

Definition Publication (p : CaptureAttempt) : HistoryEvent :=
  let e := publication_body (ca_Proof p) in
  with_ID_CreatedAt e (CapturePublicationID e) (ev_CreatedAt e).
End publication.

(** * Properties *)

(** ** Identifiers *)

Lemma TrimPrefix_hash data : TrimPrefix (HashContent data) "sha256:" = Sha256.hex_digest data.
Proof. apply (TrimPrefix_app "sha256:" (Sha256.hex_digest data)). Qed.

Lemma take_chars_length n s : n ≤ String.length s → String.length (take_chars n s) = n.
Proof. revert s. induction n as [|n IH]; intros [|c s]; cbn; [done..|lia|]. intros Hn. rewrite IH; lia. Qed.

Lemma take_chars_all_chars P n s : all_chars P s = true → all_chars P (take_chars n s) = true.
Proof.
  revert s. induction n as [|n IH]; intros [|c s]; cbn; try done. intros [H1 H2]%andb_true_iff. by rewrite H1, IH.
Qed.

Lemma lower_hex_is_hex s : all_chars is_lower_hex s = true → all_chars is_hex s = true.
Proof.
  induction s as [|c s IH]; cbn; [done|]. intros [H1 H2]%andb_true_iff. rewrite IH by done. unfold is_hex. by rewrite H1.
Qed.

Lemma short_hash_valid data : operation_id_valid (short_hash data) = true.
Proof.
  unfold short_hash. rewrite TrimPrefix_hash. pose proof (Sha256.hex_digest_length data) as Hl.
  pose proof (Sha256.hex_digest_lower data) as Hh. revert Hl Hh. generalize (Sha256.hex_digest data). intros d Hl Hh.
  apply (take_chars_all_chars _ 32) in Hh. assert (Hn : String.length (take_chars 32 d) = 32) by (apply take_chars_length; lia).
  unfold operation_id_valid, hex_decodes. rewrite Hn, ToLower_lower_hex, lower_hex_is_hex by done. by rewrite !bool_decide_true by done.
Qed.

(** ** Chunks *)

Definition chunk_sizes (chunks : list FrozenCaptureChunk) : Z := foldr Z.add 0%Z (fc_Size <$> chunks).

Lemma frozen_chunks_Ok chunks size left : fold_each check_frozen_chunk chunks size = Ok left →
  chunk_sizes chunks = (size - left)%Z ∧ Forall (λ c, ValidateContentHash (fc_Hash c) = Ok tt) chunks ∧
  ∀ before c after, chunks = before ++ c :: after → fc_Size c = Z.min (size - chunk_sizes before) FrozenCaptureChunkBytes.
Proof.
  revert size. induction chunks as [|c chunks IH]; intros size Hf.
  { injection Hf as <-. split_and!; [cbn; lia|constructor|]. intros [|] ? ? [=]. }
  cbn [fold_each] in Hf. apply bind_Ok in Hf as (s1 & Hc & Hf). unfold check_frozen_chunk in Hc.
  apply bind_Ok in Hc as ([] & Hg%reject_if_Ok & [= <-]). apply orb_false_iff in Hg as [Hs%negb_false_iff%Z.eqb_eq Hh%negb_false_iff%is_ok_unit].
  destruct (IH _ Hf) as (H1 & H2 & H3). split_and!.
  - unfold chunk_sizes in *. cbn. rewrite H1. lia.
  - by constructor.
  - intros [|b before] c' after [= -> Heq]; [cbn; by rewrite Z.sub_0_r|].
    unfold chunk_sizes. cbn [fmap list_fmap foldr]. fold (chunk_sizes before). rewrite (H3 before c' after Heq). f_equal. lia.
Qed.

Lemma chunks_left chunks size left : (0 ≤ size)%Z → fold_each check_frozen_chunk chunks size = Ok left →
  left = (size - Z.min size (Z.of_nat (length chunks) * FrozenCaptureChunkBytes))%Z.
Proof.
  revert size. induction chunks as [|c chunks IH]; intros size Hs Hf.
  { injection Hf as <-. cbn. lia. }
  cbn [fold_each] in Hf. apply bind_Ok in Hf as (s1 & Hc & Hf). unfold check_frozen_chunk in Hc.
  apply bind_Ok in Hc as ([] & Hg%reject_if_Ok & [= <-]). apply orb_false_iff in Hg as [Hz%negb_false_iff%Z.eqb_eq _].
  unfold FrozenCaptureChunkBytes in *. apply IH in Hf as ->; [|lia]. cbn [length]. lia.
Qed.

Lemma chunk_sizes_prefix before after size left : (0 ≤ size)%Z → fold_each check_frozen_chunk (before ++ after) size = Ok left →
  chunk_sizes before = Z.min size (Z.of_nat (length before) * FrozenCaptureChunkBytes).
Proof.
  intros Hs (s1 & Hb & _)%fold_each_app. pose proof (chunks_left _ _ _ Hs Hb) as ->.
  apply frozen_chunks_Ok in Hb as (-> & _). lia.
Qed.

(** ** Native memory *)

Definition pair_size (p : string * string) : Z := Z.of_nat (String.length p.1) + Z.of_nat (String.length p.2).
Definition pairs_size (pairs : list (string * string)) : Z := foldr Z.add 0%Z (pair_size <$> pairs).

Lemma pairs_size_nonneg pairs : (0 ≤ pairs_size pairs)%Z.
Proof. unfold pairs_size. induction pairs as [|p pairs IH]; cbn; [lia|]. unfold pair_size at 1. lia. Qed.

Lemma consume_pairs pairs left : fold_each consume_pair pairs left =
  if decide (pairs = []) then Ok left else if (left <? pairs_size pairs)%Z then Err ErrFrozenCaptureInput else Ok (left - pairs_size pairs)%Z.
Proof.
  revert left. induction pairs as [|p pairs IH]; intros left; [done|]. cbn [fold_each]. rewrite decide_False by done.
  pose proof (pairs_size_nonneg pairs) as Hrest. assert (Hs : pairs_size (p :: pairs) = (pair_size p + pairs_size pairs)%Z) by done.
  rewrite Hs. unfold consume_pair, consume, reject_if, pair_size.
  set (a := Z.of_nat (String.length p.1)). set (b := Z.of_nat (String.length p.2)).
  destruct (Z.ltb_spec left (a + b + pairs_size pairs)) as [Hlt|Hge].
  - destruct (Z.ltb_spec left a); [done|]. cbn [mbind result_bind]. destruct (Z.ltb_spec (left - a) b); [done|]. cbn [mbind result_bind].
    rewrite IH. case_decide as Hp; [subst pairs; cbn in Hlt; lia|]. by destruct (Z.ltb_spec (left - a - b) (pairs_size pairs)); [|lia].
  - destruct (Z.ltb_spec left a); [lia|]. cbn [mbind result_bind]. destruct (Z.ltb_spec (left - a) b); [lia|]. cbn [mbind result_bind].
    rewrite IH. case_decide as Hp; [subst pairs; cbn; f_equal; lia|].
    destruct (Z.ltb_spec (left - a - b) (pairs_size pairs)); [lia|]. f_equal. lia.
Qed.

Lemma pairs_size_permutation pairs pairs' : pairs ≡ₚ pairs' → pairs_size pairs = pairs_size pairs'.
Proof. unfold pairs_size. induction 1; cbn; lia. Qed.

(** The order in which the map is ranged over does not matter. *)
Lemma check_native_memory_order provider m pairs pairs' : pairs ≡ₚ pairs' →
  check_native_memory provider m pairs = check_native_memory provider m pairs'.
Proof.
  intros Hp. unfold check_native_memory. destruct (reject_if (nm_Provider m <>? provider) ErrFrozenCaptureInput) as [[]|]; [|reflexivity]. cbn [mbind result_bind].
  destruct (fold_each consume _ _) as [left|]; [|reflexivity]. cbn [mbind result_bind]. rewrite !consume_pairs, (pairs_size_permutation _ _ Hp).
  assert (pairs = [] ↔ pairs' = []) as Hnil.
  { rewrite <- !length_zero_iff_nil. by rewrite (Permutation_length Hp). }
  do 2 case_decide; tauto.
Qed.

(** ** Outcomes *)

Record outcome_facts (p : CaptureAttempt) (o : CaptureOutcome) : Prop := {
  of_provider : co_Provider o = ProviderClaude ∨ co_Provider o = ProviderCodex;
  of_saved : co_State o = "saved" → ValidateContentHash (co_Target o) = Ok tt;
  of_complete : ca_Complete p = true → co_State o = "saved" ∨ co_State o = "absent";
  of_input : ca_Version p = 2%Z → ca_InputsReady p = true → co_State o ≠ "absent" →
    ∃ input, co_Input o = Some input ∧ fi_Provider input = co_Provider o ∧ FrozenCaptureInput_Validate input = Ok tt }.

Lemma check_outcome_Ok p st o st' : check_outcome p st o = Ok st' →
  outcome_facts p o ∧ co_Provider o ∉ os_seen st ∧ os_seen st' = {[co_Provider o]} ∪ os_seen st ∧
  os_member st' = os_member st || ((co_State o =? "saved") && (ev_Target (ca_Proof p) =? co_Target o)) ∧
  os_hasTarget st' = os_hasTarget st || (co_State o =? "saved").
Proof.
  unfold check_outcome. intros Hc. apply bind_Ok in Hc as ([] & _ & Hc). apply bind_Ok in Hc as ([] & Hp%reject_if_Ok & Hc).
  cbv zeta in Hc. apply bind_Ok in Hc as ([] & _ & Hc). apply bind_Ok in Hc as ([] & Hin%reject_if_Ok & Hc).
  apply bind_Ok in Hc as ([] & Hready%reject_if_Ok & Hc). apply bind_Ok in Hc as (st1 & Hst & Hc).
  apply bind_Ok in Hc as ([] & Hcomp%reject_if_Ok & Hc). assert (st1 = st') as -> by congruence.
  apply orb_false_iff in Hp as [Hprov Hseen%bool_decide_eq_false].
  assert (Hst' : os_seen st' = {[co_Provider o]} ∪ os_seen st ∧
    os_member st' = os_member st || ((co_State o =? "saved") && (ev_Target (ca_Proof p) =? co_Target o)) ∧
    os_hasTarget st' = os_hasTarget st || (co_State o =? "saved") ∧
    (co_State o = "saved" → ValidateContentHash (co_Target o) = Ok tt)).
  { destruct (co_State o =? "saved") eqn:Hsaved.
    - apply bind_Ok in Hst as ([] & Hh & Hst). injection Hst as <-. cbn. by rewrite orb_true_r.
    - apply bool_decide_eq_false in Hsaved. cbn. rewrite !orb_false_r.
      destruct ((co_State o =? "absent") || (co_State o =? "pending"));
        [|destruct (co_State o =? "failed"); [|done]]; apply bind_Ok in Hst as ([] & _ & Hst); injection Hst as <-; done. }
  destruct Hst' as (H1 & H2 & H3 & H4). split; [|done]. split; [|done| |].
  - apply andb_false_iff in Hprov as [Hx|Hx]; apply negb_false_iff, bool_decide_eq_true in Hx; [by left|by right].
  - intros Hx. rewrite Hx in Hcomp. cbn in Hcomp. apply andb_false_iff in Hcomp as [Hy|Hy];
      apply negb_false_iff, bool_decide_eq_true in Hy; [by left|by right].
  - intros Hv Hr Hne. rewrite Hv, Hr in Hready. cbn in Hready. apply orb_false_iff in Hready as [_ Hready].
    rewrite (bool_decide_false (co_State o = "absent")) in Hready by done. cbn in Hready. apply negb_false_iff in Hready.
    unfold outcome_input_bad in Hin. destruct (co_Input o) as [input|]; [|done]. exists input. split; [done|].
    rewrite !orb_false_iff in Hin. destruct Hin as [[_ Ha%negb_false_iff%bool_decide_eq_true] Hb%negb_false_iff%is_ok_unit]. done.
Qed.

Lemma check_outcomes_Ok p outcomes st st' : fold_each (check_outcome p) outcomes st = Ok st' →
  Forall (outcome_facts p) outcomes ∧ NoDup (co_Provider <$> outcomes) ∧ (∀ o, o ∈ outcomes → co_Provider o ∉ os_seen st) ∧
  (os_member st' = true ↔ os_member st = true ∨ ∃ o, o ∈ outcomes ∧ co_State o = "saved" ∧ co_Target o = ev_Target (ca_Proof p)) ∧
  (os_hasTarget st' = true ↔ os_hasTarget st = true ∨ ∃ o, o ∈ outcomes ∧ co_State o = "saved").
Proof.
  revert st. induction outcomes as [|o outcomes IH]; intros st Hf.
  { injection Hf as <-. split_and!; [constructor|constructor|by intros ? ?%elem_of_nil|..]; (split; [by left|]);
      intros [?|(o & Hx & _)]; try done; by apply elem_of_nil in Hx. }
  cbn [fold_each] in Hf. apply bind_Ok in Hf as (st1 & (H1 & H2 & H3 & H4 & H5)%check_outcome_Ok & Hf).
  destruct (IH st1 Hf) as (I1 & I2 & I3 & I4 & I5). split_and!.
  - by constructor.
  - cbn. constructor; [|done]. intros (x & Hx & Hin)%list_elem_of_fmap. apply (I3 x Hin). rewrite H3, <- Hx. set_solver.
  - intros x [->|Hx]%elem_of_cons; [done|]. specialize (I3 x Hx). rewrite H3 in I3. set_solver.
  - rewrite I4, H4, orb_true_iff, andb_true_iff, !bool_decide_eq_true. setoid_rewrite elem_of_cons. split.
    + intros [[Hm|[Hs Ht]]|(x & Hx & Hs)]; [by left|right; exists o; auto|right; exists x; auto].
    + intros [Hm|(x & [->|Hx] & Hs & Ht)]; [by left; left|left; right; auto|right; exists x; auto].
  - rewrite I5, H5, orb_true_iff, bool_decide_eq_true. setoid_rewrite elem_of_cons. naive_solver.
Qed.

(** ** Publications *)

Lemma Trim_zero_nonempty s : Trim s "0" ≠ "" → s ≠ "".
Proof. by intros Ht ->. Qed.

Lemma validCaptureOID_true s : validCaptureOID s = true → s ≠ "" ∧ ToLower s = s ∧ Trim s "0" ≠ "".
Proof.
  unfold validCaptureOID. destruct (negb (String.length s =? 40)%nat && negb (String.length s =? 64)%nat) eqn:Hl; [done|].
  destruct (Trim s "0" =? "") eqn:Ht; [done|]. intros Hs. apply bool_decide_eq_false in Ht.
  split_and!; [|by apply ToLower_lower_hex|done]. by apply Trim_zero_nonempty.
Qed.

(** What a valid attempt says of its proof. *)
Lemma attempt_proof p : CaptureAttempt_Validate p = Ok tt → ValidateHistoryEvent (ca_Proof p) = Ok tt ∧ ev_Kind (ca_Proof p) = "position" ∧
  ev_Source (ca_Proof p) = ev_Target (ca_Proof p) ∧ validCaptureOID (ev_GitAfter (ca_Proof p)) = true.
Proof.
  unfold CaptureAttempt_Validate. intros Hv. apply bind_Ok in Hv as ([] & _ & Hv). apply bind_Ok in Hv as ([] & Hp & _).
  unfold check_proof in Hp. apply bind_Ok in Hp as ([] & Hr%reject_if_Ok & Hp). apply bind_Ok in Hp as ([] & He & _).
  rewrite !orb_false_iff in Hr. destruct Hr as [[[[[_ Hk%negb_false_iff%bool_decide_eq_true] _] Ho%negb_false_iff] Hs%negb_false_iff%bool_decide_eq_true] _].
  done.
Qed.

Lemma publication_valid time_text p : CaptureAttempt_Validate p = Ok tt → ev_Target (ca_Proof p) ≠ "" →
  ValidateBranchName (ev_Branch (ca_Proof p)) = Ok tt → ev_MemorySelectionParent (ca_Proof p) = "" →
  ev_BindingParent (ca_Proof p) ≠ ev_ID (Publication time_text p) → ValidateHistoryEvent (Publication time_text p) = Ok tt.
Proof.
  intros (He & Hk & Hst & Ho)%attempt_proof Ht Hbranch Hmsp Hbind. apply validCaptureOID_true in Ho as (Ho1 & Ho2 & Ho3).
  revert Hbind. unfold Publication. set (id := CapturePublicationID time_text (publication_body (ca_Proof p))).
  assert (Hid : operation_id_valid id = true) by apply short_hash_valid. clearbody id. revert He Hk Hst Ho1 Ho2 Ho3 Ht Hbranch Hmsp.
  generalize (ca_Proof p). intros e He Hk Hst Ho1 Ho2 Ho3 Ht Hbranch Hmsp Hbind. cbn in Hbind.
  unfold ValidateHistoryEvent in He. rewrite Hk in He.
  apply bind_Ok in He as ([] & _ & He). apply bind_Ok in He as ([] & _ & He). apply bind_Ok in He as ([] & Hbid & He).
  apply bind_Ok in He as ([] & Hrepo & He). apply bind_Ok in He as ([] & _ & He). apply bind_Ok in He as ([] & _ & He).
  apply bind_Ok in He as ([] & _ & He). apply bind_Ok in He as ([] & Hrec & He). apply bind_Ok in He as ([] & Hpr & He).
  apply bind_Ok in He as ([] & Hlocal & He). apply bind_Ok in He as ([] & Hprev & He). apply bind_Ok in He as ([] & _ & He).
  apply bind_Ok in He as ([] & Hdeps & He). apply bind_Ok in He as ([] & Htime & He). apply bind_Ok in He as ([] & Hhashes & He).
  apply bind_Ok in He as ([] & Hoids & He). apply bind_Ok in He as ([] & Hwt & _).
  assert (ev_RecoveryEvidence e = "") as Hre.
  { apply reject_if_Ok, andb_false_iff in Hrec as [Hx|Hx]; [by apply negb_false_iff, bool_decide_eq_true in Hx|done]. }
  unfold validate_pr_binding in Hpr. rewrite Hk in Hpr.
  apply reject_if_Ok, orb_false_iff in Hprev as [Hp1%negb_false_iff%bool_decide_eq_true Hp2%negb_false_iff%bool_decide_eq_true].
  unfold ValidateHistoryEvent, validate_pr_binding. cbn [with_ID_CreatedAt publication_body ev_Creation ev_ID ev_BranchID ev_RepoID
    ev_Branch ev_Kind ev_Target ev_Source ev_GitAfter ev_RecoveryEvidence ev_PR ev_SourceBranchID ev_PRCompleted ev_LocalBranch
    ev_PreviousBranch ev_NameParent ev_MemorySelectionParent ev_MemoryPinned ev_MemoryHash ev_MemorySource ev_WorktreeID
    ev_CreatedAt ev_SharedTarget ev_GitBefore ValidateGitCreation].
  rewrite Hid, Hre, Hp1, Hp2, Hmsp. cbn [negb]. 
  apply bind_Ok. exists tt. split; [done|]. apply bind_Ok. exists tt. split; [done|]. apply bind_Ok. exists tt. split; [exact Hbid|].
  apply bind_Ok. exists tt. split; [exact Hrepo|]. apply bind_Ok. exists tt. split; [by rewrite orb_true_r|].
  apply bind_Ok. exists tt. split; [done|]. apply bind_Ok. exists tt. split.
  { apply reject_if_Ok, andb_false_iff. right. rewrite Ho2, Hst, !orb_false_iff. split_and!; [by apply bool_decide_eq_false|
      by apply negb_false_iff, bool_decide_eq_true|by apply bool_decide_eq_false|by apply negb_false_iff, bool_decide_eq_true|
      by apply bool_decide_eq_false]. }
  apply bind_Ok. exists tt. split; [done|]. apply bind_Ok. exists tt. split; [exact Hpr|].
  apply bind_Ok. exists tt. split; [exact Hlocal|]. apply bind_Ok. exists tt. split; [done|].
  apply bind_Ok. exists tt. split; [done|]. apply bind_Ok. exists tt. split.
  { apply for_each_Ok, Forall_forall. apply for_each_Ok in Hdeps. rewrite Forall_forall in Hdeps.
    intros d Hd. apply HistoryDependencies_elem in Hd as [Hne Hd]. cbn in Hd. rewrite Hp2, Hmsp in Hd. destruct Hd as [->|[?|?]]; [|done..].
    assert (Hin : ev_BindingParent e ∈ HistoryDependencies e) by (apply HistoryDependencies_elem; split; [done|by left]).
    specialize (Hdeps _ Hin). cbn beta in Hdeps. rewrite bool_decide_false in Hdeps |- * by done.
    apply reject_if_Ok, orb_false_iff in Hdeps as [_ Hop]. apply reject_if_Ok, orb_false_iff. split; [by apply bool_decide_eq_false|done]. }
  apply bind_Ok. exists tt. split; [exact Htime|]. apply bind_Ok. exists tt. split.
  { apply for_each_Ok in Hhashes. apply for_each_Ok. rewrite !Forall_cons in Hhashes |- *.
    destruct Hhashes as (? & ? & ? & _). split_and!; done. }
  apply bind_Ok. exists tt. split; [exact Hoids|]. apply bind_Ok. exists tt. split; [exact Hwt|]. done.
Qed.

(** ** Claims *)

Lemma ceiling_bounds size n : (0 < size)%Z → n = ((size + FrozenCaptureChunkBytes - 1) / FrozenCaptureChunkBytes)%Z →
  ((n - 1) * FrozenCaptureChunkBytes < size <= n * FrozenCaptureChunkBytes)%Z.
Proof.
  intros Hs ->. unfold FrozenCaptureChunkBytes. pose proof (Z.div_mod (size + 1048576 - 1) 1048576 ltac:(lia)).
  pose proof (Z.mod_pos_bound (size + 1048576 - 1) 1048576 ltac:(lia)). lia.
Qed.

Lemma initial_member p : os_member (initial_state p) = true ↔ ev_Target (ca_Proof p) = ca_Initial p ∨
  ∃ e, ca_PredecessorObservation p = Some e ∧ ev_Target e ≠ "" ∧ ev_Target e = ev_Target (ca_Proof p).
Proof.
  unfold initial_state. destruct (ca_PredecessorObservation p) as [e|].
  - destruct (ev_Target e <>? "") eqn:He; cbn.
    + apply negb_true_iff, bool_decide_eq_false in He. rewrite orb_true_iff, !bool_decide_eq_true. naive_solver.
    + apply negb_false_iff, bool_decide_eq_true in He. rewrite bool_decide_eq_true. naive_solver.
  - cbn. rewrite bool_decide_eq_true. naive_solver.
Qed.

Lemma initial_hasTarget p : ca_Initial p ≠ "" ∨ (∃ e, ca_PredecessorObservation p = Some e ∧ ev_Target e ≠ "") →
  os_hasTarget (initial_state p) = true.
Proof.
  intros [Hi|(e & He & Ht)]; unfold initial_state.
  - destruct (ca_PredecessorObservation p) as [e|]; [destruct (ev_Target e <>? "")|]; cbn; try reflexivity; by rewrite bool_decide_false.
  - by rewrite He, (bool_decide_false (ev_Target e = "")).
Qed.

Lemma publication_proofs time_text p e :
  publicationProof (Publication time_text p) e = MatchesObservation p (ev_Target (ca_Proof p)) e.
Proof. reflexivity. Qed.

Lemma own_observation p : ev_Kind (ca_Proof p) = "position" → MatchesObservation p (ev_Target (ca_Proof p)) (ca_Proof p) = true.
Proof. intros Hk. unfold MatchesObservation. rewrite Hk, !andb_true_iff. split_and!; (reflexivity || by apply bool_decide_eq_true). Qed.

Lemma check_frozen_input_Ok input : FrozenCaptureInput_Validate input = Ok tt →
  HasPrefix (fi_SourcePath input) "/" = true ∧ Clean (fi_SourcePath input) = fi_SourcePath input ∧
  (0 < fi_Size input <= FrozenCaptureMaxBytes)%Z ∧
  Z.of_nat (length (fi_Chunks input)) = ((fi_Size input + FrozenCaptureChunkBytes - 1) / FrozenCaptureChunkBytes)%Z ∧
  ∃ left, fold_each check_frozen_chunk (fi_Chunks input) (fi_Size input) = Ok left.
Proof.
  unfold FrozenCaptureInput_Validate. intros Hv. apply bind_Ok in Hv as ([] & Hg%reject_if_Ok & Hv).
  apply bind_Ok in Hv as ([] & Hn%reject_if_Ok%negb_false_iff%Z.eqb_eq & Hv). apply bind_Ok in Hv as (left & Hl & _).
  rewrite !orb_false_iff in Hg. destruct Hg as [[[[[[[[[[[_ _] Hp%negb_false_iff] Hc%negb_false_iff%bool_decide_eq_true] _] H0%Z.leb_gt] H1%Z.ltb_ge] _] _] _] _] _].
  split_and!; [done|done|done|done|done|by exists left].
Qed.

(** A frozen input that validates names bytes that can be read back: its source path is rooted and
    clean, its chunks are content hashes whose sizes add up to the input's size, every chunk but the
    last is exactly one mebibyte, and the last is neither empty nor longer; and the check of its native
    memory does not depend on the order in which its map is ranged over. *)
Theorem frozen_input_partition input : FrozenCaptureInput_Validate input = Ok tt →
  (HasPrefix (fi_SourcePath input) "/" = true ∧ Clean (fi_SourcePath input) = fi_SourcePath input) ∧
  chunk_sizes (fi_Chunks input) = fi_Size input ∧
  (∀ before c after, fi_Chunks input = before ++ c :: after →
    ValidateContentHash (fc_Hash c) = Ok tt ∧
    (after ≠ [] → fc_Size c = FrozenCaptureChunkBytes) ∧ (0 < fc_Size c <= FrozenCaptureChunkBytes)%Z ∧
    chunk_sizes before = (Z.of_nat (length before) * FrozenCaptureChunkBytes)%Z) ∧
  (∀ m pairs, fi_NativeMemory input = Some m → pairs ≡ₚ map_to_list (nm_Structured m) →
    check_native_memory (fi_Provider input) m pairs = Ok tt).
Proof.
  intros Hv. pose proof (check_frozen_input_Ok input Hv) as (Hp & Hc & Hs & Hn & left & Hf). split; [done|].
  pose proof (chunks_left _ _ _ (Z.lt_le_incl _ _ (proj1 Hs)) Hf) as Hleft. pose proof (frozen_chunks_Ok _ _ _ Hf) as (Hsum & Hh & Hsize).
  pose proof (ceiling_bounds _ (Z.of_nat (length (fi_Chunks input))) (proj1 Hs) Hn) as Hb. split_and!.
  - rewrite Hsum, Hleft. lia.
  - intros before c after Heq. rewrite Heq in Hf, Hh. pose proof (chunk_sizes_prefix before (c :: after) _ _ (Z.lt_le_incl _ _ (proj1 Hs)) Hf) as Hpre.
    rewrite (Hsize _ _ _ Heq), Hpre. apply (f_equal length) in Heq. rewrite length_app in Heq. cbn in Heq. rewrite Heq in Hb.
    apply Forall_app in Hh as [_ [Hh _]%Forall_cons]. unfold FrozenCaptureChunkBytes in *. split_and!; [done| |lia..].
    intros Hne. destruct after; [done|]. cbn in Hb. lia.
  - intros m pairs Hm Hpairs. rewrite (check_native_memory_order _ _ _ _ Hpairs). revert Hv. unfold FrozenCaptureInput_Validate.
    rewrite Hm. by intros ([] & _ & ([] & _ & (? & _ & Hv)%bind_Ok)%bind_Ok)%bind_Ok.
Qed.

(** C37: a complete attempt is complete: of each provider there is one outcome, saved or absent; the
    recorded target is one the attempt can account for (the initial snapshot, a saved outcome's, or
    the pinned predecessor's) and is not empty when there is an initial snapshot, a saved outcome or
    a pinned predecessor with a target; and a version 2 attempt has
    its memory finalized and the frozen, validated input of every outcome that is not absent. *)
Theorem capture_complete_sound p : CaptureAttempt_Validate p = Ok tt → ca_Complete p = true →
  NoDup (co_Provider <$> ca_Outcomes p) ∧
  Forall (λ o, (co_State o = "saved" ∧ ValidateContentHash (co_Target o) = Ok tt) ∨ co_State o = "absent") (ca_Outcomes p) ∧
  (ev_Target (ca_Proof p) = ca_Initial p ∨
   (∃ o, o ∈ ca_Outcomes p ∧ co_State o = "saved" ∧ co_Target o = ev_Target (ca_Proof p)) ∨
   (∃ e, ca_PredecessorObservation p = Some e ∧ ev_Target e ≠ "" ∧ ev_Target e = ev_Target (ca_Proof p))) ∧
  (ca_Initial p ≠ "" ∨ (∃ o, o ∈ ca_Outcomes p ∧ co_State o = "saved") ∨
    (∃ e, ca_PredecessorObservation p = Some e ∧ ev_Target e ≠ "") → ev_Target (ca_Proof p) ≠ "") ∧
  (ca_Version p = 2%Z → ca_InputsReady p = true ∧ ca_MemoryFinalized p = true ∧
    Forall (λ o, co_State o ≠ "absent" → ∃ input, co_Input o = Some input ∧ fi_Provider input = co_Provider o ∧
      FrozenCaptureInput_Validate input = Ok tt) (ca_Outcomes p)).
Proof.
  unfold CaptureAttempt_Validate. intros Hv Hc. apply bind_Ok in Hv as ([] & _ & Hv). apply bind_Ok in Hv as ([] & _ & Hv).
  apply bind_Ok in Hv as ([] & Hver & Hv). apply bind_Ok in Hv as (st & Hf & Hv). apply bind_Ok in Hv as ([] & Hm%reject_if_Ok & _).
  destruct (check_outcomes_Ok _ _ _ _ Hf) as (Hfacts & Hnd & _ & Hmem & Htgt). rewrite Hc in Hm. cbn in Hm.
  apply orb_false_iff in Hm as [Hmember%negb_false_iff Htarget]. apply Hmem in Hmember. rewrite Forall_forall in Hfacts.
  assert (Hready : ca_Version p = 2%Z → ca_InputsReady p = true ∧ ca_MemoryFinalized p = true).
  { intros H2. unfold check_version in Hver. rewrite H2, Hc in Hver. cbn in Hver.
    apply bind_Ok in Hver as ([] & _ & Hver). apply bind_Ok in Hver as ([] & _ & Hver). apply bind_Ok in Hver as ([] & _ & Hver).
    apply reject_if_Ok, orb_false_iff in Hver as [?%negb_false_iff ?%negb_false_iff]. done. }
  split_and!; [done|..].
  - apply Forall_forall. intros o Ho%Hfacts. destruct Ho as [_ Hs Hcomp _]. destruct (Hcomp Hc); [left; auto|by right].
  - destruct Hmember as [Hi|Ho]; [|by right; left]. apply initial_member in Hi. tauto.
  - intros Hx Ht. assert (os_hasTarget st = true) as Hh.
    { apply Htgt. destruct Hx as [Hx|[Hx|(e & He & Hx)]]; [left; apply initial_hasTarget; by left|by right|left; apply initial_hasTarget; right; by exists e]. }
    rewrite Hh, Ht in Htarget. done.
  - intros H2. destruct (Hready H2) as [Hr Hmf]. split_and!; [done|done|]. apply Forall_forall. intros o Ho%Hfacts Hne. by apply (of_input p o Ho).
Qed.

(** The publication of a valid attempt is a valid event that the attempt's own observation proves:
    it is published under an identifier of its own, differs from the proof only in being a memory-free
    publication, and the events that prove it are exactly those that match the attempt's position at
    its target. *)
Theorem capture_publication_valid time_text p : CaptureAttempt_Validate p = Ok tt → ev_Target (ca_Proof p) ≠ "" →
  ValidateBranchName (ev_Branch (ca_Proof p)) = Ok tt → ev_MemorySelectionParent (ca_Proof p) = "" →
  ev_BindingParent (ca_Proof p) ≠ ev_ID (Publication time_text p) →
  ValidateHistoryEvent (Publication time_text p) = Ok tt ∧
  (∀ e, publicationProof (Publication time_text p) e = MatchesObservation p (ev_Target (ca_Proof p)) e) ∧
  publicationProof (Publication time_text p) (ca_Proof p) = true.
Proof.
  intros Hv Ht Hb Hm Hbind. pose proof (publication_proofs time_text p) as Hproofs. split_and!.
  - by apply publication_valid.
  - exact Hproofs.
  - rewrite Hproofs. apply attempt_proof in Hv as (_ & Hk & _). by apply own_observation.
Qed.

(** ** Samples *)

Module CaptureSamples.
Import HistorySamples.
Definition native : NativeMemory := MkNative "claude" "auto" "" "" "notes" {["b" := "2"; "a" := "1"]}.
Definition input : FrozenCaptureInput :=
  MkInput 1 "claude" "/home/me/session.jsonl" (FrozenCaptureChunkBytes + 7) (hash "a")
    [MkFrozenChunk (hash "b") FrozenCaptureChunkBytes; MkFrozenChunk (hash "c") 7] (MkTime 5 0) (foldr String "" (repeat "d"%char 64))
    "" "session" (Some native).
Definition target : string := hash "e".
Definition proof : HistoryEvent :=
  MkHistoryEvent None false "" None "" id1 repo "b-1" "main" "position" "" "" "" "" "" target target "" "" "" false "" git1 id6 (MkTime 9 0).
Definition position : WorkingPosition := MkPosition repo id6 "main" "b-1" "" git1 "" "" "" "" false false false None.
Definition saved : CaptureOutcome := MkOutcome "" "" "session" "claude" "saved" "" target "" (Some input) None.
Definition absent : CaptureOutcome := MkOutcome "" "" "" "codex" "absent" "" "" "" None None.
Definition attempt : CaptureAttempt :=
  MkAttempt 2 proof "" [saved; absent] None true (Some position) "" None ∅ true None true None None.
Definition time_text (t : time) : result string := Ok (pretty (t_instant t)).
End CaptureSamples.

Lemma frozen_input_partition_witness :
  chunk_sizes (fi_Chunks CaptureSamples.input) = 1048583%Z ∧
  check_native_memory "claude" CaptureSamples.native (reverse (map_to_list (nm_Structured CaptureSamples.native))) = Ok tt.
Proof.
  destruct (frozen_input_partition CaptureSamples.input ltac:(vm_compute; reflexivity)) as (_ & Hs & _ & Hm).
  split; [exact Hs|]. apply (Hm CaptureSamples.native); [reflexivity|]. apply reverse_Permutation.
Defined.

Lemma capture_complete_sound_witness :
  ev_Target (ca_Proof CaptureSamples.attempt) ≠ "" ∧
  Forall (λ o, co_State o ≠ "absent" → ∃ input, co_Input o = Some input ∧ fi_Provider input = co_Provider o ∧
    FrozenCaptureInput_Validate input = Ok tt) (ca_Outcomes CaptureSamples.attempt).
Proof.
  destruct (capture_complete_sound CaptureSamples.attempt ltac:(vm_compute; reflexivity) eq_refl) as (_ & _ & _ & Ht & Hv).
  split; [apply Ht; right; left; exists CaptureSamples.saved; split; [by left|reflexivity]|]. apply (Hv eq_refl).
Defined.

Lemma capture_publication_valid_witness :
  ValidateHistoryEvent (Publication CaptureSamples.time_text CaptureSamples.attempt) = Ok tt ∧
  publicationProof (Publication CaptureSamples.time_text CaptureSamples.attempt) CaptureSamples.proof = true.
Proof.
  destruct (capture_publication_valid CaptureSamples.time_text CaptureSamples.attempt) as (Hv & _ & Hp);
    [vm_compute; reflexivity|discriminate|vm_compute; reflexivity|reflexivity|vm_compute; discriminate|].
  exact (conj Hv Hp).
Defined.
