(* ===== verification/ServerGraph.v ===== *)
(** * The graph a server joins sessions in

    Models the snapshots of the server ([backend/internal/domain/entities.go]) and the
    walks of [backend/internal/domain/join.go]: the set of snapshots reachable over natural
    and graft parents, and descent along natural parents alone.  The walks run on explicit
    stacks; a stack is a list whose head is the last element of the code's slice. *)
From S2P Require Import Prelude GoStrings Sha256 Values History Graph Ancestry.
From Stdlib Require Import Ascii.

(** ** Snapshots *)

Record ServerSnapshot := MkServerSnapshot {
  ss_ID : string;
  ss_RepoID : string;
  ss_Branch : string;
  ss_Branches : slice string;
  ss_Parents : slice string;
  ss_DocHash : string;
  ss_DocIdentity : string;
  ss_MemoryHash : string;
  ss_ClaudeSettings : string;
  ss_AgentsSettings : string;
  ss_CodexSettings : string;
  ss_Provider : string;
  ss_Fidelity : string;
  ss_Message : string;
  ss_Author : TeamIdentity;
  ss_CreatedAt : time;
  ss_Grafted : bool;
  ss_GraftParents : slice string;
  ss_GraftSeq : N;
  ss_SessionID : string;
  ss_Models : slice string;
  ss_CompactionCount : Z;
}.
#[export] Instance ServerSnapshot_eq_dec : EqDecision ServerSnapshot.
Proof. solve_decision. Defined.

(** The graft register, replaced. *)
Definition with_graft (s : ServerSnapshot) (parents : slice string) (grafted : bool) (seq : N) : ServerSnapshot :=
  MkServerSnapshot (ss_ID s) (ss_RepoID s) (ss_Branch s) (ss_Branches s) (ss_Parents s) (ss_DocHash s) (ss_DocIdentity s)
    (ss_MemoryHash s) (ss_ClaudeSettings s) (ss_AgentsSettings s) (ss_CodexSettings s) (ss_Provider s) (ss_Fidelity s)
    (ss_Message s) (ss_Author s) (ss_CreatedAt s) grafted parents seq (ss_SessionID s) (ss_Models s) (ss_CompactionCount s).

Definition MaxGraftSeq : N := 2 ^ 63 - 1.

(** [Snapshot.ReachabilityParents] *)
Definition server_ReachabilityParents (s : ServerSnapshot) : list string :=
  match elems (ss_GraftParents s) with
  | [] => elems (ss_Parents s)
  | grafts => (fold_left append_unseen grafts (list_to_set (elems (ss_Parents s)), elems (ss_Parents s))).2
  end.

Notation server_graph := (gmap string ServerSnapshot).

(** ** Walks *)

Definition node_parents (byID : server_graph) (id : string) : list string :=
  from_option server_ReachabilityParents [] (byID !! id).

Definition node_natural (byID : server_graph) (id : string) : list string :=
  from_option (λ s, elems (ss_Parents s)) [] (byID !! id).

(** Every node is expanded once, so its parents are pushed once. *)
Definition edges_outside (succ : string → list string) (nodes seen : gset string) : nat :=
  sum_list_with (λ x, length (succ x)) (elements (nodes ∖ seen)).

Fixpoint reachable_loop (byID : server_graph) (fuel : nat) (out : gset string) (stack : list string) : result (gset string) :=
  match stack with
  | [] => Ok out
  | cur :: stack =>
      match fuel with
      | O => Err ErrOutOfFuel
      | S fuel =>
          if (cur =? "") || bool_decide (cur ∈ out) then reachable_loop byID fuel out stack
          else reachable_loop byID fuel ({[cur]} ∪ out) (reverse (node_parents byID cur) ++ stack)
      end
  end.

Definition reachable_fuel (byID : server_graph) (heads : list string) : nat :=
  length heads + edges_outside (node_parents byID) (dom byID) ∅.

Definition snapshotReachableSet (byID : server_graph) (heads : list string) : gset string :=
  result_or ∅ (reachable_loop byID (reachable_fuel byID heads) ∅ (reverse heads)).

Fixpoint natural_loop (byID : server_graph) (anc : string) (fuel : nat) (seen : gset string) (stack : list string) : result bool :=
  match stack with
  | [] => Ok false
  | cur :: stack =>
      match fuel with
      | O => Err ErrOutOfFuel
      | S fuel =>
          if cur =? anc then Ok true
          else if bool_decide (cur ∈ seen) then natural_loop byID anc fuel seen stack
          else natural_loop byID anc fuel ({[cur]} ∪ seen) (reverse (node_natural byID cur) ++ stack)
      end
  end.

Definition natural_fuel (byID : server_graph) : nat := 1 + edges_outside (node_natural byID) (dom byID) ∅.

Definition naturalReachable (byID : server_graph) (from anc : string) : bool :=
  if from =? anc then true else result_or false (natural_loop byID anc (natural_fuel byID) ∅ [from]).

(** ** What the walks compute *)

Definition graph_edge (byID : server_graph) (x y : string) : Prop := y ∈ node_parents byID x ∧ y ≠ "".
Definition natural_edge (byID : server_graph) (x y : string) : Prop := y ∈ node_natural byID x.

(** A path from a root; the empty hash is no node. *)
Definition reaches (byID : server_graph) (r x : string) : Prop := r ≠ "" ∧ rtc (graph_edge byID) r x.

Lemma server_parents_elem s p : p ∈ server_ReachabilityParents s ↔ p ∈ elems (ss_Parents s) ∨ p ∈ elems (ss_GraftParents s).
Proof.
  unfold server_ReachabilityParents. destruct (elems (ss_GraftParents s)) as [|g gs]; [set_solver|].
  apply append_unseen_fold. intros x. by rewrite elem_of_list_to_set.
Qed.

Lemma node_parents_elem byID x p : p ∈ node_parents byID x ↔
  ∃ s, byID !! x = Some s ∧ (p ∈ elems (ss_Parents s) ∨ p ∈ elems (ss_GraftParents s)).
Proof.
  unfold node_parents. destruct (byID !! x) as [s|]; cbn; [|set_solver]. rewrite server_parents_elem. naive_solver.
Qed.

Lemma node_natural_elem byID x p : p ∈ node_natural byID x ↔ ∃ s, byID !! x = Some s ∧ p ∈ elems (ss_Parents s).
Proof. unfold node_natural. destruct (byID !! x) as [s|]; cbn; [naive_solver|set_solver]. Qed.

(** Expanding a node pays for the parents it pushes. *)
Lemma edges_outside_expand succ nodes seen x : x ∉ seen → (x ∉ nodes → succ x = []) →
  length (succ x) + edges_outside succ nodes ({[x]} ∪ seen) ≤ edges_outside succ nodes seen.
Proof.
  intros Hx Hn. unfold edges_outside. destruct (decide (x ∈ nodes)) as [Hin|Hout].
  - replace (nodes ∖ seen) with ({[x]} ∪ nodes ∖ ({[x]} ∪ seen)).
    + rewrite (elements_union_singleton (nodes ∖ ({[x]} ∪ seen)) x) by set_solver. cbn. lia.
    + apply set_eq. intros y. destruct (decide (y = x)); set_solver.
  - rewrite Hn by done. cbn. replace (nodes ∖ ({[x]} ∪ seen)) with (nodes ∖ seen); [lia|].
    apply set_eq. intros y. destruct (decide (y = x)); set_solver.
Qed.

Lemma node_parents_outside byID x : x ∉ dom byID → node_parents byID x = [].
Proof. intros Hx%not_elem_of_dom. unfold node_parents. by rewrite Hx. Qed.

Lemma node_natural_outside byID x : x ∉ dom byID → node_natural byID x = [].
Proof. intros Hx%not_elem_of_dom. unfold node_natural. by rewrite Hx. Qed.

(** The set so far is sound, and closed but for what is on the stack. *)
Record walk_inv (byID : server_graph) (heads : list string) (out : gset string) (stack : list string) : Prop := {
  wi_sound : ∀ x, x ∈ out ∨ x ∈ stack → x ≠ "" → ∃ h, h ∈ heads ∧ reaches byID h x;
  wi_nonempty : "" ∉ out;
  wi_heads : ∀ h, h ∈ heads → h = "" ∨ h ∈ out ∨ h ∈ stack;
  wi_closed : ∀ x p, x ∈ out → p ∈ node_parents byID x → p = "" ∨ p ∈ out ∨ p ∈ stack }.

Lemma reachable_loop_spec byID heads fuel out stack : walk_inv byID heads out stack →
  length stack + edges_outside (node_parents byID) (dom byID) out ≤ fuel →
  ∃ res, reachable_loop byID fuel out stack = Ok res ∧ walk_inv byID heads res [].
Proof.
  revert out stack. induction fuel as [|fuel IH]; intros out [|cur stack] Hinv Hf; cbn in Hf; try (by eexists); [lia|].
  cbn [reachable_loop]. destruct Hinv as [Hs Hne Hh Hc]. destruct ((cur =? "") || bool_decide (cur ∈ out)) eqn:E.
  - apply IH; [|lia]. assert (cur = "" ∨ cur ∈ out) as Hcur by (apply orb_true_iff in E as [E|E]; apply bool_decide_eq_true in E; auto).
    split; [intros x Hx; apply Hs; set_solver|done| |].
    + intros h Hin. destruct (Hh h Hin) as [?|[?|[->|?]%elem_of_cons]]; auto. destruct Hcur; auto.
    + intros x p Hx Hp. destruct (Hc x p Hx Hp) as [?|[?|[->|?]%elem_of_cons]]; auto. destruct Hcur; auto.
  - bools. apply IH.
    + split; [| |intros h Hin; destruct (Hh h Hin); set_solver|].
      * intros x Hx Hxn. destruct (decide (x ∈ out ∨ x ∈ cur :: stack)) as [Hd|Hd]; [by apply Hs|].
        assert (x ∈ node_parents byID cur) as Hp by set_solver. destruct (Hs cur) as (h & Hin & Hr & Hrt); [set_solver|done|].
        exists h. split; [done|]. split; [done|]. by eapply rtc_r.
      * set_solver.
      * intros x p Hx Hp. destruct (decide (x = cur)) as [->|Hxc]; [set_solver|].
        destruct (Hc x p) as [?|?]; [set_solver|done|by left|]. set_solver.
    + rewrite length_app, length_reverse. pose proof (edges_outside_expand (node_parents byID) (dom byID) out cur) as Hw.
      specialize (Hw ltac:(done) (node_parents_outside byID cur)). lia.
Qed.

(** The set of the walk is exactly what the heads reach; the walk never runs out of fuel. *)
Lemma snapshotReachableSet_spec byID heads x :
  x ∈ snapshotReachableSet byID heads ↔ ∃ h, h ∈ heads ∧ reaches byID h x.
Proof.
  destruct (reachable_loop_spec byID heads (reachable_fuel byID heads) ∅ (reverse heads)) as (res & Hr & [Hs Hne Hh Hc]).
  - split; [|set_solver|intros h; rewrite elem_of_reverse; auto|set_solver].
    intros y [?|Hy] Hn; [set_solver|]. rewrite elem_of_reverse in Hy. exists y. split; [done|]. split; [done|constructor].
  - unfold reachable_fuel. rewrite length_reverse. lia.
  - unfold snapshotReachableSet. rewrite Hr. cbn [result_or]. split.
    + intros Hx. apply Hs; [by left|]. by intros ->.
    + intros (h & Hin & Hn & Hrt). assert (h ∈ res) as Hres by (destruct (Hh h Hin) as [?|[?|?]]; [done|done|set_solver]).
      clear Hn Hin. induction Hrt as [|a b c [Hab Hbn] _ IH]; [done|]. apply IH.
      destruct (Hc a b Hres Hab) as [?|[?|?]]; [done|done|set_solver].
Qed.

(** What is below a seen node holds no ancestor but through the stack. *)
Lemma natural_loop_spec byID anc fuel seen stack :
  (∀ x p, x ∈ seen → p ∈ node_natural byID x → p ∈ seen ∨ p ∈ stack) → anc ∉ seen →
  length stack + edges_outside (node_natural byID) (dom byID) seen ≤ fuel →
  ∃ b, natural_loop byID anc fuel seen stack = Ok b ∧
    (b = true ↔ ∃ x, x ∈ stack ∧ rtc (natural_edge byID) x anc).
Proof.
  revert seen stack. induction fuel as [|fuel IH]; intros seen [|cur stack] Hc Hn Hf; cbn in Hf;
    try (exists false; split; [done|]; set_solver); [lia|].
  cbn [natural_loop]. destruct (cur =? anc) eqn:E; bools.
  { exists true. split; [done|]. split; [|done]. intros _. exists cur. split; [left|]. subst. constructor. }
  destruct (bool_decide (cur ∈ seen)) eqn:Es; bools.
  - destruct (IH seen stack) as (b & -> & Hb); [|done|lia|].
    { intros x p Hx Hp. destruct (Hc x p Hx Hp) as [?|[->|?]%elem_of_cons]; auto. }
    exists b. split; [done|]. rewrite Hb. split; [intros (x & ? & ?); exists x; set_solver|].
    intros (x & [->|Hx]%elem_of_cons & Hr); [|by exists x].
    assert (∀ y, rtc (natural_edge byID) y anc → y ∈ seen → ∃ z, z ∈ stack ∧ rtc (natural_edge byID) z anc) as H; [|by eapply H].
    clear - Hc Hn Es. intros y Hy. induction Hy as [y|y p z Hp Hr IHy]; intros Hs; [done|].
    destruct (Hc y p Hs Hp) as [?|[->|?]%elem_of_cons]; [by apply IHy| |by exists p]. by apply IHy.
  - destruct (IH ({[cur]} ∪ seen) (reverse (node_natural byID cur) ++ stack)) as (b & -> & Hb).
    + intros x p Hx Hp. destruct (decide (x = cur)) as [->|Hxc]; [set_solver|].
      destruct (Hc x p) as [?|?]; [set_solver|done|set_solver|]. set_solver.
    + set_solver.
    + rewrite length_app, length_reverse. pose proof (edges_outside_expand (node_natural byID) (dom byID) seen cur) as Hw.
      specialize (Hw ltac:(done) (node_natural_outside byID cur)). lia.
    + exists b. split; [done|]. rewrite Hb. split.
      * intros (x & Hx & Hr). apply elem_of_app in Hx as [Hx|Hx]; [rewrite elem_of_reverse in Hx|exists x; set_solver].
        exists cur. split; [left|]. by eapply rtc_l.
      * intros (x & [->|Hx]%elem_of_cons & Hr); [|exists x; set_solver].
        inversion Hr as [|? p ? Hp Hr']; subst; [done|]. exists p. set_solver.
Qed.

Lemma naturalReachable_spec byID from anc : naturalReachable byID from anc = true ↔ rtc (natural_edge byID) from anc.
Proof.
  unfold naturalReachable. destruct (from =? anc) eqn:E; bools; [subst; split; [constructor|done]|].
  destruct (natural_loop_spec byID anc (natural_fuel byID) ∅ [from]) as (b & -> & Hb); [set_solver|set_solver|cbn; unfold natural_fuel; lia|].
  cbn [result_or]. rewrite Hb. split; [intros (x & ->%list_elem_of_singleton & ?); done|]. intros. exists from. set_solver.
Qed.
