(* ===== verification/SessionJoin.v ===== *)
(** * Joining a session into its branch

    Models [backend/internal/domain/join.go], [join_mutation.go], [join_preview.go] and the
    session scopes of [values.go]: the plan that moves a preserved session, a chain of first
    parents, onto the head of its branch by replacing graft registers, and the revision of
    the topology an approval of the plan is bound to. *)
From stdpp Require Import pretty.
From S2P Require Import Prelude GoStrings Utf8 GoJson Sha256 Values Lifecycle History Graph ServerGraph.
From Stdlib Require Import Ascii.

(** ** Data *)

Record Pending := MkPending {
  pe_RepoID : string;
  pe_SessionID : string;
  pe_Branch : string;
  pe_Provider : string;
  pe_Target : string;
  pe_Author : TeamIdentity;
  pe_UpdatedAt : time;
  pe_ActivityAt : option time;
  pe_Dismissed : bool;
}.

(** [Memberships] is a map of maps of booleans: an absent entry reads as false. *)
Record JoinGraph := MkJoinGraph {
  jg_Snapshots : list ServerSnapshot;
  jg_Refs : list Ref;
  jg_Pendings : list Pending;
  jg_Memberships : gmap string (gmap string bool);
}.

Record JoinRequest := MkJoinRequest {
  jr_RepoID : string;
  jr_Branch : string;
  jr_BranchID : string;
  jr_Source : string;
  jr_IncludeDescendants : bool;
}.

(** Whether [Parents] is nil or empty is not observed by any reader. *)
Record GraftPatch := MkGraftPatch {
  gp_SnapshotID : string;
  gp_ExpectedSeq : N;
  gp_Parents : list string;
}.

Record JoinPlan := MkJoinPlan {
  jp_ScopeRevision : string;
  jp_RepoID : string;
  jp_Branch : string;
  jp_BranchID : string;
  jp_Source : string;
  jp_Segment : list string;
  jp_ExpectedHead : string;
  jp_NewHead : string;
  jp_RemainingTip : string;
  jp_Grafts : list GraftPatch;
}.

(** ** Values of the server

    [values.go] of the server repeats the client's checks and differs in the sentinels. *)

Definition server_ValidateContentHash (h : string) : result unit := or_else (ValidateContentHash h) ErrIntegrity.
Definition server_ValidateBranchName (name : string) : result unit := or_else (ValidateBranchName name) ErrValidation.

Definition SessionRefPrefix (branch : string) : string :=
  "fork/v1/" +:+ pretty (String.length branch) +:+ "/" +:+ branch +:+ "/".

Definition HookMessagePrefix : string := "hook: ".

Definition joinDenied (code : string) (cause : error) : error := JoinPolicyError code cause.

(** ** The revision of a scope *)

Definition scope_ref (ref : Ref) : bool := (ref_Kind ref =? RefBranch) || (ref_Kind ref =? RefSession).

Definition ref_state_less (a b : Ref) : bool :=
  if ref_Kind a <>? ref_Kind b then str_lt (ref_Kind a) (ref_Kind b) else str_lt (ref_Name a) (ref_Name b).

Definition ref_state_json (r : Ref) : json :=
  JObj (str_field "Kind" (ref_Kind r) ++ str_field "Name" (ref_Name r) ++ str_field "BranchID" (ref_BranchID r) ++
        str_field "Target" (ref_Target r)).

Definition node_state_json (byID : server_graph) (id : string) : json :=
  JObj (str_field "ID" id ++
        field "Parents" (JArr (JStr <$> from_option (λ s, elems (ss_Parents s)) [] (byID !! id))) ++
        field "Grafts" (JArr (JStr <$> sort_slice str_lt (from_option (λ s, elems (ss_GraftParents s)) [] (byID !! id)))) ++
        field "Seq" (JInt (Z.of_N (from_option ss_GraftSeq 0%N (byID !! id))))).

Definition JoinScopeRevision (byID : server_graph) (refs : list Ref) : string :=
  let r := filter (λ r, scope_ref r = true) refs in
  let ids := sort_slice str_lt (elements (snapshotReachableSet byID (ref_Target <$> r))) in
  HashContent (encode (JObj (field "Version" (JInt 1) ++
    field "Refs" (JArr (ref_state_json <$> sort_slice ref_state_less r)) ++
    field "Nodes" (JArr (node_state_json byID <$> ids))))).

(** ** Planning *)

Definition joinSharedTimelineRef (ref : Ref) : bool :=
  if ref_Target ref =? "" then false
  else if (ref_Kind ref =? RefBranch) || (ref_Kind ref =? RefSession) then true
  else match ParseBranchLifecycleRef ref with Ok (Some _) => true | _ => false end.

Definition index_join_snapshot (repo : string) (byID : server_graph) (s : ServerSnapshot) : result server_graph :=
  reject_if (bool_decide (is_Some (byID !! ss_ID s))) ErrIntegrity ;;
  reject_if (ss_RepoID s <>? repo) ErrIntegrity ;;
  Ok (<[ss_ID s := s]> byID).

Definition session_scoped (branch : string) (ref : Ref) : bool :=
  (ref_Kind ref =? RefSession) && HasPrefix (ref_Name ref) (SessionRefPrefix branch).

Definition shared_roots (refs : list Ref) : list string :=
  ref_Target <$> filter (λ r, joinSharedTimelineRef r = true) refs.
Definition session_roots (refs : list Ref) (branch : string) : list string :=
  ref_Target <$> filter (λ r, joinSharedTimelineRef r && session_scoped branch r = true) refs.

(** A dismissed pointer, and one at a shared commit, blocks nothing. *)
Definition pending_targets (shared : gset string) (pendings : list Pending) : gset string :=
  list_to_set (pe_Target <$> filter (λ p, pe_Dismissed p || bool_decide (pe_Target p ∈ shared) = false) pendings).

Definition is_join_commit (byID : server_graph) (shared pending : gset string) (id : string) : bool :=
  match byID !! id with
  | Some s => negb (bool_decide (id ∈ pending)) && (negb (HasPrefix (ss_Message s) HookMessagePrefix) || bool_decide (id ∈ shared))
  | None => false
  end.

Definition add_first_child (commit : string → bool) (m : gmap string (list string)) (s : ServerSnapshot) : gmap string (list string) :=
  match elems (ss_Parents s) with
  | p :: _ => if commit (ss_ID s) then <[p := default [] (m !! p) ++ [ss_ID s]]> m else m
  | [] => m
  end.

Definition is_member (members : gmap string (gmap string bool)) (id branch : string) : bool :=
  default false (members !! id ≫= λ m, m !! branch).

Definition branch_head (refs : list Ref) (branch : string) : Ref :=
  default zero_Ref (List.find (λ r, (ref_Kind r =? RefBranch) && (ref_Name r =? branch)) refs).

(** The loop that extends the segment from its tip; [seen] holds the ids of the segment. *)
Fixpoint climb (branchChildren : string → list string) (targetShared : gset string) (fuel : nat)
    (tip : string) (segment : list string) : result (string * list string) :=
  match branchChildren tip with
  | [] => Ok (tip, segment)
  | [kid] =>
      match fuel with
      | O => Err ErrOutOfFuel
      | S fuel =>
          reject_if (negb (bool_decide (kid ∈ targetShared))) (joinDenied "unpushed" ErrConflict) ;;
          reject_if (bool_decide (kid ∈ segment)) ErrIntegrity ;;
          climb branchChildren targetShared fuel kid (segment ++ [kid])
      end
  | _ => Err (joinDenied "branched" ErrConflict)
  end.

Definition other_scope (branch : string) (ref : Ref) : bool :=
  (((ref_Kind ref =? RefBranch) && (ref_Name ref <>? branch)) ||
   ((ref_Kind ref =? RefSession) && negb (HasPrefix (ref_Name ref) (SessionRefPrefix branch)))) && (ref_Target ref <>? "").

Definition other_roots (refs : list Ref) (branch : string) : list string :=
  ref_Target <$> filter (λ r, other_scope branch r = true) refs.

(** One snapshot of the loop that removes the grafts into the segment. *)
Definition supersede (segment headReach otherReach : gset string) (member : string → bool)
    (patches : list (string * list string)) (s : ServerSnapshot) : result (list (string * list string)) :=
  let grafts := elems (ss_GraftParents s) in
  if bool_decide (ss_ID s ∈ segment) || bool_decide (grafts = []) || negb (bool_decide (ss_ID s ∈ headReach)) then Ok patches
  else if existsb (λ g, bool_decide (g ∈ segment)) grafts then
    reject_if (negb (member (ss_ID s))) (joinDenied "cross_branch" ErrConflict) ;;
    reject_if (bool_decide (ss_ID s ∈ otherReach)) (joinDenied "cross_branch" ErrConflict) ;;
    Ok (patches ++ [(ss_ID s, filter (λ g, g ∉ segment) grafts)])
  else Ok patches.

Definition graft_seq (byID : server_graph) (id : string) : N := from_option ss_GraftSeq 0%N (byID !! id).

Definition PlanJoin (graph : JoinGraph) (inp : JoinRequest) : result JoinPlan :=
  let branch := jr_Branch inp in let source := jr_Source inp in
  let snaps := jg_Snapshots graph in let refs := jg_Refs graph in
  for_each server_ValidateContentHash [jr_RepoID inp; source] ;;
  server_ValidateBranchName branch ;;
  reject_if (branch =? HeadRefName) ErrValidation ;;
  byID ← fold_each (index_join_snapshot (jr_RepoID inp)) snaps ∅;
  let shared := snapshotReachableSet byID (shared_roots refs) in
  let targetSessionShared := snapshotReachableSet byID (session_roots refs branch) in
  let commit := is_join_commit byID shared (pending_targets shared (jg_Pendings graph)) in
  let firstChildren := fold_left (add_first_child commit) snaps ∅ in
  let member id := is_member (jg_Memberships graph) id branch in
  match byID !! source with
  | None => Err ErrNotFound
  | Some snapX =>
      reject_if (negb (commit source)) (joinDenied "uncommitted" ErrValidation) ;;
      reject_if (negb (member source)) (joinDenied "cross_branch" ErrConflict) ;;
      let head := branch_head refs branch in
      let target := ref_Target head in
      reject_if (target =? "") (joinDenied "no_branch" ErrNotFound) ;;
      reject_if ((jr_BranchID inp <>? "") && (ref_BranchID head <>? jr_BranchID inp)) ErrJoinPreviewChanged ;;
      reject_if (target =? source) (joinDenied "already_head" ErrConflict) ;;
      let headReach := snapshotReachableSet byID [target] in
      let targetShared := headReach ∪ targetSessionShared in
      reject_if (negb (bool_decide (source ∈ targetShared))) (joinDenied "unpushed" ErrConflict) ;;
      reject_if (naturalReachable byID target source) (joinDenied "natural_history" ErrConflict) ;;
      let branchChildren id := filter (λ kid, member kid = true) (default [] (firstChildren !! id)) in
      '(tip, segmentIDs) ← climb branchChildren targetShared (length snaps) source [source];
      let otherBranchReach := snapshotReachableSet byID (other_roots refs branch) in
      for_each (λ id, reject_if (bool_decide (id ∈ otherBranchReach)) (joinDenied "cross_branch" ErrConflict)) segmentIDs ;;
      supersedes ← fold_each (supersede (list_to_set segmentIDs) headReach otherBranchReach member) snaps [];
      let patches := (λ p, MkGraftPatch p.1 (graft_seq byID p.1) p.2) <$> supersedes in
      let grafts := elems (ss_GraftParents snapX) in
      let xNext := if bool_decide (target ∈ grafts) then grafts else grafts ++ [target] in
      Ok (MkJoinPlan (JoinScopeRevision byID refs) (jr_RepoID inp) branch (ref_BranchID head) source segmentIDs target
            (if jr_IncludeDescendants inp then tip else source)
            (if negb (jr_IncludeDescendants inp) && (tip <>? source) then tip else "")
            (patches ++ [MkGraftPatch source (ss_GraftSeq snapX) xNext]))
  end.

(** ** Lemmas *)

Lemma server_hash_Ok h : server_ValidateContentHash h = Ok tt ↔ is_content_hash h.
Proof. unfold server_ValidateContentHash. by rewrite or_else_Ok, ValidateContentHash_Ok. Qed.

Lemma index_join_spec repo snaps byID : fold_each (index_join_snapshot repo) snaps ∅ = Ok byID →
  (∀ id s, byID !! id = Some s ↔ s ∈ snaps ∧ ss_ID s = id) ∧ NoDup (ss_ID <$> snaps) ∧
  Forall (λ s, ss_RepoID s = repo) snaps.
Proof.
  apply (fold_each_invariant (index_join_snapshot repo) (λ pre m,
    (∀ id s, m !! id = Some s ↔ s ∈ pre ∧ ss_ID s = id) ∧ NoDup (ss_ID <$> pre) ∧ Forall (λ s, ss_RepoID s = repo) pre)).
  { split_and!; [|constructor|constructor]. intros id s. rewrite lookup_empty. set_solver. }
  intros pre x m1 m2 (Hm & Hn & Hr) _ Hx. unfold index_join_snapshot in Hx. inv_ok. bools. subst m2.
  assert (ss_ID x ∉ ss_ID <$> pre) as Hfresh.
  { intros (y & Hy & Hin)%list_elem_of_fmap. apply Hx0. exists y. by apply Hm. }
  split_and!.
  - intros id s. rewrite lookup_insert, elem_of_app, list_elem_of_singleton. case_decide as Hid; [|rewrite Hm; naive_solver].
    split; [naive_solver|]. intros [[Hs|Hs] Hs']; [|by subst]. exfalso. apply Hfresh. subst id. rewrite <- Hs'. by apply list_elem_of_fmap_2.
  - rewrite fmap_app. apply NoDup_app. split_and!; [done| |apply NoDup_singleton]. set_solver.
  - apply Forall_app. split; [done|]. by repeat constructor.
Qed.

Lemma first_children_spec commit snaps p : default [] (fold_left (add_first_child commit) snaps ∅ !! p) =
  ss_ID <$> filter (λ s, commit (ss_ID s) = true ∧ head (elems (ss_Parents s)) = Some p) snaps.
Proof.
  induction snaps as [|s snaps IH] using rev_ind; [cbn; by rewrite lookup_empty|].
  rewrite fold_left_app, filter_app, fmap_app, <- IH. cbn [fold_left]. unfold add_first_child at 1. rewrite filter_cons.
  destruct (elems (ss_Parents s)) as [|q qs] eqn:E; cbn [head].
  { rewrite decide_False by naive_solver. by rewrite app_nil_r. }
  destruct (commit (ss_ID s)) eqn:Ec; [|rewrite decide_False by naive_solver; by rewrite app_nil_r].
  rewrite lookup_insert. case_decide as Hq; [subst; by rewrite decide_True by naive_solver|].
  rewrite decide_False by naive_solver. by rewrite app_nil_r.
Qed.

(** *** The segment *)

Lemma climb_spec children shared fuel tip seg tip' seg' :
  climb children shared fuel tip seg = Ok (tip', seg') → last seg = Some tip →
  NoDup seg → Sorted (λ a b, children a = [b]) seg →
  ∃ ext, seg' = seg ++ ext ∧ last seg' = Some tip' ∧ NoDup seg' ∧ Sorted (λ a b, children a = [b]) seg' ∧
    children tip' = [] ∧ Forall (λ x, x ∈ shared) ext.
Proof.
  revert tip seg. induction fuel as [|fuel IH]; intros tip seg; cbn [climb];
    destruct (children tip) as [|kid [|? ?]] eqn:Ec; try done.
  - intros [= <- <-] Hl Hn Hs. exists []. rewrite app_nil_r. done.
  - intros [= <- <-] Hl Hn Hs. exists []. rewrite app_nil_r. done.
  - intros H Hl Hn Hs. inv_ok. bools. destruct (IH kid (seg ++ [kid]) H) as (ext & -> & Hl' & Hn' & Hs' & Hc & Hf).
    + apply last_snoc.
    + apply NoDup_app. split_and!; [done|set_solver|apply NoDup_singleton].
    + apply Sorted_snoc; [done|]. apply last_Some in Hl as [l ->]. by constructor.
    + exists (kid :: ext). rewrite <- app_assoc. split_and!; [done|by rewrite <- app_assoc in Hl'|by rewrite <- app_assoc in Hn'|
        by rewrite <- app_assoc in Hs'|done|by constructor].
Qed.

(** Every step takes a new child, so the climb ends within the number of snapshots. *)
Lemma climb_total children shared ids fuel tip seg : (∀ a b, b ∈ children a → b ∈ ids) →
  NoDup seg → (∀ x, x ∈ seg → x ∈ ids) → length ids < length seg + fuel →
  climb children shared fuel tip seg ≠ Err ErrOutOfFuel.
Proof.
  intros Hids. revert tip seg. induction fuel as [|fuel IH]; intros tip seg Hn Hin Hlen; cbn [climb];
    destruct (children tip) as [|kid [|? ?]] eqn:Ec; try done.
  { pose proof (submseteq_length _ _ (NoDup_submseteq _ _ Hn Hin)). lia. }
  unfold reject_if. destruct (negb _); [done|]. cbn [mbind result_bind].
  destruct (bool_decide (kid ∈ seg)) eqn:Ek; [done|]. cbn [mbind result_bind]. bools. apply IH.
  - apply NoDup_app. split_and!; [done|set_solver|apply NoDup_singleton].
  - intros x [Hx|Hx%list_elem_of_singleton]%elem_of_app; [by apply Hin|]. subst. apply (Hids tip). rewrite Ec. left.
  - rewrite length_app. cbn. lia.
Qed.

Lemma climb_complete children shared fuel tip seg ext : last seg = Some tip →
  NoDup (seg ++ ext) → Sorted (λ a b, children a = [b]) (seg ++ ext) →
  children (default tip (last ext)) = [] → Forall (λ x, x ∈ shared) ext → length ext ≤ fuel →
  climb children shared fuel tip seg = Ok (default tip (last ext), seg ++ ext).
Proof.
  revert fuel tip seg. induction ext as [|kid ext IH]; intros fuel tip seg Hl Hn Hs Hc Hf Hlen.
  { cbn in *. rewrite app_nil_r. destruct fuel; cbn [climb]; by rewrite Hc. }
  apply last_Some in Hl as [pre ->]. assert (children tip = [kid]) as Hk.
  { rewrite <- app_assoc in Hs. apply Sorted_suffix in Hs. cbn in Hs. apply Sorted_inv in Hs as [_ Hs]. by apply HdRel_inv in Hs. }
  destruct fuel as [|fuel]; cbn in Hlen; [lia|]. cbn [climb]. rewrite Hk. apply Forall_cons in Hf as [Hkid Hf].
  rewrite (bool_decide_true (kid ∈ shared)) by done. rewrite (bool_decide_false (kid ∈ pre ++ [tip])).
  2:{ apply NoDup_app in Hn as (_ & Hn & _). intros Hin. apply (Hn kid Hin). left. }
  cbn [negb reject_if mbind result_bind].
  replace (default tip (last (kid :: ext))) with (default kid (last ext)) in *.
  2:{ destruct ext as [|e ext]; [done|]. change (last (kid :: e :: ext)) with (last (e :: ext)). destruct (proj2 (last_is_Some (e :: ext))) as [x ->]; done. }
  rewrite (IH fuel kid ((pre ++ [tip]) ++ [kid])); [by rewrite <- !app_assoc|apply last_snoc|..|done|done|lia];
    rewrite <- (app_assoc (pre ++ [tip])); done.
Qed.

(** *** The removed grafts *)

(** A snapshot outside the segment, reached from the head, with a graft into the segment. *)
Definition grafts_into (segment : list string) (headReach : gset string) (s : ServerSnapshot) : Prop :=
  ss_ID s ∉ segment ∧ ss_ID s ∈ headReach ∧ Exists (λ g, g ∈ segment) (elems (ss_GraftParents s)).
#[export] Instance grafts_into_dec segment headReach s : Decision (grafts_into segment headReach s).
Proof. unfold grafts_into. apply _. Defined.

Definition without_segment (segment : list string) (s : ServerSnapshot) : string * list string :=
  (ss_ID s, filter (λ g, g ∉ segment) (elems (ss_GraftParents s))).

Lemma supersede_step segment headReach otherReach member ps s ps' :
  supersede (list_to_set segment) headReach otherReach member ps s = Ok ps' ↔
  (grafts_into segment headReach s → member (ss_ID s) = true ∧ ss_ID s ∉ otherReach) ∧
  ps' = ps ++ (if decide (grafts_into segment headReach s) then [without_segment segment s] else []).
Proof.
  unfold supersede, without_segment.
  assert (Hf : filter (λ g, g ∉@{gset string} list_to_set segment) (elems (ss_GraftParents s)) = filter (λ g, g ∉ segment) (elems (ss_GraftParents s))).
  { apply list_filter_iff. intros g. by rewrite elem_of_list_to_set. }
  rewrite Hf. clear Hf. set (grafts := elems (ss_GraftParents s)).
  assert (Hex : existsb (λ g, bool_decide (g ∈@{gset string} list_to_set segment)) grafts = true ↔ Exists (λ g, g ∈ segment) grafts).
  { rewrite existsb_elem, Exists_exists. setoid_rewrite bool_decide_eq_true. by setoid_rewrite elem_of_list_to_set. }
  destruct (decide (grafts_into segment headReach s)) as [Hg|Hg].
  - pose proof Hg as (H1 & H2 & H3). rewrite bool_decide_false by (by rewrite elem_of_list_to_set).
    rewrite bool_decide_false by (fold grafts in H3; intros E; rewrite E in H3; by apply Exists_nil in H3).
    rewrite bool_decide_true by done. cbn [orb negb]. rewrite (proj2 Hex H3). rewrite bind_Ok. setoid_rewrite bind_Ok.
    setoid_rewrite reject_if_Ok. setoid_rewrite negb_false_iff. setoid_rewrite bool_decide_eq_false. naive_solver.
  - rewrite app_nil_r. assert (Hskip : ∀ X : Prop, (Ok ps = Ok ps' ↔ X ∧ ps' = ps) ↔ (ps' = ps → X)) by naive_solver.
    destruct (_ || _ || _) eqn:E; [apply Hskip; naive_solver|].
    destruct (existsb _ grafts) eqn:Ex; [|apply Hskip; naive_solver]. exfalso. apply Hg.
    apply orb_false_iff in E as [[E1 E2]%orb_false_iff E3]. bools. split_and!; [by rewrite elem_of_list_to_set in E1|done|by apply Hex].
Qed.

Lemma supersede_all segment headReach otherReach member snaps sup :
  fold_each (supersede (list_to_set segment) headReach otherReach member) snaps [] = Ok sup ↔
  (∀ s, s ∈ snaps → grafts_into segment headReach s → member (ss_ID s) = true ∧ ss_ID s ∉ otherReach) ∧
  sup = without_segment segment <$> filter (grafts_into segment headReach) snaps.
Proof.
  assert (∀ ps, fold_each (supersede (list_to_set segment) headReach otherReach member) snaps ps = Ok sup ↔
    (∀ s, s ∈ snaps → grafts_into segment headReach s → member (ss_ID s) = true ∧ ss_ID s ∉ otherReach) ∧
    sup = ps ++ (without_segment segment <$> filter (grafts_into segment headReach) snaps)) as H; [|apply (H [])].
  induction snaps as [|s snaps IH]; intros ps; cbn [fold_each].
  { rewrite app_nil_r. split; [intros [= ->]; split; [set_solver|done]|by intros [_ ->]]. }
  rewrite bind_Ok. setoid_rewrite supersede_step. setoid_rewrite IH. rewrite filter_cons.
  split.
  - intros (ps1 & (Hs & ->) & Hr & ->). split; [intros x [->|Hx]%elem_of_cons; auto|]. rewrite <- app_assoc. f_equal. by case_decide.
  - intros [Hall ->]. eexists. split; [split; [intros; apply Hall; [left|done]|reflexivity]|]. split; [intros; apply Hall; [by right|done]|].
    rewrite <- app_assoc. f_equal. by case_decide.
Qed.

(** ** When a session can be joined, and the plan *)

(** [for _, s := range snaps { byID\[s.ID\] = s }] *)
Definition graph_of (snaps : list ServerSnapshot) : server_graph := fold_left (λ m s, <[ss_ID s := s]> m) snaps ∅.

Section joinable.
Context (graph : JoinGraph) (inp : JoinRequest).

Definition join_byID : server_graph := graph_of (jg_Snapshots graph).
Definition join_commit : string → bool :=
  let shared := snapshotReachableSet join_byID (shared_roots (jg_Refs graph)) in
  is_join_commit join_byID shared (pending_targets shared (jg_Pendings graph)).
Definition join_member (id : string) : bool := is_member (jg_Memberships graph) id (jr_Branch inp).
Definition join_head : Ref := branch_head (jg_Refs graph) (jr_Branch inp).

(** The committed children of a snapshot in the branch that continue it as first parent. *)
Definition join_children (id : string) : list string :=
  filter (λ kid, join_member kid = true)
    (ss_ID <$> filter (λ s, join_commit (ss_ID s) = true ∧ head (elems (ss_Parents s)) = Some id) (jg_Snapshots graph)).

(** Published in the branch: below its head or below a session ref in its scope. *)
Definition join_attached (x : string) : Prop :=
  reaches join_byID (ref_Target join_head) x ∨
  ∃ r, r ∈ jg_Refs graph ∧ session_scoped (jr_Branch inp) r = true ∧ reaches join_byID (ref_Target r) x.

(** Published by another branch. *)
Definition join_foreign (x : string) : Prop :=
  ∃ r, r ∈ jg_Refs graph ∧ other_scope (jr_Branch inp) r = true ∧ reaches join_byID (ref_Target r) x.

Definition join_superseded (segment : list string) : list ServerSnapshot :=
  filter (grafts_into segment (snapshotReachableSet join_byID [ref_Target join_head])) (jg_Snapshots graph).

Record joinable (segment : list string) : Prop := {
  jn_repo : is_content_hash (jr_RepoID inp);
  jn_hash : is_content_hash (jr_Source inp);
  jn_branch : ValidateBranchName (jr_Branch inp) = Ok tt ∧ jr_Branch inp ≠ HeadRefName;
  jn_ids : NoDup (ss_ID <$> jg_Snapshots graph) ∧ Forall (λ s, ss_RepoID s = jr_RepoID inp) (jg_Snapshots graph);
  jn_commit : join_commit (jr_Source inp) = true;
  jn_member : join_member (jr_Source inp) = true;
  jn_head : ref_Target join_head ≠ "" ∧ ref_Target join_head ≠ jr_Source inp;
  jn_branch_id : jr_BranchID inp = "" ∨ ref_BranchID join_head = jr_BranchID inp;
  jn_fresh : ¬ rtc (natural_edge join_byID) (ref_Target join_head) (jr_Source inp);
  jn_first : head segment = Some (jr_Source inp);
  jn_distinct : NoDup segment;
  jn_chain : Sorted (λ a b, join_children a = [b]) segment;
  jn_leaf : ∀ tip, last segment = Some tip → join_children tip = [];
  jn_attached : Forall join_attached segment;
  jn_isolated : Forall (λ x, ¬ join_foreign x) segment;
  jn_grafts : Forall (λ s, join_member (ss_ID s) = true ∧ ¬ join_foreign (ss_ID s)) (join_superseded segment) }.

Definition join_source_grafts : list string :=
  let grafts := from_option (λ s, elems (ss_GraftParents s)) [] (join_byID !! jr_Source inp) in
  if bool_decide (ref_Target join_head ∈ grafts) then grafts else grafts ++ [ref_Target join_head].

(** The head becomes the source or the tip of its session; the tip left behind is remembered;
    the grafts into the session are removed and the source is grafted on the old head. *)
Definition join_plan (segment : list string) : JoinPlan :=
  let tip := default "" (last segment) in
  MkJoinPlan (JoinScopeRevision join_byID (jg_Refs graph)) (jr_RepoID inp) (jr_Branch inp) (ref_BranchID join_head)
    (jr_Source inp) segment (ref_Target join_head)
    (if jr_IncludeDescendants inp then tip else jr_Source inp)
    (if negb (jr_IncludeDescendants inp) && (tip <>? jr_Source inp) then tip else "")
    (((λ s, MkGraftPatch (ss_ID s) (ss_GraftSeq s) (without_segment segment s).2) <$> join_superseded segment) ++
     [MkGraftPatch (jr_Source inp) (graft_seq join_byID (jr_Source inp)) join_source_grafts]).

Lemma index_graph_of repo snaps : NoDup (ss_ID <$> snaps) → Forall (λ s, ss_RepoID s = repo) snaps →
  fold_each (index_join_snapshot repo) snaps ∅ = Ok (graph_of snaps).
Proof.
  induction snaps as [|s snaps IH] using rev_ind; [done|]. rewrite fmap_app, NoDup_app, Forall_app.
  intros (Hn & Hd & _) [Hr Hs]. apply Forall_cons in Hs as [Hs _]. apply fold_each_app. exists (graph_of snaps). split; [by apply IH|].
  cbn [fold_each]. unfold index_join_snapshot. cbn beta in Hs. rewrite Hs.
  destruct (bool_decide (is_Some (graph_of snaps !! ss_ID s))) eqn:Hx; bools.
  - exfalso. destruct Hx as [x Hx]. pose proof (index_join_spec repo snaps _ (IH Hn Hr)) as (Hl & _). apply Hl in Hx as [Hin Hid].
    apply (Hd (ss_ID s)); [rewrite <- Hid; by apply list_elem_of_fmap_2|]. set_solver.
  - rewrite (bool_decide_eq_true_2 (repo = repo)) by done. cbn. unfold graph_of. by rewrite fold_left_app.
Qed.

Lemma index_graph_of_inv repo snaps byID : fold_each (index_join_snapshot repo) snaps ∅ = Ok byID ↔
  NoDup (ss_ID <$> snaps) ∧ Forall (λ s, ss_RepoID s = repo) snaps ∧ byID = graph_of snaps.
Proof.
  split; [|by intros (? & ? & ->); apply index_graph_of]. intros H. pose proof (index_join_spec _ _ _ H) as (_ & Hn & Hr).
  split_and!; [done..|]. rewrite index_graph_of in H by done. by injection H.
Qed.
End joinable.

Section exact.
Context (graph : JoinGraph) (inp : JoinRequest).
#[local] Notation byID := (join_byID graph).
#[local] Notation refs := (jg_Refs graph).
#[local] Notation branch := (jr_Branch inp).

Lemma join_children_loop id : filter (λ kid, join_member graph inp kid = true)
    (default [] (fold_left (add_first_child (join_commit graph)) (jg_Snapshots graph) ∅ !! id)) = join_children graph inp id.
Proof. unfold join_children. by rewrite first_children_spec. Qed.

Lemma join_children_id a b : b ∈ join_children graph inp a → b ∈ ss_ID <$> jg_Snapshots graph.
Proof.
  unfold join_children. rewrite list_elem_of_filter. intros [_ (s & -> & Hs)%list_elem_of_fmap].
  apply list_elem_of_filter in Hs as [_ Hs]. by apply list_elem_of_fmap_2.
Qed.

Lemma join_attached_set x :
  x ∈ snapshotReachableSet byID [ref_Target (join_head graph inp)] ∪ snapshotReachableSet byID (session_roots refs branch) ↔
  join_attached graph inp x.
Proof.
  unfold join_attached. rewrite elem_of_union, !snapshotReachableSet_spec. unfold session_roots.
  setoid_rewrite list_elem_of_singleton. setoid_rewrite list_elem_of_fmap. setoid_rewrite list_elem_of_filter.
  split.
  { intros [(h & -> & Hr)|(h & (r & -> & [_ Hs]%andb_true_iff & Hin) & Hr)]; [by left|right; by exists r]. }
  intros [?|(r & Hin & Hs & Hr)]; [left; by eexists|]. right. exists (ref_Target r). split; [|done].
  exists r. split; [done|]. split; [|done]. cbn beta. rewrite Hs, andb_true_r. unfold joinSharedTimelineRef. destruct Hr as [Hn _].
  rewrite bool_decide_false by done. unfold session_scoped in Hs. apply andb_true_iff in Hs as [-> _]. by rewrite orb_true_r.
Qed.

Lemma join_foreign_set x : x ∈ snapshotReachableSet byID (other_roots refs branch) ↔ join_foreign graph inp x.
Proof.
  unfold join_foreign. rewrite snapshotReachableSet_spec. unfold other_roots.
  setoid_rewrite list_elem_of_fmap. setoid_rewrite list_elem_of_filter. naive_solver.
Qed.

Lemma join_commit_indexed id : join_commit graph id = true → ∃ s, byID !! id = Some s.
Proof. unfold join_commit, is_join_commit. destruct (join_byID graph !! id); [by eexists|done]. Qed.

Lemma index_graph_lookup id s : byID !! id = Some s → s ∈ jg_Snapshots graph ∧ ss_ID s = id.
Proof.
  unfold join_byID, graph_of. induction (jg_Snapshots graph) as [|x l IH] using rev_ind; [cbn; by rewrite lookup_empty|].
  rewrite fold_left_app. cbn [fold_left]. rewrite lookup_insert. case_decide as E; [intros [= <-]; set_solver|]. intros [? ?]%IH. set_solver.
Qed.

Lemma join_lookup s : NoDup (ss_ID <$> jg_Snapshots graph) → s ∈ jg_Snapshots graph → byID !! ss_ID s = Some s.
Proof.
  intros Hn Hs. unfold join_byID, graph_of. revert s Hs. induction (jg_Snapshots graph) as [|x l IH] using rev_ind; [set_solver|].
  rewrite fmap_app in Hn. apply NoDup_app in Hn as (Hn & Hd & _). intros s [Hs|Hs%list_elem_of_singleton]%elem_of_app;
    rewrite fold_left_app; cbn [fold_left]; [|subst; by rewrite lookup_insert_eq].
  rewrite lookup_insert_ne; [by apply IH|]. intros Heq. apply (Hd (ss_ID s)); [by apply list_elem_of_fmap_2|]. rewrite <- Heq. set_solver.
Qed.

Lemma pass_check {B} c e (k : unit → result B) b : c = false → k tt = Ok b → reject_if c e ≫= k = Ok b.
Proof. by intros ->. Qed.

Lemma climb_ext c1 c2 shared fuel tip seg : (∀ a, c1 a = c2 a) → climb c1 shared fuel tip seg = climb c2 shared fuel tip seg.
Proof.
  intros Hc. revert tip seg. induction fuel as [|fuel IH]; intros tip seg; cbn [climb]; rewrite Hc; [done|].
  destruct (c2 tip) as [|kid [|? ?]]; [done| |done]. unfold reject_if. destruct (negb _); [done|]. cbn. destruct (bool_decide _); [done|]. apply IH.
Qed.

Lemma join_patches_eq segment : NoDup (ss_ID <$> jg_Snapshots graph) →
  (λ p, MkGraftPatch p.1 (graft_seq byID p.1) p.2) <$> (without_segment segment <$> join_superseded graph inp segment) =
  (λ s, MkGraftPatch (ss_ID s) (ss_GraftSeq s) (without_segment segment s).2) <$> join_superseded graph inp segment.
Proof.
  intros Hn. rewrite <- list_fmap_compose. apply list_fmap_ext. intros i s Hi. cbn. f_equal.
  apply list_elem_of_lookup_2, list_elem_of_filter in Hi as [_ Hi]. unfold graft_seq. by rewrite (join_lookup s).
Qed.

Lemma join_plan_loop tip segment snapX :
  climb (join_children graph inp) (snapshotReachableSet byID [ref_Target (join_head graph inp)] ∪ snapshotReachableSet byID (session_roots refs branch))
    (length (jg_Snapshots graph)) (jr_Source inp) [jr_Source inp] = Ok (tip, segment) →
  NoDup (ss_ID <$> jg_Snapshots graph) → byID !! jr_Source inp = Some snapX →
  MkJoinPlan (JoinScopeRevision byID refs) (jr_RepoID inp) branch (ref_BranchID (join_head graph inp)) (jr_Source inp) segment
    (ref_Target (join_head graph inp)) (if jr_IncludeDescendants inp then tip else jr_Source inp)
    (if negb (jr_IncludeDescendants inp) && (tip <>? jr_Source inp) then tip else "")
    (((λ p, MkGraftPatch p.1 (graft_seq byID p.1) p.2) <$> (without_segment segment <$> join_superseded graph inp segment)) ++
     [MkGraftPatch (jr_Source inp) (ss_GraftSeq snapX)
       (let grafts := elems (ss_GraftParents snapX) in
        if bool_decide (ref_Target (join_head graph inp) ∈ grafts) then grafts else grafts ++ [ref_Target (join_head graph inp)])]) =
  join_plan graph inp segment.
Proof.
  intros Hclimb Hn Hx. rewrite join_patches_eq by done.
  destruct (climb_spec _ _ _ _ _ _ _ Hclimb) as (_ & _ & Hl & _); [done|apply NoDup_singleton|by repeat constructor|].
  unfold join_plan, graft_seq, join_source_grafts. rewrite Hl, Hx. reflexivity.
Qed.

(** The checks on the input, the branch and the source, in the order of the code. *)
Lemma PlanJoin_unfold p : PlanJoin graph inp = Ok p ↔
  is_content_hash (jr_RepoID inp) ∧ is_content_hash (jr_Source inp) ∧
  ValidateBranchName branch = Ok tt ∧ branch ≠ HeadRefName ∧
  NoDup (ss_ID <$> jg_Snapshots graph) ∧ Forall (λ s, ss_RepoID s = jr_RepoID inp) (jg_Snapshots graph) ∧
  join_commit graph (jr_Source inp) = true ∧ join_member graph inp (jr_Source inp) = true ∧
  ref_Target (join_head graph inp) ≠ "" ∧
  (jr_BranchID inp = "" ∨ ref_BranchID (join_head graph inp) = jr_BranchID inp) ∧
  ref_Target (join_head graph inp) ≠ jr_Source inp ∧ join_attached graph inp (jr_Source inp) ∧
  ¬ rtc (natural_edge byID) (ref_Target (join_head graph inp)) (jr_Source inp) ∧
  ∃ tip segment,
    climb (join_children graph inp) (snapshotReachableSet byID [ref_Target (join_head graph inp)] ∪ snapshotReachableSet byID (session_roots refs branch))
      (length (jg_Snapshots graph)) (jr_Source inp) [jr_Source inp] = Ok (tip, segment) ∧
    Forall (λ x, ¬ join_foreign graph inp x) segment ∧
    Forall (λ s, join_member graph inp (ss_ID s) = true ∧ ¬ join_foreign graph inp (ss_ID s)) (join_superseded graph inp segment) ∧
    p = join_plan graph inp segment.
Proof.
  split.
  - intros H. unfold PlanJoin in H. apply bind_Ok in H as ([] & Hh%for_each_Ok & H). rewrite !Forall_cons, !server_hash_Ok in Hh.
    destruct Hh as (Hh1 & Hh2 & _). apply bind_Ok in H as ([] & Hb%or_else_Ok & H). apply bind_Ok in H as ([] & Hhd%reject_if_Ok & H).
    apply bind_Ok in H as (m & (Hn & Hr & ->)%index_graph_of_inv & H). change (graph_of (jg_Snapshots graph)) with byID in H. cbv zeta in H.
    destruct (byID !! jr_Source inp) as [snapX|] eqn:Hx; [|done]. do 7 (apply bind_Ok in H as ([] & ?%reject_if_Ok & H)).
    apply bind_Ok in H as ([tip segment] & Hclimb & H). apply bind_Ok in H as ([] & Hiso%for_each_Ok & H).
    apply bind_Ok in H as (sup & [Hsup ->]%supersede_all & H). injection H as <-. bools.
    assert (Hfor : ∀ x, x ∉ snapshotReachableSet byID (other_roots refs branch) ↔ ¬ join_foreign graph inp x) by (intros x; by rewrite join_foreign_set).
    rewrite (climb_ext _ (join_children graph inp)) in Hclimb by apply join_children_loop.
    split_and!; [done..| | | | |]; [|done|by apply join_attached_set|intros Hrt%naturalReachable_spec; unfold join_head in Hrt; congruence|].
    { apply andb_false_iff in H3 as [H3|H3]; bools; [by left|by right]. }
    exists tip, segment. split_and!; [done| | |].
    + eapply Forall_impl; [exact Hiso|]. cbn beta. intros x Hx'%reject_if_Ok. bools. by apply Hfor.
    + apply Forall_forall. intros s Hs. pose proof Hs as [Hg Hs']%list_elem_of_filter. rewrite <- Hfor. by apply Hsup.
    + by apply (join_plan_loop tip segment snapX).
  - intros (Hh1 & Hh2 & Hb & Hhd & Hn & Hr & Hc & Hm & Ht & Hid & Hne & Ha & Hf & tip & segment & Hclimb & Hiso & Hsup & ->).
    unfold PlanJoin. rewrite (proj2 (for_each_Ok _ _ tt)) by (repeat constructor; by apply server_hash_Ok).
    unfold server_ValidateBranchName. rewrite Hb. cbn [or_else mbind result_bind]. rewrite (bool_decide_false (branch = HeadRefName)) by done.
    rewrite index_graph_of by done. change (graph_of (jg_Snapshots graph)) with byID. cbn [reject_if mbind result_bind]. cbv zeta.
    destruct (join_commit_indexed _ Hc) as [snapX Hx]. rewrite Hx. fold (join_commit graph).
    apply pass_check; [by rewrite Hc|]. apply pass_check; [by apply negb_false_iff|]. apply pass_check; [by apply bool_decide_eq_false|].
    apply pass_check.
    { destruct Hid as [Hid|Hid]; [by rewrite Hid|]. unfold join_head in Hid. rewrite Hid, (bool_decide_true (jr_BranchID inp = jr_BranchID inp)) by done.
      apply andb_false_r. }
    apply pass_check; [by apply bool_decide_eq_false|].
    apply pass_check; [apply negb_false_iff, bool_decide_eq_true; by apply join_attached_set in Ha|].
    apply pass_check; [apply not_true_is_false; by rewrite naturalReachable_spec|].
    rewrite (climb_ext _ (join_children graph inp)) by apply join_children_loop.
    apply bind_Ok. exists (tip, segment). split; [exact Hclimb|]. cbv beta iota. apply bind_Ok. exists tt. split.
    + apply for_each_Ok. eapply Forall_impl; [exact Hiso|]. cbn beta. intros x Hx'. apply reject_if_Ok, bool_decide_eq_false. by rewrite join_foreign_set.
    + apply bind_Ok. exists (without_segment segment <$> join_superseded graph inp segment). split; [|by rewrite <- (join_plan_loop tip segment snapX)].
      apply supersede_all. split; [|done]. intros s Hs Hg. rewrite join_foreign_set. rewrite Forall_forall in Hsup. by apply Hsup, list_elem_of_filter.
Qed.

#[local] Notation published :=
  (snapshotReachableSet byID [ref_Target (join_head graph inp)] ∪ snapshotReachableSet byID (session_roots refs branch)).

(** A completed climb is the chain, and the chain is what a climb completes. *)
Lemma climb_chain tip segment :
  climb (join_children graph inp) published (length (jg_Snapshots graph)) (jr_Source inp) [jr_Source inp] = Ok (tip, segment) →
  head segment = Some (jr_Source inp) ∧ NoDup segment ∧ Sorted (λ a b, join_children graph inp a = [b]) segment ∧
  (∀ t, last segment = Some t → join_children graph inp t = []) ∧
  (join_attached graph inp (jr_Source inp) → Forall (join_attached graph inp) segment).
Proof.
  intros (ext & -> & Hl & Hn & Hs & Hc & Hf)%climb_spec; [|done|apply NoDup_singleton|by repeat constructor].
  split_and!; [done..| |]; [intros t Ht; congruence|]. intros Ha. apply Forall_app. split; [by apply Forall_singleton|].
  eapply Forall_impl; [exact Hf|]. intros x. by rewrite join_attached_set.
Qed.

Lemma chain_ids segment : join_commit graph (jr_Source inp) = true → NoDup (ss_ID <$> jg_Snapshots graph) →
  head segment = Some (jr_Source inp) → Sorted (λ a b, join_children graph inp a = [b]) segment →
  ∀ x, x ∈ segment → x ∈ ss_ID <$> jg_Snapshots graph.
Proof.
  intros Hc Hn Hh Hs x Hx. destruct segment as [|a ext]; [done|]. injection Hh as ->. apply elem_of_cons in Hx as [->|Hx].
  - destruct (join_commit_indexed _ Hc) as [s Hs']. apply index_graph_lookup in Hs' as [Hin <-]. by apply list_elem_of_fmap_2.
  - apply list_elem_of_split in Hx as (l1 & l2 & ->). destruct (exists_last (l := jr_Source inp :: l1)) as (pre & y & Hy); [done|].
    rewrite app_comm_cons, Hy, <- app_assoc in Hs. apply Sorted_suffix in Hs. cbn in Hs. apply Sorted_inv in Hs as [_ Hs%HdRel_inv].
    apply (join_children_id y). rewrite Hs. left.
Qed.

Lemma chain_climb segment : joinable graph inp segment →
  climb (join_children graph inp) published (length (jg_Snapshots graph)) (jr_Source inp) [jr_Source inp] =
    Ok (default "" (last segment), segment).
Proof.
  intros [? ? ? [Hn ?] Hc ? ? ? ? Hh Hd Hs Hl Ha _ _]. pose proof (chain_ids segment Hc Hn Hh Hs) as Hids.
  pose proof (submseteq_length _ _ (NoDup_submseteq _ _ Hd Hids)) as Hlen. rewrite length_fmap in Hlen.
  destruct segment as [|a ext]; [done|]. injection Hh as ->. cbn in Hlen.
  assert (Hlast : default "" (last (jr_Source inp :: ext)) = default (jr_Source inp) (last ext)) by (rewrite last_cons; by destruct (last ext)).
  rewrite Hlast. apply (climb_complete _ _ _ _ [jr_Source inp]); [done..| | |lia].
  - apply Hl. rewrite last_cons. by destruct (last ext).
  - apply Forall_cons in Ha as [_ Ha]. eapply Forall_impl; [exact Ha|]. intros x. by rewrite join_attached_set.
Qed.

Lemma planned_joinable p : PlanJoin graph inp = Ok p → ∃ segment, joinable graph inp segment ∧ p = join_plan graph inp segment.
Proof.
  intros (Hr & Hh & Hb & Hhd & Hn & Hrs & Hc & Hm & Ht & Hid & Hne & Ha & Hf & tip & segment & Hcl & Hiso & Hsup & ->)%PlanJoin_unfold.
  destruct (climb_chain _ _ Hcl) as (H1 & H2 & H3 & H4 & H5). exists segment. split; [|done]. split; auto.
Qed.

Lemma joinable_planned segment : joinable graph inp segment → PlanJoin graph inp = Ok (join_plan graph inp segment).
Proof.
  intros Hj. pose proof (chain_climb _ Hj) as Hcl. destruct Hj as [? ? [? ?] [? ?] ? ? [? ?] ? ? Hh ? ? ? Ha ? ?].
  apply PlanJoin_unfold. split_and!; [done..| |done|]; [|by exists (default "" (last segment)), segment].
  destruct segment; [done|]. injection Hh as ->. by apply Forall_cons in Ha as [? _].
Qed.

(** C18: When a session can be joined, and what the plan is.  [PlanJoin] succeeds exactly for a
    valid input, a committed source in its branch, published there and not in the natural
    history of the head, whose session is one chain of first children up to a leaf, published in
    the branch and by no other, and whose grafts into the session are the branch's own; the plan
    is then determined by that chain: old head, new head, remembered tip and graft patches. *)
Theorem plan_join_exact p : PlanJoin graph inp = Ok p ↔
  ∃ segment, joinable graph inp segment ∧ p = join_plan graph inp segment.
Proof. split; [apply planned_joinable|intros (segment & Hj & ->); by apply joinable_planned]. Qed.
End exact.

(** ** Session scopes *)

Definition not_slash (c : ascii) : bool := negb (bool_decide (c = "/"%char)).

Lemma pretty_N_go_plain n s : all_chars not_slash s = true → all_chars not_slash (pretty_N_go n s) = true.
Proof.
  revert s. induction (N.lt_wf_0 n) as [n _ IH]; intros s Hs. destruct (decide (n = 0)%N) as [->|Hn]; [done|].
  rewrite pretty_N_go_step by lia. apply IH; [apply N.div_lt; lia|]. cbn [all_chars]. rewrite Hs, andb_true_r.
  unfold pretty_N_char. by repeat case_match.
Qed.

Lemma pretty_nat_plain (n : nat) : all_chars not_slash (pretty n) = true.
Proof.
  change (pretty n) with (pretty (N.of_nat n)). unfold pretty, pretty_N. case_decide; [done|]. by apply pretty_N_go_plain.
Qed.

(** A session ref is in the scope of one branch: because a scope spells the length of its
    branch's name, no name lies in the scopes of two branches, be one a path below the other. *)
Theorem session_scope_exact a b r : session_scoped a r = true → session_scoped b r = true → a = b.
Proof.
  unfold session_scoped, HasPrefix, SessionRefPrefix. intros [_ (t & Ht)%prefix_spec]%andb_true_iff [_ (t' & Ht')%prefix_spec]%andb_true_iff.
  rewrite Ht in Ht'. rewrite <- !string_app_assoc in Ht'. injection Ht' as Ht'.
  assert (Hc : ∀ x s, Cut (pretty (String.length x) +:+ String "/" s) "/" = Some (pretty (String.length x), s)).
  { intros x s. apply (Cut_app _ s). apply pretty_nat_plain. }
  pose proof (f_equal (λ s, Cut s "/") Ht') as Hcut. cbn beta in Hcut. rewrite !Hc in Hcut. injection Hcut as Hlen Hrest.
  apply (inj pretty) in Hlen. pose proof (f_equal (take_chars (String.length a)) Hrest) as Htake.
  by rewrite take_chars_app, Hlen, take_chars_app in Htake.
Qed.

(** ** A session joined *)

Module JoinSamples.
Definition hash (s : string) : string := HashContent s.
Definition repo : string := hash "repo".

Definition snapshot (id : string) (parents grafts : list string) : ServerSnapshot :=
  MkServerSnapshot (hash id) repo "main" None (Some (hash <$> parents)) (hash id) "" "" "" "" "" ProviderCodex "full" "saved"
    (MkTeamIdentity "" "" "") (MkTime 1 0) (bool_decide (grafts ≠ [])) (match grafts with [] => None | _ => Some (hash <$> grafts) end)
    (N.of_nat (length grafts)) "" None 0.

(** The head [h] continues [r]; the session [x], [y] was grafted below [h] by [g]. *)
Definition snapshots : list ServerSnapshot :=
  [snapshot "r" [] []; snapshot "x" ["r"] []; snapshot "y" ["x"] []; snapshot "g" ["r"] ["y"]; snapshot "h" ["g"] []].
Definition ref (kind name target : string) : Ref := MkRef "" kind name repo (hash target) "".
Definition refs : list Ref := [ref RefBranch "main" "h"; ref RefBranch "other" "r"].
Definition members : gmap string (gmap string bool) :=
  list_to_map ((λ s, (ss_ID s, {[ "main" := true ]})) <$> snapshots).
Definition graph : JoinGraph := MkJoinGraph snapshots refs [] members.
Definition request : JoinRequest := MkJoinRequest repo "main" "" (hash "x") false.

Definition plan : JoinPlan := result_or (MkJoinPlan "" "" "" "" "" [] "" "" "" []) (PlanJoin graph request).

Lemma join_planned : PlanJoin graph request = Ok plan.
Proof. apply result_or_Ok. vm_compute. reflexivity. Qed.

Lemma plan_is : jp_Segment plan = [hash "x"; hash "y"] ∧ jp_NewHead plan = hash "x" ∧ jp_RemainingTip plan = hash "y" ∧
  jp_Grafts plan = [MkGraftPatch (hash "g") 1 []; MkGraftPatch (hash "x") 0 [hash "h"]].
Proof. vm_compute. done. Qed.
End JoinSamples.

Lemma session_scope_exact_witness :
  let r := MkRef "" RefSession (SessionRefPrefix "feature" +:+ "1a2b") "" "" "" in
  session_scoped "feature" r = true ∧ session_scoped "feature/1a2b" r = false ∧ "feature" = "feature".
Proof. intros r. split_and!; [reflexivity..|]. exact (session_scope_exact "feature" "feature" r eq_refl eq_refl). Defined.
