(* ===== verification/JoinStore.v ===== *)
(** * Applying a join

    Models what a store checks and changes when a planned join is applied: the contract of a
    mutation and its revalidation against the locked graph
    ([backend/internal/domain/join_validation.go], [join_mutation.go], [join.go]), the graft
    registers it writes and the order it writes them in
    ([backend/internal/adapters/store/fs_store.go]).  The theorems connect them with the plan
    of [SessionJoin]: its mutation is valid, nothing published is lost, no step closes a cycle. *)
From S2P Require Import Prelude GoStrings Sha256 Values History Graph Catalog ServerGraph SessionJoin.
From Stdlib Require Import Ascii.

(** ** Mutations *)

Record JoinMutation := MkJoinMutation {
  jm_ExpectedScopeRevision : string;
  jm_BranchID : string;
  jm_RepoID : string;
  jm_Branch : string;
  jm_Source : string;
  jm_Segment : list string;
  jm_ExpectedHead : string;
  jm_NewHead : string;
  jm_ForkName : string;
  jm_ForkTip : string;
  jm_Grafts : list GraftPatch;
}.

Definition validateJoinHashes (ids : list string) : result unit := for_each server_ValidateContentHash ids.

(** [len(m.Segment) == 0 || m.Segment\[0\] != m.Source] *)
Definition starts_elsewhere (m : JoinMutation) : bool := bool_decide (head (jm_Segment m) ≠ Some (jm_Source m)).

Definition segment_id (seen : gset string) (id : string) : result (gset string) :=
  server_ValidateContentHash id ;;
  reject_if (bool_decide (id ∈ seen)) ErrIntegrity ;;
  Ok ({[id]} ∪ seen).

Definition check_patch (seen : gset string) (patch : GraftPatch) : result (gset string) :=
  server_ValidateContentHash (gp_SnapshotID patch) ;;
  validateJoinHashes (gp_Parents patch) ;;
  reject_if (bool_decide (gp_SnapshotID patch ∈ seen)) ErrIntegrity ;;
  Ok ({[gp_SnapshotID patch]} ∪ seen).

(** The patches of the source: each must keep the previous head. *)
Definition source_patches (m : JoinMutation) : list GraftPatch :=
  filter (λ p, gp_SnapshotID p = jm_Source m) (jm_Grafts m).

Definition validateJoinMutationPlan (m : JoinMutation) : result unit :=
  reject_if (jm_Branch m =? HeadRefName) ErrValidation ;;
  reject_if (starts_elsewhere m) ErrValidation ;;
  let tip := default "" (last (jm_Segment m)) in
  (if length (jm_Segment m) =? 1 then
     reject_if ((jm_NewHead m <>? jm_Source m) || (jm_ForkName m <>? "") || (jm_ForkTip m <>? "")) ErrValidation
   else if jm_NewHead m =? tip then
     reject_if ((jm_ForkName m <>? "") || (jm_ForkTip m <>? "")) ErrValidation
   else if jm_NewHead m =? jm_Source m then
     reject_if ((jm_ForkName m =? "") || (jm_ForkTip m <>? tip)) ErrValidation
   else Err ErrValidation) ;;
  reject_if ((jm_ForkName m <>? "") && negb (HasPrefix (jm_ForkName m) (SessionRefPrefix (jm_Branch m)))) ErrValidation ;;
  for_each (λ p, reject_if (negb (bool_decide (jm_ExpectedHead m ∈ gp_Parents p))) ErrValidation) (source_patches m) ;;
  reject_if (bool_decide (source_patches m = [])) ErrValidation.

Definition ValidateJoinMutation (m : JoinMutation) : result unit :=
  validateJoinHashes [jm_RepoID m; jm_Source m; jm_ExpectedHead m; jm_NewHead m] ;;
  reject_if (starts_elsewhere m) ErrValidation ;;
  segmentSeen ← fold_each segment_id (jm_Segment m) ∅;
  reject_if (negb (bool_decide (jm_NewHead m ∈ segmentSeen))) ErrValidation ;;
  server_ValidateBranchName (jm_Branch m) ;;
  reject_if (negb (Bool.eqb (jm_ForkName m =? "") (jm_ForkTip m =? ""))) ErrValidation ;;
  (if jm_ForkName m <>? "" then
     server_ValidateBranchName (jm_ForkName m) ;;
     server_ValidateContentHash (jm_ForkTip m) ;;
     reject_if (negb (bool_decide (jm_ForkTip m ∈ segmentSeen))) ErrValidation
   else Ok tt) ;;
  reject_if (bool_decide (jm_Grafts m = [])) ErrValidation ;;
  fold_each check_patch (jm_Grafts m) ∅ ;;
  validateJoinMutationPlan m.

(** [JoinPlan.Mutation] *)
Definition plan_mutation (p : JoinPlan) (forkName : string) : JoinMutation :=
  MkJoinMutation (jp_ScopeRevision p) (jp_BranchID p) (jp_RepoID p) (jp_Branch p) (jp_Source p) (jp_Segment p)
    (jp_ExpectedHead p) (jp_NewHead p) forkName (jp_RemainingTip p) (jp_Grafts p).

Definition JoinPlan_Mutation (p : JoinPlan) (forkName : string) : result JoinMutation :=
  let m := plan_mutation p forkName in
  ValidateJoinMutation m ;; Ok m.

(** ** Revalidation against the locked graph *)

(** One snapshot of the segment, after [prev]. *)
Definition check_segment (byID : server_graph) (attached : gset string) (prev : option string) (id : string) : result (option string) :=
  match byID !! id with
  | None => Err ErrNotFound
  | Some s =>
      reject_if (negb (bool_decide (id ∈ attached))) ErrConflict ;;
      match prev with
      | Some q => reject_if (bool_decide (head (elems (ss_Parents s)) ≠ Some q)) ErrConflict
      | None => Ok tt
      end ;;
      Ok (Some id)
  end.

Definition check_patch_scope (attached : gset string) (patch : GraftPatch) : result unit :=
  reject_if (negb (bool_decide (gp_SnapshotID patch ∈ attached))) ErrConflict ;;
  for_each (λ p, reject_if (negb (bool_decide (p ∈ attached))) ErrConflict) (gp_Parents patch).

(** A snapshot of the segment and the one expected to follow it. *)
Definition check_children (firstChildren : gmap string (list string)) (e : string * string) : result unit :=
  for_each (λ child, reject_if (child <>? e.2) ErrConflict) (default [] (firstChildren !! e.1)).

Definition expected_next (segment : list string) : list (string * string) := zip segment (tail segment ++ [""]).

Definition validateJoinSegmentTopology (m : JoinMutation) (byID : server_graph) (attached : gset string) : result unit :=
  fold_each (check_segment byID attached) (jm_Segment m) None ;;
  for_each (check_patch_scope attached) (jm_Grafts m) ;;
  let firstChildren := fold_left (add_first_child (λ id, bool_decide (id ∈ attached))) (map_to_list byID).*2 ∅ in
  for_each (check_children firstChildren) (expected_next (jm_Segment m)).

Definition target_scope (branch : string) (ref : Ref) : bool :=
  (((ref_Kind ref =? RefBranch) && (ref_Name ref =? branch)) || session_scoped branch ref) && (ref_Target ref <>? "").

Definition target_roots (refs : list Ref) (branch : string) : list string :=
  ref_Target <$> filter (λ r, target_scope branch r = true) refs.

Definition ValidateJoinGraphScope (m : JoinMutation) (byID : server_graph) (refs : list Ref) : result unit :=
  reject_if ((jm_ExpectedScopeRevision m <>? "") && (JoinScopeRevision byID refs <>? jm_ExpectedScopeRevision m)) ErrJoinPreviewChanged ;;
  let other := snapshotReachableSet byID (other_roots refs (jm_Branch m)) in
  for_each (λ id, reject_if (bool_decide (id ∈ other)) ErrConflict) (jm_Segment m) ;;
  for_each (λ p, reject_if (bool_decide (gp_SnapshotID p ∈ other)) ErrConflict) (jm_Grafts m) ;;
  validateJoinSegmentTopology m byID (snapshotReachableSet byID (target_roots refs (jm_Branch m))).

(** ** The graft registers that are written *)

(** A loop that keeps the first occurrence of each new, nonempty parent. *)
Definition dedup_parent (st : gset string * list string) (p : string) : gset string * list string :=
  if (p =? "") || bool_decide (p ∈ st.1) then st else ({[p]} ∪ st.1, st.2 ++ [p]).

Definition dedupHashParents (id : string) (natural graft : list string) : list string :=
  (fold_left dedup_parent graft ({[id]} ∪ list_to_set natural, [])).2.

(** The register one patch writes ([ApplyJoin]). *)
Definition join_transition (s : ServerSnapshot) (patch : GraftPatch) : result ServerSnapshot :=
  reject_if (negb (bool_decide (ss_GraftSeq s = gp_ExpectedSeq patch))) ErrConflict ;;
  reject_if (bool_decide (ss_GraftSeq s = MaxGraftSeq)) ErrConflict ;;
  let grafts := dedupHashParents (ss_ID s) (elems (ss_Parents s)) (gp_Parents patch) in
  Ok (with_graft s (Some grafts) (negb (bool_decide (grafts = []))) (ss_GraftSeq s + 1)).

Definition apply_patch (byID : server_graph) (patch : GraftPatch) : result server_graph :=
  match byID !! gp_SnapshotID patch with
  | None => Err ErrNotFound
  | Some s => s' ← join_transition s patch; Ok (<[gp_SnapshotID patch := s']> byID)
  end.

Definition apply_patches (byID : server_graph) (patches : list GraftPatch) : result server_graph :=
  fold_each apply_patch patches byID.

(** ** Cycles

    [snapshotGraphHasCycle] colours snapshots: 1 while they are visited, 2 when they are
    finished.  A visit returns the colours, or nothing when it met a cycle. *)

Notation colours := (gmap string N).

Definition visit_all (visit : colours → string → result (option colours)) (ids : list string) (st : colours) : result (option colours) :=
  fold_each (λ st id, match st with None => Ok None | Some st => visit st id end) ids (Some st).

Fixpoint visit (byID : server_graph) (fuel : nat) (st : colours) (id : string) : result (option colours) :=
  match st !! id with
  | Some 1%N => Ok None
  | Some 2%N => Ok (Some st)
  | _ =>
      match byID !! id with
      | None => Ok (Some st)
      | Some s =>
          match fuel with
          | O => Err ErrOutOfFuel
          | S fuel =>
              r ← visit_all (visit byID fuel) (server_ReachabilityParents s) (<[id := 1%N]> st);
              Ok (match r with Some st' => Some (<[id := 2%N]> st') | None => None end)
          end
      end
  end.

Definition snapshotGraphHasCycle (snaps : list ServerSnapshot) : bool :=
  let byID := graph_of snaps in
  match visit_all (visit byID (size byID)) (map_to_list byID).*1 ∅ with
  | Ok (Some _) => false
  | _ => true
  end.

(** ** The order of the writes *)

(** A snapshot of a journal: its states before and after, as their JSON decodes. *)
Record fsJoinSnapshot := MkFsJoinSnapshot {
  fj_ID : string;
  fj_Before : ServerSnapshot;
  fj_After : ServerSnapshot;
}.

Definition validateSnapshotRefs (s : ServerSnapshot) : result unit :=
  DocumentIdentity_Validate (ss_DocIdentity s) ;;
  for_each server_ValidateContentHash [ss_RepoID s; ss_ID s; ss_DocHash s] ;;
  reject_if (ss_ID s <>? ss_DocHash s) ErrIntegrity ;;
  for_each (λ h, if h =? "" then Ok tt else server_ValidateContentHash h)
    [ss_MemoryHash s; ss_ClaudeSettings s; ss_AgentsSettings s; ss_CodexSettings s] ;;
  for_each server_ValidateContentHash (elems (ss_Parents s)) ;;
  for_each server_ValidateContentHash (elems (ss_GraftParents s)) ;;
  reject_if (MaxGraftSeq <? ss_GraftSeq s)%N ErrIntegrity.

Definition validateJoinSnapshot (s : ServerSnapshot) (id repo : string) : result ServerSnapshot :=
  reject_if ((ss_ID s <>? id) || (ss_RepoID s <>? repo)) ErrIntegrity ;;
  validateSnapshotRefs s ;; Ok s.

(** [position\[s.ID\] = i]: the last position of an id. *)
Definition positions (all : list ServerSnapshot) : gmap string nat :=
  fold_left (λ m e, <[ss_ID e.2 := e.1]> m) (indexed all) ∅.

Definition check_entry (pos : gmap string nat) (repo : string) (candidate : list ServerSnapshot) (e : fsJoinSnapshot)
    : result (list ServerSnapshot) :=
  match pos !! fj_ID e with
  | None => Err ErrIntegrity
  | Some i =>
      before ← validateJoinSnapshot (fj_Before e) (fj_ID e) repo;
      validateJoinSnapshot (fj_After e) (fj_ID e) repo ;;
      Ok (<[i := before]> candidate)
  end.

(** One write; the graph must stay without a cycle. *)
Definition write_step (pos : gmap string nat) (image : fsJoinSnapshot → ServerSnapshot) (candidate : list ServerSnapshot) (e : fsJoinSnapshot)
    : result (list ServerSnapshot) :=
  let candidate := <[default 0 (pos !! fj_ID e) := image e]> candidate in
  reject_if (snapshotGraphHasCycle candidate) ErrConflict ;; Ok candidate.

Definition validateJoinTransitionOrder (all : list ServerSnapshot) (entries : list fsJoinSnapshot) (repo : string) : result unit :=
  let pos := positions all in
  candidate ← fold_each (check_entry pos repo) entries all;
  reject_if (snapshotGraphHasCycle candidate) ErrConflict ;;
  candidate ← fold_each (write_step pos fj_After) entries candidate;
  fold_each (write_step pos fj_Before) (reverse entries) candidate ;; Ok tt.

(** ** The entries of a journal *)

(** A slice with [omitempty] that is empty is nil after a round trip through JSON. *)
Definition json_slice (l : slice string) : slice string := match l with Some [] => None | _ => l end.

(** What decoding the JSON of a snapshot gives, for texts that are UTF-8. *)
Definition json_snapshot (s : ServerSnapshot) : ServerSnapshot :=
  MkServerSnapshot (ss_ID s) (ss_RepoID s) (ss_Branch s) (json_slice (ss_Branches s)) (ss_Parents s) (ss_DocHash s) (ss_DocIdentity s)
    (ss_MemoryHash s) (ss_ClaudeSettings s) (ss_AgentsSettings s) (ss_CodexSettings s) (ss_Provider s) (ss_Fidelity s)
    (ss_Message s) (ss_Author s) (ss_CreatedAt s) (ss_Grafted s) (json_slice (ss_GraftParents s)) (ss_GraftSeq s)
    (ss_SessionID s) (json_slice (ss_Models s)) (ss_CompactionCount s).

(** The loop of [ApplyJoin] that prepares the journal; [get] reads a snapshot. *)
Definition journal_entry (get : string → result ServerSnapshot) (entries : list fsJoinSnapshot) (patch : GraftPatch) : result (list fsJoinSnapshot) :=
  s ← get (gp_SnapshotID patch);
  s' ← join_transition s patch;
  Ok (entries ++ [MkFsJoinSnapshot (gp_SnapshotID patch) (json_snapshot s) (json_snapshot s')]).

Definition find_snapshot (byID : server_graph) (id : string) : result ServerSnapshot :=
  match byID !! id with Some s => Ok s | None => Err ErrNotFound end.

Definition journal_entries (byID : server_graph) (patches : list GraftPatch) : result (list fsJoinSnapshot) :=
  fold_each (journal_entry (find_snapshot byID)) patches [].

(** ** Lemmas: cycles *)

Definition parent_link (byID : server_graph) (x y : string) : Prop := y ∈ node_parents byID x.
Definition no_cycle (byID : server_graph) : Prop := ∀ x, ¬ tc (parent_link byID) x x.

Section cycles.
Context (byID : server_graph).
#[local] Notation link := (parent_link byID).

(** Finished snapshots lie on no cycle and have finished or absent parents. *)
Record coloured (st : colours) : Prop := {
  co_values : ∀ x c, st !! x = Some c → c = 1%N ∨ c = 2%N;
  co_clear : ∀ x, st !! x = Some 2%N → ¬ tc link x x;
  co_closed : ∀ x p, st !! x = Some 2%N → link x p → st !! p = Some 2%N ∨ byID !! p = None }.

(** A visit keeps what is being visited and what is finished. *)
Record progress (st st' : colours) : Prop := {
  pr_visiting : ∀ x, st' !! x = Some 1%N ↔ st !! x = Some 1%N;
  pr_finished : ∀ x, st !! x = Some 2%N → st' !! x = Some 2%N }.

#[export] Instance progress_preorder : PreOrder progress.
Proof. split; [by split|]. intros a b c [H1 H2] [H3 H4]. split; [intros x; by rewrite H3|auto]. Qed.

Lemma link_absent x p : byID !! x = None → ¬ link x p.
Proof. unfold parent_link, node_parents. intros ->. set_solver. Qed.

Lemma tc_first {A} (R : relation A) x y : tc R x y → ∃ z, R x z ∧ rtc R z y.
Proof. destruct 1 as [x y ?|x y z ? ?]; eexists; (split; [done|]); [constructor|by apply tc_rtc]. Qed.

(** Below a finished snapshot everything is finished or absent. *)
Lemma finished_below st x y : coloured st → st !! x = Some 2%N → rtc link x y → st !! y = Some 2%N ∨ byID !! y = None.
Proof.
  intros [_ _ Hc] Hx Hr. induction Hr as [x|x z y Hl Hr IH]; [by left|]. destruct (Hc x z Hx Hl) as [Hz|Hz]; [by apply IH|].
  inversion Hr as [|? w ? Hl']; subst; [by right|]. by apply link_absent in Hl'.
Qed.

Lemma start_visit st id : coloured st → st !! id = None → coloured (<[id := 1%N]> st).
Proof.
  intros [Hv Hcl Hc] Hid. split.
  - intros x c. rewrite lookup_insert. case_decide; [intros [= <-]; by left|apply Hv].
  - intros x. rewrite lookup_insert. case_decide; [done|apply Hcl].
  - intros x p. rewrite !lookup_insert. case_decide; [done|]. intros Hx Hl. destruct (Hc x p Hx Hl); [|by right].
    left. case_decide; [congruence|done].
Qed.

(** A snapshot with finished or absent parents can be finished. *)
Lemma finish st id s : coloured st → byID !! id = Some s → st !! id = Some 1%N →
  (∀ p, link id p → st !! p = Some 2%N ∨ byID !! p = None) → coloured (<[id := 2%N]> st).
Proof.
  intros Hst Hs Hid Hp. pose proof Hst as [Hv Hcl Hc]. split.
  - intros x c. rewrite lookup_insert. case_decide; [intros [= <-]; by right|apply Hv].
  - intros x. rewrite lookup_insert. case_decide as E; [subst|apply Hcl]. intros _ (p & Hl & Hr)%tc_first.
    destruct (Hp p Hl) as [Hf|Hn]; [destruct (finished_below _ _ _ Hst Hf Hr); congruence|].
    inversion Hr as [|? w ? Hl']; subst; [congruence|]. by apply link_absent in Hl'.
  - intros x p. rewrite !lookup_insert. intros Hx Hl. destruct (decide (id = p)) as [->|Hne]; [by left|].
    case_decide as E; [subst; by apply Hp|by eapply Hc].
Qed.

Definition visit_ok (st : colours) (id : string) (r : option colours) : Prop :=
  match r with
  | None => ∃ x, tc link x x
  | Some st' => coloured st' ∧ progress st st' ∧ (st' !! id = Some 2%N ∨ byID !! id = None)
  end.

Lemma visit_all_ok f ids st r :
  (∀ st id r, id ∈ ids → f st id = Ok r → coloured st → (∀ a, st !! a = Some 1%N → tc link a id) → visit_ok st id r) →
  visit_all f ids st = Ok r → coloured st → (∀ a id, id ∈ ids → st !! a = Some 1%N → tc link a id) →
  match r with
  | None => ∃ x, tc link x x
  | Some st' => coloured st' ∧ progress st st' ∧ ∀ id, id ∈ ids → st' !! id = Some 2%N ∨ byID !! id = None
  end.
Proof.
  intros Hf Hr Hst Ha. unfold visit_all in Hr. revert Hr.
  apply (fold_each_invariant _ (λ pre o, match o with
    | None => ∃ x, tc link x x
    | Some st' => coloured st' ∧ progress st st' ∧ ∀ id, id ∈ pre → st' !! id = Some 2%N ∨ byID !! id = None end)).
  { split_and!; [done|done|set_solver]. }
  intros pre id [st1|] s2 H1 Hin H2; [|by injection H2 as <-]. destruct H1 as (Hc & Hp & Hd).
  apply Hf in H2; [|done|done|intros a; rewrite (pr_visiting _ _ Hp); by apply Ha].
  destruct s2 as [st2|]; [|done]. destruct H2 as (Hc2 & Hp2 & Hd2). split_and!; [done|by transitivity st1|].
  intros x [Hx|Hx%list_elem_of_singleton]%elem_of_app; [|by subst]. destruct (Hd x Hx); [left; by apply (pr_finished _ _ Hp2)|by right].
Qed.

Lemma visit_spec fuel st id r : visit byID fuel st id = Ok r → coloured st → (∀ a, st !! a = Some 1%N → tc link a id) →
  visit_ok st id r.
Proof.
  revert st id r. induction fuel as [|fuel IH]; intros st id r; cbn [visit]; intros H Hst Ha.
  all: destruct (st !! id) as [c|] eqn:Hid; [destruct (co_values _ Hst id c Hid); subst c|].
  all: try (injection H as <-; by (exists id; apply Ha)).
  all: try (injection H as <-; by (split_and!; [done|done|left])).
  all: destruct (byID !! id) as [s|] eqn:Hs; [|injection H as <-; by (split_and!; [done|done|right])].
  1: done.
  apply bind_Ok in H as (o & Ho & H).
  pose proof (start_visit _ _ Hst Hid) as H1.
  assert (Hlink : ∀ p, p ∈ server_ReachabilityParents s ↔ link id p) by (intros p; unfold parent_link, node_parents; by rewrite Hs).
  apply visit_all_ok in Ho; [|intros ???? ; apply IH|done|].
  - destruct o as [st'|]; injection H as <-; [|done]. destruct Ho as (Hc & [Hv Hf] & Hp).
    assert (Hid' : st' !! id = Some 1%N) by (apply Hv; by rewrite lookup_insert_eq).
    split_and!.
    + eapply finish; [done|done|done|]. intros p Hl. by apply Hp, Hlink.
    + split; intros x; rewrite lookup_insert; case_decide as E; subst; [split; congruence| |done|].
      * rewrite Hv, lookup_insert_ne by done. done.
      * intros Hx. apply Hf. by rewrite lookup_insert_ne.
    + left. by rewrite lookup_insert_eq.
  - intros a p Hp Hav. apply Hlink in Hp. rewrite lookup_insert in Hav. case_decide as E; [subst; by apply tc_once|].
    eapply tc_r; [by apply Ha|done].
Qed.

Lemma visit_all_total f ids st0 st :
  (∀ st1 id, id ∈ ids → coloured st1 → progress st0 st1 → ∃ r, f st1 id = Ok r ∧ visit_ok st1 id r) → coloured st →
  progress st0 st → ∃ r, visit_all f ids st = Ok r.
Proof.
  unfold visit_all. intros Hf Hst Hp. revert st Hst Hf Hp. induction ids as [|id ids IH]; intros st Hst Hf Hp; [by eexists|]. cbn [fold_each].
  destruct (Hf st id) as (r & Hr & Hok); [left|done..|]. rewrite Hr. cbn [mbind result_bind]. destruct r as [st1|].
  - destruct Hok as (Hc & Hp1 & _). apply IH; [done|intros; apply Hf; [by right|done..]|by transitivity st].
  - exists None. clear. induction ids as [|x ids IH]; [done|]. exact IH.
Qed.

(** A visit goes no deeper than there are snapshots. *)
Lemma visit_total fuel st id A : coloured st → (∀ a, st !! a = Some 1%N ↔ a ∈ A) → (∀ a, a ∈ A → tc link a id) →
  A ⊆ dom byID → size byID ≤ fuel + size A → ∃ r, visit byID fuel st id = Ok r.
Proof.
  revert st id A. induction fuel as [|fuel IH]; intros st id A Hst HA Ht Hsub Hsz; cbn [visit].
  all: destruct (st !! id) as [c|] eqn:Hid; [destruct (co_values _ Hst id c Hid); subst c; by eexists|].
  all: destruct (byID !! id) as [s|] eqn:Hs; [|by eexists].
  all: assert (Hnew : id ∉ A) by (rewrite <- HA; congruence).
  all: assert (Hsub' : {[id]} ∪ A ⊆ dom byID) by (apply elem_of_dom_2 in Hs; set_solver).
  all: pose proof (subseteq_size _ _ Hsub') as Hle; rewrite size_dom, size_union, size_singleton in Hle by set_solver.
  { lia. }
  pose proof (start_visit _ _ Hst Hid) as H1.
  assert (HA1 : ∀ a, <[id := 1%N]> st !! a = Some 1%N ↔ a ∈ {[id]} ∪ A).
  { intros a. rewrite lookup_insert. case_decide as E; [set_solver|]. rewrite HA. set_solver. }
  assert (Hlink : ∀ p a, p ∈ server_ReachabilityParents s → a ∈ {[id]} ∪ A → tc link a p).
  { intros p a Hp Ha. assert (link id p) by (unfold parent_link, node_parents; by rewrite Hs).
    apply elem_of_union in Ha as [Ha%elem_of_singleton|Ha]; [subst; by apply tc_once|]. eapply tc_r; [by apply Ht|done]. }
  destruct (visit_all_total (visit byID fuel) (server_ReachabilityParents s) (<[id := 1%N]> st) (<[id := 1%N]> st)) as [r ->]; [|done|done|by eexists].
  intros st1 p Hp Hc1 [Hv1 _]. destruct (IH st1 p ({[id]} ∪ A)) as [r Hr]; [done|intros a; by rewrite Hv1|intros a; by apply Hlink|done| |].
  - rewrite size_union, size_singleton by set_solver. lia.
  - exists r. split; [done|]. eapply visit_spec; [done|done|]. intros a Ha. apply Hlink; [done|]. by rewrite <- HA1, <- Hv1.
Qed.
End cycles.

Lemma coloured_empty byID : coloured byID ∅.
Proof. split; intros *; by rewrite lookup_empty. Qed.

(** The search decides whether the graph has a cycle. *)
Lemma has_cycle_spec snaps : snapshotGraphHasCycle snaps = false ↔ no_cycle (graph_of snaps).
Proof.
  unfold snapshotGraphHasCycle. set (byID := graph_of snaps).
  destruct (visit_all_total byID (visit byID (size byID)) (map_to_list byID).*1 ∅ ∅) as [r Hr]; [|apply coloured_empty|done|].
  { intros st id _ Hst [Hv _]. assert (Hn : ∀ a, st !! a = Some 1%N ↔ a ∈ (∅ : gset string)).
    { intros a. rewrite Hv, lookup_empty. set_solver. }
    destruct (visit_total byID (size byID) st id ∅) as [r Hr]; [done|done|set_solver|set_solver|lia|]. exists r. split; [done|].
    eapply visit_spec; [done|done|]. intros a Ha%Hn. set_solver. }
  rewrite Hr. pose proof Hr as Hok. apply (visit_all_ok byID) in Hok; [|intros ????; apply visit_spec|apply coloured_empty|intros ??; by rewrite lookup_empty].
  destruct r as [st|]; split; try done.
  - intros _ x Hx. destruct Hok as ([_ Hcl _] & _ & Hall). destruct (byID !! x) as [s|] eqn:Hs.
    + destruct (Hall x) as [Hf|Hn]; [|by eapply Hcl|congruence]. apply list_elem_of_fmap. exists (x, s). split; [done|]. by apply elem_of_map_to_list.
    + apply tc_first in Hx as (y & Hl & _). by eapply link_absent.
  - intros Hno. destruct Hok as [x Hx]. by destruct (Hno x).
Qed.

(** ** Lemmas: what patches change *)

Lemma dedup_fold grafts seen out : (∀ p, p ∈ out → p ∈ seen) → NoDup out →
  let r := fold_left dedup_parent grafts (seen, out) in
  NoDup r.2 ∧ ∀ p, p ∈ r.2 ↔ p ∈ out ∨ (p ∈ grafts ∧ p ≠ "" ∧ p ∉ seen).
Proof.
  revert seen out. induction grafts as [|g grafts IH]; intros seen out Ho Hn; cbn [fold_left]; [split; [done|]; set_solver|].
  unfold dedup_parent at 2 4. cbn [fst snd]. destruct ((g =? "") || bool_decide (g ∈ seen)) eqn:E.
  - destruct (IH seen out Ho Hn) as [H1 H2]. split; [exact H1|]. intros p. rewrite H2. apply orb_true_iff in E.
    split; [set_solver|]. intros [?|(Hp & Hpn & Hps)]; [by left|]. apply elem_of_cons in Hp as [->|Hp]; [|by right].
    destruct E as [E|E]; bools; done.
  - bools. destruct (IH ({[g]} ∪ seen) (out ++ [g])) as [H1 H2]; [set_solver|apply NoDup_app; split_and!; [done|set_solver|apply NoDup_singleton]|].
    split; [exact H1|]. intros p. rewrite H2. destruct (decide (p = g)); set_solver.
Qed.

Lemma dedupHashParents_spec id natural graft : NoDup (dedupHashParents id natural graft) ∧
  ∀ p, p ∈ dedupHashParents id natural graft ↔ p ∈ graft ∧ p ≠ "" ∧ p ≠ id ∧ p ∉ natural.
Proof.
  destruct (dedup_fold graft ({[id]} ∪ list_to_set natural) []) as [H1 H2]; [set_solver|constructor|]. split; [exact H1|].
  intros p. unfold dedupHashParents. rewrite H2. set_solver.
Qed.

Lemma join_transition_Ok s patch s' : join_transition s patch = Ok s' →
  ss_ID s' = ss_ID s ∧ ss_RepoID s' = ss_RepoID s ∧ ss_Parents s' = ss_Parents s ∧ ss_GraftSeq s' = (ss_GraftSeq s + 1)%N ∧
  ss_GraftSeq s = gp_ExpectedSeq patch ∧ ss_GraftSeq s ≠ MaxGraftSeq ∧
  ∀ p, p ∈ server_ReachabilityParents s' ↔ p ∈ elems (ss_Parents s) ∨ (p ∈ gp_Parents patch ∧ p ≠ "" ∧ p ≠ ss_ID s).
Proof.
  unfold join_transition. intros H. inv_ok. bools. subst s'. split_and!; [done..|]. intros p. rewrite server_parents_elem.
  cbn [ss_Parents ss_GraftParents with_graft]. unfold elems at 2. cbn. rewrite (proj2 (dedupHashParents_spec _ _ _)).
  destruct (decide (p ∈ elems (ss_Parents s))); naive_solver.
Qed.

(** Patches of distinct snapshots each replace the register of theirs. *)
Lemma apply_patches_spec patches byID byID' : NoDup (gp_SnapshotID <$> patches) → apply_patches byID patches = Ok byID' →
  (∀ x, x ∉ gp_SnapshotID <$> patches → byID' !! x = byID !! x) ∧
  (∀ p, p ∈ patches → ∃ s s', byID !! gp_SnapshotID p = Some s ∧ join_transition s p = Ok s' ∧ byID' !! gp_SnapshotID p = Some s').
Proof.
  intros Hn. unfold apply_patches.
  assert (H : ∀ l, (∀ m, fold_each apply_patch l byID = Ok m → NoDup (gp_SnapshotID <$> l) →
    (∀ x, x ∉ gp_SnapshotID <$> l → m !! x = byID !! x) ∧
    (∀ p, p ∈ l → ∃ s s', byID !! gp_SnapshotID p = Some s ∧ join_transition s p = Ok s' ∧ m !! gp_SnapshotID p = Some s'))); [|intros; by apply H].
  clear. induction l as [|p l IH] using rev_ind; intros m; [intros [= <-] _; split; [done|set_solver]|].
  intros (m1 & Hm1 & Hm)%fold_each_app Hn. rewrite fmap_app in Hn. apply NoDup_app in Hn as (Hn & Hd & _).
  destruct (IH m1 Hm1 Hn) as [H1 H2]. cbn [fold_each] in Hm. inv_ok. subst. unfold apply_patch in Hm0.
  assert (Hp : gp_SnapshotID p ∉ gp_SnapshotID <$> l) by (intros Hin; apply (Hd _ Hin); set_solver).
  destruct (m1 !! gp_SnapshotID p) as [s|] eqn:Hs; [|done]. inv_ok. subst. rewrite H1 in Hs by done. split.
  - intros x Hx. rewrite fmap_app in Hx. rewrite lookup_insert_ne by set_solver. apply H1. set_solver.
  - intros q [Hq|Hq%list_elem_of_singleton]%elem_of_app.
    + destruct (H2 q Hq) as (t & t' & ? & ? & ?). exists t, t'. split_and!; [done..|].
      rewrite lookup_insert_ne; [done|]. intros E. apply Hp. rewrite E. by apply list_elem_of_fmap_2.
    + subst q. eexists s, _. split_and!; [done|done|by rewrite lookup_insert_eq].
Qed.

Section patched.
Context (patches : list GraftPatch) (byID byID' : server_graph).
Context (Hdistinct : NoDup (gp_SnapshotID <$> patches)) (Happly : apply_patches byID patches = Ok byID')
        (Hids : ∀ x s, byID !! x = Some s → ss_ID s = x).

Lemma patched_link p y : p ∈ patches →
  parent_link byID' (gp_SnapshotID p) y ↔ y ∈ node_natural byID (gp_SnapshotID p) ∨ (y ∈ gp_Parents p ∧ y ≠ "" ∧ y ≠ gp_SnapshotID p).
Proof.
  intros Hp. destruct (apply_patches_spec _ _ _ Hdistinct Happly) as [_ H]. destruct (H p Hp) as (s & s' & Hs & Ht & Hs').
  unfold parent_link, node_parents, node_natural. rewrite Hs', Hs. cbn [from_option].
  apply join_transition_Ok in Ht as (_ & _ & _ & _ & _ & _ & Ht). rewrite Ht. by rewrite (Hids _ _ Hs).
Qed.

Lemma unpatched_link x y : x ∉ gp_SnapshotID <$> patches → parent_link byID' x y ↔ parent_link byID x y.
Proof.
  intros Hx. destruct (apply_patches_spec _ _ _ Hdistinct Happly) as [H _]. unfold parent_link, node_parents. by rewrite H.
Qed.

Lemma natural_kept x y : y ∈ node_natural byID x → parent_link byID' x y.
Proof.
  intros Hy. destruct (decide (x ∈ gp_SnapshotID <$> patches)) as [(p & -> & Hp)%list_elem_of_fmap|Hx].
  - apply patched_link; [done|]. by left.
  - apply unpatched_link; [done|]. apply node_natural_elem in Hy as (s & Hs & Hy). apply node_parents_elem. exists s. auto.
Qed.
End patched.

(** ** A join loses nothing and closes no cycle *)

Lemma reaches_nonempty byID r x : reaches byID r x → x ≠ "".
Proof. intros [Hr H]. induction H as [|a b c [_ Hb] _ IH]; auto. Qed.

Lemma reaches_trans byID r x y : reaches byID r x → rtc (graph_edge byID) x y → reaches byID r y.
Proof. intros [? ?] ?. split; [done|]. by etransitivity. Qed.

Lemma Sorted_elem {A} (R : A → A → Prop) (P : A → Prop) l : Sorted R l → (∀ x, x ∈ l → P x) → Sorted (λ a b, R a b ∧ P a) l.
Proof.
  intros Hs HP. induction Hs as [|a l Hs IH Hd]; constructor; [apply IH; intros; apply HP; by right|].
  destruct Hd; constructor. split; [done|]. apply HP. left.
Qed.

(** The last element of a chain is above every other. *)
Lemma chain_above {A} (R : A → A → Prop) l t x : Sorted R l → last l = Some t → x ∈ l → rtc (λ a b, R b a) t x.
Proof.
  intros Hs Hl. revert x. induction l as [|a l IH]; [set_solver|]. intros x. apply Sorted_inv in Hs as [Hs Hd]. destruct l as [|b l].
  - injection Hl as ->. intros E%list_elem_of_singleton. rewrite E. constructor.
  - change (last (a :: b :: l)) with (last (b :: l)) in Hl. intros [->|Hx]%elem_of_cons; [|by apply IH].
    apply rtc_r with b; [apply IH; [done..|left]|by apply HdRel_inv in Hd].
Qed.

Section planned.
Context (graph : JoinGraph) (inp : JoinRequest) (segment : list string) (Hj : joinable graph inp segment).
#[local] Notation byID := (join_byID graph).
#[local] Notation plan := (join_plan graph inp segment).
#[local] Notation source := (jr_Source inp).
#[local] Notation target := (ref_Target (join_head graph inp)).

Lemma byID_ids x s : byID !! x = Some s → ss_ID s = x.
Proof. by intros [_ ?]%index_graph_lookup. Qed.

Lemma source_in_segment : source ∈ segment.
Proof. pose proof (jn_first _ _ _ Hj) as Hh. by apply head_Some_elem_of. Qed.

Lemma segment_tip : ∃ tip, last segment = Some tip ∧ tip ∈ segment.
Proof.
  pose proof source_in_segment as Hs. destruct (last segment) as [t|] eqn:E; [exists t; split; [done|]; by apply last_Some_elem_of|].
  apply last_None in E. rewrite E in Hs. set_solver.
Qed.

Lemma source_nonempty : source ≠ "".
Proof. apply content_hash_nonempty, Hj. Qed.

Lemma segment_nonempty x : x ∈ segment → x ≠ "".
Proof.
  pose proof (jn_attached _ _ _ Hj) as Ha. rewrite Forall_forall in Ha. intros [Hr|(r & _ & _ & Hr)]%Ha; by apply reaches_nonempty in Hr.
Qed.

Lemma chain_natural a b : join_children graph inp a = [b] → a ∈ node_natural byID b.
Proof.
  intros H. assert (Hb : b ∈ join_children graph inp a) by (rewrite H; left). unfold join_children in Hb.
  apply list_elem_of_filter in Hb as [_ (s & -> & Hs)%list_elem_of_fmap]. apply list_elem_of_filter in Hs as [[_ Hh] Hs].
  apply node_natural_elem. exists s. split; [by apply join_lookup; [apply Hj|]|]. destruct (elems (ss_Parents s)); [done|]. injection Hh as ->. left.
Qed.

Lemma segment_above_source x : x ∈ segment → rtc (natural_edge byID) x source.
Proof.
  intros Hx. pose proof (jn_first _ _ _ Hj) as Hh. pose proof (jn_chain _ _ _ Hj) as Hs.
  apply list_elem_of_split in Hx as (l1 & l2 & Hl). rewrite Hl in Hh, Hs.
  destruct l1 as [|c l1]; injection Hh as Hc; [subst x; constructor|subst c].
  assert (Hs' : Sorted (λ a b, join_children graph inp a = [b]) ((source :: l1) ++ [x])).
  { apply (Sorted_prefix _ _ l2). by rewrite <- app_assoc. }
  pose proof (chain_above _ _ x source Hs') as Hr. eapply rtc_subrel; [|apply Hr; [by rewrite last_snoc|left]]. intros u v Huv. by apply chain_natural.
Qed.

(** The head is not in the session: it would have the source in its natural history. *)
Lemma target_outside : target ∉ segment.
Proof. intros H%segment_above_source. by apply (jn_fresh _ _ _ Hj). Qed.

Lemma superseded_elem s : s ∈ join_superseded graph inp segment ↔
  s ∈ jg_Snapshots graph ∧ ss_ID s ∉ segment ∧ reaches byID target (ss_ID s) ∧ ∃ g, g ∈ elems (ss_GraftParents s) ∧ g ∈ segment.
Proof.
  unfold join_superseded, grafts_into. rewrite list_elem_of_filter, snapshotReachableSet_spec, Exists_exists.
  setoid_rewrite list_elem_of_singleton. naive_solver.
Qed.

Lemma plan_patch_ids : gp_SnapshotID <$> jp_Grafts plan = (ss_ID <$> join_superseded graph inp segment) ++ [source].
Proof. unfold join_plan. cbn [jp_Grafts]. rewrite fmap_app. f_equal. by rewrite <- list_fmap_compose. Qed.

Lemma plan_patches_distinct : NoDup (gp_SnapshotID <$> jp_Grafts plan).
Proof.
  rewrite plan_patch_ids. apply NoDup_app. split_and!; [|intros x (s & -> & Hs)%list_elem_of_fmap|apply NoDup_singleton].
  - apply NoDup_fmap_filter. apply Hj.
  - apply superseded_elem in Hs as (_ & Hs & _). intros E%list_elem_of_singleton. apply Hs. rewrite E. apply source_in_segment.
Qed.

(** The patch of the source and those of the snapshots grafted on the session. *)
Lemma plan_patch p : p ∈ jp_Grafts plan ↔
  (∃ s, s ∈ join_superseded graph inp segment ∧ p = MkGraftPatch (ss_ID s) (ss_GraftSeq s) (without_segment segment s).2) ∨
  p = MkGraftPatch source (graft_seq byID source) (join_source_grafts graph inp).
Proof.
  unfold join_plan. cbn [jp_Grafts]. rewrite elem_of_app, list_elem_of_fmap, list_elem_of_singleton. naive_solver.
Qed.

Lemma source_grafts_elem y : y ∈ join_source_grafts graph inp ↔ y = target ∨ ∃ s, byID !! source = Some s ∧ y ∈ elems (ss_GraftParents s).
Proof.
  unfold join_source_grafts. destruct (byID !! source) as [s|]; cbn [from_option].
  - case_bool_decide; [|rewrite elem_of_app, list_elem_of_singleton]; naive_solver.
  - case_bool_decide; set_solver.
Qed.

Section applied.
Context (byID' : server_graph) (Happly : apply_patches byID (jp_Grafts plan) = Ok byID').

Lemma applied_natural x y : y ∈ node_natural byID x → parent_link byID' x y.
Proof. apply natural_kept with (jp_Grafts plan); [apply plan_patches_distinct|done|intros ??; apply byID_ids]. Qed.

(** Edges are kept, but for grafts into the session. *)
Lemma applied_edge x y : graph_edge byID x y → graph_edge byID' x y ∨ x = y ∨ y ∈ segment.
Proof.
  intros [Hy Hn]. destruct (decide (x = y)) as [Hxy|Hxy]; [by right; left|]. destruct (decide (y ∈ segment)) as [|Hseg]; [by right; right|].
  left. split; [|done]. change (parent_link byID' x y). destruct (decide (x ∈ gp_SnapshotID <$> jp_Grafts plan)) as [Hp|Hp].
  - apply list_elem_of_fmap in Hp as (p & -> & Hp). apply (patched_link (jp_Grafts plan) byID);
      [apply plan_patches_distinct|done|intros ??; apply byID_ids|done|].
    apply node_parents_elem in Hy as (s & Hs & [Hy|Hy]); [left; apply node_natural_elem; by exists s|right; split; [|done]].
    apply plan_patch in Hp as [(s' & Hs' & ->)| ->]; cbn [gp_SnapshotID gp_Parents] in *.
    + unfold without_segment. cbn [snd]. apply list_elem_of_filter. split; [done|].
      apply superseded_elem in Hs' as [Hs' _]. rewrite (join_lookup _ s') in Hs by (done || apply Hj). by injection Hs as ->.
    + apply source_grafts_elem. right. by exists s.
  - apply (unpatched_link (jp_Grafts plan) byID); [apply plan_patches_distinct|done|done|done].
Qed.

Lemma applied_segment tip x : last segment = Some tip → x ∈ segment → rtc (graph_edge byID') tip x.
Proof.
  intros Hl Hx. pose proof (Sorted_elem _ (λ a, a ≠ "") _ (jn_chain _ _ _ Hj) segment_nonempty) as Hs.
  pose proof (chain_above _ _ _ x Hs Hl Hx) as Hr. eapply rtc_subrel; [|exact Hr]. intros u v [Hc Hn].
  split; [|done]. by apply applied_natural, chain_natural.
Qed.

Lemma applied_head : graph_edge byID' source target.
Proof.
  destruct (jn_head _ _ _ Hj) as [Hn Hne]. split; [|done]. change (parent_link byID' source target).
  apply (patched_link (jp_Grafts plan) byID byID' plan_patches_distinct Happly byID_ids
    (MkGraftPatch source (graft_seq byID source) (join_source_grafts graph inp))).
  - apply plan_patch. by right.
  - right. cbn. split_and!; [apply source_grafts_elem; by left|done|done].
Qed.

(** The session hangs below the new head or the remembered tip, the old head below the source. *)
Lemma applied_new_head : reaches byID' (jp_NewHead plan) target.
Proof.
  destruct segment_tip as (tip & Hl & Ht). unfold join_plan. cbn [jp_NewHead]. rewrite Hl. change (default "" (Some tip)) with tip.
  destruct (jr_IncludeDescendants inp).
  - split; [by apply segment_nonempty|]. eapply rtc_r; [apply (applied_segment tip source); [done|apply source_in_segment]|apply applied_head].
  - split; [apply source_nonempty|]. apply rtc_once, applied_head.
Qed.

Lemma applied_tip x : x ∈ segment → reaches byID' (jp_NewHead plan) x ∨ reaches byID' (jp_RemainingTip plan) x.
Proof.
  destruct segment_tip as (tip & Hl & Ht). intros Hx. unfold join_plan. cbn [jp_NewHead jp_RemainingTip]. rewrite Hl. change (default "" (Some tip)) with tip.
  pose proof (applied_segment tip x Hl Hx) as Hr. pose proof (segment_nonempty _ Ht) as Hn.
  destruct (jr_IncludeDescendants inp); [by left|]. cbn [negb andb].
  destruct (tip <>? source) eqn:E; [by right|]. bools. left. by rewrite <- E.
Qed.

Lemma applied_reaches r x : reaches byID r x →
  reaches byID' r x ∨ reaches byID' (jp_NewHead plan) x ∨ reaches byID' (jp_RemainingTip plan) x.
Proof.
  intros [Hr Hp]. revert x Hp. refine (rtc_ind_r _ r _ _); [left; split; [done|constructor]|].
  intros y z _ Hyz IH. destruct (applied_edge y z Hyz) as [He|[<-|Hz]]; [|done|right; by apply applied_tip].
  assert (∀ q, reaches byID' q y → reaches byID' q z) as Hstep by (intros q Hq; eapply reaches_trans; [done|]; by apply rtc_once).
  destruct IH as [?|[?|?]]; auto.
Qed.
End applied.
End planned.

(** ** Lemmas: the order of the writes *)

Lemma graph_of_lookup snaps id s : NoDup (ss_ID <$> snaps) → graph_of snaps !! id = Some s ↔ s ∈ snaps ∧ ss_ID s = id.
Proof.
  intros Hn. split; [apply (index_graph_lookup (MkJoinGraph snaps [] [] ∅))|]. intros [Hs <-].
  by apply (join_lookup (MkJoinGraph snaps [] [] ∅)).
Qed.

(** Replacing a snapshot of the list replaces it in the graph. *)
Lemma graph_of_insert l i old x : NoDup (ss_ID <$> l) → l !! i = Some old → ss_ID x = ss_ID old →
  ss_ID <$> <[i := x]> l = ss_ID <$> l ∧ graph_of (<[i := x]> l) = <[ss_ID x := x]> (graph_of l).
Proof.
  intros Hn Hi Hx. assert (Hids : ss_ID <$> <[i := x]> l = ss_ID <$> l).
  { rewrite list_fmap_insert. apply list_insert_id. by rewrite list_lookup_fmap, Hi, Hx. }
  split; [done|]. apply map_eq. intros id. apply option_eq. intros s. rewrite lookup_insert.
  rewrite graph_of_lookup by (by rewrite Hids). assert (Hlt : i < length l) by (by apply lookup_lt_Some in Hi). split.
  - intros [(j & Hj)%list_elem_of_lookup_1 Hid]. apply list_lookup_insert_Some in Hj as [(-> & -> & _)|[Hne Hj]]; [by rewrite decide_True|].
    rewrite decide_False; [apply graph_of_lookup; [done|]; split; [by eapply list_elem_of_lookup_2|done]|].
    intros E. apply Hne. eapply (NoDup_lookup (ss_ID <$> l)); [done|by rewrite list_lookup_fmap, Hi|rewrite list_lookup_fmap, Hj]. cbn. congruence.
  - case_decide as E.
    + intros [= <-]. split; [|done]. apply (list_elem_of_lookup_2 _ i). by rewrite list_lookup_insert_eq.
    + rewrite graph_of_lookup by done. intros [(j & Hj)%list_elem_of_lookup_1 Hid]. split; [|done]. apply (list_elem_of_lookup_2 _ j).
      rewrite list_lookup_insert_ne; [done|]. intros <-. congruence.
Qed.

Lemma positions_lookup all id i s : NoDup (ss_ID <$> all) → all !! i = Some s → ss_ID s = id → positions all !! id = Some i.
Proof.
  intros Hn Hi Hid. unfold positions. assert (H : ∀ l, (∀ e, e ∈ l → all !! e.1 = Some e.2) → (i, s) ∈ l →
    fold_left (λ m e, <[ss_ID e.2 := e.1]> m) l (∅ : gmap string nat) !! id = Some i).
  { intros l. induction l as [|[j t] l IH] using rev_ind; [set_solver|]. intros Hl Hin. rewrite fold_left_app. cbn [fold_left fst snd].
    rewrite lookup_insert. case_decide as E.
    - pose proof (Hl (j, t) ltac:(set_solver)) as Hjt. cbn in Hjt, E. f_equal.
      eapply (NoDup_lookup (ss_ID <$> all)); [done|rewrite list_lookup_fmap, Hjt; cbn; by rewrite E, <- Hid|by rewrite list_lookup_fmap, Hi].
    - apply IH; [intros; apply Hl; set_solver|]. apply elem_of_app in Hin as [?|E'%list_elem_of_singleton]; [done|]. injection E' as -> ->. done. }
  apply H; [intros [j t] Hj; by apply indexed_elem|by apply indexed_elem].
Qed.

(** The graph after one state of each entry was written, in order. *)
Definition written (image : fsJoinSnapshot → ServerSnapshot) (pre : list fsJoinSnapshot) (byID : server_graph) : server_graph :=
  fold_left (λ m e, <[fj_ID e := image e]> m) pre byID.
Notation overlay := (written fj_After).
Notation restored := (written fj_Before).

Lemma written_snoc image pre e byID : written image (pre ++ [e]) byID = <[fj_ID e := image e]> (written image pre byID).
Proof. unfold written. by rewrite fold_left_app. Qed.

Lemma written_other image pre byID x : x ∉ fj_ID <$> pre → written image pre byID !! x = byID !! x.
Proof.
  induction pre as [|e pre IH] using rev_ind; [done|]. rewrite fmap_app, written_snoc. intros Hx.
  rewrite lookup_insert_ne by set_solver. apply IH. set_solver.
Qed.

Lemma written_lookup image pre byID e : NoDup (fj_ID <$> pre) → e ∈ pre → written image pre byID !! fj_ID e = Some (image e).
Proof.
  induction pre as [|d pre IH] using rev_ind; [set_solver|]. rewrite fmap_app, written_snoc, NoDup_app.
  intros (Hn & Hd & _) [He|He%list_elem_of_singleton]%elem_of_app; [|subst; by rewrite lookup_insert_eq].
  rewrite lookup_insert_ne; [by apply IH|]. intros E. apply (Hd (fj_ID e)); [by apply list_elem_of_fmap_2|]. rewrite <- E. set_solver.
Qed.

(** Two graphs that differ only where the entries write. *)
Lemma written_agree image pre g g' : NoDup (fj_ID <$> pre) → (∀ x, x ∉ fj_ID <$> pre → g !! x = g' !! x) →
  written image pre g = written image pre g'.
Proof.
  intros Hn Hg. apply map_eq. intros x. destruct (decide (x ∈ fj_ID <$> pre)) as [(e & -> & He)%list_elem_of_fmap|Hx].
  - by rewrite !written_lookup.
  - rewrite !written_other by done. by apply Hg.
Qed.

Lemma written_id image pre g : (∀ e, e ∈ pre → g !! fj_ID e = Some (image e)) → written image pre g = g.
Proof.
  induction pre as [|e pre IH] using rev_ind; intros Hg; [done|]. rewrite written_snoc, IH by (intros; apply Hg; set_solver).
  apply insert_id. apply Hg. set_solver.
Qed.

Lemma position_stored all id i : positions all !! id = Some i → id ∈ ss_ID <$> all.
Proof.
  unfold positions. assert (H : ∀ l, (∀ e, e ∈ l → e.2 ∈ all) →
    fold_left (λ m e, <[ss_ID e.2 := e.1]> m) l (∅ : gmap string nat) !! id = Some i → id ∈ ss_ID <$> all).
  { intros l. induction l as [|e l IH] using rev_ind; intros Hl; [cbn [fold_left]; by rewrite lookup_empty|]. rewrite fold_left_app. cbn [fold_left].
    rewrite lookup_insert. case_decide as E; [|by apply IH; intros; apply Hl; set_solver].
    intros _. rewrite <- E. apply list_elem_of_fmap_2, Hl. set_solver. }
  apply H. intros [j s] Hj%indexed_elem. by eapply list_elem_of_lookup_2.
Qed.

Lemma join_snapshot_Ok repo s id s' : validateJoinSnapshot s id repo = Ok s' → s' = s ∧ ss_ID s = id.
Proof. unfold validateJoinSnapshot. intros H. inv_ok. bools. done. Qed.

Section order.
Context (all : list ServerSnapshot) (entries : list fsJoinSnapshot) (repo : string).
Context (Hids : NoDup (ss_ID <$> all)) (Hdistinct : NoDup (fj_ID <$> entries)).

#[local] Notation pos := (positions all).
#[local] Notation base := (restored entries (graph_of all)).

(** The entry is of a snapshot that is stored, and holds valid states of it. *)
Definition entry_valid (e : fsJoinSnapshot) : Prop :=
  fj_ID e ∈ ss_ID <$> all ∧ validateJoinSnapshot (fj_Before e) (fj_ID e) repo = Ok (fj_Before e) ∧
  validateJoinSnapshot (fj_After e) (fj_ID e) repo = Ok (fj_After e).

(** No prefix of the writes, over the states before them, closes a cycle. *)
Definition prefixes_acyclic : Prop := ∀ pre post, entries = pre ++ post → no_cycle (overlay pre base).

(** A list with the ids of the store in their places. *)
Definition on_disk (g : server_graph) (candidate : list ServerSnapshot) : Prop :=
  ss_ID <$> candidate = ss_ID <$> all ∧ graph_of candidate = g.

Lemma on_disk_acyclic g candidate : on_disk g candidate → snapshotGraphHasCycle candidate = false ↔ no_cycle g.
Proof. intros [_ <-]. apply has_cycle_spec. Qed.

Lemma entry_position e : fj_ID e ∈ ss_ID <$> all → ∃ i s, all !! i = Some s ∧ ss_ID s = fj_ID e ∧ pos !! fj_ID e = Some i.
Proof.
  intros (s & Hid & (i & Hi)%list_elem_of_lookup_1)%list_elem_of_fmap. exists i, s. split_and!; [done|done|]. by eapply positions_lookup.
Qed.

Lemma write_image e x g candidate : fj_ID e ∈ ss_ID <$> all → ss_ID x = fj_ID e → on_disk g candidate →
  on_disk (<[fj_ID e := x]> g) (<[default 0 (pos !! fj_ID e) := x]> candidate).
Proof.
  intros He Hx [Hc <-]. destruct (entry_position e He) as (i & s & Hs & Hid & ->). change (default 0 (Some i)) with i.
  assert (Hi' : (ss_ID <$> candidate) !! i = Some (fj_ID e)) by (by rewrite Hc, list_lookup_fmap, Hs, <- Hid).
  rewrite list_lookup_fmap in Hi'. destruct (candidate !! i) as [old|] eqn:Ho; [|done]. injection Hi' as Hold.
  destruct (graph_of_insert candidate i old x) as [H1 H2]; [by rewrite Hc|done|congruence|].
  split; [by rewrite H1|by rewrite H2, Hx].
Qed.

Lemma check_entry_Ok c e c' : check_entry pos repo c e = Ok c' ↔ entry_valid e ∧ c' = <[default 0 (pos !! fj_ID e) := fj_Before e]> c.
Proof.
  unfold check_entry, entry_valid. split.
  - destruct (pos !! fj_ID e) as [i|] eqn:Hp; [|done]. intros H. apply bind_Ok in H as (b & Hb & H). apply bind_Ok in H as (a & Ha & [= <-]).
    pose proof (join_snapshot_Ok _ _ _ _ Hb) as [-> _]. pose proof (join_snapshot_Ok _ _ _ _ Ha) as [-> _].
    split_and!; [by eapply position_stored|done|done|done].
  - intros ((He & Hb & Ha) & ->). destruct (entry_position e He) as (i & s & _ & _ & ->). by rewrite Hb, Ha.
Qed.

(** Checking the entries restores the states before the join. *)
Lemma check_entries_exact c' : fold_each (check_entry pos repo) entries all = Ok c' → Forall entry_valid entries ∧ on_disk base c'.
Proof.
  apply (fold_each_invariant (check_entry pos repo) (λ pre c, Forall entry_valid pre ∧ on_disk (restored pre (graph_of all)) c)); [done|].
  intros pre e c1 c2 [Hv Hd] _ [He ->]%check_entry_Ok. split; [apply Forall_app; by split; [|constructor]|]. rewrite written_snoc.
  apply write_image; [apply He| |done]. by eapply join_snapshot_Ok, He.
Qed.

Lemma check_entries_total l c : Forall entry_valid l → ∃ c', fold_each (check_entry pos repo) l c = Ok c'.
Proof.
  intros H. revert c. induction H as [|e l He Hl IH]; intros c; [by eexists|]. cbn [fold_each].
  rewrite (proj2 (check_entry_Ok c e _) (conj He eq_refl)). apply IH.
Qed.

Context (Hvalid : Forall entry_valid entries).

Lemma image_ids e : e ∈ entries → fj_ID e ∈ ss_ID <$> all ∧ ss_ID (fj_Before e) = fj_ID e ∧ ss_ID (fj_After e) = fj_ID e.
Proof.
  rewrite Forall_forall in Hvalid. intros (Hin & Hb & Ha)%Hvalid. split_and!; [done|by eapply join_snapshot_Ok..].
Qed.

Lemma write_step_Ok image g c e c' : e ∈ entries → ss_ID (image e) = fj_ID e → on_disk g c →
  write_step pos image c e = Ok c' ↔ no_cycle (<[fj_ID e := image e]> g) ∧ c' = <[default 0 (pos !! fj_ID e) := image e]> c.
Proof.
  intros He Hi Hd. apply image_ids in He as (He & _). unfold write_step. cbv zeta.
  pose proof (on_disk_acyclic _ _ (write_image e (image e) g c He Hi Hd)) as <-. destruct (snapshotGraphHasCycle _); cbn; naive_solver.
Qed.

Lemma write_step_overlay pre e post c c' : entries = pre ++ e :: post → on_disk (overlay pre base) c →
  write_step pos fj_After c e = Ok c' ↔ no_cycle (overlay (pre ++ [e]) base) ∧ c' = <[default 0 (pos !! fj_ID e) := fj_After e]> c.
Proof.
  intros He Hd. assert (Hin : e ∈ entries) by (rewrite He; set_solver). rewrite written_snoc.
  apply write_step_Ok; [done|by apply image_ids|done].
Qed.

Lemma written_on_disk pre e post c : entries = pre ++ e :: post → on_disk (overlay pre base) c →
  on_disk (overlay (pre ++ [e]) base) (<[default 0 (pos !! fj_ID e) := fj_After e]> c).
Proof.
  intros He Hd. assert (Hin : e ∈ entries) by (rewrite He; set_solver). rewrite written_snoc.
  apply write_image; [by apply image_ids|by apply image_ids|done].
Qed.

Lemma forward_writes pre post c : prefixes_acyclic → entries = pre ++ post → on_disk (overlay pre base) c →
  ∃ c', fold_each (write_step pos fj_After) post c = Ok c' ∧ on_disk (overlay entries base) c'.
Proof.
  intros Hp. revert pre c. induction post as [|e post IH]; intros pre c He Hd.
  { exists c. split; [done|]. by rewrite He, app_nil_r in Hd |- *. }
  assert (He' : entries = (pre ++ [e]) ++ post) by (by rewrite <- app_assoc). cbn [fold_each].
  rewrite (proj2 (write_step_overlay pre e post c _ He Hd) (conj (Hp _ _ He') eq_refl)). cbn [mbind result_bind].
  apply (IH (pre ++ [e])); [done|]. by apply (written_on_disk pre e post).
Qed.

Lemma forward_sound pre post c c' : entries = pre ++ post → on_disk (overlay pre base) c → no_cycle (overlay pre base) →
  fold_each (write_step pos fj_After) post c = Ok c' →
  ∀ mid post', post = mid ++ post' → no_cycle (overlay (pre ++ mid) base).
Proof.
  revert pre c. induction post as [|e post IH]; intros pre c He Hd Hn Hf [|e' mid] post' Hm; try done; try (by rewrite app_nil_r).
  injection Hm as <- Hm. cbn [fold_each] in Hf. apply bind_Ok in Hf as (c1 & [Hn1 ->]%(write_step_overlay pre e post) & Hf); [|done|done].
  replace (pre ++ e :: mid) with ((pre ++ [e]) ++ mid) by (by rewrite <- app_assoc).
  apply (IH (pre ++ [e]) _ ltac:(by rewrite <- app_assoc) (written_on_disk pre e post c He Hd) Hn1 Hf mid post' Hm).
Qed.

Lemma rollback_writes pre post c : prefixes_acyclic → entries = pre ++ post → on_disk (overlay pre base) c →
  ∃ c', fold_each (write_step pos fj_Before) (reverse pre) c = Ok c'.
Proof.
  intros Hp. revert post c. induction pre as [|e pre IH] using rev_ind; intros post c He Hd; [by eexists|].
  assert (Hin : e ∈ entries) by (rewrite He; set_solver). destruct (image_ids e Hin) as (Hall & Hid & _).
  rewrite reverse_snoc. cbn [fold_each]. assert (He' : entries = pre ++ e :: post) by (by rewrite He, <- app_assoc).
  assert (Hg : <[fj_ID e := fj_Before e]> (overlay (pre ++ [e]) base) = overlay pre base).
  { rewrite written_snoc, insert_insert_eq. apply insert_id. rewrite written_other; [by apply written_lookup|].
    rewrite He', fmap_app, NoDup_app in Hdistinct. destruct Hdistinct as (_ & Hx & _). intros Hpre. apply (Hx _ Hpre). cbn. left. }
  pose proof (write_image e (fj_Before e) _ c Hall Hid Hd) as Hd'. rewrite Hg in Hd'.
  rewrite (proj2 (write_step_Ok fj_Before _ c e _ Hin Hid Hd)) by (split; [rewrite Hg; by eapply Hp|done]). by apply (IH (e :: post)).
Qed.
End order.

(** The order is accepted exactly when the entries are valid and no prefix closes a cycle. *)
Lemma order_exact all entries repo : NoDup (ss_ID <$> all) → NoDup (fj_ID <$> entries) →
  validateJoinTransitionOrder all entries repo = Ok tt ↔ Forall (entry_valid all repo) entries ∧ prefixes_acyclic all entries.
Proof.
  intros Hids Hd. unfold validateJoinTransitionOrder. cbv zeta. split.
  - intros H. apply bind_Ok in H as (c & [Hv Hc]%check_entries_exact & H); [|done..]. split; [done|].
    apply bind_Ok in H as ([] & Hn%reject_if_Ok & H). rewrite on_disk_acyclic in Hn by done. apply bind_Ok in H as (c' & Hf & _).
    intros pre post He. by apply (forward_sound all entries repo Hids Hd Hv [] entries c c' eq_refl Hc Hn Hf pre post).
  - intros [Hv Hp]. destruct (check_entries_total all repo Hids entries all Hv) as (c & Hc). rewrite Hc. cbn [mbind result_bind].
    apply check_entries_exact in Hc as [_ Hc]; [|done..]. rewrite (proj2 (on_disk_acyclic _ _ _ Hc)) by (by apply (Hp [] entries)).
    cbn [reject_if mbind result_bind]. destruct (forward_writes all entries repo Hids Hd Hv [] entries c Hp eq_refl Hc) as (c1 & -> & Hc1). cbn [mbind result_bind].
    destruct (rollback_writes all entries repo Hids Hd Hv entries [] c1 Hp) as (c2 & ->); [by rewrite app_nil_r|done|done].
Qed.

(** ** The writes of a plan *)

(** The entry that was prepared for a patch. *)
Definition entry_of (byID : server_graph) (p : GraftPatch) (e : fsJoinSnapshot) : Prop :=
  ∃ s s', byID !! gp_SnapshotID p = Some s ∧ join_transition s p = Ok s' ∧
    e = MkFsJoinSnapshot (gp_SnapshotID p) (json_snapshot s) (json_snapshot s').

Lemma journal_entries_get get byID patches entries : (∀ id s, get id = Ok s → byID !! id = Some s) →
  fold_each (journal_entry get) patches [] = Ok entries → Forall2 (entry_of byID) patches entries.
Proof.
  intros Hget. apply (fold_each_invariant (journal_entry get) (λ pre es, Forall2 (entry_of byID) pre es)); [constructor|].
  intros pre p es es' H _ Hp. unfold journal_entry in Hp. apply bind_Ok in Hp as (s & Hs & Hp). apply bind_Ok in Hp as (s' & Ht & [= <-]).
  apply Forall2_app; [done|]. constructor; [|constructor]. exists s, s'. auto.
Qed.

Lemma journal_entries_Ok byID patches entries : journal_entries byID patches = Ok entries → Forall2 (entry_of byID) patches entries.
Proof. apply journal_entries_get. intros id s. unfold find_snapshot. by destruct (byID !! id); intros [= <-]. Qed.

Lemma entry_ids byID patches entries : Forall2 (entry_of byID) patches entries → fj_ID <$> entries = gp_SnapshotID <$> patches.
Proof. induction 1 as [|p e ps es (s & s' & _ & _ & ->) _ IH]; [done|]. cbn. by rewrite <- IH. Qed.

Lemma elems_json_slice l : elems (json_slice l) = elems l.
Proof. by destruct l as [[|? ?]|]. Qed.

Lemma json_parents s p : p ∈ server_ReachabilityParents (json_snapshot s) ↔ p ∈ server_ReachabilityParents s.
Proof. rewrite !server_parents_elem. cbn [json_snapshot ss_Parents ss_GraftParents]. by rewrite elems_json_slice. Qed.

(** The edges on disk after the entries of some patches were written. *)
Lemma overlay_link byID ps pre x y : (∀ z s, byID !! z = Some s → ss_ID s = z) → NoDup (gp_SnapshotID <$> ps) →
  Forall2 (entry_of byID) ps pre → parent_link (overlay pre byID) x y →
  (x ∉ gp_SnapshotID <$> ps ∧ parent_link byID x y) ∨
  ∃ p, p ∈ ps ∧ gp_SnapshotID p = x ∧ (y ∈ node_natural byID x ∨ (y ∈ gp_Parents p ∧ y ≠ "" ∧ y ≠ x)).
Proof.
  intros Hids Hn He Hl. pose proof (entry_ids _ _ _ He) as Hi. destruct (decide (x ∈ gp_SnapshotID <$> ps)) as [Hx|Hx].
  - right. apply list_elem_of_fmap in Hx as (p & -> & Hp). apply list_elem_of_lookup_1 in Hp as [i Hp].
    destruct (Forall2_lookup_l _ _ _ _ _ He Hp) as (e & Hei & s & s' & Hs & Ht & ->). exists p. split; [by eapply list_elem_of_lookup_2|]. split; [done|].
    unfold parent_link, node_parents in Hl. pose proof (written_lookup fj_After pre byID _ ltac:(by rewrite Hi) (list_elem_of_lookup_2 _ _ _ Hei)) as Hw.
    cbn [fj_ID fj_After] in Hw. rewrite Hw in Hl. cbn [from_option] in Hl. rewrite json_parents in Hl.
    apply join_transition_Ok in Ht as (_ & _ & _ & _ & _ & _ & Ht). apply Ht in Hl as [Hl|Hl].
    + left. apply node_natural_elem. by exists s.
    + right. by rewrite <- (Hids _ _ Hs).
  - left. split; [done|]. unfold parent_link, node_parents in *. rewrite written_other in Hl; [done|]. by rewrite Hi.
Qed.

Lemma tc_mono {A} (R R' : relation A) x y : (∀ u v, R u v → R' u v) → tc R x y → tc R' x y.
Proof. intros HR. induction 1 as [u v ?|u w v ? _ IH]; [by apply tc_once, HR|]. eapply tc_l; [by apply HR|done]. Qed.

(** One more edge closes a cycle only if its end reaches its start. *)
Lemma tc_add_edge {A} (R R' : relation A) a b x : (∀ u v, R' u v → R u v ∨ (u = a ∧ v = b)) →
  tc R' x x → (∃ z, tc R z z) ∨ rtc R b a.
Proof.
  intros HR Hx. assert (H : ∀ u v, tc R' u v → tc R u v ∨ (rtc R u a ∧ rtc R b v) ∨ rtc R b a).
  { induction 1 as [u v Huv|u w v Huw _ IH].
    - destruct (HR _ _ Huv) as [?|[-> ->]]; [left; by apply tc_once|right; left; split; constructor].
    - destruct (HR _ _ Huw) as [Hu|[-> ->]].
      + destruct IH as [?|[[? ?]|?]]; [left; by eapply tc_l|right; left; split; [by eapply rtc_l|done]|by right; right].
      + destruct IH as [?|[[? ?]|?]]; [|by right; right|by right; right]. right; left. split; [constructor|by apply tc_rtc]. }
  destruct (H x x Hx) as [?|[[H1 H2]|?]]; [left; by exists x|right; by etransitivity|by right].
Qed.

Section accepted.
Context (graph : JoinGraph) (inp : JoinRequest) (segment : list string) (Hj : joinable graph inp segment).
#[local] Notation byID := (join_byID graph).
#[local] Notation plan := (join_plan graph inp segment).
#[local] Notation source := (jr_Source inp).
#[local] Notation target := (ref_Target (join_head graph inp)).
Context (Hids : Forall (λ s, is_content_hash (ss_ID s)) (jg_Snapshots graph)) (Hno : no_cycle byID).

(** The lineage of the head continues no snapshot of the session naturally. *)
Context (Hnatural : ∀ x y, x ∉ segment → reaches byID target x → y ∈ node_natural byID x → y ∉ segment).

#[local] Notation removed := ((λ s, MkGraftPatch (ss_ID s) (ss_GraftSeq s) (without_segment segment s).2) <$> join_superseded graph inp segment).

(** The patches that only remove grafts. *)
Lemma removal_link ps pre x y : Forall2 (entry_of byID) ps pre → (∃ qs, removed = ps ++ qs) → parent_link (overlay pre byID) x y →
  parent_link byID x y.
Proof.
  intros He [qs Hps] Hl. assert (Hn : NoDup (gp_SnapshotID <$> ps)).
  { pose proof (plan_patches_distinct graph inp segment Hj) as Hn. unfold join_plan in Hn. cbn [jp_Grafts] in Hn. rewrite Hps, !fmap_app, !NoDup_app in Hn. by destruct Hn as [[? _] _]. }
  apply (overlay_link byID ps) in Hl as [[_ Hl]|(p & Hp & <- & [Hy|(Hy & _ & _)])]; [done| | |intros ??; apply byID_ids|done|done].
  - apply node_natural_elem in Hy as (s & Hs & Hy). apply node_parents_elem. exists s. auto.
  - assert (Hin : p ∈ removed) by (rewrite Hps; set_solver). apply list_elem_of_fmap in Hin as (s & -> & Hs%superseded_elem).
    cbn [gp_SnapshotID gp_Parents without_segment snd] in *. apply list_elem_of_filter in Hy as [_ Hy].
    apply node_parents_elem. exists s. split; [|by right]. apply join_lookup; [apply Hj|apply Hs].
Qed.

(** After the removals the head does not reach the session. *)
Lemma removed_unreachable pre z : Forall2 (entry_of byID) removed pre → rtc (parent_link (overlay pre byID)) target z → z ∉ segment.
Proof.
  intros He Hr. enough (z ∉ segment ∧ (z = "" ∨ reaches byID target z)) as [? _] by done.
  revert z Hr. refine (rtc_ind_r _ target _ _).
  - split; [by apply (target_outside graph inp segment Hj)|]. right. split; [apply Hj|constructor].
  - intros x y _ Hl [Hx Hr]. pose proof (removal_link removed pre x y He ltac:(exists []; by rewrite app_nil_r) Hl) as Hl'.
    destruct Hr as [->|Hr].
    { exfalso. apply node_parents_elem in Hl' as (s & Hs & _). apply index_graph_lookup in Hs as [Hs Hid].
      rewrite Forall_forall in Hids. apply (content_hash_nonempty (ss_ID s)); [by apply Hids|done]. }
    split; [|destruct (decide (y = "")); [by left|right; eapply reaches_trans; [done|by apply rtc_once]]].
    intros Hy. pose proof (plan_patches_distinct graph inp segment Hj) as Hn. unfold join_plan in Hn. cbn [jp_Grafts] in Hn.
    rewrite fmap_app, NoDup_app in Hn. destruct Hn as [Hn _].
    apply (overlay_link byID removed) in Hl as [[Hnp _]|(p & Hp & <- & [Hyn|(Hyp & _ & _)])]; [| | |intros ??; apply byID_ids|done|done].
    + apply node_parents_elem in Hl' as (s & Hs & [Hyn|Hyg]).
      * apply (Hnatural x y); [done|done| |done]. apply node_natural_elem. by exists s.
      * apply index_graph_lookup in Hs as [Hs Hid]. apply Hnp. apply list_elem_of_fmap.
        exists (MkGraftPatch (ss_ID s) (ss_GraftSeq s) (without_segment segment s).2). split; [done|].
        apply list_elem_of_fmap. exists s. split; [done|]. apply superseded_elem. subst x. split_and!; [done|done|done|by exists y].
    + by apply (Hnatural (gp_SnapshotID p) y).
    + apply list_elem_of_fmap in Hp as (s & -> & _). cbn [gp_Parents without_segment snd] in Hyp. by apply list_elem_of_filter in Hyp as [? _].
Qed.

Lemma plan_prefix entries pre post : journal_entries byID (jp_Grafts plan) = Ok entries → entries = pre ++ post →
  no_cycle (overlay pre byID).
Proof.
  intros He%journal_entries_Ok ->. apply Forall2_app_inv_r in He as (ps & qs & Hps & Hqs & Hsplit).
  unfold join_plan in Hsplit. cbn [jp_Grafts] in Hsplit. destruct qs as [|q qs _] using rev_ind.
  - rewrite app_nil_r in Hsplit. subst ps. apply Forall2_app_inv_l in Hps as (pre1 & last & Hpre & Hlast & ->).
    apply Forall2_cons_inv_l in Hlast as (e & rest & He & Hnil & ->). apply Forall2_nil_inv_l in Hnil as ->.
    intros x Hx. rewrite written_snoc in Hx. destruct He as (s & s' & Hs & Ht & ->). cbn [gp_SnapshotID fj_ID fj_After] in *.
    apply (tc_add_edge (parent_link (overlay pre1 byID)) _ source target) in Hx as [[z Hz]|Hr].
    + apply (Hno z). eapply tc_mono; [|exact Hz]. intros u v. apply (removal_link removed); [done|]. exists []. by rewrite app_nil_r.
    + apply (removed_unreachable pre1) in Hr; [|done]. apply Hr. by apply (source_in_segment graph inp segment Hj).
    + intros u v Huv. unfold parent_link, node_parents in Huv |- *. rewrite lookup_insert in Huv. case_decide as E; [|by left].
      subst u. cbn [from_option] in Huv. rewrite json_parents in Huv. apply join_transition_Ok in Ht as (_ & _ & _ & _ & _ & _ & Ht).
      rewrite written_other.
      2:{ rewrite (entry_ids _ _ _ Hpre). pose proof (plan_patches_distinct graph inp segment Hj) as Hn. unfold join_plan in Hn. cbn [jp_Grafts] in Hn.
          rewrite fmap_app, NoDup_app in Hn. destruct Hn as (_ & Hn & _). intros Hin. apply (Hn _ Hin). cbn. left. }
      apply Ht in Huv as [Huv|(Huv & _ & _)]; rewrite Hs; cbn [from_option]; rewrite server_parents_elem; [left; by left|].
      cbn [gp_Parents] in Huv. apply (source_grafts_elem graph inp segment Hj) in Huv as [->|(t & Htx & Huv)]; [by right|left; right]. congruence.
  - rewrite app_assoc in Hsplit. apply app_inj_tail in Hsplit as [Hsplit _]. intros x Hx. apply (Hno x).
    eapply tc_mono; [|exact Hx]. intros u v. apply (removal_link ps); [done|]. by exists qs.
Qed.
End accepted.

(** ** Revalidation *)

(** Published in a branch, as the store sees it. *)
Definition scope_attached (byID : server_graph) (refs : list Ref) (branch x : string) : Prop :=
  ∃ r, r ∈ refs ∧ target_scope branch r = true ∧ reaches byID (ref_Target r) x.

Lemma scope_attached_set byID refs branch x :
  x ∈ snapshotReachableSet byID (target_roots refs branch) ↔ scope_attached byID refs branch x.
Proof.
  rewrite snapshotReachableSet_spec. unfold target_roots, scope_attached. setoid_rewrite list_elem_of_fmap. setoid_rewrite list_elem_of_filter.
  split; [intros (h & (r & -> & ? & ?) & ?); by exists r|intros (r & ? & ? & ?); by eexists _; split; [exists r|]].
Qed.

Lemma expected_next_elem segment a : a ∈ segment → ∃ b, (a, b) ∈ expected_next segment ∧ (b ∈ segment ∨ b = "").
Proof.
  unfold expected_next. destruct segment as [|h l]; [set_solver|]. cbn [tail]. revert h.
  induction l as [|x l IH]; intros h; cbn [app zip_with].
  - intros ->%list_elem_of_singleton. exists "". set_solver.
  - intros [->|Ha]%elem_of_cons; [exists x; set_solver|]. destruct (IH x Ha) as (b & Hb & Hb'). exists b. set_solver.
Qed.

(** An attached snapshot that continues the segment is the one expected next. *)
Lemma topology_children m byID attached s a : (∀ x t, byID !! x = Some t → ss_ID t = x) →
  validateJoinSegmentTopology m byID attached = Ok tt → byID !! ss_ID s = Some s → ss_ID s ∈ attached →
  head (elems (ss_Parents s)) = Some a → a ∈ jm_Segment m → ss_ID s ∈ jm_Segment m ∨ ss_ID s = "".
Proof.
  intros Hids Ht Hs Hatt Hh Ha. unfold validateJoinSegmentTopology in Ht. apply bind_Ok in Ht as (o & _ & Ht).
  apply bind_Ok in Ht as ([] & _ & Ht%for_each_Ok). rewrite Forall_forall in Ht. destruct (expected_next_elem _ _ Ha) as (b & Hb & Hb').
  specialize (Ht _ Hb). unfold check_children in Ht. apply for_each_Ok in Ht. rewrite Forall_forall in Ht. cbn [fst snd] in Ht.
  enough (ss_ID s = b) as -> by done. specialize (Ht (ss_ID s)). rewrite reject_if_Ok in Ht.
  enough (Hin : ss_ID s ∈ default [] (fold_left (add_first_child (λ id, bool_decide (id ∈ attached))) (map_to_list byID).*2 ∅ !! a)).
  { specialize (Ht Hin). by bools. }
  rewrite first_children_spec. apply list_elem_of_fmap_2, list_elem_of_filter. split; [by rewrite bool_decide_true|].
  apply list_elem_of_fmap. exists (ss_ID s, s). split; [done|]. by apply elem_of_map_to_list.
Qed.

Lemma join_head_ref graph inp : ref_Target (join_head graph inp) ≠ "" →
  join_head graph inp ∈ jg_Refs graph ∧ ref_Kind (join_head graph inp) = RefBranch ∧ ref_Name (join_head graph inp) = jr_Branch inp.
Proof.
  unfold join_head, branch_head. destruct (List.find _ _) as [r|] eqn:E; [|done]. cbn [default]. intros _.
  apply find_some in E as [Hin [H1 H2]%andb_true_iff]. bools. split; [by apply list_elem_of_In|done].
Qed.

Lemma scope_natural graph inp segment fork : joinable graph inp segment →
  ValidateJoinGraphScope (plan_mutation (join_plan graph inp segment) fork) (join_byID graph) (jg_Refs graph) = Ok tt →
  Forall (λ s, length (elems (ss_Parents s)) ≤ 1) (jg_Snapshots graph) →
  ∀ x y, x ∉ segment → reaches (join_byID graph) (ref_Target (join_head graph inp)) x → y ∈ node_natural (join_byID graph) x → y ∉ segment.
Proof.
  intros Hj Hs Hlin x y Hx Hr Hy Hin. unfold ValidateJoinGraphScope in Hs. apply bind_Ok in Hs as ([] & _ & Hs).
  apply bind_Ok in Hs as ([] & _ & Hs). apply bind_Ok in Hs as ([] & _ & Hs).
  apply node_natural_elem in Hy as (s & Hxs & Hy). pose proof Hxs as [Hall Hid]%index_graph_lookup. subst x.
  rewrite Forall_forall in Hlin. specialize (Hlin s Hall). destruct (elems (ss_Parents s)) as [|p [|? ?]] eqn:Ep; cbn in Hlin; [set_solver| |lia].
  apply list_elem_of_singleton in Hy as <-. destruct (topology_children _ _ _ s y ltac:(intros ??; apply byID_ids) Hs Hxs) as [Hn|Hn]; [|by rewrite Ep|done|done|by apply reaches_nonempty in Hr].
  apply scope_attached_set. destruct (join_head_ref graph inp) as (H1 & H2 & H3); [apply Hj|]. exists (join_head graph inp).
  split_and!; [done| |done]. unfold target_scope. cbn [plan_mutation jm_Branch join_plan jp_Branch]. rewrite H2, H3, !bool_decide_true by done.
  destruct (jn_head _ _ _ Hj) as [Hne _]. by rewrite bool_decide_false.
Qed.

(** ** Valid entries *)

(** A snapshot as the store keeps it: validated, read back from JSON, with at most one natural
    parent, as captures and saves create it. *)
Record stored (s : ServerSnapshot) : Prop := {
  st_valid : validateSnapshotRefs s = Ok tt;
  st_json : json_snapshot s = s;
  st_linear : length (elems (ss_Parents s)) ≤ 1 }.

Lemma valid_hashes s : validateSnapshotRefs s = Ok tt →
  is_content_hash (ss_ID s) ∧ Forall is_content_hash (elems (ss_GraftParents s)) ∧ (ss_GraftSeq s ≤ MaxGraftSeq)%N.
Proof.
  unfold validateSnapshotRefs. intros H. inv_ok. rewrite !Forall_cons in H1. destruct H1 as (_ & Hid & _). split_and!.
  - by apply server_hash_Ok.
  - eapply Forall_impl; [exact H5|]. intros h. apply server_hash_Ok.
  - by apply N.ltb_ge.
Qed.

(** Replacing the graft register by valid hashes keeps a snapshot valid. *)
Lemma valid_graft s grafts g seq : validateSnapshotRefs s = Ok tt → Forall is_content_hash grafts → (seq ≤ MaxGraftSeq)%N →
  validateSnapshotRefs (json_snapshot (with_graft s (Some grafts) g seq)) = Ok tt.
Proof.
  intros Hv Hg Hs. unfold validateSnapshotRefs in *.
  cbn [json_snapshot with_graft ss_DocIdentity ss_RepoID ss_ID ss_DocHash ss_MemoryHash ss_ClaudeSettings ss_AgentsSettings ss_CodexSettings
       ss_Parents ss_GraftParents ss_GraftSeq].
  do 5 (apply bind_Ok in Hv as ([] & -> & Hv); cbn [mbind result_bind]). rewrite elems_json_slice. change (elems (Some grafts)) with grafts.
  rewrite (proj2 (for_each_Ok _ grafts tt)); [|eapply Forall_impl; [exact Hg|]; intros h; apply server_hash_Ok].
  cbn [mbind result_bind]. apply reject_if_Ok. by apply N.ltb_ge.
Qed.

Lemma transition_valid s p s' : validateSnapshotRefs s = Ok tt → join_transition s p = Ok s' → Forall is_content_hash (gp_Parents p) →
  validateSnapshotRefs (json_snapshot s') = Ok tt.
Proof.
  intros Hv Ht Hp. pose proof (valid_hashes s Hv) as (_ & _ & Hmax). unfold join_transition in Ht. inv_ok. bools. subst s'. apply valid_graft; [done| |lia].
  apply Forall_forall. intros h (Hh & _)%dedupHashParents_spec. rewrite Forall_forall in Hp. by apply Hp.
Qed.

Lemma plan_parents_valid graph inp segment p : joinable graph inp segment → Forall stored (jg_Snapshots graph) →
  is_content_hash (ref_Target (join_head graph inp)) → p ∈ jp_Grafts (join_plan graph inp segment) → Forall is_content_hash (gp_Parents p).
Proof.
  intros Hj Hst Ht Hp. assert (Hg : ∀ s h, s ∈ jg_Snapshots graph → h ∈ elems (ss_GraftParents s) → is_content_hash h).
  { intros s h Hs Hh. rewrite Forall_forall in Hst. destruct (Hst s Hs) as [(_ & Hv & _)%valid_hashes _ _]. rewrite Forall_forall in Hv. by apply Hv. }
  apply Forall_forall. intros h Hh. apply plan_patch in Hp as [(s & Hs & ->)| ->]; cbn [gp_Parents without_segment snd] in Hh.
  - apply superseded_elem in Hs as (Hs & _). apply list_elem_of_filter in Hh as [_ Hh]. by apply (Hg s).
  - apply (source_grafts_elem graph inp segment Hj) in Hh as [->|(s & [Hs _]%index_graph_lookup & Hh)]; [done|by apply (Hg s)].
Qed.

(** ** The contract of a mutation *)

Lemma segment_id_Ok seen a : is_content_hash a → a ∉ seen → segment_id seen a = Ok ({[a]} ∪ seen).
Proof. intros Ha Hs. unfold segment_id. by rewrite (proj2 (server_hash_Ok a) Ha), bool_decide_false. Qed.

Lemma check_patch_Ok seen p : is_content_hash (gp_SnapshotID p) → Forall is_content_hash (gp_Parents p) → gp_SnapshotID p ∉ seen →
  check_patch seen p = Ok ({[gp_SnapshotID p]} ∪ seen).
Proof.
  intros Ha Hp Hs. unfold check_patch, validateJoinHashes. rewrite (proj2 (server_hash_Ok _) Ha), (proj2 (for_each_Ok _ (gp_Parents p) tt));
    [|eapply Forall_impl; [exact Hp|]; intros h; apply server_hash_Ok]. cbn [mbind result_bind]. by rewrite bool_decide_false.
Qed.

Lemma segment_ids_Ok l seen : Forall is_content_hash l → NoDup l → (∀ x, x ∈ l → x ∉ seen) →
  ∃ out, fold_each segment_id l seen = Ok out ∧ ∀ x, x ∈ out ↔ x ∈ seen ∨ x ∈ l.
Proof.
  revert seen. induction l as [|a l IH]; intros seen Hh Hn Hs; [exists seen; set_solver|].
  apply Forall_cons in Hh as [Ha Hh]. apply NoDup_cons in Hn as [Hal Hn]. cbn [fold_each].
  rewrite (segment_id_Ok seen a) by (done || (apply Hs; left)). cbn [mbind result_bind].
  destruct (IH ({[a]} ∪ seen)) as (out & -> & Ho); [done|done|intros x Hx; specialize (Hs x); set_solver|]. exists out. split; [done|]. intros x. rewrite Ho. set_solver.
Qed.

Lemma check_patches_Ok l seen : Forall (λ p, is_content_hash (gp_SnapshotID p) ∧ Forall is_content_hash (gp_Parents p)) l →
  NoDup (gp_SnapshotID <$> l) → (∀ p, p ∈ l → gp_SnapshotID p ∉ seen) → ∃ out, fold_each check_patch l seen = Ok out.
Proof.
  revert seen. induction l as [|a l IH]; intros seen Hh Hn Hs; [by eexists|].
  apply Forall_cons in Hh as [[Ha Hp] Hh]. apply NoDup_cons in Hn as [Hal Hn]. cbn [fold_each].
  rewrite (check_patch_Ok seen a) by (done || (apply Hs; left)). cbn [mbind result_bind]. apply IH; [done|done|].
  intros q Hq [E%elem_of_singleton|Hq']%elem_of_union; [|by apply (Hs q); [right|]]. apply Hal. rewrite <- E. by apply list_elem_of_fmap_2.
Qed.

(** The name a fork needs: one in the scope of the branch, exactly when a tip is left behind. *)
Definition fork_named (p : JoinPlan) (forkName : string) : Prop :=
  (forkName = "" ↔ jp_RemainingTip p = "") ∧
  (forkName ≠ "" → ValidateBranchName forkName = Ok tt ∧ HasPrefix forkName (SessionRefPrefix (jp_Branch p)) = true).

Section contract.
Context (graph : JoinGraph) (inp : JoinRequest) (segment : list string) (Hj : joinable graph inp segment).
Context (Hst : Forall stored (jg_Snapshots graph)) (Ht : is_content_hash (ref_Target (join_head graph inp))).
#[local] Notation plan := (join_plan graph inp segment).
#[local] Notation source := (jr_Source inp).

Lemma segment_hashes : Forall is_content_hash segment.
Proof.
  apply Forall_forall. intros x Hx. destruct (jn_ids _ _ _ Hj) as [Hn _].
  pose proof (chain_ids graph inp segment (jn_commit _ _ _ Hj) Hn (jn_first _ _ _ Hj) (jn_chain _ _ _ Hj) x Hx) as (s & -> & Hs)%list_elem_of_fmap.
  rewrite Forall_forall in Hst. by apply valid_hashes, Hst.
Qed.

Lemma plan_new_head : jp_NewHead plan ∈ segment.
Proof.
  destruct (segment_tip graph inp segment Hj) as (tip & Hl & Hin). unfold join_plan. cbn [jp_NewHead]. rewrite Hl. change (default "" (Some tip)) with tip.
  destruct (jr_IncludeDescendants inp); [done|by apply (source_in_segment graph inp segment Hj)].
Qed.

Lemma plan_tip_in : jp_RemainingTip plan ≠ "" → jp_RemainingTip plan ∈ segment.
Proof.
  destruct (segment_tip graph inp segment Hj) as (tip & Hl & Hin). unfold join_plan. cbn [jp_RemainingTip]. rewrite Hl. change (default "" (Some tip)) with tip.
  by destruct (negb _ && _).
Qed.

Lemma plan_source_patches forkName : source_patches (plan_mutation plan forkName) =
  [MkGraftPatch source (graft_seq (join_byID graph) source) (join_source_grafts graph inp)].
Proof.
  unfold source_patches. cbn [plan_mutation jm_Source jm_Grafts join_plan jp_Source jp_Grafts]. rewrite filter_app.
  assert (Hnil : filter (λ p, gp_SnapshotID p = source)
    ((λ s, MkGraftPatch (ss_ID s) (ss_GraftSeq s) (without_segment segment s).2) <$> join_superseded graph inp segment) = []).
  { destruct (filter _ (_ <$> _)) as [|q l] eqn:E; [done|]. exfalso. assert (Hq : q ∈ q :: l) by left. rewrite <- E in Hq.
    apply list_elem_of_filter in Hq as [Hid (s & -> & Hs)%list_elem_of_fmap]. apply superseded_elem in Hs as (_ & Hs & _).
    apply Hs. cbn in Hid. rewrite Hid. by apply (source_in_segment graph inp segment Hj). }
  rewrite Hnil. cbn. by rewrite decide_True.
Qed.

(** Whether the branch moves to the source or to the tip, the checks of the plan ask for the
    name exactly when a tip is left. *)
Lemma mutation_plan_Ok forkName : (forkName = "" ↔ jp_RemainingTip plan = "") →
  (forkName ≠ "" → HasPrefix forkName (SessionRefPrefix (jr_Branch inp)) = true) →
  validateJoinMutationPlan (plan_mutation plan forkName) = Ok tt.
Proof.
  intros Hf Hp. unfold validateJoinMutationPlan. rewrite plan_source_patches.
  pose proof (jn_first _ _ _ Hj) as Hh. pose proof (jn_distinct _ _ _ Hj) as Hd. destruct (jn_branch _ _ _ Hj) as [_ Hb].
  destruct (segment_tip graph inp segment Hj) as (tip & Hl & Hin).
  assert (Hpre : (forkName <>? "") && negb (HasPrefix forkName (SessionRefPrefix (jr_Branch inp))) = false).
  { destruct (bool_decide (forkName = "")) eqn:E; [done|]. bools. cbn. apply negb_false_iff. by apply Hp. }
  unfold starts_elsewhere, join_plan in *. cbn [plan_mutation jm_Branch jm_Segment jm_Source jm_NewHead jm_ForkName jm_ForkTip jm_ExpectedHead
    jp_Branch jp_Segment jp_Source jp_NewHead jp_RemainingTip jp_ExpectedHead] in *. rewrite Hl in *. change (default "" (Some tip)) with tip in *.
  rewrite (bool_decide_false (jr_Branch inp = HeadRefName)) by done. rewrite (bool_decide_false (head segment ≠ Some source)) by (rewrite Hh; auto).
  rewrite Hpre. cbn [reject_if mbind result_bind for_each gp_Parents].
  rewrite (bool_decide_true (ref_Target (join_head graph inp) ∈ join_source_grafts graph inp)) by (apply (source_grafts_elem graph inp segment Hj); by left).
  cbn [negb reject_if mbind result_bind]. rewrite (bool_decide_false ([_] = [])) by done.
  assert (Hone : (length segment =? 1) = bool_decide (tip = source)).
  { destruct segment as [|a [|b l]]; [done|injection Hh as ->; injection Hl as ->; by rewrite !bool_decide_true|].
    injection Hh as ->. rewrite (bool_decide_false (length _ = 1)) by done. symmetry. apply bool_decide_false. intros ->.
    apply NoDup_cons in Hd as [Hd _]. apply Hd. by apply last_Some_elem_of. }
  rewrite Hone. pose proof (segment_nonempty graph inp segment Hj tip Hin) as Hn. destruct (decide (tip = source)) as [->|Hne].
  - rewrite (bool_decide_true (source = source)) in * by done. cbn [negb] in *. rewrite andb_false_r in *. destruct Hf as [_ Hf]. rewrite Hf by done.
    destruct (jr_IncludeDescendants inp); rewrite (bool_decide_true (source = source)) by done; done.
  - rewrite (bool_decide_false (tip = source)) in * by done. cbn [negb] in *. rewrite andb_true_r in *. destruct (jr_IncludeDescendants inp); cbn [negb] in *.
    + destruct Hf as [_ Hf]. rewrite Hf by done. by rewrite (bool_decide_true (tip = tip)).
    + rewrite (bool_decide_false (source = tip)) by done. rewrite (bool_decide_true (source = source)), (bool_decide_true (tip = tip)) by done.
      rewrite (bool_decide_false (forkName = "")); [done|]. intros E. by apply Hn, Hf.
Qed.

Lemma plan_mutation_Ok forkName : fork_named plan forkName → ValidateJoinMutation (plan_mutation plan forkName) = Ok tt.
Proof.
  intros [Hf Hname]. unfold ValidateJoinMutation. pose proof plan_new_head as Hnew. pose proof plan_tip_in as Htip. pose proof segment_hashes as Hseg.
  rewrite Forall_forall in Hseg. rewrite (mutation_plan_Ok forkName) by (done || (intros; by apply Hname)).
  unfold validateJoinHashes. rewrite (proj2 (for_each_Ok _ _ tt)).
  2:{ repeat (apply Forall_cons; split); [..|constructor]; apply server_hash_Ok; [apply Hj|apply Hj|done|by apply Hseg]. }
  cbn [mbind result_bind]. destruct (segment_ids_Ok segment ∅) as (seen & Hseen & Hin); [by apply Forall_forall|apply Hj|set_solver|].
  unfold starts_elsewhere. change (jm_Segment (plan_mutation plan forkName)) with segment. change (jm_Source (plan_mutation plan forkName)) with source.
  change (jm_NewHead (plan_mutation plan forkName)) with (jp_NewHead plan). change (jm_Branch (plan_mutation plan forkName)) with (jr_Branch inp).
  change (jm_ForkName (plan_mutation plan forkName)) with forkName. change (jm_ForkTip (plan_mutation plan forkName)) with (jp_RemainingTip plan).
  rewrite (bool_decide_false (head segment ≠ Some source)) by (rewrite (jn_first _ _ _ Hj); auto). rewrite Hseen. cbn [reject_if mbind result_bind].
  rewrite (bool_decide_true (jp_NewHead plan ∈ seen)) by (apply Hin; by right). unfold server_ValidateBranchName.
  destruct (jn_branch _ _ _ Hj) as [-> _]. cbn [or_else negb reject_if mbind result_bind].
  rewrite (proj2 (Bool.eqb_true_iff (forkName =? "") (jp_RemainingTip plan =? ""))) by (apply bool_decide_ext; exact Hf). cbn [negb reject_if mbind result_bind].
  assert (Hgrafts : jp_Grafts plan ≠ []) by (unfold join_plan; cbn [jp_Grafts]; by destruct (_ <$> _)).
  change (jm_Grafts (plan_mutation plan forkName)) with (jp_Grafts plan). rewrite (bool_decide_false (jp_Grafts plan = [])) by done.
  destruct (check_patches_Ok (jp_Grafts plan) ∅) as [out ->]; [|by apply plan_patches_distinct|set_solver|].
  { apply Forall_forall. intros p Hp. split; [|by apply (plan_parents_valid graph inp segment)].
    apply plan_patch in Hp as [(s & Hs & ->)| ->]; cbn; [|apply Hj]. apply superseded_elem in Hs as [Hs _]. rewrite Forall_forall in Hst. by apply valid_hashes, Hst. }
  destruct (bool_decide (forkName = "")) eqn:E; cbn [negb]; [done|]. bools. destruct (Hname E) as [-> _]. assert (Hrem : jp_RemainingTip plan ≠ "") by (by intros ?%Hf).
  cbn [or_else mbind result_bind]. rewrite (proj2 (server_hash_Ok _)) by (by apply Hseg, Htip). rewrite (bool_decide_true (jp_RemainingTip plan ∈ seen)); [done|].
  apply Hin. right. by apply Htip.
Qed.
End contract.

Lemma mutation_fork_named p forkName : ValidateJoinMutation (plan_mutation p forkName) = Ok tt → fork_named p forkName.
Proof.
  unfold ValidateJoinMutation. cbn [plan_mutation jm_ForkName jm_ForkTip jm_Branch]. intros H.
  do 2 (apply bind_Ok in H as ([] & _ & H)). apply bind_Ok in H as (seen & _ & H). do 2 (apply bind_Ok in H as ([] & _ & H)).
  apply bind_Ok in H as ([] & He%reject_if_Ok%negb_false_iff%Bool.eqb_prop & H). apply bind_Ok in H as ([] & Hf & H).
  apply bind_Ok in H as ([] & _ & H). apply bind_Ok in H as (out & _ & H). unfold validateJoinMutationPlan in H.
  do 3 (apply bind_Ok in H as ([] & _ & H)). apply bind_Ok in H as ([] & Hp%reject_if_Ok & _). cbn [plan_mutation jm_ForkName jm_Branch] in Hp.
  split; [clear - He; repeat case_bool_decide; naive_solver|]. intros Hn. rewrite bool_decide_false in Hf, Hp by done. cbn [negb andb] in Hf, Hp.
  apply bind_Ok in Hf as ([] & Hb%or_else_Ok & _). split; [done|]. by apply negb_false_iff.
Qed.

(** ** Claims *)

(** C17: A join loses nothing.  In the graph with the planned graft registers written, the new
    head reaches the old head, and whatever a snapshot reached before it still reaches, or the
    new head or the remembered tip of the session does: no ref loses an ancestor. *)
Theorem join_keeps_reachable graph inp p byID' : PlanJoin graph inp = Ok p → apply_patches (join_byID graph) (jp_Grafts p) = Ok byID' →
  reaches byID' (jp_NewHead p) (jp_ExpectedHead p) ∧
  ∀ r x, reaches (join_byID graph) r x →
    reaches byID' r x ∨ reaches byID' (jp_NewHead p) x ∨ reaches byID' (jp_RemainingTip p) x.
Proof.
  intros (segment & Hj & ->)%planned_joinable Ha. split; [by apply applied_new_head|]. intros r x. by apply applied_reaches.
Qed.

(** C19: The planned order of the writes is safe.  When the store finds the scope of a plan
    unchanged, and its snapshots are valid, have at most one natural parent and no cycle, then
    every prefix of the writes, and of their rollback in reverse, leaves a graph without a cycle,
    every entry of the journal is valid, and [validateJoinTransitionOrder] accepts them. *)
Theorem join_order_accepted graph inp p fork entries : PlanJoin graph inp = Ok p →
  ValidateJoinGraphScope (plan_mutation p fork) (join_byID graph) (jg_Refs graph) = Ok tt →
  Forall stored (jg_Snapshots graph) → is_content_hash (jp_ExpectedHead p) → no_cycle (join_byID graph) →
  journal_entries (join_byID graph) (jp_Grafts p) = Ok entries →
  validateJoinTransitionOrder (jg_Snapshots graph) entries (jr_RepoID inp) = Ok tt.
Proof.
  intros (segment & Hj & ->)%planned_joinable Hscope Hst Ht Hno Hes. pose proof (journal_entries_Ok _ _ _ Hes) as He.
  pose proof (entry_ids _ _ _ He) as Hids. pose proof Hst as Hst'. rewrite Forall_forall in Hst'. destruct (jn_ids _ _ _ Hj) as [Hn Hrepo].
  assert (Hentry : ∀ e, e ∈ entries → ∃ s s' p, s ∈ jg_Snapshots graph ∧ p ∈ jp_Grafts (join_plan graph inp segment) ∧ ss_ID s = gp_SnapshotID p ∧
    join_transition s p = Ok s' ∧ e = MkFsJoinSnapshot (gp_SnapshotID p) s (json_snapshot s')).
  { intros e (i & Hi)%list_elem_of_lookup_1. destruct (Forall2_lookup_r _ _ _ _ _ He Hi) as (p & Hp & s & s' & [Hs Hid]%index_graph_lookup & Htr & ->).
    exists s, s', p. rewrite (st_json _ (Hst' s Hs)). split_and!; [done|by eapply list_elem_of_lookup_2|done..]. }
  rewrite Forall_forall in Hrepo. assert (Hd : NoDup (fj_ID <$> entries)) by (rewrite Hids; by apply plan_patches_distinct).
  apply order_exact; [done|done|]. split.
  - apply Forall_forall. intros e (s & s' & p & Hs & Hp & Hid & Htr & ->)%Hentry. unfold entry_valid. cbn [fj_Before fj_After fj_ID].
    split; [rewrite <- Hid; by apply list_elem_of_fmap_2|]. pose proof (join_transition_Ok _ _ _ Htr) as (Hid' & Hr' & _).
    unfold validateJoinSnapshot. cbn [json_snapshot ss_ID ss_RepoID]. rewrite Hid', Hr', Hid, (Hrepo s Hs), !bool_decide_true by done.
    rewrite (st_valid _ (Hst' s Hs)). cbn [negb orb reject_if mbind result_bind]. split; [done|].
    rewrite (transition_valid s p s'); [done|by apply Hst'|done|]. by apply (plan_parents_valid graph inp segment).
  - unfold prefixes_acyclic. rewrite (written_id fj_Before).
    2:{ intros e (s & s' & p & Hs & Hp & Hid & Htr & ->)%Hentry. by apply graph_of_lookup. }
    intros pre post Hpre. apply (plan_prefix graph inp segment Hj) with entries post; [|done| |done|done].
    + eapply Forall_impl; [exact Hst|]. intros s Hs. by apply valid_hashes, Hs.
    + apply (scope_natural graph inp segment fork); [done|done|]. eapply Forall_impl; [exact Hst|]. intros s Hs. apply Hs.
Qed.

(** C23: A plan keeps the contract of the store.  Let the snapshots of the graph be as the store
    holds them (valid references, as JSON decodes them, at most one natural parent each) and the
    head of the branch be a content hash.  Then the mutation of a plan is accepted exactly for a
    valid fork name in the scope of its branch when the join leaves a tip behind, and for no
    fork name otherwise. *)
Theorem plan_mutation_exact graph inp p forkName m : PlanJoin graph inp = Ok p → Forall stored (jg_Snapshots graph) →
  is_content_hash (jp_ExpectedHead p) →
  JoinPlan_Mutation p forkName = Ok m ↔ fork_named p forkName ∧ m = plan_mutation p forkName.
Proof.
  intros (segment & Hj & ->)%planned_joinable Hst Ht. unfold JoinPlan_Mutation. rewrite bind_Ok. split.
  - intros ([] & Hv & [= <-]). split; [|done]. by apply mutation_fork_named.
  - intros [Hf ->]. exists tt. split; [by apply plan_mutation_Ok|done].
Qed.

(** ** A join applied *)

Module StoreSamples.
Import JoinSamples.

Lemma snapshots_stored : Forall stored (jg_Snapshots graph).
Proof. repeat (apply Forall_cons; split); [..|constructor]; split; vm_compute; (reflexivity || lia). Qed.

Lemma head_hash : is_content_hash (jp_ExpectedHead plan).
Proof. apply ValidateContentHash_Ok. vm_compute. reflexivity. Qed.

Lemma graph_acyclic : no_cycle (join_byID graph).
Proof. apply (has_cycle_spec snapshots). vm_compute. reflexivity. Qed.

Definition applied : server_graph := result_or ∅ (apply_patches (join_byID graph) (jp_Grafts plan)).
Definition entries : list fsJoinSnapshot := result_or [] (journal_entries (join_byID graph) (jp_Grafts plan)).
Definition forkName : string := SessionRefPrefix "main" +:+ "y".
End StoreSamples.

Lemma join_keeps_reachable_witness :
  apply_patches (join_byID JoinSamples.graph) (jp_Grafts JoinSamples.plan) = Ok StoreSamples.applied ∧
  reaches StoreSamples.applied (jp_NewHead JoinSamples.plan) (jp_ExpectedHead JoinSamples.plan).
Proof.
  assert (E : apply_patches (join_byID JoinSamples.graph) (jp_Grafts JoinSamples.plan) = Ok StoreSamples.applied)
    by (apply result_or_Ok; vm_compute; reflexivity).
  split; [exact E|]. exact (proj1 (join_keeps_reachable _ _ _ _ JoinSamples.join_planned E)).
Defined.

Lemma join_order_accepted_witness :
  validateJoinTransitionOrder (jg_Snapshots JoinSamples.graph) StoreSamples.entries (jr_RepoID JoinSamples.request) = Ok tt.
Proof.
  apply (join_order_accepted JoinSamples.graph JoinSamples.request JoinSamples.plan StoreSamples.forkName).
  - exact JoinSamples.join_planned.
  - vm_compute. reflexivity.
  - exact StoreSamples.snapshots_stored.
  - exact StoreSamples.head_hash.
  - exact StoreSamples.graph_acyclic.
  - apply result_or_Ok. vm_compute. reflexivity.
Defined.

Lemma plan_mutation_exact_witness :
  JoinPlan_Mutation JoinSamples.plan StoreSamples.forkName = Ok (plan_mutation JoinSamples.plan StoreSamples.forkName) ∧
  JoinPlan_Mutation JoinSamples.plan "" ≠ Ok (plan_mutation JoinSamples.plan "").
Proof.
  assert (Hname : fork_named JoinSamples.plan StoreSamples.forkName).
  { split; [split; intros E; vm_compute in E; discriminate E|]. intros _. split; vm_compute; reflexivity. }
  split.
  - exact (proj2 (plan_mutation_exact _ _ _ _ _ JoinSamples.join_planned StoreSamples.snapshots_stored StoreSamples.head_hash) (conj Hname eq_refl)).
  - intros H. apply (plan_mutation_exact _ _ _ _ _ JoinSamples.join_planned StoreSamples.snapshots_stored StoreSamples.head_hash) in H as [[H _] _].
    assert (Hrem : jp_RemainingTip JoinSamples.plan = "") by (by apply H). vm_compute in Hrem. discriminate Hrem.
Defined.
