(* ===== verification/JoinJournal.v ===== *)
(** * Crash recovery of a join

    Models how the file store applies a join so that a crash leaves either all or nothing of it
    ([backend/internal/adapters/store/fs_store.go]): the prepared and committed journal, the
    writes of snapshots and refs, rollback and completion, the checks a restart makes before it
    touches anything, and recovery.  A disk is what the files of one repository decode to, under
    context protocol 1, with no other transaction pending; a program issues durable writes, each
    of which succeeds, fails without or after having its effect, or is where the process dies.
    The theorems: whatever fails and however often recovery is interrupted, a join happens
    entirely or not at all, and a restart accepts exactly the journals that empty no register. *)
From S2P Require Import Prelude GoStrings Sha256 Values History Graph Catalog ServerGraph SessionJoin JoinStore.
From Stdlib Require Import Ascii.

(** ** Data *)

Record RefLogEntry := MkRefLogEntry {
  rl_Kind : string;
  rl_Name : string;
  rl_Old : string;
  rl_New : string;
  rl_CreatedAt : time;
}.

Definition fsJoinJournalVersion : Z := 1.
Definition fsJoinPrepared : string := "prepared".
Definition fsJoinCommitted : string := "committed".

Record fsJoinJournal := MkFsJoinJournal {
  jj_BranchID : string;
  jj_Version : Z;
  jj_Phase : string;
  jj_RepoID : string;
  jj_Branch : string;
  jj_ExpectedHead : string;
  jj_NewHead : string;
  jj_ForkName : string;
  jj_ForkTip : string;
  jj_ForkExisted : bool;
  jj_CreatedAt : time;
  jj_Snapshots : list fsJoinSnapshot;
}.

Definition in_phase (phase : string) (j : fsJoinJournal) : fsJoinJournal :=
  MkFsJoinJournal (jj_BranchID j) (jj_Version j) phase (jj_RepoID j) (jj_Branch j) (jj_ExpectedHead j) (jj_NewHead j)
    (jj_ForkName j) (jj_ForkTip j) (jj_ForkExisted j) (jj_CreatedAt j) (jj_Snapshots j).

(** The objects and refs of a repository, by name.  A branch ref is its identity and its target,
    a session ref its target; the other kinds of refs do not enter a join. *)
Record disk := MkDisk {
  dk_snapshots : server_graph;
  dk_sessions : gmap string string;
  dk_branches : gmap string (string * string);
  dk_reflog : list RefLogEntry;
  dk_journal : option fsJoinJournal;
}.

(** ** Reads *)

(** [ValidateRef] for a branch or a session. *)
Definition server_ValidateRef (ref : Ref) : result unit :=
  reject_if ((128 <? String.length (ref_BranchID ref))%nat ||
             has_char (λ c, (code c =? 13)%N || (code c =? 10)%N) (ref_BranchID ref)) ErrUnclassified ;;
  server_ValidateContentHash (ref_RepoID ref) ;;
  server_ValidateBranchName (ref_Name ref) ;;
  reject_if (ref_Target ref =? "") ErrIntegrity ;;
  server_ValidateContentHash (ref_Target ref).

Definition GetSnapshot (d : disk) (repo id : string) : result ServerSnapshot :=
  for_each server_ValidateContentHash [repo; id] ;;
  match dk_snapshots d !! id with
  | None => Err ErrNotFound
  | Some s =>
      validateSnapshotRefs s ;;
      reject_if ((ss_RepoID s <>? repo) || (ss_ID s <>? id)) ErrIntegrity ;;
      Ok s
  end.

(** The latest first. *)
Definition created_later (a b : ServerSnapshot) : bool := (t_instant (ss_CreatedAt b) <? t_instant (ss_CreatedAt a))%Z.

Definition ListSnapshots (d : disk) (repo : string) : result (list ServerSnapshot) :=
  server_ValidateContentHash repo ;;
  out ← fold_each (λ out id, s ← GetSnapshot d repo id; Ok (out ++ [s])) (map_to_list (dk_snapshots d)).*1 [];
  Ok (sort_slice created_later out).

(** Ids that are empty or were looked up before are skipped. *)
Definition requireSnapshots (d : disk) (repo : string) (ids : list string) : result unit :=
  fold_each (λ seen id,
    if (id =? "") || bool_decide (id ∈ seen) then Ok seen else
    GetSnapshot d repo id ;; Ok ({[id]} ∪ seen)) ids (∅ : gset string) ;;
  Ok tt.

Definition read_ref (d : disk) (repo kind name : string) : option Ref :=
  if kind =? RefBranch then (λ b, MkRef b.1 kind name repo b.2 "") <$> dk_branches d !! name
  else (λ target, MkRef "" kind name repo target "") <$> dk_sessions d !! name.

Definition GetRef (d : disk) (repo kind name : string) : result Ref :=
  server_ValidateContentHash repo ;;
  server_ValidateBranchName name ;;
  match read_ref d repo kind name with
  | None => Err ErrNotFound
  | Some ref => server_ValidateRef ref ;; Ok ref
  end.

Definition ListRefs (d : disk) (repo : string) : result (list Ref) :=
  server_ValidateContentHash repo ;;
  fold_each (λ out e, ref ← GetRef d repo e.1 e.2; Ok (out ++ [ref]))
    ((pair RefBranch <$> (map_to_list (dk_branches d)).*1) ++ (pair RefSession <$> (map_to_list (dk_sessions d)).*1)) [].

(** ** Durable writes *)

Inductive write : Type :=
  | PutSnapshot (id : string) (s : ServerSnapshot)
  | PutSession (name target : string)
  | RemoveSession (name : string)
  | PutBranch (name branchID target : string)
  | AppendReflog (e : RefLogEntry)
  | PutJournal (j : fsJoinJournal)
  | RemoveJournal.

Definition commit (d : disk) (w : write) : disk :=
  let '(MkDisk snapshots sessions branches reflog journal) := d in
  match w with
  | PutSnapshot id s => MkDisk (<[id := s]> snapshots) sessions branches reflog journal
  | PutSession name target => MkDisk snapshots (<[name := target]> sessions) branches reflog journal
  | RemoveSession name => MkDisk snapshots (delete name sessions) branches reflog journal
  | PutBranch name branchID target => MkDisk snapshots sessions (<[name := (branchID, target)]> branches) reflog journal
  | AppendReflog e => MkDisk snapshots sessions branches (reflog ++ [e]) journal
  | PutJournal j => MkDisk snapshots sessions branches reflog (Some j)
  | RemoveJournal => MkDisk snapshots sessions branches reflog None
  end.

Inductive fate : Type := Succeeds | FailsBefore | FailsAfter | Dies.

Inductive outcome (A : Type) : Type :=
  | Returned (r : result A) (d : disk) (fates : list fate)
  | Crashed (d : disk).
Arguments Returned {A} r d fates.
Arguments Crashed {A} d.

(** A program on a disk whose writes meet the given fates; after the last one every write succeeds. *)
Definition io (A : Type) : Type := disk → list fate → outcome A.

#[export] Instance io_ret : MRet io := λ A a d fs, Returned (Ok a) d fs.

(** A program whose error, if any, is handled by the next one. *)
Definition attempt {A B} (m : io A) (k : result A → io B) : io B := λ d fs,
  match m d fs with Returned r d fs => k r d fs | Crashed d => Crashed d end.

Definition fail {A} (e : error) : io A := λ d fs, Returned (Err e) d fs.

#[export] Instance io_bind : MBind io := λ A B k m,
  attempt m (λ r, match r with Ok a => k a | Err e => fail e end).

Definition get_disk : io disk := λ d fs, Returned (Ok d) d fs.

Definition perform (w : write) : io unit := λ d fs,
  match fs with
  | [] => Returned (Ok tt) (commit d w) []
  | Succeeds :: fs => Returned (Ok tt) (commit d w) fs
  | FailsBefore :: fs => Returned (Err ErrUnclassified) d fs
  | FailsAfter :: fs => Returned (Err ErrUnclassified) (commit d w) fs
  | Dies :: _ => Crashed d
  end.

Fixpoint perform_all (ws : list write) : io unit :=
  match ws with [] => mret tt | w :: ws => perform w ;; perform_all ws end.

(** ** Applying and rolling back *)

Definition forward_images (j : fsJoinJournal) : list write :=
  ((λ e, PutSnapshot (fj_ID e) (fj_After e)) <$> jj_Snapshots j) ++
  (if jj_ForkName j <>? "" then [PutSession (jj_ForkName j) (jj_ForkTip j)] else []) ++
  [PutBranch (jj_Branch j) (jj_BranchID j) (jj_NewHead j)].

Definition rollback_images (j : fsJoinJournal) : list write :=
  ((λ e, PutSnapshot (fj_ID e) (fj_Before e)) <$> reverse (jj_Snapshots j)) ++
  (if jj_ForkName j <>? "" then
     [if jj_ForkExisted j then PutSession (jj_ForkName j) (jj_ForkTip j) else RemoveSession (jj_ForkName j)] else []) ++
  [PutBranch (jj_Branch j) (jj_BranchID j) (jj_ExpectedHead j)].

Definition applyJoinProjection (j : fsJoinJournal) (forward : bool) : io unit :=
  perform_all (if forward then forward_images j else rollback_images j).

Definition failPreparedJoin (j : fsJoinJournal) (cause : error) : io unit :=
  applyJoinProjection (in_phase fsJoinPrepared j) false ;;
  perform RemoveJournal ;;
  fail cause.

Definition same_entry (a b : RefLogEntry) : bool :=
  (rl_Kind a =? rl_Kind b) && (rl_Name a =? rl_Name b) && (rl_Old a =? rl_Old b) && (rl_New a =? rl_New b) &&
  bool_decide (t_instant (rl_CreatedAt a) = t_instant (rl_CreatedAt b)).

Definition ensureJoinReflog (e : RefLogEntry) : io unit :=
  d ← get_disk;
  if existsb (λ x, same_entry x e) (dk_reflog d) then mret tt else perform (AppendReflog e).

Definition session_entry (j : fsJoinJournal) : RefLogEntry :=
  MkRefLogEntry RefSession (jj_ForkName j) "" (jj_ForkTip j) (jj_CreatedAt j).
Definition branch_entry (j : fsJoinJournal) : RefLogEntry :=
  MkRefLogEntry RefBranch (jj_Branch j) (jj_ExpectedHead j) (jj_NewHead j) (jj_CreatedAt j).

Definition completeCommittedJoin (j : fsJoinJournal) : io unit :=
  (if (jj_ForkName j <>? "") && negb (jj_ForkExisted j) then ensureJoinReflog (session_entry j) else mret tt) ;;
  ensureJoinReflog (branch_entry j) ;;
  perform RemoveJournal.

Definition finishCommittedJoin (j : fsJoinJournal) : io unit :=
  applyJoinProjection j true ;; completeCommittedJoin j.

(** ** The checks before the first write *)

Definition required (m : JoinMutation) : list string :=
  [jm_Source m; jm_ExpectedHead m; jm_NewHead m; jm_ForkTip m] ++ jm_Segment m ++
  concat ((λ p, gp_SnapshotID p :: gp_Parents p) <$> jm_Grafts m).

Definition ensureJoinGraphScope (d : disk) (m : JoinMutation) : result unit :=
  if bool_decide (jm_Grafts m = []) then Ok tt else
  snaps ← ListSnapshots d (jm_RepoID m);
  refs ← ListRefs d (jm_RepoID m);
  ValidateJoinGraphScope m (graph_of snaps) refs.

(** Whether the session ref that keeps the remaining tip is there already. *)
Definition fork_existed (d : disk) (m : JoinMutation) : result bool :=
  if jm_ForkName m =? "" then Ok false else
  match GetRef d (jm_RepoID m) RefSession (jm_ForkName m) with
  | Ok existing => reject_if (ref_Target existing <>? jm_ForkTip m) ErrRefConflict ;; Ok true
  | Err ErrNotFound => Ok false
  | Err e => Err e
  end.

(** [ApplyJoin] up to its first write, at time [now]; [validateContextWrite] is the check of the
    branch identity against the history of the repository. *)
Definition prepare_join (validateContextWrite : disk → Ref → result unit) (now : time) (m : JoinMutation) (d : disk) : result fsJoinJournal :=
  ValidateJoinMutation m ;;
  let repo := jm_RepoID m in
  match dk_journal d with Some _ => Err ErrConflict | None => Ok tt end ;;
  cur ← or_else (GetRef d repo RefBranch (jm_Branch m)) ErrRefConflict;
  reject_if (ref_Target cur <>? jm_ExpectedHead m) ErrRefConflict ;;
  validateContextWrite d (MkRef (jm_BranchID m) RefBranch (jm_Branch m) repo (jm_NewHead m) "") ;;
  requireSnapshots d repo (required m) ;;
  ensureJoinGraphScope d m ;;
  entries ← fold_each (journal_entry (GetSnapshot d repo)) (jm_Grafts m) [];
  all ← ListSnapshots d repo;
  validateJoinTransitionOrder all entries repo ;;
  existed ← fork_existed d m;
  Ok (MkFsJoinJournal (ref_BranchID cur) fsJoinJournalVersion fsJoinPrepared repo (jm_Branch m) (jm_ExpectedHead m) (jm_NewHead m)
        (jm_ForkName m) (jm_ForkTip m) existed now entries).

(** [ApplyJoin] once its checks passed: prepare, write, commit, complete. *)
Definition run_join (j : fsJoinJournal) : io unit :=
  perform (PutJournal (in_phase fsJoinPrepared j)) ;;
  attempt (applyJoinProjection (in_phase fsJoinPrepared j) true) (λ r,
    match r with
    | Err e => failPreparedJoin (in_phase fsJoinPrepared j) e
    | Ok _ =>
        attempt (perform (PutJournal (in_phase fsJoinCommitted j))) (λ r,
          match r with
          | Err e => failPreparedJoin (in_phase fsJoinCommitted j) e
          | Ok _ => completeCommittedJoin (in_phase fsJoinCommitted j)
          end)
    end).

Definition ApplyJoin (validateContextWrite : disk → Ref → result unit) (now : time) (m : JoinMutation) : io unit :=
  d ← get_disk;
  match prepare_join validateContextWrite now m d with
  | Err e => fail e
  | Ok j => run_join j
  end.

(** ** What a restart checks *)

Definition hexOf (h : string) : string := TrimPrefix h "sha256:".

(** One entry of a journal; [seen] holds the ids before it.  [reflect.DeepEqual] tells a nil
    register from an empty one. *)
Definition validate_entry (repo : string) (seen : gset string) (e : fsJoinSnapshot) : result (gset string) :=
  reject_if (negb (is_ok (ValidateContentHash (fj_ID e))) || bool_decide (fj_ID e ∈ seen)) ErrIntegrity ;;
  before ← validateJoinSnapshot (fj_Before e) (fj_ID e) repo;
  match validateJoinSnapshot (fj_After e) (fj_ID e) repo with
  | Err _ => Err ErrIntegrity
  | Ok after =>
      reject_if (bool_decide (ss_GraftSeq before = MaxGraftSeq) || negb (bool_decide (ss_GraftSeq after = ss_GraftSeq before + 1)%N)) ErrIntegrity ;;
      let expected := with_graft before (ss_GraftParents after) (ss_Grafted after) (ss_GraftSeq after) in
      reject_if ((expected <>? after) ||
        (ss_GraftParents after <>? Some (dedupHashParents (ss_ID after) (elems (ss_Parents after)) (elems (ss_GraftParents after))))) ErrIntegrity ;;
      Ok ({[fj_ID e]} ∪ seen)
  end.

Definition validateFSJoinJournal (j : fsJoinJournal) (repoDirName : string) : result unit :=
  reject_if (negb (bool_decide (jj_Version j = fsJoinJournalVersion)) ||
             ((jj_Phase j <>? fsJoinPrepared) && (jj_Phase j <>? fsJoinCommitted))) ErrIntegrity ;;
  reject_if (negb (is_ok (for_each server_ValidateContentHash [jj_RepoID j; jj_ExpectedHead j; jj_NewHead j])) ||
             (hexOf (jj_RepoID j) <>? repoDirName) || negb (is_ok (server_ValidateBranchName (jj_Branch j))) ||
             time_IsZero (jj_CreatedAt j)) ErrIntegrity ;;
  reject_if (negb (is_ok (server_ValidateRef (MkRef (jj_BranchID j) RefBranch (jj_Branch j) (jj_RepoID j) (jj_NewHead j) "")))) ErrIntegrity ;;
  reject_if (negb (Bool.eqb (jj_ForkName j =? "") (jj_ForkTip j =? "")) || (jj_ForkExisted j && (jj_ForkName j =? ""))) ErrIntegrity ;;
  reject_if ((jj_ForkName j <>? "") &&
             (negb (is_ok (server_ValidateBranchName (jj_ForkName j))) || negb (is_ok (ValidateContentHash (jj_ForkTip j))))) ErrIntegrity ;;
  reject_if (bool_decide (jj_Snapshots j = [])) ErrIntegrity ;;
  fold_each (validate_entry (jj_RepoID j)) (jj_Snapshots j) ∅ ;; Ok tt.

Definition validateJoinJournalGraphs (d : disk) (j : fsJoinJournal) : result unit :=
  all ← ListSnapshots d (jj_RepoID j);
  let byID : gset string := list_to_set (ss_ID <$> all) in
  for_each (λ id, reject_if ((id <>? "") && negb (bool_decide (id ∈ byID))) ErrIntegrity) [jj_ExpectedHead j; jj_NewHead j; jj_ForkTip j] ;;
  for_each (λ e, reject_if (negb (bool_decide (fj_ID e ∈ byID))) ErrIntegrity ;;
    for_each (λ p, reject_if (negb (bool_decide (p ∈ byID))) ErrIntegrity)
      (match validateJoinSnapshot (fj_After e) (fj_ID e) (jj_RepoID j) with Ok after => elems (ss_GraftParents after) | Err _ => [] end))
    (jj_Snapshots j) ;;
  or_else (validateJoinTransitionOrder all (jj_Snapshots j) (jj_RepoID j)) ErrIntegrity.

(** The states of an entry are those that were validated before. *)
Definition validateJoinJournalProjection (d : disk) (j : fsJoinJournal) : result unit :=
  let repo := jj_RepoID j in
  branch ← or_else (GetRef d repo RefBranch (jj_Branch j)) ErrIntegrity;
  reject_if ((ref_BranchID branch <>? jj_BranchID j) ||
             ((ref_Target branch <>? jj_ExpectedHead j) && (ref_Target branch <>? jj_NewHead j))) ErrIntegrity ;;
  for_each (λ e,
    current ← or_else (GetSnapshot d repo (fj_ID e)) ErrIntegrity;
    reject_if ((current <>? fj_Before e) && (current <>? fj_After e)) ErrIntegrity) (jj_Snapshots j) ;;
  if jj_ForkName j =? "" then Ok tt else
  match GetRef d repo RefSession (jj_ForkName j) with
  | Ok fork => reject_if (ref_Target fork <>? jj_ForkTip j) ErrIntegrity
  | Err e => reject_if (negb ((e =? ErrNotFound) && negb (jj_ForkExisted j))) ErrIntegrity
  end.

Definition validate_journal (repoDirName : string) (d : disk) (j : fsJoinJournal) : result unit :=
  validateFSJoinJournal j repoDirName ;; validateJoinJournalGraphs d j ;; validateJoinJournalProjection d j.

(** ** Recovery *)

(** [recoverJoinJournals] in the directory of one repository. *)
Definition recoverJoinJournals (repoDirName : string) : io unit :=
  d ← get_disk;
  match dk_journal d with
  | None => mret tt
  | Some j =>
      match validate_journal repoDirName d j with
      | Err e => fail e
      | Ok _ =>
          if jj_Phase j =? fsJoinPrepared then applyJoinProjection j false ;; perform RemoveJournal
          else finishCommittedJoin j
      end
  end.

Definition disk_after {A} (o : outcome A) : disk := match o with Returned _ d _ => d | Crashed d => d end.

(** Restarts, each with the fates its recovery meets. *)
Definition restarts (repoDirName : string) (d : disk) (lives : list (list fate)) : disk :=
  fold_left (λ d fs, disk_after (recoverJoinJournals repoDirName d fs)) lives d.

(** ** Lemmas: programs that may crash

    [spec P m Q C]: from a disk in [P], whatever the writes meet, [m] returns with [Q] or the
    process dies on a disk in [C]. *)

Definition spec {A} (P : disk → Prop) (m : io A) (Q : result A → disk → Prop) (C : disk → Prop) : Prop :=
  ∀ d fs, P d → match m d fs with Returned r d' _ => Q r d' | Crashed d' => C d' end.

Lemma spec_ret {A} (a : A) (P : disk → Prop) (Q : result A → disk → Prop) C : (∀ d, P d → Q (Ok a) d) → spec P (mret a) Q C.
Proof. intros H d fs Hd. by apply H. Qed.

Lemma spec_fail {A} e (P : disk → Prop) (Q : result A → disk → Prop) C : (∀ d, P d → Q (Err e) d) → spec P (fail e) Q C.
Proof. intros H d fs Hd. by apply H. Qed.

Lemma spec_get {A} (k : disk → io A) P Q C : (∀ d, P d → spec (eq d) (k d) Q C) → spec P (d ← get_disk; k d) Q C.
Proof. intros H d fs Hd. by apply (H d Hd d fs). Qed.

Lemma spec_attempt {A B} (m : io A) (k : result A → io B) P R Q C :
  spec P m R C → (∀ r, spec (R r) (k r) Q C) → spec P (attempt m k) Q C.
Proof.
  intros Hm Hk d fs Hd. unfold attempt. specialize (Hm d fs Hd). destruct (m d fs) as [r d' fs'|d']; [|done]. by apply (Hk r d' fs').
Qed.

Lemma spec_bind {A B} (m : io A) (k : A → io B) P R Q C :
  spec P m R C → (∀ a, spec (R (Ok a)) (k a) Q C) → (∀ e d, R (Err e) d → Q (Err e) d) → spec P (m ≫= k) Q C.
Proof.
  intros Hm Hk He. apply (spec_attempt _ _ _ R); [done|]. intros [a|e]; [apply Hk|]. apply spec_fail. intros d. apply He.
Qed.

Lemma spec_weaken {A} (m : io A) P P' (Q Q' : result A → disk → Prop) (C C' : disk → Prop) : spec P m Q C →
  (∀ d, P' d → P d) → (∀ r d, Q r d → Q' r d) → (∀ d, C d → C' d) → spec P' m Q' C'.
Proof. intros Hm HP HQ HC d fs Hd. specialize (Hm d fs (HP d Hd)). destruct (m d fs); auto. Qed.

Lemma spec_perform w (P : disk → Prop) (Q : result unit → disk → Prop) (C : disk → Prop) :
  (∀ d, P d → Q (Ok tt) (commit d w) ∧ (∀ e, Q (Err e) d ∧ Q (Err e) (commit d w)) ∧ C d) → spec P (perform w) Q C.
Proof. intros H d fs Hd. destruct (H d Hd) as (H1 & H2 & H3). destruct fs as [|[] fs]; cbn [perform]; [done|done|apply H2|apply H2|done]. Qed.

Definition commit_all (ws : list write) (d : disk) : disk := fold_left commit ws d.

(** Writes that keep an invariant: all of them were made when there was no error. *)
Lemma spec_perform_all (I : disk → Prop) ws d0 : (∀ d w, I d → w ∈ ws → I (commit d w)) → I d0 →
  spec (eq d0) (perform_all ws) (λ r d, I d ∧ (r = Ok tt → d = commit_all ws d0)) I.
Proof.
  revert d0. induction ws as [|w ws IH]; intros d0 Hw HI; cbn [perform_all].
  { apply spec_ret. by intros d <-. }
  apply (spec_bind _ _ _ (λ r d, I d ∧ (r = Ok tt → d = commit d0 w))).
  - apply spec_perform. intros d <-. assert (I (commit d0 w)) by (apply Hw; [done|left]). by split_and!.
  - intros []. intros d fs [Hd Heq]. rewrite (Heq eq_refl) in *. change (commit_all (w :: ws) d0) with (commit_all ws (commit d0 w)).
    apply (IH (commit d0 w)); [|done|done]. intros d' w' Hd' Hin. apply Hw; [done|by right].
  - by intros e d [Hd _].
Qed.

(** What happens when every write succeeds. *)
Lemma perform_all_calm ws d : perform_all ws d [] = Returned (Ok tt) (commit_all ws d) [].
Proof. revert d. induction ws as [|w ws IH]; intros d; [done|]. apply (IH (commit d w)). Qed.

Lemma perform_calm w d : perform w d [] = Returned (Ok tt) (commit d w) [].
Proof. done. Qed.

Lemma bind_calm {A B} (m : io A) (k : A → io B) d a d' : m d [] = Returned (Ok a) d' [] → (m ≫= k) d [] = k a d' [].
Proof. intros H. unfold mbind, io_bind, attempt. by rewrite H. Qed.

(** ** Lemmas: the images of a join *)

Definition log_add (log : list RefLogEntry) (e : RefLogEntry) : list RefLogEntry :=
  if existsb (λ x, same_entry x e) log then log else log ++ [e].

Definition join_log (j : fsJoinJournal) : list RefLogEntry :=
  (if (jj_ForkName j <>? "") && negb (jj_ForkExisted j) then [session_entry j] else []) ++ [branch_entry j].

(** The disk after a join: all its writes, and each log entry once. *)
Definition after_join (j : fsJoinJournal) (d : disk) : disk :=
  let d' := commit_all (forward_images j) d in
  MkDisk (dk_snapshots d') (dk_sessions d') (dk_branches d') (fold_left log_add (join_log j) (dk_reflog d)) None.

Lemma same_entry_refl e : same_entry e e = true.
Proof. unfold same_entry. by rewrite !bool_decide_true. Qed.

Lemma log_add_id log e : existsb (λ x, same_entry x e) log = true → log_add log e = log.
Proof. unfold log_add. by intros ->. Qed.

Lemma logged_id log es e : e ∈ es → log_add (fold_left log_add es log) e = fold_left log_add es log.
Proof.
  intros He. apply log_add_id. induction es as [|x es IH] using rev_ind; [set_solver|]. rewrite fold_left_app. cbn [fold_left].
  apply elem_of_app in He as [He| ->%list_elem_of_singleton].
  - specialize (IH He). unfold log_add at 1. case_match; [done|]. by rewrite existsb_app, IH.
  - unfold log_add at 1. case_match; [done|]. rewrite existsb_app. cbn. rewrite same_entry_refl. apply orb_true_r.
Qed.

Definition with_rest (d rest : disk) : disk :=
  MkDisk (dk_snapshots d) (dk_sessions d) (dk_branches d) (dk_reflog rest) (dk_journal rest).

Lemma commit_snapshots image l d : commit_all ((λ e, PutSnapshot (fj_ID e) (image e)) <$> l) d =
  with_rest (MkDisk (written image l (dk_snapshots d)) (dk_sessions d) (dk_branches d) [] None) d.
Proof. revert d. induction l as [|e l IH]; intros d; [by destruct d|]. cbn. unfold commit_all in IH. rewrite IH. by destruct d. Qed.

Lemma commit_all_app ws1 ws2 d : commit_all (ws1 ++ ws2) d = commit_all ws2 (commit_all ws1 d).
Proof. apply fold_left_app. Qed.

Lemma image_cases j w forward : w ∈ (if forward : bool then forward_images j else rollback_images j) →
  (∃ e, e ∈ jj_Snapshots j ∧ w = PutSnapshot (fj_ID e) (if forward then fj_After e else fj_Before e)) ∨
  (jj_ForkName j ≠ "" ∧ (w = PutSession (jj_ForkName j) (jj_ForkTip j) ∧ (forward = true ∨ jj_ForkExisted j = true) ∨
     w = RemoveSession (jj_ForkName j) ∧ jj_ForkExisted j = false)) ∨
  w = PutBranch (jj_Branch j) (jj_BranchID j) (if forward then jj_NewHead j else jj_ExpectedHead j).
Proof.
  assert (Hs : ∀ image (l : list fsJoinSnapshot), w ∈ ((λ e, PutSnapshot (fj_ID e) (image e)) <$> l) → ∃ e, e ∈ l ∧ w = PutSnapshot (fj_ID e) (image e)).
  { intros image l (e & -> & He)%list_elem_of_fmap. eauto. }
  destruct forward; unfold forward_images, rollback_images; rewrite !elem_of_app, list_elem_of_singleton; intros [H%Hs|[H| ->]]; auto.
  - right. left. destruct (bool_decide (jj_ForkName j = "")) eqn:E; [by apply elem_of_nil in H|]. bools. apply list_elem_of_singleton in H as ->. naive_solver.
  - left. destruct H as (e & He & ->). exists e. by rewrite elem_of_reverse in He.
  - right. left. destruct (bool_decide (jj_ForkName j = "")) eqn:E; [by apply elem_of_nil in H|]. bools. apply list_elem_of_singleton in H as ->.
    destruct (jj_ForkExisted j); naive_solver.
Qed.

Section images.
Context (j : fsJoinJournal) (d0 : disk).
#[local] Notation entries := (jj_Snapshots j).
Context (Hdistinct : NoDup (fj_ID <$> entries)).
Context (Hbefore : ∀ e, e ∈ entries → dk_snapshots d0 !! fj_ID e = Some (fj_Before e))
        (Hbranch : dk_branches d0 !! jj_Branch j = Some (jj_BranchID j, jj_ExpectedHead j))
        (Hfork : jj_ForkName j ≠ "" → dk_sessions d0 !! jj_ForkName j = if jj_ForkExisted j then Some (jj_ForkTip j) else None).

(** Every object and ref is as it was or as the join writes it. *)
Record mixed (d : disk) : Prop := {
  mx_snapshots : ∀ x, dk_snapshots d !! x = dk_snapshots d0 !! x ∨
    ∃ e, e ∈ entries ∧ x = fj_ID e ∧ dk_snapshots d !! x = Some (fj_After e);
  mx_sessions : ∀ n, dk_sessions d !! n = dk_sessions d0 !! n ∨
    (jj_ForkName j ≠ "" ∧ n = jj_ForkName j ∧ dk_sessions d !! n = Some (jj_ForkTip j));
  mx_branches : ∀ n, dk_branches d !! n = dk_branches d0 !! n ∨
    (n = jj_Branch j ∧ dk_branches d !! n = Some (jj_BranchID j, jj_NewHead j)) }.

Lemma mixed_start : mixed d0.
Proof. split; by left. Qed.

Lemma mixed_rest d rest : mixed d → mixed (with_rest d rest).
Proof. intros [H1 H2 H3]. by split. Qed.

(** An image that is written keeps this. *)
Lemma mixed_commit d w forward : mixed d → w ∈ (if forward : bool then forward_images j else rollback_images j) → mixed (commit d w).
Proof.
  intros [H1 H2 H3] Hw. apply image_cases in Hw as [(e & He & ->)|[(Hn & [(-> & Hf)|(-> & Hf)])| ->]]; destruct d as [snaps sess brs log jn];
    (split; cbn [commit dk_snapshots dk_sessions dk_branches] in *; [try exact H1|try exact H2|try exact H3]).
  - intros x. rewrite lookup_insert. case_decide as E; [subst x|apply H1]. destruct forward; [right; by exists e|left; by rewrite Hbefore].
  - intros n. rewrite lookup_insert. case_decide as E; [subst n; auto|apply H2].
  - intros n. rewrite lookup_delete. case_decide as E; [subst n; left; by rewrite Hfork, Hf|apply H2].
  - intros n. rewrite lookup_insert. case_decide as E; [subst n|apply H3]. destruct forward; [by right|left; by rewrite Hbranch].
Qed.

Lemma written_back d : mixed d → written fj_Before (reverse entries) (dk_snapshots d) = dk_snapshots d0.
Proof.
  intros [H1 _ _]. transitivity (written fj_Before (reverse entries) (dk_snapshots d0)).
  - apply written_agree; [by rewrite fmap_reverse, reverse_Permutation|]. intros x Hx. rewrite fmap_reverse, elem_of_reverse in Hx.
    destruct (H1 x) as [?|(e & He & -> & _)]; [done|]. destruct Hx. by apply list_elem_of_fmap_2.
  - apply written_id. intros e He. rewrite elem_of_reverse in He. by apply Hbefore.
Qed.

Lemma written_forth d : mixed d → written fj_After entries (dk_snapshots d) = written fj_After entries (dk_snapshots d0).
Proof.
  intros [H1 _ _]. apply written_agree; [done|]. intros x Hx. destruct (H1 x) as [?|(e & He & -> & _)]; [done|].
  destruct Hx. by apply list_elem_of_fmap_2.
Qed.

Lemma sessions_agree d n : mixed d → n ≠ jj_ForkName j ∨ jj_ForkName j = "" → dk_sessions d !! n = dk_sessions d0 !! n.
Proof. intros [_ H2 _] Hn. destruct (H2 n) as [?|(? & ? & _)]; [done|]. naive_solver. Qed.

Lemma branches_agree d n : mixed d → n ≠ jj_Branch j → dk_branches d !! n = dk_branches d0 !! n.
Proof. intros [_ _ H3] Hn. destruct (H3 n) as [?|(? & _)]; [done|]. done. Qed.

(** Writing all images from any such disk gives the state before or after the join. *)
Lemma rollback_complete d : mixed d → commit_all (rollback_images j) d = with_rest d0 d.
Proof.
  intros Hd. unfold rollback_images. rewrite !commit_all_app, commit_snapshots, (written_back d Hd).
  destruct d as [snaps sess brs log jn]. unfold with_rest. cbn [dk_snapshots dk_sessions dk_branches dk_reflog dk_journal] in *.
  assert (Hb : <[jj_Branch j := (jj_BranchID j, jj_ExpectedHead j)]> brs = dk_branches d0).
  { apply map_eq. intros n. rewrite lookup_insert. case_decide as E; [by subst n|]. apply (branches_agree _ _ Hd). done. }
  assert (Hs : jj_ForkName j = "" → sess = dk_sessions d0) by (intros Hn; apply map_eq; intros n; apply (sessions_agree _ _ Hd); by right).
  destruct (bool_decide (jj_ForkName j = "")) eqn:E; bools; cbn [negb].
  - cbn. by rewrite Hb, Hs.
  - pose proof (Hfork E) as Hf. assert (Hn : ∀ n, n ≠ jj_ForkName j → sess !! n = dk_sessions d0 !! n) by (intros n ?; apply (sessions_agree _ _ Hd); by left).
    destruct (jj_ForkExisted j); cbn; rewrite Hb; f_equal; apply map_eq; intros n; [rewrite lookup_insert|rewrite lookup_delete]; case_decide; subst; auto.
Qed.

Lemma forward_complete d : mixed d → commit_all (forward_images j) d = with_rest (after_join j d0) d.
Proof.
  intros Hd. unfold after_join, forward_images. rewrite !commit_all_app, !commit_snapshots, (written_forth d Hd).
  destruct d as [snaps sess brs log jn]. unfold with_rest.
  cbn [dk_snapshots dk_sessions dk_branches dk_reflog dk_journal] in *.
  assert (Hb : ∀ v, <[jj_Branch j := v]> brs = <[jj_Branch j := v]> (dk_branches d0)).
  { intros v. apply map_eq. intros n. rewrite !lookup_insert. case_decide as E; [done|]. apply (branches_agree _ _ Hd). done. }
  destruct (bool_decide (jj_ForkName j = "")) eqn:E; bools; cbn; rewrite Hb; f_equal; apply map_eq; intros n.
  - apply (sessions_agree _ _ Hd). by right.
  - rewrite !lookup_insert. case_decide; [done|]. apply (sessions_agree _ _ Hd). by left.
Qed.
End images.

(** ** Lemmas: reading a repository *)

Lemma join_snapshot_exact s id repo : validateJoinSnapshot s id repo = Ok s ↔
  ss_ID s = id ∧ ss_RepoID s = repo ∧ validateSnapshotRefs s = Ok tt.
Proof.
  unfold validateJoinSnapshot. split.
  - intros H. inv_ok. bools. done.
  - intros (-> & -> & ->). by rewrite !bool_decide_true.
Qed.

Lemma GetSnapshot_Ok d repo id s : GetSnapshot d repo id = Ok s ↔
  is_content_hash repo ∧ is_content_hash id ∧ dk_snapshots d !! id = Some s ∧ validateJoinSnapshot s id repo = Ok s.
Proof.
  unfold GetSnapshot. rewrite join_snapshot_exact. split.
  - intros H. apply bind_Ok in H as ([] & Hh%for_each_Ok & H). rewrite !Forall_cons in Hh. destruct Hh as (Hr%server_hash_Ok & Hi%server_hash_Ok & _).
    destruct (dk_snapshots d !! id) as [s'|]; [|done]. inv_ok. bools. by subst.
  - intros (Hr & Hi & -> & <- & <- & ->). rewrite (proj2 (for_each_Ok _ _ tt)).
    + cbn. by rewrite !bool_decide_true.
    + repeat (apply Forall_cons; split); [by apply server_hash_Ok..|constructor].
Qed.

(** Every object is a valid snapshot of the repository, under its id. *)
Definition sound_store (d : disk) (repo : string) : Prop :=
  is_content_hash repo ∧ ∀ id s, dk_snapshots d !! id = Some s → GetSnapshot d repo id = Ok s.

Lemma listed_values d repo l out : (∀ p, p ∈ l → dk_snapshots d !! p.1 = Some p.2) →
  Forall2 (λ id s, GetSnapshot d repo id = Ok s) l.*1 out → out = l.*2.
Proof.
  revert out. induction l as [|p l IH]; intros out Hl H; cbn in H; [by apply Forall2_nil_inv_l in H|].
  apply Forall2_cons_inv_l in H as (s & out' & Hs & H & ->). cbn. f_equal; [|apply IH; [|done]; intros; apply Hl; by right].
  apply GetSnapshot_Ok in Hs as (_ & _ & Hs & _). specialize (Hl p ltac:(left)). congruence.
Qed.

Lemma ListSnapshots_Ok d repo all : ListSnapshots d repo = Ok all →
  sound_store d repo ∧ all ≡ₚ (map_to_list (dk_snapshots d)).*2.
Proof.
  unfold ListSnapshots. intros H. apply bind_Ok in H as ([] & Hr%server_hash_Ok & H). apply bind_Ok in H as (out & Ho & [= <-]).
  rewrite sort_slice_Permutation.
  apply (fold_each_invariant (λ out id, s ← GetSnapshot d repo id; Ok (out ++ [s])) (λ pre out, Forall2 (λ id s, GetSnapshot d repo id = Ok s) pre out)) in Ho.
  - split.
    + split; [done|]. intros id s Hs. assert (Hin : id ∈ (map_to_list (dk_snapshots d)).*1).
      { apply list_elem_of_fmap. exists (id, s). split; [done|]. by apply elem_of_map_to_list. }
      apply list_elem_of_lookup_1 in Hin as [i Hi]. destruct (Forall2_lookup_l _ _ _ _ _ Ho Hi) as (s' & _ & Hg). rewrite Hg.
      apply GetSnapshot_Ok in Hg as (_ & _ & Hs' & _). congruence.
    + apply listed_values in Ho as ->; [done|]. intros [id s] Hp. by apply elem_of_map_to_list.
  - constructor.
  - intros pre id out1 out2 H1 _ (s & Hs & [= <-])%bind_Ok. apply Forall2_app; [done|]. by repeat constructor.
Qed.

Lemma ListSnapshots_total d repo : sound_store d repo → ∃ all, ListSnapshots d repo = Ok all.
Proof.
  intros [Hr Hs]. unfold ListSnapshots. rewrite (proj2 (server_hash_Ok repo) Hr). cbn [mbind result_bind].
  assert (H : ∀ l out, (∀ p, p ∈ l → dk_snapshots d !! p.1 = Some p.2) →
    ∃ out', fold_each (λ out id, s ← GetSnapshot d repo id; Ok (out ++ [s])) l.*1 out = Ok out').
  { intros l. induction l as [|p l IH]; intros out Hl; [by eexists|]. rewrite fmap_cons. cbn [fold_each].
    rewrite (Hs p.1 p.2) by (apply Hl; left). apply IH.
    intros; apply Hl; by right. }
  destruct (H (map_to_list (dk_snapshots d)) []) as (out & ->); [|by eexists]. intros [id s] Hp. by apply elem_of_map_to_list.
Qed.

(** What a listing says of the store. *)
Lemma listed d repo all : ListSnapshots d repo = Ok all →
  NoDup (ss_ID <$> all) ∧ (∀ x, x ∈ ss_ID <$> all ↔ is_Some (dk_snapshots d !! x)) ∧ graph_of all = dk_snapshots d.
Proof.
  intros [[_ Hs] Hp]%ListSnapshots_Ok. assert (Hk : ∀ id s, dk_snapshots d !! id = Some s → ss_ID s = id).
  { intros id s (_ & _ & _ & Hv)%Hs%GetSnapshot_Ok. by apply join_snapshot_exact in Hv as [? _]. }
  assert (Hids : ss_ID <$> (map_to_list (dk_snapshots d)).*2 = (map_to_list (dk_snapshots d)).*1).
  { rewrite <- list_fmap_compose. apply list_fmap_ext. intros i [id s] Hi%list_elem_of_lookup_2%elem_of_map_to_list. by apply Hk. }
  assert (Hn : NoDup (ss_ID <$> all)) by (rewrite Hp, Hids; apply NoDup_fst_map_to_list).
  assert (Hin : ∀ s, s ∈ all ↔ dk_snapshots d !! ss_ID s = Some s).
  { intros s. rewrite Hp, list_elem_of_fmap. split.
    - intros ([id s'] & -> & Hi%elem_of_map_to_list). cbn. by rewrite (Hk _ _ Hi).
    - intros Hi. exists (ss_ID s, s). split; [done|]. by apply elem_of_map_to_list. }
  split_and!; [done| |].
  - intros x. rewrite list_elem_of_fmap. split; [intros (s & -> & Hi%Hin); by eexists|]. intros [s Hi]. exists s.
    rewrite Hin, (Hk x s Hi). done.
  - apply map_eq. intros id. apply option_eq. intros s. rewrite graph_of_lookup, Hin by done. split; [by intros [? <-]|].
    intros Hi. by rewrite (Hk id s Hi).
Qed.

Lemma server_ref_Ok branchID kind name repo target : server_ValidateRef (MkRef branchID kind name repo target "") = Ok tt ↔
  (128 <? String.length branchID)%nat = false ∧ has_char (λ c, (code c =? 13)%N || (code c =? 10)%N) branchID = false ∧
  is_content_hash repo ∧ server_ValidateBranchName name = Ok tt ∧ is_content_hash target.
Proof.
  unfold server_ValidateRef. cbn [ref_BranchID ref_RepoID ref_Name ref_Target]. split.
  - intros H. apply bind_Ok in H as ([] & Hb%reject_if_Ok%orb_false_iff & H). apply bind_Ok in H as ([] & Hr%server_hash_Ok & H).
    apply bind_Ok in H as ([] & Hn & H). apply bind_Ok in H as ([] & _ & H%server_hash_Ok). naive_solver.
  - intros (-> & -> & Hr%server_hash_Ok & Hn & Ht). rewrite Hr, Hn. pose proof (content_hash_nonempty _ Ht) as Hne.
    rewrite (bool_decide_false (target = "")) by done. apply server_hash_Ok in Ht. by rewrite Ht.
Qed.

Lemma GetRef_Ok d repo kind name ref : GetRef d repo kind name = Ok ref ↔
  is_content_hash repo ∧ server_ValidateBranchName name = Ok tt ∧ read_ref d repo kind name = Some ref ∧ server_ValidateRef ref = Ok tt.
Proof.
  unfold GetRef. split.
  - intros H. apply bind_Ok in H as ([] & Hr%server_hash_Ok & H). apply bind_Ok in H as ([] & Hn & H).
    destruct (read_ref d repo kind name) as [r|]; [|done]. by apply bind_Ok in H as ([] & Hv & [= <-]).
  - intros (Hr%server_hash_Ok & Hn & -> & Hv). by rewrite Hr, Hn, Hv.
Qed.

(** ** Lemmas: the checks of a restart *)

(** An entry changes nothing but the graft register, by one step of its sequence. *)
Record entry_sound (repo : string) (e : fsJoinSnapshot) : Prop := {
  eo_hash : is_content_hash (fj_ID e);
  eo_before : validateJoinSnapshot (fj_Before e) (fj_ID e) repo = Ok (fj_Before e);
  eo_after : validateJoinSnapshot (fj_After e) (fj_ID e) repo = Ok (fj_After e);
  eo_seq : ss_GraftSeq (fj_Before e) ≠ MaxGraftSeq ∧ ss_GraftSeq (fj_After e) = (ss_GraftSeq (fj_Before e) + 1)%N;
  eo_only : with_graft (fj_Before e) (ss_GraftParents (fj_After e)) (ss_Grafted (fj_After e)) (ss_GraftSeq (fj_After e)) = fj_After e }.

(** A restart also asks for a deduplicated register that is not nil. *)
Record entry_ok (repo : string) (e : fsJoinSnapshot) : Prop := {
  eo_sound : entry_sound repo e;
  eo_register : ss_GraftParents (fj_After e) =
    Some (dedupHashParents (ss_ID (fj_After e)) (elems (ss_Parents (fj_After e))) (elems (ss_GraftParents (fj_After e)))) }.

Lemma valid_hash_Ok h : is_ok (ValidateContentHash h) = true ↔ is_content_hash h.
Proof. by rewrite is_ok_unit, ValidateContentHash_Ok. Qed.

Lemma validate_entry_Ok repo seen e seen' : validate_entry repo seen e = Ok seen' ↔
  entry_ok repo e ∧ fj_ID e ∉ seen ∧ seen' = {[fj_ID e]} ∪ seen.
Proof.
  unfold validate_entry. split.
  - intros H. apply bind_Ok in H as ([] & [Hi Hs]%reject_if_Ok%orb_false_iff & H). bools. apply valid_hash_Ok in Hi.
    apply bind_Ok in H as (b & Hb & H). pose proof (join_snapshot_Ok _ _ _ _ Hb) as [-> _].
    destruct (validateJoinSnapshot (fj_After e) _ _) as [a|] eqn:Ha; [|done]. pose proof (join_snapshot_Ok _ _ _ _ Ha) as [-> _].
    apply bind_Ok in H as ([] & Hq%reject_if_Ok & H). apply bind_Ok in H as ([] & Hx%reject_if_Ok & [= <-]). bools. by repeat split.
  - intros ([[Hi Hb Ha [Hm Hq] Ho] Hr] & Hs & ->). rewrite (proj2 (valid_hash_Ok _) Hi), (bool_decide_false (_ ∈ seen)) by done.
    cbn [negb orb reject_if mbind result_bind]. rewrite Hb. cbn [mbind result_bind]. rewrite Ha.
    rewrite (bool_decide_false (ss_GraftSeq (fj_Before e) = _)), (bool_decide_true (ss_GraftSeq (fj_After e) = _)) by done.
    cbn [negb orb reject_if mbind result_bind]. by rewrite (bool_decide_true (with_graft _ _ _ _ = _)), (bool_decide_true (ss_GraftParents _ = _)).
Qed.

Lemma validate_entries_Ok repo l seen : is_ok (fold_each (validate_entry repo) l seen) = true ↔
  Forall (entry_ok repo) l ∧ NoDup (fj_ID <$> l) ∧ ∀ e, e ∈ l → fj_ID e ∉ seen.
Proof.
  revert seen. induction l as [|e l IH]; intros seen.
  { split; [|done]. intros _. split_and!; [constructor|constructor|]. intros e He. by apply elem_of_nil in He. }
  cbn [fold_each]. rewrite fmap_cons, Forall_cons, NoDup_cons. split.
  - intros (out & H)%is_ok_true. apply bind_Ok in H as (s & (He & Hn & ->)%validate_entry_Ok & H).
    destruct (proj1 (IH _) (proj2 (is_ok_true _) (ex_intro _ out H))) as (Hl & Hd & Hs). split_and!; [done|done| |done|].
    + intros (x & Hx & Hin)%list_elem_of_fmap. specialize (Hs x Hin). set_solver.
    + intros x [->|Hx]%elem_of_cons; [done|]. specialize (Hs x Hx). set_solver.
  - intros ([He Hl] & [Hn Hd] & Hs). rewrite (proj2 (validate_entry_Ok repo seen e _)) by (split; [done|split; [apply Hs; left|reflexivity]]).
    apply IH. split_and!; [done|done|]. intros x Hx [E%elem_of_singleton|Hx']%elem_of_union.
    + apply Hn. rewrite <- E. by apply list_elem_of_fmap_2.
    + by apply (Hs x ltac:(by right)).
Qed.

(** What [validateFSJoinJournal] asks of a journal in the directory [dir]. *)
Record journal_valid (dir : string) (j : fsJoinJournal) : Prop := {
  jv_version : jj_Version j = fsJoinJournalVersion;
  jv_phase : jj_Phase j = fsJoinPrepared ∨ jj_Phase j = fsJoinCommitted;
  jv_hashes : is_content_hash (jj_RepoID j) ∧ is_content_hash (jj_ExpectedHead j) ∧ is_content_hash (jj_NewHead j);
  jv_dir : hexOf (jj_RepoID j) = dir;
  jv_branch : server_ValidateBranchName (jj_Branch j) = Ok tt;
  jv_created : time_IsZero (jj_CreatedAt j) = false;
  jv_ref : server_ValidateRef (MkRef (jj_BranchID j) RefBranch (jj_Branch j) (jj_RepoID j) (jj_NewHead j) "") = Ok tt;
  jv_fork : (jj_ForkName j = "" ↔ jj_ForkTip j = "") ∧ (jj_ForkExisted j = true → jj_ForkName j ≠ "");
  jv_fork_valid : jj_ForkName j ≠ "" → server_ValidateBranchName (jj_ForkName j) = Ok tt ∧ is_content_hash (jj_ForkTip j);
  jv_some : jj_Snapshots j ≠ [];
  jv_entries : Forall (entry_ok (jj_RepoID j)) (jj_Snapshots j);
  jv_distinct : NoDup (fj_ID <$> jj_Snapshots j) }.

Lemma reject_then b e (m : result unit) : (reject_if b e ;; m) = Ok tt ↔ b = false ∧ m = Ok tt.
Proof. destruct b; cbn; naive_solver. Qed.

Lemma discard_Ok {A} (m : result A) : (m ;; Ok tt) = Ok tt ↔ is_ok m = true.
Proof. destruct m; cbn; naive_solver. Qed.

Lemma journal_hashes_Ok a b c : is_ok (for_each server_ValidateContentHash [a; b; c]) = true ↔
  is_content_hash a ∧ is_content_hash b ∧ is_content_hash c.
Proof. rewrite is_ok_unit, for_each_Ok, !Forall_cons, Forall_nil, !server_hash_Ok. naive_solver. Qed.

Lemma journal_Ok dir j : validateFSJoinJournal j dir = Ok tt ↔ journal_valid dir j.
Proof.
  unfold validateFSJoinJournal. rewrite !reject_then, discard_Ok, validate_entries_Ok, !orb_false_iff, !negb_false_iff, journal_hashes_Ok, !is_ok_unit,
    !andb_false_iff, !negb_false_iff, orb_false_iff, !negb_false_iff, !bool_decide_eq_true, is_ok_unit, valid_hash_Ok, bool_decide_eq_false.
  assert (Hf : Bool.eqb (jj_ForkName j =? "") (jj_ForkTip j =? "") = true ↔ (jj_ForkName j = "" ↔ jj_ForkTip j = "")).
  { rewrite Bool.eqb_true_iff. repeat case_bool_decide; naive_solver. }
  rewrite Hf. split.
  - intros ([Hv Hp] & (((Hh & Hd) & Hb) & Hc) & Hr & (Hk & Hx) & Hy & Hs & He & Hn & _). split; try done.
    + split; [done|]. intros Hex. destruct Hx as [Hx|Hx]; [congruence|done].
    + intros Hne. destruct Hy as [Hy|Hy]; done.
    + by apply bool_decide_eq_false in Hs.
  - intros [Hv Hp (Hh1 & Hh2 & Hh3) Hd Hb Hc Hr [Hk Hx] Hy Hs He Hn]. split_and!; try done.
    + destruct (jj_ForkExisted j); [right; by apply Hx|by left].
    + destruct (decide (jj_ForkName j = "")) as [E|E]; [by left|right; by apply Hy].
    + by apply bool_decide_eq_false.
Qed.

Lemma journal_valid_phase dir j phase : journal_valid dir j → phase = fsJoinPrepared ∨ phase = fsJoinCommitted →
  journal_valid dir (in_phase phase j).
Proof. intros [] Hp. by split. Qed.

(** The graph a valid journal was made for. *)
Record graph_ready (d : disk) (j : fsJoinJournal) : Prop := {
  gr_store : sound_store d (jj_RepoID j);
  gr_targets : ∀ id, id ∈ [jj_ExpectedHead j; jj_NewHead j; jj_ForkTip j] → id = "" ∨ is_Some (dk_snapshots d !! id);
  gr_entries : ∀ e, e ∈ jj_Snapshots j → is_Some (dk_snapshots d !! fj_ID e);
  gr_parents : ∀ e p, e ∈ jj_Snapshots j → p ∈ elems (ss_GraftParents (fj_After e)) → is_Some (dk_snapshots d !! p);
  gr_acyclic : ∀ pre post, jj_Snapshots j = pre ++ post → no_cycle (overlay pre (restored (jj_Snapshots j) (dk_snapshots d))) }.

Lemma graphs_exact dir d j : journal_valid dir j → validateJoinJournalGraphs d j = Ok tt ↔ graph_ready d j.
Proof.
  intros Hj. pose proof (jv_distinct _ _ Hj) as Hd. pose proof (proj1 (Forall_forall _ _) (jv_entries _ _ Hj)) as He. unfold validateJoinJournalGraphs.
  assert (Hcore : ∀ all, ListSnapshots d (jj_RepoID j) = Ok all →
    validateJoinTransitionOrder all (jj_Snapshots j) (jj_RepoID j) = Ok tt ↔
    (∀ e, e ∈ jj_Snapshots j → is_Some (dk_snapshots d !! fj_ID e)) ∧
    ∀ pre post, jj_Snapshots j = pre ++ post → no_cycle (overlay pre (restored (jj_Snapshots j) (dk_snapshots d)))).
  { intros all (Hn & Hin & Hg)%listed. rewrite order_exact by done. unfold prefixes_acyclic. rewrite Hg, Forall_forall. unfold entry_valid.
    setoid_rewrite Hin. split; [intros [Hv Ha]; split; [by intros e [? _]%Hv|done]|]. intros [Hv Ha]. split; [|done].
    intros e Hin'. split_and!; [by apply Hv|apply He..]; done. }
  assert (Hset : ∀ all x, ListSnapshots d (jj_RepoID j) = Ok all →
    bool_decide (x ∈@{gset string} list_to_set (ss_ID <$> all)) = true ↔ is_Some (dk_snapshots d !! x)).
  { intros all x (_ & Hin & _)%listed. by rewrite bool_decide_eq_true, elem_of_list_to_set, Hin. }
  split.
  - intros H. apply bind_Ok in H as (all & Hall & H). cbv zeta in H. apply bind_Ok in H as ([] & Ht%for_each_Ok & H).
    apply bind_Ok in H as ([] & Hes%for_each_Ok & Ho%or_else_Ok). apply Hcore in Ho as [Hi Ha]; [|done].
    rewrite Forall_forall in Ht; rewrite Forall_forall in Hes. split; [by apply ListSnapshots_Ok in Hall as [? _]| |done| |done].
    + intros id Hid%Ht%reject_if_Ok%andb_false_iff. destruct Hid as [Hid|Hid%negb_false_iff]; [left; by bools|right; by apply (Hset all)].
    + intros e p Hin Hp. apply Hes in Hin as Hx. apply bind_Ok in Hx as ([] & _ & Hx%for_each_Ok). rewrite (eo_after _ _ (eo_sound _ _ (He e Hin))), Forall_forall in Hx.
      apply Hx in Hp as Hp'%reject_if_Ok%negb_false_iff. by apply (Hset all).
  - intros [Hs Ht Hi Hp Ha]. destruct (ListSnapshots_total _ _ Hs) as (all & Hall). rewrite Hall. cbn [mbind result_bind].
    apply bind_Ok. exists tt. split; [|apply bind_Ok; exists tt; split; [|apply or_else_Ok; by apply Hcore]]; apply for_each_Ok, Forall_forall.
    + intros id Hid. apply reject_if_Ok. destruct (Ht id Hid) as [->|Hx]; [done|]. apply (Hset all) in Hx; [|done]. rewrite Hx. apply andb_false_r.
    + intros e Hin. rewrite (proj2 (Hset all _ Hall)) by (by apply Hi). cbn [negb reject_if mbind result_bind].
      rewrite (eo_after _ _ (eo_sound _ _ (He e Hin))). apply for_each_Ok, Forall_forall. intros p Hpin. rewrite (proj2 (Hset all _ Hall)); [done|]. by apply (Hp e).
Qed.

Section laid.
Context (j : fsJoinJournal) (d0 : disk).
#[local] Notation entries := (jj_Snapshots j).
#[local] Notation repo := (jj_RepoID j).

(** The journal of a join that passed its checks over [d0]. *)
Record laid : Prop := {
  ld_idle : dk_journal d0 = None;
  ld_before : ∀ e, e ∈ entries → dk_snapshots d0 !! fj_ID e = Some (fj_Before e);
  ld_branch : dk_branches d0 !! jj_Branch j = Some (jj_BranchID j, jj_ExpectedHead j);
  ld_fork : jj_ForkName j ≠ "" → dk_sessions d0 !! jj_ForkName j = if jj_ForkExisted j then Some (jj_ForkTip j) else None;
  ld_distinct : NoDup (fj_ID <$> entries);
  ld_entries : ∀ e, e ∈ entries → entry_sound repo e;
  ld_graph : graph_ready d0 j }.

Context (Hlaid : laid).

(** Only entries change, and they stay present. *)
Lemma mixed_present d x : mixed j d0 d → is_Some (dk_snapshots d !! x) ↔ is_Some (dk_snapshots d0 !! x).
Proof.
  intros [H1 _ _]. destruct (H1 x) as [->|(e & He & -> & ->)]; [done|]. rewrite (ld_before Hlaid e He). split; by eexists.
Qed.

Lemma mixed_sound d : mixed j d0 d → sound_store d repo.
Proof.
  intros [H1 _ _]. destruct (gr_store _ _ (ld_graph Hlaid)) as [Hr Hs]. split; [done|]. intros id s Hid. apply GetSnapshot_Ok.
  destruct (H1 id) as [E|(e & He & -> & E)]; rewrite E in Hid.
  - apply Hs, GetSnapshot_Ok in Hid as (? & ? & ? & ?). by rewrite E.
  - injection Hid as <-. pose proof (ld_entries Hlaid e He) as Ho. split_and!; [done|apply Ho|done|apply Ho].
Qed.

Lemma mixed_graph d : mixed j d0 d → graph_ready d j.
Proof.
  intros Hd. pose proof (ld_graph Hlaid) as Hg. split.
  - by apply mixed_sound.
  - intros id Hid. rewrite (mixed_present d id Hd). by apply Hg.
  - intros e He. rewrite (mixed_present d _ Hd). by apply Hg.
  - intros e p He Hp. rewrite (mixed_present d _ Hd). by apply (gr_parents _ _ Hg e).
  - intros pre post Hpre. rewrite (written_agree fj_Before entries (dk_snapshots d) (dk_snapshots d0)); [by eapply Hg|apply Hlaid|].
    intros x Hx. destruct (mx_snapshots _ _ _ Hd x) as [?|(e & He & -> & _)]; [done|]. destruct Hx. by apply list_elem_of_fmap_2.
Qed.

End laid.

Section recovery.
Context (dir : string) (j : fsJoinJournal) (d0 : disk).
#[local] Notation entries := (jj_Snapshots j).
#[local] Notation repo := (jj_RepoID j).

(** One that a restart would accept. *)
Record ready : Prop := {
  rd_laid : laid j d0;
  rd_valid : journal_valid dir j }.

Context (Hready : ready).

Lemma mixed_branch d : mixed j d0 d → ∃ target, GetRef d repo RefBranch (jj_Branch j) = Ok (MkRef (jj_BranchID j) RefBranch (jj_Branch j) repo target "") ∧
  (target = jj_ExpectedHead j ∨ target = jj_NewHead j).
Proof.
  intros [_ _ H3]. pose proof (rd_valid Hready) as Hv. assert (Hb : ∃ target, dk_branches d !! jj_Branch j = Some (jj_BranchID j, target) ∧
    (target = jj_ExpectedHead j ∨ target = jj_NewHead j)).
  { destruct (H3 (jj_Branch j)) as [E|[_ E]]; rewrite E; [|by eauto]. exists (jj_ExpectedHead j). split; [apply (rd_laid Hready)|by left]. }
  destruct Hb as (target & Hb & Ht). exists target. split; [|done]. apply GetRef_Ok. pose proof (jv_hashes _ _ Hv) as (Hr & He & Hn).
  unfold read_ref. rewrite bool_decide_true, Hb by done. split_and!; [done|apply Hv|done|].
  pose proof (jv_ref _ _ Hv) as Hvr. rewrite server_ref_Ok in Hvr |- *. split_and!; try apply Hvr. by destruct Ht as [->| ->].
Qed.

Lemma mixed_session d : mixed j d0 d → jj_ForkName j ≠ "" →
  GetRef d repo RefSession (jj_ForkName j) = Ok (MkRef "" RefSession (jj_ForkName j) repo (jj_ForkTip j) "") ∨
  (GetRef d repo RefSession (jj_ForkName j) = Err ErrNotFound ∧ jj_ForkExisted j = false).
Proof.
  intros [_ H2 _] Hn. pose proof (rd_valid Hready) as Hv. destruct (jv_fork_valid _ _ Hv Hn) as [Hname Htip]. pose proof (jv_hashes _ _ Hv) as (Hr & _ & _).
  assert (Hs : dk_sessions d !! jj_ForkName j = Some (jj_ForkTip j) ∨ (dk_sessions d !! jj_ForkName j = None ∧ jj_ForkExisted j = false)).
  { destruct (H2 (jj_ForkName j)) as [E|(_ & _ & E)]; [|by left]. rewrite E, (ld_fork _ _ (rd_laid Hready) Hn). destruct (jj_ForkExisted j); auto. }
  assert (Hread : read_ref d repo RefSession (jj_ForkName j) = (λ target, MkRef "" RefSession (jj_ForkName j) repo target "") <$> dk_sessions d !! jj_ForkName j) by done.
  destruct Hs as [Hs|[Hs Hf]]; rewrite Hs in Hread; [left|right; split; [|done]].
  - apply GetRef_Ok. split_and!; [done|done|done|]. by apply server_ref_Ok.
  - unfold GetRef. by rewrite (proj2 (server_hash_Ok repo) Hr), Hname, Hread.
Qed.

Lemma mixed_projection d : mixed j d0 d → validateJoinJournalProjection d j = Ok tt.
Proof.
  intros Hd. unfold validateJoinJournalProjection. destruct (mixed_branch d Hd) as (target & -> & Ht). cbn [or_else mbind result_bind ref_BranchID ref_Target].
  rewrite (bool_decide_true (jj_BranchID j = _)) by done. assert (Hc : (target <>? jj_ExpectedHead j) && (target <>? jj_NewHead j) = false).
  { apply andb_false_iff. rewrite !negb_false_iff, !bool_decide_eq_true. done. }
  cbn [negb orb]. rewrite Hc. cbn [reject_if mbind result_bind]. apply bind_Ok. exists tt. split.
  - apply for_each_Ok, Forall_forall. intros e He. assert (Hcur : ∃ s, dk_snapshots d !! fj_ID e = Some s ∧ (s = fj_Before e ∨ s = fj_After e)).
    { destruct (mx_snapshots _ _ _ Hd (fj_ID e)) as [E|(e' & He' & E' & E)]; rewrite E.
      - exists (fj_Before e). split; [by apply (rd_laid Hready)|by left].
      - exists (fj_After e'). split; [done|]. right. f_equal. symmetry. apply (NoDup_fmap_inj_on fj_ID entries); [apply (rd_laid Hready)|done..]. }
    destruct Hcur as (s & Hs & Hcase). destruct (mixed_sound j d0 (rd_laid Hready) d Hd) as [_ Hg]. rewrite (Hg _ _ Hs). cbn [or_else mbind result_bind].
    apply reject_if_Ok, andb_false_iff. rewrite !negb_false_iff, !bool_decide_eq_true. done.
  - destruct (bool_decide (jj_ForkName j = "")) eqn:E; [done|]. bools. destruct (mixed_session d Hd E) as [->|[-> ->]]; [|done].
    cbn [ref_Target]. by rewrite bool_decide_true.
Qed.

(** A restart accepts the journal over every disk its writes can leave. *)
Lemma mixed_accepted phase d : phase = fsJoinPrepared ∨ phase = fsJoinCommitted → mixed j d0 d →
  validate_journal dir d (in_phase phase j) = Ok tt.
Proof.
  intros Hp Hd. unfold validate_journal. pose proof (journal_valid_phase dir j phase (rd_valid Hready) Hp) as Hv.
  rewrite (proj2 (journal_Ok _ _) Hv). cbn [mbind result_bind]. rewrite (proj2 (graphs_exact dir d (in_phase phase j) Hv)).
  - cbn [mbind result_bind]. by apply mixed_projection.
  - destruct (mixed_graph j d0 (rd_laid Hready) d Hd). by split.
Qed.
End recovery.

(** ** Lemmas: crashes *)

Section crashes.
Context (j : fsJoinJournal) (d0 : disk) (Hlaid : laid j d0).
#[local] Notation joined := (after_join j d0).
#[local] Notation images forward := (if forward : bool then forward_images j else rollback_images j).

(** A join under way: its journal is on disk, with the first entries [l] of its log. *)
Record pending (phase : string) (l : list RefLogEntry) (d : disk) : Prop := {
  pn_journal : dk_journal d = Some (in_phase phase j);
  pn_mixed : mixed j d0 d;
  pn_log : dk_reflog d = fold_left log_add l (dk_reflog d0);
  pn_prefix : l `prefix_of` join_log j }.

(** The disks a join and its recoveries can leave. *)
Inductive safe (d : disk) : Prop :=
  | Untouched : d = d0 → safe d
  | Prepared : pending fsJoinPrepared [] d → safe d
  | Committed l : pending fsJoinCommitted l d → safe d
  | Joined : d = joined → safe d.

Lemma image_rest w forward d : w ∈ images forward → dk_journal (commit d w) = dk_journal d ∧ dk_reflog (commit d w) = dk_reflog d.
Proof. intros Hw. apply image_cases in Hw as [(e & _ & ->)|[(_ & [(-> & _)|(-> & _)])| ->]]; by destruct d. Qed.

Lemma pending_image phase l d w forward : pending phase l d → w ∈ images forward → pending phase l (commit d w).
Proof.
  intros [H1 H2 H3 H4] Hw. destruct (image_rest w forward d Hw) as [E1 E2]. split; [by rewrite E1| |by rewrite E2|done].
  apply (mixed_commit j d0 (ld_before _ _ Hlaid) (ld_branch _ _ Hlaid) (ld_fork _ _ Hlaid) d w forward); done.
Qed.

Lemma spec_projection phase l d forward : pending phase l d →
  spec (eq d) (applyJoinProjection j forward) (λ r d', pending phase l d' ∧ (r = Ok tt → d' = commit_all (images forward) d)) (pending phase l).
Proof. intros Hd. apply spec_perform_all; [|done]. intros d' w Hd' Hw. by apply (pending_image _ _ _ _ forward). Qed.

Lemma laid_mixed_rollback d : mixed j d0 d → commit_all (rollback_images j) d = with_rest d0 d.
Proof. apply rollback_complete; apply Hlaid. Qed.

Lemma laid_mixed_forward d : mixed j d0 d → commit_all (forward_images j) d = with_rest joined d.
Proof. apply forward_complete; apply Hlaid. Qed.

Lemma rolled_back phase d : pending phase [] d → commit (commit_all (rollback_images j) d) RemoveJournal = d0.
Proof.
  intros [H1 H2 H3 _]. rewrite (laid_mixed_rollback d H2). pose proof (ld_idle _ _ Hlaid) as Hi. destruct d, d0; cbn in *. by subst.
Qed.

(** Rolling back, whatever the phase of the journal on disk. *)
Lemma spec_rollback phase : (∀ d, pending phase [] d → safe d) →
  spec (pending phase []) (applyJoinProjection j false ;; perform RemoveJournal) (λ _ d, safe d) safe.
Proof.
  intros Hsafe d fs Hd. revert d fs Hd. intros d fs Hd. refine (spec_bind _ _ (eq d) (λ r d', pending phase [] d' ∧ (r = Ok tt → d' = commit_all (rollback_images j) d)) _ _ _ _ _ d fs eq_refl).
  - eapply spec_weaken; [by apply (spec_projection phase [] d false)|done|done|done].
  - intros []. apply spec_perform. intros d' [Hp He]. rewrite (He eq_refl), (rolled_back phase d Hd). rewrite (He eq_refl) in Hp.
    split_and!; [by apply Untouched|intros _; split; [by apply Hsafe|by apply Untouched]|by apply Hsafe].
  - intros e d' [Hp _]. by apply Hsafe.
Qed.

Lemma pending_safe phase l d : phase = fsJoinPrepared ∧ l = [] ∨ phase = fsJoinCommitted → pending phase l d → safe d.
Proof. intros [[-> ->]| ->] Hd; [by apply Prepared|by eapply Committed]. Qed.

Lemma spec_fail_prepared phase cause : phase = fsJoinPrepared ∨ phase = fsJoinCommitted →
  spec (pending phase []) (failPreparedJoin (in_phase phase j) cause) (λ r d, safe d ∧ r ≠ Ok tt) safe.
Proof.
  intros Hp. assert (Hsafe : ∀ d, pending phase [] d → safe d) by (intros d; apply pending_safe; naive_solver).
  intros d fs Hd. pose proof (spec_rollback phase Hsafe d fs Hd) as H. unfold failPreparedJoin.
  change (applyJoinProjection (in_phase fsJoinPrepared (in_phase phase j)) false) with (applyJoinProjection j false).
  unfold mbind, io_bind, attempt in *. destruct (applyJoinProjection j false d fs) as [[]|]; [|done..].
  destruct (perform RemoveJournal _ _) as [[]|]; [|done..]. by split.
Qed.

(** *** The log *)

Lemma log_step l a e b : join_log j = a ++ e :: b → l `prefix_of` join_log j → length a ≤ length l →
  ∃ l', l' `prefix_of` join_log j ∧ S (length a) ≤ length l' ∧
    fold_left log_add l' (dk_reflog d0) = log_add (fold_left log_add l (dk_reflog d0)) e.
Proof.
  intros He [k Hk] Hlen. rewrite He in Hk. destruct (decide (length l = length a)) as [El|Hne].
  - assert (l = a) as -> by (by apply (app_inj_1 l a k (e :: b))). exists (a ++ [e]). split_and!.
    + rewrite He. exists b. by rewrite <- app_assoc.
    + rewrite length_app. cbn. lia.
    + by rewrite fold_left_app.
  - exists l. split_and!; [rewrite He, Hk; by eexists|lia|]. symmetry. apply logged_id.
    assert (Hl : (a ++ e :: b) !! length a = Some e) by (by rewrite list_lookup_middle). rewrite Hk, lookup_app_l in Hl by lia.
    by eapply list_elem_of_lookup_2.
Qed.

(** Everything is written, and at least [n] entries of the log. *)
Definition completing (n : nat) (d : disk) : Prop :=
  with_rest joined d = d ∧ ∃ l, pending fsJoinCommitted l d ∧ n ≤ length l.

Lemma completing_safe n d : completing n d → safe d.
Proof. intros (_ & l & Hd & _). by eapply Committed. Qed.

Lemma completing_le n n' d : n' ≤ n → completing n d → completing n' d.
Proof. intros Hn (H & l & Hd & Hl). split; [done|]. exists l. split; [done|lia]. Qed.

Lemma spec_ensure a e b : join_log j = a ++ e :: b →
  spec (completing (length a)) (ensureJoinReflog e) (λ r d, completing (length a) d ∧ (r = Ok tt → completing (S (length a)) d)) (completing (length a)).
Proof.
  intros He. unfold ensureJoinReflog. apply spec_get. intros d Hd.
  assert (Hnew : ∀ d', dk_journal d' = dk_journal d → with_rest d d' = d' → dk_reflog d' = log_add (dk_reflog d) e → completing (S (length a)) d').
  { intros d' Hj Hs Hl. destruct Hd as (Hr & l & [H1 H2 H3 H4] & Hn). destruct (log_step l a e b He H4 Hn) as (l' & Hp & Hn' & Hl').
    split; [rewrite <- Hs, <- Hr; by destruct d'|]. exists l'. split; [|done]. split; [by rewrite Hj| |by rewrite Hl, Hl', H3|done].
    rewrite <- Hs. by apply mixed_rest. }
  destruct (existsb _ (dk_reflog d)) eqn:E.
  - apply spec_ret. intros d' <-. split; [done|]. intros _. apply Hnew; [done|by destruct d|by rewrite log_add_id].
  - assert (Hc : completing (S (length a)) (commit d (AppendReflog e))).
    { destruct d as [? ? ? log ?]. apply Hnew; [done|done|]. cbn in *. unfold log_add. by rewrite E. }
    assert (Hc0 : completing (length a) (commit d (AppendReflog e))) by (eapply completing_le; [|exact Hc]; lia).
    apply spec_perform. intros d' <-. split; [by split|]. split; [|done]. intros e'. by split.
Qed.

Lemma completed d : completing (length (join_log j)) d → commit d RemoveJournal = joined.
Proof.
  intros (Hr & l & [H1 H2 H3 H4] & Hl). assert (l = join_log j) as ->.
  { destruct H4 as [k Hk]. rewrite Hk, length_app in Hl. destruct k; [by rewrite app_nil_r in Hk|cbn in Hl; lia]. }
  rewrite <- Hr. unfold with_rest. cbn [commit]. rewrite H3. done.
Qed.

Lemma spec_complete : spec (completing 0) (completeCommittedJoin j) (λ r d, safe d ∧ (r = Ok tt → d = joined)) safe.
Proof.
  assert (Hlast : ∀ a, join_log j = a ++ [branch_entry j] → spec (completing (length a)) (ensureJoinReflog (branch_entry j) ;; perform RemoveJournal)
    (λ r d, safe d ∧ (r = Ok tt → d = joined)) safe).
  { intros a Ha. eapply spec_bind; [eapply spec_weaken; [apply (spec_ensure a _ [] Ha)|done|done|apply completing_safe]| |].
    - intros []. apply spec_perform. intros d [Hd Hc]. specialize (Hc eq_refl). pose proof (completed d) as Hj.
      rewrite Ha, length_app, Nat.add_comm in Hj. rewrite (Hj Hc). pose proof (completing_safe _ _ Hd) as Hs. pose proof (Joined joined eq_refl) as Hs'. naive_solver.
    - intros e d [Hd _]. split; [by eapply completing_safe|done]. }
  unfold completeCommittedJoin. unfold join_log in Hlast. destruct ((jj_ForkName j <>? "") && negb (jj_ForkExisted j)) eqn:E.
  - eapply spec_bind; [eapply spec_weaken; [apply (spec_ensure [] (session_entry j) [branch_entry j]); unfold join_log; by rewrite E|done|done|apply completing_safe]| |].
    + intros []. eapply spec_weaken; [apply (Hlast [session_entry j] eq_refl)|intros d [_ Hd]; by apply Hd|done|done].
    + intros e d [Hd _]. split; [by eapply completing_safe|done].
  - apply (Hlast [] eq_refl).
Qed.

Lemma forward_projected d : mixed j d0 d → with_rest joined (commit_all (forward_images j) d) = commit_all (forward_images j) d.
Proof. intros Hd. by rewrite (laid_mixed_forward d Hd). Qed.

Lemma spec_finish l d : pending fsJoinCommitted l d → spec (eq d) (finishCommittedJoin j) (λ r d, safe d ∧ (r = Ok tt → d = joined)) safe.
Proof.
  intros Hd. unfold finishCommittedJoin. eapply spec_bind.
  - eapply spec_weaken; [apply (spec_projection _ l d true Hd)|done|done|intros d'; apply Committed].
  - intros []. eapply spec_weaken; [apply spec_complete| |done|done]. intros d' [Hp He]. specialize (He eq_refl). subst d'.
    split; [apply forward_projected, Hd|]. exists l. split; [done|lia].
  - intros e d' [Hp _]. split; [by eapply Committed|done].
Qed.

Lemma put_journal p d : commit d (PutJournal p) = with_rest d (commit d (PutJournal p)).
Proof. by destruct d. Qed.

Lemma put_journal_rest p x d : with_rest x d = d → with_rest x (commit d (PutJournal p)) = commit d (PutJournal p).
Proof. destruct d. unfold with_rest. cbn. intros [= -> -> ->]. done. Qed.

Lemma pending_journal phase phase' l d : pending phase l d → pending phase' l (commit d (PutJournal (in_phase phase' j))).
Proof.
  intros [H1 H2 H3 H4]. split; [by destruct d|rewrite put_journal; by apply mixed_rest|by destruct d|done].
Qed.

(** The first write puts the journal beside the untouched store. *)
Lemma pending_start : pending fsJoinPrepared [] (commit d0 (PutJournal (in_phase fsJoinPrepared j))).
Proof. split; [by destruct d0|rewrite put_journal; apply mixed_rest, mixed_start|by destruct d0|apply prefix_nil]. Qed.

Lemma spec_run_join : spec (eq d0) (run_join j) (λ r d, safe d ∧ (r = Ok tt → d = joined)) safe.
Proof.
  pose proof pending_start as Hs. pose proof (Prepared _ Hs) as Hs'. pose proof (Untouched d0 eq_refl) as H0.
  assert (Hweak : ∀ phase e, phase = fsJoinPrepared ∨ phase = fsJoinCommitted →
    spec (pending phase []) (failPreparedJoin (in_phase phase j) e) (λ r d, safe d ∧ (r = Ok tt → d = joined)) safe).
  { intros phase e Hp. eapply spec_weaken; [by apply spec_fail_prepared|done| |done]. intros r d [Hd Hr]. by split. }
  unfold run_join. eapply (spec_bind _ _ _ (λ r d, safe d ∧ (r = Ok tt → d = commit d0 (PutJournal (in_phase fsJoinPrepared j))))).
  { apply spec_perform. intros d <-. by split_and!. }
  2:{ intros e d [Hd _]. by split. }
  intros []. eapply spec_attempt.
  { eapply spec_weaken; [apply (spec_projection _ _ _ true Hs)|intros d [_ Hd]; symmetry; by apply Hd|done|apply Prepared]. }
  intros [[]|e]; [|eapply spec_weaken; [by apply Hweak; left|by intros d [Hd _]|done|done]].
  eapply (spec_attempt _ _ _ (λ r d, (r = Ok tt → completing 0 d) ∧ ∃ phase, (phase = fsJoinPrepared ∨ phase = fsJoinCommitted) ∧ pending phase [] d)).
  { apply spec_perform. intros d [Hp He]. specialize (He eq_refl).
    pose proof (pending_journal _ fsJoinCommitted _ _ Hp) as Hc. split; [|split; [|by apply Prepared]].
    - split; [intros _|by eauto]. split; [|exists []; split; [done|lia]]. pose proof (forward_projected _ (pn_mixed _ _ _ Hs)) as Hj. rewrite <- He in Hj.
      by apply put_journal_rest.
    - intros e. split; (split; [done|]); eexists; (split; [|eassumption]); auto. }
  intros [[]|e].
  - eapply spec_weaken; [apply spec_complete|intros d [Hd _]; by apply Hd|done|done].
  - intros d fs (_ & phase & Hp & Hd). by apply (Hweak phase e Hp d fs Hd).
Qed.

End crashes.

(** *** Recovery *)

Lemma recovery_idle dir d fs : dk_journal d = None → recoverJoinJournals dir d fs = Returned (Ok tt) d fs.
Proof. intros Hd. unfold recoverJoinJournals, mbind, io_bind, attempt, get_disk. by rewrite Hd. Qed.

Section restarted.
Context (dir : string) (j : fsJoinJournal) (d0 : disk) (Hready : ready dir j d0).
#[local] Notation joined := (after_join j d0).
#[local] Notation pending := (pending j d0).
#[local] Notation safe := (safe j d0).
#[local] Notation Hlaid := (rd_laid _ _ _ Hready).

Lemma recovery_pending phase l d fs : pending phase l d → phase = fsJoinPrepared ∨ phase = fsJoinCommitted →
  recoverJoinJournals dir d fs =
    (if phase =? fsJoinPrepared then applyJoinProjection j false ;; perform RemoveJournal else finishCommittedJoin j) d fs.
Proof.
  intros [H1 H2 _ _] Hp. unfold recoverJoinJournals, mbind at 1, io_bind at 1, attempt at 1, get_disk. rewrite H1.
  by rewrite (mixed_accepted dir j d0 Hready phase d Hp H2).
Qed.

Lemma spec_recovery : spec safe (recoverJoinJournals dir) (λ _ d, safe d) safe.
Proof.
  intros d fs [->|Hd|l Hd| ->].
  - rewrite recovery_idle by apply Hlaid. by apply Untouched.
  - rewrite (recovery_pending _ _ d fs Hd) by (by left). apply (spec_rollback j d0 Hlaid fsJoinPrepared); [apply Prepared|done].
  - rewrite (recovery_pending _ _ d fs Hd) by (by right). pose proof (spec_finish j d0 Hlaid l d Hd d fs eq_refl) as H.
    change (fsJoinCommitted =? fsJoinPrepared) with false. destruct (finishCommittedJoin j d fs); [by apply H|done].
  - rewrite recovery_idle by done. by apply Joined.
Qed.

Lemma restarts_safe d lives : safe d → safe (restarts dir d lives).
Proof.
  revert d. induction lives as [|fs lives IH]; intros d Hd; [done|]. apply (IH (disk_after (recoverJoinJournals dir d fs))).
  pose proof (spec_recovery d fs Hd). by destruct (recoverJoinJournals dir d fs).
Qed.

Lemma restarts_idle d lives : dk_journal d = None → restarts dir d lives = d.
Proof.
  intros Hd. induction lives as [|fs lives IH]; [done|]. unfold restarts. cbn [fold_left]. rewrite (recovery_idle dir d fs Hd). exact IH.
Qed.

Lemma ensure_calm e d : ∃ log, ensureJoinReflog e d [] = Returned (Ok tt) (MkDisk (dk_snapshots d) (dk_sessions d) (dk_branches d) log (dk_journal d)) [].
Proof.
  unfold ensureJoinReflog, mbind, io_bind, attempt, get_disk. destruct (existsb _ _); [exists (dk_reflog d)|exists (dk_reflog d ++ [e])]; by destruct d.
Qed.

Lemma complete_calm d : ∃ d', completeCommittedJoin j d [] = Returned (Ok tt) d' [].
Proof.
  unfold completeCommittedJoin. destruct (_ && _).
  - destruct (ensure_calm (session_entry j) d) as [log1 H1]. rewrite (bind_calm _ _ _ _ _ H1).
    destruct (ensure_calm (branch_entry j) (MkDisk (dk_snapshots d) (dk_sessions d) (dk_branches d) log1 (dk_journal d))) as [log2 H2].
    rewrite (bind_calm _ _ _ _ _ H2), perform_calm. by eexists.
  - rewrite (bind_calm (mret tt) _ d tt d eq_refl). destruct (ensure_calm (branch_entry j) d) as [log H]. rewrite (bind_calm _ _ _ _ _ H), perform_calm. by eexists.
Qed.

(** A recovery whose writes succeed ends before or after the join. *)
Lemma recovery_calm d : safe d → ∃ d', recoverJoinJournals dir d [] = Returned (Ok tt) d' [] ∧ (d' = d0 ∨ d' = joined).
Proof.
  intros [->|Hd|l Hd| ->].
  - exists d0. rewrite recovery_idle by apply Hlaid. auto.
  - exists d0. rewrite (recovery_pending _ _ d [] Hd) by (by left). rewrite bool_decide_true by done.
    rewrite (bind_calm _ _ _ _ _ (perform_all_calm (rollback_images j) d)), perform_calm, (rolled_back j d0 Hlaid _ _ Hd). auto.
  - rewrite (recovery_pending _ _ d [] Hd) by (by right). change (fsJoinCommitted =? fsJoinPrepared) with false. cbv iota.
    destruct (complete_calm (commit_all (forward_images j) d)) as [d' Hc]. assert (Hf : finishCommittedJoin j d [] = Returned (Ok tt) d' []).
    { unfold finishCommittedJoin. by rewrite (bind_calm _ _ _ _ _ (perform_all_calm (forward_images j) d)). }
    pose proof (spec_finish j d0 Hlaid l d Hd d [] eq_refl) as H. rewrite Hf in H. exists d'. split; [done|]. right. by apply H.
  - exists joined. rewrite recovery_idle by done. auto.
Qed.
End restarted.

(** ** Lemmas: what [ApplyJoin] checked *)

(** Decoded from JSON: an empty slice that is omitted decodes to nil. *)
Definition decoded (d : disk) : Prop := ∀ id s, dk_snapshots d !! id = Some s → json_snapshot s = s.

(** No register of the journal was emptied: empty, it decodes to nil. *)
Definition keeps_registers (j : fsJoinJournal) : Prop := ∀ e, e ∈ jj_Snapshots j → ss_GraftParents (fj_After e) ≠ None.

Lemma dedup_fresh grafts seen out : NoDup grafts → (∀ p, p ∈ grafts → p ≠ "" ∧ p ∉ seen) →
  (fold_left dedup_parent grafts (seen, out)).2 = out ++ grafts.
Proof.
  revert seen out. induction grafts as [|g grafts IH]; intros seen out; [by rewrite app_nil_r|]. intros [Hg Hn]%NoDup_cons Hs.
  cbn [fold_left]. unfold dedup_parent at 2. cbn [fst snd]. destruct (Hs g ltac:(left)) as [H1 H2].
  rewrite (bool_decide_false (g = "")), (bool_decide_false (g ∈ seen)) by done. cbn [orb]. rewrite IH; [by rewrite <- app_assoc|done|].
  intros p Hp. destruct (Hs p ltac:(by right)) as [H3 H4]. split; [done|]. intros [->%elem_of_singleton|?]%elem_of_union; done.
Qed.

Lemma dedup_fixed id natural graft : dedupHashParents id natural (dedupHashParents id natural graft) = dedupHashParents id natural graft.
Proof.
  destruct (dedupHashParents_spec id natural graft) as [Hn Hin]. unfold dedupHashParents at 1. rewrite dedup_fresh; [done|done|].
  intros p (_ & Hp & Hi & Hnat)%Hin. split; [done|]. intros [?%elem_of_singleton|?%elem_of_list_to_set]%elem_of_union; done.
Qed.

Lemma check_patches_sound patches seen out : fold_each check_patch patches seen = Ok out →
  NoDup (gp_SnapshotID <$> patches) ∧ ∀ p, p ∈ patches → gp_SnapshotID p ∉ seen.
Proof.
  revert seen. induction patches as [|p patches IH]; intros seen H; cbn [fold_each] in H.
  { split; [constructor|]. intros p Hp. by apply elem_of_nil in Hp. }
  apply bind_Ok in H as (s & Hp & H). apply IH in H as [Hn Hs]. unfold check_patch in Hp. inv_ok. bools. subst s.
  rewrite fmap_cons, NoDup_cons. split_and!; [|done|].
  - intros (q & Hq & Hin)%list_elem_of_fmap. specialize (Hs q Hin). set_solver.
  - intros q [->|Hq]%elem_of_cons; [done|]. specialize (Hs q Hq). set_solver.
Qed.

(** What the contract of a mutation gives its journal. *)
Lemma mutation_Ok m : ValidateJoinMutation m = Ok tt →
  (is_content_hash (jm_RepoID m) ∧ is_content_hash (jm_ExpectedHead m) ∧ is_content_hash (jm_NewHead m)) ∧
  server_ValidateBranchName (jm_Branch m) = Ok tt ∧ (jm_ForkName m = "" ↔ jm_ForkTip m = "") ∧
  (jm_ForkName m ≠ "" → server_ValidateBranchName (jm_ForkName m) = Ok tt ∧ is_content_hash (jm_ForkTip m)) ∧
  jm_Grafts m ≠ [] ∧ NoDup (gp_SnapshotID <$> jm_Grafts m).
Proof.
  unfold ValidateJoinMutation. intros H. apply bind_Ok in H as ([] & Hh%for_each_Ok & H). rewrite !Forall_cons, !server_hash_Ok in Hh.
  apply bind_Ok in H as ([] & _ & H). apply bind_Ok in H as (seen & _ & H). apply bind_Ok in H as ([] & _ & H).
  apply bind_Ok in H as ([] & Hb & H). apply bind_Ok in H as ([] & He%reject_if_Ok%negb_false_iff%Bool.eqb_prop & H).
  apply bind_Ok in H as ([] & Hf & H). apply bind_Ok in H as ([] & Hg%reject_if_Ok & H). apply bind_Ok in H as (out & Hp & _). bools.
  assert (Hf2 : jm_ForkName m = "" ↔ jm_ForkTip m = "") by (clear -He; repeat case_bool_decide; naive_solver).
  split; [split_and!; apply Hh|]. split; [done|]. split; [done|]. split; [intros Hne; split|split; [done|by eapply check_patches_sound]].
  - rewrite bool_decide_false in Hf by done. cbn [negb] in Hf. by apply bind_Ok in Hf as ([] & ? & _).
  - rewrite bool_decide_false in Hf by done. cbn [negb] in Hf. apply bind_Ok in Hf as ([] & _ & Hf). by apply bind_Ok in Hf as ([] & ?%server_hash_Ok & _).
Qed.

Lemma required_Ok d repo ids : requireSnapshots d repo ids = Ok tt → ∀ id, id ∈ ids → id = "" ∨ is_Some (dk_snapshots d !! id).
Proof.
  unfold requireSnapshots. intros H. apply bind_Ok in H as (out & H & _).
  apply (fold_each_invariant _ (λ pre seen, (∀ id, id ∈ pre → id = "" ∨ is_Some (dk_snapshots d !! id)) ∧ ∀ id, id ∈ seen → is_Some (dk_snapshots d !! id))) in H.
  - apply H.
  - split; intros id Hid; [by apply elem_of_nil in Hid|set_solver].
  - intros pre x seen seen' [H1 H2] _ Hx. destruct ((x =? "") || bool_decide (x ∈ seen)) eqn:E.
    + injection Hx as <-. split; [|done]. intros id [?| ->%list_elem_of_singleton]%elem_of_app; [auto|].
      apply orb_true_iff in E as [E|E]; bools; auto.
    + apply bind_Ok in Hx as (s & (_ & _ & Hs & _)%GetSnapshot_Ok & [= <-]). assert (is_Some (dk_snapshots d !! x)) by eauto.
      split; intros id; [intros [?| ->%list_elem_of_singleton]%elem_of_app; auto|intros [->%elem_of_singleton|?]%elem_of_union; auto].
Qed.

Lemma GetRef_absent d repo kind name : GetRef d repo kind name = Err ErrNotFound → read_ref d repo kind name = None.
Proof.
  unfold GetRef, server_ValidateContentHash, server_ValidateBranchName. destruct (ValidateContentHash repo), (ValidateBranchName name); cbn; try done.
  destruct (read_ref d repo kind name) as [ref|]; [|done]. unfold server_ValidateRef, server_ValidateContentHash, server_ValidateBranchName.
  destruct (_ || _); cbn; [done|]. destruct (ValidateContentHash (ref_RepoID ref)), (ValidateBranchName (ref_Name ref)); cbn; try done.
  destruct (bool_decide _); cbn; [done|]. by destruct (ValidateContentHash (ref_Target ref)).
Qed.

Lemma entry_of_ok d repo p e : decoded d → sound_store d repo → entry_of (dk_snapshots d) p e → fj_ID e = gp_SnapshotID p ∧
  dk_snapshots d !! fj_ID e = Some (fj_Before e) ∧ (∀ g, g ∈ elems (ss_GraftParents (fj_After e)) → g ∈ gp_Parents p) ∧
  (validateJoinSnapshot (fj_After e) (fj_ID e) repo = Ok (fj_After e) → entry_sound repo e ∧
    (ss_GraftParents (fj_After e) ≠ None → entry_ok repo e)).
Proof.
  intros Hj [_ Hs] (s & s' & Hid & Ht & ->). cbn [fj_ID fj_Before fj_After]. pose proof (Hj _ _ Hid) as Es. pose proof (Hs _ _ Hid) as (_ & Hi & _ & Hv)%GetSnapshot_Ok.
  pose proof (join_transition_Ok _ _ _ Ht) as (_ & _ & _ & Hq & _ & Hm & _). unfold join_transition in Ht. inv_ok. bools. subst s'. rewrite Es.
  set (grafts := dedupHashParents (ss_ID s) (elems (ss_Parents s)) (gp_Parents p)). split_and!; [done|done| |].
  - intros g Hg. cbn [json_snapshot with_graft ss_GraftParents] in Hg. rewrite elems_json_slice in Hg. change (elems (Some grafts)) with grafts in Hg.
    by apply dedupHashParents_spec in Hg as [? _].
  - intros Ha. assert (Hsound : entry_sound repo (MkFsJoinSnapshot (gp_SnapshotID p) s (json_snapshot (with_graft s (Some grafts) (grafts <>? []) (ss_GraftSeq s + 1))))).
    { split; cbn [fj_ID fj_Before fj_After]; [done|done|exact Ha| |].
      - split; [done|]. cbn. lia.
      - change (json_snapshot (with_graft s (Some grafts) (grafts <>? []) (ss_GraftSeq s + 1))) with
          (with_graft (json_snapshot s) (json_slice (Some grafts)) (grafts <>? []) (ss_GraftSeq s + 1)). rewrite Es. by destruct s. }
    split; [exact Hsound|]. intros Hn. split; [exact Hsound|]. cbn [fj_After json_snapshot with_graft ss_GraftParents ss_ID ss_Parents json_slice] in Hn |- *.
    destruct grafts as [|g gs] eqn:E; [done|]. cbn [json_slice].
    change (elems (Some (g :: gs))) with (g :: gs). rewrite <- E. unfold grafts. by rewrite dedup_fixed.
Qed.

(** The checks of [ApplyJoin], and the journal they end in. *)
Lemma prepare_Ok check now m d j : prepare_join check now m d = Ok j → ∃ cur entries all existed,
  ValidateJoinMutation m = Ok tt ∧ dk_journal d = None ∧ GetRef d (jm_RepoID m) RefBranch (jm_Branch m) = Ok cur ∧
  ref_Target cur = jm_ExpectedHead m ∧ requireSnapshots d (jm_RepoID m) (required m) = Ok tt ∧
  fold_each (journal_entry (GetSnapshot d (jm_RepoID m))) (jm_Grafts m) [] = Ok entries ∧
  ListSnapshots d (jm_RepoID m) = Ok all ∧ validateJoinTransitionOrder all entries (jm_RepoID m) = Ok tt ∧ fork_existed d m = Ok existed ∧
  j = MkFsJoinJournal (ref_BranchID cur) fsJoinJournalVersion fsJoinPrepared (jm_RepoID m) (jm_Branch m) (jm_ExpectedHead m) (jm_NewHead m)
        (jm_ForkName m) (jm_ForkTip m) existed now entries.
Proof.
  unfold prepare_join. intros H. apply bind_Ok in H as ([] & Hm & H). cbv zeta in H.
  apply bind_Ok in H as ([] & Hidle & H). apply bind_Ok in H as (cur & Hcur%or_else_Ok & H). apply bind_Ok in H as ([] & Ht%reject_if_Ok & H).
  apply bind_Ok in H as ([] & _ & H). apply bind_Ok in H as ([] & Hreq & H). apply bind_Ok in H as ([] & _ & H).
  apply bind_Ok in H as (entries & Hes & H). apply bind_Ok in H as (all & Hall & H). apply bind_Ok in H as ([] & Ho & H).
  apply bind_Ok in H as (existed & Hex & [= <-]). bools. exists cur, entries, all, existed. split_and!; try done. by destruct (dk_journal d).
Qed.

Lemma prepared_entries check now m d j : prepare_join check now m d = Ok j →
  Forall2 (entry_of (dk_snapshots d)) (jm_Grafts m) (jj_Snapshots j) ∧ NoDup (gp_SnapshotID <$> jm_Grafts m).
Proof.
  intros (cur & entries & all & existed & Hm%mutation_Ok & _ & _ & _ & _ & Hes & _ & _ & _ & ->)%prepare_Ok. split; [|apply Hm].
  apply (journal_entries_get _ (dk_snapshots d)) in Hes; [done|]. by intros id s (_ & _ & ? & _)%GetSnapshot_Ok.
Qed.

(** The entries write what the patches do, as JSON keeps it. *)
Lemma patches_written g0 patches entries : Forall2 (entry_of g0) patches entries → NoDup (gp_SnapshotID <$> patches) →
  ∀ g, (∀ p, p ∈ patches → g !! gp_SnapshotID p = g0 !! gp_SnapshotID p) →
  ∃ g', apply_patches g patches = Ok g' ∧ written fj_After entries (json_snapshot <$> g) = json_snapshot <$> g'.
Proof.
  induction 1 as [|p e patches entries (s & s' & Hs & Ht & ->) Hes IH]; intros Hn g Hg; [by exists g|].
  rewrite fmap_cons, NoDup_cons in Hn. destruct Hn as [Hp Hn]. destruct (IH Hn (<[gp_SnapshotID p := s']> g)) as (g' & Ha & Hw).
  { intros q Hq. rewrite lookup_insert_ne; [apply Hg; by right|]. intros E. apply Hp. rewrite E. by apply list_elem_of_fmap_2. }
  exists g'. split; [|by rewrite <- Hw, fmap_insert].
  assert (Hstep : apply_patch g p = Ok (<[gp_SnapshotID p := s']> g)) by (unfold apply_patch; by rewrite (Hg p ltac:(left)), Hs, Ht).
  unfold apply_patches in *. cbn [fold_each]. by rewrite Hstep.
Qed.

(** A join that passed the checks is laid over the store. *)
Lemma prepared_laid check now m d j : prepare_join check now m d = Ok j → decoded d → laid j d.
Proof.
  intros H Hdec. apply prepare_Ok in H as (cur & entries & all & existed & (Hh & Hb & Hf & Hfv & Hg & Hd)%mutation_Ok & Hidle & Hcur & Ht & Hreq & Hes & Hall & Ho & Hex & ->).
  pose proof (ListSnapshots_Ok _ _ _ Hall) as [Hs _]. pose proof (required_Ok _ _ _ Hreq) as Hr.
  apply (journal_entries_get _ (dk_snapshots d)) in Hes; [|by intros id s (_ & _ & ? & _)%GetSnapshot_Ok].
  pose proof (entry_ids _ _ _ Hes) as Hids. assert (Hde : NoDup (fj_ID <$> entries)) by (by rewrite Hids).
  pose proof (listed _ _ _ Hall) as (Hn & Hin & Hgr). apply order_exact in Ho as [Hv Ha]; [|done|done]. rewrite Forall_forall in Hv.
  assert (He : ∀ e, e ∈ entries → ∃ p, p ∈ jm_Grafts m ∧ entry_of (dk_snapshots d) p e).
  { intros e (i & Hi)%list_elem_of_lookup_1. destruct (Forall2_lookup_r _ _ _ _ _ Hes Hi) as (p & Hp & ?). exists p. split; [by eapply list_elem_of_lookup_2|done]. }
  apply GetRef_Ok in Hcur as (_ & _ & Hread & Href). unfold read_ref in Hread. rewrite bool_decide_true in Hread by done.
  apply fmap_Some in Hread as ([b t] & Hbr & ->). cbn [ref_BranchID ref_Target fst snd] in *.
  split; cbn [jj_Snapshots jj_Branch jj_BranchID jj_ExpectedHead jj_ForkName jj_ForkExisted jj_ForkTip jj_RepoID].
  - done.
  - intros e (p & _ & Hp)%He. by apply (entry_of_ok d (jm_RepoID m) p e Hdec Hs) in Hp as (_ & ? & _).
  - by rewrite Hbr, Ht.
  - intros Hne. unfold fork_existed in Hex. rewrite (bool_decide_false (jm_ForkName m = "")) in Hex by done.
    destruct (GetRef d (jm_RepoID m) RefSession (jm_ForkName m)) as [r|[]] eqn:Er; try done.
    + apply GetRef_Ok in Er as (_ & _ & Er & _). unfold read_ref in Er. cbn in Er. apply fmap_Some in Er as (tip & -> & ->).
      apply bind_Ok in Hex as ([] & Hx%reject_if_Ok & [= <-]). cbn [ref_Target] in Hx. bools. by subst.
    + apply GetRef_absent in Er. unfold read_ref in Er. cbn in Er. injection Hex as <-. by apply fmap_None in Er.
  - done.
  - intros e Hin'. destruct (He e Hin') as (p & _ & Hp). apply (entry_of_ok d (jm_RepoID m) p e Hdec Hs) in Hp as (_ & _ & _ & Hok).
    refine (proj1 (Hok _)). by apply (Hv e Hin').
  - split; cbn.
    + done.
    + intros id Hid. apply Hr. unfold required. set_solver.
    + intros e (Hie & _)%Hv. by apply Hin.
    + intros e g Hin' Hge. destruct (He e Hin') as (p & Hp & Heo). apply (entry_of_ok d (jm_RepoID m) p e Hdec Hs) in Heo as (_ & _ & Hpar & _).
      destruct (Hr g) as [->|?]; [|exfalso|done].
      * unfold required. apply elem_of_app. right. apply elem_of_app. right. apply elem_of_concat. exists (gp_SnapshotID p :: gp_Parents p). split; [right; by apply Hpar|].
        by apply (list_elem_of_fmap_2 (λ p, gp_SnapshotID p :: gp_Parents p)).
      * destruct (Hv e Hin') as (_ & _ & Hva). apply join_snapshot_exact in Hva as (_ & _ & Hva). apply valid_hashes in Hva as (_ & Hva & _).
        rewrite Forall_forall in Hva. by apply (content_hash_nonempty "" (Hva "" Hge)).
    + intros pre post Hpre. rewrite <- Hgr. by apply (Ha pre post).
Qed.

(** It is ready if it empties no register. *)
Lemma prepared_ready check now m d j : prepare_join check now m d = Ok j → decoded d → time_IsZero now = false → keeps_registers j →
  ready (hexOf (jm_RepoID m)) j d ∧ jj_Phase j = fsJoinPrepared.
Proof.
  intros H Hdec Hnow Hkeep. pose proof (prepared_laid check now m d j H Hdec) as Hlaid. pose proof (ld_entries _ _ Hlaid) as Hsound.
  pose proof (prepared_entries check now m d j H) as [Hes _].
  apply prepare_Ok in H as (cur & entries & all & existed & (Hh & Hb & Hf & Hfv & Hg & Hd)%mutation_Ok & _ & Hcur & Ht & _ & _ & _ & _ & Hex & ->).
  cbn [jj_Snapshots] in Hes. apply GetRef_Ok in Hcur as (_ & _ & Hread & Href). unfold read_ref in Hread. rewrite bool_decide_true in Hread by done.
  apply fmap_Some in Hread as ([b t] & Hbr & ->). cbn [ref_BranchID ref_Target fst snd] in *.
  split; [|done]. split; [exact Hlaid|]. split; cbn; try done.
  - by left.
  - rewrite server_ref_Ok in Href |- *. naive_solver.
  - split; [done|]. intros ->. unfold fork_existed in Hex. intros E. by rewrite bool_decide_true in Hex.
  - intros ->. by apply Forall2_nil_inv_r in Hes.
  - apply Forall_forall. intros e Hin. pose proof Hin as (i & Hi)%list_elem_of_lookup_1. destruct (Forall2_lookup_r _ _ _ _ _ Hes Hi) as (p & _ & Hp).
    apply (entry_of_ok d (jm_RepoID m) p e Hdec (gr_store _ _ (ld_graph _ _ Hlaid))) in Hp as (_ & _ & _ & Hok).
    refine (proj2 (Hok _) (Hkeep e Hin)). exact (eo_after _ _ (Hsound e Hin)).
  - exact (ld_distinct _ _ Hlaid).
Qed.

Section calm.
Context (j : fsJoinJournal) (d0 : disk) (Hlaid : laid j d0).

(** A join whose writes all succeed. *)
Lemma run_join_calm : run_join j d0 [] = Returned (Ok tt) (after_join j d0) [].
Proof.
  pose proof (spec_run_join j d0 Hlaid d0 [] eq_refl) as H. unfold run_join in *. rewrite (bind_calm _ _ _ _ _ (perform_calm _ _)) in *.
  unfold attempt in *. change (applyJoinProjection (in_phase fsJoinPrepared j) true) with (perform_all (forward_images j)) in *.
  rewrite perform_all_calm, perform_calm in *.
  match goal with |- context [completeCommittedJoin _ ?d []] => destruct (complete_calm j d) as [d' Hc] end.
  change (completeCommittedJoin (in_phase fsJoinCommitted j)) with (completeCommittedJoin j) in *. rewrite Hc in *. destruct H as [_ H]. by rewrite H.
Qed.
End calm.

Lemma ApplyJoin_prepared check now m d j fs : prepare_join check now m d = Ok j → ApplyJoin check now m d fs = run_join j d fs.
Proof. intros H. unfold ApplyJoin, mbind, io_bind, attempt, get_disk. by rewrite H. Qed.

Lemma refused_journal dir j d fs : dk_journal d = Some j → validateFSJoinJournal j dir ≠ Ok tt →
  ∃ e, recoverJoinJournals dir d fs = Returned (Err e) d fs.
Proof.
  intros Hd Hv. unfold recoverJoinJournals, mbind at 1, io_bind at 1, attempt at 1, get_disk. rewrite Hd. unfold validate_journal.
  destruct (validateFSJoinJournal j dir) as [[]|e]; [done|]. by exists e.
Qed.

Lemma refused_restarts dir d j lives : dk_journal d = Some j → validateFSJoinJournal j dir ≠ Ok tt → restarts dir d lives = d.
Proof.
  intros Hd Hv. induction lives as [|f lives IH]; [done|]. unfold restarts. cbn [fold_left].
  destruct (refused_journal dir j d f Hd Hv) as [e ->]. exact IH.
Qed.

(** What a join left, restarted until a recovery succeeds, is the store before or after it, also
    when a restart would refuse its journal: then the journal was not on disk. *)
Lemma safe_recovered dir j d0 d lives d' : laid j d0 → jj_Phase j = fsJoinPrepared → safe j d0 d →
  recoverJoinJournals dir (restarts dir d lives) [] = Returned (Ok tt) d' [] → d' = d0 ∨ d' = after_join j d0.
Proof.
  intros Hlaid Hph Hs Hrec. assert (Ej : in_phase fsJoinPrepared j = j) by (rewrite <- Hph; by destruct j).
  destruct (validateFSJoinJournal j dir) as [[]|e] eqn:Hv.
  - apply journal_Ok in Hv. assert (Hr : ready dir j d0) by (by split).
    destruct (recovery_calm dir j d0 Hr _ (restarts_safe dir j d0 Hr d lives Hs)) as (d1 & H1 & Hcase). rewrite H1 in Hrec. by injection Hrec as <-.
  - assert (Hrefused : ∀ phase, validateFSJoinJournal (in_phase phase j) dir ≠ Ok tt).
    { intros phase Hp%journal_Ok. apply (journal_valid_phase _ _ fsJoinPrepared) in Hp; [|by left].
      change (in_phase fsJoinPrepared (in_phase phase j)) with (in_phase fsJoinPrepared j) in Hp. rewrite Ej in Hp. apply journal_Ok in Hp. congruence. }
    assert (Hpending : ∀ phase l, pending j d0 phase l d → d' = d0 ∨ d' = after_join j d0).
    { intros phase l Hp. rewrite (refused_restarts dir d _ lives (pn_journal _ _ _ _ _ Hp) (Hrefused phase)) in Hrec.
      destruct (refused_journal dir _ d [] (pn_journal _ _ _ _ _ Hp) (Hrefused phase)) as [e' He]. congruence. }
    destruct Hs as [->|Hp|l Hp| ->]; [|by eapply Hpending|by eapply Hpending|].
    + rewrite restarts_idle, recovery_idle in Hrec by (done || apply Hlaid). injection Hrec as <-. by left.
    + rewrite restarts_idle, recovery_idle in Hrec by done. injection Hrec as <-. by right.
Qed.

Lemma run_safe j d0 fs : laid j d0 → safe j d0 (disk_after (run_join j d0 fs)).
Proof. intros Hl. pose proof (spec_run_join j d0 Hl d0 fs eq_refl) as H. destruct (run_join j d0 fs); [apply H|done]. Qed.

Lemma join_restarted check now m d0 j fs lives : prepare_join check now m d0 = Ok j → decoded d0 → time_IsZero now = false → keeps_registers j →
  let run := ApplyJoin check now m d0 fs in
  ∃ d, recoverJoinJournals (hexOf (jm_RepoID m)) (restarts (hexOf (jm_RepoID m)) (disk_after run) lives) [] = Returned (Ok tt) d [] ∧
    (d = d0 ∨ d = after_join j d0) ∧
    ∀ d1 fs1, run = Returned (Ok tt) d1 fs1 → d1 = after_join j d0 ∧ d = after_join j d0.
Proof.
  intros Hp Hd Hn Hk run. destruct (prepared_ready check now m d0 j Hp Hd Hn Hk) as [Hr _]. subst run. rewrite !(ApplyJoin_prepared _ _ _ _ _ _ Hp).
  pose proof (rd_laid _ _ _ Hr) as Hl. pose proof (run_safe j d0 fs Hl) as Hs.
  destruct (recovery_calm _ j d0 Hr _ (restarts_safe _ j d0 Hr _ lives Hs)) as (d & Hrec & Hcase). exists d. split_and!; [done|done|].
  intros d1 fs1 E. pose proof (spec_run_join j d0 Hl d0 fs eq_refl) as H. rewrite E in *. destruct H as [_ H]. specialize (H eq_refl). subst d1. split; [done|].
  cbn [disk_after] in Hrec. rewrite restarts_idle in Hrec by done. rewrite recovery_idle in Hrec by done. by injection Hrec as <-.
Qed.

Lemma after_overlay j d : dk_snapshots (after_join j d) = overlay (jj_Snapshots j) (dk_snapshots d).
Proof. unfold after_join, forward_images. rewrite !commit_all_app, commit_snapshots. by destruct (bool_decide (jj_ForkName j = "")). Qed.

(** ** Claims *)

(** C10: A join is atomic under crashes.  Let [ApplyJoin] pass its checks on a store that holds its
    snapshots as JSON decodes them, at a time that is not zero, and let it empty no register (a
    restart refuses such a journal).  Let any of its writes fail, before or after having its
    effect, or be where the process dies; let any number of restarts follow, their recoveries
    meeting faults of their own.  Then the next
    restart whose writes succeed accepts the store, removes the journal and leaves either the
    store as it was or every write of the join with each log entry once; it is the latter when
    the join reported success.  A join whose writes succeed reports it. *)
Theorem join_crash_atomic check now m d0 j fs lives :
  prepare_join check now m d0 = Ok j → decoded d0 → time_IsZero now = false → keeps_registers j →
  let dir := hexOf (jm_RepoID m) in
  let run := ApplyJoin check now m d0 fs in
  (∃ d, recoverJoinJournals dir (restarts dir (disk_after run) lives) [] = Returned (Ok tt) d [] ∧
    (d = d0 ∨ d = after_join j d0) ∧
    ∀ d1 fs1, run = Returned (Ok tt) d1 fs1 → d1 = after_join j d0 ∧ d = after_join j d0) ∧
  ApplyJoin check now m d0 [] = Returned (Ok tt) (after_join j d0) [].
Proof.
  intros Hp Hd Hn Hk dir run. split; [by apply join_restarted|]. destruct (prepared_ready check now m d0 j Hp Hd Hn Hk) as [Hr _].
  rewrite (ApplyJoin_prepared _ _ _ _ _ _ Hp). by apply run_join_calm, Hr.
Qed.

(** C21: A restart accepts the journal of a join exactly when no register of it was emptied.  The
    journal of a join that passed the checks of [ApplyJoin] passes those of a restart in every
    other respect: header, refs, entries, graph, order and projection. *)
Theorem recovery_accepts_exact check now m d j : prepare_join check now m d = Ok j → decoded d → time_IsZero now = false →
  validate_journal (hexOf (jm_RepoID m)) d j = Ok tt ↔ keeps_registers j.
Proof.
  intros Hp Hd Hn. split.
  - intros H e He. apply bind_Ok in H as ([] & Hv%journal_Ok & _). pose proof (jv_entries _ _ Hv) as Hes. rewrite Forall_forall in Hes.
    by rewrite (eo_register _ _ (Hes e He)).
  - intros Hk. destruct (prepared_ready check now m d j Hp Hd Hn Hk) as [Hr Hph].
    pose proof (mixed_accepted _ j d Hr fsJoinPrepared d (or_introl eq_refl) (mixed_start j d)) as H.
    replace (in_phase fsJoinPrepared j) with j in H; [done|]. rewrite <- Hph. by destruct j.
Qed.

(** C22: A journal with an emptied register blocks the server.  Once it is on disk, prepared or
    committed, every restart fails without changing the disk, whatever faults it meets: a
    register decoded as nil never equals the empty one that deduplication makes. *)
Theorem emptied_register_blocks dir j phase d fs lives : ¬ keeps_registers j → dk_journal d = Some (in_phase phase j) →
  restarts dir d lives = d ∧ ∃ e, recoverJoinJournals dir d fs = Returned (Err e) d fs.
Proof.
  intros Hk Hj. assert (Hv : validateFSJoinJournal (in_phase phase j) dir ≠ Ok tt).
  { intros Hv%journal_Ok. apply Hk. intros e He. pose proof (jv_entries _ _ Hv) as Hes. rewrite Forall_forall in Hes.
    by rewrite (eo_register _ _ (Hes e He)). }
  split; [by eapply refused_restarts|by apply (refused_journal dir (in_phase phase j))].
Qed.


(** ** A join with faults *)

Module JournalSamples.
Import JoinSamples.

(** A branch at [h]; the session [x] that a session ref keeps is joined onto it. *)
Definition stored_of (snaps : list ServerSnapshot) (sessions : gmap string string) : disk :=
  MkDisk (graph_of snaps) sessions {[ "main" := ("", hash "h"); "other" := ("", hash "r") ]} [] None.
Definition kept : string := SessionRefPrefix "main" +:+ "x".
Definition start : disk := stored_of [snapshot "r" [] []; snapshot "x" ["r"] []; snapshot "h" ["r"] []] {[ kept := hash "x" ]}.
Definition mutation : JoinMutation :=
  MkJoinMutation "" "" repo "main" (hash "x") [hash "x"] (hash "h") (hash "x") "" "" [MkGraftPatch (hash "x") 0 [hash "h"]].

(** The plan of [JoinSamples] removes the only graft of [g]. *)
Definition forkName : string := SessionRefPrefix "main" +:+ "y".
Definition emptying : JoinMutation := plan_mutation plan forkName.
Definition start' : disk := stored_of snapshots ∅.

Definition any (_ : disk) (_ : Ref) : result unit := Ok tt.
Definition now : time := MkTime 7 0.
Definition no_journal : fsJoinJournal := MkFsJoinJournal "" 0 "" "" "" "" "" "" "" false now [].
Definition journal : fsJoinJournal := result_or no_journal (prepare_join any now mutation start).
Definition journal' : fsJoinJournal := result_or no_journal (prepare_join any now emptying start').

Lemma mutation_accepted : prepare_join any now mutation start = Ok journal.
Proof. apply result_or_Ok. vm_compute. reflexivity. Qed.

Lemma mutation_accepted' : prepare_join any now emptying start' = Ok journal'.
Proof. apply result_or_Ok. vm_compute. reflexivity. Qed.

Lemma decoded_by d : map_Forall (λ _ s, json_snapshot s = s) (dk_snapshots d) → decoded d.
Proof. intros H id s. apply H. Qed.

Lemma start_decoded : decoded start.
Proof. apply decoded_by. compute_decision. Qed.

Lemma start_decoded' : decoded start'.
Proof. apply decoded_by. compute_decision. Qed.

Lemma keeps_by j : keeps_registers j ↔ Forall (λ e, ss_GraftParents (fj_After e) ≠ None) (jj_Snapshots j).
Proof. unfold keeps_registers. by rewrite Forall_forall. Qed.

Lemma registers_kept : keeps_registers journal.
Proof. apply keeps_by. compute_decision. Qed.

Lemma register_emptied : ¬ keeps_registers journal'.
Proof. rewrite keeps_by. compute_decision. Qed.

(** The process dies before the second write; the first restart dies too, the second meets an error. *)
Definition faults : list fate := [Succeeds; Dies].
Definition lives : list (list fate) := [[Dies]; [FailsAfter]].
End JournalSamples.

Lemma join_crash_atomic_witness : ∃ d,
  recoverJoinJournals (hexOf (jm_RepoID JournalSamples.mutation))
    (restarts (hexOf (jm_RepoID JournalSamples.mutation))
       (disk_after (ApplyJoin JournalSamples.any JournalSamples.now JournalSamples.mutation JournalSamples.start JournalSamples.faults)) JournalSamples.lives) []
  = Returned (Ok tt) d [].
Proof.
  destruct (join_crash_atomic _ _ _ _ _ JournalSamples.faults JournalSamples.lives JournalSamples.mutation_accepted JournalSamples.start_decoded eq_refl
    JournalSamples.registers_kept) as [(d & Hd & _) _].
  exists d. exact Hd.
Defined.

Lemma recovery_accepts_exact_witness :
  validate_journal (hexOf (jm_RepoID JournalSamples.mutation)) JournalSamples.start JournalSamples.journal = Ok tt ∧
  validate_journal (hexOf (jm_RepoID JournalSamples.emptying)) JournalSamples.start' JournalSamples.journal' ≠ Ok tt.
Proof.
  split.
  - exact (proj2 (recovery_accepts_exact _ _ _ _ _ JournalSamples.mutation_accepted JournalSamples.start_decoded eq_refl) JournalSamples.registers_kept).
  - intros H. apply JournalSamples.register_emptied.
    exact (proj1 (recovery_accepts_exact _ _ _ _ _ JournalSamples.mutation_accepted' JournalSamples.start_decoded' eq_refl) H).
Defined.

Lemma emptied_register_blocks_witness :
  let d := commit JournalSamples.start' (PutJournal JournalSamples.journal') in
  restarts (hexOf JoinSamples.repo) d [[]; []] = d.
Proof.
  intros d. exact (proj1 (emptied_register_blocks (hexOf JoinSamples.repo) JournalSamples.journal' fsJoinPrepared d [] [[]; []]
    JournalSamples.register_emptied eq_refl)).
Defined.

