(* ===== verification/StoreOps.v ===== *)
(** * The operations of the graph store

    Models the operations of the file store that change one snapshot
    ([backend/internal/adapters/store/fs_store.go]): appending to a graft register, replacing it,
    storing a snapshot, promoting its message and moving its memory pointer.  Each reads under its
    locks, decides, and makes at most one durable write.  Proved: what is decided keeps the store
    well formed and registers versioned by their sequence, whatever the write meets, and a
    client's graft event takes effect exactly once however often it is delivered. *)
From S2P Require Import Prelude GoStrings Sha256 Values History Graph Catalog ServerGraph SessionJoin JoinStore JoinJournal.
From Stdlib Require Import Ascii.

(** ** Deciding *)

Definition requireNoPendingJoin (d : disk) : result unit :=
  match dk_journal d with Some _ => Err ErrConflict | None => Ok tt end.

(** The listed snapshots with one replaced: the first with its id. *)
Definition replace_listed (id : string) (snap : ServerSnapshot) (all : list ServerSnapshot) : list ServerSnapshot :=
  match list_find (λ s, ss_ID s = id) all with Some (i, _) => <[i := snap]> all | None => all end.

(** The write of a register that was changed, if no cycle arises. *)
Definition accept_register (d : disk) (repo id : string) (snap : ServerSnapshot) : result (option ServerSnapshot) :=
  all ← ListSnapshots d repo;
  reject_if (snapshotGraphHasCycle (replace_listed id snap all)) ErrConflict ;;
  Ok (Some snap).

(** The loop of [addGraftParents]: the parents seen and those to append. *)
Definition append_graft (id : string) (st : gset string * list string) (a : string) : gset string * list string :=
  if (a =? "") || (a =? id) || bool_decide (a ∈ st.1) then st else ({[a]} ∪ st.1, st.2 ++ [a]).

Definition new_grafts (s : ServerSnapshot) (id : string) (add : list string) : list string :=
  (fold_left (append_graft id) add (list_to_set (elems (ss_Parents s)) ∪ list_to_set (elems (ss_GraftParents s)), [])).2.

(** What [addGraftParents] writes, if anything; [expected] is the sequence a client's event
    was made at. *)
Definition add_graft (d : disk) (repo id : string) (add : list string) (expected : option N) : result (option ServerSnapshot) :=
  for_each server_ValidateContentHash [repo; id] ;;
  for_each server_ValidateContentHash add ;;
  requireNoPendingJoin d ;;
  snap ← GetSnapshot d repo id;
  requireSnapshots d repo add ;;
  let seq := ss_GraftSeq snap in
  match new_grafts snap id add with
  | [] =>
      match expected with
      | None => Ok None
      | Some e =>
          if bool_decide (seq = e) then
            reject_if (bool_decide (seq = MaxGraftSeq)) ErrConflict ;;
            Ok (Some (with_graft snap (ss_GraftParents snap) (ss_Grafted snap) (seq + 1)))
          else if (e <? MaxGraftSeq)%N && bool_decide (seq = e + 1)%N then Ok None
          else Err ErrConflict
      end
  | new =>
      match expected with Some e => reject_if (negb (bool_decide (seq = e))) ErrConflict | None => Ok tt end ;;
      reject_if (bool_decide (seq = MaxGraftSeq)) ErrConflict ;;
      accept_register d repo id (with_graft snap (Some (elems (ss_GraftParents snap) ++ new)) true (seq + 1))
  end.

Definition set_graft (d : disk) (repo id : string) (parents : list string) : result (option ServerSnapshot) :=
  for_each server_ValidateContentHash [repo; id] ;;
  for_each server_ValidateContentHash parents ;;
  requireNoPendingJoin d ;;
  snap ← GetSnapshot d repo id;
  requireSnapshots d repo parents ;;
  let out := (fold_left dedup_parent parents ({[id]} ∪ list_to_set (elems (ss_Parents snap)), [])).2 in
  reject_if (bool_decide (ss_GraftSeq snap = MaxGraftSeq)) ErrConflict ;;
  accept_register d repo id (with_graft snap (Some out) (negb (bool_decide (out = []))) (ss_GraftSeq snap + 1)).

(** A snapshot with its label replaced. *)
Definition with_label (s : ServerSnapshot) (branch message : string) : ServerSnapshot :=
  MkServerSnapshot (ss_ID s) (ss_RepoID s) branch (ss_Branches s) (ss_Parents s) (ss_DocHash s) (ss_DocIdentity s)
    (ss_MemoryHash s) (ss_ClaudeSettings s) (ss_AgentsSettings s) (ss_CodexSettings s) (ss_Provider s) (ss_Fidelity s)
    message (ss_Author s) (ss_CreatedAt s) (ss_Grafted s) (ss_GraftParents s) (ss_GraftSeq s) (ss_SessionID s) (ss_Models s) (ss_CompactionCount s).

Definition with_memory (s : ServerSnapshot) (memory : string) : ServerSnapshot :=
  MkServerSnapshot (ss_ID s) (ss_RepoID s) (ss_Branch s) (ss_Branches s) (ss_Parents s) (ss_DocHash s) (ss_DocIdentity s)
    memory (ss_ClaudeSettings s) (ss_AgentsSettings s) (ss_CodexSettings s) (ss_Provider s) (ss_Fidelity s)
    (ss_Message s) (ss_Author s) (ss_CreatedAt s) (ss_Grafted s) (ss_GraftParents s) (ss_GraftSeq s) (ss_SessionID s) (ss_Models s) (ss_CompactionCount s).

Definition without_branches (s : ServerSnapshot) : ServerSnapshot :=
  MkServerSnapshot (ss_ID s) (ss_RepoID s) (ss_Branch s) None (ss_Parents s) (ss_DocHash s) (ss_DocIdentity s)
    (ss_MemoryHash s) (ss_ClaudeSettings s) (ss_AgentsSettings s) (ss_CodexSettings s) (ss_Provider s) (ss_Fidelity s)
    (ss_Message s) (ss_Author s) (ss_CreatedAt s) (ss_Grafted s) (ss_GraftParents s) (ss_GraftSeq s) (ss_SessionID s) (ss_Models s) (ss_CompactionCount s).

(** A label that is not a hook's was promoted before. *)
Definition update_message (d : disk) (repo id message : string) : result (option ServerSnapshot) :=
  for_each server_ValidateContentHash [repo; id] ;;
  snap ← GetSnapshot d repo id;
  if negb (HasPrefix (ss_Message snap) HookMessagePrefix) then
    reject_if (ss_Message snap <>? message) ErrConflict ;; Ok None
  else Ok (Some (with_label snap (ss_Branch snap) message)).

(** [get_memory] reads the digest the pointer is moved to. *)
Definition swap_memory (get_memory : string → result unit) (d : disk) (repo id expected next : string) : result (option ServerSnapshot) :=
  for_each server_ValidateContentHash [repo; id; next] ;;
  (if expected =? "" then Ok tt else server_ValidateContentHash expected) ;;
  get_memory next ;;
  snap ← GetSnapshot d repo id;
  if ss_MemoryHash snap =? next then Ok None else
  reject_if (ss_MemoryHash snap <>? expected) ErrConflict ;;
  Ok (Some (with_memory snap next)).

Definition StashBranchLabel : string := "(stash)".

(** A settings object that a snapshot names; [get_settings] reads it. *)
Definition settings_present (get_settings : string → result unit) (h : string) : result unit :=
  if h =? "" then Ok tt else match get_settings h with Err ErrNotFound => Err ErrIntegrity | r => r end.

Definition settings_of (s : ServerSnapshot) : list string := [ss_ClaudeSettings s; ss_AgentsSettings s; ss_CodexSettings s].

Definition put_snapshot (get_settings : string → result unit) (d : disk) (s : ServerSnapshot) : result (option ServerSnapshot) :=
  let snap := without_branches s in
  validateSnapshotRefs snap ;;
  for_each (settings_present get_settings) (settings_of snap) ;;
  if bool_decide (is_Some (dk_snapshots d !! ss_ID snap)) then
    existing ← GetSnapshot d (ss_RepoID snap) (ss_ID snap);
    reject_if ((ss_DocHash existing <>? ss_DocHash snap) || (ss_DocIdentity existing <>? ss_DocIdentity snap)) ErrIntegrity ;;
    if ss_Branch snap =? StashBranchLabel then Ok None
    else if ss_Branch existing <>? StashBranchLabel then Ok None
    else Ok (Some (with_label existing (ss_Branch snap) (ss_Message snap)))
  else Ok (Some snap).

(** ** Writing *)

(** An operation writes what it decided, as JSON keeps it. *)
Definition write_decided (id : string) (decide : disk → result (option ServerSnapshot)) : io unit :=
  d ← get_disk;
  match decide d with
  | Err e => fail e
  | Ok None => mret tt
  | Ok (Some s) => perform (PutSnapshot id (json_snapshot s))
  end.

Definition addGraftParents (repo id : string) (add : list string) (expected : option N) : io unit :=
  write_decided id (λ d, add_graft d repo id add expected).
Definition AddGraftParents (repo id : string) (add : list string) : io unit := addGraftParents repo id add None.
Definition AddGraftParentsCAS (repo id : string) (add : list string) (expected : N) : io unit := addGraftParents repo id add (Some expected).
Definition SetGraftParents (repo id : string) (parents : list string) : io unit := write_decided id (λ d, set_graft d repo id parents).
Definition UpdateSnapshotMessage (repo id message : string) : io unit := write_decided id (λ d, update_message d repo id message).
Definition CompareAndSwapSnapshotMemory (get_memory : string → result unit) (repo id expected next : string) : io unit :=
  write_decided id (λ d, swap_memory get_memory d repo id expected next).
Definition PutServerSnapshot (get_settings : string → result unit) (s : ServerSnapshot) : io unit :=
  write_decided (ss_ID s) (λ d, put_snapshot get_settings d s).

(** ** A well formed store *)

(** Every object is a valid snapshot of the repository as JSON decodes it, no journal is left,
    and graft registers name stored snapshots. *)
Record shaped (repo : string) (d : disk) : Prop := {
  sh_sound : sound_store d repo;
  sh_decoded : decoded d;
  sh_idle : dk_journal d = None;
  sh_grafts : ∀ id s p, dk_snapshots d !! id = Some s → p ∈ elems (ss_GraftParents s) → is_Some (dk_snapshots d !! p) }.

Definition store_ok (repo : string) (d : disk) : Prop := shaped repo d ∧ no_cycle (dk_snapshots d).

(** A later state of a snapshot: the same object, and a register replaced only under a higher
    sequence. *)
Record later (s s' : ServerSnapshot) : Prop := {
  la_object : ss_ID s' = ss_ID s ∧ ss_RepoID s' = ss_RepoID s ∧ ss_Parents s' = ss_Parents s ∧
    ss_DocHash s' = ss_DocHash s ∧ ss_DocIdentity s' = ss_DocIdentity s;
  la_seq : (ss_GraftSeq s ≤ ss_GraftSeq s')%N;
  la_register : ss_GraftSeq s' = ss_GraftSeq s → ss_GraftParents s' = ss_GraftParents s ∧ ss_Grafted s' = ss_Grafted s }.

Definition versioned (d d' : disk) : Prop :=
  ∀ id s, dk_snapshots d !! id = Some s → ∃ s', dk_snapshots d' !! id = Some s' ∧ later s s'.

(** ** Lemmas: later states *)

#[export] Instance later_preorder : PreOrder later.
Proof.
  split; [intros s; by split|]. intros a b c [Ho1 Hs1 Hr1] [Ho2 Hs2 Hr2]. split; [|lia|].
  - destruct Ho1 as (? & ? & ? & ? & ?), Ho2 as (? & ? & ? & ? & ?). split_and!; congruence.
  - intros Hq. assert (Hb : ss_GraftSeq b = ss_GraftSeq a) by lia. destruct (Hr1 Hb), (Hr2 ltac:(lia)). split; congruence.
Qed.

#[export] Instance versioned_preorder : PreOrder versioned.
Proof.
  split; [intros d id s Hs; by exists s|]. intros a b c Hab Hbc id s Hs. destruct (Hab id s Hs) as (s1 & H1 & L1).
  destruct (Hbc id s1 H1) as (s2 & H2 & L2). exists s2. split; [done|]. by etrans.
Qed.

Lemma versioned_put d id s s' : dk_snapshots d !! id = Some s → later s s' → versioned d (commit d (PutSnapshot id s')).
Proof.
  intros Hs Hl x t Ht. assert (E : dk_snapshots (commit d (PutSnapshot id s')) = <[id := s']> (dk_snapshots d)) by (by destruct d).
  rewrite E, lookup_insert. case_decide as Hx; [|by exists t]. exists s'. split; [done|]. congruence.
Qed.

Lemma versioned_new d id s : dk_snapshots d !! id = None → versioned d (commit d (PutSnapshot id s)).
Proof.
  intros Hn x t Ht. assert (E : dk_snapshots (commit d (PutSnapshot id s)) = <[id := s]> (dk_snapshots d)) by (by destruct d).
  exists t. split; [|done]. rewrite E, lookup_insert_ne; [done|]. congruence.
Qed.

(** ** Lemmas: what one write keeps *)

Lemma json_idempotent s : json_snapshot (json_snapshot s) = json_snapshot s.
Proof. destruct s as [? ? ? [[|? ?]|] ? ? ? ? ? ? ? ? ? ? ? ? ? [[|? ?]|] ? ? [[|? ?]|] ?]; done. Qed.

Lemma json_valid s : validateSnapshotRefs (json_snapshot s) = validateSnapshotRefs s.
Proof.
  unfold validateSnapshotRefs. cbn [json_snapshot ss_DocIdentity ss_RepoID ss_ID ss_DocHash ss_MemoryHash ss_ClaudeSettings ss_AgentsSettings
    ss_CodexSettings ss_Parents ss_GraftParents ss_GraftSeq]. by rewrite elems_json_slice.
Qed.

Lemma put_snapshots d id s : dk_snapshots (commit d (PutSnapshot id s)) = <[id := s]> (dk_snapshots d).
Proof. by destruct d. Qed.

Lemma shaped_put repo d id s : shaped repo d → ss_ID s = id → ss_RepoID s = repo → validateSnapshotRefs s = Ok tt →
  (∀ p, p ∈ elems (ss_GraftParents s) → is_Some (dk_snapshots d !! p)) → shaped repo (commit d (PutSnapshot id (json_snapshot s))).
Proof.
  intros [[Hr Hs] Hd Hi Hg] Hid Hrepo Hv Hp. assert (Hpresent : ∀ p, is_Some (dk_snapshots d !! p) → is_Some (<[id := json_snapshot s]> (dk_snapshots d) !! p)).
  { intros p Hx. rewrite lookup_insert. case_decide; [by eexists|done]. }
  split; [split; [done|]| | |].
  - intros x t. rewrite put_snapshots, lookup_insert. intros Hx. apply GetSnapshot_Ok. rewrite put_snapshots, lookup_insert.
    case_decide as E; [subst x|by apply GetSnapshot_Ok, Hs].
    injection Hx as <-. split_and!; [done|rewrite <- Hid; by apply valid_hashes|done|]. apply join_snapshot_exact. split_and!; [done|done|by rewrite json_valid].
  - intros x t. rewrite put_snapshots, lookup_insert. case_decide; [intros [= <-]; apply json_idempotent|apply Hd].
  - by destruct d.
  - intros x t p. rewrite put_snapshots, lookup_insert. case_decide.
    + intros [= <-] Hin. cbn [json_snapshot ss_GraftParents] in Hin. rewrite elems_json_slice in Hin. by apply Hpresent, Hp.
    + intros Hx Hin. by apply Hpresent, (Hg x t).
Qed.

Lemma no_cycle_mono g g' : (∀ x y, parent_link g' x y → parent_link g x y) → no_cycle g → no_cycle g'.
Proof. intros Hl Hn x Hx. apply (Hn x). by eapply tc_mono. Qed.

(** A stored snapshot with the same parents adds no link. *)
Lemma same_links g id s s' x y : g !! id = Some s → (∀ p, p ∈ server_ReachabilityParents s' → p ∈ server_ReachabilityParents s) →
  parent_link (<[id := s']> g) x y → parent_link g x y.
Proof.
  intros Hs Hp. unfold parent_link, node_parents. rewrite lookup_insert. case_decide as E; [|done]. subst x. rewrite Hs. apply Hp.
Qed.

Lemma json_links g id s x y : parent_link (<[id := json_snapshot s]> g) x y → parent_link (<[id := s]> g) x y.
Proof. unfold parent_link, node_parents. rewrite !lookup_insert. case_decide; [|done]. cbn [from_option]. by rewrite json_parents. Qed.

(** A decision writes a later state of a stored snapshot, valid and without a cycle. *)
Record decided (repo : string) (d : disk) (id : string) (s s' : ServerSnapshot) : Prop := {
  de_from : GetSnapshot d repo id = Ok s;
  de_later : later s (json_snapshot s');
  de_valid : validateSnapshotRefs s' = Ok tt;
  de_grafts : ∀ p, p ∈ elems (ss_GraftParents s') → is_Some (dk_snapshots d !! p);
  de_acyclic : no_cycle (dk_snapshots d) → no_cycle (<[id := s']> (dk_snapshots d)) }.

Lemma decided_put repo d id s s' : decided repo d id s s' → store_ok repo d →
  store_ok repo (commit d (PutSnapshot id (json_snapshot s'))) ∧ versioned d (commit d (PutSnapshot id (json_snapshot s'))).
Proof.
  intros [Hf Hl Hv Hg Ha] [Hs Hn]. apply GetSnapshot_Ok in Hf as (_ & _ & Hid & Hvs). apply join_snapshot_exact in Hvs as (Eid & Er & _).
  destruct (la_object _ _ Hl) as (Hi & Hr & _). cbn in Hi, Hr. split; [split|by eapply versioned_put].
  - apply shaped_put; [done|congruence|congruence|done|done].
  - rewrite put_snapshots. eapply no_cycle_mono; [apply json_links|]. by apply Ha.
Qed.

(** Whatever its write meets, an operation leaves the store as it was or with what it decided. *)
Lemma write_decided_cases (I : disk → Prop) id decide d fs : I d → (∀ s, decide d = Ok (Some s) → I (commit d (PutSnapshot id (json_snapshot s)))) →
  I (disk_after (write_decided id decide d fs)).
Proof.
  intros H0 Hs. unfold write_decided, mbind, io_bind, attempt, get_disk. destruct (decide d) as [[s|]|e]; [|done|done].
  destruct fs as [|[] fs]; cbn; auto.
Qed.

Lemma decided_step repo id decide d fs : (∀ s', decide d = Ok (Some s') → ∃ s, decided repo d id s s') → store_ok repo d →
  store_ok repo (disk_after (write_decided id decide d fs)) ∧ versioned d (disk_after (write_decided id decide d fs)).
Proof.
  intros H Hd. apply (write_decided_cases (λ d', store_ok repo d' ∧ versioned d d')); [by split|].
  intros s' Hs'. destruct (H s' Hs') as [s Hdec]. by eapply decided_put.
Qed.

(** ** Lemmas: the decisions *)

Lemma stored_valid d repo id s : GetSnapshot d repo id = Ok s → validateSnapshotRefs s = Ok tt ∧ dk_snapshots d !! id = Some s ∧ ss_ID s = id.
Proof. intros (_ & _ & ? & (? & _ & ?)%join_snapshot_exact)%GetSnapshot_Ok. done. Qed.

Lemma graft_later s parents grafted : json_snapshot s = s → later s (json_snapshot (with_graft s parents grafted (ss_GraftSeq s + 1))).
Proof. intros Hj. split; cbn; [done|lia|lia]. Qed.

Lemma accept_register_Ok repo d id snap r : GetSnapshot d repo id = Ok snap → ∀ s', ss_ID s' = id →
  accept_register d repo id s' = Ok r → r = Some s' ∧ no_cycle (<[id := s']> (dk_snapshots d)).
Proof.
  intros Hg s' Hid H. apply stored_valid in Hg as (_ & Hs & _). unfold accept_register in H. apply bind_Ok in H as (all & (Hn & Hin & Hgr)%listed & H).
  apply bind_Ok in H as ([] & Hc%reject_if_Ok & [= <-]). split; [done|]. apply has_cycle_spec in Hc. unfold replace_listed in Hc.
  destruct (list_find _ all) as [[i t]|] eqn:E.
  - apply list_find_Some in E as (Hi & Ht & _). destruct (graph_of_insert all i t s' Hn Hi) as [_ Hgi]; [congruence|]. by rewrite Hgi, Hid, Hgr in Hc.
  - exfalso. rewrite list_find_None in E. assert (Hx : id ∈ ss_ID <$> all) by (apply Hin; by eexists). apply list_elem_of_fmap in Hx as (t & Ht & Hin').
    rewrite Forall_forall in E. by apply (E t).
Qed.

Lemma append_graft_fold id add seen new : let r := (fold_left (append_graft id) add (seen, new)).2 in
  ∀ p, p ∈ r ↔ p ∈ new ∨ (p ∈ add ∧ p ≠ "" ∧ p ≠ id ∧ p ∉ seen).
Proof.
  revert seen new. induction add as [|a add IH]; intros seen new; cbn [fold_left]; cbv zeta; [set_solver|].
  intros p. unfold append_graft at 2. cbn [fst snd]. destruct ((a =? "") || (a =? id) || bool_decide (a ∈ seen)) eqn:E.
  - rewrite IH. apply orb_true_iff in E as [[E|E]%orb_true_iff|E]; bools; set_solver.
  - bools. rewrite IH. destruct (decide (p = a)) as [->|Hne]; set_solver.
Qed.

Lemma new_grafts_elem s id add p : p ∈ new_grafts s id add ↔
  p ∈ add ∧ p ≠ "" ∧ p ≠ id ∧ p ∉ elems (ss_Parents s) ∧ p ∉ elems (ss_GraftParents s).
Proof. unfold new_grafts. rewrite append_graft_fold. set_solver. Qed.

Lemma required_present d repo ids p : requireSnapshots d repo ids = Ok tt → p ∈ ids → p ≠ "" → is_Some (dk_snapshots d !! p).
Proof. intros H Hp Hn. by destruct (required_Ok _ _ _ H p Hp). Qed.

Lemma seq_below_max s : validateSnapshotRefs s = Ok tt → ss_GraftSeq s ≠ MaxGraftSeq → (ss_GraftSeq s + 1 ≤ MaxGraftSeq)%N.
Proof. intros (_ & _ & H)%valid_hashes Hn. lia. Qed.

Lemma valid_register s parents g seq : validateSnapshotRefs s = Ok tt → Forall is_content_hash (elems parents) → (seq ≤ MaxGraftSeq)%N →
  validateSnapshotRefs (with_graft s parents g seq) = Ok tt.
Proof.
  intros Hv Hp Hs. pose proof (valid_graft s (elems parents) g seq Hv Hp Hs) as H. rewrite json_valid in H.
  unfold validateSnapshotRefs in *. by destruct parents.
Qed.

(** A register that passed the cycle check. *)
Lemma register_decided repo d id s parents g : store_ok repo d → GetSnapshot d repo id = Ok s → ss_GraftSeq s ≠ MaxGraftSeq →
  (∀ p, p ∈ elems parents → is_Some (dk_snapshots d !! p)) → (no_cycle (dk_snapshots d) → no_cycle (<[id := with_graft s parents g (ss_GraftSeq s + 1)]> (dk_snapshots d))) →
  decided repo d id s (with_graft s parents g (ss_GraftSeq s + 1)).
Proof.
  intros [[[Hr Hs] Hd Hi Hg] Hn] Hget Hm Hp Ha. pose proof (stored_valid _ _ _ _ Hget) as (Hv & Hid & _). split; [done| | |exact Hp|exact Ha].
  - apply graft_later. by eapply Hd.
  - apply valid_register; [done| |by apply seq_below_max]. apply Forall_forall. intros p (t & Ht)%Hp. apply Hs in Ht. by apply GetSnapshot_Ok in Ht as (_ & ? & _).
Qed.

Lemma add_graft_decided repo d id add expected s' : store_ok repo d → add_graft d repo id add expected = Ok (Some s') → ∃ s, decided repo d id s s'.
Proof.
  intros Hok H. unfold add_graft in H. do 3 (apply bind_Ok in H as ([] & _ & H)). apply bind_Ok in H as (s & Hget & H).
  apply bind_Ok in H as ([] & Hreq & H). cbv zeta in H. pose proof (stored_valid _ _ _ _ Hget) as (Hv & Hs & Hid). exists s.
  pose proof (λ p, sh_grafts _ _ (proj1 Hok) id s p Hs) as Hold. destruct (new_grafts s id add) as [|a new] eqn:En.
  - destruct expected as [e|]; [|done]. destruct (bool_decide (ss_GraftSeq s = e)).
    + apply bind_Ok in H as ([] & Hm%reject_if_Ok & [= <-]). bools. apply register_decided; [done|done|done|exact Hold|].
      apply no_cycle_mono. intros x y. apply same_links with s; [done|]. intros p. by rewrite !server_parents_elem.
    + by destruct (_ && _).
  - rewrite <- En in H. clear a new En. apply bind_Ok in H as ([] & _ & H). apply bind_Ok in H as ([] & Hm%reject_if_Ok & H). bools.
    apply (accept_register_Ok repo d id s) in H as [[= ->] Hc]; [|done|done]. apply register_decided; [done|done|done| |done].
    intros p [Hp|(Hp & Hpn & _)%new_grafts_elem]%elem_of_app; [by apply Hold|by eapply required_present].
Qed.

Lemma set_graft_decided repo d id parents s' : store_ok repo d → set_graft d repo id parents = Ok (Some s') → ∃ s, decided repo d id s s'.
Proof.
  intros Hok H. unfold set_graft in H. do 3 (apply bind_Ok in H as ([] & _ & H)). apply bind_Ok in H as (s & Hget & H).
  apply bind_Ok in H as ([] & Hreq & H). cbv zeta in H. pose proof (stored_valid _ _ _ _ Hget) as (Hv & Hs & Hid). exists s.
  apply bind_Ok in H as ([] & Hm%reject_if_Ok & H). bools. apply (accept_register_Ok repo d id s) in H as [[= ->] Hc]; [|done|done].
  apply register_decided; [done|done|done| |done]. intros p Hp.
  apply (dedupHashParents_spec id (elems (ss_Parents s)) parents) in Hp as (Hp & Hn & _). by eapply required_present.
Qed.

(** Writes beside the register. *)
Lemma kept_decided repo d id s s' : store_ok repo d → GetSnapshot d repo id = Ok s → later s (json_snapshot s') → validateSnapshotRefs s' = Ok tt →
  ss_GraftParents s' = ss_GraftParents s → decided repo d id s s'.
Proof.
  intros Hok Hget Hl Hv Hg. pose proof (stored_valid _ _ _ _ Hget) as (_ & Hs & _). split; [done|done|done| |].
  - intros p. rewrite Hg. by apply (sh_grafts _ _ (proj1 Hok) id s p).
  - apply no_cycle_mono. intros x y. apply same_links with s; [done|]. intros p. rewrite !server_parents_elem, Hg.
    destruct (la_object _ _ Hl) as (_ & _ & Hp & _). cbn in Hp. by rewrite Hp.
Qed.

Lemma label_later s b m : json_snapshot s = s → later s (json_snapshot (with_label s b m)).
Proof.
  intros Hj. change (json_snapshot (with_label s b m)) with (with_label (json_snapshot s) b m). rewrite Hj. by split.
Qed.

Lemma label_valid s b m : validateSnapshotRefs s = Ok tt → validateSnapshotRefs (with_label s b m) = Ok tt.
Proof. done. Qed.

Lemma message_decided repo d id message s' : store_ok repo d → update_message d repo id message = Ok (Some s') → ∃ s, decided repo d id s s'.
Proof.
  intros Hok H. unfold update_message in H. apply bind_Ok in H as ([] & _ & H). apply bind_Ok in H as (s & Hget & H).
  destruct (negb _); [by apply bind_Ok in H as ([] & _ & H)|]. injection H as <-. exists s. pose proof (stored_valid _ _ _ _ Hget) as (Hv & Hs & _).
  apply kept_decided; [done|done| |by apply label_valid|done]. apply label_later. by eapply (sh_decoded _ _ (proj1 Hok)).
Qed.

Lemma memory_valid s h : validateSnapshotRefs s = Ok tt → is_content_hash h → validateSnapshotRefs (with_memory s h) = Ok tt.
Proof.
  unfold validateSnapshotRefs. cbn [with_memory ss_DocIdentity ss_RepoID ss_ID ss_DocHash ss_MemoryHash ss_ClaudeSettings ss_AgentsSettings
    ss_CodexSettings ss_Parents ss_GraftParents ss_GraftSeq]. intros H Hh. do 3 (apply bind_Ok in H as ([] & -> & H); cbn [mbind result_bind]).
  apply bind_Ok in H as ([] & Ho & H). cbn [for_each] in Ho |- *. apply bind_Ok in Ho as ([] & _ & Ho).
  rewrite (bool_decide_false (h = "")) by (by apply content_hash_nonempty). rewrite (proj2 (server_hash_Ok h) Hh). cbn [mbind result_bind].
  rewrite Ho. exact H.
Qed.

Lemma memory_decided get repo d id expected next s' : store_ok repo d → swap_memory get d repo id expected next = Ok (Some s') → ∃ s, decided repo d id s s'.
Proof.
  intros Hok H. unfold swap_memory in H. apply bind_Ok in H as ([] & Hh%for_each_Ok & H). rewrite !Forall_cons, !server_hash_Ok in Hh.
  do 2 (apply bind_Ok in H as ([] & _ & H)). apply bind_Ok in H as (s & Hget & H). destruct (bool_decide _); [done|].
  apply bind_Ok in H as ([] & _ & [= <-]). exists s. pose proof (stored_valid _ _ _ _ Hget) as (Hv & Hs & _).
  apply kept_decided; [done|done| |apply memory_valid; [done|apply Hh]|done].
  pose proof (sh_decoded _ _ (proj1 Hok) id s Hs) as Hj. change (json_snapshot (with_memory s next)) with (with_memory (json_snapshot s) next). rewrite Hj. by split.
Qed.

(** ** Lemmas: events delivered again *)

Lemma required_again d repo ids : sound_store d repo → (∀ id, id ∈ ids → id = "" ∨ is_Some (dk_snapshots d !! id)) → requireSnapshots d repo ids = Ok tt.
Proof.
  intros [_ Hs] H. unfold requireSnapshots. generalize (∅ : gset string). induction ids as [|id ids IH]; intros seen; [done|]. cbn [fold_each].
  destruct ((id =? "") || bool_decide (id ∈ seen)) eqn:E; [cbn [mbind result_bind]; apply IH; intros x Hx; apply H; by right|].
  destruct (H id ltac:(left)) as [->|(s & Hid)]; [done|]. rewrite (Hs id s Hid). cbn [mbind result_bind]. apply IH. intros x Hx. apply H. by right.
Qed.

Lemma new_grafts_nil s id add : new_grafts s id add = [] ↔ ∀ p, p ∈ add → p = "" ∨ p = id ∨ p ∈ server_ReachabilityParents s.
Proof.
  split.
  - intros H p Hp. destruct (decide (p = "")); [by left|]. destruct (decide (p = id)); [by right; left|]. right; right. rewrite server_parents_elem.
    destruct (decide (p ∈ elems (ss_Parents s))); [by left|]. destruct (decide (p ∈ elems (ss_GraftParents s))); [by right|].
    assert (Hin : p ∈ new_grafts s id add) by (by apply new_grafts_elem). rewrite H in Hin. by apply elem_of_nil in Hin.
  - intros H. destruct (new_grafts s id add) as [|a new] eqn:E; [done|]. assert (Ha : a ∈ new_grafts s id add) by (rewrite E; left).
    apply new_grafts_elem in Ha as (Hin & H1 & H2 & H3 & H4). destruct (H a Hin) as [?|[?|Hr]]; [done..|]. rewrite server_parents_elem in Hr. naive_solver.
Qed.

(** What an accepted event left: the register one step after the one it was made at, with its edges. *)
Definition event_applied (id : string) (add : list string) (e : N) (s : ServerSnapshot) : Prop :=
  ss_GraftSeq s = (e + 1)%N ∧ (e < MaxGraftSeq)%N ∧ new_grafts s id add = [].

Lemma event_accepted d repo id add e r : store_ok repo d → add_graft d repo id add (Some e) = Ok r → ∃ s, GetSnapshot d repo id = Ok s ∧
  ((r = None ∧ event_applied id add e s) ∨
   ∃ parents g, r = Some (with_graft s parents g (e + 1)) ∧ ss_GraftSeq s = e ∧ event_applied id add e (with_graft s parents g (e + 1))).
Proof.
  intros Hok H. unfold add_graft in H. do 3 (apply bind_Ok in H as ([] & _ & H)). apply bind_Ok in H as (s & Hget & H). exists s. split; [done|].
  apply bind_Ok in H as ([] & _ & H). cbv zeta in H. pose proof (stored_valid _ _ _ _ Hget) as (Hv & _ & Hid).
  assert (Hle : (ss_GraftSeq s ≤ MaxGraftSeq)%N) by (by apply valid_hashes in Hv as (_ & _ & ?)).
  destruct (new_grafts s id add) as [|a new] eqn:En.
  - destruct (bool_decide (ss_GraftSeq s = e)) eqn:E; bools.
    + apply bind_Ok in H as ([] & Hm%reject_if_Ok & [= <-]). bools. subst e. right. exists (ss_GraftParents s), (ss_Grafted s).
      split_and!; [done|done|]. split; [done|]. split; [lia|]. by apply new_grafts_nil; rewrite new_grafts_nil in En.
    + destruct (_ && _) eqn:E'; [|done]. injection H as <-. left. split; [done|]. apply andb_true_iff in E' as [Hlt Hq]. bools. split; [done|]. split; [by apply N.ltb_lt|done].
  - rewrite <- En in H. apply bind_Ok in H as ([] & He%reject_if_Ok & H). apply bind_Ok in H as ([] & Hm%reject_if_Ok & H). bools. subst e.
    apply (accept_register_Ok repo d id s) in H as [-> _]; [|done|done]. right. do 2 eexists. split; [done|]. split; [done|]. split; [done|]. split; [lia|].
    apply new_grafts_nil. intros p Hp. rewrite server_parents_elem. cbn [with_graft ss_Parents ss_GraftParents].
    change (elems (Some ?l)) with l. rewrite elem_of_app, new_grafts_elem. destruct (decide (p = "")), (decide (p = id)), (decide (p ∈ elems (ss_Parents s))), (decide (p ∈ elems (ss_GraftParents s))); naive_solver.
Qed.

(** Delivered again, an accepted event is acknowledged without a write. *)
Lemma event_again d d2 repo id add e r s2 : add_graft d repo id add (Some e) = Ok r → (∀ p, is_Some (dk_snapshots d !! p) → is_Some (dk_snapshots d2 !! p)) →
  shaped repo d2 → GetSnapshot d2 repo id = Ok s2 → event_applied id add e s2 → add_graft d2 repo id add (Some e) = Ok None.
Proof.
  intros H Hp Hsh Hget (Hq & Hlt & Hn). unfold add_graft in H |- *. apply bind_Ok in H as ([] & -> & H). cbn [mbind result_bind].
  apply bind_Ok in H as ([] & -> & H). cbn [mbind result_bind]. apply bind_Ok in H as ([] & _ & H). apply bind_Ok in H as (s & _ & H).
  apply bind_Ok in H as ([] & Hreq & _). unfold requireNoPendingJoin. rewrite (sh_idle _ _ Hsh). cbn [mbind result_bind]. rewrite Hget. cbn [mbind result_bind].
  rewrite required_again; [|apply Hsh|]; [|intros p Hin; destruct (required_Ok _ _ _ Hreq p Hin); auto]. cbn [mbind result_bind]. cbv zeta. rewrite Hn, Hq.
  rewrite bool_decide_false by lia. rewrite bool_decide_true by done. rewrite (proj2 (N.ltb_lt e MaxGraftSeq) Hlt). done.
Qed.

Lemma event_outcome repo id add e d d2 : store_ok repo d → AddGraftParentsCAS repo id add e d [] = Returned (Ok tt) d2 [] →
  ∃ s2, (GetSnapshot d2 repo id = Ok s2 ∧ event_applied id add e s2) ∧ AddGraftParentsCAS repo id add e d2 [] = Returned (Ok tt) d2 [].
Proof.
  intros Hok H. unfold AddGraftParentsCAS, addGraftParents, write_decided, mbind, io_bind, attempt, get_disk in H |- *.
  destruct (add_graft d repo id add (Some e)) as [r|err] eqn:Ha; [|done]. pose proof (event_accepted _ _ _ _ _ _ Hok Ha) as (s & Hs & Hcase).
  destruct Hcase as [[-> He]|(parents & g & -> & Hq & He)].
  - injection H as <-. exists s. split; [done|]. by rewrite Ha.
  - cbn in H. injection H as <-. destruct (add_graft_decided _ _ _ _ _ _ Hok Ha) as [s1 Hd]. destruct (decided_put _ _ _ _ _ Hd Hok) as [Hok2 _].
    set (s2 := json_snapshot (with_graft s parents g (e + 1))) in *.
    assert (Hs2 : GetSnapshot (commit d (PutSnapshot id s2)) repo id = Ok s2).
    { apply (sh_sound _ _ (proj1 Hok2)). by rewrite put_snapshots, lookup_insert_eq. }
    assert (He2 : event_applied id add e s2).
    { destruct He as (? & ? & Hn). split; [done|]. split; [done|]. apply new_grafts_nil. rewrite new_grafts_nil in Hn. intros p Hp. subst s2.
      rewrite json_parents. by apply Hn. }
    exists s2. split; [done|]. rewrite (event_again d _ repo id add e _ s2 Ha); [done| |apply Hok2|done|done].
    intros p Hp. rewrite put_snapshots, lookup_insert. case_decide; [by eexists|done].
Qed.

Lemma event_stale d repo id add e s : GetSnapshot d repo id = Ok s → (e + 1 < ss_GraftSeq s)%N → ∃ err, add_graft d repo id add (Some e) = Err err.
Proof.
  intros Hget Hq. destruct (add_graft d repo id add (Some e)) as [r|err] eqn:H; [|by exists err]. exfalso. unfold add_graft in H.
  do 3 (apply bind_Ok in H as ([] & _ & H)). apply bind_Ok in H as (s' & Hg & H). assert (s' = s) by congruence. subst s'.
  apply bind_Ok in H as ([] & _ & H). cbv zeta in H. rewrite (bool_decide_false (ss_GraftSeq s = e)) in H by lia.
  destruct (new_grafts s id add); [|by apply bind_Ok in H as ([] & ?%reject_if_Ok & _)]. rewrite (bool_decide_false (ss_GraftSeq s = (e + 1)%N)) in H by lia.
  by rewrite andb_false_r in H.
Qed.

(** ** Claims *)

(** C13: A graft event takes effect exactly once.  Suppose that delivering a client's event, made at
    a sequence, is acknowledged.  Then it is acknowledged with the same outcome when it is
    delivered again after a first delivery that met any faults: lost before its write, after it,
    or a crash.  The register then is one step after the event's sequence and every edge of the
    event is among the parents.  An event that was superseded, by two or more steps, is refused
    and changes nothing. *)
Theorem graft_event_exactly_once repo id add e d d2 fs : store_ok repo d →
  AddGraftParentsCAS repo id add e d [] = Returned (Ok tt) d2 [] →
  AddGraftParentsCAS repo id add e (disk_after (AddGraftParentsCAS repo id add e d fs)) [] = Returned (Ok tt) d2 [] ∧
  (∃ s2, GetSnapshot d2 repo id = Ok s2 ∧ ss_GraftSeq s2 = (e + 1)%N ∧
    ∀ p, p ∈ add → p = "" ∨ p = id ∨ p ∈ server_ReachabilityParents s2) ∧
  ∀ d3 s3, GetSnapshot d3 repo id = Ok s3 → (e + 1 < ss_GraftSeq s3)%N →
    ∃ err, AddGraftParentsCAS repo id add e d3 fs = Returned (Err err) d3 fs.
Proof.
  intros Hok H. split; [|split].
  - destruct (event_outcome repo id add e d d2 Hok H) as (_ & _ & Hagain). pose proof (write_decided_cases (λ d', d' = d ∨ d' = d2) id (λ d, add_graft d repo id add (Some e)) d fs) as Hc.
    destruct Hc as [E|E]; [by left| | |].
    + intros s' Hs'. right. unfold AddGraftParentsCAS, addGraftParents, write_decided, mbind, io_bind, attempt, get_disk in H. rewrite Hs' in H. by injection H as <-.
    + unfold AddGraftParentsCAS, addGraftParents in *. by rewrite E.
    + unfold AddGraftParentsCAS, addGraftParents in *. by rewrite E.
  - destruct (event_outcome repo id add e d d2 Hok H) as (s2 & (Hs2 & Hq & _ & Hn) & _). exists s2. split_and!; [done|done|]. by apply new_grafts_nil.
  - intros d3 s3 Hs3 Hq. destruct (event_stale d3 repo id add e s3 Hs3 Hq) as [err He]. exists err.
    unfold AddGraftParentsCAS, addGraftParents, write_decided, mbind, io_bind, attempt, get_disk. by rewrite He.
Qed.

(** ** A store and an event *)

Lemma store_ok_by repo d all : ListSnapshots d repo = Ok all → snapshotGraphHasCycle all = false → dk_journal d = None →
  map_Forall (λ _ s, json_snapshot s = s) (dk_snapshots d) →
  map_Forall (λ _ s, Forall (λ p, is_Some (dk_snapshots d !! p)) (elems (ss_GraftParents s))) (dk_snapshots d) → store_ok repo d.
Proof.
  intros Hl Hc Hj Hd Hg. split; [split|].
  - by apply ListSnapshots_Ok in Hl as [? _].
  - intros id s. apply Hd.
  - done.
  - intros id s p Hs Hp. pose proof (Hg id s Hs) as H. rewrite Forall_forall in H. by apply H.
  - apply has_cycle_spec in Hc. by apply listed in Hl as (_ & _ & <-).
Qed.

Module StoreSamples.
Import JoinSamples JournalSamples.

Definition d0 : disk := stored_of [snapshot "r" [] []; snapshot "a" [] []] ∅.
Definition listing : list ServerSnapshot := result_or [] (ListSnapshots d0 repo).

Lemma d0_ok : store_ok repo d0.
Proof.
  apply (store_ok_by _ _ listing); [apply result_or_Ok; vm_compute; reflexivity|vm_compute; reflexivity|reflexivity|compute_decision|compute_decision].
Qed.

(** A graft event and its disk. *)
Definition grafted : disk := disk_after (AddGraftParentsCAS repo (hash "r") [hash "a"] 0 d0 []).

Lemma event_acknowledged : AddGraftParentsCAS repo (hash "r") [hash "a"] 0 d0 [] = Returned (Ok tt) grafted [].
Proof. vm_compute. reflexivity. Qed.

Lemma d0_has_r : GetSnapshot d0 repo (hash "r") = Ok (snapshot "r" [] []).
Proof. vm_compute. reflexivity. Qed.
End StoreSamples.

Lemma graft_event_exactly_once_witness :
  AddGraftParentsCAS JoinSamples.repo (JoinSamples.hash "r") [JoinSamples.hash "a"] 0
    (disk_after (AddGraftParentsCAS JoinSamples.repo (JoinSamples.hash "r") [JoinSamples.hash "a"] 0 StoreSamples.d0 [FailsAfter])) []
  = Returned (Ok tt) StoreSamples.grafted [].
Proof. exact (proj1 (graft_event_exactly_once _ _ _ _ _ _ [FailsAfter] StoreSamples.d0_ok StoreSamples.event_acknowledged)). Defined.
