(* ===== verification/StorePublication.v ===== *)
(** * Publications and the store as a state machine

    Models how the service publishes snapshots: what it takes from a client, the validation of a
    batch against the stored graph and the loop that stores it
    ([backend/internal/app/document_publication_algorithms.go],
    [backend/internal/domain/snapshot_validation.go]).  With the operations of StoreOps and the
    joins of JoinJournal it forms the step relation of the store, one operation at a time, as
    the repository transactions of the service order them.  Its reachable states are proved well
    formed and registers versioned; a publication stores what was checked; and without
    transactions, which the file store does not implement, an interleaved append closes a cycle. *)
From S2P Require Import Prelude GoStrings Sha256 Values History Graph Catalog ServerGraph SessionJoin JoinStore JoinJournal StoreOps.
From Stdlib Require Import Ascii.

(** ** Publishing snapshots *)

Definition server_ValidateOptionalContentHash (h : string) : result unit := if h =? "" then Ok tt else server_ValidateContentHash h.

Definition ValidateSnapshotHashes (s : ServerSnapshot) : result unit :=
  for_each server_ValidateContentHash [ss_RepoID s; ss_ID s; ss_DocHash s] ;;
  reject_if (ss_ID s <>? ss_DocHash s) ErrIntegrity ;;
  for_each server_ValidateOptionalContentHash [ss_MemoryHash s; ss_ClaudeSettings s; ss_AgentsSettings s; ss_CodexSettings s] ;;
  for_each server_ValidateContentHash (elems (ss_Parents s)) ;;
  for_each server_ValidateContentHash (elems (ss_GraftParents s)).

(** One incoming snapshot: a stored one must agree with the object and not exceed its register,
    a new one must have none. *)
Definition merge_incoming (st : server_graph * gset string) (snap : ServerSnapshot) : result (server_graph * gset string) :=
  let '(graph, ids) := st in
  reject_if (bool_decide (ss_ID snap ∈ ids)) ErrIntegrity ;;
  let ids := {[ss_ID snap]} ∪ ids in
  match graph !! ss_ID snap with
  | Some current =>
      reject_if (negb (bool_decide (elems (ss_Parents current) = elems (ss_Parents snap)))) ErrIntegrity ;;
      for_each (λ p, reject_if (negb (bool_decide (p ∈ elems (ss_GraftParents current)))) ErrIntegrity) (elems (ss_GraftParents snap)) ;;
      reject_if (ss_Grafted snap && negb (ss_Grafted current)) ErrIntegrity ;;
      reject_if (ss_GraftSeq current <? ss_GraftSeq snap)%N ErrIntegrity ;;
      Ok (graph, ids)
  | None =>
      reject_if (ss_Grafted snap || negb (bool_decide (elems (ss_GraftParents snap) = [])) || negb (bool_decide (ss_GraftSeq snap = 0)%N)) ErrIntegrity ;;
      Ok (<[ss_ID snap := snap]> graph, ids)
  end.

(** The visit of a snapshot; a cycle or an absent parent is an error. *)
Definition visit_parent (graph : server_graph) (visit : colours → string → result colours) (id : string)
    (st : colours * gset string) (parent : string) : result (colours * gset string) :=
  reject_if (bool_decide (parent = id)) ErrIntegrity ;;
  reject_if (bool_decide (parent ∈ st.2)) ErrIntegrity ;;
  reject_if (negb (bool_decide (is_Some (graph !! parent)))) ErrIntegrity ;;
  state ← visit st.1 parent;
  Ok (state, {[parent]} ∪ st.2).

Fixpoint visit_update (graph : server_graph) (fuel : nat) (st : colours) (id : string) : result colours :=
  match st !! id with
  | Some 1%N => Err ErrIntegrity
  | Some 2%N => Ok st
  | _ =>
      match graph !! id with
      | None => Err ErrIntegrity
      | Some snap =>
          match fuel with
          | O => Err ErrOutOfFuel
          | S fuel =>
              r ← fold_each (visit_parent graph (visit_update graph fuel) id) (server_ReachabilityParents snap) (<[id := 1%N]> st, ∅);
              Ok (<[id := 2%N]> r.1)
          end
      end
  end.

Definition ValidateSnapshotGraphUpdate (existing incoming : list ServerSnapshot) : result unit :=
  '(graph, ids) ← fold_each merge_incoming incoming (graph_of existing, ∅);
  fold_each (visit_update graph (size graph)) (elements ids) ∅ ;; Ok tt.

Definition with_repo (s : ServerSnapshot) (repo : string) : ServerSnapshot :=
  MkServerSnapshot (ss_ID s) repo (ss_Branch s) (ss_Branches s) (ss_Parents s) (ss_DocHash s) (ss_DocIdentity s)
    (ss_MemoryHash s) (ss_ClaudeSettings s) (ss_AgentsSettings s) (ss_CodexSettings s) (ss_Provider s) (ss_Fidelity s)
    (ss_Message s) (ss_Author s) (ss_CreatedAt s) (ss_Grafted s) (ss_GraftParents s) (ss_GraftSeq s) (ss_SessionID s) (ss_Models s) (ss_CompactionCount s).

(** What the service takes from a client's snapshot.  [docs] are the hashes of the documents
    submitted with it, all of the legacy identity; [verify] asks the document source for one that
    was stored before. *)
Definition normalize (docs : gset string) (verify : ServerSnapshot → result unit) (get_settings : string → result unit)
    (repo : string) (s : ServerSnapshot) : result ServerSnapshot :=
  let snap := without_branches (with_repo s repo) in
  ValidateSnapshotHashes snap ;;
  (if bool_decide (ss_DocHash snap ∈ docs) then reject_if (ss_DocIdentity snap <>? "") ErrIntegrity
   else match verify snap with Err ErrNotFound => Err ErrIntegrity | r => r end) ;;
  for_each (settings_present get_settings) (settings_of snap) ;;
  Ok (with_memory snap "").

(** The counts of snapshots; those of documents are the document store's. *)
Record CommitOutput := MkCommitOutput { co_StoredSnapshots : N; co_DedupedSnapshots : N }.

Definition stored_one (out : CommitOutput) : CommitOutput := MkCommitOutput (co_StoredSnapshots out + 1) (co_DedupedSnapshots out).
Definition deduped_one (out : CommitOutput) : CommitOutput := MkCommitOutput (co_StoredSnapshots out) (co_DedupedSnapshots out + 1).

Definition lift {A} (r : result A) : io A := λ d fs, Returned r d fs.

(** One snapshot of a publication; [graph_changed] records that a stored one was changed. *)
Definition put_one (get_settings : string → result unit) (graph_changed : result unit) (s : ServerSnapshot) (out : CommitOutput) : io CommitOutput :=
  d ← get_disk;
  match GetSnapshot d (ss_RepoID s) (ss_ID s) with
  | Ok before =>
      PutServerSnapshot get_settings s ;;
      d ← get_disk;
      after ← lift (GetSnapshot d (ss_RepoID s) (ss_ID s));
      (if bool_decide (before = after) then mret tt else lift graph_changed) ;;
      mret (deduped_one out)
  | Err ErrNotFound => PutServerSnapshot get_settings s ;; mret (stored_one out)
  | Err e => fail e
  end.

Fixpoint put_all (get_settings : string → result unit) (graph_changed : result unit) (snaps : list ServerSnapshot) (out : CommitOutput) : io CommitOutput :=
  match snaps with
  | [] => mret out
  | s :: snaps => out ← put_one get_settings graph_changed s out; put_all get_settings graph_changed snaps out
  end.

(** What surrounds the snapshots of a publication: the source of stored documents, settings
    objects, whether the store is bound to a repository, writing the submitted documents and the
    revision of the graph. *)
Record publication_ports := MkPublicationPorts {
  pp_verify : ServerSnapshot → result unit;
  pp_settings : string → result unit;
  pp_bound : result unit;
  pp_put_docs : result unit;
  pp_graph_changed : result unit }.

(** The snapshots of a publication: all are checked before the first one is stored. *)
Definition checked_batch (ports : publication_ports) (docs : gset string) (repo : string) (incoming : list ServerSnapshot) (d : disk) : result (list ServerSnapshot) :=
  snaps ← fold_each (λ out s, s ← normalize docs (pp_verify ports) (pp_settings ports) repo s; Ok (out ++ [s])) incoming [];
  pp_bound ports ;;
  existing ← ListSnapshots d repo;
  ValidateSnapshotGraphUpdate existing snaps ;;
  pp_put_docs ports ;;
  Ok snaps.

Definition publish_snapshots (ports : publication_ports) (docs : gset string) (repo : string) (incoming : list ServerSnapshot) : io CommitOutput :=
  d ← get_disk;
  snaps ← lift (checked_batch ports docs repo incoming d);
  put_all (pp_settings ports) (pp_graph_changed ports) snaps (MkCommitOutput 0 0).

(** ** The store as a state machine

    One step is one operation with the faults its writes meet, a publication included, or a join,
    accepted or not, with the restarts that follow it up to one whose recovery succeeds.  There
    is no step from a journal that no restart accepts, and none while a journal is pending. *)
Inductive store_step (repo : string) : relation disk :=
  | step_add id add expected d fs : store_step repo d (disk_after (addGraftParents repo id add expected d fs))
  | step_set id parents d fs : store_step repo d (disk_after (SetGraftParents repo id parents d fs))
  | step_message id message d fs : store_step repo d (disk_after (UpdateSnapshotMessage repo id message d fs))
  | step_memory get_memory id expected next d fs : store_step repo d (disk_after (CompareAndSwapSnapshotMemory get_memory repo id expected next d fs))
  | step_publish ports docs incoming d fs : store_step repo d (disk_after (publish_snapshots ports docs repo incoming d fs))
  | step_join check now m d fs lives d' : jm_RepoID m = repo →
      recoverJoinJournals (hexOf repo) (restarts (hexOf repo) (disk_after (ApplyJoin check now m d fs)) lives) [] = Returned (Ok tt) d' [] →
      store_step repo d d'.

(** ** Lemmas: the validation of a batch *)

(** A visit that accepts colours as the search for cycles does. *)
Lemma visit_parents_visit graph f g id : (∀ st p st', f st p = Ok st' → g st p = Ok (Some st')) → ∀ ps st seen r,
  fold_each (visit_parent graph f id) ps (st, seen) = Ok r → visit_all g ps st = Ok (Some r.1).
Proof.
  intros Hfg ps. induction ps as [|p ps IH]; intros st seen r H; cbn [fold_each] in H; [by injection H as <-|].
  apply bind_Ok in H as ([st1 seen1] & Hp & H). unfold visit_parent in Hp. do 3 (apply bind_Ok in Hp as ([] & _ & Hp)).
  apply bind_Ok in Hp as (st' & Hv%Hfg & [= <- <-]). cbn in Hv. unfold visit_all in *. cbn [fold_each]. rewrite Hv. by eapply IH.
Qed.

Lemma visit_update_visit graph fuel st id st' : visit_update graph fuel st id = Ok st' → visit graph fuel st id = Ok (Some st').
Proof.
  revert st id st'. induction fuel as [|fuel IH]; intros st id st'; cbn [visit_update visit];
    destruct (st !! id) as [[|[[]|[]|]]|]; try done; try (by intros [= ->]); destruct (graph !! id) as [s|]; try done;
    intros H; apply bind_Ok in H as (r & Hr%(visit_parents_visit _ _ _ _ IH) & [= <-]); by rewrite Hr.
Qed.

Lemma visit_parents_fuel graph f g id : (∀ st p st', f st p = Ok st' → g st p = Ok (Some st')) →
  (∀ st p, f st p = Err ErrOutOfFuel → g st p = Err ErrOutOfFuel) → ∀ ps st seen,
  fold_each (visit_parent graph f id) ps (st, seen) = Err ErrOutOfFuel → visit_all g ps st = Err ErrOutOfFuel.
Proof.
  intros Hok Hfuel ps. induction ps as [|p ps IH]; intros st seen H; cbn [fold_each] in H; [done|]. unfold visit_all in *. cbn [fold_each].
  apply bind_Err in H as [H|([st1 seen1] & H1 & H)].
  - unfold visit_parent in H. do 3 (apply bind_Err in H as [H|([] & _ & H)]; [by destruct (bool_decide _); cbn in H|]).
    apply bind_Err in H as [H|(st1 & _ & H)]; [|done]. cbn in H. by rewrite (Hfuel _ _ H).
  - unfold visit_parent in H1. do 3 (apply bind_Ok in H1 as ([] & _ & H1)). apply bind_Ok in H1 as (st' & Hv%Hok & [= <- <-]).
    cbn in Hv. rewrite Hv. by eapply IH.
Qed.

Lemma visit_update_fuel graph fuel st id : visit_update graph fuel st id = Err ErrOutOfFuel → visit graph fuel st id = Err ErrOutOfFuel.
Proof.
  revert st id. induction fuel as [|fuel IH]; intros st id; cbn [visit_update visit];
    destruct (st !! id) as [[|[[]|[]|]]|]; try done; destruct (graph !! id) as [s|]; try done;
    intros H; apply bind_Err in H as [H|(r & _ & H)]; try done; by rewrite (visit_parents_fuel _ _ _ _ (visit_update_visit graph fuel) IH _ _ _ H).
Qed.

Lemma visits_update graph ids st st' : fold_each (visit_update graph (size graph)) ids st = Ok st' →
  visit_all (visit graph (size graph)) ids st = Ok (Some st').
Proof.
  revert st. induction ids as [|id ids IH]; intros st H; cbn [fold_each] in H; [by injection H as ->|].
  apply bind_Ok in H as (st1 & H1%visit_update_visit & H). unfold visit_all in *. cbn [fold_each]. rewrite H1. by apply IH.
Qed.

(** The graph of a batch: the stored snapshots, and the new ones without grafts. *)
Record batch_graph (g0 g : server_graph) (ids : gset string) (incoming : list ServerSnapshot) : Prop := {
  bg_stored : ∀ id s, g0 !! id = Some s → g !! id = Some s;
  bg_new : ∀ s, s ∈ incoming → g0 !! ss_ID s = None → g !! ss_ID s = Some s ∧ elems (ss_GraftParents s) = [];
  bg_from : ∀ id s, g !! id = Some s → g0 !! id = Some s ∨ (s ∈ incoming ∧ ss_ID s = id);
  bg_ids : ∀ id, id ∈ ids ↔ id ∈ ss_ID <$> incoming;
  bg_distinct : NoDup (ss_ID <$> incoming);
  bg_same : ∀ s c, s ∈ incoming → g0 !! ss_ID s = Some c → elems (ss_Parents c) = elems (ss_Parents s) }.

Lemma merged g0 incoming g ids : fold_each merge_incoming incoming (g0, ∅) = Ok (g, ids) → batch_graph g0 g ids incoming.
Proof.
  intros H. cut (match (g, ids) with (g, ids) => batch_graph g0 g ids incoming end); [done|]. revert H.
  apply (fold_each_invariant merge_incoming (λ pre st, match st with (g, ids) => batch_graph g0 g ids pre end)).
  { split; [done|set_solver|by left|set_solver|constructor|set_solver]. }
  intros pre s [g1 ids1] [g2 ids2] [H1 H2 H3 H4 H5 H6] _ H. unfold merge_incoming in H. apply bind_Ok in H as ([] & Hid%reject_if_Ok & H). bools.
  assert (Hpre : ss_ID s ∉ ss_ID <$> pre) by (by rewrite <- H4).
  assert (Hids : ∀ id, id ∈ {[ss_ID s]} ∪ ids1 ↔ id ∈ ss_ID <$> pre ++ [s]).
  { intros id. rewrite fmap_app, elem_of_app, elem_of_union, elem_of_singleton, H4. cbn. rewrite list_elem_of_singleton. naive_solver. }
  assert (Hnd : NoDup (ss_ID <$> pre ++ [s])).
  { rewrite fmap_app. apply NoDup_app. split_and!; [done| |apply NoDup_singleton]. intros x Hx ->%list_elem_of_singleton. done. }
  destruct (g1 !! ss_ID s) as [c|] eqn:Hc.
  - apply bind_Ok in H as ([] & Hpar%reject_if_Ok & H). bools. do 3 (apply bind_Ok in H as ([] & _ & H)). injection H as <- <-. split; [done| | |exact Hids|exact Hnd|].
    + intros t [Ht| ->%list_elem_of_singleton]%elem_of_app; [by apply H2|]. intros Hn. destruct (H3 _ _ Hc) as [?|[Hin E]]; [congruence|].
      destruct Hpre. rewrite <- E. by apply list_elem_of_fmap_2.
    + intros id t Ht. destruct (H3 id t Ht) as [?|[? ?]]; [by left|right; set_solver].
    + intros t c' [Ht| ->%list_elem_of_singleton]%elem_of_app; [by apply H6|]. intros Hg0%H1. congruence.
  - apply bind_Ok in H as ([] & Hg%reject_if_Ok & [= <- <-]). bools. split; [| | |exact Hids|exact Hnd|].
    + intros id t Ht. rewrite lookup_insert_ne; [by apply H1|]. intros <-. apply H1 in Ht. congruence.
    + intros t [Ht| ->%list_elem_of_singleton]%elem_of_app Hn; [|by rewrite lookup_insert_eq].
      rewrite lookup_insert_ne; [by apply H2|]. intros E. apply Hpre. rewrite E. by apply list_elem_of_fmap_2.
    + intros id t. rewrite lookup_insert. case_decide as E; [intros [= <-]; right; set_solver|]. intros Ht.
      destruct (H3 id t Ht) as [?|[? ?]]; [by left|right; set_solver].
    + intros t c' [Ht| ->%list_elem_of_singleton]%elem_of_app; [by apply H6|]. intros Hg0%H1. congruence.
Qed.

Lemma tc_restrict {A} (R R' : relation A) x z : (∀ u v, rtc R x u → R u v → rtc R v z → R' u v) → tc R x z → tc R' x z.
Proof.
  intros H Hr. induction Hr as [x y Hxy|x y z Hxy Hyz IH].
  - apply tc_once. by apply H.
  - eapply tc_l; [apply H; [done|done|by apply tc_rtc]|]. apply IH. intros u v Hu. apply H. by eapply rtc_l.
Qed.

Lemma update_acyclic existing incoming : ValidateSnapshotGraphUpdate existing incoming = Ok tt →
  ∃ g ids, batch_graph (graph_of existing) g ids incoming ∧ (no_cycle (graph_of existing) → no_cycle g).
Proof.
  intros H. unfold ValidateSnapshotGraphUpdate in H. apply bind_Ok in H as ([g ids] & Hm%merged & H). exists g, ids. split; [done|].
  apply bind_Ok in H as (st & Hv%visits_update & _). intros Hno x Hx.
  apply (visit_all_ok g) in Hv as (Hst & _ & Hdone); [|intros ????; apply visit_spec|apply coloured_empty|intros ??; by rewrite lookup_empty].
  apply (Hno x). apply (tc_restrict (parent_link g) _ x x); [|done]. intros u v Hu Huv Hv.
  assert (Hout : u ∉ ids).
  { intros Hin. assert (Hcyc : tc (parent_link g) u u) by (eapply tc_rtc_r; [by apply tc_once|by etrans]).
    destruct (Hdone u) as [Hf|Hn]; [by apply elem_of_elements|by apply (co_clear _ _ Hst u Hf)|by apply link_absent in Huv]. }
  unfold parent_link, node_parents in *. destruct (g !! u) as [s|] eqn:Hs; [|by apply elem_of_nil in Huv].
  destruct (bg_from _ _ _ _ Hm u s Hs) as [->|[Hin E]]; [done|]. destruct Hout. apply (bg_ids _ _ _ _ Hm). rewrite <- E. by apply list_elem_of_fmap_2.
Qed.

(** The validation never runs out of fuel. *)
Lemma update_total existing incoming : ValidateSnapshotGraphUpdate existing incoming ≠ Err ErrOutOfFuel.
Proof.
  unfold ValidateSnapshotGraphUpdate. intros H. apply bind_Err in H as [H|([g ids] & _ & H)].
  - revert H. apply total_fold_each. intros [g ids] s. unfold merge_incoming. auto 20 with total.
  - apply bind_Err in H as [H|(st & _ & H)]; [|done]. 
    assert (Hgen : ∀ l st, coloured g st → (∀ a, st !! a ≠ Some 1%N) → fold_each (visit_update g (size g)) l st ≠ Err ErrOutOfFuel); [|by eapply (Hgen _ ∅); [apply coloured_empty|intros a; by rewrite lookup_empty|]].
    clear. induction l as [|id l IH]; intros st Hst Hv; cbn [fold_each]; [done|]. intros H. apply bind_Err in H as [H%visit_update_fuel|(st1 & H1%visit_update_visit & H)].
    + destruct (visit_total g (size g) st id ∅) as [r Hr]; [done|intros a; split; [by intros ?%Hv|set_solver]|set_solver|set_solver|lia|congruence].
    + apply visit_spec in H1 as (Hc & [Hp _] & _); [|done|by intros a ?%Hv]. apply (IH st1); [done|intros a ?%Hp; by eapply Hv|done].
Qed.

(** ** Lemmas: programs that keep an invariant *)

Definition keeps {A} (I : disk → Prop) (m : io A) : Prop := ∀ d fs, I d → I (disk_after (m d fs)).

Lemma keeps_ret {A} I (a : A) : keeps I (mret a).
Proof. by intros d fs. Qed.
Lemma keeps_fail {A} I e : keeps I (fail e : io A).
Proof. by intros d fs. Qed.
Lemma keeps_lift {A} I (r : result A) : keeps I (lift r).
Proof. by intros d fs. Qed.
Lemma keeps_get I : keeps I get_disk.
Proof. by intros d fs. Qed.
Lemma keeps_bind {A B} I (m : io A) (k : A → io B) : keeps I m → (∀ a, keeps I (k a)) → keeps I (m ≫= k).
Proof.
  intros Hm Hk d fs Hd. pose proof (Hm d fs Hd) as H. unfold mbind, io_bind, attempt. destruct (m d fs) as [[a|e] d' fs'|d']; [by apply Hk|done..].
Qed.
Lemma keeps_decided I id decide : (∀ d s, I d → decide d = Ok (Some s) → I (commit d (PutSnapshot id (json_snapshot s)))) → keeps I (write_decided id decide).
Proof. intros H d fs Hd. by apply (write_decided_cases I); [|intros s; apply H]. Qed.
Create HintDb keeps.
#[local] Hint Resolve keeps_ret keeps_fail keeps_lift keeps_get : keeps.

(** A put that keeps an invariant keeps it in the loop. *)
Lemma put_one_keeps I get changed s out : keeps I (PutServerSnapshot get s) → keeps I (put_one get changed s out).
Proof.
  intros Hs. unfold put_one. apply keeps_bind; [apply keeps_get|intros d]. destruct (GetSnapshot d _ _) as [before|e].
  - apply keeps_bind; [done|intros _]. apply keeps_bind; [apply keeps_get|intros d']. apply keeps_bind; [apply keeps_lift|intros after].
    apply keeps_bind; [destruct (bool_decide _)|]; auto with keeps.
  - destruct e; try apply keeps_fail. apply keeps_bind; [done|auto with keeps].
Qed.

Lemma put_all_keeps I get changed l : (∀ s, s ∈ l → keeps I (PutServerSnapshot get s)) → ∀ out, keeps I (put_all get changed l out).
Proof.
  induction l as [|s l IH]; intros Hl out; cbn [put_all]; [apply keeps_ret|].
  apply keeps_bind; [apply put_one_keeps, Hl; by left|]. apply IH. intros t Ht. apply Hl. by right.
Qed.

(** ** Lemmas: a publication's writes *)

Lemma normalized_repo docs verify get repo s s' : normalize docs verify get repo s = Ok s' → ss_RepoID s' = repo.
Proof. intros H. unfold normalize in H. cbv zeta in H. do 3 (apply bind_Ok in H as ([] & _ & H)). by injection H as <-. Qed.

Lemma batch_repo ports docs repo incoming d snaps : checked_batch ports docs repo incoming d = Ok snaps → ∃ existing,
  ListSnapshots d repo = Ok existing ∧ ValidateSnapshotGraphUpdate existing snaps = Ok tt ∧ ∀ s, s ∈ snaps → ss_RepoID s = repo.
Proof.
  intros H. unfold checked_batch in H. apply bind_Ok in H as (out & Hn & H). apply bind_Ok in H as ([] & _ & H). apply bind_Ok in H as (existing & Hl & H).
  apply bind_Ok in H as ([] & Hv & H). apply bind_Ok in H as ([] & _ & [= <-]). exists existing. split_and!; [done|done|].
  revert Hn. apply (fold_each_invariant _ (λ _ out, ∀ s, s ∈ out → ss_RepoID s = repo)); [by intros s ?%elem_of_nil|].
  intros pre s out1 out2 Hout _ (s' & Hs%normalized_repo & [= <-])%bind_Ok t [?|<-%list_elem_of_singleton]%elem_of_app; auto.
Qed.

(** What [PutSnapshot] writes. *)
Lemma put_cases get repo d s s' : store_ok repo d → ss_RepoID s = repo → put_snapshot get d s = Ok (Some s') →
  (∃ e, decided repo d (ss_ID s) e s' ∧ server_ReachabilityParents s' = server_ReachabilityParents e) ∨
  (dk_snapshots d !! ss_ID s = None ∧ s' = without_branches s ∧ validateSnapshotRefs s' = Ok tt).
Proof.
  intros Hok Hr H. unfold put_snapshot in H. cbv zeta in H. apply bind_Ok in H as ([] & Hv & H). apply bind_Ok in H as ([] & _ & H).
  change (ss_ID (without_branches s)) with (ss_ID s) in H. change (ss_RepoID (without_branches s)) with (ss_RepoID s) in H.
  destruct (bool_decide (is_Some (dk_snapshots d !! ss_ID s))) eqn:E; bools.
  - apply bind_Ok in H as (e & He & H). apply bind_Ok in H as ([] & _ & H). destruct (bool_decide (_ = StashBranchLabel)); [done|].
    destruct (ss_Branch e <>? StashBranchLabel); [done|]. injection H as <-. left. exists e. rewrite Hr in He. split; [|done].
    pose proof (stored_valid _ _ _ _ He) as (Hve & Hs & _). apply kept_decided; [done|done| |by apply label_valid|done].
    apply label_later. by eapply (sh_decoded _ _ (proj1 Hok)).
  - injection H as <-. right. split_and!; [by apply eq_None_not_Some|done|done].
Qed.

Section publication.
Context (repo : string) (d0 : disk) (g : server_graph) (ids : gset string) (snaps : list ServerSnapshot)
  (Hbatch : batch_graph (dk_snapshots d0) g ids snaps) (Hrepo : ∀ s, s ∈ snaps → ss_RepoID s = repo) (Hg : no_cycle g).

(** While a publication stores its snapshots the store is well formed and within the graph that was validated. *)
Record publishing (d : disk) : Prop := {
  pb_ok : store_ok repo d;
  pb_versioned : versioned d0 d;
  pb_links : ∀ x y, parent_link (dk_snapshots d) x y → parent_link g x y }.

Lemma put_publishing get s : s ∈ snaps → keeps publishing (PutServerSnapshot get s).
Proof.
  intros Hs. apply keeps_decided. intros d s' [Hok Hvd Hl] H. apply (put_cases get repo) in H as [(e & He & Hp)|(Hn & -> & Hv)]; [| |done|by apply Hrepo].
  - destruct (decided_put _ _ _ _ _ He Hok) as [Hok' Hv']. split; [done|by etrans|]. intros x y. rewrite put_snapshots.
    intros Hxy%json_links. apply Hl. apply (same_links _ (ss_ID s) e s'); [|by rewrite Hp|done].
    by apply (stored_valid _ _ _ _ (de_from _ _ _ _ _ He)).
  - assert (Hn0 : dk_snapshots d0 !! ss_ID s = None).
    { destruct (dk_snapshots d0 !! ss_ID s) as [t|] eqn:E; [|done]. destruct (Hvd _ _ E) as (t' & Ht & _). congruence. }
    destruct (bg_new _ _ _ _ Hbatch s Hs Hn0) as [Hgs Hgr].
    assert (Hlinks : ∀ x y, parent_link (<[ss_ID s := json_snapshot (without_branches s)]> (dk_snapshots d)) x y → parent_link g x y).
    { intros x y Hxy%json_links. unfold parent_link, node_parents in *. rewrite lookup_insert in Hxy. case_decide as E; [|by apply Hl].
      subst x. by rewrite Hgs. }
    split; [split| |].
    + apply shaped_put; [apply Hok|done|exact (Hrepo s Hs)|done|]. intros p Hp. cbn [without_branches ss_GraftParents] in Hp. rewrite Hgr in Hp. by apply elem_of_nil in Hp.
    + rewrite put_snapshots. by apply (no_cycle_mono g).
    + etrans; [done|]. by apply versioned_new.
    + by rewrite put_snapshots.
Qed.

End publication.

(** A checked batch, and the graph its writes stay in. *)
Lemma batch_checked ports docs repo incoming d snaps : store_ok repo d → checked_batch ports docs repo incoming d = Ok snaps →
  ∃ g ids, batch_graph (dk_snapshots d) g ids snaps ∧ no_cycle g ∧ (∀ s, s ∈ snaps → ss_RepoID s = repo) ∧ publishing repo d g d.
Proof.
  intros Hok (existing & Hl & Hv & Hr)%batch_repo. apply update_acyclic in Hv as (g & ids & Hb & Hn).
  pose proof (listed _ _ _ Hl) as (_ & _ & Hgr). rewrite Hgr in Hb, Hn. exists g, ids. split_and!; [done|by apply Hn, Hok|done|].
  split; [done|done|]. intros x y. unfold parent_link, node_parents.
  destruct (dk_snapshots d !! x) as [s|] eqn:Es; [|by intros ?%elem_of_nil]. by rewrite (bg_stored _ _ _ _ Hb _ _ Es).
Qed.

Lemma publish_step ports docs repo incoming d fs : store_ok repo d →
  store_ok repo (disk_after (publish_snapshots ports docs repo incoming d fs)) ∧ versioned d (disk_after (publish_snapshots ports docs repo incoming d fs)).
Proof.
  intros Hok. unfold publish_snapshots, mbind, io_bind, attempt, get_disk, lift.
  destruct (checked_batch ports docs repo incoming d) as [snaps|e] eqn:E; [|by split].
  destruct (batch_checked _ _ _ _ _ _ Hok E) as (g & ids & Hb & Hn & Hr & Hp).
  destruct (put_all_keeps (publishing repo d g) (pp_settings ports) (pp_graph_changed ports) snaps) with (out := MkCommitOutput 0 0) (d := d) (fs := fs) as [H1 H2 _];
    [intros s Hs; by apply (put_publishing repo d g ids snaps)|done|by split].
Qed.

(** ** Lemmas: joins *)

Lemma mixed_forward j d0 ws d : laid j d0 → (∀ w, w ∈ ws → w ∈ forward_images j) → mixed j d0 d → mixed j d0 (commit_all ws d).
Proof.
  intros Hl. revert d. induction ws as [|w ws IH]; intros d Hw Hd; [done|]. apply IH; [intros v Hv; apply Hw; by right|].
  apply (mixed_commit j d0 (ld_before _ _ Hl) (ld_branch _ _ Hl) (ld_fork _ _ Hl) d w true Hd). apply Hw. by left.
Qed.

Lemma after_mixed j d0 : laid j d0 → mixed j d0 (after_join j d0).
Proof.
  intros Hl. destruct (mixed_forward j d0 (forward_images j) d0 Hl ltac:(done) (mixed_start j d0)) as [H1 H2 H3]. by split.
Qed.

Lemma entry_later repo e : entry_sound repo e → later (fj_Before e) (fj_After e).
Proof. intros Ho. destruct (eo_seq _ _ Ho) as [_ Hs]. pose proof (eo_only _ _ Ho) as E. split; [by rewrite <- E|lia|lia]. Qed.

Lemma after_versioned j d0 : laid j d0 → versioned d0 (after_join j d0).
Proof.
  intros Hl id s Hs. destruct (mx_snapshots _ _ _ (after_mixed j d0 Hl) id) as [E|(e & He & -> & E)]; rewrite E; [by exists s|].
  exists (fj_After e). split; [done|]. rewrite (ld_before _ _ Hl e He) in Hs. injection Hs as <-. eapply entry_later. by apply (ld_entries _ _ Hl).
Qed.

Lemma after_ok check now m d j : prepare_join check now m d = Ok j →
  store_ok (jm_RepoID m) d → store_ok (jm_RepoID m) (after_join j d) ∧ versioned d (after_join j d).
Proof.
  intros Hp [[Hs Hdec Hidle Hg] Ha]. pose proof (prepared_laid check now m d j Hp Hdec) as Hl.
  pose proof (prepared_entries check now m d j Hp) as [Hes _].
  assert (Hrepo : jj_RepoID j = jm_RepoID m) by (apply prepare_Ok in Hp as (? & ? & ? & ? & _ & _ & _ & _ & _ & _ & _ & _ & _ & ->); done).
  pose proof (after_mixed j d Hl) as Hm. split; [split; [split|]|by apply after_versioned].
  - rewrite <- Hrepo. by eapply mixed_sound.
  - intros id s Hid. destruct (mx_snapshots _ _ _ Hm id) as [E|(e & He & -> & E)]; rewrite E in Hid; [by eapply Hdec|]. injection Hid as <-.
    apply list_elem_of_lookup_1 in He as (i & Hi). destruct (Forall2_lookup_r _ _ _ _ _ Hes Hi) as (p & _ & (s0 & s' & _ & _ & ->)). apply json_idempotent.
  - done.
  - intros id s p Hid Hin. apply (mixed_present j d Hl _ p Hm). destruct (mx_snapshots _ _ _ Hm id) as [E|(e & He & -> & E)]; rewrite E in Hid; [by eapply Hg|].
    injection Hid as <-. by apply (gr_parents _ _ (ld_graph _ _ Hl) e p He).
  - rewrite after_overlay. rewrite <- (written_id fj_Before (jj_Snapshots j) (dk_snapshots d)) by apply Hl.
    apply (gr_acyclic _ _ (ld_graph _ _ Hl) (jj_Snapshots j) []). by rewrite app_nil_r.
Qed.

(** A join and the restarts after it, up to a recovery that succeeds. *)
Lemma join_step check now m d fs lives d' : store_ok (jm_RepoID m) d →
  recoverJoinJournals (hexOf (jm_RepoID m)) (restarts (hexOf (jm_RepoID m)) (disk_after (ApplyJoin check now m d fs)) lives) [] = Returned (Ok tt) d' [] →
  store_ok (jm_RepoID m) d' ∧ versioned d d'.
Proof.
  intros Hok Hrec. pose proof (sh_idle _ _ (proj1 Hok)) as Hidle. destruct (prepare_join check now m d) as [j|e] eqn:Hp.
  - rewrite (ApplyJoin_prepared _ _ _ _ _ _ Hp) in Hrec. pose proof (prepared_laid check now m d j Hp (sh_decoded _ _ (proj1 Hok))) as Hl.
    assert (Hph : jj_Phase j = fsJoinPrepared) by (pose proof Hp as (? & ? & ? & ? & _ & _ & _ & _ & _ & _ & _ & _ & _ & ->)%prepare_Ok; done).
    destruct (safe_recovered _ j d _ lives d' Hl Hph (run_safe j d fs Hl) Hrec) as [->| ->]; [by split|by apply (after_ok check now)].
  - unfold ApplyJoin, mbind at 1, io_bind at 1, attempt at 1, get_disk in Hrec. rewrite Hp in Hrec. cbn [fail disk_after] in Hrec.
    rewrite restarts_idle, recovery_idle in Hrec by done. injection Hrec as <-. by split.
Qed.

Lemma store_step_ok repo d d' : store_step repo d d' → store_ok repo d → store_ok repo d' ∧ versioned d d'.
Proof.
  intros H Hd. destruct H as [id add expected d fs|id parents d fs|id message d fs|get_memory id expected next d fs|ports docs incoming d fs|check now m d fs lives d' <- Hrec].
  - apply decided_step; [|done]. intros s'. by apply add_graft_decided.
  - apply decided_step; [|done]. intros s'. by apply set_graft_decided.
  - apply decided_step; [|done]. intros s'. by apply message_decided.
  - apply decided_step; [|done]. intros s'. by apply memory_decided.
  - by apply publish_step.
  - by eapply join_step.
Qed.

Lemma store_run_ok repo d d' : rtc (store_step repo) d d' → store_ok repo d → store_ok repo d' ∧ versioned d d'.
Proof.
  induction 1 as [|d d1 d2 Hst _ IH]; intros Hd; [by split|]. destruct (store_step_ok repo d d1 Hst Hd) as [H1 V1].
  destruct (IH H1) as [H2 V2]. split; [done|by etrans].
Qed.

(** ** Lemmas: a publication without faults *)

Lemma write_decided_calm id decide d : write_decided id decide d [] =
  Returned (decide d ;; Ok tt) (match decide d with Ok (Some s) => commit d (PutSnapshot id (json_snapshot s)) | _ => d end) [].
Proof. unfold write_decided, mbind, io_bind, attempt, get_disk. by destruct (decide d) as [[s|]|e]. Qed.

(** Only one snapshot differs. *)
Record only_at (id : string) (d d' : disk) : Prop := {
  oa_others : ∀ x, x ≠ id → dk_snapshots d' !! x = dk_snapshots d !! x;
  oa_rest : dk_branches d' = dk_branches d ∧ dk_sessions d' = dk_sessions d ∧ dk_reflog d' = dk_reflog d ∧ dk_journal d' = dk_journal d }.

Lemma only_put id s d : only_at id d (commit d (PutSnapshot id s)).
Proof. split; [intros x Hx; by rewrite put_snapshots, lookup_insert_ne|by destruct d]. Qed.

(** A published snapshot as it was stored over [d]: an object that was there keeps its parents,
    a new one is stored as published. *)
Record placed (d : disk) (s t : ServerSnapshot) : Prop := {
  pl_document : ss_ID t = ss_ID s ∧ ss_DocHash t = ss_DocHash s ∧ ss_DocIdentity t = ss_DocIdentity s;
  pl_kept : ∀ e, dk_snapshots d !! ss_ID s = Some e → ss_Parents t = ss_Parents e ∧ ss_GraftParents t = ss_GraftParents e ∧ ss_GraftSeq t = ss_GraftSeq e;
  pl_new : dk_snapshots d !! ss_ID s = None → t = json_snapshot (without_branches s) }.

Lemma put_effect get s d d' : PutServerSnapshot get s d [] = Returned (Ok tt) d' [] → decoded d →
  only_at (ss_ID s) d d' ∧ ∃ t, dk_snapshots d' !! ss_ID s = Some t ∧ placed d s t.
Proof.
  intros H Hd. unfold PutServerSnapshot in H. rewrite write_decided_calm in H. destruct (put_snapshot get d s) as [r|err] eqn:E; [|done].
  unfold put_snapshot in E. cbv zeta in E. do 2 (apply bind_Ok in E as ([] & _ & E)).
  change (ss_ID (without_branches s)) with (ss_ID s) in E. destruct (bool_decide (is_Some (dk_snapshots d !! ss_ID s))) eqn:Hp; bools.
  - apply bind_Ok in E as (e & He & E). apply bind_Ok in E as ([] & Hdoc%reject_if_Ok & E). apply orb_false_iff in Hdoc as [H1 H2]. bools.
    apply stored_valid in He as (_ & Hs & Hid). pose proof (Hd _ _ Hs) as Hj.
    assert (Hkeep : ∀ t, ss_ID t = ss_ID e → ss_DocHash t = ss_DocHash e → ss_DocIdentity t = ss_DocIdentity e → ss_Parents t = ss_Parents e →
      ss_GraftParents t = ss_GraftParents e → ss_GraftSeq t = ss_GraftSeq e → placed d s t).
    { intros t A1 A2 A3 A4 A5 A6. split; [rewrite A1, A2, A3; by split_and!|intros e' He'; assert (e' = e) by congruence; by subst|congruence]. }
    assert (Hr : r = None ∨ r = Some (with_label e (ss_Branch s) (ss_Message s))).
    { destruct (bool_decide (_ = StashBranchLabel)); [injection E; auto|]. destruct (ss_Branch e <>? StashBranchLabel); injection E; auto. }
    destruct Hr as [->| ->]; injection H as <-.
    + split; [by split|]. exists e. split; [done|]. by apply Hkeep.
    + split; [apply only_put|]. exists (json_snapshot (with_label e (ss_Branch s) (ss_Message s))). split; [by rewrite put_snapshots, lookup_insert_eq|].
      change (json_snapshot (with_label e ?b ?m)) with (with_label (json_snapshot e) b m). rewrite Hj. by apply Hkeep.
  - injection E as <-. injection H as <-. split; [apply only_put|]. exists (json_snapshot (without_branches s)). split; [by rewrite put_snapshots, lookup_insert_eq|].
    split; [done|intros e He; destruct Hp; by eexists|done].
Qed.

Lemma bind_calm_inv {A B} (m : io A) (k : A → io B) d r d' fs : (m ≫= k) d [] = Returned r d' fs → (∀ r1 d1 fs1, m d [] = Returned r1 d1 fs1 → fs1 = []) →
  (∃ a d1, m d [] = Returned (Ok a) d1 [] ∧ k a d1 [] = Returned r d' fs) ∨ (∃ e, m d [] = Returned (Err e) d' [] ∧ r = Err e ∧ fs = []).
Proof.
  intros H Hm. unfold mbind, io_bind, attempt in H. destruct (m d []) as [[a|e] d1 fs1|d1]; [| |done]; rewrite (Hm _ _ _ eq_refl) in *; [left; eauto|].
  injection H as <- <- <-. right. eauto.
Qed.

Lemma put_calm get s d r d' fs : PutServerSnapshot get s d [] = Returned r d' fs → fs = [].
Proof. unfold PutServerSnapshot. rewrite write_decided_calm. by intros [= _ _ <-]. Qed.

Lemma put_one_calm get changed s out d r d' fs : put_one get changed s out d [] = Returned r d' fs → fs = [] ∧ ∀ out', r = Ok out' →
  PutServerSnapshot get s d [] = Returned (Ok tt) d' [] ∧
  (co_StoredSnapshots out' + co_DedupedSnapshots out' = co_StoredSnapshots out + co_DedupedSnapshots out + 1)%N.
Proof.
  intros H. unfold put_one in H. apply bind_calm_inv in H as [(d1 & d2 & [= <- <-] & H)|(e & [=] & _)]; [|by intros ??? [= _ _ <-]].
  destruct (GetSnapshot d _ _) as [before|e]; [|destruct e]; try (by injection H as <- <- <-).
  - apply bind_calm_inv in H as [([] & d1 & Hput & H)|(e & _ & -> & ->)]; [|by split|intros ???; apply put_calm].
    apply bind_calm_inv in H as [(d2 & d3 & [= <- <-] & H)|(e & [=] & _)]; [|by intros ??? [= _ _ <-]].
    apply bind_calm_inv in H as [(after & d3 & [= _ <-] & H)|(e & _ & -> & ->)]; [|by split|by intros ??? [= _ _ <-]].
    apply bind_calm_inv in H as [([] & d3 & Hc & H)|(e & _ & -> & ->)]; [|by split|intros ???; case_match; by intros [= _ _ <-]].
    injection H as <- <- <-. split; [done|]. intros out' [= <-]. assert (d3 = d1) as -> by (case_match; by injection Hc). cbn. split; [done|lia].
  - apply bind_calm_inv in H as [([] & d1 & Hput & H)|(e & _ & -> & ->)]; [|by split|intros ???; apply put_calm].
    injection H as <- <- <-. split; [done|]. intros out' [= <-]. cbn. split; [done|lia].
Qed.

Lemma put_all_effect get changed l : NoDup (ss_ID <$> l) → ∀ d out d' out', decoded d → put_all get changed l out d [] = Returned (Ok out') d' [] →
  (∀ x, x ∉ ss_ID <$> l → dk_snapshots d' !! x = dk_snapshots d !! x) ∧
  (dk_branches d' = dk_branches d ∧ dk_sessions d' = dk_sessions d ∧ dk_reflog d' = dk_reflog d ∧ dk_journal d' = dk_journal d) ∧
  (∀ s, s ∈ l → ∃ t, dk_snapshots d' !! ss_ID s = Some t ∧ placed d s t) ∧
  (co_StoredSnapshots out' + co_DedupedSnapshots out' = co_StoredSnapshots out + co_DedupedSnapshots out + N.of_nat (length l))%N.
Proof.
  induction l as [|s l IH]; intros Hn d out d' out' Hd H.
  { injection H as <- <-. split_and!; [done|done|done|done|done|by intros s ?%elem_of_nil|cbn; lia]. }
  rewrite fmap_cons, NoDup_cons in Hn. destruct Hn as [Hs Hn]. cbn [put_all] in H. unfold mbind, io_bind, attempt in H.
  destruct (put_one get changed s out d []) as [r d1 fs1|d1] eqn:E; [|done]. apply put_one_calm in E as [-> Hr]. destruct r as [out1|err]; [|done].
  destruct (Hr out1 eq_refl) as [Hput Hc]. pose proof Hput as (Ho & t & Ht & Hpl)%put_effect; [|done].
  assert (Hd1 : decoded d1).
  { intros x u Hx. destruct (decide (x = ss_ID s)) as [->|Hne]; [|rewrite (oa_others _ _ _ Ho x Hne) in Hx; by eapply Hd].
    unfold PutServerSnapshot in Hput. rewrite write_decided_calm in Hput. destruct (put_snapshot get d s) as [[w|]|err]; cbn [mbind result_bind] in Hput; [injection Hput as <-|injection Hput as <-; by eapply Hd|done].
    rewrite put_snapshots, lookup_insert_eq in Hx. injection Hx as <-. apply json_idempotent. }
  destruct (IH Hn d1 out1 d' out' Hd1 H) as (H1 & H2 & H3 & H4). split; [|split; [|split]].
  - intros x [Hx Hxl]%not_elem_of_cons. rewrite H1 by done. by apply Ho.
  - destruct (oa_rest _ _ _ Ho) as (? & ? & ? & ?), H2 as (? & ? & ? & ?). split_and!; congruence.
  - intros u [->|Hu]%elem_of_cons; [exists t; by rewrite H1|]. destruct (H3 u Hu) as (v & Hv & [P1 P2 P3]). exists v. split; [done|].
    assert (Hne : ss_ID u ≠ ss_ID s) by (intros E; apply Hs; rewrite <- E; by apply list_elem_of_fmap_2).
    rewrite (oa_others _ _ _ Ho _ Hne) in P2, P3. by split.
  - rewrite H4, Hc. cbn [length]. lia.
Qed.

(** ** Claims *)

(** C11: The graph of a store stays well formed.  Start from a store that is well formed: every
    object is a valid snapshot of the repository under its id as JSON keeps it, no journal is
    left, registers name stored snapshots, and no snapshot reaches itself.  After any sequence of
    steps, whatever their writes meet, it is so again; in particular the snapshots can be listed
    and the server's own search finds no cycle among them.  A step is an append to a register or
    its replacement, a promoted message, a moved memory pointer, a publication, or a join,
    accepted or not, taken together with the restarts that follow it up to a recovery that
    succeeds: a journal that no restart accepts ends the sequence.  Steps are taken one at a time. *)
Theorem store_invariant repo d d' : rtc (store_step repo) d d' → store_ok repo d →
  store_ok repo d' ∧ ∃ all, ListSnapshots d' repo = Ok all ∧ snapshotGraphHasCycle all = false.
Proof.
  intros H Hd. destruct (store_run_ok repo d d' H Hd) as [Hok _].
  split; [done|]. destruct (ListSnapshots_total d' repo (sh_sound _ _ (proj1 Hok))) as [all Hl]. exists all. split; [done|].
  apply has_cycle_spec. apply listed in Hl as (_ & _ & ->). apply Hok.
Qed.


(** C14: A publication stores what it was checked to store.  Let a publication succeed on a well
    formed store.  Every snapshot of the checked batch is then stored: as published if it was
    new, and otherwise with the register it had, the published document and the published
    parents.  No other snapshot, ref, log entry or journal changed, and the counts of stored and
    deduplicated snapshots add up to the batch. *)
Theorem publication_effect ports docs repo incoming d d' out : store_ok repo d →
  publish_snapshots ports docs repo incoming d [] = Returned (Ok out) d' [] → ∃ snaps, checked_batch ports docs repo incoming d = Ok snaps ∧
  (∀ s, s ∈ snaps → ∃ t, GetSnapshot d' repo (ss_ID s) = Ok t ∧ placed d s t ∧ elems (ss_Parents t) = elems (ss_Parents s)) ∧
  (∀ id, id ∉ ss_ID <$> snaps → dk_snapshots d' !! id = dk_snapshots d !! id) ∧
  (dk_branches d' = dk_branches d ∧ dk_sessions d' = dk_sessions d ∧ dk_reflog d' = dk_reflog d ∧ dk_journal d' = dk_journal d) ∧
  (co_StoredSnapshots out + co_DedupedSnapshots out = N.of_nat (length snaps))%N.
Proof.
  intros Hok H. pose proof (publish_step ports docs repo incoming d [] Hok) as [Hok' _]. rewrite H in Hok'. cbn [disk_after] in Hok'.
  unfold publish_snapshots, mbind, io_bind, attempt, get_disk, lift in H. destruct (checked_batch ports docs repo incoming d) as [snaps|e] eqn:E; [|done].
  exists snaps. split; [done|]. apply batch_repo in E as (existing & Hl & Hv & _). apply update_acyclic in Hv as (g & ids & Hb & _).
  pose proof (listed _ _ _ Hl) as (_ & _ & Hgr). rewrite Hgr in Hb.
  destruct (put_all_effect _ _ _ (bg_distinct _ _ _ _ Hb) d _ d' out (sh_decoded _ _ (proj1 Hok)) H) as (H1 & H2 & H3 & H4). split_and!; [|done|apply H2..|exact H4].
  intros s Hs. destruct (H3 s Hs) as (t & Ht & Hpl). exists t. split; [by apply (sh_sound _ _ (proj1 Hok'))|]. split; [done|].
  destruct (dk_snapshots d !! ss_ID s) as [e|] eqn:Ed.
  - destruct (pl_kept _ _ _ Hpl e Ed) as [-> _]. by apply (bg_same _ _ _ _ Hb s e).
  - by rewrite (pl_new _ _ _ Hpl Ed).
Qed.

(** ** A batch and an interleaving *)

Module BatchSamples.
Import JoinSamples StoreSamples.

Definition yes (_ : string) : result unit := Ok tt.
Definition ports : publication_ports := MkPublicationPorts (λ _, Ok tt) yes (Ok tt) (Ok tt) (Ok tt).

(** [c] continues [b], which continues [r]. *)
Definition b : ServerSnapshot := snapshot "b" ["r"] [].
Definition c : ServerSnapshot := snapshot "c" ["b"] [].
Definition incoming : list ServerSnapshot := [c; b].
Definition zero : CommitOutput := MkCommitOutput 0 0.

Definition published : disk := disk_after (publish_snapshots ports ∅ repo incoming d0 []).

(** The batch, with an append to the register of [r] between its writes. *)
Definition first : disk := disk_after (put_one yes (Ok tt) c zero d0 []).
Definition between : disk := disk_after (AddGraftParents repo (hash "r") [hash "c"] first []).
Definition last : disk := disk_after (put_one yes (Ok tt) b (stored_one zero) between []).
Definition cyclic : list ServerSnapshot := result_or [] (ListSnapshots last repo).

Lemma batch_published : publish_snapshots ports ∅ repo incoming d0 [] = Returned (Ok (MkCommitOutput 2 0)) published [].
Proof. vm_compute. reflexivity. Qed.

Lemma events_and_batch : rtc (store_step repo) d0 (disk_after (publish_snapshots ports ∅ repo incoming grafted [Succeeds; Dies])).
Proof. eapply rtc_l; [apply (step_add repo (hash "r") [hash "a"] (Some 0%N) d0 [])|]. apply rtc_once. apply step_publish. Qed.
End BatchSamples.

(** Without a transaction around it, a publication is not atomic: an append between its writes
    finds no cycle, because a parent is not stored yet, and the last write closes one.  Every
    write reported success. *)
Theorem interleaved_publication_cycle :
  checked_batch BatchSamples.ports ∅ JoinSamples.repo BatchSamples.incoming StoreSamples.d0 = Ok BatchSamples.incoming ∧
  put_one BatchSamples.yes (Ok tt) BatchSamples.c BatchSamples.zero StoreSamples.d0 [] = Returned (Ok (stored_one BatchSamples.zero)) BatchSamples.first [] ∧
  AddGraftParents JoinSamples.repo (JoinSamples.hash "r") [JoinSamples.hash "c"] BatchSamples.first [] = Returned (Ok tt) BatchSamples.between [] ∧
  put_one BatchSamples.yes (Ok tt) BatchSamples.b (stored_one BatchSamples.zero) BatchSamples.between [] = Returned (Ok (MkCommitOutput 2 0)) BatchSamples.last [] ∧
  ListSnapshots BatchSamples.last JoinSamples.repo = Ok BatchSamples.cyclic ∧ snapshotGraphHasCycle BatchSamples.cyclic = true.
Proof. split_and!; vm_compute; reflexivity. Qed.

Lemma store_invariant_witness :
  store_ok JoinSamples.repo (disk_after (publish_snapshots BatchSamples.ports ∅ JoinSamples.repo BatchSamples.incoming StoreSamples.grafted [Succeeds; Dies])).
Proof. exact (proj1 (store_invariant _ _ _ BatchSamples.events_and_batch StoreSamples.d0_ok)). Defined.


Lemma publication_effect_witness : ∃ snaps,
  checked_batch BatchSamples.ports ∅ JoinSamples.repo BatchSamples.incoming StoreSamples.d0 = Ok snaps ∧ 2%N = N.of_nat (length snaps).
Proof.
  destruct (publication_effect _ _ _ _ _ _ _ StoreSamples.d0_ok BatchSamples.batch_published) as (snaps & H & _ & _ & _ & Hn). exists snaps. split; [exact H|exact Hn].
Defined.
