(* ===== verification/PublicationRetry.v ===== *)
(** * Repeating a publication

    A client repeats a publication whose answer it did not get.  This file says exactly which
    batches the validation of
    [backend/internal/domain/snapshot_validation.go] accepts, and proves that a publication that
    met any faults can be repeated: the repetition is accepted and ends in the disk that an
    undisturbed publication leaves. *)
From S2P Require Import Prelude GoStrings Sha256 Values History Graph Catalog ServerGraph SessionJoin JoinStore JoinJournal StoreOps StorePublication.
From Stdlib Require Import Ascii.

(** ** What the validation accepts *)

(** A published snapshot that is stored agrees with the object and its register. *)
Record agrees (current snap : ServerSnapshot) : Prop := {
  ag_parents : elems (ss_Parents current) = elems (ss_Parents snap);
  ag_grafts : ∀ p, p ∈ elems (ss_GraftParents snap) → p ∈ elems (ss_GraftParents current);
  ag_grafted : ss_Grafted snap = true → ss_Grafted current = true;
  ag_seq : (ss_GraftSeq snap ≤ ss_GraftSeq current)%N }.

Definition no_register (snap : ServerSnapshot) : Prop :=
  ss_Grafted snap = false ∧ elems (ss_GraftParents snap) = [] ∧ ss_GraftSeq snap = 0%N.

Definition mergeable_one (g : server_graph) (snap : ServerSnapshot) : Prop :=
  match g !! ss_ID snap with Some current => agrees current snap | None => no_register snap end.

Definition add_new (g : server_graph) (snap : ServerSnapshot) : server_graph :=
  match g !! ss_ID snap with Some _ => g | None => <[ss_ID snap := snap]> g end.
Definition merged_graph (g : server_graph) (incoming : list ServerSnapshot) : server_graph := fold_left add_new incoming g.

(** A snapshot whose parents are stored, distinct and not itself. *)
Definition node_ok (g : server_graph) (id : string) : Prop := ∃ s, g !! id = Some s ∧
  NoDup (server_ReachabilityParents s) ∧ id ∉ server_ReachabilityParents s ∧ ∀ p, p ∈ server_ReachabilityParents s → is_Some (g !! p).

(** A batch the graph can take: distinct ids, each mergeable, and whole and acyclic below it. *)
Record acceptable (g0 : server_graph) (incoming : list ServerSnapshot) : Prop := {
  ac_distinct : NoDup (ss_ID <$> incoming);
  ac_mergeable : ∀ s, s ∈ incoming → mergeable_one g0 s;
  ac_whole : ∀ s u, s ∈ incoming → rtc (parent_link (merged_graph g0 incoming)) (ss_ID s) u → node_ok (merged_graph g0 incoming) u;
  ac_acyclic : no_cycle (merged_graph g0 incoming) }.

Lemma merge_one_exact g ids s r : merge_incoming (g, ids) s = Ok r ↔ ss_ID s ∉ ids ∧ mergeable_one g s ∧ r = (add_new g s, {[ss_ID s]} ∪ ids).
Proof.
  unfold merge_incoming, mergeable_one, add_new. rewrite bind_Ok. split.
  - intros ([] & Hi%reject_if_Ok & H). bools. split; [done|]. destruct (g !! ss_ID s) as [c|].
    + do 4 (let E := fresh "E" in apply bind_Ok in H as ([] & E & H)). injection H as <-. apply reject_if_Ok in E, E1, E2. apply for_each_Ok in E0.
      rewrite Forall_forall in E0. bools. split; [|done]. split; [done| |by destruct (ss_Grafted s), (ss_Grafted c)|by apply N.ltb_ge].
      intros p Hp. specialize (E0 p Hp). apply reject_if_Ok in E0. by bools.
    + apply bind_Ok in H as ([] & E%reject_if_Ok & [= <-]). apply orb_false_iff in E as [[E1 E2]%orb_false_iff E3]. bools. by split.
  - intros (Hi & Hm & ->). exists tt. rewrite bool_decide_false by done. split; [done|]. destruct (g !! ss_ID s) as [c|].
    + destruct Hm as [H1 H2 H3 H4]. rewrite H1, bool_decide_true by done. cbn [negb reject_if mbind result_bind].
      assert (Hf : for_each (λ p, reject_if (negb (bool_decide (p ∈ elems (ss_GraftParents c)))) ErrIntegrity) (elems (ss_GraftParents s)) = Ok tt).
      { apply for_each_Ok, Forall_forall. intros p Hp. by rewrite bool_decide_true by auto. }
      rewrite Hf. cbn [mbind result_bind]. replace (ss_GraftSeq c <? ss_GraftSeq s)%N with false by (symmetry; by apply N.ltb_ge).
      destruct (ss_Grafted s); [by rewrite H3|done].
    + destruct Hm as (-> & -> & ->). done.
Qed.

Lemma mergeable_other g s t : ss_ID t ≠ ss_ID s → mergeable_one (add_new g s) t ↔ mergeable_one g t.
Proof. intros Hn. unfold mergeable_one, add_new. destruct (g !! ss_ID s); [done|]. by rewrite lookup_insert_ne. Qed.

Lemma merge_exact incoming g ids r : fold_each merge_incoming incoming (g, ids) = Ok r ↔
  NoDup (ss_ID <$> incoming) ∧ (∀ s, s ∈ incoming → ss_ID s ∉ ids ∧ mergeable_one g s) ∧
  r = (merged_graph g incoming, list_to_set (ss_ID <$> incoming) ∪ ids).
Proof.
  revert g ids. induction incoming as [|s l IH]; intros g ids; cbn [fold_each].
  { split; [intros [= <-]; split_and!; [constructor|set_solver|f_equal; set_solver]|intros (_ & _ & ->); f_equal; f_equal; set_solver]. }
  rewrite bind_Ok, fmap_cons, NoDup_cons. split.
  - intros (st & (Hi & Hm & ->)%merge_one_exact & (Hn & Hl & ->)%IH).
    assert (Hs : ss_ID s ∉ ss_ID <$> l) by (intros (t & E & Ht)%list_elem_of_fmap; destruct (Hl t Ht) as [H _]; set_solver).
    split_and!; [done|done| |f_equal; set_solver]. intros t [->|Ht]%elem_of_cons; [done|]. destruct (Hl t Ht) as [H1 H2]. split; [set_solver|].
    apply (mergeable_other g s t); [|done]. set_solver.
  - intros ([Hs Hn] & Hl & ->). exists (add_new g s, {[ss_ID s]} ∪ ids). split.
    + apply merge_one_exact. destruct (Hl s ltac:(left)). done.
    + apply IH. split_and!; [done| |f_equal; set_solver]. intros t Ht. destruct (Hl t ltac:(by right)) as [H1 H2].
      assert (Hne : ss_ID t ≠ ss_ID s) by (intros E; apply Hs; rewrite <- E; by apply list_elem_of_fmap_2).
      split; [set_solver|by apply mergeable_other].
Qed.

(** ** Lemmas: the visits *)

Section visits.
Context (g : server_graph).
#[local] Notation link := (parent_link g).

Lemma links_of id s p : g !! id = Some s → link id p ↔ p ∈ server_ReachabilityParents s.
Proof. intros H. unfold parent_link, node_parents. by rewrite H. Qed.

(** Everything a visit finishes is as it should be. *)
Definition finished_ok (st : colours) : Prop := ∀ a, st !! a = Some 2%N → node_ok g a.

Lemma parents_sound f id ps st seen r : (∀ st p st', f st p = Ok st' → finished_ok st → finished_ok st') → finished_ok st →
  fold_each (visit_parent g f id) ps (st, seen) = Ok r →
  finished_ok r.1 ∧ NoDup ps ∧ ∀ p, p ∈ ps → p ∉ seen ∧ p ≠ id ∧ is_Some (g !! p).
Proof.
  intros Hf. revert st seen. induction ps as [|p ps IH]; intros st seen Hst H; cbn [fold_each] in H.
  { injection H as <-. split_and!; [done|constructor|by intros q ?%elem_of_nil]. }
  apply bind_Ok in H as ([st1 seen1] & H1 & H). unfold visit_parent in H1. apply bind_Ok in H1 as ([] & Hid%reject_if_Ok & H1).
  apply bind_Ok in H1 as ([] & Hs%reject_if_Ok & H1). apply bind_Ok in H1 as ([] & Hp%reject_if_Ok & H1). cbn [fst snd] in *. bools.
  apply bind_Ok in H1 as (st' & Hv & [= <- <-]). destruct (IH st' ({[p]} ∪ seen) (Hf _ _ _ Hv Hst) H) as (Hr & Hn & Hps). split_and!; [done| |].
  - constructor; [|done]. intros Hin. destruct (Hps p Hin) as [? _]. set_solver.
  - intros q [->|Hq]%elem_of_cons; [done|]. destruct (Hps q Hq) as (? & ? & ?). split_and!; [set_solver|done|done].
Qed.

Lemma visit_sound fuel st id st' : visit_update g fuel st id = Ok st' → finished_ok st → finished_ok st'.
Proof.
  revert st id st'. induction fuel as [|fuel IH]; intros st id st'; cbn [visit_update];
    destruct (st !! id) as [[|[[]|[]|]]|]; try done; try (by intros [= ->]); destruct (g !! id) as [s|] eqn:Hs; try done;
    intros H Hst; apply bind_Ok in H as (r & Hr & [= <-]);
    (assert (H1 : finished_ok (<[id := 1%N]> st)) by (intros a; rewrite lookup_insert; case_decide; [done|apply Hst]));
    destruct (parents_sound _ _ _ _ _ _ IH H1 Hr) as (Hf & Hn & Hp);
    (intros a; rewrite lookup_insert; case_decide as E; [|apply Hf]); intros _; subst a; exists s;
    (split_and!; [done|done|intros Hin; by destruct (Hp id Hin) as (_ & ? & _)|intros q Hin; by destruct (Hp q Hin) as (_ & _ & ?)]).
Qed.

(** Where the graph is whole, a visit that finds no cycle is accepted. *)
Context (G : string → Prop) (HG : ∀ u, G u → node_ok g u) (Hclosed : ∀ u v, G u → link u v → G v).

Lemma parents_complete fvisit f id ps st seen st' : (∀ st p st', p ∈ ps → fvisit st p = Ok (Some st') → f st p = Ok st') →
  NoDup ps → (∀ p, p ∈ ps → p ∉ seen ∧ p ≠ id ∧ is_Some (g !! p)) → visit_all fvisit ps st = Ok (Some st') →
  ∃ seen', fold_each (visit_parent g f id) ps (st, seen) = Ok (st', seen').
Proof.
  revert st seen. induction ps as [|p ps IH]; intros st seen Hf Hn Hp H; unfold visit_all in *; cbn [fold_each] in *; [injection H as <-; eauto|].
  apply NoDup_cons in Hn as [Hpn Hn]. destruct (Hp p ltac:(left)) as (H1 & H2 & H3). apply bind_Ok in H as ([st1|] & Hv & H).
  - unfold visit_parent. cbn [fst snd]. rewrite (bool_decide_false _ H2), (bool_decide_false _ H1), (bool_decide_true _ H3).
    cbn [negb reject_if mbind result_bind]. rewrite (Hf st p st1) by (done || left). cbn [mbind result_bind]. apply IH; [|done| |done].
    + intros st2 q st3 Hq. apply Hf. by right.
    + intros q Hq. destruct (Hp q ltac:(by right)) as (? & ? & ?). split_and!; [set_solver|done|done].
  - exfalso. revert H. clear. induction ps as [|p ps IH]; cbn [fold_each]; [done|]. exact IH.
Qed.

Lemma visit_complete fuel st id st' : G id → visit g fuel st id = Ok (Some st') → visit_update g fuel st id = Ok st'.
Proof.
  revert st id st'. induction fuel as [|fuel IH]; intros st id st' Hid; cbn [visit_update visit];
    destruct (st !! id) as [[|[[]|[]|]]|]; try done; try (by intros [= ->]); destruct (HG id Hid) as (s & Hs & Hn & Hself & Hp); rewrite Hs; try done;
    intros H; apply bind_Ok in H as ([st1|] & H1 & [= <-]);
    (edestruct (parents_complete (visit g fuel) (visit_update g fuel) id (server_ReachabilityParents s) (<[id := 1%N]> st) ∅ st1) as [seen Hr];
      [intros st2 q st3 Hin; apply IH; apply (Hclosed id q Hid); by apply (links_of id s)|done
      |intros q Hin; split_and!; [set_solver|intros ->; by apply Hself|by apply Hp]|done|]); by rewrite Hr.
Qed.

Lemma visits_complete fuel ids st st' : (∀ id, id ∈ ids → G id) → visit_all (visit g fuel) ids st = Ok (Some st') →
  fold_each (visit_update g fuel) ids st = Ok st'.
Proof.
  revert st. induction ids as [|id ids IH]; intros st Hid H; unfold visit_all in *; cbn [fold_each] in *; [by injection H as ->|].
  apply bind_Ok in H as ([st1|] & H1 & H).
  - rewrite (visit_complete _ _ _ _ (Hid id ltac:(left)) H1). cbn [mbind result_bind]. apply IH; [|done]. intros x Hx. apply Hid. by right.
  - exfalso. revert H. clear. induction ids as [|p ps IH]; cbn [fold_each]; [done|]. exact IH.
Qed.
End visits.

Lemma visits_sound g fuel ids st st' : fold_each (visit_update g fuel) ids st = Ok st' → finished_ok g st → finished_ok g st'.
Proof.
  revert st. induction ids as [|id ids IH]; intros st H Hst; cbn [fold_each] in H; [by injection H as <-|].
  apply bind_Ok in H as (st1 & H1 & H). eapply IH; [done|]. by eapply visit_sound.
Qed.

Lemma merged_other incoming g x : x ∉ ss_ID <$> incoming → merged_graph g incoming !! x = g !! x.
Proof.
  revert g. induction incoming as [|s l IH]; intros g Hx; [done|]. rewrite fmap_cons, not_elem_of_cons in Hx.
  change (merged_graph (add_new g s) l !! x = g !! x).
  rewrite (IH (add_new g s)) by apply Hx. unfold add_new. destruct (g !! ss_ID s); [done|]. by rewrite lookup_insert_ne by (intros E; by apply (proj1 Hx)).
Qed.

Lemma merged_in incoming g s : NoDup (ss_ID <$> incoming) → s ∈ incoming → merged_graph g incoming !! ss_ID s = Some (default s (g !! ss_ID s)).
Proof.
  revert g. induction incoming as [|t l IH]; intros g Hn Hs; [by apply elem_of_nil in Hs|]. rewrite fmap_cons, NoDup_cons in Hn. destruct Hn as [Ht Hn].
  change (merged_graph (add_new g t) l !! ss_ID s = Some (default s (g !! ss_ID s))). apply elem_of_cons in Hs as [->|Hs].
  - rewrite (merged_other l (add_new g t)) by done. unfold add_new. destruct (g !! ss_ID t) eqn:E; [by rewrite E|by rewrite lookup_insert_eq].
  - rewrite (IH (add_new g t)) by done. assert (Hne : ss_ID t ≠ ss_ID s) by (intros E; apply Ht; rewrite E; by apply list_elem_of_fmap_2).
    unfold add_new. destruct (g !! ss_ID t); [done|]. by rewrite lookup_insert_ne.
Qed.

Lemma update_exact existing incoming : no_cycle (graph_of existing) →
  ValidateSnapshotGraphUpdate existing incoming = Ok tt ↔ acceptable (graph_of existing) incoming.
Proof.
  intros Hno. set (g := merged_graph (graph_of existing) incoming). set (ids := list_to_set (ss_ID <$> incoming) ∪ ∅ : gset string).
  assert (Hids : ∀ x, x ∈ elements ids ↔ x ∈ ss_ID <$> incoming) by (intros x; rewrite elem_of_elements; unfold ids; set_solver).
  split.
  - intros H. pose proof (update_acyclic _ _ H) as (g' & ids' & Hb & Hac). unfold ValidateSnapshotGraphUpdate in H.
    apply bind_Ok in H as ([g1 ids1] & Hm & H). pose proof (merged _ _ _ _ Hm) as Hb1. apply merge_exact in Hm as (Hn & Hl & [= -> ->]). fold g ids in H, Hb1.
    apply bind_Ok in H as (st & Hv & _). pose proof (visits_sound _ _ _ _ _ Hv) as Hf. apply visits_update in Hv.
    apply (visit_all_ok g) in Hv as (Hst & _ & Hall); [|intros ????; apply visit_spec|apply coloured_empty|intros ??; by rewrite lookup_empty].
    assert (Hfin : finished_ok g st) by (apply Hf; intros a; by rewrite lookup_empty). clear Hf.
    assert (Hwhole : ∀ s u, s ∈ incoming → rtc (parent_link g) (ss_ID s) u → st !! u = Some 2%N).
    { intros s u Hs Hr. assert (H0 : st !! ss_ID s = Some 2%N).
      { destruct (Hall (ss_ID s)) as [?|Hnone]; [apply Hids; by apply list_elem_of_fmap_2|done|]. subst g. by rewrite merged_in in Hnone. }
      clear Hs. induction Hr as [x|x y z Hxy _ IH]; [done|]. apply IH. destruct (co_closed _ _ Hst x y H0 Hxy) as [?|Hy]; [done|].
      destruct (Hfin x H0) as (t & Ht & _ & _ & Hp). apply (links_of g x t y Ht) in Hxy. destruct (Hp y Hxy). congruence. }
    split; [done|by intros s Hs; apply Hl| |].
    + intros s u Hs Hr. apply Hfin. by apply (Hwhole s u).
    + intros x Hx. destruct (decide (st !! x = Some 2%N)) as [Hx2|Hx2]; [by apply (co_clear _ _ Hst x)|].
      apply (Hno x). apply (tc_restrict (parent_link g) _ x x); [|done]. intros u v Hu Huv Hvx.
      assert (Hout : u ∉ ss_ID <$> incoming).
      { intros (s & -> & Hs)%list_elem_of_fmap. apply Hx2, (Hwhole s x Hs). by eapply rtc_l. }
      unfold parent_link, node_parents in *. unfold g in Huv. by rewrite merged_other in Huv.
  - intros [Hn Hm Hw Ha]. fold g in Hw, Ha. unfold ValidateSnapshotGraphUpdate.
    rewrite (proj2 (merge_exact incoming (graph_of existing) ∅ (g, ids))) by (split_and!; [done|set_solver|done]). cbn [mbind result_bind].
    destruct (visit_all_total g (visit g (size g)) (elements ids) ∅ ∅) as [r Hr]; [|apply coloured_empty|done|].
    { intros st id _ Hst [Hv _]. assert (Hg : ∀ a, st !! a = Some 1%N ↔ a ∈ (∅ : gset string)).
      { intros a. rewrite Hv, lookup_empty. set_solver. }
      destruct (visit_total g (size g) st id ∅) as [r Hr]; [done|done|set_solver|set_solver|lia|]. exists r. split; [done|].
      eapply visit_spec; [done|done|]. intros a Hin%Hg. set_solver. }
    pose proof Hr as Hok. apply (visit_all_ok g) in Hok; [|intros ????; apply visit_spec|apply coloured_empty|intros ??; by rewrite lookup_empty].
    destruct r as [st|]; [|destruct Hok as [x Hx]; by destruct (Ha x)].
    rewrite (visits_complete g (λ u, ∃ s, s ∈ incoming ∧ rtc (parent_link g) (ss_ID s) u)) with (st' := st); [done| | | |exact Hr].
    + intros u (s & Hs & Hu). by apply (Hw s).
    + intros u v (s & Hs & Hu) Huv. exists s. split; [done|]. by eapply rtc_r.
    + intros id (s & -> & Hs)%Hids%list_elem_of_fmap. exists s. split; [done|]. apply rtc_refl.
Qed.

(** ** Lemmas: the value a publication stores *)

(** What storing a snapshot over [d] leaves under its id: a stash is promoted by a commit. *)
Definition stored_value (d : disk) (s : ServerSnapshot) : ServerSnapshot :=
  match dk_snapshots d !! ss_ID s with
  | Some e => if (ss_Branch s =? StashBranchLabel) || (ss_Branch e <>? StashBranchLabel) then e else json_snapshot (with_label e (ss_Branch s) (ss_Message s))
  | None => json_snapshot (without_branches s)
  end.

Definition same_document (e s : ServerSnapshot) : Prop := ss_DocHash e = ss_DocHash s ∧ ss_DocIdentity e = ss_DocIdentity s.

(** The checks of [PutSnapshot] that do not depend on the store. *)
Definition put_checks (get : string → result unit) (s : ServerSnapshot) : Prop :=
  validateSnapshotRefs (without_branches s) = Ok tt ∧ for_each (settings_present get) (settings_of (without_branches s)) = Ok tt.

Lemma put_snapshot_exact get d s r : put_snapshot get d s = Ok r ↔ put_checks get s ∧
  match dk_snapshots d !! ss_ID s with
  | Some e => GetSnapshot d (ss_RepoID s) (ss_ID s) = Ok e ∧ same_document e s ∧
      r = if (ss_Branch s =? StashBranchLabel) || (ss_Branch e <>? StashBranchLabel) then None else Some (with_label e (ss_Branch s) (ss_Message s))
  | None => r = Some (without_branches s)
  end.
Proof.
  unfold put_snapshot, put_checks. cbv zeta. change (ss_ID (without_branches s)) with (ss_ID s). change (ss_RepoID (without_branches s)) with (ss_RepoID s).
  change (ss_Branch (without_branches s)) with (ss_Branch s). change (ss_Message (without_branches s)) with (ss_Message s).
  change (ss_DocHash (without_branches s)) with (ss_DocHash s). change (ss_DocIdentity (without_branches s)) with (ss_DocIdentity s).
  rewrite bind_Ok. split.
  - intros ([] & Hv & H). apply bind_Ok in H as ([] & Hs & H). split; [done|]. destruct (dk_snapshots d !! ss_ID s) as [e|] eqn:E.
    + rewrite bool_decide_true in H by (by eexists). apply bind_Ok in H as (e' & He & H). pose proof He as (_ & Hs' & _)%stored_valid.
      assert (e' = e) by congruence. subst e'. apply bind_Ok in H as ([] & Hd%reject_if_Ok & H). apply orb_false_iff in Hd as [H1 H2]. bools.
      split; [done|]. split; [by split|]. destruct (bool_decide (ss_Branch s = _)), (bool_decide (ss_Branch e = _)); cbn in *; congruence.
    + rewrite bool_decide_false in H by (by intros [? ?]). by injection H as <-.
  - intros ([Hv Hs] & H). exists tt. split; [done|]. rewrite Hs. cbn [mbind result_bind]. destruct (dk_snapshots d !! ss_ID s) as [e|] eqn:E.
    + destruct H as (He & [Hd1 Hd2] & ->). rewrite bool_decide_true by (by eexists). rewrite He. cbn [mbind result_bind].
      rewrite Hd1, Hd2, (bool_decide_true (ss_DocHash s = ss_DocHash s)), (bool_decide_true (ss_DocIdentity s = ss_DocIdentity s)) by done. cbn [negb orb reject_if mbind result_bind].
      by destruct (bool_decide (ss_Branch s = _)), (bool_decide (ss_Branch e = _)).
    + subst r. by rewrite bool_decide_false by (by intros [? ?]).
Qed.

Lemma commit_same d id s : dk_snapshots d !! id = Some s → commit d (PutSnapshot id s) = d.
Proof. destruct d. cbn. intros H. by rewrite insert_id. Qed.

(** A put that passes its checks leaves the value. *)
Lemma put_value get s d : put_checks get s → (∀ e, dk_snapshots d !! ss_ID s = Some e → GetSnapshot d (ss_RepoID s) (ss_ID s) = Ok e ∧ same_document e s) →
  PutServerSnapshot get s d [] = Returned (Ok tt) (commit d (PutSnapshot (ss_ID s) (stored_value d s))) [].
Proof.
  intros Hc He. unfold PutServerSnapshot. rewrite write_decided_calm. unfold stored_value.
  destruct (dk_snapshots d !! ss_ID s) as [e|] eqn:E.
  - destruct (He e eq_refl) as [Hg Hd]. rewrite (proj2 (put_snapshot_exact get d s _)) by (split; [done|rewrite E; by split_and!]).
    destruct (_ || _); cbn [mbind result_bind]; [by rewrite commit_same|done].
  - by rewrite (proj2 (put_snapshot_exact get d s _)) by (split; [done|by rewrite E]).
Qed.

(** What any put writes is the value. *)
Lemma put_written get s d w : put_snapshot get d s = Ok (Some w) → json_snapshot w = stored_value d s.
Proof.
  intros (_ & H)%put_snapshot_exact. unfold stored_value. destruct (dk_snapshots d !! ss_ID s) as [e|].
  - destruct H as (_ & _ & H). destruct (_ || _); [done|]. by injection H as ->.
  - by injection H as ->.
Qed.

(** What a value keeps. *)
Lemma value_stored d s e : dk_snapshots d !! ss_ID s = Some e → json_snapshot e = e →
  stored_value d s = e ∨ (stored_value d s = with_label e (ss_Branch s) (ss_Message s) ∧ ss_Branch s ≠ StashBranchLabel).
Proof.
  intros E Hj. unfold stored_value. rewrite E. destruct (bool_decide (ss_Branch s = _)) eqn:Hb; [by left|]. bools. destruct (ss_Branch e <>? _); [by left|]. right.
  split; [|done]. change (json_snapshot (with_label e ?b ?m)) with (with_label (json_snapshot e) b m). cbn [orb]. by rewrite Hj.
Qed.

Section retry.
Context (repo : string) (d0 : disk) (g : server_graph) (ids : gset string) (snaps : list ServerSnapshot)
  (Hok : store_ok repo d0) (Hbatch : batch_graph (dk_snapshots d0) g ids snaps) (Hrepo : ∀ s, s ∈ snaps → ss_RepoID s = repo) (Hg : no_cycle g).

(** A disk between the start and the end of a publication. *)
Record partly (d : disk) : Prop := {
  pa_publishing : publishing repo d0 g d;
  pa_values : ∀ x, dk_snapshots d !! x = dk_snapshots d0 !! x ∨ ∃ s, s ∈ snaps ∧ ss_ID s = x ∧ dk_snapshots d !! x = Some (stored_value d0 s);
  pa_rest : dk_branches d = dk_branches d0 ∧ dk_sessions d = dk_sessions d0 ∧ dk_reflog d = dk_reflog d0 ∧ dk_journal d = dk_journal d0 }.

Lemma distinct_snaps s t : s ∈ snaps → t ∈ snaps → ss_ID s = ss_ID t → s = t.
Proof. intros Hs Ht E. by apply (NoDup_fmap_inj_on _ _ _ _ (bg_distinct _ _ _ _ Hbatch)). Qed.

(** Storing a snapshot again stores the same value. *)
Lemma value_again d s : partly d → s ∈ snaps → stored_value d s = stored_value d0 s.
Proof.
  intros Hp Hs. destruct (pa_values _ Hp (ss_ID s)) as [E|(t & Ht & Hid & E)]; [unfold stored_value; by rewrite E|].
  assert (t = s) by (by apply distinct_snaps). subst t. unfold stored_value at 1. rewrite E. unfold stored_value.
  destruct (dk_snapshots d0 !! ss_ID s) as [e|].
  - destruct ((ss_Branch s =? StashBranchLabel) || (ss_Branch e <>? StashBranchLabel)) eqn:Hc; [by rewrite Hc|]. apply orb_false_iff in Hc as [Hb _].
    change (ss_Branch (json_snapshot (with_label e ?b ?m))) with b. by rewrite Hb.
  - change (ss_Branch (json_snapshot (without_branches s))) with (ss_Branch s). by destruct (bool_decide (ss_Branch s = StashBranchLabel)).
Qed.

Lemma partly_put get s : s ∈ snaps → keeps partly (PutServerSnapshot get s).
Proof.
  intros Hs d fs Hd. split.
  - by apply (put_publishing repo d0 g ids snaps Hbatch Hrepo Hg get s Hs), (pa_publishing _ Hd).
  - apply (write_decided_cases (λ d', ∀ x, dk_snapshots d' !! x = dk_snapshots d0 !! x ∨ ∃ s, s ∈ snaps ∧ ss_ID s = x ∧ dk_snapshots d' !! x = Some (stored_value d0 s))).
    + apply Hd.
    + intros w Hw x. rewrite (put_written _ _ _ _ Hw), put_snapshots, lookup_insert. case_decide as E; [|apply Hd].
      right. exists s. by rewrite (value_again d s Hd Hs).
  - apply (write_decided_cases (λ d', dk_branches d' = dk_branches d0 ∧ dk_sessions d' = dk_sessions d0 ∧ dk_reflog d' = dk_reflog d0 ∧ dk_journal d' = dk_journal d0)).
    + apply Hd.
    + intros w _. destruct d. apply Hd.
Qed.

(** What a put of a snapshot needs on any such disk. *)
Record storable (get : string → result unit) (changed : result unit) (s : ServerSnapshot) : Prop := {
  sb_checks : put_checks get s;
  sb_stored : ∀ e, dk_snapshots d0 !! ss_ID s = Some e → same_document e s ∧ (stored_value d0 s = e ∨ changed = Ok tt) }.

Lemma partly_read d x t : partly d → dk_snapshots d !! x = Some t → GetSnapshot d repo x = Ok t.
Proof. intros Hd. apply (sh_sound _ _ (proj1 (pb_ok _ _ _ _ (pa_publishing _ Hd)))). Qed.

Lemma value_document s : (∀ e, dk_snapshots d0 !! ss_ID s = Some e → same_document e s) → same_document (stored_value d0 s) s.
Proof.
  intros He. destruct (dk_snapshots d0 !! ss_ID s) as [e|] eqn:E; [|unfold stored_value; by rewrite E].
  destruct (value_stored d0 s e E) as [->|[-> _]]; [by eapply (sh_decoded _ _ (proj1 Hok))|by apply He|by apply (He e)].
Qed.

Definition put_value_of (d : disk) (s : ServerSnapshot) : disk := commit d (PutSnapshot (ss_ID s) (stored_value d0 s)).

Lemma put_storable get changed s d : storable get changed s → s ∈ snaps → partly d →
  PutServerSnapshot get s d [] = Returned (Ok tt) (put_value_of d s) [] ∧ partly (put_value_of d s).
Proof.
  intros [Hc Hst] Hs Hd.
  assert (H : PutServerSnapshot get s d [] = Returned (Ok tt) (put_value_of d s) []).
  { unfold put_value_of. rewrite <- (value_again d s Hd Hs). apply put_value; [done|]. intros v Hv. rewrite (Hrepo s Hs). split; [by apply partly_read|].
    destruct (pa_values _ Hd (ss_ID s)) as [E|(t & Ht & Hid & E)]; rewrite E in Hv; [by apply Hst|].
    injection Hv as <-. assert (t = s) by (by apply distinct_snaps). subst t. apply value_document. intros e He. by apply Hst. }
  split; [done|]. pose proof (partly_put get s Hs d [] Hd) as Hp. by rewrite H in Hp.
Qed.

Lemma value_read d s : partly (put_value_of d s) → GetSnapshot (put_value_of d s) repo (ss_ID s) = Ok (stored_value d0 s).
Proof. intros H. apply partly_read; [done|]. unfold put_value_of. by rewrite put_snapshots, lookup_insert_eq. Qed.

Lemma absent_read get s d : put_checks get s → dk_snapshots d !! ss_ID s = None → GetSnapshot d repo (ss_ID s) = Err ErrNotFound.
Proof.
  intros [(H & _)%valid_hashes _] Hn. change (ss_ID (without_branches s)) with (ss_ID s) in H. unfold GetSnapshot. cbn [for_each].
  rewrite (proj2 (server_hash_Ok repo) (proj1 (sh_sound _ _ (proj1 Hok)))), (proj2 (server_hash_Ok _) H). cbn [mbind result_bind]. by rewrite Hn.
Qed.

Lemma put_one_storable get changed s out d : storable get changed s → s ∈ snaps → partly d →
  ∃ out', put_one get changed s out d [] = Returned (Ok out') (put_value_of d s) [].
Proof.
  intros Hst Hs Hd. destruct (put_storable get changed s d Hst Hs Hd) as [Hput Hd']. unfold put_one, mbind, io_bind, attempt, get_disk, lift.
  rewrite (Hrepo s Hs). destruct (dk_snapshots d !! ss_ID s) as [v|] eqn:Hv.
  - rewrite (partly_read d _ v Hd Hv), Hput, (value_read d s Hd'). destruct (bool_decide (v = stored_value d0 s)) eqn:E; [by eexists|]. bools.
    assert (Hch : changed = Ok tt).
    { destruct (pa_values _ Hd (ss_ID s)) as [E0|(t & Ht & Hid & E0)]; rewrite E0 in Hv.
      - destruct (sb_stored _ _ _ Hst v Hv) as [_ [Hval|?]]; [by rewrite Hval in E|done].
      - injection Hv as <-. by rewrite (distinct_snaps t s Ht Hs Hid) in E. }
    rewrite Hch. by eexists.
  - rewrite (absent_read get s d (sb_checks _ _ _ Hst) Hv), Hput. by eexists.
Qed.

(** A put that succeeded was storable. *)
Lemma put_one_was_storable get changed s out d out' d' : put_one get changed s out d [] = Returned (Ok out') d' [] → s ∈ snaps → partly d →
  dk_snapshots d !! ss_ID s = dk_snapshots d0 !! ss_ID s → storable get changed s.
Proof.
  intros H Hs Hd Hsame. pose proof (put_one_calm _ _ _ _ _ _ _ _ H) as [_ Hr]. destruct (Hr out' eq_refl) as [Hput _]. clear Hr.
  pose proof Hput as Hp. unfold PutServerSnapshot in Hp. rewrite write_decided_calm in Hp. destruct (put_snapshot get d s) as [r|e] eqn:Er; [|done].
  pose proof Er as (Hc & Hdoc)%put_snapshot_exact. split; [done|]. intros e He. rewrite Hsame, He in Hdoc. destruct Hdoc as (_ & Hdoc & Hr). split; [done|].
  assert (Hst : ∀ e, dk_snapshots d !! ss_ID s = Some e → GetSnapshot d (ss_RepoID s) (ss_ID s) = Ok e ∧ same_document e s).
  { intros e' He'. assert (e' = e) by congruence. subst e'. split; [|done]. rewrite (Hrepo s Hs). by apply partly_read. }
  pose proof (put_value get s d Hc Hst) as Hv. rewrite (value_again d s Hd Hs) in Hv.
  pose proof (partly_put get s Hs d [] Hd) as Hd'. rewrite Hv in Hd'. cbn [disk_after] in Hd'.
  unfold put_one, mbind, io_bind, attempt, get_disk, lift in H. rewrite (Hrepo s Hs), (partly_read d _ e Hd), Hv in H by congruence.
  fold (put_value_of d s) in H, Hd'. rewrite (value_read d s Hd') in H. destruct (bool_decide (e = stored_value d0 s)) eqn:E; bools; [by left|right].
  by destruct changed as [[]|].
Qed.

Definition put_values : list ServerSnapshot → disk → disk := λ l d, fold_left put_value_of l d.

Lemma put_all_storable get changed l d out : (∀ s, s ∈ l → s ∈ snaps ∧ storable get changed s) → partly d →
  ∃ out', put_all get changed l out d [] = Returned (Ok out') (put_values l d) [].
Proof.
  revert d out. induction l as [|s l IH]; intros d out Hl Hd; cbn [put_all]; [by eexists|]. destruct (Hl s ltac:(left)) as [Hs Hst].
  destruct (put_one_storable get changed s out d Hst Hs Hd) as [out1 H1]. destruct (put_storable get changed s d Hst Hs Hd) as [_ Hd1].
  destruct (IH (put_value_of d s) out1) as [out' H]; [intros t Ht; apply Hl; by right|done|]. exists out'.
  unfold mbind, io_bind, attempt. by rewrite H1, H.
Qed.

Lemma put_all_was_storable get changed l d out out' d' : put_all get changed l out d [] = Returned (Ok out') d' [] → (∀ s, s ∈ l → s ∈ snaps) →
  NoDup (ss_ID <$> l) → partly d → (∀ s, s ∈ l → dk_snapshots d !! ss_ID s = dk_snapshots d0 !! ss_ID s) → ∀ s, s ∈ l → storable get changed s.
Proof.
  revert d out. induction l as [|s l IH]; intros d out H Hl Hn Hd Hsame t Ht; [by apply elem_of_nil in Ht|]. cbn [put_all] in H.
  rewrite fmap_cons, NoDup_cons in Hn. destruct Hn as [Hsn Hn]. unfold mbind, io_bind, attempt in H.
  destruct (put_one get changed s out d []) as [r d1 fs1|d1] eqn:E; [|done]. pose proof E as [-> _]%put_one_calm. destruct r as [out1|e]; [|done].
  assert (Hs : s ∈ snaps) by (apply Hl; left).
  pose proof (put_one_was_storable _ _ _ _ _ _ _ E Hs Hd (Hsame s ltac:(left))) as Hst. apply elem_of_cons in Ht as [->|Ht]; [done|].
  destruct (put_storable get changed s d Hst Hs Hd) as [_ Hd1]. destruct (put_one_storable get changed s out d Hst Hs Hd) as [out2 H2].
  rewrite E in H2. injection H2 as _ ->. apply (IH (put_value_of d s) out1 H); [intros u Hu; apply Hl; by right|done|done| |done].
  intros u Hu. unfold put_value_of. rewrite put_snapshots, lookup_insert_ne; [apply Hsame; by right|]. intros Eq. apply Hsn. rewrite Eq. by apply list_elem_of_fmap_2.
Qed.

Lemma put_values_agree l d d' : (∀ x, x ∉ ss_ID <$> l → dk_snapshots d !! x = dk_snapshots d' !! x) →
  dk_branches d = dk_branches d' ∧ dk_sessions d = dk_sessions d' ∧ dk_reflog d = dk_reflog d' ∧ dk_journal d = dk_journal d' → put_values l d = put_values l d'.
Proof.
  revert d d'. induction l as [|s l IH]; intros d d' Hx Hrest.
  - destruct d, d'. cbn in *. destruct Hrest as (-> & -> & -> & ->). f_equal. apply map_eq. intros x. apply Hx. by intros ?%elem_of_nil.
  - apply (IH (put_value_of d s) (put_value_of d' s)); [|by destruct d, d'].
    intros x Hxl. unfold put_value_of. rewrite !put_snapshots, !lookup_insert. case_decide; [done|]. apply Hx. set_solver.
Qed.

Lemma put_values_again d : partly d → put_values snaps d = put_values snaps d0.
Proof.
  intros Hd. apply put_values_agree; [|apply Hd]. intros x Hx. destruct (pa_values _ Hd x) as [?|(s & Hs & <- & _)]; [done|].
  destruct Hx. by apply list_elem_of_fmap_2.
Qed.
End retry.

(** ** Lemmas: the validation again *)

(** Graphs with the same snapshots and the same parents. *)
Definition same_shape (g g' : server_graph) : Prop := ∀ x, server_ReachabilityParents <$> g !! x = server_ReachabilityParents <$> g' !! x.

Lemma same_shape_link g g' x y : same_shape g g' → parent_link g x y ↔ parent_link g' x y.
Proof.
  intros H. unfold parent_link, node_parents. specialize (H x). destruct (g !! x) as [s|], (g' !! x) as [s'|]; try done. injection H as H. cbn. by rewrite H.
Qed.

Lemma same_shape_present g g' x : same_shape g g' → is_Some (g !! x) ↔ is_Some (g' !! x).
Proof. intros H. specialize (H x). destruct (g !! x), (g' !! x); done. Qed.

Lemma same_shape_node g g' x : same_shape g g' → node_ok g x → node_ok g' x.
Proof.
  intros H (s & Hs & Hn & Hx & Hp). pose proof (H x) as Hxs. rewrite Hs in Hxs. destruct (g' !! x) as [s'|] eqn:E; [|done]. injection Hxs as E'.
  exists s'. rewrite <- E'. split_and!; [done|done|done|]. intros p Hin. by apply (same_shape_present g g'), Hp.
Qed.

Section again.
Context (repo : string) (d0 : disk) (g : server_graph) (ids : gset string) (snaps : list ServerSnapshot)
  (Hok : store_ok repo d0) (Hbatch : batch_graph (dk_snapshots d0) g ids snaps) (Hrepo : ∀ s, s ∈ snaps → ss_RepoID s = repo) (Hg : no_cycle g).
#[local] Notation partly := (partly repo d0 g snaps).

(** The snapshot of a batch that is stored, before its publication and during it. *)
Lemma value_agrees s : s ∈ snaps → mergeable_one (dk_snapshots d0) s → agrees (stored_value d0 s) s ∧
  server_ReachabilityParents (stored_value d0 s) = server_ReachabilityParents (default s (dk_snapshots d0 !! ss_ID s)).
Proof.
  intros Hs Hm. unfold mergeable_one in Hm. destruct (dk_snapshots d0 !! ss_ID s) as [e|] eqn:E.
  - destruct (value_stored d0 s e E) as [->|[-> _]]; [by eapply (sh_decoded _ _ (proj1 Hok))|by split|]. split; [|done]. destruct Hm. by split.
  - unfold stored_value. rewrite E. destruct Hm as (H1 & H2 & H3). split.
    + split; [done| | |]; cbn [json_snapshot without_branches ss_GraftParents ss_Grafted ss_GraftSeq]; [by rewrite H2; intros p ?%elem_of_nil|by rewrite H1|by rewrite H3].
    + cbn [default]. unfold server_ReachabilityParents. cbn [json_snapshot without_branches ss_GraftParents ss_Parents ss_ID]. by rewrite ?elems_json_slice, ?H2.
Qed.

Lemma acceptable_again d : partly d → acceptable (dk_snapshots d0) snaps → acceptable (dk_snapshots d) snaps.
Proof.
  intros Hd [Hn Hm Hw Ha].
  assert (Hval : ∀ s, s ∈ snaps → dk_snapshots d !! ss_ID s = dk_snapshots d0 !! ss_ID s ∨ dk_snapshots d !! ss_ID s = Some (stored_value d0 s)).
  { intros s Hs. destruct (pa_values _ _ _ _ _ Hd (ss_ID s)) as [?|(t & Ht & E & ?)]; [by left|right].
    assert (t = s) as <- by (by apply (NoDup_fmap_inj_on ss_ID snaps)). done. }
  assert (Hshape : same_shape (merged_graph (dk_snapshots d0) snaps) (merged_graph (dk_snapshots d) snaps)).
  { intros x. destruct (decide (x ∈ ss_ID <$> snaps)) as [(s & -> & Hs)%list_elem_of_fmap|Hx].
    - rewrite !merged_in by done. cbn [fmap option_fmap option_map]. f_equal. destruct (value_agrees s Hs (Hm s Hs)) as [_ Hv].
      destruct (Hval s Hs) as [->| ->]; [done|]. by rewrite <- Hv.
    - rewrite !merged_other by done. destruct (pa_values _ _ _ _ _ Hd x) as [->|(t & Ht & <- & _)]; [done|]. destruct Hx. by apply list_elem_of_fmap_2. }
  split; [done| | |].
  - intros s Hs. unfold mergeable_one. destruct (Hval s Hs) as [->| ->]; [by apply Hm|]. by apply value_agrees, Hm.
  - intros s u Hs Hr. apply (same_shape_node _ _ u Hshape), (Hw s u Hs). revert Hr. apply rtc_subrel. intros x y. by apply same_shape_link.
  - intros x Hx. apply (Ha x). revert Hx. apply tc_mono. intros y z. by apply same_shape_link.
Qed.
End again.

(** A batch is checked as it was, on a store that its publication left. *)
Lemma checked_again ports docs repo incoming d d' snaps : checked_batch ports docs repo incoming d = Ok snaps → store_ok repo d → store_ok repo d' →
  (acceptable (dk_snapshots d) snaps → acceptable (dk_snapshots d') snaps) → checked_batch ports docs repo incoming d' = Ok snaps.
Proof.
  intros H Hd Hd' Hacc. unfold checked_batch in *. apply bind_Ok in H as (out & Hn & H). rewrite Hn. cbn [mbind result_bind].
  apply bind_Ok in H as ([] & Hb & H). rewrite Hb. cbn [mbind result_bind]. apply bind_Ok in H as (existing & Hl & H). apply bind_Ok in H as ([] & Hv & H).
  apply bind_Ok in H as ([] & Hp & [= <-]). pose proof (listed _ _ _ Hl) as (_ & _ & Hgr).
  destruct (ListSnapshots_total d' repo (sh_sound _ _ (proj1 Hd'))) as [existing' Hl']. pose proof (listed _ _ _ Hl') as (_ & _ & Hgr').
  rewrite Hl'. cbn [mbind result_bind]. apply update_exact in Hv; [|rewrite Hgr; apply Hd]. rewrite Hgr in Hv.
  rewrite (proj2 (update_exact existing' out ltac:(rewrite Hgr'; apply Hd'))) by (rewrite Hgr'; auto). cbn [mbind result_bind]. by rewrite Hp.
Qed.

(** ** Claims *)

(** C16: The validation of a batch accepts exactly the batches the graph can take.  On a graph
    without a cycle, the snapshots of a batch are accepted if and only if their ids are distinct,
    each one that is stored agrees with the object and does not go beyond its register, each new
    one has no register, the merged graph has no cycle, and below the batch every snapshot is
    present with distinct parents other than itself. *)
Theorem graph_update_exact existing incoming : no_cycle (graph_of existing) →
  ValidateSnapshotGraphUpdate existing incoming = Ok tt ↔ acceptable (graph_of existing) incoming.
Proof. apply update_exact. Qed.

(** C15: A publication can be repeated.  Let a publication succeed on a well formed store if
    nothing disturbs it, and let any of its writes fail instead, before or after having its
    effect, or be where the process dies.  Then the same publication, repeated on what was left,
    is accepted and ends in the very store that the undisturbed one leaves. *)
Theorem publication_retry ports docs repo incoming d d' out fs : store_ok repo d →
  publish_snapshots ports docs repo incoming d [] = Returned (Ok out) d' [] →
  ∃ out', publish_snapshots ports docs repo incoming (disk_after (publish_snapshots ports docs repo incoming d fs)) [] = Returned (Ok out') d' [].
Proof.
  intros Hok H. unfold publish_snapshots at 2, mbind, io_bind, attempt, get_disk, lift. unfold publish_snapshots, mbind, io_bind, attempt, get_disk, lift in H.
  destruct (checked_batch ports docs repo incoming d) as [snaps|e] eqn:E; [|done].
  destruct (batch_checked _ _ _ _ _ _ Hok E) as (g & ids & Hb & Hn & Hr & Hp).
  set (zero := MkCommitOutput 0 0) in *. set (get := pp_settings ports) in *. set (changed := pp_graph_changed ports) in *.
  assert (Hstart : partly repo d g snaps d) by (split; [done|by left|done]).
  assert (Hst : ∀ s, s ∈ snaps → storable d get changed s).
  { apply (put_all_was_storable repo d g ids snaps Hok Hb Hr Hn get changed snaps d zero out d' H); [done|by eapply bg_distinct|done|done]. }
  destruct (put_all_storable repo d g ids snaps Hok Hb Hr Hn get changed snaps d zero) as [out0 H0]; [auto|done|].
  rewrite H0 in H. injection H as _ <-.
  pose proof (put_all_keeps (partly repo d g snaps) get changed snaps (λ s Hs, partly_put repo d g ids snaps Hb Hr Hn get s Hs) zero d fs Hstart) as Hleft.
  set (d1 := disk_after (put_all get changed snaps zero d fs)) in *.
  assert (Hok1 : store_ok repo d1) by (by apply (pb_ok _ _ _ _ (pa_publishing _ _ _ _ _ Hleft))).
  assert (E1 : checked_batch ports docs repo incoming d1 = Ok snaps).
  { apply (checked_again _ _ _ _ d); [done|done|done|]. by apply (acceptable_again repo d g snaps). }
  destruct (put_all_storable repo d g ids snaps Hok Hb Hr Hn get changed snaps d1 zero) as [out' H1]; [auto|done|].
  exists out'. unfold publish_snapshots, mbind, io_bind, attempt, get_disk, lift. rewrite E1. fold get changed zero. rewrite H1.
  by rewrite (put_values_again repo d g ids snaps Hok Hb Hr Hn d1 Hleft).
Qed.

(** ** A repeated batch *)

Lemma publication_retry_witness : ∃ out',
  publish_snapshots BatchSamples.ports ∅ JoinSamples.repo BatchSamples.incoming
    (disk_after (publish_snapshots BatchSamples.ports ∅ JoinSamples.repo BatchSamples.incoming StoreSamples.d0 [Succeeds; Dies])) []
  = Returned (Ok out') BatchSamples.published [].
Proof. exact (publication_retry _ _ _ _ _ _ _ [Succeeds; Dies] StoreSamples.d0_ok BatchSamples.batch_published). Defined.

Lemma graph_update_exact_witness : acceptable (graph_of StoreSamples.listing) BatchSamples.incoming.
Proof.
  apply (proj1 (graph_update_exact StoreSamples.listing BatchSamples.incoming
    (proj1 (has_cycle_spec StoreSamples.listing) ltac:(vm_compute; reflexivity)))).
  vm_compute. reflexivity.
Defined.
